(* ===== verification/_CoqProject ===== *)
-Q . S2P
Prelude.v
BitOps.v
Bitmap.v
Heap.v
PageEntries.v
PhysicalZone.v
PhysicalRegion.v
VirtualRange.v
Region.v
RegionTree.v
AddressSpace.v
StringView.v
LexicalPath.v
Process.v
Sessions.v
Unveil.v
Mmap.v
DoubleBuffer.v
BlockerSet.v
WaitQueue.v
Futex.v
Fifo.v
Mutex.v
TimerQueue.v
Checksum.v
Adler32.v
RamFile.v
InodeMetadata.v
RamFS.v
VFS.v
VFSResolve.v
VFSAccess.v
VFSCorners.v
