(* ===== verification/Prelude.v ===== *)
(** * MixUpOS: the kernel's allocators, security state, synchronisation and files

    A verification of parts of the MixUpOS kernel (directory [src/Kernel], with the
    pieces of [src/AK] it relies on and two checksums of [LibCrypto]).  The C++
    code is written as Gallina functions that can be run; the theorems are about
    these functions.

    ** The program and its parts

    The kernel gives out physical pages ([PhysicalRegion] over buddy zones),
    lays regions of virtual memory over them ([RegionTree], [AddressSpace]) and
    changes them in the memory system calls ([mmap.cpp]).  Its own objects come
    from a heap of chunks ([Heap.h]) that is kept in a bitmap ([AK/BitmapView.h]).
    A process has user and group ids and promises ([setuid.cpp], [pledge.cpp]), a
    veil over the paths it may use ([unveil.cpp]), and a place in a group and a
    session ([setpgid.cpp], [kill.cpp]).  Threads block and wake in futexes,
    pipes, mutexes and timers.  Paths are resolved and files changed in the
    virtual file system ([VirtualFileSystem.cpp]), here over [RAMFS].

    ** How code is modelled

    This file holds what all others use.  [outcome] is the result of code that
    can fail: [Ok], [Err] with the errno of an [ErrorOr], [Panic] for a failed
    [VERIFY], [Undefined] for what C++ gives no meaning to (an access outside a
    buffer, say).  Code that changes state is an [action]: state to state and
    outcome, so what was done before a failure is in the state after it; [wp]
    is its weakest precondition, with a condition for success, for errors and
    for panics.  Integers are [Z], wrapped where the code's type wraps ([u8],
    [u16], [u32], [u64], [i16] and the like).  Memory that may run out, clocks,
    random numbers and user memory that may fault are arguments.  Constants
    of the code are abbreviations.  Locks are left out: what runs under one
    spinlock is one step, and code that lets go of it is several steps, which the
    step relations of [Mutex.v], [Futex.v] and [TimerQueue.v] interleave.

    ** Files

    - Memory.  [BitOps.v]: bit scans and roundings ([AK/BuiltinWrappers.h]).
      [Bitmap.v]: bitmaps and the searches for free runs ([AK/BitmapView.h],
      [AK/Bitmap.h]).  [Heap.v]: the chunk heap ([Kernel/Heap/Heap.h]).
      [PageEntries.v], [PhysicalZone.v], [PhysicalRegion.v]: page entries, the
      buddy allocator with its linked freelists, and regions of zones
      ([Kernel/Memory/Physical*.cpp]).  [VirtualRange.v], [Region.v],
      [RegionTree.v], [AddressSpace.v]: ranges, regions with their page table
      entries, the ordered tree of regions (class [OrderedTree] with its laws, and an
      instance) and the address space of a process on top of it.  [Mmap.v]: the
      system calls of [Kernel/Syscalls/mmap.cpp].
    - Text.  [StringView.v] and [LexicalPath.v]: [AK/StringView.h] and
      [Kernel/Library/KLexicalPath.cpp].
    - Security of processes.  [Process.v]: promises and ids.  [Sessions.v]: process
      lists, groups, sessions, signals to groups, the foreground group of a
      terminal.  [Unveil.v]: the trie of unveiled paths and the rules it stands for.
    - Synchronisation.  [BlockerSet.v], [WaitQueue.v], [Futex.v], [Mutex.v],
      [TimerQueue.v]; [DoubleBuffer.v] with the class [ByteQueue] it implements,
      and [Fifo.v], pipes over any [ByteQueue].
    - Checksums.  [Checksum.v] (CRC-32) and [Adler32.v].
    - Files.  [RamFile.v]: the blocks of a file ([Kernel/FileSystem/RAMFS/Inode.cpp]).
      [InodeMetadata.v]: modes, owners, permissions.  [RamFS.v]: inodes and
      directories.  [VFS.v]: custodies, mounts, the resolution of paths and the
      operations of [VirtualFileSystem.cpp].  [VFSResolve.v] and [VFSAccess.v]:
      what holds of them.  [VFSCorners.v]: calls that go wrong.

    Each file has a [Module] for its component; definitions have the names of
    the functions and fields they stand for (a keyword or a clash gets an
    underscore, a system call [sys$x] is [sys_x]).

    ** What is shown

    - Allocation is exact: an allocation returns memory that was free and nothing
      else changes hands, a release gives back just what was taken, and failure
      means there was nothing ([allocate_block_exact], [deallocate_block_exact],
      [take_free_page_exact], [return_page_exact], [allocate_safe],
      [deallocate_live], [find_first_fit_exact]); a zone whose blocks are all freed is
      one block again ([unused_zone_is_whole]); a double free is caught
      ([double_free_panics]).
    - Address spaces keep their invariant, and an operation changes just what
      addresses see in its range ([place_anywhere_safe],
      [allocate_region_with_vmobject_exact], [unmap_mmap_range_exact],
      [mprotect_exact]); no sequence of calls makes memory writable and
      executable ([writable_xor_executable]).
    - Privileges only shrink: ids ([no_identity_gained]), promises
      ([promise_stays_given_up]), the veil ([veil_never_widens], with
      [veil_refines_rules] saying what it means), and what a child gets
      ([fork_confines]).  Groups stay within sessions ([group_in_one_session],
      [foreground_in_session], [killpg_exact], [root_session_terminates]).
    - Synchronisation loses nothing, whatever the interleaving: [mutex_excludes],
      [futex_no_lost_waiter], [futex_keys_exact], [wake_n_exact],
      [fifo_no_lost_wakeup], [double_buffer_stream], [cancel_timer_exact],
      [fire_exact].
    - Checksums are what they should be ([crc32_update_exact],
      [adler32_chunk_exact]).
    - Files: a RAM file is a flat array of bytes ([ram_file_refines]); resolution
      of a path ends, and finds only what the caller may reach
      ([resolve_path_sound], [resolve_path_roundtrip], [path_roundtrip]); calls
      change only what permissions allow, one by one ([access_control]) and in any
      sequence ([files_of_others]).

    Where the code does not do what it means to, a lemma shows the run: see
    [VFSCorners.v], [RamFile.failed_truncate_breaks_file],
    [Bitmap.find_best_fit_diverges] and [Process.setreuid_never_succeeds].

    ** Bounds and fuel

    Recursion that is not structural takes fuel.  The buddy allocator recurses
    once per order; [max_order] is 12, and it gets 14.  The zones of a region, the
    bits of a bitmap and the blocks of a file get their number, the loops over
    timers, regions and blocked threads the length of the list, and the
    reading of a link its greatest length.  [resolve_path_without_veil] recurses
    on what is left of [symlink_recursion_limit], the code's own bound.  The
    theorems say that with this fuel a result is returned.  Loops that
    need not end take their fuel as an argument: [find_best_fit] is shown to end for
    the requests the heap makes and never to end for a short one
    ([Bitmap.find_best_fit_exact], [Bitmap.find_best_fit_diverges]), and that of
    [get_root_session_id] to end within the number of pids that were given out.

    ** Not modelled

    Page faults and copy on write; the scheduler, context switches and delivery
    of signals; atomic instructions and spinlocks; loading of programs; file
    descriptors; mounting, and file systems other than [RAMFS]; the network;
    devices, buses, firmware, boot code and everything that depends on a
    processor: these are driven by hardware or are large programs of their own.
    Reference counts are left out except where an operation looks at them, so an
    inode without entries stays in the store of [RamFS.v].  Of the libraries of
    the userland only the two checksums are here; applications, services and the
    browser are separate programs that rely on none of the code above but its system
    calls. *)

From stdpp Require Export prelude list numbers gmap.
From Stdlib Require Export ZArith Lia Bool.

#[export] Set Default Goal Selector "!".

Declare Scope kernel_scope.
Delimit Scope kernel_scope with kernel.

(** ** Outcomes

    [Ok] is a normal return, [Err] is an [ErrorOr] that carries an errno,
    [Panic] is a failed [VERIFY] and [Undefined] is an access the C++
    abstract machine gives no meaning to (an out-of-bounds byte, say). *)

Inductive Errno : Type :=
| EPERM | ENOENT | EINTR | EIO | EBADF | EAGAIN | ENOMEM | EACCES | EFAULT
| EEXIST | ENOTDIR | EISDIR | EINVAL | EFBIG | ENOSPC | EPIPE | ERANGE
| EOVERFLOW | ELOOP | ENAMETOOLONG | EHOSTUNREACH | EADDRINUSE
| EADDRNOTAVAIL | ETIMEDOUT | ECONNREFUSED | EINPROGRESS | ENOTCONN
| EISCONN | ENOPROTOOPT | EPROMISEVIOLATION | ESRCH | ENOTTY | ENOTSUP
| E2BIG | ENODEV | ENOTIMPL | ENOSYS | ENXIO | EXDEV | EROFS | ENOTEMPTY | EBUSY
| ECHILD | EDOM | ENOBUFS | ECONNRESET | ECONNABORTED | EILSEQ | EMLINK
| EDIRINTOSELF.

#[global] Instance Errno_eq_dec : EqDecision Errno.
Proof. solve_decision. Defined.

Inductive outcome (A : Type) : Type :=
| Ok (a : A)
| Err (e : Errno)
| Panic
| Undefined.

Arguments Ok {A} a.
Arguments Err {A} e.
Arguments Panic {A}.
Arguments Undefined {A}.

Definition bind {A B} (m : outcome A) (k : A -> outcome B) : outcome B :=
  match m with
  | Ok a => k a
  | Err e => Err e
  | Panic => Panic
  | Undefined => Undefined
  end.

Notation "'let!' p := m 'in' k" := (bind m (fun p => k))
  (at level 10, p strict pattern, m at level 200, k at level 200)
  : kernel_scope.

(** [VERIFY(b); k] *)
Notation "'VERIFY' b ;; k" := (if b then k else Panic)
  (at level 60, b at level 0, right associativity) : kernel_scope.

(** A statement that never failed an assertion or left the defined language. *)
Definition no_crash {A} (o : outcome A) : Prop :=
  match o with Panic | Undefined => False | _ => True end.

Lemma bind_ok_inv {A B} (m : outcome A) (k : A -> outcome B) b :
  bind m k = Ok b -> exists a, m = Ok a /\ k a = Ok b.
Proof. destruct m; simpl; try discriminate; eauto. Qed.

(** ** Stateful code

    A method that changes the state of its object and may fail.  The state is
    kept on every path: what an operation did before it failed stays done. *)

Definition action (S A : Type) : Type := S -> S * outcome A.

Definition ret {S A} (a : A) : action S A := fun s => (s, Ok a).

Definition abind {S A B} (m : action S A) (k : A -> action S B) : action S B :=
  fun s => match m s with
           | (s, Ok a) => k a s
           | (s, Err e) => (s, Err e)
           | (s, Panic) => (s, Panic)
           | (s, Undefined) => (s, Undefined)
           end.

Definition lift {S A} (o : outcome A) : action S A := fun s => (s, o).

Definition gets {S A} (f : S -> A) : action S A := fun s => (s, Ok (f s)).

Definition modify {S} (f : S -> S) : action S unit := fun s => (f s, Ok tt).

Notation "'let*' p := m 'in' k" := (abind m (fun p => k))
  (at level 10, p strict pattern, m at level 200, k at level 200)
  : kernel_scope.

(** [wp m Q E C s]: run from [s], [m] returns with [Q], fails with an errno in
    a state that satisfies [E], or panics where [C] holds; it is never
    undefined. *)
Definition wp {S A} (m : action S A) (Q : A -> S -> Prop) (E : S -> Prop) (C : Prop) (s : S)
    : Prop :=
  match m s with
  | (s', Ok a) => Q a s'
  | (s', Err _) => E s'
  | (_, Panic) => C
  | (_, Undefined) => False
  end.

Lemma wp_bind {S A B} (m : action S A) (k : A -> action S B) Q E C s :
  wp m (fun a s' => wp (k a) Q E C s') E C s -> wp (abind m k) Q E C s.
Proof. unfold wp, abind. by destruct (m s) as [s' []]. Qed.

Lemma wp_mono {S A} (m : action S A) (Q Q' : A -> S -> Prop) (E E' : S -> Prop) (C C' : Prop) s :
  wp m Q E C s -> (forall a s', Q a s' -> Q' a s') -> (forall s', E s' -> E' s') -> (C -> C') ->
  wp m Q' E' C' s.
Proof. unfold wp. destruct (m s) as [s' []]; auto. Qed.

Lemma wp_and {S A} (m : action S A) (Q Q' : A -> S -> Prop) (E E' : S -> Prop) (C C' : Prop) s :
  wp m Q E C s -> wp m Q' E' C' s ->
  wp m (fun a s' => Q a s' /\ Q' a s') (fun s' => E s' /\ E' s') (C /\ C') s.
Proof. unfold wp. destruct (m s) as [s' []]; auto. Qed.

Lemma wp_ret {S A} (a : A) Q E C (s : S) : Q a s -> wp (ret a) Q E C s.
Proof. done. Qed.

(** The postcondition and the error condition of a run that is known. *)
Lemma wp_ok_inv {S A} (m : action S A) Q E C (s s' : S) a :
  wp m Q E C s -> m s = (s', Ok a) -> Q a s'.
Proof. unfold wp. intros H E1. by rewrite E1 in H. Qed.

Open Scope kernel_scope.
Open Scope Z_scope.

#[global] Arguments Z.eqb !x !y /.
#[global] Arguments Z.ltb !x !y /.
#[global] Arguments Z.leb !x !y /.

(** ** Machine words *)

Definition wrap (w x : Z) : Z := x mod 2 ^ w.
Definition u8 (x : Z) : Z := wrap 8 x.
Definition u16 (x : Z) : Z := wrap 16 x.
Definition u32 (x : Z) : Z := wrap 32 x.
Definition u64 (x : Z) : Z := wrap 64 x.

(** [static_cast<iN>(x)]: two's complement narrowing. *)
Definition sext (w x : Z) : Z :=
  let y := wrap w x in if y <? 2 ^ (w - 1) then y else y - 2 ^ w.
Definition i16 (x : Z) : Z := sext 16 x.

Definition fits (w x : Z) : Prop := 0 <= x < 2 ^ w.

Lemma wrap_small w x : fits w x -> wrap w x = x.
Proof. intros H. apply Z.mod_small, H. Qed.

Lemma wrap_over w x : 0 <= w -> fits w (x - 2 ^ w) -> wrap w x = x - 2 ^ w.
Proof.
  intros Hw H. unfold wrap. replace x with (x - 2 ^ w + 1 * 2 ^ w) at 1 by lia.
  rewrite Z.mod_add by (pose proof (Z.pow_pos_nonneg 2 w); lia). apply Z.mod_small, H.
Qed.

Lemma wrap_add_l w x y : wrap w (wrap w x + y) = wrap w (x + y).
Proof. apply Zplus_mod_idemp_l. Qed.

Lemma wrap_add_r w x y : wrap w (x + wrap w y) = wrap w (x + y).
Proof. apply Zplus_mod_idemp_r. Qed.

Lemma wrap_fits w x : 0 <= w -> fits w (wrap w x).
Proof. intros. apply Z.mod_pos_bound. apply Z.pow_pos_nonneg; lia. Qed.

Lemma sext_small w x : 1 <= w -> 0 <= x < 2 ^ (w - 1) -> sext w x = x.
Proof.
  intros Hw Hx. unfold sext.
  assert (2 ^ w = 2 * 2 ^ (w - 1)) as E.
  { rewrite <- Z.pow_succ_r by lia. f_equal. lia. }
  rewrite wrap_small by (unfold fits; lia).
  destruct (Z.ltb_spec x (2 ^ (w - 1))); lia.
Qed.

Definition KiB : Z := 1024.
Definition MiB : Z := 1024 * 1024.
Definition PAGE_SIZE : Z := 4096.

(** ** Lists indexed by [Z] *)

Definition len {A} (l : list A) : Z := Z.of_nat (length l).

Lemma len_nonneg {A} (l : list A) : 0 <= len l.
Proof. unfold len. lia. Qed.

Lemma len_app {A} (l k : list A) : len (l ++ k) = len l + len k.
Proof. unfold len. rewrite length_app. lia. Qed.

Lemma len_cons {A} (x : A) l : len (x :: l) = 1 + len l.
Proof. unfold len. simpl. lia. Qed.

Lemma len_nil {A} : len (@nil A) = 0.
Proof. reflexivity. Qed.

Lemma len_take {A} (l : list A) n :
  0 <= n <= len l -> len (take (Z.to_nat n) l) = n.
Proof. unfold len. rewrite length_take. lia. Qed.

Lemma len_drop {A} (l : list A) n :
  0 <= n <= len l -> len (drop (Z.to_nat n) l) = len l - n.
Proof. unfold len. rewrite length_drop. lia. Qed.

(** The element at index [i], [0] outside the list. *)
Definition byte_at (l : list Z) (i : Z) : Z :=
  if i <? 0 then 0 else nth (Z.to_nat i) l 0.

(** The store at index [i]; nothing happens outside the list, so every
    client that could be outside checks the bounds itself. *)
Definition set_byte (l : list Z) (i v : Z) : list Z :=
  if i <? 0 then l else <[Z.to_nat i := v]> l.

Lemma len_set_byte l i v : len (set_byte l i v) = len l.
Proof. unfold set_byte, len. destruct (i <? 0); [done|]. by rewrite length_insert. Qed.

Lemma byte_at_set_byte l i j v :
  0 <= i < len l ->
  byte_at (set_byte l i v) j = if j =? i then v else byte_at l j.
Proof.
  intros Hi. unfold byte_at, set_byte, len in *.
  destruct (Z.ltb_spec i 0); [lia|].
  destruct (Z.ltb_spec j 0).
  { destruct (Z.eqb_spec j i); [lia|done]. }
  rewrite !nth_lookup.
  destruct (Z.eqb_spec j i) as [->|Hne].
  - rewrite list_lookup_insert_eq by lia. done.
  - rewrite list_lookup_insert_ne by lia. done.
Qed.

Definition is_byte (b : Z) : Prop := 0 <= b < 256.

Lemma byte_at_is_byte l i : Forall is_byte l -> is_byte (byte_at l i).
Proof.
  intros Hl. unfold byte_at. destruct (i <? 0); [unfold is_byte; lia|].
  destruct (nth_in_or_default (Z.to_nat i) l 0) as [Hin| ->];
    [|unfold is_byte; lia].
  rewrite List.Forall_forall in Hl. by apply Hl.
Qed.

Lemma set_byte_Forall l i v :
  Forall is_byte l -> is_byte v -> Forall is_byte (set_byte l i v).
Proof.
  intros Hl Hv. unfold set_byte. destruct (i <? 0); [done|].
  by apply Forall_insert.
Qed.

(** ** Sums over finite maps *)

Definition msum {A} (f : A -> Z) (m : gmap Z A) : Z :=
  map_fold (fun _ a acc => f a + acc) 0 m.

Lemma msum_insert {A} (f : A -> Z) m i a :
  m !! i = None -> msum f (<[i := a]> m) = f a + msum f m.
Proof.
  intros Hi. unfold msum. rewrite map_fold_insert_L; [done| |done].
  intros. lia.
Qed.

Lemma msum_delete {A} (f : A -> Z) m i a :
  m !! i = Some a -> msum f (delete i m) = msum f m - f a.
Proof.
  intros Hi. rewrite <- (insert_delete_id m i a Hi) at 2.
  rewrite msum_insert by apply lookup_delete_eq. lia.
Qed.

Lemma msum_nonneg {A} (f : A -> Z) m :
  (forall i a, m !! i = Some a -> 0 <= f a) -> 0 <= msum f m.
Proof.
  induction m as [|i a m Hi IH] using map_ind; intros H; [done|].
  rewrite msum_insert by done.
  assert (0 <= f a) by (eapply H; apply lookup_insert_eq).
  enough (0 <= msum f m) by lia. apply IH. intros i' a' Hi'.
  apply (H i'). rewrite lookup_insert_ne; [done|congruence].
Qed.

Lemma msum_update {A} (f : A -> Z) (m : gmap Z A) i a b :
  m !! i = Some a -> msum f (<[i := b]> m) = msum f m - f a + f b.
Proof.
  intros Hi. rewrite <- insert_delete_eq, msum_insert by apply lookup_delete_eq.
  rewrite (msum_delete f m i a Hi). lia.
Qed.

Lemma msum_zero {A} (f : A -> Z) (m : gmap Z A) : (forall i a, m !! i = Some a -> f a = 0) -> msum f m = 0.
Proof.
  induction m as [|i a m Hi IH] using map_ind; intros H; [done|].
  rewrite msum_insert by done. rewrite (H i a) by apply lookup_insert_eq. rewrite IH; [done|].
  intros j b Hj. apply (H j). rewrite lookup_insert_ne; [done|congruence].
Qed.

Lemma msum_le_size {A} (f : A -> Z) (m : gmap Z A) :
  (forall a, 0 <= f a <= 1) -> msum f m <= Z.of_nat (size m).
Proof.
  intros Hf. induction m as [|i a m Hi IH] using map_ind; [done|].
  rewrite msum_insert, map_size_insert_None by done. specialize (Hf a). lia.
Qed.

Lemma msum_member {A} (f : A -> Z) (m : gmap Z A) i a :
  (forall b, 0 <= f b) -> m !! i = Some a -> f a <= msum f m.
Proof.
  intros Hf Hi. pose proof (msum_delete f m i a Hi). pose proof (msum_nonneg f (delete i m)).
  assert (0 <= msum f (delete i m)) by auto. lia.
Qed.

Lemma msum_pos_inv {A} (f : A -> Z) m : 0 < msum f m -> exists i a, m !! i = Some a.
Proof.
  intros H. destruct (decide (m = ∅)) as [->|Hne]; [done|].
  apply map_choose in Hne as (i & a & ?). eauto.
Qed.

(** ** Tactics *)

Create HintDb kernel.
Create Rewrite HintDb kernel.
#[export] Hint Resolve len_nonneg wrap_fits byte_at_is_byte set_byte_Forall : kernel.
#[export] Hint Rewrite @len_app @len_cons @len_nil @len_set_byte : kernel.

(** Case analysis on the boolean comparison a program branches on. *)
Ltac case_bool :=
  match goal with
  | |- context [?a <? ?b] => destruct (Z.ltb_spec a b)
  | |- context [?a <=? ?b] => destruct (Z.leb_spec a b)
  | |- context [?a =? ?b] => destruct (Z.eqb_spec a b)
  | H : context [?a <? ?b] |- _ => destruct (Z.ltb_spec a b)
  | H : context [?a <=? ?b] |- _ => destruct (Z.leb_spec a b)
  | H : context [?a =? ?b] |- _ => destruct (Z.eqb_spec a b)
  end.

(** Turns boolean facts in the context into propositions over [Z]. *)
Ltac boolify :=
  repeat match goal with
  | H : (_ && _)%bool = true |- _ => apply andb_prop in H as [? ?]
  | H : (_ || _)%bool = false |- _ => apply orb_false_elim in H as [? ?]
  | H : negb _ = true |- _ => apply negb_true_iff in H
  | H : negb _ = false |- _ => apply negb_false_iff in H
  | H : (_ <? _) = true |- _ => apply Z.ltb_lt in H
  | H : (_ <? _) = false |- _ => apply Z.ltb_ge in H
  | H : (_ <=? _) = true |- _ => apply Z.leb_le in H
  | H : (_ <=? _) = false |- _ => apply Z.leb_gt in H
  | H : (_ =? _) = true |- _ => apply Z.eqb_eq in H
  | H : (_ =? _) = false |- _ => apply Z.eqb_neq in H
  end.

(** [lia] with quotients and remainders by constants. *)
Ltac zdiv := Z.div_mod_to_equations; lia.

(** Splits on the scrutinee of the innermost match of a hypothesis that says
    a program returned, and discards the branches that did not. *)
Ltac inv_ok H :=
  repeat match type of H with
  | context [match ?x with _ => _ end] =>
      lazymatch x with
      | context [match _ with _ => _ end] => fail
      | _ => let E := fresh "E" in destruct x eqn:E; simpl in H
      end
  end; try discriminate H.
