(* ===== verification/BitOps.v ===== *)
(** Bit-level builtins of [AK/BuiltinWrappers.h] and [AK/StdLibExtras.h]: bit
    scans, population counts and roundings, with the facts about
    [Z.testbit] the allocators need. *)

From S2P Require Import Prelude.

(** ** Definitions *)

(** [count_trailing_zeroes] by its portable loop: the index of the lowest set
    bit, or the width when there is none. *)
Fixpoint ctz_loop (n : nat) (i value : Z) : Z :=
  match n with
  | O => i
  | S n => if Z.testbit value i then i else ctz_loop n (i + 1) value
  end.

Definition count_trailing_zeroes (bits value : Z) : Z :=
  ctz_loop (Z.to_nat bits) 0 value.

(** [bit_scan_forward]: one plus the index of the lowest set bit, 0 for 0. *)
Definition bit_scan_forward (bits value : Z) : Z :=
  if value =? 0 then 0 else 1 + count_trailing_zeroes bits value.

Fixpoint popcount_loop (n : nat) (i value : Z) : Z :=
  match n with
  | O => 0
  | S n => (if Z.testbit value i then 1 else 0) + popcount_loop n (i + 1) value
  end.

Definition popcount (bits value : Z) : Z := popcount_loop (Z.to_nat bits) 0 value.

Definition ceil_div (a b : Z) : Z :=
  let result := a / b in
  if negb (a mod b =? 0) && Bool.eqb (0 <? a) (0 <? b) then result + 1 else result.

(** [round_up_to_power_of_two] on 64-bit values: the subtraction and the
    addition wrap. *)
Definition round_up_to_power_of_two (value power_of_two : Z) : Z :=
  u64 (Z.land (u64 (value - 1)) (u64 (Z.lnot (u64 (power_of_two - 1)))) + power_of_two).

(** ** Bit scans *)

Lemma ctz_loop_spec n i value :
  i <= ctz_loop n i value <= i + Z.of_nat n /\
  (forall j, i <= j < ctz_loop n i value -> Z.testbit value j = false) /\
  (ctz_loop n i value < i + Z.of_nat n ->
     Z.testbit value (ctz_loop n i value) = true).
Proof.
  revert i. induction n as [|n IH]; intros i; simpl.
  { repeat split; lia. }
  destruct (Z.testbit value i) eqn:E.
  { repeat split; (lia || done). }
  destruct (IH (i + 1)) as (Hb & Hz & Ho).
  repeat split; [lia|lia| |].
  - intros j Hj. destruct (Z.eq_dec j i) as [->|]; [done|]. apply Hz. lia.
  - intros H. apply Ho. lia.
Qed.

Lemma testbit_exists value bits :
  0 <= bits -> 0 < value < 2 ^ bits ->
  exists j, 0 <= j < bits /\ Z.testbit value j = true.
Proof.
  intros Hb Hv. exists (Z.log2 value). split; [|apply Z.bit_log2; lia].
  split; [apply Z.log2_nonneg|]. apply Z.log2_lt_pow2; lia.
Qed.

Lemma ctz_spec bits value :
  0 <= bits -> 0 < value < 2 ^ bits ->
  0 <= count_trailing_zeroes bits value < bits /\
  (forall j, 0 <= j < count_trailing_zeroes bits value ->
     Z.testbit value j = false) /\
  Z.testbit value (count_trailing_zeroes bits value) = true.
Proof.
  intros Hb Hv. unfold count_trailing_zeroes.
  destruct (ctz_loop_spec (Z.to_nat bits) 0 value) as (Hr & Hz & Ho).
  destruct (testbit_exists value bits) as (j & Hj & Hjt); [done..|].
  assert (ctz_loop (Z.to_nat bits) 0 value < bits) as Hlt.
  { destruct (Z.lt_ge_cases (ctz_loop (Z.to_nat bits) 0 value) bits); [done|].
    rewrite Hz in Hjt by lia. done. }
  repeat split; [lia|lia| |apply Ho; lia].
  intros i Hi. apply Hz. lia.
Qed.

Lemma popcount_loop_bound n i value :
  0 <= popcount_loop n i value <= Z.of_nat n.
Proof.
  revert i. induction n as [|n IH]; intros i; simpl; [lia|].
  specialize (IH (i + 1)). destruct (Z.testbit value i); lia.
Qed.

(** ** Width of a word, bit by bit *)

Lemma fits_testbit_high w x k : fits w x -> 0 <= w <= k -> Z.testbit x k = false.
Proof.
  intros Hx Hk. rewrite <- (Z.mod_small x (2 ^ w)) by exact Hx.
  apply Z.mod_pow2_bits_high. lia.
Qed.

Lemma fits_of_bits w x :
  0 <= w -> 0 <= x -> (forall k, w <= k -> Z.testbit x k = false) -> fits w x.
Proof.
  intros Hw Hx H. replace x with (x mod 2 ^ w).
  { apply Z.mod_pos_bound, Z.pow_pos_nonneg; lia. }
  apply Z.bits_inj'. intros k Hk. destruct (Z.lt_ge_cases k w).
  - apply Z.mod_pow2_bits_low. lia.
  - rewrite Z.mod_pow2_bits_high by lia. symmetry. by apply H.
Qed.

Lemma fits_lor w x y : 0 <= w -> fits w x -> fits w y -> fits w (Z.lor x y).
Proof.
  intros Hw Hx Hy. apply fits_of_bits; [done|apply Z.lor_nonneg; unfold fits in *; lia|].
  intros k Hk. rewrite Z.lor_spec, !(fits_testbit_high w) by (done || lia). done.
Qed.

Lemma fits_land w x y : 0 <= w -> fits w x -> fits w (Z.land x y).
Proof.
  intros Hw Hx. apply fits_of_bits; [done|apply Z.land_nonneg; unfold fits in *; lia|].
  intros k Hk. by rewrite Z.land_spec, (fits_testbit_high w) by (done || lia).
Qed.

(** ** Roundings *)

Lemma ceil_div_spec a b : 0 <= a -> 0 < b -> ceil_div a b = (a + b - 1) / b.
Proof.
  intros Ha Hb. unfold ceil_div.
  assert (0 <= a mod b < b) as Hm by (apply Z.mod_pos_bound; lia).
  pose proof (Z.div_mod a b ltac:(lia)) as E.
  destruct (Z.eqb_spec (a mod b) 0) as [Hz|Hz]; simpl.
  - apply Z.div_unique with (r := b - 1); lia.
  - assert (0 < a) by (destruct (Z.eq_dec a 0) as [->|]; [rewrite Z.mod_0_l in Hz; lia|lia]).
    destruct (Z.ltb_spec 0 a); [|lia]. destruct (Z.ltb_spec 0 b); [|lia]. simpl.
    apply Z.div_unique with (r := a mod b - 1); lia.
Qed.

Lemma ceil_div_nonneg a b : 0 <= a -> 0 < b -> 0 <= ceil_div a b.
Proof. intros. rewrite ceil_div_spec by lia. apply Z.div_pos; lia. Qed.

(** Clearing the low [k] bits is rounding down to a multiple of [2 ^ k]. *)
Lemma land_lnot_ones x k w :
  0 <= k <= w -> fits w x ->
  Z.land x (wrap w (Z.lnot (2 ^ k - 1))) = x / 2 ^ k * 2 ^ k.
Proof.
  intros Hk Hx. unfold wrap.
  replace (2 ^ k - 1) with (Z.ones k) by (rewrite Z.ones_equiv; lia).
  rewrite <- Z.land_ones by lia.
  rewrite <- Z.shiftr_div_pow2, <- Z.shiftl_mul_pow2 by lia.
  apply Z.bits_inj'. intros i Hi.
  rewrite !Z.land_spec, Z.lnot_spec by lia.
  rewrite Z.shiftl_spec by lia.
  destruct (Z.lt_ge_cases i k).
  - rewrite (Z.ones_spec_low k) by lia. rewrite (Z.testbit_neg_r _ (i - k)) by lia.
    simpl. by rewrite andb_false_r.
  - rewrite (Z.ones_spec_high k) by lia. rewrite Z.shiftr_spec by lia.
    replace (i - k + k) with i by lia. simpl.
    destruct (Z.lt_ge_cases i w).
    + rewrite Z.ones_spec_low by lia. by rewrite andb_true_r.
    + by rewrite (fits_testbit_high w) by (done || lia).
Qed.

Lemma round_up_spec value k :
  0 <= k < 64 -> 0 < value -> value + 2 ^ k <= 2 ^ 64 ->
  round_up_to_power_of_two value (2 ^ k) = (value + 2 ^ k - 1) / 2 ^ k * 2 ^ k.
Proof.
  intros Hk Hv Hb. unfold round_up_to_power_of_two, u64.
  assert (0 < 2 ^ k) by (apply Z.pow_pos_nonneg; lia).
  rewrite (wrap_small 64 (value - 1)) by (unfold fits; lia).
  rewrite (wrap_small 64 (2 ^ k - 1)) by (unfold fits; lia).
  rewrite land_lnot_ones by (unfold fits; lia).
  replace (value + 2 ^ k - 1) with (value - 1 + 1 * 2 ^ k) by lia.
  rewrite Z.div_add by lia.
  pose proof (Z.mul_div_le (value - 1) (2 ^ k) ltac:(lia)).
  assert (0 <= (value - 1) / 2 ^ k) by (apply Z.div_pos; lia).
  rewrite wrap_small; [lia|]. unfold fits. nia.
Qed.

Lemma round_up_zero k : 0 <= k < 64 -> round_up_to_power_of_two 0 (2 ^ k) = 0.
Proof.
  intros Hk. unfold round_up_to_power_of_two, u64.
  assert (0 < 2 ^ k) by (apply Z.pow_pos_nonneg; lia).
  assert (2 ^ k < 2 ^ 64) by (apply Z.pow_lt_mono_r; lia).
  change (wrap 64 (0 - 1)) with (2 ^ 64 - 1).
  rewrite (wrap_small 64 (2 ^ k - 1)) by (unfold fits; lia).
  rewrite land_lnot_ones by (unfold fits; lia).
  assert ((2 ^ 64 - 1) / 2 ^ k = 2 ^ (64 - k) - 1) as ->.
  { symmetry. apply Z.div_unique with (r := 2 ^ k - 1); [lia|].
    replace 64 with (64 - k + k) at 1 by lia. rewrite Z.pow_add_r by lia. lia. }
  replace ((2 ^ (64 - k) - 1) * 2 ^ k + 2 ^ k) with (2 ^ (64 - k) * 2 ^ k) by lia.
  rewrite <- Z.pow_add_r by lia. replace (64 - k + k) with 64 by lia.
  apply Z.mod_same. lia.
Qed.

(** Rounding up to a power of two lands on a multiple, at least the value and
    less than one step above it. *)
Lemma round_up_bounds value k :
  0 <= k < 64 -> 0 <= value -> value + 2 ^ k <= 2 ^ 64 ->
  let r := round_up_to_power_of_two value (2 ^ k) in
  value <= r < value + 2 ^ k /\ r mod 2 ^ k = 0.
Proof.
  intros Hk Hv Hb. cbv zeta. assert (0 < 2 ^ k) by (apply Z.pow_pos_nonneg; lia).
  destruct (Z.eq_dec value 0) as [->|Hne].
  { rewrite round_up_zero by lia. rewrite Z.mod_0_l by lia. lia. }
  rewrite round_up_spec by lia.
  pose proof (Z.div_mod (value + 2 ^ k - 1) (2 ^ k) ltac:(lia)).
  pose proof (Z.mod_pos_bound (value + 2 ^ k - 1) (2 ^ k) ltac:(lia)).
  split; [lia|]. apply Z.mod_mul. lia.
Qed.

(** Whatever wraps, the result is a multiple of the power of two. *)
Lemma round_up_aligned value k :
  0 <= k < 64 ->
  fits 64 (round_up_to_power_of_two value (2 ^ k)) /\
  round_up_to_power_of_two value (2 ^ k) mod 2 ^ k = 0.
Proof.
  intros Hk. unfold round_up_to_power_of_two.
  assert (0 < 2 ^ k) by (apply Z.pow_pos_nonneg; lia).
  assert (2 ^ k < 2 ^ 64) by (apply Z.pow_lt_mono_r; lia).
  split; [apply wrap_fits; lia|]. unfold u64. rewrite (wrap_small 64 (2 ^ k - 1)) by (unfold fits; lia).
  rewrite land_lnot_ones by (lia || apply wrap_fits; lia). unfold wrap at 1.
  rewrite Z.mod_mod_divide.
  - rewrite <- Z.mul_succ_l. apply Z.mod_mul. lia.
  - exists (2 ^ (64 - k)). rewrite <- Z.pow_add_r by lia. f_equal. lia.
Qed.

(** ** Rounding with an alignment that is not a power of two

    Callers can pass any multiple of the page size. *)

Lemma ldiff_sub x m : Z.ldiff x m = x - Z.land x m.
Proof.
  rewrite Z.sub_nocarry_ldiff.
  - apply Z.bits_inj'. intros i Hi. rewrite !Z.ldiff_spec, Z.land_spec.
    destruct (Z.testbit x i), (Z.testbit m i); done.
  - apply Z.bits_inj'. intros i Hi. rewrite Z.ldiff_spec, Z.land_spec, Z.bits_0.
    destruct (Z.testbit x i), (Z.testbit m i); done.
Qed.

Lemma land_lnot_ldiff x m w : 0 <= w -> fits w x -> Z.land x (wrap w (Z.lnot m)) = Z.ldiff x m.
Proof.
  intros Hw Hx. unfold wrap. rewrite <- Z.land_ones by lia. apply Z.bits_inj'. intros i Hi.
  rewrite !Z.land_spec, Z.ldiff_spec, Z.lnot_spec by lia.
  destruct (Z.lt_ge_cases i w).
  - by rewrite Z.ones_spec_low, andb_true_r by lia.
  - by rewrite (fits_testbit_high w) by (done || lia).
Qed.

Lemma land_bounds x m : 0 <= x -> 0 <= m -> 0 <= Z.land x m <= Z.min x m.
Proof.
  intros Hx Hm. assert (0 <= Z.land x m) by (apply Z.land_nonneg; lia).
  pose proof (ldiff_sub x m). pose proof (ldiff_sub m x). rewrite (Z.land_comm m x) in *.
  assert (0 <= Z.ldiff x m) by (apply Z.ldiff_nonneg; lia).
  assert (0 <= Z.ldiff m x) by (apply Z.ldiff_nonneg; lia). lia.
Qed.

(** Rounding up stays within one alignment of the value. *)
Lemma round_up_any value a :
  0 < a -> 0 <= value -> value + a <= 2 ^ 64 ->
  value <= round_up_to_power_of_two value a < value + a.
Proof.
  intros Ha Hv Hb. unfold round_up_to_power_of_two, u64.
  rewrite (wrap_small 64 (a - 1)) by (unfold fits; lia).
  rewrite land_lnot_ldiff, ldiff_sub by (lia || apply wrap_fits; lia).
  destruct (Z.eq_dec value 0) as [->|Hne].
  - change (wrap 64 (0 - 1)) with (Z.ones 64). rewrite Z.land_comm, Z.land_ones by lia.
    rewrite Z.mod_small by lia. change (Z.ones 64) with (2 ^ 64 - 1).
    replace (2 ^ 64 - 1 - (a - 1) + a) with (0 + 1 * 2 ^ 64) by lia. unfold wrap.
    rewrite Z.mod_add, Z.mod_0_l by lia. lia.
  - rewrite (wrap_small 64 (value - 1)) by (unfold fits; lia).
    pose proof (land_bounds (value - 1) (a - 1) ltac:(lia) ltac:(lia)).
    rewrite wrap_small by (unfold fits; lia). lia.
Qed.

(** A multiple of [2 ^ k] rounds to multiples of [2 ^ k], whatever wraps. *)
Lemma round_up_multiple value a k :
  0 <= k < 64 -> 0 < a < 2 ^ 64 -> a mod 2 ^ k = 0 ->
  fits 64 (round_up_to_power_of_two value a) /\ round_up_to_power_of_two value a mod 2 ^ k = 0.
Proof.
  intros Hk Ha Hm. unfold round_up_to_power_of_two.
  split; [apply wrap_fits; lia|]. unfold u64. pose proof (Z.pow_pos_nonneg 2 k ltac:(lia) ltac:(lia)).
  rewrite (wrap_small 64 (a - 1)) by (unfold fits; lia).
  rewrite land_lnot_ldiff by (lia || apply wrap_fits; lia). unfold wrap at 1.
  rewrite Z.mod_mod_divide.
  2: { exists (2 ^ (64 - k)). rewrite <- Z.pow_add_r by lia. f_equal. lia. }
  rewrite Z.add_mod, Hm, Z.add_0_r, Z.mod_mod by lia. rewrite <- Z.land_ones by lia.
  apply Z.bits_inj'. intros i Hi. rewrite Z.land_spec, Z.ldiff_spec, Z.bits_0.
  destruct (Z.lt_ge_cases i k); [|by rewrite Z.ones_spec_high, andb_false_r by lia].
  assert (Z.testbit (a - 1) i = true) as ->; [|by rewrite andb_false_r].
  rewrite <- (Z.mod_pow2_bits_low (a - 1) k) by lia.
  replace ((a - 1) mod 2 ^ k) with (Z.ones k); [by apply Z.ones_spec_low; lia|].
  rewrite Z.ones_equiv. apply Z.div_exact in Hm; [|lia].
  apply Z.mod_unique with (q := a / 2 ^ k - 1); lia.
Qed.

(** ** Single bits *)

Lemma land_bit a n : 0 <= n -> (Z.land a (2 ^ n) =? 2 ^ n) = Z.testbit a n.
Proof.
  intros Hn. assert (Z.land a (2 ^ n) = if Z.testbit a n then 2 ^ n else 0) as ->.
  { apply Z.bits_inj'. intros k Hk. rewrite Z.land_spec, Z.pow2_bits_eqb by lia.
    destruct (Z.eqb_spec n k) as [->|Hne].
    - destruct (Z.testbit a k); [by rewrite Z.pow2_bits_true|by rewrite Z.bits_0].
    - destruct (Z.testbit a n); [by rewrite Z.pow2_bits_false, andb_false_r by lia|].
      by rewrite Z.bits_0, andb_false_r. }
  pose proof (Z.pow_pos_nonneg 2 n ltac:(lia) Hn).
  destruct (Z.testbit a n); [apply Z.eqb_refl|]. apply Z.eqb_neq. lia.
Qed.

Lemma land_zero_bit a n : 0 <= n -> negb (Z.land a (2 ^ n) =? 0) = Z.testbit a n.
Proof.
  intros Hn. pose proof (land_bit a n Hn) as E. pose proof (Z.pow_pos_nonneg 2 n ltac:(lia) Hn).
  destruct (Z.testbit a n).
  - apply Z.eqb_eq in E. apply negb_true_iff, Z.eqb_neq. lia.
  - apply negb_false_iff, Z.eqb_eq. apply Z.bits_inj'. intros k Hk.
    apply Z.eqb_neq in E. rewrite Z.bits_0, Z.land_spec, Z.pow2_bits_eqb by lia.
    destruct (Z.eqb_spec n k) as [->|]; [|apply andb_false_r]. rewrite andb_true_r.
    destruct (Z.testbit a k) eqn:Ek; [|done]. exfalso. apply E. apply Z.eqb_eq.
    by rewrite land_bit.
Qed.
