(* ===== verification/Bitmap.v ===== *)
(** The bitmaps of [AK/BitmapView.h] and [AK/Bitmap.h]: a byte buffer and a
    bit count, the single-bit and range updates, and the searches for runs of
    unset bits that the kernel heap allocates from. *)

From S2P Require Import Prelude BitOps.

Module Bitmap.

(** ** State

    [m_data] holds the bytes that are readable from the [m_data] pointer.  It
    has at least [size_in_bytes] of them; an access past its end is
    [Undefined]. *)
Record t : Type := mk { m_data : list Z; m_size : Z }.

Definition bitmask_first_byte : list Z :=
  [0xFF; 0xFE; 0xFC; 0xF8; 0xF0; 0xE0; 0xC0; 0x80].
Definition bitmask_last_byte : list Z :=
  [0x00; 0x1; 0x3; 0x7; 0xF; 0x1F; 0x3F; 0x7F].

Definition size_in_bytes (b : t) : Z := ceil_div (m_size b) 8.

Definition load (d : list Z) (i : Z) : outcome Z :=
  if (0 <=? i) && (i <? len d) then Ok (byte_at d i) else Undefined.
Definition store (d : list Z) (i v : Z) : outcome (list Z) :=
  if (0 <=? i) && (i <? len d) then Ok (set_byte d i v) else Undefined.

(** ** Single bits *)

Definition get (b : t) (index : Z) : outcome bool :=
  VERIFY (index <? m_size b) ;;
  let! byte := load (m_data b) (index / 8) in
  Ok (negb (0 =? Z.land byte (Z.shiftl 1 (index mod 8)))).

Definition set (b : t) (index : Z) (value : bool) : outcome t :=
  VERIFY (index <? m_size b) ;;
  let! byte := load (m_data b) (index / 8) in
  let bit := Z.shiftl 1 (index mod 8) in
  let! d := store (m_data b) (index / 8)
              (if value then Z.lor byte (u8 bit) else Z.land byte (u8 (Z.lnot bit))) in
  Ok (mk d (m_size b)).

(** ** Ranges *)

Fixpoint memset (d : list Z) (i v : Z) (n : nat) : list Z :=
  match n with
  | O => d
  | S n => memset (set_byte d i v) (i + 1) v n
  end.

Definition fill (b : t) (value : bool) : t :=
  mk (memset (m_data b) 0 (if value then 0xff else 0x00) (Z.to_nat (size_in_bytes b)))
     (m_size b).

(** One masked byte of [set_range<VALUE, verify_that_all_bits_flip>]. *)
Definition apply_mask (VALUE verify : bool) (d : list Z) (i byte_mask : Z)
    : outcome (list Z) :=
  let! byte := load d i in
  VERIFY (negb verify ||
          (if VALUE then Z.land byte byte_mask =? 0
           else Z.land byte byte_mask =? byte_mask)) ;;
  store d i (if VALUE then Z.lor byte byte_mask
             else Z.land byte (u8 (Z.lnot byte_mask))).

Definition set_range_impl (VALUE verify : bool) (b : t) (start length : Z)
    : outcome t :=
  VERIFY (start <? m_size b) ;;
  VERIFY (u64 (start + length) <=? m_size b) ;;
  if length =? 0 then Ok b else
  let first := start / 8 in
  let last := (start + length) / 8 in
  let first_mask := byte_at bitmask_first_byte (start mod 8) in
  let last_mask := byte_at bitmask_last_byte ((start + length) mod 8) in
  if first =? last then
    let! d := apply_mask VALUE verify (m_data b) first (Z.land first_mask last_mask) in
    Ok (mk d (m_size b))
  else
    let! d := apply_mask VALUE verify (m_data b) first first_mask in
    let! d := apply_mask VALUE verify d last last_mask in
    let first := first + 1 in
    let d := if first <? last
             then memset d first (if VALUE then 0xFF else 0x0) (Z.to_nat (last - first))
             else d in
    Ok (mk d (m_size b)).

Definition set_range (b : t) (start length : Z) (value : bool) : outcome t :=
  if value then set_range_impl true false b start length
  else set_range_impl false false b start length.

Definition set_range_and_verify_that_all_bits_flip
    (b : t) (start length : Z) (value : bool) : outcome t :=
  if value then set_range_impl true true b start length
  else set_range_impl false true b start length.

Definition create (size : Z) (default_value : bool) : outcome t :=
  VERIFY (negb (size =? 0)) ;;
  Ok (fill (mk (repeat 0 (Z.to_nat (ceil_div size 8))) size) default_value).

(** [grow] reallocates; a default-constructed bitmap has a null [m_data] and
    size 0. *)
Definition grow (b : t) (size : Z) (default_value : bool) : outcome t :=
  VERIFY (m_size b <? size) ;;
  let previous_size := m_size b in
  let fresh := fill (mk (repeat 0 (Z.to_nat (ceil_div size 8))) size) default_value in
  if previous_size =? 0 then Ok fresh else
  let copied := mk (take (Z.to_nat (size_in_bytes b)) (m_data b)
                    ++ drop (Z.to_nat (size_in_bytes b)) (m_data fresh)) size in
  if negb (previous_size mod 8 =? 0)
  then set_range copied previous_size (8 - previous_size mod 8) default_value
  else Ok copied.

(** ** Searches *)

(** The 64-bit little-endian word at byte offset [off]. *)
Fixpoint le_word (d : list Z) (off : Z) (n : nat) : Z :=
  match n with
  | O => 0
  | S n => Z.lor (byte_at d off) (Z.shiftl (le_word d (off + 1) n) 8)
  end.

Definition bucket_at (b : t) (k : Z) : Z := le_word (m_data b) (8 * k) 8.

Fixpoint find_first_byte (d : list Z) (byte i : Z) (n : nat) : option Z :=
  match n with
  | O => None
  | S n => if byte_at d i =? byte then find_first_byte d byte (i + 1) n else Some i
  end.

Definition find_first (VALUE : bool) (b : t) : option Z :=
  match find_first_byte (m_data b) (if VALUE then 0x00 else 0xff) 0
          (Z.to_nat (size_in_bytes b)) with
  | None => None
  | Some i =>
      let byte := byte_at (m_data b) i in
      let byte := if VALUE then byte else u8 (Z.lnot byte) in
      Some (i * 8 + bit_scan_forward 8 byte - 1)
  end.

Definition max_size : Z := 0xffffffff.
Definition size_t_max : Z := 2 ^ 64 - 1.

(** What a scan loop hands on: it returned a range, or it fell through with
    the current run ([from] is the reference parameter of the function). *)
Inductive scan : Type :=
| Found (length from : Z)
| NotYet (free_chunks from : Z).

(** The [while (viewed_bits < bit_size)] loop over one bucket. *)
Fixpoint scan_bucket (fuel : nat) (bucket_index min_length max_length : Z)
    (viewed_bits bucket free_chunks from : Z) : scan :=
  match fuel with
  | O => NotYet free_chunks from
  | S fuel =>
    if viewed_bits <? 64 then
      let from := if free_chunks =? 0 then bucket_index * 64 + viewed_bits else from in
      if bucket =? 0 then
        scan_bucket fuel bucket_index min_length max_length 64 bucket
          (free_chunks + (64 - viewed_bits)) from
      else
        let trailing_zeroes := count_trailing_zeroes 64 bucket in
        let bucket := Z.shiftr bucket trailing_zeroes in
        let free_chunks := free_chunks + trailing_zeroes in
        let viewed_bits := u8 (viewed_bits + trailing_zeroes) in
        if min_length <=? free_chunks then Found (Z.min free_chunks max_length) from
        else
          let trailing_ones := count_trailing_zeroes 64 (u64 (Z.lnot bucket)) in
          scan_bucket fuel bucket_index min_length max_length
            (u8 (viewed_bits + trailing_ones)) (Z.shiftr bucket trailing_ones) 0 from
    else NotYet free_chunks from
  end.

(** The loop over the complete buckets, [n] of them from [bucket_index]. *)
Fixpoint scan_buckets (b : t) (min_length max_length : Z) (n : nat)
    (bucket_index start_bucket_bit free_chunks from : Z) : scan :=
  match n with
  | O => NotYet free_chunks from
  | S n =>
    if bucket_at b bucket_index =? size_t_max then
      if min_length <=? free_chunks then Found (Z.min free_chunks max_length) from
      else scan_buckets b min_length max_length n (bucket_index + 1) 0 0 from
    else if bucket_at b bucket_index =? 0 then
      let from := if free_chunks =? 0 then bucket_index * 64 else from in
      let free_chunks := free_chunks + 64 in
      if max_length <=? free_chunks then Found max_length from
      else scan_buckets b min_length max_length n (bucket_index + 1) 0 free_chunks from
    else
      match scan_bucket 65 bucket_index min_length max_length start_bucket_bit
              (Z.shiftr (bucket_at b bucket_index) start_bucket_bit) free_chunks from with
      | Found l f => Found l f
      | NotYet free_chunks from =>
          scan_buckets b min_length max_length n (bucket_index + 1) 0 free_chunks from
      end
  end.

(** The bit-by-bit loop over the last, incomplete bucket. *)
Fixpoint scan_trailing (b : t) (min_length max_length : Z) (n : nat)
    (i free_chunks from : Z) : outcome (option Z * Z) :=
  match n with
  | O => Ok (None, from)
  | S n =>
    let! set := get b i in
    if set then scan_trailing b min_length max_length n (i + 1) 0 from
    else
      let from := if free_chunks =? 0 then i else from in
      if min_length <=? free_chunks + 1
      then Ok (Some (Z.min (free_chunks + 1) max_length), from)
      else scan_trailing b min_length max_length n (i + 1) (free_chunks + 1) from
  end.

(** Returns the length found, and the value left in the [from] reference. *)
Definition find_next_range_of_unset_bits (b : t) (from min_length max_length : Z)
    : outcome (option Z * Z) :=
  if max_length <? min_length then Ok (None, from) else
  let start_bucket_index := from / 64 in
  let buckets := m_size b / 64 in
  match scan_buckets b min_length max_length (Z.to_nat (buckets - start_bucket_index))
          start_bucket_index (from mod 64) 0 from with
  | Found length from => Ok (Some length, from)
  | NotYet free_chunks from =>
      if free_chunks <? min_length then
        scan_trailing b min_length max_length (Z.to_nat (m_size b mod 64))
          (buckets * 64) free_chunks from
      else Ok (Some (Z.min free_chunks max_length), from)
  end.

Definition find_first_fit (b : t) (minimum_length : Z) : outcome (option Z) :=
  let! (found, start) := find_next_range_of_unset_bits b 0 minimum_length minimum_length in
  Ok (match found with Some _ => Some start | None => None end).

(** [while (true)] loops take fuel; [None] at the outside is "still looping". *)
Fixpoint longest_loop (fuel : nat) (b : t) (max_length : Z)
    (start max_region_start max_region_size : Z) : option (outcome (option Z * Z)) :=
  match fuel with
  | O => None
  | S fuel =>
    match find_next_range_of_unset_bits b start (max_region_size + 1) max_length with
    | Ok (Some length, start) =>
        longest_loop fuel b max_length (start + length) start length
    | Ok (None, _) =>
        Some (Ok (if negb (max_region_size =? 0) then Some max_region_start else None,
                  max_region_size))
    | Err e => Some (Err e)
    | Panic => Some Panic
    | Undefined => Some Undefined
    end
  end.

(** Returns the start and the value stored in [found_range_size]. *)
Definition find_longest_range_of_unset_bits (fuel : nat) (b : t) (max_length : Z)
    : option (outcome (option Z * Z)) :=
  longest_loop fuel b max_length 0 0 0.

Fixpoint best_fit_loop (fuel : nat) (b : t) (minimum_length : Z)
    (start best_region_start best_region_size : Z) (found : bool)
    : option (outcome (option Z)) :=
  match fuel with
  | O => None
  | S fuel =>
    match find_next_range_of_unset_bits b start minimum_length best_region_size with
    | Ok (Some length, start) =>
        if (length <? best_region_size) || negb found
        then best_fit_loop fuel b minimum_length (start + length) start length true
        else best_fit_loop fuel b minimum_length (start + length)
               best_region_start best_region_size found
    | Ok (None, _) => Some (Ok (if found then Some best_region_start else None))
    | Err e => Some (Err e)
    | Panic => Some Panic
    | Undefined => Some Undefined
    end
  end.

Definition find_best_fit (fuel : nat) (b : t) (minimum_length : Z)
    : option (outcome (option Z)) :=
  best_fit_loop fuel b minimum_length 0 0 max_size false.

(** ** Bits of a buffer *)

Definition bit (d : list Z) (i : Z) : bool := Z.testbit (byte_at d (i / 8)) (i mod 8).

Definition unset (b : t) (from upto : Z) : Prop :=
  forall j, from <= j < upto -> bit (m_data b) j = false.

Definition wf (b : t) : Prop :=
  Forall is_byte (m_data b) /\ 0 <= m_size b < 2 ^ 64 /\
  size_in_bytes b <= len (m_data b).

Lemma byte_testbit_high b j : is_byte b -> 8 <= j -> Z.testbit b j = false.
Proof. intros Hb Hj. apply (fits_testbit_high 8); [exact Hb|lia]. Qed.

Lemma bit_byte d k j : 0 <= j < 8 -> bit d (8 * k + j) = Z.testbit (byte_at d k) j.
Proof.
  intros Hj. unfold bit. f_equal; [f_equal|]; zdiv.
Qed.

Lemma le_word_bound d off n :
  Forall is_byte d -> 0 <= le_word d off n < 2 ^ (8 * Z.of_nat n).
Proof.
  intros Hd. revert off. induction n as [|n IH]; intros off; [simpl; lia|].
  cbn [le_word]. specialize (IH (off + 1)).
  pose proof (byte_at_is_byte d off Hd) as Hb. unfold is_byte in Hb.
  assert (Z.land (byte_at d off) (Z.shiftl (le_word d (off + 1) n) 8) = 0) as E.
  { apply Z.bits_inj'. intros i Hi. rewrite Z.land_spec, Z.shiftl_spec, Z.bits_0 by lia.
    destruct (Z.lt_ge_cases i 8).
    - rewrite (Z.testbit_neg_r _ (i - 8)) by lia. apply andb_false_r.
    - rewrite byte_testbit_high by (unfold is_byte; lia). done. }
  rewrite <- Z.add_nocarry_lor, Z.shiftl_mul_pow2 by (done || lia).
  replace (8 * Z.of_nat (S n)) with (8 + 8 * Z.of_nat n) by lia.
  rewrite Z.pow_add_r by lia. change (2 ^ 8) with 256. nia.
Qed.

Lemma le_word_testbit d off n j :
  Forall is_byte d -> 0 <= j < 8 * Z.of_nat n ->
  Z.testbit (le_word d off n) j = bit d (8 * off + j).
Proof.
  intros Hd. revert off j. induction n as [|n IH]; intros off j Hj; [lia|].
  cbn [le_word]. rewrite Z.lor_spec, Z.shiftl_spec by lia.
  destruct (Z.lt_ge_cases j 8).
  - rewrite (Z.testbit_neg_r _ (j - 8)) by lia. rewrite orb_false_r.
    by rewrite bit_byte by lia.
  - rewrite byte_testbit_high by auto with kernel. simpl.
    rewrite IH by lia. f_equal. lia.
Qed.

Lemma bucket_testbit b k j :
  wf b -> 0 <= j < 64 -> Z.testbit (bucket_at b k) j = bit (m_data b) (64 * k + j).
Proof.
  intros (Hd & _ & _) Hj. unfold bucket_at. rewrite le_word_testbit by (done || lia).
  f_equal. lia.
Qed.

Lemma bucket_bound b k : wf b -> 0 <= bucket_at b k < 2 ^ 64.
Proof. intros (Hd & _ & _). apply (le_word_bound (m_data b) (8 * k) 8 Hd). Qed.

Lemma size_in_bytes_bound b i : wf b -> 0 <= i < m_size b -> i / 8 < len (m_data b).
Proof.
  intros (_ & Hs & Hl) Hi. unfold size_in_bytes in Hl.
  rewrite ceil_div_spec in Hl by lia. zdiv.
Qed.

Lemma land_pow2_testbit x i : 0 <= i ->
  (0 =? Z.land x (Z.shiftl 1 i)) = negb (Z.testbit x i).
Proof.
  intros Hi. rewrite Z.shiftl_1_l.
  destruct (Z.testbit x i) eqn:E; cbn [negb].
  - apply Z.eqb_neq. intros H. apply (f_equal (fun z => Z.testbit z i)) in H.
    rewrite Z.bits_0, Z.land_spec, E, Z.pow2_bits_true in H by lia. done.
  - apply Z.eqb_eq. symmetry. apply Z.bits_inj'. intros j Hj.
    rewrite Z.land_spec, Z.bits_0.
    destruct (Z.eq_dec i j) as [<-|]; [by rewrite E|].
    rewrite Z.pow2_bits_false by lia. apply andb_false_r.
Qed.

Lemma get_ok b i : wf b -> 0 <= i < m_size b -> get b i = Ok (bit (m_data b) i).
Proof.
  intros Hwf Hi. pose proof (size_in_bytes_bound b i Hwf Hi). unfold get, load.
  rewrite (proj2 (Z.ltb_lt i (m_size b))) by lia.
  assert (0 <= i / 8) by (apply Z.div_pos; lia).
  rewrite (proj2 (Z.leb_le 0 (i / 8))), (proj2 (Z.ltb_lt (i / 8) _)) by lia. simpl.
  rewrite land_pow2_testbit by (apply Z.mod_pos_bound; lia).
  by rewrite negb_involutive.
Qed.

(** ** The search for a run of unset bits

    [run_inv b lo lb minl p free from] describes a scan that started at bit
    [lo], in the bucket that begins at bit [lb], and has reached bit [p]:
    [free] unset bits end at [p], they start at [from], no run that ends at
    [p] is longer, and no run of [minl] bits was passed over. *)
Definition run_inv (b : t) (lo lb minl p free from : Z) : Prop :=
  0 <= free /\
  (0 < free -> from = p - free /\ lb <= from /\ unset b from p) /\
  (forall a, lo <= a <= p -> unset b a p -> p - a <= free) /\
  (forall a, lo <= a -> a + minl <= p -> unset b a (a + minl) -> minl <= free).

(** What a range returned by a scan satisfies. *)
Definition good_range (b : t) (lb minl maxl upto length from : Z) : Prop :=
  minl <= length <= maxl /\ lb <= from /\ from + length <= upto /\
  unset b from (from + length).

Section Scan.
Context (b : t) (lo lb minl maxl : Z).
Context (Hwf : wf b) (Hmin : 1 <= minl <= maxl).

Lemma run_inv_start p from : p <= lo -> run_inv b lo lb minl p 0 from.
Proof. intros. repeat split; intros; lia. Qed.

Lemma run_inv_extend p q free from :
  lb <= p <= q -> run_inv b lo lb minl p free from -> unset b p q ->
  run_inv b lo lb minl q (free + (q - p)) (if free =? 0 then p else from).
Proof.
  intros Hpq (H0 & Hrun & Hmax & Hmiss) Hu.
  assert (forall a, a <= q -> unset b a q -> unset b a (Z.min p q)) as Hshrink
    by (intros a _ H j Hj; apply H; lia).
  split; [lia|]. split; [|split].
  - intros Hf. destruct (Z.eqb_spec free 0) as [->|].
    + split; [lia|]. split; [lia|]. done.
    + destruct Hrun as (-> & Hlb & Hr); [lia|]. split; [lia|]. split; [done|].
      intros j Hj. destruct (Z.lt_ge_cases j p); [apply Hr|apply Hu]; lia.
  - intros a Ha Hau. destruct (Z.lt_ge_cases p a); [lia|].
    enough (p - a <= free) by lia. apply Hmax; [lia|].
    intros j Hj. apply Hau. lia.
  - intros a Ha Hap Hau. destruct (Z.lt_ge_cases (a + minl) p).
    + enough (minl <= free) by lia. eapply Hmiss; [done|lia|done].
    + destruct (Z.lt_ge_cases p a); [lia|].
      enough (p - a <= free) by lia. apply Hmax; [lia|].
      intros j Hj. apply Hau. lia.
Qed.

Lemma run_inv_reset p q free from from' :
  p < q -> run_inv b lo lb minl p free from -> free < minl ->
  (forall j, p <= j < q -> bit (m_data b) j = true) ->
  run_inv b lo lb minl q 0 from'.
Proof.
  intros Hpq (H0 & Hrun & Hmax & Hmiss) Hf Hset. repeat split; try lia.
  - intros a Ha Hau. destruct (Z.eq_dec a q); [lia|].
    assert (bit (m_data b) (q - 1) = true) by (apply Hset; lia).
    rewrite Hau in * by lia. done.
  - intros a Ha Hap Hau. exfalso.
    destruct (Z.lt_ge_cases p (a + minl)).
    + assert (bit (m_data b) (a + minl - 1) = false) by (apply Hau; lia).
      destruct (Z.lt_ge_cases (a + minl - 1) p); [lia|].
      rewrite Hset in * by lia. done.
    + enough (minl <= free) by lia. eapply Hmiss; [done|lia|done].
Qed.

Lemma run_inv_found p free from upto :
  run_inv b lo lb minl p free from -> minl <= free -> p <= upto ->
  good_range b lb minl maxl upto (Z.min free maxl) from.
Proof.
  intros (H0 & Hrun & _) Hf Hp. destruct Hrun as (-> & Hlb & Hr); [lia|].
  repeat split; try lia. intros j Hj. apply Hr. lia.
Qed.

Lemma unset_shiftr bucket k v tz :
  0 <= v -> 0 <= tz -> tz + v <= 64 ->
  (forall j, 0 <= j < 64 - v -> Z.testbit bucket j = bit (m_data b) (64 * k + v + j)) ->
  (forall j, 0 <= j < tz -> Z.testbit bucket j = false) ->
  unset b (64 * k + v) (64 * k + v + tz).
Proof.
  intros Hv Htz Hle Hbits Hz j Hj.
  replace j with (64 * k + v + (j - (64 * k + v))) by lia.
  rewrite <- Hbits by lia. apply Hz. lia.
Qed.

Lemma shiftr_bits bucket k v n :
  0 <= v -> 0 <= n -> n + v <= 64 -> 0 <= bucket < 2 ^ (64 - v) ->
  (forall j, 0 <= j < 64 - v -> Z.testbit bucket j = bit (m_data b) (64 * k + v + j)) ->
  0 <= Z.shiftr bucket n < 2 ^ (64 - (v + n)) /\
  (forall j, 0 <= j < 64 - (v + n) ->
     Z.testbit (Z.shiftr bucket n) j = bit (m_data b) (64 * k + (v + n) + j)).
Proof.
  intros Hv Hn Hle Hb Hbits. split.
  - rewrite Z.shiftr_div_pow2 by lia. split; [apply Z.div_pos; [lia|apply Z.pow_pos_nonneg; lia]|].
    apply Z.div_lt_upper_bound; [apply Z.pow_pos_nonneg; lia|].
    rewrite <- Z.pow_add_r by lia. replace (n + (64 - (v + n))) with (64 - v) by lia. lia.
  - intros j Hj. rewrite Z.shiftr_spec by lia. rewrite Hbits by lia. f_equal. lia.
Qed.

(** The low run of set bits of a word whose bit [0] is set. *)
Lemma trailing_ones_spec w m :
  1 <= m <= 64 -> 0 <= w < 2 ^ m -> (m = 64 -> w <> size_t_max) ->
  Z.testbit w 0 = true ->
  let ones := count_trailing_zeroes 64 (u64 (Z.lnot w)) in
  1 <= ones <= m /\ (forall j, 0 <= j < ones -> Z.testbit w j = true).
Proof.
  intros Hm Hw Hne H0. cbv zeta.
  set (x := u64 (Z.lnot w)).
  assert (forall j, 0 <= j < 64 -> Z.testbit x j = negb (Z.testbit w j)) as Hx.
  { intros j Hj. unfold x, u64, wrap. rewrite Z.mod_pow2_bits_low by lia.
    apply Z.lnot_spec. lia. }
  assert (0 <= x < 2 ^ 64) as Hxb by (apply wrap_fits; lia).
  assert (x <> 0) as Hx0.
  { intros Hx0. destruct (Z.eq_dec m 64) as [->|Hm64].
    - apply Hne; [done|]. apply Z.bits_inj'. intros j Hj.
      change size_t_max with (Z.ones 64).
      destruct (Z.lt_ge_cases j 64).
      + rewrite Z.ones_spec_low by lia. specialize (Hx j ltac:(lia)).
        rewrite Hx0, Z.bits_0 in Hx. by destruct (Z.testbit w j).
      + rewrite Z.ones_spec_high by lia. rewrite <- (Z.mod_small w (2 ^ 64)) by lia.
        apply Z.mod_pow2_bits_high. lia.
    - specialize (Hx 63 ltac:(lia)). rewrite Hx0, Z.bits_0 in Hx.
      assert (Z.testbit w 63 = false) as Hw63.
      { rewrite <- (Z.mod_small w (2 ^ m)) by lia. apply Z.mod_pow2_bits_high. lia. }
      rewrite Hw63 in Hx. done. }
  destruct (ctz_spec 64 x) as (Hr & Hz & Ho); [lia..|].
  set (c := count_trailing_zeroes 64 x) in *.
  assert (forall j, 0 <= j < c -> Z.testbit w j = true) as Hones.
  { intros j Hj. specialize (Hx j ltac:(lia)). rewrite Hz in Hx by lia.
    by destruct (Z.testbit w j). }
  split; [|done]. split.
  - destruct (Z.eq_dec c 0) as [Hc|]; [|lia]. rewrite Hc, Hx, H0 in Ho by lia. done.
  - destruct (Z.lt_ge_cases m c); [|done]. exfalso.
    assert (Z.testbit w m = true) as Hwm by (apply Hones; lia).
    rewrite <- (Z.mod_small w (2 ^ m)), Z.mod_pow2_bits_high in Hwm by lia. done.
Qed.

Lemma ctz_shift_bit bucket k v :
  0 <= v < 64 -> 0 < bucket < 2 ^ (64 - v) ->
  (forall j, 0 <= j < 64 - v -> Z.testbit bucket j = bit (m_data b) (64 * k + v + j)) ->
  let tz := count_trailing_zeroes 64 bucket in
  0 <= tz < 64 - v /\ unset b (64 * k + v) (64 * k + v + tz) /\
  Z.testbit (Z.shiftr bucket tz) 0 = true.
Proof.
  intros Hv Hb Hbits. cbv zeta.
  assert (2 ^ (64 - v) <= 2 ^ 64) by (apply Z.pow_le_mono_r; lia).
  destruct (ctz_spec 64 bucket) as (Hr & Hz & Ho); [lia..|].
  set (tz := count_trailing_zeroes 64 bucket) in *.
  assert (tz < 64 - v) as Htz.
  { destruct (Z.lt_ge_cases tz (64 - v)); [done|].
    rewrite <- (Z.mod_small bucket (2 ^ (64 - v))), Z.mod_pow2_bits_high in Ho by lia. done. }
  split; [lia|]. split.
  - eapply unset_shiftr; eauto; lia.
  - rewrite Z.shiftr_spec by lia. done.
Qed.

Lemma scan_bucket_spec fuel k v bucket free from :
  0 <= v <= 64 -> (Z.to_nat (64 - v) < fuel)%nat -> lb <= 64 * k ->
  0 <= bucket < 2 ^ (64 - v) -> (v = 0 -> bucket <> size_t_max) ->
  (forall j, 0 <= j < 64 - v -> Z.testbit bucket j = bit (m_data b) (64 * k + v + j)) ->
  run_inv b lo lb minl (64 * k + v) free from ->
  match scan_bucket fuel k minl maxl v bucket free from with
  | Found length from' => good_range b lb minl maxl (64 * k + 64) length from'
  | NotYet free' from' => run_inv b lo lb minl (64 * k + 64) free' from'
  end.
Proof.
  revert v bucket free from. induction fuel as [|fuel IH];
    intros v bucket free from Hv Hfuel Hlb Hb Hmax Hbits Hinv; [lia|].
  cbn [scan_bucket]. destruct (Z.ltb_spec v 64) as [Hv64|];
    [|replace (64 * k + 64) with (64 * k + v) by lia; done].
  rewrite (Z.mul_comm k 64).
  destruct (Z.eqb_spec bucket 0) as [->|Hnz].
  - apply IH; [lia|lia|lia|split; [lia|by compute]|lia|intros j Hj; lia|].
    replace (64 - v) with (64 * k + 64 - (64 * k + v)) by lia.
    apply run_inv_extend; [lia|done|].
    intros j Hj. replace j with (64 * k + v + (j - (64 * k + v))) by lia.
    rewrite <- Hbits by lia. apply Z.bits_0.
  - destruct (ctz_shift_bit bucket k v) as (Htz & Hun & Hone); [lia..|done|].
    set (tz := count_trailing_zeroes 64 bucket) in *.
    destruct (shiftr_bits bucket k v tz) as (Hb1 & Hbits1); [lia..|done|].
    set (w := Z.shiftr bucket tz) in *.
    assert (u8 (v + tz) = v + tz) as -> by (apply wrap_small; unfold fits; lia).
    assert (run_inv b lo lb minl (64 * k + v + tz) (free + tz)
              (if free =? 0 then 64 * k + v else from)) as Hinv1.
    { replace (free + tz) with (free + (64 * k + v + tz - (64 * k + v))) by lia.
      apply run_inv_extend; [lia|done|done]. }
    destruct (Z.leb_spec minl (free + tz)).
    { eapply run_inv_found; [exact Hinv1|lia|lia]. }
    destruct (trailing_ones_spec w (64 - (v + tz))) as (Hones & Hset); [lia|done| |done|].
    { intros Hvt. unfold w. replace tz with 0 by lia. rewrite Z.shiftr_0_r.
      apply Hmax. lia. }
    set (ones := count_trailing_zeroes 64 (u64 (Z.lnot w))) in *.
    assert (u8 (v + tz + ones) = v + tz + ones) as -> by (apply wrap_small; unfold fits; lia).
    destruct (shiftr_bits w k (v + tz) ones) as (Hb2 & Hbits2); [lia..|done|].
    apply IH; try (lia || done).
    eapply (run_inv_reset (64 * k + v + tz)); [lia|exact Hinv1|lia|].
    intros j Hj. replace j with (64 * k + (v + tz) + (j - (64 * k + (v + tz)))) by lia.
    rewrite <- Hbits1 by lia. apply Hset. lia.
Qed.

Lemma full_bucket_bits k j :
  bucket_at b k = size_t_max -> 64 * k <= j < 64 * k + 64 -> bit (m_data b) j = true.
Proof.
  intros E Hj. replace j with (64 * k + (j - 64 * k)) by lia.
  rewrite <- bucket_testbit by (done || lia). rewrite E. change size_t_max with (Z.ones 64).
  apply Z.ones_spec_low. lia.
Qed.

Lemma empty_bucket_bits k :
  bucket_at b k = 0 -> unset b (64 * k) (64 * k + 64).
Proof.
  intros E j Hj. replace j with (64 * k + (j - 64 * k)) by lia.
  rewrite <- bucket_testbit by (done || lia). rewrite E. apply Z.bits_0.
Qed.

(** At a bucket's start the scan either stands exactly there, or it has just
    begun inside the bucket at bit [lo]. *)
Definition at_bucket (k start_bit free : Z) : Prop :=
  (start_bit = 0 /\ (lb < 64 * k \/ lo = 64 * k)) \/
  (free = 0 /\ lo = 64 * k + start_bit /\ 0 <= start_bit < 64).

Lemma scan_buckets_spec n k sb free from :
  0 <= k -> lb <= 64 * k -> at_bucket k sb free ->
  run_inv b lo lb minl (64 * k + sb) free from ->
  match scan_buckets b minl maxl n k sb free from with
  | Found length from' => good_range b lb minl maxl (64 * (k + Z.of_nat n)) length from'
  | NotYet free' from' =>
      (n <> O -> run_inv b lo lb minl (64 * (k + Z.of_nat n)) free' from') /\
      (n = O -> free' = free /\ from' = from)
  end.
Proof.
  revert k sb free from. induction n as [|n IH]; intros k sb free from Hk Hlb Hat Hinv;
    [simpl; done|].
  assert (forall free' from', run_inv b lo lb minl (64 * k + 64) free' from' ->
    match scan_buckets b minl maxl n (k + 1) 0 free' from' with
    | Found length f => good_range b lb minl maxl (64 * (k + Z.of_nat (S n))) length f
    | NotYet fr f => (S n <> O -> run_inv b lo lb minl (64 * (k + Z.of_nat (S n))) fr f) /\
                     (S n = O -> fr = free /\ f = from)
    end) as Hnext.
  { intros free' from' Hinv'.
    specialize (IH (k + 1) 0 free' from').
    replace (k + 1 + Z.of_nat n) with (k + Z.of_nat (S n)) in IH by lia.
    replace (64 * (k + 1) + 0) with (64 * k + 64) in IH by lia.
    destruct (scan_buckets b minl maxl n (k + 1) 0 free' from') as [l f|fr f].
    - apply IH; [lia|lia| |done]. left. lia.
    - split; [|done]. intros _. destruct IH as [IH1 IH0]; [lia|lia|left; lia|done|].
      destruct n; [|by apply IH1]. destruct IH0 as [-> ->]; [done|].
      by replace (64 * (k + Z.of_nat 1)) with (64 * k + 64) by lia. }
  assert (0 <= sb < 64) as Hsb by (destruct Hat; lia).
  cbn [scan_buckets].
  destruct (Z.eqb_spec (bucket_at b k) size_t_max) as [Efull|Hnfull].
  { destruct (Z.leb_spec minl free).
    - eapply run_inv_found; [done|done|lia].
    - apply Hnext. eapply (run_inv_reset (64 * k + sb)); [lia|done|lia|].
      intros j Hj. eapply full_bucket_bits; [done|lia]. }
  destruct (Z.eqb_spec (bucket_at b k) 0) as [E0|Hn0].
  { assert (run_inv b lo lb minl (64 * k + 64) (free + 64)
              (if free =? 0 then k * 64 else from)) as Hinv'.
    { rewrite (Z.mul_comm k 64).
      replace (free + 64) with (free + (64 * k + 64 - 64 * k)) by lia.
      apply run_inv_extend; [lia| |by apply empty_bucket_bits].
      destruct Hat as [[-> _]|[-> [? ?]]].
      - by replace (64 * k + 0) with (64 * k) in Hinv by lia.
      - apply run_inv_start. lia. }
    destruct (Z.leb_spec maxl (free + 64)).
    - rewrite <- (Z.min_r (free + 64) maxl) at 2 by lia.
      eapply run_inv_found; [exact Hinv'|lia|lia].
    - by apply Hnext. }
  pose proof (bucket_bound b k Hwf) as Hbb.
  destruct (shiftr_bits (bucket_at b k) k 0 sb) as (Hb1 & Hbits1); [lia|lia|lia|lia| |].
  { intros j Hj. rewrite bucket_testbit by (done || lia). f_equal. lia. }
  pose proof (scan_bucket_spec 65 k sb (Z.shiftr (bucket_at b k) sb) free from) as Hsb1.
  destruct (scan_bucket 65 k minl maxl sb (Z.shiftr (bucket_at b k) sb) free from) as [l f|fr f].
  - assert (good_range b lb minl maxl (64 * k + 64) l f) as (H1 & H2 & H3 & H4).
    { apply Hsb1; try (lia || done). intros ->. by rewrite Z.shiftr_0_r. }
    repeat split; try lia. done.
  - apply Hnext. apply Hsb1; try (lia || done). intros ->. by rewrite Z.shiftr_0_r.
Qed.

Lemma scan_trailing_spec n i free from :
  0 <= i -> lb <= i -> i + Z.of_nat n = m_size b ->
  run_inv b lo lb minl i free from -> free < minl ->
  exists r from', scan_trailing b minl maxl n i free from = Ok (r, from') /\
  match r with
  | Some length => good_range b lb minl maxl (m_size b) length from'
  | None => forall a, lo <= a -> a + minl <= m_size b -> ~ unset b a (a + minl)
  end.
Proof.
  revert i free from. induction n as [|n IH]; intros i free from Hi Hlb Hn Hinv Hf.
  { exists None, from. split; [done|]. intros a Ha Hle Hun.
    destruct Hinv as (_ & _ & _ & Hmiss). specialize (Hmiss a Ha).
    replace i with (m_size b) in * by lia. specialize (Hmiss Hle Hun). lia. }
  cbn [scan_trailing]. rewrite get_ok by (done || lia). cbn [bind].
  destruct (bit (m_data b) i) eqn:Ebit.
  - apply IH; [lia|lia|lia| |lia].
    eapply (run_inv_reset i); [lia|done|lia|].
    intros j Hj. by replace j with i by lia.
  - assert (run_inv b lo lb minl (i + 1) (free + 1) (if free =? 0 then i else from)) as Hinv'.
    { replace (free + 1) with (free + (i + 1 - i)) by lia.
      apply run_inv_extend; [lia|done|]. intros j Hj. by replace j with i by lia. }
    destruct (Z.leb_spec minl (free + 1)).
    + do 2 eexists. split; [done|]. eapply run_inv_found; [exact Hinv'|lia|lia].
    + apply IH; [lia|lia|lia|done|lia].
Qed.

End Scan.

(** Soundness and completeness of the search in one statement: it returns a
    range of unset bits of the requested length, or none exists at or after
    [from]. *)
Lemma find_next_range_spec b from minl maxl :
  wf b -> 0 <= from <= m_size b -> 1 <= minl <= maxl ->
  exists r from',
    find_next_range_of_unset_bits b from minl maxl = Ok (r, from') /\
    match r with
    | Some length => good_range b (64 * (from / 64)) minl maxl (m_size b) length from'
    | None => forall a, from <= a -> a + minl <= m_size b -> ~ unset b a (a + minl)
    end.
Proof.
  intros Hwf Hfrom Hmin. unfold find_next_range_of_unset_bits.
  destruct (Z.ltb_spec maxl minl); [lia|].
  set (k0 := from / 64). set (K := m_size b / 64).
  assert (64 * k0 + from mod 64 = from) as Hk0 by (unfold k0; zdiv).
  assert (0 <= k0 <= K) as Hk by (unfold k0, K; zdiv).
  assert (64 * K + m_size b mod 64 = m_size b) as HK by (unfold K; zdiv).
  pose proof (Z.mod_pos_bound (m_size b) 64 ltac:(lia)) as Hmod.
  pose proof (Z.mod_pos_bound from 64 ltac:(lia)) as Hmodf.
  pose proof (scan_buckets_spec b from (64 * k0) minl maxl Hwf Hmin
                (Z.to_nat (K - k0)) k0 (from mod 64) 0 from) as Hs.
  replace (k0 + Z.of_nat (Z.to_nat (K - k0))) with K in Hs by lia.
  replace (64 * k0 + from mod 64) with from in Hs by lia.
  assert (run_inv b from (64 * k0) minl from 0 from) as Hinv0
    by (eapply (run_inv_start _ _ _ _ maxl); [done|lia]).
  assert (at_bucket from (64 * k0) k0 (from mod 64) 0) as Hat by (right; lia).
  destruct (scan_buckets b minl maxl (Z.to_nat (K - k0)) k0 (from mod 64) 0 from)
    as [l f|free f].
  { exists (Some l), f. split; [done|].
    destruct Hs as (? & ? & ? & ?); [lia|lia|done|done|]. repeat split; try lia. done. }
  destruct Hs as [Hs1 Hs0]; [lia|lia|done|done|].
  assert (run_inv b from (64 * k0) minl (64 * K) free f) as Hinv.
  { destruct (Z.eq_dec k0 K) as [E|].
    - destruct Hs0 as [-> ->]; [lia|].
      eapply (run_inv_start _ _ _ _ maxl); [done|lia].
    - apply Hs1. lia. }
  destruct (Z.ltb_spec free minl).
  - rewrite (Z.mul_comm K 64). apply (scan_trailing_spec b from (64 * k0)); try (done || lia).
  - do 2 eexists. split; [done|]. eapply run_inv_found; [done|exact Hinv|lia|lia].
Qed.

(** ** Range updates *)

Lemma load_ok d i : 0 <= i < len d -> load d i = Ok (byte_at d i).
Proof.
  intros Hi. unfold load.
  by rewrite (proj2 (Z.leb_le 0 i)), (proj2 (Z.ltb_lt i _)) by lia.
Qed.

Lemma store_ok d i v : 0 <= i < len d -> store d i v = Ok (set_byte d i v).
Proof.
  intros Hi. unfold store.
  by rewrite (proj2 (Z.leb_le 0 i)), (proj2 (Z.ltb_lt i _)) by lia.
Qed.

Lemma u8_is_byte x : is_byte (u8 x).
Proof. apply (wrap_fits 8). lia. Qed.

Lemma lor_is_byte x y : is_byte x -> is_byte y -> is_byte (Z.lor x y).
Proof. intros. by apply (fits_lor 8). Qed.

Lemma land_is_byte x y : is_byte x -> is_byte (Z.land x y).
Proof. intros. by apply (fits_land 8). Qed.

Lemma u8_lnot_testbit m k : 0 <= k < 8 -> Z.testbit (u8 (Z.lnot m)) k = negb (Z.testbit m k).
Proof.
  intros Hk. unfold u8, wrap. rewrite Z.mod_pow2_bits_low by lia.
  apply Z.lnot_spec. lia.
Qed.

(** The byte that a masked write stores. *)
Definition masked (VALUE : bool) (byte mask : Z) : Z :=
  if VALUE then Z.lor byte mask else Z.land byte (u8 (Z.lnot mask)).

Lemma masked_is_byte VALUE byte mask : is_byte byte -> is_byte mask -> is_byte (masked VALUE byte mask).
Proof.
  intros Hb Hm. unfold masked. destruct VALUE.
  - by apply lor_is_byte.
  - by apply land_is_byte.
Qed.

Lemma masked_testbit VALUE byte mask k :
  0 <= k < 8 ->
  Z.testbit (masked VALUE byte mask) k = if Z.testbit mask k then VALUE else Z.testbit byte k.
Proof.
  intros Hk. unfold masked. destruct VALUE.
  - rewrite Z.lor_spec. destruct (Z.testbit mask k); [apply orb_true_r|apply orb_false_r].
  - rewrite Z.land_spec, u8_lnot_testbit by lia.
    destruct (Z.testbit mask k); [apply andb_false_r|apply andb_true_r].
Qed.

(** The update of every bit of one byte that a mask selects. *)
Lemma set_masked_bits VALUE d i mask j :
  0 <= i < len d ->
  bit (set_byte d i (masked VALUE (byte_at d i) mask)) j =
  if (j / 8 =? i) && Z.testbit mask (j mod 8) then VALUE else bit d j.
Proof.
  intros Hi. unfold bit. rewrite byte_at_set_byte by lia.
  pose proof (Z.mod_pos_bound j 8 ltac:(lia)).
  destruct (Z.eqb_spec (j / 8) i) as [->|]; cbn [andb]; [|done].
  by rewrite masked_testbit by lia.
Qed.

Lemma set_ok b i v :
  wf b -> 0 <= i < m_size b ->
  exists b', set b i v = Ok b' /\ wf b' /\ m_size b' = m_size b /\
    forall j, bit (m_data b') j = if j =? i then v else bit (m_data b) j.
Proof.
  intros Hwf Hi. pose proof (size_in_bytes_bound b i Hwf Hi) as Hlt.
  assert (0 <= i / 8) by (apply Z.div_pos; lia).
  pose proof (Z.mod_pos_bound i 8 ltac:(lia)) as Hm.
  unfold set. rewrite (proj2 (Z.ltb_lt i (m_size b))) by lia.
  rewrite load_ok by lia. cbn [bind]. rewrite store_ok by lia. cbn [bind].
  assert (is_byte (Z.shiftl 1 (i mod 8))) as Hbit.
  { unfold is_byte. rewrite Z.shiftl_1_l. split; [apply Z.pow_nonneg; lia|].
    apply (Z.pow_lt_mono_r 2 (i mod 8) 8); lia. }
  rewrite (wrap_small 8 (Z.shiftl 1 (i mod 8)) Hbit : u8 _ = _).
  change (if v then _ else _) with (masked v (byte_at (m_data b) (i / 8)) (Z.shiftl 1 (i mod 8))).
  eexists. split; [done|]. destruct Hwf as (Hb & Hsz & Hlen). split; [|split; [done|]].
  - split; [|split]; simpl; [|done|by rewrite len_set_byte].
    apply set_byte_Forall; [done|]. apply masked_is_byte; [|done]. by apply byte_at_is_byte.
  - intros j. simpl. rewrite set_masked_bits by lia. rewrite Z.shiftl_1_l, Z.pow2_bits_eqb by lia.
    destruct (Z.eqb_spec j i) as [->|Hne]; [by rewrite !Z.eqb_refl|].
    destruct (Z.eqb_spec (j / 8) (i / 8)), (Z.eqb_spec (i mod 8) (j mod 8)); cbn [andb]; try done.
    exfalso. zdiv.
Qed.

(** The test [verify_that_all_bits_flip] makes on one masked byte. *)
Definition mask_flips (VALUE : bool) (byte mask : Z) : bool :=
  if VALUE then Z.land byte mask =? 0 else Z.land byte mask =? mask.

Lemma apply_mask_eq VALUE verify d i mask :
  0 <= i < len d ->
  apply_mask VALUE verify d i mask =
  if negb verify || mask_flips VALUE (byte_at d i) mask
  then Ok (set_byte d i (masked VALUE (byte_at d i) mask)) else Panic.
Proof.
  intros Hi. unfold apply_mask. rewrite load_ok by lia. cbn [bind].
  unfold mask_flips, masked. destruct VALUE; by rewrite store_ok by lia.
Qed.

Lemma byte_eqb_testbit x y :
  is_byte x -> is_byte y ->
  (forall k, 0 <= k < 8 -> Z.testbit x k = Z.testbit y k) -> x = y.
Proof.
  intros Hx Hy H. apply Z.bits_inj'. intros k Hk.
  destruct (Z.lt_ge_cases k 8); [by apply H|]. by rewrite !byte_testbit_high by done.
Qed.

Lemma mask_flips_true VALUE byte mask :
  is_byte byte -> is_byte mask ->
  (forall k, 0 <= k < 8 -> Z.testbit mask k = true -> Z.testbit byte k = negb VALUE) ->
  mask_flips VALUE byte mask = true.
Proof.
  intros Hb Hm H. unfold mask_flips. destruct VALUE; apply Z.eqb_eq;
    apply byte_eqb_testbit; auto using land_is_byte; try (unfold is_byte in *; lia);
    intros k Hk; rewrite Z.land_spec, ?Z.bits_0; specialize (H k Hk);
    destruct (Z.testbit mask k); rewrite ?H by done; simpl; auto using andb_false_r.
Qed.

Lemma memset_len d i v n : len (memset d i v n) = len d.
Proof.
  revert d i. induction n as [|n IH]; intros d i; [done|].
  cbn [memset]. rewrite IH. apply len_set_byte.
Qed.

Lemma memset_Forall d i v n :
  Forall is_byte d -> is_byte v -> Forall is_byte (memset d i v n).
Proof.
  revert d i. induction n as [|n IH]; intros d i Hd Hv; [done|].
  cbn [memset]. apply IH; auto with kernel.
Qed.

Lemma byte_at_memset d i v n j :
  0 <= i -> i + Z.of_nat n <= len d ->
  byte_at (memset d i v n) j =
  if (i <=? j) && (j <? i + Z.of_nat n) then v else byte_at d j.
Proof.
  revert d i. induction n as [|n IH]; intros d i Hi Hn.
  - destruct (Z.leb_spec i j), (Z.ltb_spec j (i + Z.of_nat 0)); simpl; done || lia.
  - cbn [memset]. rewrite IH by (rewrite ?len_set_byte; lia).
    rewrite byte_at_set_byte by lia.
    destruct (Z.leb_spec (i + 1) j), (Z.leb_spec i j), (Z.ltb_spec j (i + 1 + Z.of_nat n)),
      (Z.ltb_spec j (i + Z.of_nat (S n))), (Z.eqb_spec j i); simpl; done || lia.
Qed.

(** A bitmap grown from the default-constructed one has only unset bits. *)
Lemma grow_fresh n :
  0 < n <= max_size ->
  exists b, grow (mk [] 0) n false = Ok b /\ wf b /\ m_size b = n /\
    forall j, bit (m_data b) j = false.
Proof.
  intros Hn. unfold grow. simpl. rewrite (proj2 (Z.ltb_lt 0 n)) by lia.
  eexists. split; [done|]. unfold fill, size_in_bytes. simpl.
  pose proof (ceil_div_nonneg n 8 ltac:(lia) ltac:(lia)).
  set (c := ceil_div n 8) in *.
  assert (len (repeat 0 (Z.to_nat c)) = c) as Hlen by (unfold len; rewrite repeat_length; lia).
  assert (Forall is_byte (repeat 0 (Z.to_nat c))) as Hrep.
  { apply List.Forall_forall. intros x ->%repeat_spec. unfold is_byte. lia. }
  split; [split; [|split]|split; [done|]]; simpl.
  - apply memset_Forall; [done|unfold is_byte; lia].
  - unfold max_size in *. lia.
  - unfold size_in_bytes. simpl. rewrite memset_len. fold c. lia.
  - intros j. unfold bit. rewrite byte_at_memset by lia.
    destruct (_ && _); [apply Z.bits_0|]. unfold byte_at. destruct (j / 8 <? 0); [apply Z.bits_0|].
    rewrite nth_repeat. apply Z.bits_0.
Qed.

Lemma octet_cases k : 0 <= k < 8 ->
  k = 0 \/ k = 1 \/ k = 2 \/ k = 3 \/ k = 4 \/ k = 5 \/ k = 6 \/ k = 7.
Proof. lia. Qed.

Lemma first_mask_testbit k j :
  0 <= k < 8 -> 0 <= j < 8 -> Z.testbit (byte_at bitmask_first_byte k) j = (k <=? j).
Proof.
  intros Hk%octet_cases Hj%octet_cases.
  destruct_or! Hk; destruct_or! Hj; by subst.
Qed.

Lemma last_mask_testbit k j :
  0 <= k < 8 -> 0 <= j < 8 -> Z.testbit (byte_at bitmask_last_byte k) j = (j <? k).
Proof.
  intros Hk%octet_cases Hj%octet_cases.
  destruct_or! Hk; destruct_or! Hj; by subst.
Qed.

Lemma masks_are_bytes k :
  is_byte (byte_at bitmask_first_byte k) /\ is_byte (byte_at bitmask_last_byte k).
Proof.
  split; apply byte_at_is_byte; repeat constructor; unfold is_byte; lia.
Qed.

Lemma first_byte_selects start j :
  0 <= start ->
  (j / 8 =? start / 8) && Z.testbit (byte_at bitmask_first_byte (start mod 8)) (j mod 8) =
  (start <=? j) && (j <? 8 * (start / 8) + 8).
Proof.
  intros. rewrite first_mask_testbit by (apply Z.mod_pos_bound; lia).
  destruct (Z.eqb_spec (j / 8) (start / 8)), (Z.leb_spec (start mod 8) (j mod 8)),
    (Z.leb_spec start j), (Z.ltb_spec j (8 * (start / 8) + 8)); cbn [andb]; done || zdiv.
Qed.

Lemma last_byte_selects stop j :
  0 <= stop ->
  (j / 8 =? stop / 8) && Z.testbit (byte_at bitmask_last_byte (stop mod 8)) (j mod 8) =
  (8 * (stop / 8) <=? j) && (j <? stop).
Proof.
  intros. rewrite last_mask_testbit by (apply Z.mod_pos_bound; lia).
  destruct (Z.eqb_spec (j / 8) (stop / 8)), (Z.ltb_spec (j mod 8) (stop mod 8)),
    (Z.leb_spec (8 * (stop / 8)) j), (Z.ltb_spec j stop); cbn [andb]; done || zdiv.
Qed.

Lemma bit_memset d i v n j (VALUE : bool) :
  0 <= i -> i + Z.of_nat n <= len d -> v = (if VALUE then 0xFF else 0x0) ->
  bit (memset d i v n) j =
  if (8 * i <=? j) && (j <? 8 * (i + Z.of_nat n)) then VALUE else bit d j.
Proof.
  intros Hi Hn ->. unfold bit. rewrite byte_at_memset by lia.
  pose proof (Z.mod_pos_bound j 8 ltac:(lia)) as Hj%octet_cases.
  destruct (Z.leb_spec i (j / 8)), (Z.ltb_spec (j / 8) (i + Z.of_nat n)),
    (Z.leb_spec (8 * i) j), (Z.ltb_spec j (8 * (i + Z.of_nat n))); cbn [andb]; try done;
    try zdiv.
  destruct VALUE; [|apply Z.bits_0]. revert Hj.
  generalize (j mod 8). intros k Hk. destruct_or! Hk; by subst.
Qed.

(** The two masked bytes of a range update pass the flip test. *)
Definition edges_flip (VALUE : bool) (b : t) (start length : Z) : Prop :=
  forall j, start <= j < start + length ->
    (j / 8 = start / 8 \/ j / 8 = (start + length) / 8) ->
    bit (m_data b) j = negb VALUE.

Section SetRange.
Context (VALUE verify : bool) (b : t) (start length : Z).
Context (Hwf : wf b) (Hs : 0 <= start) (Hl : 0 < length).
Context (Hle : start + length <= m_size b).
Context (Hroom : (start + length) / 8 < len (m_data b)).
Context (Hflip : verify = true -> edges_flip VALUE b start length).

Lemma edge_mask_flips i mask :
  i = start / 8 \/ i = (start + length) / 8 -> is_byte mask ->
  (forall k, 0 <= k < 8 -> Z.testbit mask k = true -> start <= 8 * i + k < start + length) ->
  negb verify || mask_flips VALUE (byte_at (m_data b) i) mask = true.
Proof.
  intros Hi Hm Hin. destruct verify eqn:Ev; [|done]. simpl.
  destruct Hwf as (Hd & _ & _).
  apply mask_flips_true; [auto with kernel|done|].
  intros k Hk Ht. rewrite <- bit_byte by lia. apply (Hflip eq_refl); [by apply Hin|].
  assert ((8 * i + k) / 8 = i) as -> by zdiv. done.
Qed.

Lemma set_range_impl_same_byte :
  start / 8 = (start + length) / 8 ->
  exists d, set_range_impl VALUE verify b start length = Ok (mk d (m_size b)) /\
    Forall is_byte d /\ len d = len (m_data b) /\
    forall j, bit d j = if (start <=? j) && (j <? start + length) then VALUE
                        else bit (m_data b) j.
Proof.
  intros E. unfold set_range_impl. destruct Hwf as (Hd & Hsz & _).
  destruct (Z.ltb_spec start (m_size b)); [|lia].
  unfold u64. rewrite wrap_small by (unfold fits; lia).
  destruct (Z.leb_spec (start + length) (m_size b)); [|lia].
  destruct (Z.eqb_spec length 0); [lia|].
  rewrite (proj2 (Z.eqb_eq _ _) E).
  assert (0 <= start / 8) by (apply Z.div_pos; lia).
  set (mask := Z.land _ _).
  assert (forall j, (j / 8 =? start / 8) && Z.testbit mask (j mod 8) =
                    (start <=? j) && (j <? start + length)) as Hsel.
  { intros j. unfold mask. rewrite Z.land_spec.
    pose proof (first_byte_selects start j Hs) as Hfirst.
    pose proof (last_byte_selects (start + length) j ltac:(lia)) as Hlast.
    rewrite <- E in Hlast. rewrite andb_assoc, Hfirst.
    destruct (Z.eqb_spec (j / 8) (start / 8)) as [Ej|]; simpl in Hlast.
    - rewrite Hlast. destruct (Z.leb_spec start j), (Z.ltb_spec j (8 * (start / 8) + 8)),
        (Z.leb_spec (8 * (start / 8)) j), (Z.ltb_spec j (start + length)); simpl; done || zdiv.
    - destruct (Z.leb_spec start j), (Z.ltb_spec j (8 * (start / 8) + 8)),
        (Z.ltb_spec j (start + length)); simpl; done || zdiv. }
  destruct (masks_are_bytes (start mod 8)) as [Hm1 _].
  rewrite apply_mask_eq by lia. rewrite edge_mask_flips; cbn [bind]; [|by left|by apply land_is_byte|].
  - eexists. split; [done|]. split; [|split].
    + apply set_byte_Forall; [done|]. apply masked_is_byte; [auto with kernel|].
      by apply land_is_byte.
    + apply len_set_byte.
    + intros j. rewrite set_masked_bits by lia. by rewrite Hsel.
  - intros k Hk Ht. specialize (Hsel (8 * (start / 8) + k)).
    replace ((8 * (start / 8) + k) / 8) with (start / 8) in Hsel by zdiv.
    replace ((8 * (start / 8) + k) mod 8) with k in Hsel by zdiv.
    rewrite Z.eqb_refl, Ht in Hsel. simpl in Hsel. symmetry in Hsel. boolify. lia.
Qed.

Lemma set_range_impl_two_bytes :
  start / 8 <> (start + length) / 8 ->
  exists d, set_range_impl VALUE verify b start length = Ok (mk d (m_size b)) /\
    Forall is_byte d /\ len d = len (m_data b) /\
    forall j, bit d j = if (start <=? j) && (j <? start + length) then VALUE
                        else bit (m_data b) j.
Proof.
  intros E. unfold set_range_impl. destruct Hwf as (Hd & Hsz & _).
  destruct (Z.ltb_spec start (m_size b)); [|lia].
  unfold u64. rewrite wrap_small by (unfold fits; lia).
  destruct (Z.leb_spec (start + length) (m_size b)); [|lia].
  destruct (Z.eqb_spec length 0); [lia|].
  rewrite (proj2 (Z.eqb_neq _ _) E).
  assert (0 <= start / 8 < (start + length) / 8) as Hlt by zdiv.
  set (first := start / 8) in *. set (last := (start + length) / 8) in *.
  destruct (masks_are_bytes (start mod 8)) as [Hm1 _].
  destruct (masks_are_bytes ((start + length) mod 8)) as [_ Hm2].
  pose proof (first_byte_selects start) as Hsel1. fold first in Hsel1.
  pose proof (last_byte_selects (start + length)) as Hsel2. fold last in Hsel2.
  set (mask1 := byte_at bitmask_first_byte _) in *.
  set (mask2 := byte_at bitmask_last_byte _) in *.
  rewrite apply_mask_eq by lia. rewrite edge_mask_flips; [|by left|done|].
  2:{ intros k Hk Ht. specialize (Hsel1 (8 * first + k) Hs).
      replace ((8 * first + k) / 8) with first in Hsel1 by zdiv.
      replace ((8 * first + k) mod 8) with k in Hsel1 by zdiv.
      rewrite Z.eqb_refl, Ht in Hsel1. simpl in Hsel1. symmetry in Hsel1. boolify.
      unfold first, last in *. zdiv. }
  cbn [bind]. rewrite apply_mask_eq by (rewrite len_set_byte; lia).
  rewrite byte_at_set_byte by lia. destruct (Z.eqb_spec last first); [lia|].
  rewrite edge_mask_flips; [|by right|done|].
  2:{ intros k Hk Ht. specialize (Hsel2 (8 * last + k) ltac:(lia)).
      replace ((8 * last + k) / 8) with last in Hsel2 by zdiv.
      replace ((8 * last + k) mod 8) with k in Hsel2 by zdiv.
      rewrite Z.eqb_refl, Ht in Hsel2. simpl in Hsel2. symmetry in Hsel2. boolify.
      unfold first, last in *. zdiv. }
  cbn [bind]. set (d1 := set_byte (m_data b) first _). set (d2 := set_byte d1 last _).
  assert (len d1 = len (m_data b)) as L1 by apply len_set_byte.
  assert (len d2 = len (m_data b)) as L2 by (unfold d2; rewrite len_set_byte; done).
  assert (Forall is_byte d2) as F2.
  { apply set_byte_Forall; [apply set_byte_Forall|];
      auto using masked_is_byte with kernel. }
  assert (forall j, bit d2 j =
     if (j / 8 =? last) && Z.testbit mask2 (j mod 8) then VALUE
     else if (j / 8 =? first) && Z.testbit mask1 (j mod 8) then VALUE
     else bit (m_data b) j) as B2.
  { intros j. unfold d2.
    replace (byte_at (m_data b) last) with (byte_at d1 last).
    { rewrite set_masked_bits by lia. unfold d1. by rewrite set_masked_bits by lia. }
    unfold d1. rewrite byte_at_set_byte by lia.
    destruct (Z.eqb_spec last first); [lia|done]. }
  eexists. split; [done|].
  destruct (Z.ltb_spec (first + 1) last) as [Hmid|Hmid].
  - split; [apply memset_Forall; [done|]; destruct VALUE; unfold is_byte; lia|].
    split; [rewrite memset_len; done|]. intros j.
    rewrite (bit_memset _ _ _ _ _ VALUE) by (done || lia).
    rewrite B2, Hsel1, Hsel2 by lia.
    replace (first + 1 + Z.of_nat (Z.to_nat (last - (first + 1)))) with last by lia.
    destruct (Z.leb_spec start j), (Z.ltb_spec j (start + length)),
      (Z.leb_spec (8 * (first + 1)) j), (Z.ltb_spec j (8 * last)),
      (Z.leb_spec (8 * last) j), (Z.ltb_spec j (8 * first + 8)); simpl;
      done || (unfold first, last in *; zdiv).
  - split; [done|]. split; [done|]. intros j. rewrite B2, Hsel1, Hsel2 by lia.
    destruct (Z.leb_spec start j), (Z.ltb_spec j (start + length)),
      (Z.leb_spec (8 * last) j), (Z.ltb_spec j (8 * first + 8)); simpl;
      done || (unfold first, last in *; zdiv).
Qed.

End SetRange.

(** A range update inside a buffer that also covers the byte after the range
    succeeds, keeps the bitmap well formed and changes the bits of the range
    and no other. *)
Lemma set_range_impl_spec VALUE verify b start length :
  wf b -> 0 <= start -> 0 < length -> start + length <= m_size b ->
  (start + length) / 8 < len (m_data b) ->
  (verify = true -> edges_flip VALUE b start length) ->
  exists b', set_range_impl VALUE verify b start length = Ok b' /\
    wf b' /\ m_size b' = m_size b /\ len (m_data b') = len (m_data b) /\
    forall j, bit (m_data b') j =
      if (start <=? j) && (j <? start + length) then VALUE else bit (m_data b) j.
Proof.
  intros Hwf Hs Hl Hle Hroom Hflip.
  assert (exists d, set_range_impl VALUE verify b start length = Ok (mk d (m_size b)) /\
    Forall is_byte d /\ len d = len (m_data b) /\
    forall j, bit d j = if (start <=? j) && (j <? start + length) then VALUE
                        else bit (m_data b) j) as (d & E & F & L & B).
  { destruct (Z.eq_dec (start / 8) ((start + length) / 8)).
    - by apply set_range_impl_same_byte.
    - by apply set_range_impl_two_bytes. }
  exists (mk d (m_size b)). split; [done|]. split; [|done].
  destruct Hwf as (_ & Hsz & Hlen). split; [done|]. split; [done|].
  unfold size_in_bytes in *. simpl. lia.
Qed.

(** A place where [n] consecutive unset bits can be taken. *)
Definition fit_at (b : t) (n s : Z) : Prop :=
  0 <= s /\ s + n <= m_size b /\ unset b s (s + n).

Lemma good_range_fit b lb minl maxl length from :
  0 <= lb -> good_range b lb minl maxl (m_size b) length from -> fit_at b minl from.
Proof.
  intros Hlb (H1 & H2 & H3 & H4). split; [lia|]. split; [lia|].
  intros j Hj. apply H4. lia.
Qed.

Lemma first_fit_ok b n :
  wf b -> 1 <= n ->
  exists r, find_first_fit b n = Ok r /\
    match r with Some s => fit_at b n s | None => forall s, ~ fit_at b n s end.
Proof.
  intros Hwf Hn. unfold find_first_fit.
  destruct (find_next_range_spec b 0 n n) as (r & f & E & H); [done| |lia|].
  { destruct Hwf as (_ & ? & _). lia. }
  rewrite E. cbn [bind]. destruct r as [l|]; eexists; (split; [done|]).
  - by eapply good_range_fit; [|exact H].
  - intros s (H0 & Hle & Hu). eapply H; [exact H0|done|done].
Qed.

(** With requests of at least a whole bucket the best-fit loop advances on
    every turn, so it ends. *)
Lemma best_fit_loop_ok b n fuel start brs brsz found :
  wf b -> 64 <= n <= brsz -> 0 <= start <= m_size b ->
  (Z.to_nat (m_size b - start) < fuel)%nat ->
  (found = true -> fit_at b n brs) -> (found = false -> start = 0) ->
  exists r, best_fit_loop fuel b n start brs brsz found = Some (Ok r) /\
    match r with Some s => fit_at b n s | None => forall s, ~ fit_at b n s end.
Proof.
  intros Hwf. revert start brs brsz found.
  induction fuel as [|fuel IH]; intros start brs brsz found Hn Hs Hfuel Hbest Hnone; [lia|].
  cbn [best_fit_loop].
  destruct (find_next_range_spec b start n brsz) as (r & f & E & H); [done|lia|lia|].
  rewrite E. destruct r as [l|].
  - pose proof H as (Hl & Hlb & Hup & _).
    assert (0 <= 64 * (start / 64) /\ start < 64 * (start / 64) + 64) by zdiv.
    assert (fit_at b n f) as Hfit by (eapply good_range_fit; [|exact H]; lia).
    destruct found, (l <? brsz); simpl; apply IH; done || lia.
  - destruct found; eexists; (split; [done|]); [by apply Hbest|].
    specialize (Hnone eq_refl). subst start. intros s (H0 & Hle & Hu).
    eapply H; [exact H0|done|done].
Qed.

(** ** Properties *)


Definition sample : t := mk [0xff; 0xff; 0xff; 0xff; 0xff; 0xff; 0xff; 0x0f; 0x00] 70.


(** [find_best_fit] terminates and is exact for requests of at least one
    64-bit bucket (the kernel heap only uses it for 128 chunks and more): as
    many turns as the bitmap has bits, plus one, are enough, the start it
    returns has the requested run of unset bits, and it gives up only when no
    run of that length exists. *)
Theorem find_best_fit_exact (b : t) (n : Z) (fuel : nat) :
  wf b -> 64 <= n <= max_size -> (Z.to_nat (m_size b) < fuel)%nat ->
  exists r, find_best_fit fuel b n = Some (Ok r) /\
    match r with
    | Some s => fit_at b n s
    | None => forall s, ~ fit_at b n s
    end.
Proof.
  intros Hwf Hn Hfuel. unfold find_best_fit.
  apply best_fit_loop_ok; try (done || lia). destruct Hwf as (_ & ? & _). lia.
Qed.

Definition sample_large : t := mk (replicate 24 0) 192.

Lemma find_best_fit_exact_witness :
  exists r, find_best_fit 200 sample_large 130 = Some (Ok r) /\
    match r with
    | Some s => fit_at sample_large 130 s
    | None => forall s, ~ fit_at sample_large 130 s
    end.
Proof.
  apply (find_best_fit_exact sample_large 130 200); [|unfold max_size; lia|simpl; lia].
  split; [repeat constructor; unfold is_byte; lia|].
  split; [simpl; lia|]. vm_compute. discriminate.
Defined.

(** [find_best_fit] does not terminate on short requests: for three bits in
    a ten-bit bitmap with every bit unset, no number of turns of its loop
    reaches the [break].  The trailing-bits loop of
    [find_next_range_of_unset_bits] starts at the bucket boundary and not at
    [from], so it finds the same three bits again on each turn. *)
Theorem find_best_fit_diverges (fuel : nat) :
  find_best_fit fuel (mk [0; 0] 10) 3 = None.
Proof.
  assert (forall k, best_fit_loop k (mk [0; 0] 10) 3 3 0 3 true = None) as Hloop.
  { induction k as [|k IH]; [done|]. exact IH. }
  destruct fuel as [|fuel]; [done|]. exact (Hloop fuel).
Qed.

(** [set_range] writes exactly its range: when the buffer also holds the
    byte after the range, the call succeeds, the bitmap keeps its size, every
    bit of [start, start + length) takes the value and every other bit is
    untouched. *)
Theorem set_range_exact (b : t) (start length : Z) (value : bool) :
  wf b -> 0 <= start -> 0 < length -> start + length <= m_size b ->
  (start + length) / 8 < len (m_data b) ->
  exists b', set_range b start length value = Ok b' /\ wf b' /\
    m_size b' = m_size b /\
    forall j, bit (m_data b') j =
      if (start <=? j) && (j <? start + length) then value else bit (m_data b) j.
Proof.
  intros Hwf Hs Hl Hle Hroom.
  destruct (set_range_impl_spec value false b start length)
    as (b' & E & Hwf' & Hsz & _ & Hb); [done..|].
  exists b'. unfold set_range. by destruct value.
Qed.

Lemma set_range_exact_witness :
  exists b', set_range sample 50 15 false = Ok b' /\ wf b' /\
    m_size b' = m_size sample /\
    forall j, bit (m_data b') j =
      if (50 <=? j) && (j <? 50 + 15) then false else bit (m_data sample) j.
Proof.
  apply (set_range_exact sample 50 15 false); try (vm_compute; discriminate || reflexivity).
  split; [repeat constructor; unfold is_byte; lia|].
  split; [simpl; lia|]. vm_compute. discriminate.
Defined.

(** Finding: the byte after the range is touched even when it lies outside the
    buffer: in a 16-bit bitmap whose buffer has its two bytes, setting the bits
    4..15 accesses the byte at index 2. *)
Theorem set_range_reads_past_end :
  set_range (mk [0; 0] 16) 4 12 true = Undefined.
Proof. reflexivity. Qed.

(** Finding: [set_range_and_verify_that_all_bits_flip] only verifies the first and
    the last byte of the range: a range of which eight bits in the middle are
    set already is accepted. *)
Theorem verify_flip_skips_middle_bytes :
  bit [0; 0xff; 0; 0] 8 = true /\
  set_range_and_verify_that_all_bits_flip (mk [0; 0xff; 0; 0] 25) 4 16 true =
  Ok (mk [0xf0; 0xff; 0x0f; 0] 25).
Proof. split; reflexivity. Qed.

(** Finding: [find_longest_range_of_unset_bits] can miss the longest range: of the
    ten unset bits 60..69 of a 70-bit bitmap it reports the six after the
    bucket boundary. *)
Theorem find_longest_misses_longest :
  find_longest_range_of_unset_bits 100 sample 100 = Some (Ok (Some 64, 6)) /\
  fit_at sample 10 60.
Proof.
  split; [reflexivity|]. split; [lia|]. split; [simpl; lia|].
  intros j Hj. assert (j = 60 \/ j = 61 \/ j = 62 \/ j = 63 \/ j = 64 \/ j = 65 \/
    j = 66 \/ j = 67 \/ j = 68 \/ j = 69) as H by lia.
  by destruct_or! H; subst.
Qed.

(** Finding: [find_first_unset] can return an index outside the bitmap: with the ten
    bits of a ten-bit bitmap set, the padding bits of the last byte are
    reported. *)
Theorem find_first_unset_out_of_range :
  find_first false (mk [0xff; 0x03] 10) = Some 10.
Proof. reflexivity. Qed.

End Bitmap.
