(* ===== verification/Heap.v ===== *)
(** The kernel heap of [Kernel/Heap/Heap.h]: a run of fixed-size chunks with a
    bitmap of the chunks in use; an allocation is a header followed by the
    caller's bytes. *)

From S2P Require Import Prelude BitOps Bitmap.

Module Heap.
Section Heap.

(** The template parameter.  [kmalloc.cpp] instantiates it with 64. *)
Context (CHUNK_SIZE : Z).

Definition AllocationHeaderSize : Z := 16.

(** [headers] is the part of the memory that holds the
    [allocation_size_in_chunks] words: the header address of every block that
    is allocated.  Freeing a block scrubs it, so its header goes away. *)
Record t : Type := mk {
  m_total_chunks : Z;
  m_allocated_chunks : Z;
  m_chunks : Z;
  m_bitmap : Bitmap.t;
  headers : gmap Z Z;
}.

Definition calculate_chunks (memory_size : Z) : Z := memory_size / (CHUNK_SIZE + 1).

(** The constructor: the bitmap lies behind the chunks and takes the bytes it
    finds there ([tail]). *)
Definition make (memory memory_size : Z) (tail : list Z) : outcome t :=
  let total := calculate_chunks memory_size in
  VERIFY (total * CHUNK_SIZE + (total + 7) / 8 <=? memory_size) ;;
  Ok (mk total 0 memory (Bitmap.mk tail total) ∅).

Definition calculate_memory_for_bytes (bytes : Z) : Z :=
  let needed_chunks := (AllocationHeaderSize + bytes + CHUNK_SIZE - 1) / CHUNK_SIZE in
  needed_chunks * CHUNK_SIZE + (needed_chunks + 7) / 8.

Definition free_chunks (h : t) : Z := m_total_chunks h - m_allocated_chunks h.
Definition total_bytes (h : t) : Z := m_total_chunks h * CHUNK_SIZE.
Definition free_bytes (h : t) : Z := free_chunks h * CHUNK_SIZE.
Definition allocated_bytes (h : t) : Z := m_allocated_chunks h * CHUNK_SIZE.

Definition best_fit_threshold : Z := 128.

(** The policy choice.  [find_best_fit] gets a turn per chunk and one more;
    [Undefined] stands for a loop that has not ended by then. *)
Definition find_fit (h : t) (chunks_needed chunk_alignment : Z) : outcome (option Z) :=
  if chunks_needed <? best_fit_threshold
  then Bitmap.find_first_fit (m_bitmap h) (chunks_needed + chunk_alignment)
  else match Bitmap.find_best_fit (S (Z.to_nat (m_total_chunks h))) (m_bitmap h)
               (chunks_needed + chunk_alignment) with
       | Some r => r
       | None => Undefined
       end.

(** Returns the pointer (0 is [nullptr]) and the heap. *)
Definition allocate (h : t) (size alignment : Z) : outcome (Z * t) :=
  let alignment := if alignment <? CHUNK_SIZE then CHUNK_SIZE else alignment in
  let real_size := u64 (size + AllocationHeaderSize) in
  let chunks_needed := u64 (real_size + CHUNK_SIZE - 1) / CHUNK_SIZE in
  let chunk_alignment := u64 (alignment + CHUNK_SIZE - 1) / CHUNK_SIZE in
  if free_chunks h <? chunks_needed then Ok (0, h) else
  let! first_chunk := find_fit h chunks_needed chunk_alignment in
  match first_chunk with
  | None => Ok (0, h)
  | Some first_chunk =>
    let a := m_chunks h + first_chunk * CHUNK_SIZE in
    let a := a + alignment - (a + AllocationHeaderSize) mod alignment in
    let aligned_first_chunk := (a - m_chunks h) / CHUNK_SIZE in
    VERIFY (first_chunk <=? aligned_first_chunk) ;;
    VERIFY (aligned_first_chunk + chunks_needed <=?
            first_chunk + chunks_needed + chunk_alignment) ;;
    let ptr := a + AllocationHeaderSize in
    let! bitmap := Bitmap.set_range_and_verify_that_all_bits_flip
                     (m_bitmap h) aligned_first_chunk chunks_needed true in
    VERIFY (ptr mod alignment =? 0) ;;
    Ok (ptr, mk (m_total_chunks h) (m_allocated_chunks h + chunks_needed) (m_chunks h)
               bitmap (<[a := chunks_needed]> (headers h)))
  end.

Definition deallocate (h : t) (ptr : Z) : outcome t :=
  if ptr =? 0 then Ok h else
  let a := ptr - AllocationHeaderSize in
  let heap_end := m_chunks h + m_total_chunks h * CHUNK_SIZE in
  VERIFY ((m_chunks h <=? a) && (ptr <? heap_end)) ;;
  let start := (a - m_chunks h) / CHUNK_SIZE in
  let! in_use := Bitmap.get (m_bitmap h) start in
  VERIFY in_use ;;
  match headers h !! a with
  | None => Undefined
  | Some allocation_size_in_chunks =>
    VERIFY (a + allocation_size_in_chunks * CHUNK_SIZE <=? heap_end) ;;
    let! bitmap := Bitmap.set_range_and_verify_that_all_bits_flip
                     (m_bitmap h) start allocation_size_in_chunks false in
    VERIFY (allocation_size_in_chunks <=? m_allocated_chunks h) ;;
    Ok (mk (m_total_chunks h) (m_allocated_chunks h - allocation_size_in_chunks)
           (m_chunks h) bitmap (delete a (headers h)))
  end.

Definition contains (h : t) (ptr : Z) : bool :=
  let a := ptr - AllocationHeaderSize in
  if a <? m_chunks h then false
  else if m_chunks h + m_total_chunks h * CHUNK_SIZE <=? ptr then false
  else true.

(** ** Invariant *)

(** The header of a block sits in the last 16 bytes of the block's first
    chunk, so the block's memory is its chunk range shifted by
    [CHUNK_SIZE - 16] bytes. *)
Definition header_address (h : t) (c : Z) : Z :=
  m_chunks h + c * CHUNK_SIZE + (CHUNK_SIZE - AllocationHeaderSize).

Definition chunk_of (h : t) (a : Z) : Z := (a - m_chunks h) / CHUNK_SIZE.

(** A live block: [n] chunks from [c], all marked in the bitmap, with one more
    chunk of the heap behind them. *)
Definition block_ok (h : t) (a n : Z) : Prop :=
  a = header_address h (chunk_of h a) /\ 0 <= chunk_of h a /\ 1 <= n /\
  chunk_of h a + n + 1 <= m_total_chunks h /\
  forall j, chunk_of h a <= j < chunk_of h a + n ->
    Bitmap.bit (Bitmap.m_data (m_bitmap h)) j = true.

Definition sum_chunks (m : gmap Z Z) : Z := msum (fun n => n) m.

Record inv (h : t) : Prop := {
  inv_base : m_chunks h mod CHUNK_SIZE = 0 /\ 0 < m_chunks h;
  inv_total : 1 <= m_total_chunks h /\
              m_chunks h + (m_total_chunks h + 1) * CHUNK_SIZE < 2 ^ 64;
  inv_bitmap : Bitmap.wf (m_bitmap h) /\ Bitmap.m_size (m_bitmap h) = m_total_chunks h /\
               m_total_chunks h / 8 < len (Bitmap.m_data (m_bitmap h));
  inv_blocks : forall a n, headers h !! a = Some n -> block_ok h a n;
  inv_disjoint : forall a n a' n',
    headers h !! a = Some n -> headers h !! a' = Some n' -> a <> a' ->
    chunk_of h a + n <= chunk_of h a' \/ chunk_of h a' + n' <= chunk_of h a;
  inv_covered : forall j, 0 <= j < m_total_chunks h ->
    Bitmap.bit (Bitmap.m_data (m_bitmap h)) j = true ->
    exists a n, headers h !! a = Some n /\ chunk_of h a <= j < chunk_of h a + n;
  inv_count : m_allocated_chunks h = sum_chunks (headers h);
}.

Section Proofs.
Context (HC : AllocationHeaderSize < CHUNK_SIZE <= 2 ^ 32).

Lemma find_fit_ok h N m :
  inv h -> 1 <= N -> 1 <= m ->
  exists r, find_fit h N m = Ok r /\
    match r with Some s => Bitmap.fit_at (m_bitmap h) (N + m) s | None => True end.
Proof.
  intros H HN Hm. destruct (inv_bitmap h H) as (Hwf & Hsz & _).
  unfold find_fit, best_fit_threshold. destruct (Z.ltb_spec N 128).
  - destruct (Bitmap.first_fit_ok (m_bitmap h) (N + m)) as (r & -> & Hr); [done|lia|].
    exists r. split; [done|]. by destruct r.
  - unfold Bitmap.find_best_fit.
    destruct (Z.lt_ge_cases Bitmap.max_size (N + m)) as [Hbig|Hsmall].
    + exists None. split; [|done]. cbn [Bitmap.best_fit_loop].
      unfold Bitmap.find_next_range_of_unset_bits.
      by rewrite (proj2 (Z.ltb_lt _ _) Hbig).
    + destruct (Bitmap.best_fit_loop_ok (m_bitmap h) (N + m)
                  (S (Z.to_nat (m_total_chunks h))) 0 0 Bitmap.max_size false)
        as (r & -> & Hr); try (done || lia).
      * destruct Hwf as (_ & ? & _). lia.
      * exists r. split; [done|]. by destruct r.
Qed.

(** Where the aligned block starts inside the run that was found. *)
Lemma aligned_block h A m s :
  m_chunks h mod CHUNK_SIZE = 0 -> A = m * CHUNK_SIZE -> 1 <= m -> 0 <= s ->
  let a0 := m_chunks h + s * CHUNK_SIZE in
  let a := a0 + A - (a0 + AllocationHeaderSize) mod A in
  let c := (a - m_chunks h) / CHUNK_SIZE in
  s <= c <= s + m - 1 /\ a = header_address h c /\ (a + AllocationHeaderSize) mod A = 0.
Proof.
  intros HM HA Hm Hs. cbv zeta. unfold header_address, AllocationHeaderSize in *.
  set (M := m_chunks h) in *. set (a0 := M + s * CHUNK_SIZE).
  assert (0 < A) by nia.
  pose proof (Z.mod_pos_bound (a0 + 16) A ltac:(lia)) as Hx.
  pose proof (Z.div_mod (a0 + 16) A ltac:(lia)) as Hdiv.
  set (q := (a0 + 16) / A) in *. set (x := (a0 + 16) mod A) in *.
  assert (a0 + A - x + 16 = A * (q + 1)) as Hdata by lia.
  assert (M = CHUNK_SIZE * (M / CHUNK_SIZE)) as HMd.
  { apply Z.div_exact; [lia|done]. }
  set (mq := M / CHUNK_SIZE) in *.
  set (k := m * (q + 1) - mq).
  assert (a0 + A - x - M = CHUNK_SIZE * (k - 1) + (CHUNK_SIZE - 16)) as Ha.
  { unfold k. clearbody q x a0 mq. subst A. lia. }
  assert ((a0 + A - x - M) / CHUNK_SIZE = k - 1) as ->.
  { rewrite Ha. symmetry. apply Z.div_unique with (r := CHUNK_SIZE - 16); lia. }
  assert (CHUNK_SIZE * k = s * CHUNK_SIZE + A - x + 16) as Hk by (unfold a0 in *; lia).
  split; [|split].
  - assert (s < k) by (unfold a0 in *; nia).
    assert (k < s + m + 1) by (unfold a0 in *; nia). lia.
  - lia.
  - rewrite Hdata, Z.mul_comm. apply Z.mod_mul. lia.
Qed.

Lemma chunk_of_header h c : chunk_of h (header_address h c) = c.
Proof.
  unfold chunk_of, header_address, AllocationHeaderSize in *.
  symmetry. apply Z.div_unique with (r := CHUNK_SIZE - 16); lia.
Qed.

(** The bitmap after the bits of [[c, c + n)] took the value [v]. *)
Definition bits_written (bm bm' : Bitmap.t) (c n : Z) (v : bool) : Prop :=
  Bitmap.wf bm' /\ Bitmap.m_size bm' = Bitmap.m_size bm /\
  len (Bitmap.m_data bm') = len (Bitmap.m_data bm) /\
  forall j, Bitmap.bit (Bitmap.m_data bm') j =
    if (c <=? j) && (j <? c + n) then v else Bitmap.bit (Bitmap.m_data bm) j.

Lemma set_range_verified h c n v :
  inv h -> 0 <= c -> 1 <= n -> c + n <= m_total_chunks h ->
  (forall j, c <= j < c + n -> Bitmap.bit (Bitmap.m_data (m_bitmap h)) j = negb v) ->
  exists bm', Bitmap.set_range_and_verify_that_all_bits_flip (m_bitmap h) c n v = Ok bm' /\
    bits_written (m_bitmap h) bm' c n v.
Proof.
  intros H Hc Hn Hle Hbits. destruct (inv_bitmap h H) as (Hwf & Hsz & Hroom).
  destruct (Bitmap.set_range_impl_spec v true (m_bitmap h) c n)
    as (bm' & E & Hbm'); [done|done|lia|lia| | |].
  - assert ((c + n) / 8 <= m_total_chunks h / 8) by (apply Z.div_le_mono; lia). lia.
  - intros _ j Hj _. by apply Hbits.
  - exists bm'. split; [|done]. unfold Bitmap.set_range_and_verify_that_all_bits_flip.
    by destruct v.
Qed.

Definition with_block (h : t) (bm' : Bitmap.t) (c n : Z) : t :=
  mk (m_total_chunks h) (m_allocated_chunks h + n) (m_chunks h) bm'
     (<[header_address h c := n]> (headers h)).

Lemma inv_with_block h bm' c n :
  inv h -> 0 <= c -> 1 <= n -> c + n + 1 <= m_total_chunks h ->
  (forall j, c <= j < c + n -> Bitmap.bit (Bitmap.m_data (m_bitmap h)) j = false) ->
  bits_written (m_bitmap h) bm' c n true ->
  headers h !! header_address h c = None /\
  (forall a k, headers h !! a = Some k -> c + n <= chunk_of h a \/ chunk_of h a + k <= c) /\
  inv (with_block h bm' c n).
Proof.
  intros H Hc Hn Hle Hfree (Hwf & Hsz & Hlen & Hbits).
  assert (forall a k, headers h !! a = Some k ->
            c + n <= chunk_of h a \/ chunk_of h a + k <= c) as Hdisj.
  { intros a k Ha. destruct (inv_blocks h H a k Ha) as (_ & Hc0 & Hk & _ & Hset).
    destruct (Z.lt_ge_cases (chunk_of h a) (c + n)); [|lia].
    destruct (Z.lt_ge_cases c (chunk_of h a + k)); [|lia]. exfalso.
    assert (Bitmap.bit (Bitmap.m_data (m_bitmap h)) (Z.max c (chunk_of h a)) = true)
      by (apply Hset; lia).
    rewrite Hfree in * by lia. done. }
  assert (headers h !! header_address h c = None) as Hnone.
  { destruct (headers h !! header_address h c) as [k|] eqn:E; [|done].
    destruct (inv_blocks h H _ _ E) as (_ & _ & Hk & _). apply Hdisj in E.
    rewrite chunk_of_header in E. lia. }
  split; [done|]. split; [done|].
  assert (forall a, chunk_of (with_block h bm' c n) a = chunk_of h a) as Hch by done.
  constructor; simpl.
  - apply (inv_base h H).
  - apply (inv_total h H).
  - destruct (inv_bitmap h H) as (_ & ? & ?). split; [done|]. rewrite Hsz, Hlen. done.
  - intros a k. rewrite lookup_insert. case_decide as Ea; intros E.
    + injection E as <-. subst a. unfold block_ok. rewrite Hch, chunk_of_header.
      split; [done|]. simpl. split; [lia|]. split; [lia|]. split; [lia|].
      intros j Hj. rewrite Hbits. by rewrite (proj2 (Z.leb_le _ _)), (proj2 (Z.ltb_lt _ _)) by lia.
    + destruct (inv_blocks h H a k E) as (E1 & E2 & E3 & E4 & E5).
      split; [done|]. split; [done|]. split; [done|]. split; [done|].
      intros j Hj. simpl. rewrite Hbits. destruct ((c <=? j) && (j <? c + n)); [done|].
      by apply E5.
  - intros a k a' k'. rewrite !lookup_insert, !Hch.
    case_decide as Ea; case_decide as Ea'; intros E E' Hne; try congruence.
    + injection E as <-. subst a. rewrite chunk_of_header. apply Hdisj in E'. lia.
    + injection E' as <-. subst a'. rewrite chunk_of_header. apply Hdisj in E. lia.
    + by apply (inv_disjoint h H a k a' k').
  - intros j Hj. rewrite Hbits. destruct ((c <=? j) && (j <? c + n)) eqn:Ej.
    + intros _. exists (header_address h c), n. rewrite lookup_insert_eq.
      change (chunk_of _ (header_address h c)) with (chunk_of h (header_address h c)).
      rewrite chunk_of_header. boolify. split; [done|lia].
    + intros Hb. destruct (inv_covered h H j Hj Hb) as (a & k & Ha & Hk).
      exists a, k. rewrite lookup_insert_ne; [done|]. intros <-. congruence.
  - unfold sum_chunks. rewrite msum_insert by done. rewrite (inv_count h H). unfold sum_chunks. lia.
Qed.

Definition without_block (h : t) (bm' : Bitmap.t) (a n : Z) : t :=
  mk (m_total_chunks h) (m_allocated_chunks h - n) (m_chunks h) bm' (delete a (headers h)).

Lemma inv_without_block h bm' a n :
  inv h -> headers h !! a = Some n ->
  bits_written (m_bitmap h) bm' (chunk_of h a) n false ->
  inv (without_block h bm' a n).
Proof.
  intros H Ha (Hwf & Hsz & Hlen & Hbits).
  assert (forall a', chunk_of (without_block h bm' a n) a' = chunk_of h a') as Hch by done.
  constructor; simpl.
  - apply (inv_base h H).
  - apply (inv_total h H).
  - destruct (inv_bitmap h H) as (_ & ? & ?). split; [done|]. rewrite Hsz, Hlen. done.
  - intros a' k. rewrite lookup_delete. case_decide as Ea; [done|]. intros E.
    destruct (inv_blocks h H a' k E) as (E1 & E2 & E3 & E4 & E5).
    split; [done|]. split; [done|]. split; [done|]. split; [done|].
    intros j Hj. rewrite Hch in Hj. simpl. rewrite Hbits.
    destruct ((chunk_of h a <=? j) && (j <? chunk_of h a + n)) eqn:Ej; [|by apply E5].
    boolify. destruct (inv_disjoint h H a n a' k Ha E Ea); lia.
  - intros a1 n1 a2 n2. rewrite !lookup_delete, !Hch.
    case_decide; [done|]. case_decide; [done|]. apply (inv_disjoint h H).
  - intros j Hj. rewrite Hbits.
    destruct ((chunk_of h a <=? j) && (j <? chunk_of h a + n)) eqn:Ej; [done|].
    intros Hb. destruct (inv_covered h H j Hj Hb) as (a' & k & Ha' & Hk).
    exists a', k. rewrite lookup_delete_ne; [done|]. intros ->.
    rewrite Ha' in Ha. injection Ha as ->. 
    rewrite (proj2 (Z.leb_le _ _)), (proj2 (Z.ltb_lt _ _)) in Ej by lia. done.
  - unfold sum_chunks. rewrite (msum_delete _ _ _ _ Ha), (inv_count h H). done.
Qed.

(** A request the size arithmetic does not wrap on, with an alignment that is
    either below the chunk size or a multiple of it. *)
Definition valid_request (size alignment : Z) : Prop :=
  0 <= size /\ size + AllocationHeaderSize + CHUNK_SIZE <= 2 ^ 64 /\
  1 <= alignment /\ alignment + CHUNK_SIZE <= 2 ^ 64 /\
  (alignment < CHUNK_SIZE \/ alignment mod CHUNK_SIZE = 0).

Definition blocks_of (size : Z) : Z := (size + AllocationHeaderSize + CHUNK_SIZE - 1) / CHUNK_SIZE.

Lemma blocks_of_bounds size :
  0 <= size -> 1 <= blocks_of size /\ size + AllocationHeaderSize <= blocks_of size * CHUNK_SIZE.
Proof.
  unfold blocks_of, AllocationHeaderSize in *. intros.
  pose proof (Z.div_mod (size + 16 + CHUNK_SIZE - 1) CHUNK_SIZE ltac:(lia)).
  pose proof (Z.mod_pos_bound (size + 16 + CHUNK_SIZE - 1) CHUNK_SIZE ltac:(lia)).
  nia.
Qed.

(** The three ways an allocation can end; nothing else happens. *)
Inductive allocated (h : t) (size alignment : Z) : Z -> t -> Prop :=
| alloc_null : allocated h size alignment 0 h
| alloc_block bm' c :
    0 <= c -> c + blocks_of size + 1 <= m_total_chunks h ->
    (forall j, c <= j < c + blocks_of size ->
       Bitmap.bit (Bitmap.m_data (m_bitmap h)) j = false) ->
    bits_written (m_bitmap h) bm' c (blocks_of size) true ->
    (header_address h c + AllocationHeaderSize) mod (Z.max alignment CHUNK_SIZE) = 0 ->
    allocated h size alignment (header_address h c + AllocationHeaderSize)
      (with_block h bm' c (blocks_of size)).

Lemma allocate_cases h size alignment :
  inv h -> valid_request size alignment ->
  exists ptr h', allocate h size alignment = Ok (ptr, h') /\ allocated h size alignment ptr h'.
Proof.
  intros H (Hs & Hs2 & Ha1 & Ha2 & Ha3). unfold allocate, AllocationHeaderSize in *.
  assert ((if alignment <? CHUNK_SIZE then CHUNK_SIZE else alignment) =
          Z.max alignment CHUNK_SIZE) as -> by (case_bool; lia).
  set (A := Z.max alignment CHUNK_SIZE).
  assert (A mod CHUNK_SIZE = 0) as HA.
  { unfold A. destruct (Z.max_spec alignment CHUNK_SIZE) as [[? ->]|[? ->]];
      [apply Z.mod_same; lia|]. destruct Ha3; [lia|done]. }
  assert (A = CHUNK_SIZE * (A / CHUNK_SIZE)) as HAd by (apply Z.div_exact; lia).
  unfold u64. rewrite !wrap_small by (unfold fits, A; rewrite ?wrap_small by (unfold fits; lia); lia).
  change ((size + 16 + CHUNK_SIZE - 1) / CHUNK_SIZE) with (blocks_of size).
  destruct (blocks_of_bounds size Hs) as [HN _].
  set (N := blocks_of size) in *.
  set (m := A / CHUNK_SIZE) in *.
  assert (1 <= m) as Hm by (unfold A in *; nia).
  assert ((A + CHUNK_SIZE - 1) / CHUNK_SIZE = m) as ->.
  { symmetry. apply Z.div_unique with (r := CHUNK_SIZE - 1); lia. }
  destruct (free_chunks h <? N); [do 2 eexists; split; [done|constructor]|].
  destruct (find_fit_ok h N m H HN Hm) as (r & -> & Hr). cbn [bind].
  destruct r as [first|]; [|do 2 eexists; split; [done|constructor]].
  destruct Hr as (Hf0 & Hfit & Hun).
  destruct (inv_bitmap h H) as (_ & Hsz & _). rewrite Hsz in Hfit.
  destruct (inv_base h H) as [HM HM0].
  pose proof (aligned_block h A m first HM ltac:(lia) Hm Hf0) as (Hc & Hadr & Hal).
  unfold AllocationHeaderSize in Hc, Hadr, Hal.
  set (a := m_chunks h + first * CHUNK_SIZE + A - _) in *.
  set (c := (a - m_chunks h) / CHUNK_SIZE) in *.
  rewrite (proj2 (Z.leb_le first c)) by lia.
  rewrite (proj2 (Z.leb_le (c + N) (first + N + m))) by lia.
  assert (forall j, c <= j < c + N ->
            Bitmap.bit (Bitmap.m_data (m_bitmap h)) j = false) as Hfree
    by (intros j Hj; apply Hun; lia).
  destruct (set_range_verified h c N true H) as (bm' & -> & Hbm); [lia|lia|lia|done|].
  cbn [bind]. rewrite Hal. simpl. do 2 eexists. split; [done|].
  rewrite Hadr. change 16 with AllocationHeaderSize. apply alloc_block; try (done || lia).
  unfold AllocationHeaderSize. fold A. by rewrite <- Hadr.
Qed.

Lemma allocated_inv h size alignment ptr h' :
  inv h -> 0 <= size -> allocated h size alignment ptr h' -> inv h'.
Proof.
  intros H Hs Hal. destruct Hal; [done|].
  destruct (blocks_of_bounds size Hs).
  by apply inv_with_block.
Qed.

Lemma deallocate_spec h a n :
  inv h -> headers h !! a = Some n ->
  exists bm', deallocate h (a + AllocationHeaderSize) = Ok (without_block h bm' a n) /\
    bits_written (m_bitmap h) bm' (chunk_of h a) n false /\
    inv (without_block h bm' a n).
Proof.
  intros H Ha. destruct (inv_blocks h H a n Ha) as (E1 & E2 & E3 & E4 & E5).
  destruct (inv_base h H) as [_ HM0]. destruct (inv_bitmap h H) as (Hwf & Hsz & _).
  unfold deallocate. replace (a + AllocationHeaderSize - AllocationHeaderSize) with a by lia.
  set (c := chunk_of h a) in *.
  assert (a = m_chunks h + c * CHUNK_SIZE + (CHUNK_SIZE - 16)) as Ea by exact E1.
  unfold AllocationHeaderSize in *.
  destruct (Z.eqb_spec (a + 16) 0); [nia|].
  assert (c * CHUNK_SIZE + CHUNK_SIZE + CHUNK_SIZE * n <= m_total_chunks h * CHUNK_SIZE) by nia.
  rewrite (proj2 (Z.leb_le (m_chunks h) a)) by nia.
  rewrite (proj2 (Z.ltb_lt (a + 16) _)) by nia. cbn [andb].
  change ((a - m_chunks h) / CHUNK_SIZE) with c.
  rewrite Bitmap.get_ok by (done || lia). cbn [bind]. rewrite E5 by lia. rewrite Ha.
  rewrite (proj2 (Z.leb_le (a + n * CHUNK_SIZE) _)) by lia.
  destruct (set_range_verified h c n false H) as (bm' & -> & Hbm); [lia|lia|lia| |].
  { intros j Hj. by apply E5. }
  cbn [bind]. rewrite (proj2 (Z.leb_le n (m_allocated_chunks h))).
  - exists bm'. split; [done|]. split; [done|]. by apply inv_without_block.
  - rewrite (inv_count h H). unfold sum_chunks.
    pose proof (msum_delete (fun n => n) _ _ _ Ha) as Hsum. cbv beta in Hsum.
    enough (0 <= msum (fun n => n) (delete a (headers h))) by lia.
    apply msum_nonneg. intros a' n' [_ Ha']%lookup_delete_Some.
    destruct (inv_blocks h H a' n' Ha'); lia.
Qed.

Lemma make_spec memory memory_size tail :
  memory mod CHUNK_SIZE = 0 -> 0 < memory -> CHUNK_SIZE < memory_size ->
  memory + memory_size + CHUNK_SIZE < 2 ^ 64 ->
  len tail = memory_size - calculate_chunks memory_size * CHUNK_SIZE ->
  Forall (fun b => b = 0) tail ->
  exists h, make memory memory_size tail = Ok h /\ inv h /\ headers h = ∅ /\
    m_chunks h = memory /\ m_total_chunks h = memory_size / (CHUNK_SIZE + 1).
Proof.
  intros Hal Hm Hs Hend Hlen Hz. unfold make, calculate_chunks, AllocationHeaderSize in *.
  set (total := memory_size / (CHUNK_SIZE + 1)) in *.
  pose proof (Z.div_mod memory_size (CHUNK_SIZE + 1) ltac:(lia)) as Hd.
  pose proof (Z.mod_pos_bound memory_size (CHUNK_SIZE + 1) ltac:(lia)) as Hr.
  fold total in Hd.
  assert (1 <= total) as Ht by nia.
  assert (total * CHUNK_SIZE + total <= memory_size) as Hle by lia.
  assert ((total + 7) / 8 <= total) as H8 by zdiv.
  rewrite (proj2 (Z.leb_le _ memory_size)) by lia.
  eexists. split; [done|]. split; [|done].
  assert (forall j, Bitmap.bit tail j = false) as Hbits.
  { intros j. unfold Bitmap.bit, byte_at. destruct (j / 8 <? 0); [apply Z.bits_0|].
    destruct (nth_in_or_default (Z.to_nat (j / 8)) tail 0) as [Hin| ->]; [|apply Z.bits_0].
    rewrite List.Forall_forall in Hz. rewrite (Hz _ Hin). apply Z.bits_0. }
  constructor; simpl.
  - done.
  - split; [done|]. lia.
  - split; [|split; [done|]].
    + split; [|split].
      * eapply Forall_impl; [exact Hz|]. intros x ->. unfold is_byte. lia.
      * simpl. nia.
      * unfold Bitmap.size_in_bytes. simpl. rewrite ceil_div_spec by lia.
        rewrite Hlen. replace (total + 8 - 1) with (total + 7) by lia. lia.
    + rewrite Hlen. zdiv.
  - intros a n Ha. by rewrite lookup_empty in Ha.
  - intros a n a' n' Ha. by rewrite lookup_empty in Ha.
  - intros j _ Hb. rewrite Hbits in Hb. done.
  - done.
Qed.

End Proofs.

End Heap.

(** ** Properties *)

(** C37: a fresh heap is well formed: over zeroed memory the constructor's size
    check succeeds and the heap invariant holds with no live block. *)
Theorem make_establishes_inv (CHUNK_SIZE memory memory_size : Z) (tail : list Z) :
  AllocationHeaderSize < CHUNK_SIZE <= 2 ^ 32 ->
  memory mod CHUNK_SIZE = 0 -> 0 < memory -> CHUNK_SIZE < memory_size ->
  memory + memory_size + CHUNK_SIZE < 2 ^ 64 ->
  len tail = memory_size - calculate_chunks CHUNK_SIZE memory_size * CHUNK_SIZE ->
  Forall (fun b => b = 0) tail ->
  exists h, make CHUNK_SIZE memory memory_size tail = Ok h /\ inv CHUNK_SIZE h /\
    headers h = ∅.
Proof.
  intros HC H1 H2 H3 H4 H5 H6.
  destruct (make_spec CHUNK_SIZE HC memory memory_size tail) as (h & ? & ? & ? & _); eauto.
Qed.

Lemma make_establishes_inv_witness :
  exists h, make 64 4096 1300 (replicate 20 0) = Ok h /\ inv 64 h /\ headers h = ∅.
Proof.
  apply (make_establishes_inv 64 4096 1300 (replicate 20 0));
    unfold AllocationHeaderSize; try (lia || done).
  repeat constructor.
Defined.


Definition sample : t := mk 20 0 4096 (Bitmap.mk (replicate 20 0) 20) ∅.

Lemma heap_sample_inv : inv 64 sample.
Proof.
  destruct (make_spec 64 ltac:(unfold AllocationHeaderSize; lia) 4096 1300 (replicate 20 0))
    as (h & E & H & _); try (done || lia); [repeat constructor|].
  vm_compute in E. injection E as <-. exact H.
Qed.


(** C36: freeing a live block succeeds, keeps the invariant and undoes its
    allocation: the block's header is gone, its chunks are counted free and
    unset in the bitmap, and no other bit of the bitmap changed. *)
Theorem deallocate_live (CHUNK_SIZE : Z) (h : t) (ptr n : Z) :
  AllocationHeaderSize < CHUNK_SIZE <= 2 ^ 32 ->
  inv CHUNK_SIZE h -> headers h !! (ptr - AllocationHeaderSize) = Some n ->
  exists h', deallocate CHUNK_SIZE h ptr = Ok h' /\ inv CHUNK_SIZE h' /\
    headers h' = delete (ptr - AllocationHeaderSize) (headers h) /\
    m_allocated_chunks h' = m_allocated_chunks h - n /\
    forall j, Bitmap.bit (Bitmap.m_data (m_bitmap h')) j =
      let c := chunk_of CHUNK_SIZE h (ptr - AllocationHeaderSize) in
      if (c <=? j) && (j <? c + n) then false
      else Bitmap.bit (Bitmap.m_data (m_bitmap h)) j.
Proof.
  intros HC H Ha.
  destruct (deallocate_spec CHUNK_SIZE HC h _ n H Ha) as (bm' & E & (_ & _ & _ & Hb) & Hinv).
  replace (ptr - AllocationHeaderSize + AllocationHeaderSize) with ptr in E by lia.
  eexists. split; [exact E|]. split; [exact Hinv|]. done.
Qed.

(** C38: a double free is caught: freeing a block a second time, with no
    allocation in between, fails the assertion on the block's first chunk. *)
Theorem double_free_panics (CHUNK_SIZE : Z) (h h' : t) (ptr n : Z) :
  AllocationHeaderSize < CHUNK_SIZE <= 2 ^ 32 ->
  inv CHUNK_SIZE h -> headers h !! (ptr - AllocationHeaderSize) = Some n ->
  deallocate CHUNK_SIZE h ptr = Ok h' -> deallocate CHUNK_SIZE h' ptr = Panic.
Proof.
  intros HC H Ha E.
  destruct (deallocate_spec CHUNK_SIZE HC h _ n H Ha) as (bm' & E' & Hbm & Hinv).
  replace (ptr - AllocationHeaderSize + AllocationHeaderSize) with ptr in E' by lia.
  rewrite E in E'. injection E' as ->.
  destruct (inv_blocks _ h H _ n Ha) as (Ea & Hc & Hn & Hle & _).
  destruct Hbm as (Hwf & Hsz & _ & Hb). destruct (inv_base _ h H) as [_ HM].
  destruct (inv_bitmap _ h H) as (_ & Hsz' & _).
  set (a := ptr - AllocationHeaderSize) in *. set (c := chunk_of CHUNK_SIZE h a) in *.
  unfold header_address, AllocationHeaderSize in *.
  unfold deallocate. change (ptr - AllocationHeaderSize) with a. simpl.
  destruct (Z.eqb_spec ptr 0); [nia|].
  rewrite (proj2 (Z.leb_le (m_chunks h) a)) by nia.
  rewrite (proj2 (Z.ltb_lt ptr _)) by nia. cbn [andb].
  change ((a - m_chunks h) / CHUNK_SIZE) with c.
  rewrite Bitmap.get_ok by (done || lia). cbn [bind]. rewrite Hb.
  by rewrite (proj2 (Z.leb_le c c)), (proj2 (Z.ltb_lt c (c + n))) by lia.
Qed.

(** The sample heap with one 300-byte block. *)
Definition sample_block : t :=
  match allocate 64 sample 300 16 with Ok (_, h) => h | _ => sample end.

Lemma heap_block_inv : inv 64 sample_block.
Proof.
  destruct (allocate_cases 64 ltac:(unfold AllocationHeaderSize; lia) sample 300 16 heap_sample_inv)
    as (ptr & h' & E & Hal); [unfold valid_request, AllocationHeaderSize; lia|].
  unfold sample_block. rewrite E.
  eapply (allocated_inv 64 ltac:(unfold AllocationHeaderSize; lia)); [apply heap_sample_inv| |exact Hal].
  lia.
Qed.

Lemma deallocate_live_witness :
  exists h', deallocate 64 sample_block 4160 = Ok h' /\ inv 64 h' /\
    headers h' = delete (4160 - AllocationHeaderSize) (headers sample_block) /\
    m_allocated_chunks h' = m_allocated_chunks sample_block - 5 /\
    forall j, Bitmap.bit (Bitmap.m_data (m_bitmap h')) j =
      let c := chunk_of 64 sample_block (4160 - AllocationHeaderSize) in
      if (c <=? j) && (j <? c + 5) then false
      else Bitmap.bit (Bitmap.m_data (m_bitmap sample_block)) j.
Proof.
  apply (deallocate_live 64 sample_block 4160 5).
  - unfold AllocationHeaderSize. lia.
  - apply heap_block_inv.
  - reflexivity.
Defined.

Lemma double_free_panics_witness :
  match deallocate 64 sample_block 4160 with
  | Ok h' => deallocate 64 h' 4160 = Panic
  | _ => False
  end.
Proof.
  destruct (deallocate 64 sample_block 4160) as [h'| | |] eqn:E;
    try (vm_compute in E; discriminate E).
  apply (double_free_panics 64 sample_block h' 4160 5);
    [unfold AllocationHeaderSize; lia|apply heap_block_inv|reflexivity|exact E].
Defined.

(** Finding: the size arithmetic of [allocate] is not checked.  A request of
    [2 ^ 64 - 8] bytes wraps to one chunk and is granted. *)
Lemma allocate_size_wraps :
  match allocate 64 sample (2 ^ 64 - 8) 16 with
  | Ok (ptr, h') => ptr = 4160 /\ m_allocated_chunks h' = 1
  | _ => False
  end.
Proof. vm_compute. done. Qed.

End Heap.
