(* ===== verification/PageEntries.v ===== *)
(** The physical page entries that [Kernel/Memory/MemoryManager.cpp] keeps, one
    per page of physical memory. *)

From S2P Require Import Prelude.

(** ** Page entries

    [PhysicalPageEntry] is a union: a page is either a live [PhysicalRAMPage]
    or a freelist entry.  [m_physical_page_entries] maps the pages whose
    freelist member is the active one; reading the freelist member of any
    other page is [Undefined]. *)
Module MM.

Record FreelistEntry : Type := entry { next_index : Z; prev_index : Z }.

Record t : Type := mk {
  m_physical_page_entries_count : Z;
  m_physical_page_entries : gmap Z FreelistEntry
}.

Definition physical_page_index (paddr : Z) : Z := Z.shiftr paddr 12.

Definition get_physical_page_entry (mm : t) (paddr : Z) : outcome FreelistEntry :=
  let physical_page_entry_index := physical_page_index paddr in
  VERIFY (physical_page_entry_index <? m_physical_page_entries_count mm) ;;
  match m_physical_page_entries mm !! physical_page_entry_index with
  | Some e => Ok e
  | None => Undefined
  end.

(** Stores both members of the freelist entry of a page. *)
Definition set_physical_page_entry (mm : t) (paddr : Z) (e : FreelistEntry) : outcome t :=
  let physical_page_entry_index := physical_page_index paddr in
  VERIFY (physical_page_entry_index <? m_physical_page_entries_count mm) ;;
  Ok (mk (m_physical_page_entries_count mm)
         (<[physical_page_entry_index := e]> (m_physical_page_entries mm))).

(** [PhysicalRAMPage::create]: the page's entry becomes a live page. *)
Definition create_page (mm : t) (paddr : Z) : outcome t :=
  let physical_page_entry_index := physical_page_index paddr in
  VERIFY (physical_page_entry_index <? m_physical_page_entries_count mm) ;;
  Ok (mk (m_physical_page_entries_count mm)
         (delete physical_page_entry_index (m_physical_page_entries mm))).

End MM.
