(* ===== verification/PhysicalZone.v ===== *)
(** The physical page allocator: the buddy allocator of
    [Kernel/Memory/PhysicalZone.{h,cpp}] over the page entries that
    [MemoryManager] keeps, with its intrusive doubly linked freelists. *)

From S2P Require Import Prelude BitOps Bitmap PageEntries.

Module PhysicalZone.

Definition ZONE_CHUNK_SIZE : Z := PAGE_SIZE / 2.
Definition max_order : Z := 12.

(** ** State *)

Record BuddyBucket : Type := bucket { order : Z; freelist : Z; bitmap : Bitmap.t }.

Record t : Type := mk {
  m_buckets : list BuddyBucket;
  m_base_address : Z;
  m_page_count : Z;
  m_used_chunks : Z
}.

Definition available (z : t) : Z := m_page_count z - m_used_chunks z / 2.
Definition is_empty (z : t) : bool := available z =? 0.
Definition contains (z : t) (paddr : Z) : bool :=
  (m_base_address z <=? paddr) &&
  (paddr <? u64 (m_base_address z + m_page_count z * PAGE_SIZE)).

(** ** Buckets *)

Definition buddy_bit_index (b : BuddyBucket) (index : Z) : Z :=
  u64 (Z.shiftr (Z.shiftr index 1) (1 + order b)).

Definition get_buddy_bit (b : BuddyBucket) (index : Z) : outcome bool :=
  Bitmap.get (bitmap b) (buddy_bit_index b index).

Definition set_buddy_bit (b : BuddyBucket) (index : Z) (value : bool) : outcome BuddyBucket :=
  let! bm := Bitmap.set (bitmap b) (buddy_bit_index b index) value in
  Ok (bucket (order b) (freelist b) bm).

Definition set_freelist (b : BuddyBucket) (index : Z) : BuddyBucket :=
  bucket (order b) index (bitmap b).

(** [m_buckets[order]]; the array has [max_order + 1] elements. *)
Definition get_bucket (z : t) (o : Z) : outcome BuddyBucket :=
  if o <? 0 then Undefined else
  match m_buckets z !! Z.to_nat o with
  | Some b => Ok b
  | None => Undefined
  end.

Definition put_bucket (z : t) (o : Z) (b : BuddyBucket) : t :=
  mk (<[Z.to_nat o := b]> (m_buckets z)) (m_base_address z) (m_page_count z) (m_used_chunks z).

(** ** Freelist entries *)

Definition entry_address (z : t) (index : Z) : Z :=
  u64 (m_base_address z + index * ZONE_CHUNK_SIZE).

Definition get_freelist_entry (z : t) (mm : MM.t) (index : Z) : outcome MM.FreelistEntry :=
  MM.get_physical_page_entry mm (entry_address z index).

Definition set_freelist_entry (z : t) (mm : MM.t) (index : Z) (e : MM.FreelistEntry)
    : outcome MM.t :=
  MM.set_physical_page_entry mm (entry_address z index) e.

Definition set_next_index (z : t) (mm : MM.t) (index v : Z) : outcome MM.t :=
  let! e := get_freelist_entry z mm index in
  set_freelist_entry z mm index (MM.entry v (MM.prev_index e)).

Definition set_prev_index (z : t) (mm : MM.t) (index v : Z) : outcome MM.t :=
  let! e := get_freelist_entry z mm index in
  set_freelist_entry z mm index (MM.entry (MM.next_index e) v).

Definition remove_from_freelist (z : t) (mm : MM.t) (b : BuddyBucket) (index : Z)
    : outcome (BuddyBucket * MM.t) :=
  let! freelist_entry := get_freelist_entry z mm index in
  VERIFY (-1 <=? MM.prev_index freelist_entry) ;;
  VERIFY (-1 <=? MM.next_index freelist_entry) ;;
  let! mm :=
    if negb (MM.prev_index freelist_entry =? -1)
    then set_next_index z mm (MM.prev_index freelist_entry) (MM.next_index freelist_entry)
    else Ok mm in
  let! mm :=
    if negb (MM.next_index freelist_entry =? -1)
    then set_prev_index z mm (MM.next_index freelist_entry) (MM.prev_index freelist_entry)
    else Ok mm in
  let b := if freelist b =? index then set_freelist b (MM.next_index freelist_entry) else b in
  let! mm := set_freelist_entry z mm index (MM.entry (-1) (-1)) in
  Ok (b, mm).

(** ** Construction *)

Definition block_size (o : Z) : Z := u32 (Z.shiftl 2 o).

(** The bucket of one order with its buddy bitmap, from a default-constructed
    one. *)
Definition make_bucket (chunk_count o : Z) : outcome BuddyBucket :=
  let bitmap_size_for_order := ceil_div (chunk_count / block_size o) 2 in
  let! bm := if negb (bitmap_size_for_order =? 0)
             then Bitmap.grow (Bitmap.mk [] 0) bitmap_size_for_order false
             else Ok (Bitmap.mk [] 0) in
  Ok (bucket o (-1) bm).

(** [for (int order = max_order; order >= 0; --order)] *)
Fixpoint make_buckets (n : nat) (chunk_count : Z) (buckets : list BuddyBucket)
    : outcome (list BuddyBucket) :=
  match n with
  | O => Ok buckets
  | S o =>
      let! b := make_bucket chunk_count (Z.of_nat o) in
      make_buckets o chunk_count (b :: buckets)
  end.

Fixpoint add_bundles (n : nat) (z : t) (mm : MM.t) (b : BuddyBucket) (size i offset : Z)
    : outcome (BuddyBucket * MM.t) :=
  match n with
  | O => Ok (b, mm)
  | S n =>
      let index := i16 (offset + i) in
      let! b := set_buddy_bit b index true in
      let! mm := set_freelist_entry z mm index (MM.entry (freelist b) (-1)) in
      add_bundles n z mm (set_freelist b index) size (i + 1) (offset + size)
  end.

Definition make (mm : MM.t) (base_address page_count : Z) : outcome (t * MM.t) :=
  let chunk_count := page_count * 2 in
  let! buckets := make_buckets 13 chunk_count [] in
  let z := mk buckets base_address page_count 0 in
  let first_order := count_trailing_zeroes 64 page_count in
  let size := block_size first_order in
  let! b := get_bucket z first_order in
  let initial_bundle_count := chunk_count / size in
  let! (b, mm) := add_bundles (Z.to_nat initial_bundle_count) z mm b size 0 0 in
  Ok (put_bucket z first_order b, mm).

(** ** Allocation *)

(** Each level of the recursion raises the order by one and stops above
    [max_order], so 14 levels are enough. *)
Fixpoint allocate_block_impl (fuel : nat) (z : t) (mm : MM.t) (o : Z)
    : outcome (option Z * t * MM.t) :=
  match fuel with
  | O => Undefined
  | S fuel =>
    if max_order <? o then Ok (None, z, mm) else
    let! b := get_bucket z o in
    if freelist b =? -1 then
      let! (buddies, z, mm) := allocate_block_impl fuel z mm (o + 1) in
      match buddies with
      | None => Ok (None, z, mm)
      | Some index =>
        let! mm := set_freelist_entry z mm index (MM.entry (-1) (-1)) in
        let! b := get_bucket z o in
        let b := set_freelist b index in
        let! bit := get_buddy_bit b index in
        VERIFY (negb bit) ;;
        let! b := set_buddy_bit b index true in
        Ok (Some (i16 (index + block_size o)), put_bucket z o b, mm)
      end
    else
      let index := freelist b in
      let! e := get_freelist_entry z mm index in
      let b := set_freelist b (MM.next_index e) in
      let! mm := if negb (freelist b =? -1) then set_prev_index z mm (freelist b) (-1)
                 else Ok mm in
      let! bit := get_buddy_bit b index in
      VERIFY bit ;;
      let! b := set_buddy_bit b index false in
      Ok (Some index, put_bucket z o b, mm)
  end.

Definition add_used (z : t) (n : Z) : t :=
  mk (m_buckets z) (m_base_address z) (m_page_count z) (u64 (m_used_chunks z + n)).

Definition allocate_block (z : t) (mm : MM.t) (o : Z) : outcome (option Z * t * MM.t) :=
  if 32 <=? o then Undefined else
  let size := block_size o in
  let! (result, z, mm) := allocate_block_impl 14 z mm o in
  match result with
  | None => Ok (None, z, mm)
  | Some index =>
      let z := add_used z size in
      VERIFY (Z.land index 1 =? 0) ;;
      Ok (Some (u64 (m_base_address z + index * ZONE_CHUNK_SIZE)), z, mm)
  end.

(** ** Deallocation *)

Fixpoint deallocate_block_impl (fuel : nat) (z : t) (mm : MM.t) (index o : Z)
    : outcome (t * MM.t) :=
  match fuel with
  | O => Undefined
  | S fuel =>
    let! b := get_bucket z o in
    let! bit := get_buddy_bit b index in
    if bit then
      let buddy_base_index :=
        i16 (u64 (Z.shiftl (Z.shiftl (buddy_bit_index b index) 1) (1 + o))) in
      let! (b, mm) :=
        if index =? buddy_base_index
        then remove_from_freelist z mm b (i16 (buddy_base_index + block_size o))
        else remove_from_freelist z mm b buddy_base_index in
      let! b := set_buddy_bit b index false in
      deallocate_block_impl fuel (put_bucket z o b) mm buddy_base_index (o + 1)
    else
      let! mm := if negb (freelist b =? -1) then set_prev_index z mm (freelist b) index
                 else Ok mm in
      let! mm := set_freelist_entry z mm index (MM.entry (freelist b) (-1)) in
      let b := set_freelist b index in
      let! b := set_buddy_bit b index true in
      Ok (put_bucket z o b, mm)
  end.

Definition deallocate_block (z : t) (mm : MM.t) (address o : Z) : outcome (t * MM.t) :=
  if 32 <=? o then Undefined else
  let index := i16 (u64 (address - m_base_address z) / ZONE_CHUNK_SIZE) in
  let! (z, mm) := deallocate_block_impl 14 z mm index o in
  Ok (add_used z (- block_size o), mm).

(** ** Freelists as chains

    [chain g p c l]: from the index [c] the entries that [g] returns link the
    elements of [l] in both directions, and [p] precedes the first one. *)
Fixpoint chain (g : Z -> option MM.FreelistEntry) (p c : Z) (l : list Z) : Prop :=
  match l with
  | [] => c = -1
  | x :: l => c = x /\ exists n, g x = Some (MM.entry n p) /\ chain g x n l
  end.

Lemma chain_ext g g' p c l :
  (forall x, x ∈ l -> g' x = g x) -> chain g p c l -> chain g' p c l.
Proof.
  revert p c. induction l as [|x l IH]; intros p c Hg; simpl; [done|].
  intros (-> & n & Hx & Hl). split; [done|]. exists n. rewrite Hg by set_solver.
  split; [done|]. apply IH; [|done]. set_solver.
Qed.

(** A chain whose first element gets another predecessor. *)
Lemma chain_reprev g g' p p' c l :
  NoDup l -> (forall x, x ∈ l -> x <> c -> g' x = g x) ->
  (forall n, c ∈ l -> g c = Some (MM.entry n p) -> g' c = Some (MM.entry n p')) ->
  chain g p c l -> chain g' p' c l.
Proof.
  destruct l as [|x l]; simpl; [done|]. intros [Hx _]%NoDup_cons Hg Hc (-> & n & Hn & Hl).
  split; [done|]. exists n. split; [apply Hc; [by left|done]|].
  eapply chain_ext; [|done]. intros y Hy. apply Hg; [by right|congruence].
Qed.

Lemma chain_head_none g p c l :
  (forall x, x ∈ l -> 0 <= x) -> chain g p c l -> c = -1 -> l = [].
Proof.
  destruct l as [|x l]; [done|]. intros Hx [-> _] ->.
  assert (0 <= -1) by (apply Hx; by left). lia.
Qed.

(** The neighbours of an element in the middle of a chain. *)
Lemma chain_middle g p c l1 x l2 :
  chain g p c (l1 ++ x :: l2) ->
  exists e, g x = Some e /\
    (l1 = [] /\ MM.prev_index e = p \/ MM.prev_index e ∈ l1) /\
    (l2 = [] /\ MM.next_index e = -1 \/ MM.next_index e ∈ l2).
Proof.
  revert p c. induction l1 as [|y l1 IH]; intros p c; simpl.
  - intros (-> & n & Hx & Hl). exists (MM.entry n p). split; [done|]. split; [by left|].
    destruct l2 as [|z l2]; [by left|]. destruct Hl as [-> _]. right. by left.
  - intros (-> & n & Hy & Hl). destruct (IH _ _ Hl) as (e & He & Hp & Hn).
    exists e. split; [done|]. split; [|done]. right.
    destruct Hp as [[_ ->]|]; [by left|by right].
Qed.

Lemma chain_lookup g p c l x : chain g p c l -> x ∈ l -> is_Some (g x).
Proof.
  intros H (l1 & l2 & ->)%list_elem_of_split.
  destruct (chain_middle _ _ _ _ _ _ H) as (e & He & _). eauto.
Qed.

(** Unlinking [x]: its neighbours are redirected around it. *)
Lemma chain_remove g g' p c l1 x l2 e :
  NoDup (l1 ++ x :: l2) -> p ∉ l1 ++ x :: l2 -> (forall y, y ∈ l1 ++ x :: l2 -> 0 <= y) ->
  chain g p c (l1 ++ x :: l2) -> g x = Some e ->
  (forall y n q, y ∈ l1 ++ l2 -> g y = Some (MM.entry n q) ->
     g' y = Some (MM.entry (if y =? MM.prev_index e then MM.next_index e else n)
                           (if y =? MM.next_index e then MM.prev_index e else q))) ->
  chain g' p (if c =? x then MM.next_index e else c) (l1 ++ l2).
Proof.
  revert p c. induction l1 as [|y l1 IH]; intros p c; simpl.
  - intros [Hx Hnd]%NoDup_cons Hp Hpos (-> & n & Hg & Hl) He Hg'.
    rewrite Z.eqb_refl. rewrite He in Hg. injection Hg as ->. simpl in *.
    apply not_elem_of_cons in Hp as [_ Hp].
    eapply chain_reprev; [done| | |done].
    + intros z Hz Hzn. destruct (chain_lookup _ _ _ _ z Hl Hz) as ([m q] & Hz').
      rewrite (Hg' z m q Hz Hz'), Hz'.
      destruct (Z.eqb_spec z p) as [->|]; [done|]. by destruct (Z.eqb_spec z n).
    + intros m Hin Hm. rewrite (Hg' n m x Hin Hm), Z.eqb_refl.
      by destruct (Z.eqb_spec n p) as [->|].
  - intros [Hy Hnd]%NoDup_cons Hp Hpos (-> & n & Hg & Hl) He Hg'.
    destruct (Z.eqb_spec y x) as [->|Hyx]; [set_solver|].
    split; [done|]. exists (if n =? x then MM.next_index e else n). split.
    + rewrite (Hg' y n p); [|by left|done].
      destruct (chain_middle _ _ _ _ _ _ Hl) as (e' & He' & Hprev & Hnext).
      rewrite He in He'. injection He' as <-.
      assert (y <> MM.next_index e) as Hn.
      { intros ->. assert (0 <= MM.next_index e) by (apply Hpos; by left).
        destruct Hnext as [[_ ?]|?]; [lia|set_solver]. }
      destruct (Z.eqb_spec y (MM.next_index e)) as [|_]; [done|].
      destruct l1 as [|w l1].
      * destruct Hl as [-> _]. rewrite Z.eqb_refl.
        destruct Hprev as [[_ ->]|Hin]; [by rewrite Z.eqb_refl|set_solver].
      * destruct Hl as [-> _]. destruct Hprev as [[? _]|Hin]; [done|].
        destruct (Z.eqb_spec y (MM.prev_index e)) as [->|_]; [set_solver|].
        destruct (Z.eqb_spec w x) as [->|_]; [|done].
        exfalso. apply NoDup_cons in Hnd as [Hnd _]. set_solver.
    + apply IH; [done|done| |done|done|].
      * intros z Hz. apply Hpos. by right.
      * intros z m q Hz. apply Hg'. by right.
Qed.

(** ** Blocks

    An order-[o] block has [2 ^ (o + 1)] chunks and starts at a multiple of its
    size.  The zone has [2 ^ (top + 1)] chunks. *)
Definition bsz (o : Z) : Z := 2 ^ (o + 1).

Definition blk (top o i : Z) : Prop :=
  0 <= o <= top /\ 0 <= i /\ i mod bsz o = 0 /\ i + bsz o <= bsz top.

(** The first chunk of the buddy pair an index belongs to. *)
Definition pair_base (o i : Z) : Z := i / (2 * bsz o) * (2 * bsz o).

Lemma bsz_pos o : 0 <= o -> 2 <= bsz o.
Proof. intros. unfold bsz. rewrite Z.pow_add_r by lia. pose proof (Z.pow_pos_nonneg 2 o). lia. Qed.

Lemma bsz_succ o : 0 <= o -> bsz (o + 1) = 2 * bsz o.
Proof. intros. unfold bsz. rewrite (Z.pow_add_r 2 (o + 1) 1) by lia. lia. Qed.

Lemma bsz_add o k : 0 <= o -> 0 <= k -> bsz (o + k) = 2 ^ k * bsz o.
Proof.
  intros. unfold bsz. rewrite <- Z.pow_add_r by lia. f_equal. lia.
Qed.

Lemma bsz_divide o o' : 0 <= o <= o' -> (bsz o | bsz o').
Proof.
  intros. exists (2 ^ (o' - o)). replace o' with (o + (o' - o)) at 1 by lia.
  apply bsz_add; lia.
Qed.

Lemma bsz_top o : 0 <= o <= 12 -> bsz o <= 8192.
Proof. intros. unfold bsz. apply (Z.pow_le_mono_r 2 (o + 1) 13); lia. Qed.

Lemma block_size_bsz o : 0 <= o <= 12 -> block_size o = bsz o.
Proof.
  intros. unfold block_size, u32. rewrite Z.shiftl_mul_pow2 by lia.
  pose proof (bsz_top o ltac:(lia)). pose proof (bsz_pos o ltac:(lia)).
  replace (2 * 2 ^ o) with (bsz o) by (unfold bsz; rewrite Z.pow_add_r; lia).
  apply wrap_small. unfold fits. lia.
Qed.

Lemma blk_bounds top o i : 0 <= top <= 12 -> blk top o i -> 0 <= i < 8192 /\ i mod 2 = 0.
Proof.
  intros Ht (Ho & Hi & Hm & Hle). pose proof (bsz_top top ltac:(lia)).
  pose proof (bsz_pos o ltac:(lia)). split; [lia|].
  apply Z.mod_divide in Hm as [k ->]; [|lia].
  unfold bsz. rewrite Z.pow_add_r by lia. rewrite Z.mul_assoc. apply Z.mod_mul. lia.
Qed.

Lemma pair_cases o i :
  0 <= o -> i mod bsz o = 0 -> i = pair_base o i \/ i = pair_base o i + bsz o.
Proof.
  intros Ho Hm. unfold pair_base. pose proof (bsz_pos o Ho).
  pose proof (Z.div_mod i (2 * bsz o) ltac:(lia)) as Hd.
  pose proof (Z.mod_pos_bound i (2 * bsz o) ltac:(lia)) as Hb.
  apply Z.mod_divide in Hm as [k ->]; [|lia].
  set (q := k * bsz o / (2 * bsz o)) in *. set (r := (k * bsz o) mod (2 * bsz o)) in *.
  assert (r = (k - 2 * q) * bsz o) as Hr by lia.
  assert (k - 2 * q = 0 \/ k - 2 * q = 1) as [E|E] by nia; rewrite E in Hr; lia.
Qed.

Lemma pair_base_ext o i j : pair_base o i = pair_base o j -> 0 <= o ->
  i / (2 * bsz o) = j / (2 * bsz o).
Proof. unfold pair_base. intros H Ho. pose proof (bsz_pos o Ho). nia. Qed.

Lemma pair_base_of_base o q : 0 <= o -> pair_base o (q * (2 * bsz o)) = q * (2 * bsz o).
Proof. intros. unfold pair_base. pose proof (bsz_pos o). rewrite Z.div_mul by lia. done. Qed.

Lemma pair_base_of_second o q :
  0 <= o -> pair_base o (q * (2 * bsz o) + bsz o) = q * (2 * bsz o).
Proof.
  intros. unfold pair_base. pose proof (bsz_pos o).
  rewrite Z.div_add_l by lia. rewrite (Z.div_small (bsz o)) by lia. lia.
Qed.

(** The merged pair is a block of the next order. *)
Lemma blk_pair top o i : blk top o i -> o < top -> blk top (o + 1) (pair_base o i).
Proof.
  intros (Ho & Hi & Hm & Hle) Hlt. pose proof (bsz_pos o ltac:(lia)).
  unfold blk. rewrite bsz_succ by lia. unfold pair_base.
  assert (0 <= i / (2 * bsz o)) by (apply Z.div_pos; lia).
  split; [lia|]. split; [nia|]. split; [apply Z.mod_mul; lia|].
  destruct (bsz_divide (o + 1) top ltac:(lia)) as [k Hk]. rewrite bsz_succ in Hk by lia.
  pose proof (Z.mul_div_le i (2 * bsz o) ltac:(lia)).
  rewrite Hk in *. set (q := i / (2 * bsz o)) in *.
  assert (q < k) by nia. nia.
Qed.

Lemma blk_halves top o i :
  0 <= o -> blk top (o + 1) i ->
  blk top o i /\ blk top o (i + bsz o) /\ pair_base o i = i /\ pair_base o (i + bsz o) = i.
Proof.
  intros Ho (Ho' & Hi & Hm & Hle). pose proof (bsz_pos o ltac:(lia)).
  rewrite bsz_succ in Hm, Hle by lia. apply Z.mod_divide in Hm as [q ->]; [|lia].
  rewrite pair_base_of_base, pair_base_of_second by lia. unfold blk.
  repeat split; try lia.
  - replace (q * (2 * bsz o)) with (2 * q * bsz o) by lia. apply Z.mod_mul. lia.
  - replace (q * (2 * bsz o) + bsz o) with ((2 * q + 1) * bsz o) by lia. apply Z.mod_mul. lia.
Qed.

(** ** Entries of a zone's pages *)

Definition page (z : t) (i : Z) : Z := m_base_address z / PAGE_SIZE + i / 2.
Definition lk (z : t) (mm : MM.t) (i : Z) : option MM.FreelistEntry :=
  MM.m_physical_page_entries mm !! page z i.
Definition upd (z : t) (mm : MM.t) (i : Z) (e : MM.FreelistEntry) : MM.t :=
  MM.mk (MM.m_physical_page_entries_count mm)
        (<[page z i := e]> (MM.m_physical_page_entries mm)).

(** Where the zone lies: page aligned, inside the address space and inside the
    page entry array. *)
Record geometry (top : Z) (z : t) (mm : MM.t) : Prop := {
  g_top : 0 <= top <= 12;
  g_pages : m_page_count z = 2 ^ top;
  g_base : 0 <= m_base_address z /\ m_base_address z mod PAGE_SIZE = 0;
  g_limit : m_base_address z + m_page_count z * PAGE_SIZE < 2 ^ 64;
  g_entries : m_base_address z / PAGE_SIZE + m_page_count z <= MM.m_physical_page_entries_count mm;
}.

(** An index of the zone that can carry a freelist entry. *)
Definition slot (z : t) (i : Z) : Prop := 0 <= i < 2 * m_page_count z /\ i mod 2 = 0.

Lemma pages_bsz top z mm : geometry top z mm -> 2 * m_page_count z = bsz top.
Proof. intros H. rewrite (g_pages _ _ _ H). unfold bsz. pose proof (g_top _ _ _ H). rewrite Z.pow_add_r; lia. Qed.

Lemma blk_slot top z mm o i : geometry top z mm -> blk top o i -> slot z i.
Proof.
  intros H Hb. destruct (blk_bounds top o i (g_top _ _ _ H) Hb) as [_ ?].
  destruct Hb as (Ho & Hi & _ & Hle). pose proof (bsz_pos o ltac:(lia)).
  split; [|done]. rewrite (pages_bsz _ _ _ H). lia.
Qed.

Lemma entry_index top z mm i :
  geometry top z mm -> slot z i ->
  MM.physical_page_index (entry_address z i) = page z i /\
  page z i < MM.m_physical_page_entries_count mm.
Proof.
  intros H [Hi He]. destruct (g_base _ _ _ H) as [Hb Hm].
  pose proof (g_limit _ _ _ H). pose proof (g_entries _ _ _ H).
  unfold MM.physical_page_index, entry_address, page, u64, ZONE_CHUNK_SIZE, PAGE_SIZE in *.
  change (4096 / 2) with 2048. rewrite wrap_small by (unfold fits; lia).
  rewrite Z.shiftr_div_pow2 by lia. change (2 ^ 12) with 4096. split; zdiv.
Qed.

Lemma get_entry_ok top z mm i e :
  geometry top z mm -> slot z i -> lk z mm i = Some e -> get_freelist_entry z mm i = Ok e.
Proof.
  intros H Hs Hl. destruct (entry_index _ _ _ _ H Hs) as [E Hlt].
  unfold get_freelist_entry, MM.get_physical_page_entry. rewrite E.
  rewrite (proj2 (Z.ltb_lt _ _) Hlt). unfold lk in Hl. by rewrite Hl.
Qed.

Lemma set_entry_ok top z mm i e :
  geometry top z mm -> slot z i -> set_freelist_entry z mm i e = Ok (upd z mm i e).
Proof.
  intros H Hs. destruct (entry_index _ _ _ _ H Hs) as [E Hlt].
  unfold set_freelist_entry, MM.set_physical_page_entry. rewrite E.
  by rewrite (proj2 (Z.ltb_lt _ _) Hlt).
Qed.

Lemma lk_upd z mm i j e :
  i mod 2 = 0 -> j mod 2 = 0 ->
  lk z (upd z mm i e) j = if j =? i then Some e else lk z mm j.
Proof.
  intros Hi Hj. unfold lk, upd. simpl. rewrite lookup_insert.
  destruct (Z.eqb_spec j i) as [->|Hne].
  - by rewrite decide_True.
  - rewrite decide_False; [done|]. unfold page. zdiv.
Qed.

Lemma geometry_upd top z mm i e : geometry top z mm -> geometry top z (upd z mm i e).
Proof. intros []. by constructor. Qed.

(** Two states of the page entries that agree outside the zone's pages. *)
Definition same_outside (z : t) (mm mm' : MM.t) : Prop :=
  MM.m_physical_page_entries_count mm' = MM.m_physical_page_entries_count mm /\
  forall k, (k < page z 0 \/ page z 0 + m_page_count z <= k) ->
    MM.m_physical_page_entries mm' !! k = MM.m_physical_page_entries mm !! k.

Lemma same_outside_refl z mm : same_outside z mm mm.
Proof. done. Qed.

Lemma same_outside_trans z mm1 mm2 mm3 :
  same_outside z mm1 mm2 -> same_outside z mm2 mm3 -> same_outside z mm1 mm3.
Proof. intros [E1 H1] [E2 H2]. split; [congruence|]. intros k Hk. rewrite H2, H1; done. Qed.

Lemma same_outside_upd z mm i e : slot z i -> same_outside z mm (upd z mm i e).
Proof.
  intros [Hi _]. split; [done|]. intros k Hk. unfold upd. simpl.
  apply lookup_insert_ne. unfold page in *. zdiv.
Qed.

Lemma geometry_outside top z mm mm' :
  same_outside z mm mm' -> geometry top z mm -> geometry top z mm'.
Proof. intros [E _] []. constructor; try done. by rewrite E. Qed.

(** ** The invariant

    [free] maps the first chunk of every free block to its order: the ghost
    state that the freelists and the buddy bitmaps represent. *)
Definition is_free (free : gmap Z Z) (o i : Z) : bool := bool_decide (free !! i = Some o).

(** One bit per pair: set when exactly one of the two buddies is free (both
    free never happens, they would have been merged). *)
Definition bits_ok (top : Z) (free : gmap Z Z) (o : Z) (bm : Bitmap.t) : Prop :=
  forall i, blk top o i ->
    i / (2 * bsz o) < Bitmap.m_size bm /\
    Bitmap.bit (Bitmap.m_data bm) (i / (2 * bsz o)) =
      is_free free o (pair_base o i) || is_free free o (pair_base o i + bsz o).

Definition bucket_ok (top : Z) (z : t) (mm : MM.t) (free : gmap Z Z) (o : Z) : Prop :=
  exists c bm l,
    m_buckets z !! Z.to_nat o = Some (bucket o c bm) /\
    chain (lk z mm) (-1) c l /\ NoDup l /\
    (forall i, i ∈ l <-> free !! i = Some o) /\
    Bitmap.wf bm /\ bits_ok top free o bm.

Definition disjoint_blocks (free : gmap Z Z) : Prop :=
  forall i o j o', free !! i = Some o -> free !! j = Some o' -> i <> j ->
    i + bsz o <= j \/ j + bsz o' <= i.

Definition no_buddies (free : gmap Z Z) : Prop :=
  forall i o, free !! pair_base o i = Some o -> free !! (pair_base o i + bsz o) = Some o -> False.

Record core (top : Z) (z : t) (mm : MM.t) (free : gmap Z Z) : Prop := {
  c_geo : geometry top z mm;
  c_blk : forall i o, free !! i = Some o -> blk top o i;
  c_disj : disjoint_blocks free;
  c_pairs : no_buddies free;
  c_buckets : forall o, 0 <= o <= 12 -> bucket_ok top z mm free o;
}.

(** A block of the zone that no free block overlaps: one the allocator has
    handed out. *)
Definition hole (top : Z) (free : gmap Z Z) (o x : Z) : Prop :=
  blk top o x /\
  forall i o', free !! i = Some o' -> i + bsz o' <= x \/ x + bsz o <= i.

Lemma is_free_true free o i : is_free free o i = true <-> free !! i = Some o.
Proof. unfold is_free. apply bool_decide_eq_true. Qed.

Lemma is_free_ext free free' o i :
  (free' !! i = Some o <-> free !! i = Some o) -> is_free free' o i = is_free free o i.
Proof. intros H. by apply bool_decide_ext. Qed.

Lemma pair_base_idem o i : 0 <= o -> pair_base o (pair_base o i) = pair_base o i.
Proof. intros. unfold pair_base at 2 3. by apply pair_base_of_base. Qed.

Lemma pair_base_second o i : 0 <= o -> pair_base o (pair_base o i + bsz o) = pair_base o i.
Proof. intros. unfold pair_base at 2 3. by apply pair_base_of_second. Qed.

Lemma bit_index_ok top o c bm x :
  0 <= top <= 12 -> blk top o x -> buddy_bit_index (bucket o c bm) x = x / (2 * bsz o).
Proof.
  intros Ht Hb. destruct (blk_bounds _ _ _ Ht Hb) as [Hx _]. destruct Hb as (Ho & _).
  unfold buddy_bit_index, u64. simpl. rewrite !Z.shiftr_div_pow2 by lia.
  pose proof (bsz_pos o ltac:(lia)).
  rewrite Z.div_div by (try lia; apply Z.pow_pos_nonneg; lia).
  replace (2 ^ 1 * 2 ^ (1 + o)) with (2 * bsz o) by (unfold bsz; rewrite (Z.add_comm o); lia).
  apply wrap_small. unfold fits. split; [apply Z.div_pos; lia|].
  apply Z.div_lt_upper_bound; nia.
Qed.

Lemma bit_get top free o c bm x :
  0 <= top <= 12 -> Bitmap.wf bm -> bits_ok top free o bm -> blk top o x ->
  get_buddy_bit (bucket o c bm) x =
    Ok (is_free free o (pair_base o x) || is_free free o (pair_base o x + bsz o)).
Proof.
  intros Ht Hwf Hbits Hb. destruct (Hbits x Hb) as [Hlt Hbit].
  unfold get_buddy_bit. rewrite (bit_index_ok top) by done. simpl.
  destruct Hb as (Ho & Hx & _). pose proof (bsz_pos o ltac:(lia)).
  rewrite Bitmap.get_ok; [by rewrite Hbit|done|]. split; [apply Z.div_pos; lia|done].
Qed.

Lemma bit_set top free free' o bm x v :
  0 <= top <= 12 -> Bitmap.wf bm -> bits_ok top free o bm -> blk top o x ->
  (forall y, pair_base o y <> pair_base o x -> is_free free' o y = is_free free o y) ->
  v = is_free free' o (pair_base o x) || is_free free' o (pair_base o x + bsz o) ->
  exists bm', (forall c, set_buddy_bit (bucket o c bm) x v = Ok (bucket o c bm')) /\
    Bitmap.wf bm' /\ bits_ok top free' o bm'.
Proof.
  intros Ht Hwf Hbits Hb Hsame Hv. destruct (Hbits x Hb) as [Hlt _].
  pose proof Hb as (Ho & Hx & _). pose proof (bsz_pos o ltac:(lia)).
  destruct (Bitmap.set_ok bm (x / (2 * bsz o)) v) as (bm' & E & Hwf' & Hsz & Hbit);
    [done|split; [apply Z.div_pos; lia|done]|].
  exists bm'. split; [|split; [done|]].
  - intros c. unfold set_buddy_bit. rewrite (bit_index_ok top) by done. simpl. by rewrite E.
  - intros i Hi. destruct (Hbits i Hi) as [Hlt' Hbit']. rewrite Hsz, Hbit. split; [done|].
    destruct (Z.eqb_spec (i / (2 * bsz o)) (x / (2 * bsz o))) as [E'|Hne].
    + unfold pair_base. rewrite E'. exact Hv.
    + assert (pair_base o i <> pair_base o x) as Hne'
        by (intros E'; apply Hne, pair_base_ext; [done|lia]).
      rewrite !Hsame; [done| |]; rewrite ?pair_base_second, ?pair_base_idem by lia; done.
Qed.

Lemma bucket_ok_frame top z mm free z' mm' free' o :
  m_buckets z' !! Z.to_nat o = m_buckets z !! Z.to_nat o ->
  (forall y, free !! y = Some o -> lk z' mm' y = lk z mm y) ->
  (forall y, free' !! y = Some o <-> free !! y = Some o) ->
  bucket_ok top z mm free o -> bucket_ok top z' mm' free' o.
Proof.
  intros Hb Hlk Hfree (c & bm & l & E & Hch & Hnd & Hl & Hwf & Hbits).
  exists c, bm, l. rewrite Hb. split; [done|]. split.
  { eapply chain_ext; [|done]. intros y Hy. by apply Hlk, Hl. }
  split; [done|]. split; [intros i; by rewrite Hfree|]. split; [done|].
  intros i Hi. destruct (Hbits i Hi) as [? ->]. split; [done|].
  by rewrite !(is_free_ext free free') by done.
Qed.

Lemma core_update top z mm free o b' mm' free' :
  core top z mm free -> 0 <= o <= 12 -> same_outside z mm mm' ->
  (forall y o', o' <> o -> free' !! y = Some o' <-> free !! y = Some o') ->
  (forall y o', o' <> o -> free !! y = Some o' -> lk z mm' y = lk z mm y) ->
  (forall i, free' !! i = Some o -> blk top o i) ->
  disjoint_blocks free' ->
  (forall i, free' !! pair_base o i = Some o -> free' !! (pair_base o i + bsz o) = Some o -> False) ->
  bucket_ok top (put_bucket z o b') mm' free' o ->
  core top (put_bucket z o b') mm' free'.
Proof.
  intros H Ho Hout Hfree Hlk Hblk Hdisj Hpairs Hbucket. constructor.
  - pose proof (geometry_outside _ _ _ _ Hout (c_geo _ _ _ _ H)) as []. by constructor.
  - intros i o' Hi. destruct (Z.eq_dec o' o) as [->|Hne]; [by apply Hblk|].
    eapply (c_blk _ _ _ _ H). by apply Hfree.
  - done.
  - intros i o' H1 H2. destruct (Z.eq_dec o' o) as [->|Hne]; [by eapply Hpairs|].
    eapply (c_pairs _ _ _ _ H); apply Hfree; eauto.
  - intros o' Ho'. destruct (Z.eq_dec o' o) as [->|Hne]; [done|].
    eapply bucket_ok_frame; [| | |apply (c_buckets _ _ _ _ H o' Ho')].
    + simpl. apply list_lookup_insert_ne. lia.
    + intros y Hy. by apply (Hlk y o').
    + intros y. by apply Hfree.
Qed.

(** ** One level of the buddy tree *)

Lemma put_bucket_lookup z o b x :
  m_buckets z !! Z.to_nat o = Some x -> m_buckets (put_bucket z o b) !! Z.to_nat o = Some b.
Proof.
  intros E. simpl. apply list_lookup_insert_eq. by eapply lookup_lt_Some.
Qed.

Lemma set_prev_ok top z mm i v e :
  geometry top z mm -> slot z i -> lk z mm i = Some e ->
  set_prev_index z mm i v = Ok (upd z mm i (MM.entry (MM.next_index e) v)).
Proof.
  intros Hg Hs He. unfold set_prev_index. rewrite (get_entry_ok top z mm i e) by done.
  cbn [bind]. by eapply set_entry_ok.
Qed.

Lemma set_next_ok top z mm i v e :
  geometry top z mm -> slot z i -> lk z mm i = Some e ->
  set_next_index z mm i v = Ok (upd z mm i (MM.entry v (MM.prev_index e))).
Proof.
  intros Hg Hs He. unfold set_next_index. rewrite (get_entry_ok top z mm i e) by done.
  cbn [bind]. by eapply set_entry_ok.
Qed.

Lemma core_slot top z mm free i o : core top z mm free -> free !! i = Some o -> slot z i.
Proof.
  intros H Hi. eapply blk_slot; [apply (c_geo _ _ _ _ H)|]. by apply (c_blk _ _ _ _ H).
Qed.

(** Writing the entry of a free block of order [o] leaves the entries of the
    other orders' blocks alone. *)
Lemma lk_upd_other top z mm free i o e y o' :
  core top z mm free -> slot z i -> (forall o'', free !! i = Some o'' -> o'' = o) ->
  o' <> o -> free !! y = Some o' -> lk z (upd z mm i e) y = lk z mm y.
Proof.
  intros H Hi Hio Hne Hy. rewrite lk_upd.
  - destruct (Z.eqb_spec y i) as [->|]; [|done]. by apply Hio in Hy.
  - apply Hi.
  - apply (core_slot _ _ _ _ _ _ H Hy).
Qed.

(** The second element of a freelist becomes its head. *)
Lemma pop_ok top z mm free o c n l :
  core top z mm free -> chain (lk z mm) c n l -> NoDup l ->
  (forall i, i ∈ l -> free !! i = Some o) ->
  exists mm', (if negb (n =? -1) then set_prev_index z mm n (-1) else Ok mm) = Ok mm' /\
    same_outside z mm mm' /\ chain (lk z mm') (-1) n l /\
    forall y o', o' <> o -> free !! y = Some o' -> lk z mm' y = lk z mm y.
Proof.
  intros H Hch Hnd Hin. pose proof (c_geo _ _ _ _ H) as Hg. destruct l as [|x l].
  - simpl in Hch. subst n. exists mm. split_and!; done.
  - destruct Hch as (-> & n' & Hx' & Hch).
    assert (free !! x = Some o) as Hfx by (apply Hin; by left).
    pose proof (core_slot _ _ _ _ _ _ H Hfx) as Hsx.
    rewrite (proj2 (Z.eqb_neq x (-1))) by (destruct Hsx; lia). cbn [negb].
    rewrite (set_prev_ok top z mm x (-1) (MM.entry n' c)) by done. simpl.
    eexists. split; [done|]. split; [by apply same_outside_upd|]. split.
    + simpl. split; [done|]. exists n'. rewrite lk_upd, Z.eqb_refl by apply Hsx.
      split; [done|]. apply NoDup_cons in Hnd as [Hxl _].
      eapply chain_ext; [|done]. intros y Hy.
      assert (free !! y = Some o) as Hfy by (apply Hin; by right).
      rewrite lk_upd by (apply Hsx || apply (core_slot _ _ _ _ _ _ H Hfy)).
      by destruct (Z.eqb_spec y x) as [->|].
    + intros y o' Hne Hy. eapply lk_upd_other; try done. congruence.
Qed.

(** The head of a non-empty freelist is taken. *)
Lemma take_step top z mm free o c bm :
  core top z mm free -> 0 <= o <= 12 ->
  m_buckets z !! Z.to_nat o = Some (bucket o c bm) -> c <> -1 ->
  exists e mm' bm',
    free !! c = Some o /\ get_freelist_entry z mm c = Ok e /\
    (if negb (MM.next_index e =? -1) then set_prev_index z mm (MM.next_index e) (-1)
     else Ok mm) = Ok mm' /\
    get_buddy_bit (bucket o (MM.next_index e) bm) c = Ok true /\
    set_buddy_bit (bucket o (MM.next_index e) bm) c false =
      Ok (bucket o (MM.next_index e) bm') /\
    same_outside z mm mm' /\
    core top (put_bucket z o (bucket o (MM.next_index e) bm')) mm' (delete c free).
Proof.
  intros H Ho E Hc. pose proof (c_geo _ _ _ _ H) as Hg. pose proof (g_top _ _ _ Hg) as Ht.
  destruct (c_buckets _ _ _ _ H o Ho) as (c' & bm0 & l & E' & Hch & Hnd & Hl & Hwf & Hbits).
  rewrite E in E'. injection E' as <- <-.
  destruct l as [|x l]; [done|]. destruct Hch as (-> & n & Hx & Hch). rename x into c.
  apply NoDup_cons in Hnd as [Hcl Hnd].
  assert (free !! c = Some o) as Hfc by (apply Hl; by left).
  pose proof (c_blk _ _ _ _ H c o Hfc) as Hb.
  assert (forall i, i ∈ l -> free !! i = Some o) as Hin by (intros; apply Hl; by right).
  assert (forall y, delete c free !! y = Some o <-> y ∈ l) as Hdel.
  { intros y. rewrite lookup_delete_Some, <- Hl, elem_of_cons. naive_solver. }
  assert (forall y o', o' <> o -> delete c free !! y = Some o' <-> free !! y = Some o') as Hoth.
  { intros y o' Hne. rewrite lookup_delete_Some. naive_solver congruence. }
  destruct (bit_set top free (delete c free) o bm c false) as (bm' & Eb & Hwf' & Hbits'); try done.
  { intros y Hy. apply is_free_ext. rewrite lookup_delete_Some. naive_solver. }
  { symmetry. apply orb_false_iff. rewrite <- !not_true_iff_false, !is_free_true, !lookup_delete_Some.
    destruct (pair_cases o c) as [Ec|Ec]; [lia|apply Hb| |]; split; intros [Hn Hf]; try congruence.
    - apply (c_pairs _ _ _ _ H c o); [by rewrite <- Ec|done].
    - apply (c_pairs _ _ _ _ H c o); [done|by rewrite <- Ec]. }
  exists (MM.entry n (-1)). simpl.
  destruct (pop_ok top z mm free o c n l) as (mm' & Em & Hout & Hch' & Hlk); [done..|].
  exists mm', bm'. split; [done|]. split.
  { eapply get_entry_ok; [done|by eapply core_slot|done]. }
  split; [done|]. split.
  { erewrite bit_get by done. f_equal. apply orb_true_iff.
    destruct (pair_cases o c) as [Ec|Ec]; [lia|apply Hb| |];
      rewrite <- Ec, !is_free_true; auto. }
  split; [apply Eb|]. split; [done|].
  apply (core_update top z mm free o); try done.
  - intros i Hi%Hdel. by apply (c_blk _ _ _ _ H), Hin.
  - intros i o1 j o2 [_ H1]%lookup_delete_Some [_ H2]%lookup_delete_Some.
    by apply (c_disj _ _ _ _ H).
  - intros i [_ H1]%lookup_delete_Some [_ H2]%lookup_delete_Some.
    by apply (c_pairs _ _ _ _ H i o).
  - exists n, bm', l. split; [by eapply put_bucket_lookup|]. split; [done|].
    split; [done|]. split; [intros i; symmetry; apply Hdel|]. done.
Qed.

(** A block is pushed on the freelist of its order. *)
Lemma push_ok top z mm free o x c l :
  core top z mm free -> slot z x -> free !! x = None ->
  chain (lk z mm) (-1) c l -> NoDup l -> (forall i, i ∈ l -> free !! i = Some o) ->
  exists mm1, (if negb (c =? -1) then set_prev_index z mm c x else Ok mm) = Ok mm1 /\
    set_freelist_entry z mm1 x (MM.entry c (-1)) = Ok (upd z mm1 x (MM.entry c (-1))) /\
    same_outside z mm (upd z mm1 x (MM.entry c (-1))) /\
    chain (lk z (upd z mm1 x (MM.entry c (-1)))) (-1) x (x :: l) /\
    forall y o', o' <> o -> free !! y = Some o' ->
      lk z (upd z mm1 x (MM.entry c (-1))) y = lk z mm y.
Proof.
  intros H Hsx Hfx Hch Hnd Hin. pose proof (c_geo _ _ _ _ H) as Hg.
  assert (x ∉ l) as Hxl by (intros Hx%Hin; congruence).
  assert (forall y, y ∈ l -> slot z y) as Hsl by (intros y Hy%Hin; by eapply core_slot).
  assert (exists mm1, (if negb (c =? -1) then set_prev_index z mm c x else Ok mm) = Ok mm1 /\
            same_outside z mm mm1 /\ chain (lk z mm1) x c l /\
            forall y o', o' <> o -> free !! y = Some o' -> lk z mm1 y = lk z mm y)
    as (mm1 & E & Hout & Hch1 & Hlk).
  { destruct l as [|w l].
    - simpl in Hch. subst c. exists mm. split_and!; done.
    - destruct Hch as (-> & n & Hw & Hch).
      assert (free !! w = Some o) as Hfw by (apply Hin; by left).
      pose proof (Hsl w ltac:(by left)) as Hsw.
      rewrite (proj2 (Z.eqb_neq w (-1))) by (destruct Hsw; lia). cbn [negb].
      rewrite (set_prev_ok top z mm w x (MM.entry n (-1))) by done. simpl.
      eexists. split; [done|]. split; [by apply same_outside_upd|]. split.
      + split; [done|]. exists n. rewrite lk_upd, Z.eqb_refl by apply Hsw. split; [done|].
        apply NoDup_cons in Hnd as [Hwl _]. eapply chain_ext; [|done]. intros y Hy.
        rewrite lk_upd by (apply Hsw || apply Hsl; by right).
        by destruct (Z.eqb_spec y w) as [->|].
      + intros y o' Hne Hy. eapply lk_upd_other; try done. congruence. }
  exists mm1. split; [done|].
  split; [eapply set_entry_ok; [by eapply geometry_outside|done]|].
  split; [eapply same_outside_trans; [done|by apply same_outside_upd]|]. split.
  - split; [done|]. exists c. rewrite lk_upd, Z.eqb_refl by apply Hsx. split; [done|].
    eapply chain_ext; [|done]. intros y Hy.
    rewrite lk_upd by (apply Hsx || by apply Hsl). by destruct (Z.eqb_spec y x) as [->|].
  - intros y o' Hne Hy.
    rewrite lk_upd by (apply Hsx || apply (core_slot _ _ _ _ _ _ H Hy)).
    destruct (Z.eqb_spec y x) as [->|]; [congruence|]. by eapply Hlk.
Qed.

Lemma hole_not_free top free o x i o' :
  hole top free o x -> x <= i < x + bsz o -> 0 <= o' -> free !! i = Some o' -> False.
Proof.
  intros [_ H] Hi Ho' Hf. pose proof (bsz_pos o' Ho'). destruct (H i o' Hf); lia.
Qed.

Lemma put_step top z mm free o x c bm :
  core top z mm free -> hole top free o x ->
  m_buckets z !! Z.to_nat o = Some (bucket o c bm) ->
  get_buddy_bit (bucket o c bm) x = Ok false ->
  exists mm1 mm2 bm',
    (if negb (c =? -1) then set_prev_index z mm c x else Ok mm) = Ok mm1 /\
    set_freelist_entry z mm1 x (MM.entry c (-1)) = Ok mm2 /\
    set_buddy_bit (bucket o x bm) x true = Ok (bucket o x bm') /\
    same_outside z mm mm2 /\
    core top (put_bucket z o (bucket o x bm')) mm2 (<[x := o]> free).
Proof.
  intros H Hh E Hbit. pose proof (c_geo _ _ _ _ H) as Hg. pose proof (g_top _ _ _ Hg) as Ht.
  pose proof Hh as [Hb Hd]. pose proof Hb as (Ho & Hx & Hal & _).
  pose proof (bsz_pos o ltac:(lia)) as Hpos.
  destruct (c_buckets _ _ _ _ H o ltac:(lia)) as (c' & bm0 & l & E' & Hch & Hnd & Hl & Hwf & Hbits).
  rewrite E in E'. injection E' as <- <-.
  erewrite bit_get in Hbit by done. injection Hbit as [Hb1 Hb2]%orb_false_iff.
  rewrite <- not_true_iff_false, is_free_true in Hb1, Hb2.
  assert (free !! x = None) as Hfx.
  { destruct (free !! x) as [o'|] eqn:Ex; [|done]. exfalso.
    eapply (hole_not_free top free o x x o'); try done; [lia|].
    apply (c_blk _ _ _ _ H) in Ex as (? & _). lia. }
  destruct (push_ok top z mm free o x c l) as (mm1 & E1 & E2 & Hout & Hch' & Hlk);
    try done; [by eapply blk_slot|intros; by apply Hl|].
  destruct (bit_set top free (<[x := o]> free) o bm x true) as (bm' & Eb & Hwf' & Hbits'); try done.
  { intros y Hy. apply is_free_ext. rewrite lookup_insert_ne; [done|congruence]. }
  { symmetry. apply orb_true_iff. rewrite !is_free_true.
    destruct (pair_cases o x) as [Ec|Ec]; [lia|done| |]; rewrite <- Ec, lookup_insert_eq; auto. }
  exists mm1, (upd z mm1 x (MM.entry c (-1))), bm'.
  split; [done|]. split; [done|]. split; [apply Eb|]. split; [done|].
  assert (forall y o', o' <> o -> <[x:=o]> free !! y = Some o' <-> free !! y = Some o') as Hoth.
  { intros y o' Hne. rewrite lookup_insert. case_decide as Exy; [|done]. subst y.
    rewrite Hfx. naive_solver congruence. }
  apply (core_update top z mm free o); try done.
  - lia.
  - intros i [[<- _]|[_ Hi]]%lookup_insert_Some; [done|]. by apply (c_blk _ _ _ _ H).
  - intros i o1 j o2 [[<- <-]|[_ H1]]%lookup_insert_Some [[<- <-]|[_ H2]]%lookup_insert_Some Hne;
      [done| | |by apply (c_disj _ _ _ _ H)].
    + destruct (Hd j o2 H2); auto.
    + destruct (Hd i o1 H1); auto.
  - intros i. rewrite !lookup_insert_Some.
    intros [[Ex _]|[_ H1]] [[Ex' _]|[_ H2]]; [lia| | |by apply (c_pairs _ _ _ _ H i o)].
    + apply Hb2. rewrite Ex, pair_base_idem in * by lia. done.
    + apply Hb1. rewrite Ex', pair_base_second by lia. done.
  - exists x, bm', (x :: l). split; [by eapply put_bucket_lookup|]. split; [done|].
    split; [constructor; [|done]; intros Hxl%Hl; congruence|].
    split; [|done]. intros i. rewrite elem_of_cons, lookup_insert_Some, Hl. naive_solver.
Qed.

(** Redirecting one neighbour of a list element, when there is one. *)
Lemma relink_next top z mm p v :
  geometry top z mm -> (p = -1 \/ slot z p /\ is_Some (lk z mm p)) ->
  exists mm', (if negb (p =? -1) then set_next_index z mm p v else Ok mm) = Ok mm' /\
    same_outside z mm mm' /\
    forall y n q, 0 <= y -> y mod 2 = 0 -> lk z mm y = Some (MM.entry n q) ->
      lk z mm' y = Some (MM.entry (if y =? p then v else n) q).
Proof.
  intros Hg [->|[Hs [[n q] Hp]]].
  - exists mm. split_and!; try done. intros y n q Hy _ E.
    by rewrite (proj2 (Z.eqb_neq y (-1))) by lia.
  - rewrite (proj2 (Z.eqb_neq p (-1))) by (destruct Hs; lia). cbn [negb].
    rewrite (set_next_ok top z mm p v (MM.entry n q)) by done.
    eexists. split; [done|]. split; [by apply same_outside_upd|].
    intros y n' q' Hy Hy2 E. rewrite lk_upd by (done || apply Hs).
    destruct (Z.eqb_spec y p) as [->|]; [|done]. simpl. congruence.
Qed.

Lemma relink_prev top z mm p v :
  geometry top z mm -> (p = -1 \/ slot z p /\ is_Some (lk z mm p)) ->
  exists mm', (if negb (p =? -1) then set_prev_index z mm p v else Ok mm) = Ok mm' /\
    same_outside z mm mm' /\
    forall y n q, 0 <= y -> y mod 2 = 0 -> lk z mm y = Some (MM.entry n q) ->
      lk z mm' y = Some (MM.entry n (if y =? p then v else q)).
Proof.
  intros Hg [->|[Hs [[n q] Hp]]].
  - exists mm. split_and!; try done. intros y n q Hy _ E.
    by rewrite (proj2 (Z.eqb_neq y (-1))) by lia.
  - rewrite (proj2 (Z.eqb_neq p (-1))) by (destruct Hs; lia). cbn [negb].
    rewrite (set_prev_ok top z mm p v (MM.entry n q)) by done.
    eexists. split; [done|]. split; [by apply same_outside_upd|].
    intros y n' q' Hy Hy2 E. rewrite lk_upd by (done || apply Hs).
    destruct (Z.eqb_spec y p) as [->|]; [|done]. simpl. congruence.
Qed.

Lemma remove_ok top z mm o c bm l1 y l2 :
  geometry top z mm -> NoDup (l1 ++ y :: l2) -> (forall i, i ∈ l1 ++ y :: l2 -> slot z i) ->
  chain (lk z mm) (-1) c (l1 ++ y :: l2) ->
  exists c' mm', remove_from_freelist z mm (bucket o c bm) y = Ok (bucket o c' bm, mm') /\
    same_outside z mm mm' /\ chain (lk z mm') (-1) c' (l1 ++ l2) /\
    forall i e, slot z i -> i ∉ l1 ++ y :: l2 -> lk z mm i = Some e -> lk z mm' i = Some e.
Proof.
  intros Hg Hnd Hsl Hch. destruct (chain_middle _ _ _ _ _ _ Hch) as (e & He & Hp & Hn).
  assert (slot z y) as Hsy by (apply Hsl; set_solver).
  assert (MM.prev_index e = -1 \/ MM.prev_index e ∈ l1) as Hp' by (destruct Hp as [[_ ?]|?]; auto).
  assert (MM.next_index e = -1 \/ MM.next_index e ∈ l2) as Hn' by (destruct Hn as [[_ ?]|?]; auto).
  assert (forall i, i ∈ l1 ++ y :: l2 -> slot z i /\ is_Some (lk z mm i)) as Hentry.
  { intros i Hi. split; [by apply Hsl|]. by eapply chain_lookup. }
  destruct (relink_next top z mm (MM.prev_index e) (MM.next_index e)) as (mm1 & E1 & Hout1 & L1).
  { done. } { destruct Hp'; [by left|right]. apply Hentry. set_solver. }
  pose proof (geometry_outside _ _ _ _ Hout1 Hg) as Hg1.
  destruct (relink_prev top z mm1 (MM.next_index e) (MM.prev_index e)) as (mm2 & E2 & Hout2 & L2).
  { done. }
  { destruct Hn' as [?|Hin]; [by left|right]. destruct (Hentry (MM.next_index e)) as [Hs [[n q] Hq]];
      [set_solver|]. split; [done|]. erewrite L1; eauto; apply Hs. }
  pose proof (geometry_outside _ _ _ _ Hout2 Hg1) as Hg2.
  exists (if c =? y then MM.next_index e else c), (upd z mm2 y (MM.entry (-1) (-1))).
  split; [|split; [|split]].
  - unfold remove_from_freelist. rewrite (get_entry_ok top z mm y e) by done. cbn [bind].
    assert (-1 <= MM.prev_index e) as H1.
    { destruct Hp' as [?|Hin]; [lia|]. destruct (Hsl (MM.prev_index e)) as [? _]; [set_solver|lia]. }
    assert (-1 <= MM.next_index e) as H2.
    { destruct Hn' as [?|Hin]; [lia|]. destruct (Hsl (MM.next_index e)) as [? _]; [set_solver|lia]. }
    rewrite !(proj2 (Z.leb_le _ _)) by done. rewrite E1. cbn [bind]. rewrite E2. cbn [bind].
    rewrite (set_entry_ok top) by done. cbn [bind freelist].
    by destruct (c =? y).
  - eapply same_outside_trans; [done|]. eapply same_outside_trans; [done|].
    by apply same_outside_upd.
  - eapply chain_remove; try done.
    + intros Hin%Hsl. destruct Hin. lia.
    + intros i Hi%Hsl. apply Hi.
    + intros i n q Hi Hlk. assert (slot z i) as [Hs1 Hs2] by (apply Hsl; set_solver).
      rewrite lk_upd by (done || apply Hsy).
      destruct (Z.eqb_spec i y) as [->|_].
      { apply NoDup_app in Hnd as (_ & Hd & [Hyl _]%NoDup_cons). set_solver. }
      erewrite L2; [done|lia|done|]. apply L1; [lia|done|done].
  - intros i [n q] [Hs1 Hs2] Hi Hlk. rewrite lk_upd by (done || apply Hsy).
    destruct (Z.eqb_spec i y) as [->|_]; [set_solver|].
    erewrite L2; [|lia|done|apply L1; [lia|done|done]]. do 2 f_equal.
    + destruct (Z.eqb_spec i (MM.prev_index e)) as [->|]; [|done].
      destruct Hp'; [lia|set_solver].
    + destruct (Z.eqb_spec i (MM.next_index e)) as [->|]; [|done].
      destruct Hn'; [lia|set_solver].
Qed.

(** The buddy of a block, which is the other half of its pair. *)
Definition buddy (o x : Z) : Z :=
  if x =? pair_base o x then pair_base o x + bsz o else pair_base o x.

(** A free buddy is taken off its freelist, to be merged. *)
Lemma merge_step top z mm free o x c bm :
  core top z mm free -> hole top free o x ->
  m_buckets z !! Z.to_nat o = Some (bucket o c bm) ->
  get_buddy_bit (bucket o c bm) x = Ok true ->
  exists c' mm' bm',
    free !! buddy o x = Some o /\
    remove_from_freelist z mm (bucket o c bm) (buddy o x) = Ok (bucket o c' bm, mm') /\
    set_buddy_bit (bucket o c' bm) x false = Ok (bucket o c' bm') /\
    same_outside z mm mm' /\
    core top (put_bucket z o (bucket o c' bm')) mm' (delete (buddy o x) free).
Proof.
  intros H Hh E Hbit. pose proof (c_geo _ _ _ _ H) as Hg. pose proof (g_top _ _ _ Hg) as Ht.
  pose proof Hh as [Hb Hd]. pose proof Hb as (Ho & Hx & Hal & _).
  pose proof (bsz_pos o ltac:(lia)) as Hpos.
  destruct (c_buckets _ _ _ _ H o ltac:(lia)) as (c0 & bm0 & l & E' & Hch & Hnd & Hl & Hwf & Hbits).
  rewrite E in E'. injection E' as <- <-.
  assert (free !! x <> Some o) as Hfx.
  { intros Ex. eapply (hole_not_free top free o x x o); try done; lia. }
  assert (free !! buddy o x = Some o) as Hy.
  { erewrite bit_get in Hbit by done. injection Hbit as Hbit.
    rewrite orb_true_iff, !is_free_true in Hbit. unfold buddy.
    destruct (Z.eqb_spec x (pair_base o x)) as [Ex|Ex].
    - rewrite <- Ex in *. by destruct Hbit.
    - destruct (pair_cases o x) as [?|Ex']; [lia|done|done|]. rewrite <- Ex' in Hbit. by destruct Hbit. }
  assert (pair_base o (buddy o x) = pair_base o x) as Hpb.
  { unfold buddy. destruct (x =? _); [by apply pair_base_second; lia|by apply pair_base_idem; lia]. }
  set (y := buddy o x) in *.
  destruct (list_elem_of_split l y (proj2 (Hl y) Hy)) as (l1 & l2 & ->).
  destruct (remove_ok top z mm o c bm l1 y l2) as (c' & mm' & Er & Hout & Hch' & Hlk); try done.
  { intros i Hi%Hl. by eapply core_slot. }
  destruct (bit_set top free (delete y free) o bm x false) as (bm' & Eb & Hwf' & Hbits'); try done.
  { intros w Hw. apply is_free_ext. rewrite lookup_delete_ne; [done|congruence]. }
  { symmetry. apply orb_false_iff. rewrite <- !not_true_iff_false, !is_free_true, !lookup_delete_Some.
    unfold y, buddy. destruct (pair_cases o x) as [Ex|Ex]; [lia|done| |]; rewrite <- Ex.
    - rewrite Z.eqb_refl. naive_solver.
    - rewrite (proj2 (Z.eqb_neq x (pair_base o x))) by lia. naive_solver. }
  exists c', mm', bm'. split; [done|]. split; [done|]. split; [apply Eb|]. split; [done|].
  apply (core_update top z mm free o); try done.
  - lia.
  - intros w o' Hne. rewrite lookup_delete_Some. naive_solver congruence.
  - intros w o' Hne Hw. destruct (c_buckets _ _ _ _ H o') as (c1 & bm1 & l' & _ & Hc1 & _ & Hl' & _).
    { apply (c_blk _ _ _ _ H) in Hw as (? & _). lia. }
    destruct (chain_lookup _ _ _ _ w Hc1) as [e He]; [by apply Hl'|]. rewrite He. apply Hlk; [|by intros ?%Hl; congruence|done].
    by eapply core_slot.
  - intros i [_ Hi]%lookup_delete_Some. by apply (c_blk _ _ _ _ H).
  - intros i o1 j o2 [_ H1]%lookup_delete_Some [_ H2]%lookup_delete_Some.
    by apply (c_disj _ _ _ _ H).
  - intros i [_ H1]%lookup_delete_Some [_ H2]%lookup_delete_Some.
    by apply (c_pairs _ _ _ _ H i o).
  - exists c', bm', (l1 ++ l2). split; [by eapply put_bucket_lookup|]. split; [done|].
    apply NoDup_app in Hnd as (Hn1 & Hn2 & [Hyl Hn3]%NoDup_cons).
    split; [apply NoDup_app; split_and!; set_solver|]. split; [|done].
    intros i. rewrite lookup_delete_Some, <- Hl. set_solver.
Qed.

(** ** Allocation and deallocation *)

(** A chunk of some free block. *)
Definition covered (free : gmap Z Z) (c : Z) : Prop :=
  exists i o, free !! i = Some o /\ i <= c < i + bsz o.

Definition in_block (o x c : Z) : Prop := x <= c < x + bsz o.

Definition same_zone (z z' : t) : Prop :=
  m_base_address z' = m_base_address z /\ m_page_count z' = m_page_count z /\
  m_used_chunks z' = m_used_chunks z.

Lemma covered_insert free x o c :
  free !! x = None -> covered (<[x := o]> free) c <-> covered free c \/ in_block o x c.
Proof.
  intros Hx. unfold covered, in_block. split.
  - intros (i & o' & [[<- <-]|[_ Hi]]%lookup_insert_Some & Hc); [by right|left; eauto].
  - intros [(i & o' & Hi & Hc)|Hc].
    + exists i, o'. rewrite lookup_insert_ne; [done|congruence].
    + exists x, o. by rewrite lookup_insert_eq.
Qed.

Lemma covered_delete free x o c :
  disjoint_blocks free -> free !! x = Some o ->
  covered (delete x free) c <-> covered free c /\ ~ in_block o x c.
Proof.
  intros Hd Hx. unfold covered, in_block. split.
  - intros (i & o' & [Hne Hi]%lookup_delete_Some & Hc). split; [eauto|].
    destruct (Hd i o' x o); try done; lia.
  - intros [(i & o' & Hi & Hc) Hn]. exists i, o'. rewrite lookup_delete_ne; [done|].
    intros <-. rewrite Hi in Hx. injection Hx as ->. lia.
Qed.

Lemma get_bucket_ok z o b : 0 <= o -> m_buckets z !! Z.to_nat o = Some b -> get_bucket z o = Ok b.
Proof. intros Ho E. unfold get_bucket. rewrite (proj2 (Z.ltb_ge o 0)) by lia. by rewrite E. Qed.

(** What a successful allocation of order [o] at [x] did. *)
Record took (top : Z) (z : t) (mm : MM.t) (free : gmap Z Z) (o x : Z)
    (z' : t) (mm' : MM.t) (free' : gmap Z Z) : Prop := {
  t_core : core top z' mm' free';
  t_hole : hole top free' o x;
  t_was_free : forall c, in_block o x c -> covered free c;
  t_covered : forall c, covered free' c <-> covered free c /\ ~ in_block o x c;
  t_sum : msum bsz free' = msum bsz free - bsz o;
  t_zone : same_zone z z';
  t_outside : same_outside z mm mm';
  t_below : forall k, 0 <= k < o -> m_buckets z' !! Z.to_nat k = m_buckets z !! Z.to_nat k;
}.

Lemma took_head top z mm free o c z' mm' :
  core top z mm free -> core top z' mm' (delete c free) -> free !! c = Some o ->
  same_zone z z' -> same_outside z mm mm' ->
  (forall k, 0 <= k < o -> m_buckets z' !! Z.to_nat k = m_buckets z !! Z.to_nat k) ->
  took top z mm free o c z' mm' (delete c free).
Proof.
  intros H H' Hfc Hz Hout Hbelow. pose proof (c_disj _ _ _ _ H) as Hd.
  constructor; try done.
  - split; [by apply (c_blk _ _ _ _ H)|]. intros i o' [Hne Hi]%lookup_delete_Some.
    destruct (Hd i o' c o); auto.
  - intros k Hk. by exists c, o.
  - intros k. by apply covered_delete.
  - by apply msum_delete.
Qed.

(** Splitting a block of order [o + 1]: the first half is freed. *)
Lemma took_split top z mm free o x z1 mm1 free1 z' mm' :
  0 <= o -> took top z mm free (o + 1) x z1 mm1 free1 ->
  core top z' mm' (<[x := o]> free1) -> same_zone z1 z' -> same_outside z1 mm1 mm' ->
  (forall k, 0 <= k < o -> m_buckets z' !! Z.to_nat k = m_buckets z1 !! Z.to_nat k) ->
  took top z mm free o (x + bsz o) z' mm' (<[x := o]> free1).
Proof.
  intros Ho [H1 Hh1 Hwas Hcov Hsum Hz1 Hout1 Hbelow1] H' Hz Hout Hbelow.
  pose proof Hh1 as [Hb1 Hd1]. destruct (blk_halves top o x Ho Hb1) as (Hb & Hb' & _ & _).
  pose proof (bsz_pos o Ho). rewrite bsz_succ in Hd1, Hsum by lia.
  assert (forall c, in_block (o + 1) x c <-> in_block o x c \/ in_block o (x + bsz o) c) as Hin.
  { intros c. unfold in_block. rewrite bsz_succ by lia. lia. }
  assert (free1 !! x = None) as Hfx.
  { destruct (free1 !! x) as [o'|] eqn:Ex; [|done]. exfalso.
    eapply (hole_not_free top free1 (o + 1) x x o'); try done; [rewrite bsz_succ; lia|].
    apply (c_blk _ _ _ _ H1) in Ex as (? & _). lia. }
  destruct Hz1 as (Eb1 & Ep1 & Eu1), Hz as (Eb & Ep & Eu). constructor; try done.
  - split; [done|]. intros i o' [[<- <-]|[_ Hi]]%lookup_insert_Some; [lia|].
    destruct (Hd1 i o' Hi); lia.
  - intros c Hc. apply Hwas, Hin. by right.
  - intros c. rewrite covered_insert by done. rewrite Hcov, Hin.
    assert (in_block o x c -> covered free c) by (intros; apply Hwas, Hin; by left).
    assert (in_block o x c -> ~ in_block o (x + bsz o) c) by (unfold in_block; lia).
    assert (in_block o x c \/ ~ in_block o x c) by (unfold in_block; lia). tauto.
  - rewrite msum_insert by done. lia.
  - split_and!; congruence.
  - eapply same_outside_trans; [done|]. destruct Hout as [Ec Hk]. split; [done|].
    intros k Hk'. apply Hk. unfold page in *. by rewrite Eb1, Ep1.
  - intros k Hk. rewrite Hbelow, Hbelow1; [done|lia|lia].
Qed.

Lemma put_bucket_zone z o b : same_zone z (put_bucket z o b).
Proof. done. Qed.

Lemma put_bucket_below z o b k :
  0 <= k < o -> m_buckets (put_bucket z o b) !! Z.to_nat k = m_buckets z !! Z.to_nat k.
Proof. intros. simpl. apply list_lookup_insert_ne. lia. Qed.

Lemma i16_small x : 0 <= x < 2 ^ 15 -> i16 x = x.
Proof. intros. unfold i16. apply sext_small; lia. Qed.

Lemma hole_halves top free o x :
  0 <= o -> hole top free (o + 1) x ->
  is_free free o x = false /\ is_free free o (x + bsz o) = false.
Proof.
  intros Ho Hh. pose proof (bsz_pos o Ho). rewrite <- !not_true_iff_false, !is_free_true.
  split; intros Hf; eapply (hole_not_free _ _ _ _ _ _ Hh); try exact Hf;
    rewrite ?bsz_succ by lia; lia.
Qed.

Lemma allocate_impl_ok top fuel z mm free o :
  core top z mm free -> 0 <= o <= 13 -> 14 - o <= Z.of_nat fuel ->
  (exists x z' mm' free', allocate_block_impl fuel z mm o = Ok (Some x, z', mm') /\
     took top z mm free o x z' mm' free') \/
  (allocate_block_impl fuel z mm o = Ok (None, z, mm) /\
   forall i o', free !! i = Some o' -> o' < o).
Proof.
  revert z mm free o. induction fuel as [|fuel IH]; intros z mm free o H Ho Hf; [lia|].
  pose proof (c_geo _ _ _ _ H) as Hg. pose proof (g_top _ _ _ Hg) as Ht.
  cbn [allocate_block_impl]. unfold max_order. destruct (Z.ltb_spec 12 o).
  { right. split; [done|]. intros i o' Hi. apply (c_blk _ _ _ _ H) in Hi as (? & _). lia. }
  destruct (c_buckets _ _ _ _ H o ltac:(lia)) as (c & bm & l & E & Hch & Hnd & Hl & Hwf & Hbits).
  rewrite (get_bucket_ok z o _ ltac:(lia) E). cbn [bind freelist].
  destruct (Z.eqb_spec c (-1)) as [->|Hc].
  - assert (l = []) as ->.
    { eapply chain_head_none; [|done|done]. intros i Hi%Hl. by apply (c_blk _ _ _ _ H) in Hi as (_ & ? & _). }
    destruct (IH z mm free (o + 1)) as [(x & z1 & mm1 & free1 & -> & Hto)|[-> Hnone]]; [done|lia|lia| |].
    + cbn [bind]. left. pose proof Hto as [H1 Hh1 _ _ _ _ _ Hbelow].
      destruct Hh1 as [Hb1 Hd1]. destruct (blk_halves top o x ltac:(lia) Hb1) as (Hb & Hb' & Epb & _).
      pose proof (bsz_pos o ltac:(lia)).
      assert (hole top free1 o x) as Hh.
      { split; [done|]. intros i o' Hi. rewrite bsz_succ in Hd1 by lia. destruct (Hd1 i o' Hi); lia. }
      assert (m_buckets z1 !! Z.to_nat o = Some (bucket o (-1) bm)) as E1 by (rewrite Hbelow; [done|lia]).
      destruct (c_buckets _ _ _ _ H1 o ltac:(lia)) as (c1 & bm1 & l1 & E1' & _ & _ & _ & Hwf1 & Hbits1).
      rewrite E1 in E1'. injection E1' as <- <-.
      assert (forall c, get_buddy_bit (bucket o c bm) x = Ok false) as Hbit.
      { intros c. erewrite bit_get by done. f_equal. rewrite Epb.
        by destruct (hole_halves top free1 o x ltac:(lia) (t_hole _ _ _ _ _ _ _ _ _ Hto)) as [-> ->]. }
      destruct (put_step top z1 mm1 free1 o x (-1) bm H1 Hh E1 (Hbit _))
        as (mma & mm2 & bm' & Ea & Eset & Ebit & Hout & H').
      injection Ea as <-. rewrite Eset. cbn [bind].
      rewrite (get_bucket_ok z1 o _ ltac:(lia) E1). cbn [bind].
      change (set_freelist (bucket o (-1) bm) x) with (bucket o x bm). rewrite Hbit. cbn [bind negb]. rewrite Ebit. cbn [bind].
      rewrite block_size_bsz by lia. destruct (blk_bounds _ _ _ Ht Hb') as [? _].
      rewrite i16_small by lia. do 4 eexists. split; [done|].
      eapply took_split; [lia|done|done|done|done|]. intros; by apply put_bucket_below.
    + right. split; [done|]. intros i o' Hi. specialize (Hnone i o' Hi).
      destruct (Z.eq_dec o' o) as [->|]; [|lia]. apply Hl in Hi. by apply not_elem_of_nil in Hi.
  - left. destruct (take_step top z mm free o c bm H ltac:(lia) E Hc)
      as (e & mm' & bm' & Hfc & Eg & Ep & Eb & Es & Hout & H').
    rewrite Eg. cbn [bind].
    change (set_freelist (bucket o c bm) (MM.next_index e)) with (bucket o (MM.next_index e) bm).
    cbn [freelist]. rewrite Ep. cbn [bind].
    rewrite Eb. cbn [bind]. rewrite Es. cbn [bind]. do 4 eexists. split; [done|].
    apply took_head; try done. intros; by apply put_bucket_below.
Qed.

(** What a deallocation of the block [x] of order [o] did. *)
Record gave (top : Z) (z : t) (mm : MM.t) (free : gmap Z Z) (o x : Z)
    (z' : t) (mm' : MM.t) (free' : gmap Z Z) : Prop := {
  r_core : core top z' mm' free';
  r_covered : forall c, covered free' c <-> covered free c \/ in_block o x c;
  r_sum : msum bsz free' = msum bsz free + bsz o;
  r_zone : same_zone z z';
  r_outside : same_outside z mm mm';
}.

Lemma buddy_block top o x : blk top o x -> o < top -> blk top o (buddy o x).
Proof.
  intros Hb Hlt. pose proof Hb as (Ho & _).
  destruct (blk_halves top o (pair_base o x)) as (H1 & H2 & _); [lia|by apply blk_pair|].
  unfold buddy. by destruct (x =? pair_base o x).
Qed.

(** A block of the zone's own order has no buddy inside the zone. *)
Lemma buddy_below_top top o x : blk top o x -> blk top o (buddy o x) -> o < top.
Proof.
  intros (Ho & Hx & Hm & Hle) (_ & Hy & _ & Hle'). pose proof (bsz_pos o ltac:(lia)).
  destruct (Z.eq_dec o top) as [->|]; [exfalso|lia]. unfold buddy in *.
  destruct (Z.eqb_spec x (pair_base top x)); [lia|].
  destruct (pair_cases top x) as [?|?]; [lia|done|done|lia].
Qed.

(** Once the free buddy is off its list the whole pair is a hole. *)
Lemma merged_hole top z mm free o x :
  core top z mm free -> hole top free o x -> free !! buddy o x = Some o ->
  hole top (delete (buddy o x) free) (o + 1) (pair_base o x).
Proof.
  intros H [Hb Hd] Hy. pose proof Hb as (Ho & Hx & Hm & _).
  pose proof (c_blk _ _ _ _ H _ _ Hy) as Hby. pose proof (buddy_below_top _ _ _ Hb Hby) as Hlt.
  pose proof (bsz_pos o ltac:(lia)). split; [by apply blk_pair|].
  intros i o' [Hne Hi]%lookup_delete_Some. rewrite bsz_succ by lia.
  pose proof (c_blk _ _ _ _ H i o' Hi) as (Ho' & _). pose proof (bsz_pos o' ltac:(lia)).
  pose proof (Hd i o' Hi). pose proof (c_disj _ _ _ _ H _ _ _ _ Hi Hy ltac:(done)).
  destruct (pair_cases o x) as [E|E]; [lia|done| |]; unfold buddy in *;
    destruct (Z.eqb_spec x (pair_base o x)); lia.
Qed.

Lemma pair_covers o x c :
  0 <= o -> x mod bsz o = 0 ->
  in_block (o + 1) (pair_base o x) c <-> in_block o x c \/ in_block o (buddy o x) c.
Proof.
  intros Ho Hm. unfold in_block, buddy. rewrite bsz_succ by lia. pose proof (bsz_pos o Ho).
  destruct (pair_cases o x) as [E|E]; [lia|done| |];
    destruct (Z.eqb_spec x (pair_base o x)); lia.
Qed.

Lemma gave_merged top z mm free o x z1 mm1 z' mm' free' :
  core top z mm free -> blk top o x -> free !! buddy o x = Some o ->
  same_zone z z1 -> same_outside z mm mm1 ->
  gave top z1 mm1 (delete (buddy o x) free) (o + 1) (pair_base o x) z' mm' free' ->
  gave top z mm free o x z' mm' free'.
Proof.
  intros H Hb Hy Hz1 Hout1 [H' Hcov Hsum Hz Hout]. pose proof Hb as (Ho & Hx & Hm & _).
  destruct Hz1 as (Eb1 & Ep1 & Eu1), Hz as (Eb & Ep & Eu). constructor; try done.
  - intros c. rewrite Hcov, (covered_delete free (buddy o x) o) by (done || apply H).
    rewrite pair_covers by (done || lia).
    assert (in_block o (buddy o x) c -> covered free c) by (intros; by exists (buddy o x), o).
    assert (in_block o (buddy o x) c \/ ~ in_block o (buddy o x) c) by (unfold in_block; lia).
    tauto.
  - rewrite Hsum, (msum_delete bsz _ _ _ Hy), bsz_succ by lia. lia.
  - split_and!; congruence.
  - eapply same_outside_trans; [done|]. destruct Hout as [Ec Hk]. split; [done|].
    intros k Hk'. apply Hk. unfold page in *. by rewrite Eb1, Ep1.
Qed.

Lemma buddy_base_ok top o c bm x :
  0 <= top <= 12 -> blk top o x -> o < top ->
  i16 (u64 (Z.shiftl (Z.shiftl (buddy_bit_index (bucket o c bm) x) 1) (1 + o))) = pair_base o x.
Proof.
  intros Ht Hb Hlt. rewrite (bit_index_ok top) by done.
  pose proof (blk_pair _ _ _ Hb Hlt) as Hp. destruct (blk_bounds _ _ _ Ht Hp) as [Hr _].
  destruct Hb as (Ho & _). rewrite !Z.shiftl_mul_pow2 by lia.
  replace (x / (2 * bsz o) * 2 ^ 1 * 2 ^ (1 + o)) with (pair_base o x).
  - unfold u64. rewrite wrap_small by (unfold fits; lia). apply i16_small. lia.
  - unfold pair_base, bsz. rewrite (Z.add_comm o). lia.
Qed.

Lemma deallocate_impl_ok top fuel z mm free o x :
  core top z mm free -> hole top free o x -> 14 - o <= Z.of_nat fuel ->
  exists z' mm' free', deallocate_block_impl fuel z mm x o = Ok (z', mm') /\
    gave top z mm free o x z' mm' free'.
Proof.
  revert z mm free o x. induction fuel as [|fuel IH]; intros z mm free o x H Hh Hf;
    pose proof (c_geo _ _ _ _ H) as Hg; pose proof (g_top _ _ _ Hg) as Ht;
    pose proof Hh as [Hb Hd]; pose proof Hb as (Ho & Hx & Hm & _); [lia|].
  pose proof (bsz_pos o ltac:(lia)).
  destruct (c_buckets _ _ _ _ H o ltac:(lia)) as (c & bm & l & E & Hch & Hnd & Hl & Hwf & Hbits).
  cbn [deallocate_block_impl]. rewrite (get_bucket_ok z o _ ltac:(lia) E). cbn [bind].
  destruct (get_buddy_bit (bucket o c bm) x) as [bit| | |] eqn:Ebit;
    try (erewrite bit_get in Ebit by done; discriminate). cbn [bind].
  destruct bit.
  - destruct (merge_step top z mm free o x c bm H Hh E Ebit)
      as (c' & mm1 & bm' & Hy & Er & Es & Hout & H1).
    pose proof (c_blk _ _ _ _ H _ _ Hy) as Hby. pose proof (buddy_below_top _ _ _ Hb Hby) as Hlt.
    rewrite (buddy_base_ok top) by done. rewrite block_size_bsz by lia.
    assert ((if x =? pair_base o x
             then remove_from_freelist z mm (bucket o c bm) (i16 (pair_base o x + bsz o))
             else remove_from_freelist z mm (bucket o c bm) (pair_base o x)) =
            Ok (bucket o c' bm, mm1)) as ->.
    { rewrite <- Er. unfold buddy in *. destruct (x =? pair_base o x); [|done].
      destruct (blk_bounds _ _ _ Ht Hby) as [? _]. by rewrite i16_small by lia. }
    cbn [bind]. rewrite Es. cbn [bind].
    destruct (IH (put_bucket z o (bucket o c' bm')) mm1 (delete (buddy o x) free) (o + 1)
                (pair_base o x)) as (z' & mm' & free' & -> & Hga); [done|by eapply merged_hole|lia|].
    do 3 eexists. split; [done|]. eapply gave_merged; [exact H|exact Hb|exact Hy| | |exact Hga]; done.
  - destruct (put_step top z mm free o x c bm H Hh E Ebit)
      as (mm1 & mm2 & bm' & Ea & Eset & Es & Hout & H').
    cbn [freelist]. rewrite Ea. cbn [bind]. rewrite Eset. cbn [bind].
    change (set_freelist (bucket o c bm) x) with (bucket o x bm). rewrite Es. cbn [bind].
    assert (free !! x = None) as Hfx.
    { destruct (free !! x) as [o'|] eqn:Ex; [|done]. exfalso.
      eapply (hole_not_free top free o x x o'); try done; [lia|].
      apply (c_blk _ _ _ _ H) in Ex as (? & _). lia. }
    do 3 eexists. split; [done|]. constructor; try done.
    + intros k. by apply covered_insert.
    + rewrite msum_insert by done. lia.
Qed.

(** ** Counting *)

(** Disjoint blocks below [N] have at most [N] chunks together. *)
Lemma packed_sum (N : Z) (free : gmap Z Z) :
  0 <= N -> disjoint_blocks free ->
  (forall i o, free !! i = Some o -> 0 <= i /\ 1 <= bsz o /\ i + bsz o <= N) ->
  msum bsz free <= N.
Proof.
  intros HN. revert HN free. pattern N. apply (well_founded_ind (Z.lt_wf 0)). clear N.
  intros N IH HN free Hd Hb.
  destruct (decide (map_Exists (fun i o => i + bsz o = N) free)) as [(i & o & Hi & E)|Hno].
  - destruct (Hb i o Hi) as (Hi0 & Ho & _).
    pose proof (msum_delete bsz free i o Hi) as Hs.
    enough (msum bsz (delete i free) <= i) by lia.
    apply IH; [lia|lia| |].
    + intros a oa b ob [_ H1]%lookup_delete_Some [_ H2]%lookup_delete_Some. by apply Hd.
    + intros j o' [Hne Hj]%lookup_delete_Some. destruct (Hb j o' Hj) as (? & ? & ?).
      split; [done|]. split; [done|]. destruct (Hd j o' i o); try done; lia.
  - destruct (decide (free = ∅)) as [->|Hne].
    + unfold msum. rewrite map_fold_empty. done.
    + apply map_choose in Hne as (i & o & Hi). destruct (Hb i o Hi) as (? & ? & ?).
      assert (msum bsz free <= N - 1); [|lia]. apply IH; [lia|lia|done|].
      intros j o' Hj. destruct (Hb j o' Hj) as (? & ? & ?). split; [done|]. split; [done|].
      assert (j + bsz o' <> N); [|lia]. intros E. apply Hno. by exists j, o'.
Qed.

(** ** The zone's interface *)

Record inv (top : Z) (z : t) (mm : MM.t) (free : gmap Z Z) : Prop := {
  i_core : core top z mm free;
  i_used : m_used_chunks z = bsz top - msum bsz free;
}.

Lemma core_add_used top z mm free n : core top z mm free -> core top (add_used z n) mm free.
Proof.
  intros [[] Hb Hd Hp Hk]. by constructor.
Qed.

Lemma core_sum_bounds top z mm free : core top z mm free -> 0 <= msum bsz free <= bsz top.
Proof.
  intros H. pose proof (g_top _ _ _ (c_geo _ _ _ _ H)). split.
  - apply msum_nonneg. intros i o (Ho & _)%(c_blk _ _ _ _ H). pose proof (bsz_pos o). lia.
  - pose proof (bsz_pos top ltac:(lia)). apply packed_sum; [lia|apply H|].
    intros i o (Ho & Hi & _ & Hle)%(c_blk _ _ _ _ H). pose proof (bsz_pos o ltac:(lia)). lia.
Qed.

Lemma zone_address top z mm o x :
  geometry top z mm -> blk top o x ->
  u64 (m_base_address z + x * ZONE_CHUNK_SIZE) = m_base_address z + x * ZONE_CHUNK_SIZE.
Proof.
  intros Hg Hb. apply (blk_slot _ _ _ _ _ Hg) in Hb as [Hx _].
  pose proof (g_limit _ _ _ Hg). pose proof (g_base _ _ _ Hg) as [? _].
  apply wrap_small. unfold fits, ZONE_CHUNK_SIZE, PAGE_SIZE in *.
  change (4096 / 2) with 2048. lia.
Qed.

Lemma u64_used n : 0 <= n <= 8192 -> u64 n = n.
Proof. intros. apply wrap_small. unfold fits. lia. Qed.

Lemma allocate_ok top z mm free o :
  inv top z mm free -> 0 <= o < 32 ->
  (exists x z' mm' free',
     allocate_block z mm o = Ok (Some (m_base_address z + x * ZONE_CHUNK_SIZE), z', mm') /\
     inv top z' mm' free' /\ blk top o x /\
     (forall c, in_block o x c -> covered free c) /\
     (forall c, covered free' c <-> covered free c /\ ~ in_block o x c) /\
     m_base_address z' = m_base_address z /\ m_page_count z' = m_page_count z /\
     m_used_chunks z' = m_used_chunks z + bsz o /\ same_outside z mm mm') \/
  (allocate_block z mm o = Ok (None, z, mm) /\ forall i o', free !! i = Some o' -> o' < o).
Proof.
  intros [H Hu] Ho. pose proof (g_top _ _ _ (c_geo _ _ _ _ H)) as Ht.
  unfold allocate_block. rewrite (proj2 (Z.leb_gt 32 o)) by lia.
  destruct (Z.lt_ge_cases 12 o) as [Hbig|Hsmall].
  { right. cbn [allocate_block_impl]. unfold max_order. rewrite (proj2 (Z.ltb_lt 12 o)) by lia.
    split; [done|]. intros i o' Hi. apply (c_blk _ _ _ _ H) in Hi as (? & _). lia. }
  destruct (allocate_impl_ok top 14 z mm free o) as [(x & z' & mm' & free' & -> & Hto)|[-> Hnone]];
    [done|lia|lia|left|by right].
  destruct Hto as [H' [Hb _] Hwas Hcov Hsum (Ebase & Epage & Eused) Hout _]. cbn [bind].
  destruct (blk_bounds _ _ _ Ht Hb) as [_ Heven].
  rewrite (Z.land_ones x 1 ltac:(lia) : Z.land x 1 = x mod 2), Heven. cbn [Z.eqb].
  pose proof (core_sum_bounds _ _ _ _ H'). pose proof (bsz_top top Ht).
  exists x, (add_used z' (block_size o)), mm', free'. simpl.
  rewrite (zone_address top z' mm' o x) by (done || apply H'). rewrite Ebase.
  assert (u64 (m_used_chunks z' + block_size o) = m_used_chunks z + bsz o) as Eu.
  { rewrite block_size_bsz, Eused by lia. apply u64_used. pose proof (bsz_pos o). lia. }
  split; [done|]. split; [|rewrite Eu; done]. constructor; [by apply core_add_used|].
  simpl. rewrite Eu. lia.
Qed.

Lemma deallocate_ok top z mm free o x :
  inv top z mm free -> hole top free o x ->
  exists z' mm' free',
    deallocate_block z mm (m_base_address z + x * ZONE_CHUNK_SIZE) o = Ok (z', mm') /\
    inv top z' mm' free' /\
    (forall c, covered free' c <-> covered free c \/ in_block o x c) /\
    m_base_address z' = m_base_address z /\ m_page_count z' = m_page_count z /\
    m_used_chunks z' = m_used_chunks z - bsz o /\ same_outside z mm mm'.
Proof.
  intros [H Hu] Hh. pose proof (g_top _ _ _ (c_geo _ _ _ _ H)) as Ht.
  pose proof Hh as [Hb _]. pose proof Hb as (Ho & Hx & _).
  destruct (blk_bounds _ _ _ Ht Hb) as [Hr _].
  unfold deallocate_block. rewrite (proj2 (Z.leb_gt 32 o)) by lia.
  assert (i16 (u64 (m_base_address z + x * ZONE_CHUNK_SIZE - m_base_address z) / ZONE_CHUNK_SIZE) = x)
    as ->.
  { unfold ZONE_CHUNK_SIZE, PAGE_SIZE. change (4096 / 2) with 2048.
    replace (m_base_address z + x * 2048 - m_base_address z) with (x * 2048) by lia.
    unfold u64. rewrite wrap_small by (unfold fits; lia). rewrite Z.div_mul by lia.
    apply i16_small. lia. }
  destruct (deallocate_impl_ok top 14 z mm free o x) as (z' & mm' & free' & -> & Hga); [done|done|lia|].
  destruct Hga as [H' Hcov Hsum (Ebase & Epage & Eused) Hout]. cbn [bind].
  pose proof (core_sum_bounds _ _ _ _ H'). pose proof (core_sum_bounds _ _ _ _ H).
  pose proof (bsz_top top Ht). pose proof (bsz_pos o ltac:(lia)).
  assert (u64 (m_used_chunks z' + - block_size o) = m_used_chunks z - bsz o) as Eu.
  { rewrite block_size_bsz, Eused by lia. rewrite u64_used; lia. }
  do 3 eexists. split; [done|]. simpl. rewrite Eu.
  split; [|done]. constructor; [by apply core_add_used|]. simpl. rewrite Eu. lia.
Qed.

(** A zone that is not exhausted has a free block, so a page can be taken. *)
Lemma available_has_block top z mm free :
  inv top z mm free -> is_empty z = false -> exists i o, free !! i = Some o.
Proof.
  intros [H Hu] He. apply Z.eqb_neq in He. unfold available in He.
  pose proof (core_sum_bounds _ _ _ _ H) as Hs. pose proof (pages_bsz _ _ _ (c_geo _ _ _ _ H)) as Hp.
  apply (msum_pos_inv bsz). zdiv.
Qed.

(** When nothing is handed out, every chunk is in a free block. *)
Lemma unused_covered top z mm free c :
  inv top z mm free -> m_used_chunks z = 0 -> 0 <= c < bsz top -> covered free c.
Proof.
  intros [H Hu] H0 Hc.
  destruct (decide (map_Exists (fun i o => i <= c < i + bsz o) free)) as [(i & o & ?)|Hno];
    [by exists i, o|exfalso].
  assert (forall i o, free !! i = Some o -> i + bsz o <= c \/ c + 1 <= i) as Hd.
  { intros i o Hi. assert (~ i <= c < i + bsz o); [|lia]. intros ?. apply Hno. by exists i, o. }
  assert (free !! c = None) as Hn.
  { destruct (free !! c) as [o|] eqn:E; [|done]. pose proof (c_blk _ _ _ _ H c o E) as (? & _).
    pose proof (bsz_pos o ltac:(lia)). destruct (Hd c o E); lia. }
  pose proof (msum_insert bsz free c (-1) Hn) as Hs. change (bsz (-1)) with 1 in Hs.
  enough (msum bsz (<[c := -1]> free) <= bsz top) by lia.
  apply packed_sum; [lia| |].
  - intros i o j o' [[<- <-]|[_ Hi]]%lookup_insert_Some [[<- <-]|[_ Hj]]%lookup_insert_Some Hne;
      [done| | |by apply (c_disj _ _ _ _ H)]; change (bsz (-1)) with 1.
    + destruct (Hd j o' Hj); auto.
    + destruct (Hd i o Hi); auto.
  - intros i o [[<- <-]|[_ Hi]]%lookup_insert_Some; [change (bsz (-1)) with 1; lia|].
    pose proof (c_blk _ _ _ _ H i o Hi) as (? & ? & _ & ?). pose proof (bsz_pos o ltac:(lia)). lia.
Qed.

(** With every chunk free, no free block is smaller than the zone. *)
Lemma covered_all_merged top z mm free :
  core top z mm free -> (forall c, 0 <= c < bsz top -> covered free c) ->
  forall o, 0 <= o -> forall i, free !! i = Some o -> o = top.
Proof.
  intros H Hall. intros o Ho0. pattern o. apply Zlt_0_ind; [clear o Ho0|done].
  intros o IH Ho0 i Hi. pose proof (c_blk _ _ _ _ H i o Hi) as Hb. pose proof Hb as (Ho & Hi0 & Hm & Hle).
  destruct (Z.eq_dec o top) as [|Hne]; [done|exfalso].
  pose proof (bsz_pos o ltac:(lia)). pose proof (blk_pair _ _ _ Hb ltac:(lia)) as Hbp.
  destruct (blk_halves top o (pair_base o i) ltac:(lia) Hbp) as (Hb1 & Hb2 & _).
  pose proof (buddy_block top o i Hb ltac:(lia)) as Hbb.
  destruct (Hall (buddy o i)) as (j & o' & Hj & Hin).
  { destruct Hbb as (_ & ? & _ & ?). lia. }
  pose proof (c_blk _ _ _ _ H j o' Hj) as (Ho' & Hj0 & Hmj & Hlej).
  assert (i <> j) as Hij.
  { intros <-. rewrite Hi in Hj. injection Hj as <-. unfold buddy in Hin.
    destruct (pair_cases o i) as [E|E]; [lia|done| |]; destruct (Z.eqb_spec i (pair_base o i)); lia. }
  destruct (Z.lt_trichotomy o' o) as [Hlt|[->|Hgt]].
  - specialize (IH o' ltac:(lia) j Hj). lia.
  - destruct Hbb as (_ & _ & Hmb & _).
    apply Z.mod_divide in Hmb as [kb Ekb]; [|lia]. apply Z.mod_divide in Hmj as [kj Ekj]; [|lia].
    assert (j = buddy o i) as -> by (assert (kb = kj) by nia; congruence).
    apply (c_pairs _ _ _ _ H i o); unfold buddy in Hj; destruct (pair_cases o i) as [E|E];
      try (lia || done); destruct (Z.eqb_spec i (pair_base o i)); try lia; congruence.
  - destruct (bsz_divide (o + 1) o' ltac:(lia)) as [m Em]. rewrite bsz_succ in Em by lia.
    apply Z.mod_divide in Hmj as [kj Ekj]; [|pose proof (bsz_pos o' ltac:(lia)); lia].
    assert (m * kj = i / (2 * bsz o) \/ m * kj < i / (2 * bsz o) < m * kj + m \/
            i / (2 * bsz o) < m * kj \/ m * kj + m <= i / (2 * bsz o)) as Hcases by lia.
    assert (pair_base o i <= buddy o i < pair_base o i + 2 * bsz o) as Hbr
      by (unfold buddy; destruct (i =? _); lia).
    assert (pair_base o i <= i < pair_base o i + 2 * bsz o) as Hir
      by (destruct (pair_cases o i) as [?|?]; [lia|done|lia|lia]).
    unfold pair_base in Hbr, Hir. set (q := i / (2 * bsz o)) in *.
    assert (m * kj <= q < m * kj + m) by nia.
    destruct (c_disj _ _ _ _ H i o j o' Hi Hj Hij); nia.
Qed.

(** A block none of whose chunks is free is a hole. *)
Lemma uncovered_hole top z mm free o x :
  core top z mm free -> blk top o x -> (forall c, in_block o x c -> ~ covered free c) ->
  hole top free o x.
Proof.
  intros H Hb Hnc. split; [done|]. intros i o' Hi. pose proof Hb as (Ho & _).
  pose proof (c_blk _ _ _ _ H i o' Hi) as (Ho' & _).
  pose proof (bsz_pos o ltac:(lia)). pose proof (bsz_pos o' ltac:(lia)).
  destruct (Z.lt_ge_cases x (i + bsz o')); [|lia].
  destruct (Z.lt_ge_cases i (x + bsz o)); [|lia]. exfalso.
  apply (Hnc (Z.max x i)); [unfold in_block; lia|]. exists i, o'. split; [done|lia].
Qed.

Lemma whole_block top z mm free :
  inv top z mm free -> m_used_chunks z = 0 -> free = {[0 := top]}.
Proof.
  intros H H0. pose proof (i_core _ _ _ _ H) as Hc.
  pose proof (g_top _ _ _ (c_geo _ _ _ _ Hc)) as Ht. pose proof (bsz_pos top ltac:(lia)).
  pose proof (covered_all_merged top z mm free Hc
                (fun c => unused_covered top z mm free c H H0)) as Hall.
  assert (forall i o, free !! i = Some o -> i = 0 /\ o = top) as Honly.
  { intros i o Hi. pose proof (c_blk _ _ _ _ Hc i o Hi) as (Ho & Hi0 & _ & Hle).
    assert (o = top) as -> by (by apply (Hall o ltac:(lia) i)). lia. }
  destruct (unused_covered top z mm free 0 H H0 ltac:(lia)) as (i & o & Hi & _).
  destruct (Honly i o Hi) as [-> ->]. apply map_eq. intros j.
  destruct (decide (j = 0)) as [->|Hne]; [by rewrite lookup_singleton_eq|].
  rewrite lookup_singleton_ne by done. destruct (free !! j) as [o|] eqn:E; [|done].
  by apply Honly in E as [-> _].
Qed.

(** The invariant depends on the page entries only through the entries of the
    free blocks' first pages. *)
Lemma inv_entries top z mm mm' free :
  MM.m_physical_page_entries_count mm' = MM.m_physical_page_entries_count mm ->
  (forall i o, free !! i = Some o -> lk z mm' i = lk z mm i) ->
  inv top z mm free -> inv top z mm' free.
Proof.
  intros Ec Hlk [H Hu]. constructor; [|done]. destruct H as [Hg Hb Hd Hp Hk].
  constructor; try done.
  - destruct Hg. constructor; try done. by rewrite Ec.
  - intros o Ho. eapply bucket_ok_frame; [done| |done|by apply Hk]. intros y. apply Hlk.
Qed.

(** Both chunks of a page are free or neither is. *)
Lemma covered_page top z mm free x :
  core top z mm free -> x mod 2 = 0 -> covered free (x + 1) <-> covered free x.
Proof.
  intros H Hx. unfold covered. split; intros (i & o & Hi & Hc); exists i, o; (split; [done|]);
    pose proof (c_blk _ _ _ _ H i o Hi) as Hb;
    destruct (blk_bounds _ _ _ (g_top _ _ _ (c_geo _ _ _ _ H)) Hb) as [_ Hi2];
    destruct Hb as (Ho & _); unfold bsz in *; rewrite Z.pow_add_r in * by lia;
    change (2 ^ 1) with 2 in *; zdiv.
Qed.

(** The first page of a block is a page of the zone. *)
Lemma blk_page top o x : 0 <= top <= 12 -> blk top o x -> blk top 0 x.
Proof.
  intros Ht Hb. destruct (blk_bounds _ _ _ Ht Hb) as [_ Hx]. destruct Hb as (Ho & Hx0 & _ & Hle).
  pose proof (bsz_divide 0 o ltac:(lia)) as [k Ek]. pose proof (bsz_pos o ltac:(lia)).
  change (bsz 0) with 2 in *. unfold blk. change (bsz 0) with 2. nia || lia.
Qed.

(** ** Construction *)

Lemma order_cases top : 0 <= top <= 12 ->
  top = 0 \/ top = 1 \/ top = 2 \/ top = 3 \/ top = 4 \/ top = 5 \/ top = 6 \/ top = 7 \/
  top = 8 \/ top = 9 \/ top = 10 \/ top = 11 \/ top = 12.
Proof. lia. Qed.

(** A bucket with an empty freelist and no bit set, with a bit for every pair. *)
Definition fresh_bucket (top o : Z) (b : BuddyBucket) : Prop :=
  exists bm, b = bucket o (-1) bm /\ Bitmap.wf bm /\
    (forall j, Bitmap.bit (Bitmap.m_data bm) j = false) /\
    (forall i, blk top o i -> i / (2 * bsz o) < Bitmap.m_size bm).

Lemma make_bucket_ok top o :
  0 <= top <= 12 -> 0 <= o <= 12 ->
  exists b, make_bucket (bsz top) o = Ok b /\ fresh_bucket top o b.
Proof.
  intros Ht Ho. unfold make_bucket. rewrite block_size_bsz by lia.
  pose proof (bsz_pos o ltac:(lia)) as Hpo. pose proof (bsz_pos top ltac:(lia)) as Hpt.
  pose proof (bsz_top top Ht). assert (0 <= bsz top / bsz o) by (apply Z.div_pos; lia).
  assert (bsz top / bsz o <= bsz top) by (apply Z.div_le_upper_bound; nia).
  rewrite ceil_div_spec by lia. set (n := bsz top / bsz o) in *.
  destruct (Z.eqb_spec ((n + 2 - 1) / 2) 0) as [E|E]; cbn [negb].
  - cbn [bind]. eexists. split; [done|]. exists (Bitmap.mk [] 0). split; [done|].
    split; [by split_and!|]. split; [intros j; unfold Bitmap.bit, byte_at; simpl|].
    + destruct (j / 8 <? 0); [apply Z.bits_0|]. destruct (Z.to_nat _); apply Z.bits_0.
    + intros i (Ho' & _). exfalso. destruct (bsz_divide o top ltac:(lia)) as [k Ek].
      assert (n = k) by (unfold n; rewrite Ek; apply Z.div_mul; lia). nia || (assert (1 <= k) by nia; zdiv).
  - destruct (Bitmap.grow_fresh ((n + 2 - 1) / 2)) as (bm & -> & Hwf & Hsz & Hbits).
    { unfold Bitmap.max_size. zdiv. }
    cbn [bind]. eexists. split; [done|]. exists bm. split; [done|]. split; [done|]. split; [done|].
    intros i (Ho' & Hi & Hm & Hle). rewrite Hsz. destruct (bsz_divide o top ltac:(lia)) as [k Ek].
    assert (n = k) as -> by (unfold n; rewrite Ek; apply Z.div_mul; lia).
    apply Z.mod_divide in Hm as [q ->]; [|lia]. apply Z.div_lt_upper_bound; [lia|].
    assert (k <= 2 * ((k + 2 - 1) / 2)) by zdiv.
    set (m := (k + 2 - 1) / 2) in *. nia.
Qed.

Lemma make_buckets_ok top n acc :
  0 <= top <= 12 -> (n <= 13)%nat ->
  exists bs, make_buckets n (bsz top) acc = Ok (bs ++ acc) /\ length bs = n /\
    forall k, (k < n)%nat -> exists b, bs !! k = Some b /\ fresh_bucket top (Z.of_nat k) b.
Proof.
  intros Ht. revert acc. induction n as [|n IH]; intros acc Hn.
  - exists []. split; [done|]. split; [done|]. lia.
  - destruct (make_bucket_ok top (Z.of_nat n)) as (b & Eb & Hb); [done|lia|].
    destruct (IH (b :: acc)) as (bs & E & Hlen & Hbs); [lia|].
    exists (bs ++ [b]). cbn [make_buckets]. rewrite Eb. cbn [bind]. rewrite E, <- app_assoc.
    split; [done|]. split; [rewrite length_app; simpl; lia|]. intros k Hk.
    destruct (decide (k = n)) as [->|].
    + exists b. split; [|done]. rewrite lookup_app_r by lia. by rewrite Hlen, Nat.sub_diag.
    + destruct (Hbs k) as (b' & E' & Hb'); [lia|]. exists b'. split; [|done].
      rewrite lookup_app_l by lia. done.
Qed.

Lemma set_buddy_bit_freelist o c c' bm bm' x v :
  set_buddy_bit (bucket o c bm) x v = Ok (bucket o c bm') ->
  set_buddy_bit (bucket o c' bm) x v = Ok (bucket o c' bm').
Proof.
  unfold set_buddy_bit, buddy_bit_index. simpl. destruct (Bitmap.set bm _ v); simpl; congruence.
Qed.

Lemma first_order_ok top : 0 <= top <= 12 -> count_trailing_zeroes 64 (2 ^ top) = top.
Proof. intros Ht. pose proof (order_cases top Ht). destruct_or! H; subst; vm_compute; done. Qed.

Lemma make_ok top mm base :
  0 <= top <= 12 -> 0 <= base -> base mod PAGE_SIZE = 0 ->
  base + 2 ^ top * PAGE_SIZE < 2 ^ 64 ->
  base / PAGE_SIZE + 2 ^ top <= MM.m_physical_page_entries_count mm ->
  exists z mm', make mm base (2 ^ top) = Ok (z, mm') /\ inv top z mm' {[0 := top]} /\
    m_base_address z = base /\ m_page_count z = 2 ^ top /\ same_outside z mm mm'.
Proof.
  intros Ht Hb Hal Hlim Hent. unfold make. pose proof (bsz_pos top ltac:(lia)) as Hpos.
  replace (2 ^ top * 2) with (bsz top) by (unfold bsz; rewrite Z.pow_add_r; lia).
  destruct (make_buckets_ok top 13 []) as (bs & -> & Hlen & Hbs); [done|lia|]. cbn [bind].
  rewrite app_nil_r, first_order_ok, block_size_bsz by done.
  set (z0 := mk bs base (2 ^ top) 0).
  assert (core top z0 mm ∅) as H0.
  { constructor; try done.
    intros o Ho. destruct (Hbs (Z.to_nat o)) as (b & E & bm & -> & Hwf & Hbits & Hsz); [lia|].
    rewrite Z2Nat.id in * by lia. exists (-1), bm, []. split; [done|]. split; [done|].
    split; [constructor|]. split; [set_solver|]. split; [done|].
    intros i Hi. split; [by apply Hsz|]. by rewrite Hbits. }
  assert (hole top ∅ top 0) as Hh.
  { split; [|done]. unfold blk. rewrite Z.mod_0_l by lia. lia. }
  destruct (c_buckets _ _ _ _ H0 top ltac:(lia)) as (c & bm & l & E & Hch & _ & Hl & Hwf & Hbits).
  assert (c = -1) as ->.
  { destruct l as [|w l]; [done|]. exfalso. assert (w ∈ w :: l) as Hw%Hl by (by left). done. }
  rewrite (get_bucket_ok z0 top _ ltac:(lia) E). cbn [bind]. rewrite Z.div_same by lia.
  destruct (put_step top z0 mm ∅ top 0 (-1) bm H0 Hh E) as (mm1 & mm2 & bm' & Ea & Eset & Es & Hout & H').
  { by rewrite (bit_get top ∅) by (done || apply Hh). }
  injection Ea as <-. change (Z.to_nat 1) with 1%nat. cbn [add_bundles].
  change (i16 (0 + 0)) with 0. rewrite (set_buddy_bit_freelist _ _ _ _ _ _ _ Es). cbn [bind freelist].
  rewrite Eset. cbn [bind]. do 2 eexists. split; [done|]. split; [|done].
  constructor; [exact H'|]. simpl. rewrite <- insert_empty.
  rewrite msum_insert by done. unfold msum. rewrite map_fold_empty. lia.
Qed.

(** ** Properties *)

(** a new zone is well formed and is one free block. *)
Theorem make_one_block (top : Z) (mm : MM.t) (base : Z) :
  0 <= top <= 12 -> 0 <= base -> base mod PAGE_SIZE = 0 ->
  base + 2 ^ top * PAGE_SIZE < 2 ^ 64 ->
  base / PAGE_SIZE + 2 ^ top <= MM.m_physical_page_entries_count mm ->
  exists z mm', make mm base (2 ^ top) = Ok (z, mm') /\ inv top z mm' {[0 := top]} /\
    available z = 2 ^ top.
Proof.
  intros Ht H1 H2 H3 H4. destruct (make_ok top mm base) as (z & mm' & E & Hi & _ & Hp & _); try done.
  exists z, mm'. split; [done|]. split; [done|]. unfold available. rewrite Hp, (i_used _ _ _ _ Hi).
  rewrite <- insert_empty, msum_insert by done. unfold msum. rewrite map_fold_empty.
  replace (bsz top - (bsz top + 0)) with 0 by lia. change (0 / 2) with 0. lia.
Qed.

Lemma make_one_block_witness :
  exists z mm', make (MM.mk 1000 ∅) (100 * 4096) 256 = Ok (z, mm') /\ inv 8 z mm' {[0 := 8]} /\
    available z = 256.
Proof.
  apply (make_one_block 8 (MM.mk 1000 ∅) (100 * 4096));
    [lia|lia|done|unfold PAGE_SIZE; lia|vm_compute; discriminate].
Defined.

(** C1: allocation is exact.  [allocate_block] never fails an assertion or reads
    a dead freelist entry; it returns a naturally aligned block of the zone
    that was entirely free, removes exactly that block from the free chunks
    and touches no page entry outside the zone.  It returns nothing, changing
    nothing, only when every free block is smaller than the request. *)
Theorem allocate_block_exact (top : Z) (z : t) (mm : MM.t) (free : gmap Z Z) (o : Z) :
  inv top z mm free -> 0 <= o < 32 ->
  (exists x z' mm' free',
     allocate_block z mm o = Ok (Some (m_base_address z + x * ZONE_CHUNK_SIZE), z', mm') /\
     inv top z' mm' free' /\ blk top o x /\
     (forall c, in_block o x c -> covered free c) /\
     (forall c, covered free' c <-> covered free c /\ ~ in_block o x c) /\
     m_used_chunks z' = m_used_chunks z + bsz o /\ same_outside z mm mm') \/
  (allocate_block z mm o = Ok (None, z, mm) /\ forall i o', free !! i = Some o' -> o' < o).
Proof.
  intros H Ho.
  destruct (allocate_ok top z mm free o H Ho) as [(x & z' & mm' & f' & ?)|?]; [left|by right].
  exists x, z', mm', f'. tauto.
Qed.

(** A 1 MiB zone at page 100. *)
Definition sample : t * MM.t :=
  match make (MM.mk 1000 ∅) (100 * 4096) 256 with
  | Ok s => s
  | _ => (mk [] 0 0 0, MM.mk 0 ∅)
  end.

Lemma zone_sample_inv : inv 8 (fst sample) (snd sample) {[0 := 8]}.
Proof.
  destruct (make_ok 8 (MM.mk 1000 ∅) (100 * 4096)) as (z & mm' & E & H & _);
    [lia|lia|done|unfold PAGE_SIZE; lia|vm_compute; discriminate|].
  unfold sample. change (2 ^ 8) with 256 in E. rewrite E. exact H.
Qed.

Lemma sample_base : m_base_address (fst sample) = 409600.
Proof. vm_compute. reflexivity. Qed.

Definition address_of (r : outcome (option Z * t * MM.t)) : option Z :=
  match r with Ok (a, _, _) => a | _ => None end.

Lemma sample_half : address_of (allocate_block (fst sample) (snd sample) 7) = Some 933888.
Proof. vm_compute. reflexivity. Qed.

Lemma allocate_block_exact_witness :
  (exists x z' mm' free',
     allocate_block (fst sample) (snd sample) 3 =
       Ok (Some (m_base_address (fst sample) + x * ZONE_CHUNK_SIZE), z', mm') /\
     inv 8 z' mm' free' /\ blk 8 3 x /\
     (forall c, in_block 3 x c -> covered {[0 := 8]} c) /\
     (forall c, covered free' c <-> covered {[0 := 8]} c /\ ~ in_block 3 x c) /\
     m_used_chunks z' = m_used_chunks (fst sample) + bsz 3 /\
     same_outside (fst sample) (snd sample) mm') \/
  (allocate_block (fst sample) (snd sample) 3 = Ok (None, fst sample, snd sample) /\
   forall i o', ({[0 := 8]} : gmap Z Z) !! i = Some o' -> o' < 3).
Proof. apply (allocate_block_exact 8); [apply zone_sample_inv|lia]. Defined.

(** C13: deallocation is exact.  Freeing an aligned block none of whose chunks is
    free succeeds, keeps the invariant (so buddies are merged) and adds exactly
    its chunks to the free ones.  The block need not have been allocated as
    one: the pages of a large block can be freed one by one. *)
Theorem deallocate_block_exact (top : Z) (z : t) (mm : MM.t) (free : gmap Z Z) (o x : Z) :
  inv top z mm free -> blk top o x -> (forall c, in_block o x c -> ~ covered free c) ->
  exists z' mm' free',
    deallocate_block z mm (m_base_address z + x * ZONE_CHUNK_SIZE) o = Ok (z', mm') /\
    inv top z' mm' free' /\
    (forall c, covered free' c <-> covered free c \/ in_block o x c) /\
    m_used_chunks z' = m_used_chunks z - bsz o /\ same_outside z mm mm'.
Proof.
  intros H Hb Hnc. destruct (deallocate_ok top z mm free o x) as (z' & mm' & f' & ?); [done| |].
  - by apply uncovered_hole with (z := z) (mm := mm); [apply H|..].
  - exists z', mm', f'. tauto.
Qed.

Lemma deallocate_block_exact_witness :
  exists z0 mm0 free0, exists z' mm' free',
    deallocate_block z0 mm0 (m_base_address z0 + 256 * ZONE_CHUNK_SIZE) 0 = Ok (z', mm') /\
    inv 8 z' mm' free' /\
    (forall c, covered free' c <-> covered free0 c \/ in_block 0 256 c) /\
    m_used_chunks z' = m_used_chunks z0 - bsz 0 /\ same_outside z0 mm0 mm'.
Proof.
  destruct (allocate_ok 8 (fst sample) (snd sample) {[0 := 8]} 7 zone_sample_inv ltac:(lia))
    as [(x & z0 & mm0 & free0 & E & H & Hb & _ & Hc & _)|[E _]];
    pose proof sample_half as Ea; rewrite E in Ea; [|discriminate Ea].
  assert (x = 256) as ->.
  { cbn [address_of] in Ea. rewrite sample_base in Ea. injection Ea as Ea.
    unfold ZONE_CHUNK_SIZE, PAGE_SIZE in Ea. change (4096 / 2) with 2048 in Ea. lia. }
  exists z0, mm0, free0. apply (deallocate_block_exact 8 z0 mm0 free0 0 256 H).
  - unfold blk. vm_compute. repeat split; discriminate.
  - intros c Hin. rewrite Hc. unfold in_block in *. change (bsz 0) with 2 in Hin.
    change (bsz 7) with 256. lia.
Defined.

(** C33: freeing everything restores the largest block.  When no chunk is in use
    any more, whatever the order of the allocations and deallocations was, the
    whole zone can be allocated as one block. *)
Theorem unused_zone_is_whole (top : Z) (z : t) (mm : MM.t) (free : gmap Z Z) :
  inv top z mm free -> m_used_chunks z = 0 ->
  free = {[0 := top]} /\
  exists z' mm', allocate_block z mm top = Ok (Some (m_base_address z), z', mm').
Proof.
  intros H H0. pose proof (g_top _ _ _ (c_geo _ _ _ _ (i_core _ _ _ _ H))) as Ht.
  pose proof (whole_block top z mm free H H0) as ->. split; [done|].
  destruct (allocate_ok top z mm {[0 := top]} top H ltac:(lia))
    as [(x & z' & mm' & f' & E & _ & Hb & _)|[_ Hno]].
  - exists z', mm'. rewrite E. destruct Hb as (_ & Hx & _ & Hle).
    assert (x = 0) as -> by lia. by rewrite Z.add_0_r.
  - specialize (Hno 0 top (lookup_singleton_eq _ _)). lia.
Qed.

Lemma unused_zone_is_whole_witness :
  ({[0 := 8]} : gmap Z Z) = {[0 := 8]} /\
  exists z' mm', allocate_block (fst sample) (snd sample) 8 =
    Ok (Some (m_base_address (fst sample)), z', mm').
Proof.
  apply (unused_zone_is_whole 8 (fst sample) (snd sample) {[0 := 8]});
    [apply zone_sample_inv|vm_compute; reflexivity].
Defined.

End PhysicalZone.
