(* ===== verification/PhysicalRegion.v ===== *)
(** A range of physical memory, [Kernel/Memory/PhysicalRegion.{h,cpp}]: buddy
    zones of 16 MiB and 1 MiB, with the lists of zones that still have a free
    page and of zones that have none. *)

From S2P Require Import Prelude BitOps Bitmap PageEntries PhysicalZone.

Module PhysicalRegion.

Definition large_zone_size : Z := 16 * MiB.
Definition small_zone_size : Z := 1 * MiB.

Definition next_power_of_two (value : Z) : Z :=
  let value := u32 (value - 1) in
  let value := Z.lor value (Z.shiftr value 1) in
  let value := Z.lor value (Z.shiftr value 2) in
  let value := Z.lor value (Z.shiftr value 4) in
  let value := Z.lor value (Z.shiftr value 8) in
  let value := Z.lor value (Z.shiftr value 16) in
  u32 (value + 1).

(** ** State

    The intrusive lists hold the positions of their zones in [m_zones]. *)
Record t : Type := mk {
  m_zones : list PhysicalZone.t;
  m_large_zones : Z;
  m_usable_zones : list nat;
  m_full_zones : list nat;
  m_lower : Z;
  m_upper : Z;
  m_pages : Z
}.

Definition try_create (lower upper : Z) : t :=
  mk [] 0 [] [] lower upper (u64 (upper - lower) / PAGE_SIZE).

Definition contains (r : t) (paddr : Z) : bool :=
  (m_lower r <=? paddr) && (paddr <? m_upper r).

Definition try_take_pages_from_beginning (r : t) (page_count : Z) : outcome (t * t) :=
  VERIFY (0 <? page_count) ;;
  VERIFY (page_count <? m_pages r) ;;
  let taken_lower := m_lower r in
  let taken_upper := u64 (taken_lower + page_count * PAGE_SIZE) in
  let lower := u64 (m_lower r + page_count * PAGE_SIZE) in
  let r := mk (m_zones r) (m_large_zones r) (m_usable_zones r) (m_full_zones r)
              lower (m_upper r) (u64 (m_upper r - lower) / PAGE_SIZE) in
  Ok (try_create taken_lower taken_upper, r).

(** ** Zones *)

(** [IntrusiveList::append]: the node leaves the list it is in first. *)
Definition remove_node (i : nat) (l : list nat) : list nat := filter (fun j => j <> i) l.

Definition append_usable (r : t) (i : nat) : t :=
  mk (m_zones r) (m_large_zones r) (remove_node i (m_usable_zones r) ++ [i])
     (remove_node i (m_full_zones r)) (m_lower r) (m_upper r) (m_pages r).

Definition append_full (r : t) (i : nat) : t :=
  mk (m_zones r) (m_large_zones r) (remove_node i (m_usable_zones r))
     (remove_node i (m_full_zones r) ++ [i]) (m_lower r) (m_upper r) (m_pages r).

Definition set_zone (r : t) (i : nat) (z : PhysicalZone.t) : t :=
  mk (<[i := z]> (m_zones r)) (m_large_zones r) (m_usable_zones r) (m_full_zones r)
     (m_lower r) (m_upper r) (m_pages r).

Definition add_zone (r : t) (z : PhysicalZone.t) : t :=
  append_usable
    (mk (m_zones r ++ [z]) (m_large_zones r) (m_usable_zones r) (m_full_zones r)
        (m_lower r) (m_upper r) (m_pages r))
    (length (m_zones r)).

(** The [make_zones] loop.  [remaining_pages / pages_per_zone] iterations are
    enough, one more tests the condition. *)
Fixpoint make_zones (fuel : nat) (r : t) (mm : MM.t) (pages_per_zone : Z)
    (remaining_pages base_address zone_count : Z) : outcome (t * MM.t * Z * Z * Z) :=
  match fuel with
  | O => Undefined
  | S fuel =>
    if pages_per_zone <=? remaining_pages then
      let! (zone, mm) := PhysicalZone.make mm base_address pages_per_zone in
      make_zones fuel (add_zone r zone) mm pages_per_zone (remaining_pages - pages_per_zone)
        (u64 (base_address + pages_per_zone * PAGE_SIZE)) (zone_count + 1)
    else Ok (r, mm, remaining_pages, base_address, zone_count)
  end.

Definition initialize_zones (r : t) (mm : MM.t) : outcome (t * MM.t) :=
  let pages_per_large := large_zone_size / PAGE_SIZE in
  let! (r, mm, remaining_pages, base_address, large) :=
    make_zones (S (Z.to_nat (m_pages r / pages_per_large))) r mm pages_per_large
      (m_pages r) (m_lower r) 0 in
  let r := mk (m_zones r) large (m_usable_zones r) (m_full_zones r)
              (m_lower r) (m_upper r) (m_pages r) in
  let pages_per_small := small_zone_size / PAGE_SIZE in
  let! (r, mm, _, _, _) :=
    make_zones (S (Z.to_nat (remaining_pages / pages_per_small))) r mm pages_per_small
      remaining_pages base_address 0 in
  Ok (r, mm).

(** ** Pages *)

Definition take_free_page (r : t) (mm : MM.t) : outcome (option Z * t * MM.t) :=
  match m_usable_zones r with
  | [] => Ok (None, r, mm)
  | i :: _ =>
    match m_zones r !! i with
    | None => Undefined
    | Some zone =>
      let! (page, zone, mm) := PhysicalZone.allocate_block zone mm 0 in
      match page with
      | None => Panic
      | Some page =>
        let r := set_zone r i zone in
        let r := if PhysicalZone.is_empty zone then append_full r i else r in
        let! mm := MM.create_page mm page in
        Ok (Some page, r, mm)
      end
    end
  end.

(** The search of [take_contiguous_free_pages] through the usable zones. *)
Fixpoint allocate_in_zones (l : list nat) (r : t) (mm : MM.t) (order : Z)
    : outcome (option Z * t * MM.t) :=
  match l with
  | [] => Ok (None, r, mm)
  | i :: l =>
    match m_zones r !! i with
    | None => Undefined
    | Some zone =>
      let! (page_base, zone, mm) := PhysicalZone.allocate_block zone mm order in
      let r := set_zone r i zone in
      match page_base with
      | Some page_base =>
        let r := if PhysicalZone.is_empty zone then append_full r i else r in
        Ok (Some page_base, r, mm)
      | None => allocate_in_zones l r mm order
      end
    end
  end.

Fixpoint create_pages (n : nat) (mm : MM.t) (page_base i : Z) : outcome (list Z * MM.t) :=
  match n with
  | O => Ok ([], mm)
  | S n =>
    let paddr := u64 (page_base + i * PAGE_SIZE) in
    let! mm := MM.create_page mm paddr in
    let! (pages, mm) := create_pages n mm page_base (i + 1) in
    Ok (paddr :: pages, mm)
  end.

Definition take_contiguous_free_pages (r : t) (mm : MM.t) (count : Z)
    : outcome (list Z * t * MM.t) :=
  let rounded_page_count := next_power_of_two (u32 count) in
  if rounded_page_count =? 0 then Undefined else
  let order := count_trailing_zeroes 32 rounded_page_count in
  let! (page_base, r, mm) := allocate_in_zones (m_usable_zones r) r mm order in
  match page_base with
  | None => Ok ([], r, mm)
  | Some page_base =>
    let! (physical_pages, mm) := create_pages (Z.to_nat count) mm page_base 0 in
    Ok (physical_pages, r, mm)
  end.

Definition return_page (r : t) (mm : MM.t) (paddr : Z) : outcome (t * MM.t) :=
  let large_zone_base := m_lower r in
  let small_zone_base := u64 (m_lower r + m_large_zones r * large_zone_size) in
  let zone_index :=
    if paddr <? small_zone_base then u64 (paddr - large_zone_base) / large_zone_size
    else u64 (m_large_zones r + u64 (paddr - small_zone_base) / small_zone_size) in
  match m_zones r !! Z.to_nat zone_index with
  | None => Panic
  | Some zone =>
    VERIFY (PhysicalZone.contains zone paddr) ;;
    let! (zone, mm) := PhysicalZone.deallocate_block zone mm paddr 0 in
    let i := Z.to_nat zone_index in
    let r := set_zone r i zone in
    Ok (if bool_decide (i ∈ m_full_zones r) then append_usable r i else r, mm)
  end.

(** ** Rounding to a power of two *)

(** [y] has the bits of [x] smeared over the [w] places below each of them. *)
Definition smeared (x y w : Z) : Prop :=
  0 <= y /\ forall j, 0 <= j ->
    Z.testbit y j = true <-> exists d, 0 <= d < w /\ Z.testbit x (j + d) = true.

Lemma smear_step x y w :
  0 <= w -> smeared x y w -> smeared x (Z.lor y (Z.shiftr y w)) (2 * w).
Proof.
  intros Hw [Hy H]. split; [apply Z.lor_nonneg; split; [done|by apply Z.shiftr_nonneg]|].
  intros j Hj. rewrite Z.lor_spec, Z.shiftr_spec, orb_true_iff, !H by lia. split.
  - intros [(d & Hd & Hb)|(d & Hd & Hb)]; [exists d|exists (w + d)]; split; try lia; [done|].
    by rewrite Z.add_assoc.
  - intros (d & Hd & Hb). destruct (Z.lt_ge_cases d w); [left; exists d|right; exists (d - w)].
    + split; [lia|done].
    + split; [lia|]. by replace (j + w + (d - w)) with (j + d) by lia.
Qed.

Lemma next_power_of_two_spec v :
  1 <= v <= 2 ^ 31 -> next_power_of_two v = 2 ^ Z.log2_up v.
Proof.
  intros Hv. unfold next_power_of_two.
  rewrite (wrap_small 32 (v - 1) ltac:(unfold fits; lia) : u32 (v - 1) = v - 1).
  destruct (Z.eq_dec v 1) as [->|Hne]; [done|].
  set (x := v - 1). assert (smeared x x 1) as H0.
  { split; [lia|]. intros j Hj. split; [intros; exists 0; rewrite Z.add_0_r; split; [lia|done]|].
    intros (d & Hd & Hb). by replace d with 0 in Hb by lia; rewrite Z.add_0_r in Hb. }
  apply (smear_step x _ 1) in H0; [|lia]. apply (smear_step x _ 2) in H0; [|lia].
  apply (smear_step x _ 4) in H0; [|lia]. apply (smear_step x _ 8) in H0; [|lia].
  apply (smear_step x _ 16) in H0; [|lia]. cbv zeta. change (2 * 16) with 32 in H0.
  match type of H0 with smeared _ ?v _ => generalize dependent v end.
  intros y [Hy0 Hy].
  assert (0 <= Z.log2 x <= 30) as Hlog.
  { split; [apply Z.log2_nonneg|]. assert (Z.log2 x < 31); [|lia].
    apply Z.log2_lt_pow2; unfold x; lia. }
  assert (y = Z.ones (Z.log2 x + 1)) as ->.
  { apply Z.bits_inj'. intros j Hj. destruct (Z.lt_ge_cases j (Z.log2 x + 1)) as [Hlt|Hge].
    - rewrite Z.ones_spec_low by lia. apply Hy; [done|]. exists (Z.log2 x - j).
      split; [lia|]. replace (j + (Z.log2 x - j)) with (Z.log2 x) by lia.
      apply Z.bit_log2. unfold x. lia.
    - rewrite Z.ones_spec_high by lia. apply not_true_iff_false. rewrite Hy by done.
      intros (d & Hd & Hb). rewrite Z.bits_above_log2 in Hb by (unfold x in *; lia). done. }
  rewrite Z.ones_equiv. replace (Z.pred (2 ^ (Z.log2 x + 1)) + 1) with (2 ^ (Z.log2 x + 1)) by lia.
  unfold u32. rewrite wrap_small.
  - f_equal. rewrite Z.log2_up_eqn by lia. unfold x. replace (Z.pred v) with (v - 1) by lia. lia.
  - unfold fits. split; [apply Z.pow_nonneg; lia|]. apply Z.pow_lt_mono_r; lia.
Qed.

(** ** The invariant *)

(** Order and base address of the [i]th zone when the first [L] are large. *)
Definition top_at (L : Z) (i : nat) : Z := if Z.of_nat i <? L then 12 else 8.
Definition size_at (L : Z) (i : nat) : Z :=
  if Z.of_nat i <? L then large_zone_size else small_zone_size.
Definition base_at (lower L : Z) (i : nat) : Z :=
  if Z.of_nat i <? L then lower + Z.of_nat i * large_zone_size
  else lower + L * large_zone_size + (Z.of_nat i - L) * small_zone_size.

Definition zone_top (r : t) (i : nat) : Z := top_at (m_large_zones r) i.
Definition zone_base (r : t) (i : nat) : Z := base_at (m_lower r) (m_large_zones r) i.

(** Every zone is a well-formed buddy zone at its place in the region. *)
Definition zones_at (L : Z) (r : t) (mm : MM.t) (fs : list (gmap Z Z)) : Prop :=
  length fs = length (m_zones r) /\
  forall i z f, m_zones r !! i = Some z -> fs !! i = Some f ->
    PhysicalZone.inv (top_at L i) z mm f /\
    PhysicalZone.m_base_address z = base_at (m_lower r) L i.

Definition zones_ok (r : t) (mm : MM.t) (fs : list (gmap Z Z)) : Prop :=
  zones_at (m_large_zones r) r mm fs.

(** The usable zones are those with a free page, the full ones those without. *)
Definition lists_ok (r : t) : Prop :=
  (forall i, i ∈ m_usable_zones r <->
     exists z, m_zones r !! i = Some z /\ PhysicalZone.is_empty z = false) /\
  (forall i, i ∈ m_full_zones r <->
     exists z, m_zones r !! i = Some z /\ PhysicalZone.is_empty z = true).

Record inv (r : t) (mm : MM.t) (fs : list (gmap Z Z)) : Prop := {
  r_zones : zones_ok r mm fs;
  r_lists : lists_ok r;
  r_large : 0 <= m_large_zones r <= len (m_zones r);
  r_limit : 0 <= m_lower r /\
    m_lower r + m_large_zones r * large_zone_size +
    (len (m_zones r) - m_large_zones r) * small_zone_size < 2 ^ 64;
}.

(** The address of the page at chunk [x] of a zone. *)
Definition page_address (z : PhysicalZone.t) (x : Z) : Z :=
  PhysicalZone.m_base_address z + x * PhysicalZone.ZONE_CHUNK_SIZE.

(** A page of the region, by zone and chunk. *)
Definition is_page (r : t) (i : nat) (z : PhysicalZone.t) (x paddr : Z) : Prop :=
  m_zones r !! i = Some z /\ PhysicalZone.blk (zone_top r i) 0 x /\ paddr = page_address z x.

Definition page_free (r : t) (fs : list (gmap Z Z)) (paddr : Z) : Prop :=
  exists i z f x, is_page r i z x paddr /\ fs !! i = Some f /\ PhysicalZone.covered f x.

Lemma chunk_size_eq : PhysicalZone.ZONE_CHUNK_SIZE = 2048.
Proof. done. Qed.

Lemma zone_lookup r mm fs i z :
  zones_ok r mm fs -> m_zones r !! i = Some z -> exists f, fs !! i = Some f.
Proof.
  intros [Hlen _] Hz. apply lookup_lt_Some in Hz. rewrite <- Hlen in Hz.
  by apply lookup_lt_is_Some_2 in Hz.
Qed.

Lemma zone_geometry r mm fs i z :
  zones_ok r mm fs -> m_zones r !! i = Some z ->
  PhysicalZone.geometry (zone_top r i) z mm.
Proof.
  intros H Hz. destruct (zone_lookup _ _ _ _ _ H Hz) as [f Hf].
  destruct H as [_ H]. destruct (H i z f Hz Hf) as [Hi _]. apply Hi.
Qed.

Lemma zone_range r mm fs i z x o :
  zones_ok r mm fs -> m_zones r !! i = Some z -> PhysicalZone.blk (zone_top r i) o x ->
  zone_base r i <= page_address z x /\
  page_address z x + PhysicalZone.bsz o * 2048 <= zone_base r i + size_at (m_large_zones r) i.
Proof.
  intros H Hz (Ho & Hx & _ & Hle). destruct (zone_lookup _ _ _ _ _ H Hz) as [f Hf].
  destruct H as [_ H]. destruct (H i z f Hz Hf) as [_ Hb]. unfold page_address.
  rewrite chunk_size_eq, Hb. unfold zone_base, zone_top, top_at, size_at in *.
  destruct (Z.of_nat i <? m_large_zones r); split; try lia.
  - change (PhysicalZone.bsz 12) with 8192 in Hle. unfold large_zone_size, MiB. lia.
  - change (PhysicalZone.bsz 8) with 512 in Hle. unfold small_zone_size, MiB. lia.
Qed.

(** The zones follow each other without overlap. *)
Lemma zone_order lower L i j :
  0 <= L -> (i < j)%nat -> base_at lower L i + size_at L i <= base_at lower L j.
Proof.
  intros HL Hij. unfold base_at, size_at.
  destruct (Z.ltb_spec (Z.of_nat i) L), (Z.ltb_spec (Z.of_nat j) L);
    unfold large_zone_size, small_zone_size, MiB; lia.
Qed.

Lemma zones_apart r mm fs i j z z' x o x' o' :
  zones_ok r mm fs -> 0 <= m_large_zones r -> i <> j ->
  m_zones r !! i = Some z -> PhysicalZone.blk (zone_top r i) o x ->
  m_zones r !! j = Some z' -> PhysicalZone.blk (zone_top r j) o' x' ->
  page_address z x + PhysicalZone.bsz o * 2048 <= page_address z' x' \/
  page_address z' x' + PhysicalZone.bsz o' * 2048 <= page_address z x.
Proof.
  intros H HL Hne Hz Hb Hz' Hb'.
  pose proof (zone_range _ _ _ _ _ _ _ H Hz Hb). pose proof (zone_range _ _ _ _ _ _ _ H Hz' Hb').
  assert (i < j \/ j < i)%nat as [Hij|Hij] by lia.
  - pose proof (zone_order (m_lower r) _ i j HL Hij). unfold zone_base in *. lia.
  - pose proof (zone_order (m_lower r) _ j i HL Hij). unfold zone_base in *. lia.
Qed.

(** ** One zone changes *)

(** Zones at two places have no page in common. *)
Lemma pages_apart lower L i j z z' mm mm' :
  0 <= L -> i <> j ->
  PhysicalZone.geometry (top_at L i) z mm -> PhysicalZone.m_base_address z = base_at lower L i ->
  PhysicalZone.geometry (top_at L j) z' mm' -> PhysicalZone.m_base_address z' = base_at lower L j ->
  PhysicalZone.page z 0 + PhysicalZone.m_page_count z <= PhysicalZone.page z' 0 \/
  PhysicalZone.page z' 0 + PhysicalZone.m_page_count z' <= PhysicalZone.page z 0.
Proof.
  intros HL Hne G B G' B'.
  pose proof (PhysicalZone.g_base _ _ _ G) as [_ M]. pose proof (PhysicalZone.g_base _ _ _ G') as [_ M'].
  assert (forall k zk mk, PhysicalZone.geometry (top_at L k) zk mk ->
            PhysicalZone.m_page_count zk * PAGE_SIZE = size_at L k) as Hsize.
  { intros k zk mk Gk. rewrite (PhysicalZone.g_pages _ _ _ Gk). unfold top_at, size_at.
    by destruct (Z.of_nat k <? L). }
  pose proof (Hsize _ _ _ G). pose proof (Hsize _ _ _ G').
  assert (i < j \/ j < i)%nat as [Hij|Hij] by lia; pose proof (zone_order lower L _ _ HL Hij);
    [left|right]; unfold PhysicalZone.page, PAGE_SIZE in *; zdiv.
Qed.

Lemma zones_ok_set r mm fs i z f z' mm' f' :
  zones_ok r mm fs -> 0 <= m_large_zones r ->
  m_zones r !! i = Some z -> fs !! i = Some f ->
  PhysicalZone.inv (zone_top r i) z' mm' f' ->
  PhysicalZone.m_base_address z' = PhysicalZone.m_base_address z ->
  PhysicalZone.same_outside z mm mm' ->
  zones_ok (set_zone r i z') mm' (<[i := f']> fs).
Proof.
  intros H HL Hz Hf Hi' Hb [Ec Hout]. pose proof H as [Hlen Hok].
  assert (i < length (m_zones r))%nat as Hlt by (by eapply lookup_lt_Some).
  split; [simpl; by rewrite !length_insert|]. intros j zj fj. simpl.
  destruct (decide (j = i)) as [->|Hne].
  - rewrite !list_lookup_insert_eq by lia. intros [= <-] [= <-]. split; [done|].
    rewrite Hb. by apply (Hok i z f).
  - rewrite !list_lookup_insert_ne by done. intros Hzj Hfj. destruct (Hok j zj fj Hzj Hfj) as [Hij Hbj].
    split; [|done]. eapply PhysicalZone.inv_entries; [done| |done].
    intros y o Hy. unfold PhysicalZone.lk. apply Hout.
    pose proof (PhysicalZone.core_slot _ _ _ _ _ _ (PhysicalZone.i_core _ _ _ _ Hij) Hy) as [Hy2 _].
    destruct (Hok i z f Hz Hf) as [Hi Hbi].
    pose proof (pages_apart (m_lower r) (m_large_zones r) i j z zj mm mm HL ltac:(congruence)
                  ltac:(apply Hi) Hbi ltac:(apply Hij) Hbj).
    unfold PhysicalZone.page in *. zdiv.
Qed.

(** A page that is not free becomes a live page object. *)
Lemma create_page_ok r mm fs i z x paddr :
  zones_ok r mm fs -> is_page r i z x paddr -> ~ page_free r fs paddr ->
  exists mm', MM.create_page mm paddr = Ok mm' /\ zones_ok r mm' fs.
Proof.
  intros H (Hz & Hb & ->) Hnf. pose proof (zone_geometry _ _ _ _ _ H Hz) as G.
  pose proof (PhysicalZone.blk_slot _ _ _ _ _ G Hb) as Hs.
  destruct (PhysicalZone.entry_index _ _ _ _ G Hs) as [E Hlt].
  unfold PhysicalZone.entry_address in E. rewrite (PhysicalZone.zone_address _ _ _ _ _ G Hb) in E.
  unfold MM.create_page. unfold page_address in *. rewrite E, (proj2 (Z.ltb_lt _ _) Hlt).
  eexists. split; [done|]. pose proof H as [Hlen Hok]. split; [done|].
  intros j zj fj Hzj Hfj. destruct (Hok j zj fj Hzj Hfj) as [Hij Hbj]. split; [|done].
  apply (PhysicalZone.inv_entries _ _ mm); [done| |done].
  intros y o Hy. unfold PhysicalZone.lk. simpl. apply lookup_delete_ne. intros Epage.
  pose proof (PhysicalZone.i_core _ _ _ _ Hij) as Hcj.
  pose proof (PhysicalZone.c_geo _ _ _ _ Hcj) as Gj. pose proof (PhysicalZone.g_top _ _ _ Gj) as Tj.
  pose proof (PhysicalZone.c_blk _ _ _ _ Hcj _ _ Hy) as Hby.
  apply Hnf. exists j, zj, fj, y. split; [split; [done|split]|split; [done|]].
  - by eapply PhysicalZone.blk_page.
  - destruct Hs as [_ Hs]. pose proof (PhysicalZone.core_slot _ _ _ _ _ _ Hcj Hy) as [_ Hys].
    destruct (PhysicalZone.g_base _ _ _ G) as [_ M]. destruct (PhysicalZone.g_base _ _ _ Gj) as [_ M'].
    unfold page_address, PhysicalZone.page in *. rewrite chunk_size_eq. unfold PAGE_SIZE in *. zdiv.
  - exists y, o. split; [done|]. destruct Hby as (? & _). pose proof (PhysicalZone.bsz_pos o). lia.
Qed.

(** Free pages of the region after a block was taken from one of its zones. *)
Lemma page_free_taken r mm fs i z f z' f' o x q :
  zones_ok r mm fs -> 0 <= m_large_zones r ->
  m_zones r !! i = Some z -> fs !! i = Some f -> PhysicalZone.blk (zone_top r i) o x ->
  PhysicalZone.m_base_address z' = PhysicalZone.m_base_address z ->
  (forall c, PhysicalZone.covered f' c <-> PhysicalZone.covered f c /\ ~ PhysicalZone.in_block o x c) ->
  page_free (set_zone r i z') (<[i := f']> fs) q <->
  page_free r fs q /\ ~ page_address z x <= q < page_address z x + PhysicalZone.bsz o * 2048.
Proof.
  intros H HL Hz Hf Hb Ebase Hc. pose proof H as [Hlen _].
  assert (i < length (m_zones r))%nat as Hlt by (by eapply lookup_lt_Some).
  assert (forall j zj y, is_page r j zj y q -> j <> i ->
            ~ page_address z x <= q < page_address z x + PhysicalZone.bsz o * 2048) as Hother.
  { intros j zj y (Hzj & Hby & ->) Hne.
    pose proof (zones_apart r mm fs i j z zj x o y 0 H HL ltac:(congruence) Hz Hb Hzj Hby).
    change (PhysicalZone.bsz 0) with 2 in *. lia. }
  assert (forall y, q = page_address z y ->
            page_address z x <= q < page_address z x + PhysicalZone.bsz o * 2048 <->
            PhysicalZone.in_block o x y) as Hsame.
  { intros y ->. unfold page_address, PhysicalZone.in_block. rewrite chunk_size_eq. lia. }
  split.
  - intros (j & zj & fj & y & (Hzj & Hby & Eq) & Hfj & Hcov). simpl in Hzj.
    destruct (decide (j = i)) as [->|Hne].
    + rewrite list_lookup_insert_eq in Hzj by lia. rewrite list_lookup_insert_eq in Hfj by lia. injection Hzj as <-. injection Hfj as <-.
      assert (q = page_address z y) as Eq' by (unfold page_address in *; by rewrite <- Ebase).
      rewrite (Hsame y Eq'). apply Hc in Hcov as [Hcov Hn]. split; [|done].
      by exists i, z, f, y.
    + rewrite list_lookup_insert_ne in Hzj by done. rewrite list_lookup_insert_ne in Hfj by done.
      assert (is_page r j zj y q) as Hp by done. split; [by exists j, zj, fj, y|by eapply Hother].
  - intros [(j & zj & fj & y & (Hzj & Hby & Eq) & Hfj & Hcov) Hn].
    destruct (decide (j = i)) as [->|Hne].
    + rewrite Hz in Hzj. injection Hzj as <-. rewrite Hf in Hfj. injection Hfj as <-.
      rewrite (Hsame y Eq) in Hn. exists i, z', f', y.
      split; [split; [|split; [done|by unfold page_address; rewrite Ebase]]|].
      * simpl. by rewrite list_lookup_insert_eq by lia.
      * rewrite list_lookup_insert_eq by lia. split; [done|]. by apply Hc.
    + exists j, zj, fj, y. unfold is_page. simpl. by rewrite !list_lookup_insert_ne by done.
Qed.

(** The same after a page was given back. *)
Lemma page_free_given r mm fs i z f z' f' x q :
  zones_ok r mm fs ->
  m_zones r !! i = Some z -> fs !! i = Some f -> PhysicalZone.blk (zone_top r i) 0 x ->
  PhysicalZone.m_base_address z' = PhysicalZone.m_base_address z ->
  (forall c, PhysicalZone.covered f' c <-> PhysicalZone.covered f c \/ PhysicalZone.in_block 0 x c) ->
  page_free (set_zone r i z') (<[i := f']> fs) q <-> page_free r fs q \/ q = page_address z x.
Proof.
  intros H Hz Hf Hb Ebase Hc. pose proof H as [Hlen _].
  assert (i < length (m_zones r))%nat as Hlt by (by eapply lookup_lt_Some).
  pose proof (PhysicalZone.g_top _ _ _ (zone_geometry _ _ _ _ _ H Hz)) as Ht.
  split.
  - intros (j & zj & fj & y & (Hzj & Hby & Eq) & Hfj & Hcov). simpl in Hzj.
    destruct (decide (j = i)) as [->|Hne].
    + rewrite list_lookup_insert_eq in Hzj by lia. rewrite list_lookup_insert_eq in Hfj by lia. injection Hzj as <-. injection Hfj as <-.
      assert (q = page_address z y) as Eq' by (unfold page_address in *; by rewrite <- Ebase).
      apply Hc in Hcov as [Hcov|Hin]; [left; by exists i, z, f, y|right].
      destruct (PhysicalZone.blk_bounds _ _ _ Ht Hb) as [_ Hx].
      destruct (PhysicalZone.blk_bounds _ _ _ Ht Hby) as [_ Hy].
      unfold PhysicalZone.in_block in Hin. change (PhysicalZone.bsz 0) with 2 in Hin.
      rewrite Eq'. f_equal. zdiv.
    + rewrite list_lookup_insert_ne in Hzj by done. rewrite list_lookup_insert_ne in Hfj by done. left. by exists j, zj, fj, y.
  - intros [(j & zj & fj & y & (Hzj & Hby & Eq) & Hfj & Hcov)|Eq].
    + destruct (decide (j = i)) as [->|Hne].
      * rewrite Hz in Hzj. injection Hzj as <-. rewrite Hf in Hfj. injection Hfj as <-.
        exists i, z', f', y. unfold is_page, page_address. simpl. rewrite Ebase.
        rewrite !list_lookup_insert_eq by lia. split_and!; try done. apply Hc. by left.
      * exists j, zj, fj, y. unfold is_page. simpl. by rewrite !list_lookup_insert_ne by done.
    + exists i, z', f', x. unfold is_page, page_address. simpl. rewrite Ebase.
      rewrite !list_lookup_insert_eq by lia. split_and!; try done. apply Hc. right.
      unfold PhysicalZone.in_block. change (PhysicalZone.bsz 0) with 2. lia.
Qed.

Lemma elem_of_remove_node i j l : j ∈ remove_node i l <-> j ∈ l /\ j <> i.
Proof. unfold remove_node. rewrite list_elem_of_filter. tauto. Qed.

(** Looking zones up after one was replaced. *)
Lemma set_zone_lookup r i z z' (P : PhysicalZone.t -> Prop) j :
  m_zones r !! i = Some z ->
  (exists y, m_zones (set_zone r i z') !! j = Some y /\ P y) <->
  (if decide (j = i) then P z' else exists y, m_zones r !! j = Some y /\ P y).
Proof.
  intros Hz. assert (i < length (m_zones r))%nat by (by eapply lookup_lt_Some).
  destruct (decide (j = i)) as [->|Hne]; simpl.
  - rewrite list_lookup_insert_eq by lia. naive_solver.
  - by rewrite list_lookup_insert_ne by done.
Qed.

Lemma lists_taken r i z z' :
  lists_ok r -> m_zones r !! i = Some z -> PhysicalZone.is_empty z = false ->
  lists_ok (if PhysicalZone.is_empty z' then append_full (set_zone r i z') i else set_zone r i z').
Proof.
  intros [Hu Hf] Hz He.
  assert (i ∈ m_usable_zones r) by (apply Hu; eauto).
  assert (i ∉ m_full_zones r) by (rewrite Hf; naive_solver congruence).
  destruct (PhysicalZone.is_empty z') eqn:E; split; intros j; simpl;
    rewrite ?elem_of_app, ?elem_of_remove_node, ?list_elem_of_singleton;
    rewrite (set_zone_lookup r i z z' (fun y => PhysicalZone.is_empty y = _) j Hz);
    rewrite ?Hu, ?Hf; destruct (decide (j = i)) as [->|]; naive_solver congruence.
Qed.

Lemma lists_given r i z z' :
  lists_ok r -> m_zones r !! i = Some z -> PhysicalZone.is_empty z' = false ->
  lists_ok (if bool_decide (i ∈ m_full_zones r) then append_usable (set_zone r i z') i
            else set_zone r i z').
Proof.
  intros [Hu Hf] Hz E.
  assert (i ∈ m_usable_zones r <-> i ∉ m_full_zones r) as Hx.
  { rewrite Hu, Hf, Hz. destruct (PhysicalZone.is_empty z) eqn:Ez; naive_solver congruence. }
  case_bool_decide; split; intros j; simpl;
    rewrite ?elem_of_app, ?elem_of_remove_node, ?list_elem_of_singleton;
    rewrite (set_zone_lookup r i z z' (fun y => PhysicalZone.is_empty y = _) j Hz);
    destruct (decide (j = i)) as [->|]; rewrite ?Hu, ?Hf in *; naive_solver congruence.
Qed.

Lemma inv_lists r mm fs r' mm' fs' :
  inv r mm fs -> zones_ok r' mm' fs' -> lists_ok r' ->
  m_large_zones r' = m_large_zones r -> length (m_zones r') = length (m_zones r) ->
  m_lower r' = m_lower r -> inv r' mm' fs'.
Proof.
  intros [_ _ HL Hlim] Hz Hl E1 E2 E3. constructor; [done|done| |]; unfold len in *; by rewrite ?E1, ?E2, ?E3.
Qed.

(** ** Taking and returning pages *)

Lemma page_aligned r mm fs i z x q :
  zones_ok r mm fs -> is_page r i z x q -> q mod PAGE_SIZE = 0.
Proof.
  intros H (Hz & Hb & ->). pose proof (zone_geometry _ _ _ _ _ H Hz) as G.
  destruct (PhysicalZone.blk_bounds _ _ _ (PhysicalZone.g_top _ _ _ G) Hb) as [_ Hx].
  destruct (PhysicalZone.g_base _ _ _ G) as [_ M].
  unfold page_address. rewrite chunk_size_eq. unfold PAGE_SIZE in *. zdiv.
Qed.

(** A page's address range holds no other page. *)
Lemma page_in_range r mm fs i z x a q :
  zones_ok r mm fs -> is_page r i z x a -> page_free r fs q ->
  a <= q < a + 2 * 2048 <-> q = a.
Proof.
  intros H Ha (j & zj & fj & y & Hq & _). pose proof (page_aligned _ _ _ _ _ _ _ H Ha).
  pose proof (page_aligned _ _ _ _ _ _ _ H Hq). unfold PAGE_SIZE in *. zdiv.
Qed.

Lemma zone_split r mm fs i z :
  zones_ok r mm fs -> m_zones r !! i = Some z ->
  exists f, fs !! i = Some f /\ PhysicalZone.inv (zone_top r i) z mm f.
Proof.
  intros H Hz. destruct (zone_lookup _ _ _ _ _ H Hz) as [f Hf]. exists f. split; [done|].
  by apply (proj2 H i z f).
Qed.

(** A block of order [o] was taken from the non-exhausted zone [i]. *)
Lemma taken_inv r mm fs i z f z' mm' f' o x :
  inv r mm fs -> m_zones r !! i = Some z -> PhysicalZone.is_empty z = false -> fs !! i = Some f ->
  PhysicalZone.inv (zone_top r i) z' mm' f' -> PhysicalZone.blk (zone_top r i) o x ->
  PhysicalZone.m_base_address z' = PhysicalZone.m_base_address z ->
  PhysicalZone.same_outside z mm mm' ->
  (forall c, PhysicalZone.covered f' c <-> PhysicalZone.covered f c /\ ~ PhysicalZone.in_block o x c) ->
  let r' := if PhysicalZone.is_empty z' then append_full (set_zone r i z') i else set_zone r i z' in
  inv r' mm' (<[i := f']> fs) /\ m_zones r' !! i = Some z' /\
  m_large_zones r' = m_large_zones r /\
  forall q, page_free r' (<[i := f']> fs) q <-> page_free r fs q /\
    ~ page_address z x <= q < page_address z x + PhysicalZone.bsz o * 2048.
Proof.
  intros H Hz He Hf Hi' Hb Eb Hout Hc r'. pose proof (r_large _ _ _ H) as HL.
  assert (i < length (m_zones r))%nat as Hlt by (by eapply lookup_lt_Some).
  assert (zones_ok (set_zone r i z') mm' (<[i := f']> fs)) as Hzs
    by (eapply zones_ok_set; eauto; [apply H|lia]).
  split; [|split; [|split]].
  - apply (inv_lists r mm fs); [done| |by eapply lists_taken; [apply H|..]| | |];
      unfold r'; destruct (PhysicalZone.is_empty z'); simpl; rewrite ?length_insert; done.
  - unfold r'. destruct (PhysicalZone.is_empty z'); simpl; by rewrite list_lookup_insert_eq.
  - unfold r'. by destruct (PhysicalZone.is_empty z').
  - intros q. rewrite <- (page_free_taken r mm fs i z f z' f') by (done || apply H || lia).
    unfold r'. by destruct (PhysicalZone.is_empty z').
Qed.

Lemma create_page_inv r mm fs i z x paddr :
  inv r mm fs -> is_page r i z x paddr -> ~ page_free r fs paddr ->
  exists mm', MM.create_page mm paddr = Ok mm' /\ inv r mm' fs.
Proof.
  intros H Hp Hnf. destruct (create_page_ok r mm fs i z x paddr) as (mm' & E & Hz);
    [apply H|done|done|]. exists mm'. split; [done|]. destruct H. by constructor.
Qed.

Lemma take_page_ok r mm fs :
  inv r mm fs ->
  (take_free_page r mm = Ok (None, r, mm) /\
   forall i z, m_zones r !! i = Some z -> PhysicalZone.available z = 0) \/
  (exists paddr r' mm' fs', take_free_page r mm = Ok (Some paddr, r', mm') /\ inv r' mm' fs' /\
     page_free r fs paddr /\ (exists i z x, is_page r' i z x paddr) /\
     forall q, page_free r' fs' q <-> page_free r fs q /\ q <> paddr).
Proof.
  intros H. pose proof (r_zones _ _ _ H) as Hzs. destruct (r_lists _ _ _ H) as [Hu _].
  unfold take_free_page. destruct (m_usable_zones r) as [|i l] eqn:El.
  { left. split; [done|]. intros i z Hz. destruct (PhysicalZone.is_empty z) eqn:E.
    - by apply Z.eqb_eq in E.
    - exfalso. apply (not_elem_of_nil i). apply Hu. eauto. }
  right. destruct (proj1 (Hu i) ltac:(by left)) as (z & Hz & He). rewrite Hz.
  destruct (zone_split _ _ _ _ _ Hzs Hz) as (f & Hfi & Hi).
  destruct (PhysicalZone.allocate_ok (zone_top r i) z mm f 0 Hi ltac:(lia))
    as [(x & z' & mm' & f' & -> & Hi' & Hb & Hwas & Hc & Eb & _ & _ & Hout)|[_ Hno]].
  2: { destruct (PhysicalZone.available_has_block _ _ _ _ Hi He) as (y & o & Hy).
       pose proof (Hno y o Hy). pose proof (PhysicalZone.i_core _ _ _ _ Hi) as Hcore.
       pose proof (PhysicalZone.c_blk _ _ _ _ Hcore y o Hy) as (? & _). lia. }
  cbn [bind]. fold (page_address z x).
  destruct (taken_inv r mm fs i z f z' mm' f' 0 x) as (H1 & Hz1 & EL & Hpf); try done.
  set (r' := if PhysicalZone.is_empty z' then _ else _) in *.
  change (PhysicalZone.bsz 0) with 2 in Hpf.
  assert (is_page r' i z' x (page_address z x)) as Hpage'
    by (split; [done|]; unfold zone_top, page_address in *; by rewrite EL, Eb).
  destruct (create_page_inv r' mm' (<[i := f']> fs) i z' x (page_address z x)) as (mm2 & -> & H2);
    [done|done|rewrite Hpf; lia|].
  cbn [bind]. exists (page_address z x), r', mm2, (<[i := f']> fs).
  split; [done|]. split; [done|].
  assert (is_page r i z x (page_address z x)) as Hpage by done. split; [|split; [eauto|]].
  - exists i, z, f, x. split; [done|]. split; [done|]. apply Hwas.
    unfold PhysicalZone.in_block. change (PhysicalZone.bsz 0) with 2. lia.
  - intros q. rewrite Hpf. split; intros [Hq Hn]; (split; [done|]);
      pose proof (page_in_range _ _ _ _ _ _ _ _ Hzs Hpage Hq); tauto.
Qed.

(** The zone that [return_page] computes from an address. *)
Lemma zone_index_ok r mm fs i z x paddr :
  inv r mm fs -> is_page r i z x paddr ->
  (if paddr <? u64 (m_lower r + m_large_zones r * large_zone_size)
   then u64 (paddr - m_lower r) / large_zone_size
   else u64 (m_large_zones r +
        u64 (paddr - u64 (m_lower r + m_large_zones r * large_zone_size)) / small_zone_size)) =
  Z.of_nat i.
Proof.
  intros H (Hz & Hb & ->). pose proof (zone_range _ _ _ _ _ _ _ (r_zones _ _ _ H) Hz Hb) as Hr.
  destruct (r_limit _ _ _ H) as [Hlo Hlim]. pose proof (r_large _ _ _ H) as HL.
  assert (Z.of_nat i < len (m_zones r)) as Hi by (apply lookup_lt_Some in Hz; unfold len; lia).
  change (PhysicalZone.bsz 0) with 2 in Hr.
  unfold zone_base, base_at, size_at in Hr. unfold large_zone_size, small_zone_size, MiB in *.
  assert (u64 (m_lower r + m_large_zones r * (16 * (1024 * 1024))) =
          m_lower r + m_large_zones r * (16 * (1024 * 1024))) as ->
    by (apply wrap_small; unfold fits; lia).
  destruct (Z.ltb_spec (Z.of_nat i) (m_large_zones r)).
  - rewrite (proj2 (Z.ltb_lt _ _)) by lia. unfold u64. rewrite wrap_small by (unfold fits; lia). zdiv.
  - rewrite (proj2 (Z.ltb_ge _ _)) by lia. unfold u64.
    rewrite (wrap_small 64 (page_address z x - _)) by (unfold fits; lia).
    rewrite wrap_small by (unfold fits; zdiv). zdiv.
Qed.

Lemma return_page_ok r mm fs i z x paddr :
  inv r mm fs -> is_page r i z x paddr -> ~ page_free r fs paddr ->
  exists r' mm' fs', return_page r mm paddr = Ok (r', mm') /\ inv r' mm' fs' /\
    forall q, page_free r' fs' q <-> page_free r fs q \/ q = paddr.
Proof.
  intros H Hp Hnf. pose proof (r_zones _ _ _ H) as Hzs. pose proof (r_large _ _ _ H) as HL.
  unfold return_page. rewrite (zone_index_ok r mm fs i z x paddr) by done.
  rewrite Nat2Z.id. destruct Hp as (Hz & Hb & ->). rewrite Hz.
  destruct (zone_split _ _ _ _ _ Hzs Hz) as (f & Hfi & Hi).
  pose proof (PhysicalZone.i_core _ _ _ _ Hi) as Hcore.
  pose proof (PhysicalZone.c_geo _ _ _ _ Hcore) as G. pose proof (PhysicalZone.g_top _ _ _ G) as Ht.
  destruct (PhysicalZone.blk_bounds _ _ _ Ht Hb) as [_ Hx2].
  assert (PhysicalZone.contains z (page_address z x) = true) as ->.
  { pose proof (PhysicalZone.blk_slot _ _ _ _ _ G Hb) as [Hx _].
    pose proof (PhysicalZone.g_limit _ _ _ G). pose proof (PhysicalZone.g_base _ _ _ G) as [? _].
    unfold PhysicalZone.contains, page_address. rewrite chunk_size_eq. unfold u64.
    rewrite wrap_small by (unfold fits, PAGE_SIZE in *; lia). unfold PAGE_SIZE in *.
    apply andb_true_iff. rewrite Z.leb_le, Z.ltb_lt. lia. }
  destruct (PhysicalZone.deallocate_ok (zone_top r i) z mm f 0 x Hi)
    as (z' & mm' & f' & Ed & Hi' & Hc & Eb & Ep & Eu & Hout).
  { apply (PhysicalZone.uncovered_hole _ z mm); [done..|]. intros c Hin Hcov. apply Hnf.
    exists i, z, f, x. split; [done|]. split; [done|].
    unfold PhysicalZone.in_block in Hin. change (PhysicalZone.bsz 0) with 2 in Hin.
    assert (c = x \/ c = x + 1) as [->| ->] by lia; [done|].
    by apply (PhysicalZone.covered_page _ _ _ _ _ Hcore Hx2). }
  fold (page_address z x) in Ed. rewrite Ed. cbn [bind]. do 3 eexists. split; [done|].
  assert (PhysicalZone.is_empty z' = false) as He.
  { apply Z.eqb_neq. unfold PhysicalZone.available. rewrite Ep, Eu.
    pose proof (PhysicalZone.core_sum_bounds _ _ _ _ Hcore). pose proof (PhysicalZone.pages_bsz _ _ _ G).
    rewrite (PhysicalZone.i_used _ _ _ _ Hi). change (PhysicalZone.bsz 0) with 2. zdiv. }
  assert (zones_ok (set_zone r i z') mm' (<[i := f']> fs)) as Hz'
    by (eapply zones_ok_set; eauto; lia).
  change (m_full_zones (set_zone r i z')) with (m_full_zones r). split.
  - apply (inv_lists r mm fs); [done| |by eapply lists_given; [apply H|..]| | |];
      case_bool_decide; simpl; rewrite ?length_insert; done.
  - intros q. rewrite <- (page_free_given r mm fs i z f z' f' x q) by done.
    by case_bool_decide.
Qed.

(** ** Contiguous pages *)

Lemma ctz_pow2 k : 0 <= k < 32 -> count_trailing_zeroes 32 (2 ^ k) = k.
Proof.
  intros Hk. destruct (ctz_spec 32 (2 ^ k)) as (Hr & Hlow & Hbit).
  - lia.
  - split; [apply Z.pow_pos_nonneg; lia|]. apply Z.pow_lt_mono_r; lia.
  - rewrite Z.pow2_bits_eqb in Hbit by lia. by apply Z.eqb_eq in Hbit.
Qed.

(** The pages of a block are pages of the region. *)
Lemma block_page r mm fs i z o x k :
  zones_ok r mm fs -> m_zones r !! i = Some z -> PhysicalZone.blk (zone_top r i) o x ->
  0 <= k < 2 ^ o ->
  is_page r i z (x + 2 * k) (page_address z x + k * PAGE_SIZE) /\
  PhysicalZone.in_block o x (x + 2 * k).
Proof.
  intros H Hz Hb Hk. pose proof (zone_geometry _ _ _ _ _ H Hz) as G.
  destruct (PhysicalZone.blk_bounds _ _ _ (PhysicalZone.g_top _ _ _ G) Hb) as [_ Hx2].
  destruct Hb as (Ho & Hx & _ & Hle).
  assert (PhysicalZone.bsz o = 2 * 2 ^ o) as E
    by (unfold PhysicalZone.bsz; rewrite Z.pow_add_r by lia; lia).
  split; [split; [done|split]|].
  - unfold PhysicalZone.blk. change (PhysicalZone.bsz 0) with 2. split; [lia|]. split; [lia|].
    split; [zdiv|lia].
  - unfold page_address. rewrite chunk_size_eq. unfold PAGE_SIZE. lia.
  - unfold PhysicalZone.in_block. lia.
Qed.

Lemma create_pages_ok r fs n mm a i :
  inv r mm fs -> 0 <= i ->
  (forall k, i <= k < i + Z.of_nat n -> 0 <= a + k * PAGE_SIZE < 2 ^ 64 /\
     (exists j z x, is_page r j z x (a + k * PAGE_SIZE)) /\ ~ page_free r fs (a + k * PAGE_SIZE)) ->
  exists mm', create_pages n mm a i =
    Ok (map (fun k => a + k * PAGE_SIZE) (seqZ i (Z.of_nat n)), mm') /\ inv r mm' fs.
Proof.
  revert mm i. induction n as [|n IH]; intros mm i H Hi Hall.
  - exists mm. split; [|done]. by rewrite seqZ_nil by lia.
  - destruct (Hall i ltac:(lia)) as (Hr & (j & z & x & Hp) & Hnf).
    destruct (create_page_inv r mm fs j z x _ H Hp Hnf) as (mm1 & E1 & H1).
    destruct (IH mm1 (i + 1)) as (mm2 & E2 & H2); [done|lia|intros k Hk; apply Hall; lia|].
    exists mm2. split; [|done]. cbn [create_pages]. unfold u64.
    rewrite wrap_small by done. rewrite E1. cbn [bind]. rewrite E2. cbn [bind].
    rewrite (seqZ_cons i) by lia. do 3 f_equal.
    replace (Z.succ i) with (i + 1) by lia. replace (Z.pred (Z.of_nat (S n))) with (Z.of_nat n) by lia.
    done.
Qed.

(** The zone search finds a free block of the order asked for, or changes
    nothing. *)
Lemma allocate_in_zones_ok r mm fs o l :
  inv r mm fs -> 0 <= o < 32 -> (forall i, i ∈ l -> i ∈ m_usable_zones r) ->
  allocate_in_zones l r mm o = Ok (None, r, mm) \/
  (exists i z x r' mm' fs',
     allocate_in_zones l r mm o = Ok (Some (page_address z x), r', mm') /\ inv r' mm' fs' /\
     m_zones r !! i = Some z /\ PhysicalZone.blk (zone_top r i) o x /\
     (forall k, 0 <= k < 2 ^ o -> page_free r fs (page_address z x + k * PAGE_SIZE) /\
        exists z', is_page r' i z' (x + 2 * k) (page_address z x + k * PAGE_SIZE)) /\
     forall q, page_free r' fs' q <-> page_free r fs q /\
       ~ page_address z x <= q < page_address z x + 2 ^ o * PAGE_SIZE).
Proof.
  intros H Ho. pose proof (r_zones _ _ _ H) as Hzs. destruct (r_lists _ _ _ H) as [Hu _].
  induction l as [|i l IH]; intros Hl; [by left|]. cbn [allocate_in_zones].
  destruct (proj1 (Hu i) ltac:(apply Hl; by left)) as (z & Hz & He). rewrite Hz.
  destruct (zone_split _ _ _ _ _ Hzs Hz) as (f & Hfi & Hi).
  destruct (PhysicalZone.allocate_ok (zone_top r i) z mm f o Hi Ho)
    as [(x & z' & mm' & f' & -> & Hi' & Hb & Hwas & Hc & Eb & _ & _ & Hout)|[-> _]].
  - right. cbn [bind]. fold (page_address z x).
    destruct (taken_inv r mm fs i z f z' mm' f' o x) as (H1 & Hz1 & EL & Hpf); try done.
    set (r' := if PhysicalZone.is_empty z' then _ else _) in *.
    exists i, z, x, r', mm', (<[i := f']> fs). split; [done|]. split; [done|].
    split; [done|]. split; [done|]. split.
    + intros k Hk. destruct (block_page r mm fs i z o x k Hzs Hz Hb Hk) as [Hp Hin].
      split; [exists i, z, f, (x + 2 * k); split_and!; try done; by apply Hwas|].
      exists z'. destruct Hp as (_ & Hbp & Hadr). split; [done|]. unfold zone_top in *. rewrite EL.
      split; [done|]. rewrite Hadr. unfold page_address. by rewrite Eb.
    + intros q. rewrite Hpf. destruct Hb as (Hob & _).
      replace (PhysicalZone.bsz o * 2048) with (2 ^ o * PAGE_SIZE); [done|].
      unfold PhysicalZone.bsz, PAGE_SIZE. rewrite Z.pow_add_r by lia. lia.
  - cbn [bind]. assert (set_zone r i z = r) as ->.
    { destruct r. unfold set_zone. simpl in *. by rewrite list_insert_id. }
    apply IH. intros j Hj. apply Hl. by right.
Qed.

Lemma take_contiguous_ok r mm fs count :
  inv r mm fs -> 1 <= count <= 2 ^ 31 ->
  take_contiguous_free_pages r mm count = Ok ([], r, mm) \/
  (exists a r' mm' fs',
     take_contiguous_free_pages r mm count =
       Ok (map (fun k => a + k * PAGE_SIZE) (seqZ 0 count), r', mm') /\
     inv r' mm' fs' /\
     (forall k, 0 <= k < count -> page_free r fs (a + k * PAGE_SIZE)) /\
     forall q, page_free r' fs' q <-> page_free r fs q /\
       ~ a <= q < a + 2 ^ Z.log2_up count * PAGE_SIZE).
Proof.
  intros H Hcount. unfold take_contiguous_free_pages, u32.
  rewrite wrap_small by (unfold fits; lia). rewrite next_power_of_two_spec by done.
  set (o := Z.log2_up count).
  assert (0 <= o < 32) as Ho.
  { split; [apply Z.log2_up_nonneg|]. assert (o <= 31); [|lia].
    unfold o. change 31 with (Z.log2_up (2 ^ 31)). apply Z.log2_up_le_mono. lia. }
  assert (count <= 2 ^ o) as Hround.
  { destruct (Z.eq_dec count 1) as [->|]; [done|]. apply Z.log2_up_spec. lia. }
  pose proof (Z.pow_pos_nonneg 2 o ltac:(lia) ltac:(lia)).
  rewrite (proj2 (Z.eqb_neq (2 ^ o) 0)) by lia. rewrite ctz_pow2 by done.
  destruct (allocate_in_zones_ok r mm fs o (m_usable_zones r) H Ho (fun _ Hi => Hi))
    as [->|(i & z & x & r' & mm' & fs' & -> & H' & Hz & Hb & Hall & Hpf)]; [by left|right].
  cbn [bind]. set (a := page_address z x) in *.
  pose proof (zone_geometry _ _ _ _ _ (r_zones _ _ _ H) Hz) as G.
  pose proof (PhysicalZone.blk_slot _ _ _ _ _ G Hb) as [Hx _].
  pose proof (PhysicalZone.g_limit _ _ _ G). pose proof (PhysicalZone.g_base _ _ _ G) as [? _].
  pose proof (PhysicalZone.pages_bsz _ _ _ G).
  assert (PhysicalZone.bsz o = 2 * 2 ^ o) by (unfold PhysicalZone.bsz; rewrite Z.pow_add_r by lia; lia).
  destruct (create_pages_ok r' fs' (Z.to_nat count) mm' a 0 H') as (mm2 & E2 & Hinv2); [lia| |].
  { intros k Hk. destruct (Hall k ltac:(lia)) as [_ [z' Hp]]. destruct Hb as (_ & _ & _ & Hle).
    split; [|split; [eauto|rewrite Hpf; unfold PAGE_SIZE; lia]].
    unfold a, page_address, PAGE_SIZE in *. rewrite chunk_size_eq in *. lia. }
  rewrite E2. cbn [bind]. rewrite Z2Nat.id by lia. exists a, r', mm2, fs'.
  split; [done|]. split; [done|]. split; [intros k Hk; apply Hall; lia|done].
Qed.

(** ** Initialization *)

(** A new zone is appended behind the others. *)
Lemma zones_at_add L r mm fs z mm' f :
  zones_at L r mm fs -> 0 <= L ->
  PhysicalZone.inv (top_at L (length (m_zones r))) z mm' f ->
  PhysicalZone.m_base_address z = base_at (m_lower r) L (length (m_zones r)) ->
  PhysicalZone.same_outside z mm mm' ->
  zones_at L (add_zone r z) mm' (fs ++ [f]).
Proof.
  intros [Hlen Hok] HL Hi Hb [Ec Hout]. split; [simpl; rewrite !length_app; simpl; lia|].
  intros j zj fj. simpl. intros Hzj Hfj.
  destruct (decide (j = length (m_zones r))) as [->|Hne].
  - rewrite list_lookup_middle in Hzj by done. rewrite list_lookup_middle in Hfj by done.
    injection Hzj as <-. by injection Hfj as <-.
  - assert (j < length (m_zones r))%nat as Hj.
    { apply lookup_lt_Some in Hzj. rewrite length_app in Hzj. simpl in Hzj. lia. }
    rewrite lookup_app_l in Hzj by lia. rewrite lookup_app_l in Hfj by lia.
    destruct (Hok j zj fj Hzj Hfj) as [Hij Hbj]. split; [|done].
    eapply PhysicalZone.inv_entries; [done| |done]. intros y o Hy. unfold PhysicalZone.lk. apply Hout.
    pose proof (PhysicalZone.core_slot _ _ _ _ _ _ (PhysicalZone.i_core _ _ _ _ Hij) Hy) as [Hy2 _].
    pose proof (pages_apart (m_lower r) L _ j z zj mm' mm HL ltac:(by apply not_eq_sym)
                  ltac:(apply Hi) Hb ltac:(apply Hij) Hbj).
    unfold PhysicalZone.page in *. zdiv.
Qed.

(** While the zones are being made every one is usable. *)
Definition all_usable (r : t) : Prop :=
  m_full_zones r = [] /\ (forall i, i ∈ m_usable_zones r <-> (i < length (m_zones r))%nat) /\
  forall i z, m_zones r !! i = Some z -> PhysicalZone.is_empty z = false.

Lemma all_usable_lists r : all_usable r -> lists_ok r.
Proof.
  intros (Hf & Hu & He). split; intros i.
  - rewrite Hu. split.
    + intros [z Hz]%lookup_lt_is_Some_2. eauto.
    + intros (z & Hz & _). by eapply lookup_lt_Some.
  - rewrite Hf. split; [by intros ?%not_elem_of_nil|]. intros (z & Hz & E). rewrite (He i z Hz) in E. done.
Qed.

Lemma all_usable_add r z :
  all_usable r -> PhysicalZone.is_empty z = false -> all_usable (add_zone r z).
Proof.
  intros (Hf & Hu & He) Ez. split; [|split].
  - simpl. by rewrite Hf.
  - intros i. simpl. rewrite elem_of_app, elem_of_remove_node, Hu, list_elem_of_singleton, length_app.
    simpl. lia.
  - intros i y. simpl. intros [Hy|[_ Hy]]%lookup_app_Some; [by eapply He|].
    apply list_lookup_singleton_Some in Hy as [_ <-]. done.
Qed.

Lemma fresh_zone_nonempty top z mm :
  PhysicalZone.inv top z mm {[0 := top]} -> PhysicalZone.is_empty z = false.
Proof.
  intros H. pose proof (PhysicalZone.i_core _ _ _ _ H) as Hc.
  pose proof (PhysicalZone.c_geo _ _ _ _ Hc) as G. pose proof (PhysicalZone.g_top _ _ _ G).
  apply Z.eqb_neq. unfold PhysicalZone.available. rewrite (PhysicalZone.i_used _ _ _ _ H).
  rewrite <- insert_empty, msum_insert by done. unfold msum. rewrite map_fold_empty.
  rewrite (PhysicalZone.g_pages _ _ _ G). pose proof (Z.pow_pos_nonneg 2 top). zdiv.
Qed.

Definition same_header (r r' : t) : Prop :=
  m_large_zones r' = m_large_zones r /\ m_lower r' = m_lower r /\
  m_upper r' = m_upper r /\ m_pages r' = m_pages r.

(** [make_zones] fills the remaining pages with [k] zones of order [top]. *)
Lemma make_zones_ok L top fuel r mm fs rem base cnt :
  0 <= L -> 0 <= top <= 12 -> zones_at L r mm fs -> all_usable r ->
  0 <= rem -> rem / 2 ^ top < Z.of_nat fuel ->
  (forall j, Z.of_nat j < rem / 2 ^ top -> top_at L (length (m_zones r) + j) = top /\
     base_at (m_lower r) L (length (m_zones r) + j) = base + Z.of_nat j * (2 ^ top * PAGE_SIZE)) ->
  0 <= base -> base mod PAGE_SIZE = 0 -> base + rem * PAGE_SIZE < 2 ^ 64 ->
  base / PAGE_SIZE + rem <= MM.m_physical_page_entries_count mm ->
  exists k r' mm', k = rem / 2 ^ top /\
    make_zones fuel r mm (2 ^ top) rem base cnt =
      Ok (r', mm', rem - k * 2 ^ top, base + k * (2 ^ top * PAGE_SIZE), cnt + k) /\
    zones_at L r' mm' (fs ++ replicate (Z.to_nat k) {[0 := top]}) /\ all_usable r' /\
    same_header r r' /\ length (m_zones r') = (length (m_zones r) + Z.to_nat k)%nat /\
    MM.m_physical_page_entries_count mm' = MM.m_physical_page_entries_count mm.
Proof.
  intros HL Ht. pose proof (Z.pow_pos_nonneg 2 top ltac:(lia) ltac:(lia)) as Hp.
  revert r mm fs rem base cnt. induction fuel as [|fuel IH];
    intros r mm fs rem base cnt Hz Hu Hrem Hf Hnext Hb0 Hal Hlim Hent.
  { assert (0 <= rem / 2 ^ top) by (apply Z.div_pos; lia). lia. }
  cbn [make_zones]. destruct (Z.leb_spec (2 ^ top) rem) as [Hle|Hgt].
  - assert (rem / 2 ^ top = (rem - 2 ^ top) / 2 ^ top + 1) as Ek.
    { replace rem with (rem - 2 ^ top + 1 * 2 ^ top) at 1 by lia. apply Z.div_add. lia. }
    assert (0 <= (rem - 2 ^ top) / 2 ^ top) as Hk0 by (apply Z.div_pos; lia).
    destruct (PhysicalZone.make_ok top mm base) as (z & mm1 & -> & Hi & Eb & Ep & Hout);
      [done|done|done|unfold PAGE_SIZE in *; nia|lia|].
    cbn [bind]. destruct (Hnext 0%nat ltac:(lia)) as [Htop Hbase]. rewrite Nat.add_0_r in Htop, Hbase.
    assert (zones_at L (add_zone r z) mm1 (fs ++ [{[0 := top]}])) as Hz1.
    { apply (zones_at_add L r mm); rewrite ?Htop; try done. rewrite Eb, Hbase. lia. }
    assert (length (m_zones (add_zone r z)) = S (length (m_zones r))) as Elen
      by (simpl; rewrite length_app; simpl; lia).
    assert (u64 (base + 2 ^ top * PAGE_SIZE) = base + 2 ^ top * PAGE_SIZE) as ->
      by (apply wrap_small; unfold fits, PAGE_SIZE in *; nia).
    destruct (IH (add_zone r z) mm1 (fs ++ [{[0 := top]}]) (rem - 2 ^ top)
                (base + 2 ^ top * PAGE_SIZE) (cnt + 1))
      as (k & r' & mm' & Ek' & -> & Hz' & Hu' & Hh & Hl & Hc); try done.
    + apply all_usable_add; [done|]. by eapply fresh_zone_nonempty.
    + lia.
    + lia.
    + intros j Hj. rewrite Elen. destruct (Hnext (S j) ltac:(lia)) as [E1 E2].
      replace (S (length (m_zones r)) + j)%nat with (length (m_zones r) + S j)%nat by lia.
      split; [done|]. simpl. rewrite E2. lia.
    + unfold PAGE_SIZE in *. lia.
    + unfold PAGE_SIZE in *. rewrite Z.mod_add by lia. done.
    + unfold PAGE_SIZE in *. nia.
    + destruct Hout as [-> _]. unfold PAGE_SIZE in *. rewrite Z.div_add by lia. lia.
    + exists (k + 1), r', mm'. split; [lia|]. split; [f_equal; repeat apply (f_equal2 pair); done || lia|].
      split; [|split; [done|split; [done|split]]].
      * rewrite <- app_assoc in Hz'. rewrite Z2Nat.inj_add by lia.
        rewrite Nat.add_comm. exact Hz'.
      * rewrite Hl, Elen, Z2Nat.inj_add by lia. simpl. lia.
      * rewrite Hc. by destruct Hout.
  - exists 0, r, mm. rewrite Z.div_small by lia. split; [done|].
    split; [f_equal; repeat apply (f_equal2 pair); done || lia|]. simpl. rewrite app_nil_r, Nat.add_0_r. done.
Qed.

Lemma initialize_ok mm lower upper :
  0 <= lower <= upper -> upper + PAGE_SIZE < 2 ^ 64 -> lower mod PAGE_SIZE = 0 ->
  upper / PAGE_SIZE <= MM.m_physical_page_entries_count mm ->
  let large := (upper - lower) / PAGE_SIZE / 4096 in
  let small := (upper - lower) / PAGE_SIZE mod 4096 / 256 in
  exists r mm', initialize_zones (try_create lower upper) mm = Ok (r, mm') /\
    m_lower r = lower /\ m_large_zones r = large /\ len (m_zones r) = large + small /\
    inv r mm' (replicate (Z.to_nat large) {[0 := 12]} ++ replicate (Z.to_nat small) {[0 := 8]}).
Proof.
  intros Hle Hup Hal Hent large small. unfold initialize_zones, try_create. cbn [m_pages m_lower].
  unfold u64. rewrite wrap_small by (unfold fits, PAGE_SIZE in *; lia).
  set (pages := (upper - lower) / PAGE_SIZE) in *.
  assert (0 <= pages /\ pages * PAGE_SIZE <= upper - lower) as [Hp0 Hp1]
    by (unfold pages, PAGE_SIZE in *; zdiv).
  change (large_zone_size / PAGE_SIZE) with (2 ^ 12). change (small_zone_size / PAGE_SIZE) with (2 ^ 8).
  set (r0 := mk [] 0 [] [] lower upper pages).
  destruct (make_zones_ok large 12 (S (Z.to_nat (pages / 2 ^ 12))) r0 mm [] pages lower 0)
    as (k & r1 & mm1 & Ek & -> & Hz1 & Hu1 & (EL1 & Elo1 & Eup1 & Epg1) & Hl1 & Hc1);
    try (lia || done).
  { unfold large. apply Z.div_pos; lia. }
  { split; [done|split]; intros i; simpl; [rewrite elem_of_nil; lia|by rewrite lookup_nil]. }
  { intros j Hj. unfold top_at, base_at. simpl. change (pages / 2 ^ 12) with large in Hj.
    rewrite (proj2 (Z.ltb_lt _ _) Hj). split; [done|]. unfold large_zone_size, MiB, PAGE_SIZE. lia. }
  { unfold PAGE_SIZE in *. lia. }
  { unfold PAGE_SIZE in *. zdiv. }
  cbn [bind]. change (pages / 2 ^ 12) with large in Ek. subst k. cbn [app] in Hz1.
  assert (0 <= large) as HL by (unfold large; apply Z.div_pos; lia).
  assert (pages - large * 2 ^ 12 = pages mod 4096) as Erem by (unfold large; change (2 ^ 12) with 4096; zdiv).
  rewrite Erem. set (rem := pages mod 4096) in *.
  assert (0 <= rem) by (unfold rem; zdiv).
  set (r2 := mk (m_zones r1) (0 + large) _ _ _ _ _).
  destruct (make_zones_ok large 8 (S (Z.to_nat (rem / 2 ^ 8))) r2 mm1
              (replicate (Z.to_nat large) {[0 := 12]}) rem (lower + large * (2 ^ 12 * PAGE_SIZE)) 0)
    as (k & r3 & mm3 & Ek & -> & Hz3 & Hu3 & (EL3 & Elo3 & Eup3 & Epg3) & Hl3 & Hc3);
    try (lia || done).
  { intros j Hj. unfold top_at, base_at. cbn [m_zones m_lower r2]. rewrite Hl1, Elo1. simpl.
    rewrite (proj2 (Z.ltb_ge _ _)) by lia. split; [done|].
    unfold large_zone_size, small_zone_size, MiB, PAGE_SIZE. lia. }
  { unfold PAGE_SIZE in *. lia. }
  { unfold PAGE_SIZE in *. zdiv. }
  { unfold PAGE_SIZE in *. lia. }
  { rewrite Hc1. unfold PAGE_SIZE in *. zdiv. }
  cbn [bind]. change (rem / 2 ^ 8) with small in Ek. subst k.
  assert (0 <= small) by (unfold small; apply Z.div_pos; lia).
  assert (len (m_zones r3) = large + small) as Elen.
  { unfold len. rewrite Hl3. cbn [m_zones r2]. rewrite Hl1. simpl. lia. }
  assert (m_large_zones r3 = large) as EL by (rewrite EL3; simpl; lia).
  assert (m_lower r3 = lower) as Elo by (rewrite Elo3; cbn [m_lower r2]; by rewrite Elo1).
  exists r3, mm3. split; [done|]. split; [done|]. split; [done|]. split; [done|].
  constructor.
  - unfold zones_ok. by rewrite EL.
  - by apply all_usable_lists.
  - rewrite EL, Elen. lia.
  - rewrite EL, Elen, Elo. unfold large, small, large_zone_size, small_zone_size, MiB, PAGE_SIZE in *.
    split; [lia|]. assert (rem / 256 * 256 <= rem) by zdiv. fold rem. fold large. lia.
Qed.

(** ** Properties *)

(** initialization covers a region with buddy zones.  The 16 MiB zones come
    first and the 1 MiB zones use what they leave, every zone ends up well
    formed, usable and entirely free, and no assertion or allocation order
    fails. *)
Theorem initialize_zones_exact (mm : MM.t) (lower upper : Z) :
  0 <= lower <= upper -> upper + PAGE_SIZE < 2 ^ 64 -> lower mod PAGE_SIZE = 0 ->
  upper / PAGE_SIZE <= MM.m_physical_page_entries_count mm ->
  let large := (upper - lower) / PAGE_SIZE / 4096 in
  let small := (upper - lower) / PAGE_SIZE mod 4096 / 256 in
  exists r mm', initialize_zones (try_create lower upper) mm = Ok (r, mm') /\
    m_large_zones r = large /\ len (m_zones r) = large + small /\
    inv r mm' (replicate (Z.to_nat large) {[0 := 12]} ++ replicate (Z.to_nat small) {[0 := 8]}).
Proof.
  intros H1 H2 H3 H4 large small.
  destruct (initialize_ok mm lower upper H1 H2 H3 H4) as (r & mm' & ? & _ & ? & ? & ?).
  by exists r, mm'.
Qed.

Lemma initialize_zones_exact_witness :
  exists r mm', initialize_zones (try_create 409600 2867200) (MM.mk 1000 ∅) = Ok (r, mm') /\
    m_large_zones r = 0 /\ len (m_zones r) = 0 + 2 /\
    inv r mm' (replicate (Z.to_nat 0) {[0 := 12]} ++ replicate (Z.to_nat 2) {[0 := 8]}).
Proof.
  apply (initialize_zones_exact (MM.mk 1000 ∅) 409600 2867200);
    [lia|unfold PAGE_SIZE; lia|done|vm_compute; discriminate].
Defined.

(** A region of 600 pages from page 100, which holds two 1 MiB zones. *)
Definition sample : t * MM.t :=
  match initialize_zones (try_create 409600 2867200) (MM.mk 1000 ∅) with
  | Ok s => s
  | _ => (try_create 0 0, MM.mk 0 ∅)
  end.

Lemma region_sample_inv : inv (fst sample) (snd sample) [{[0 := 8]}; {[0 := 8]}].
Proof.
  destruct (initialize_ok (MM.mk 1000 ∅) 409600 2867200) as (r & mm' & E & _ & _ & _ & H);
    [lia|unfold PAGE_SIZE; lia|done|vm_compute; discriminate|].
  unfold sample. rewrite E. exact H.
Qed.

(** C17: a page is never handed out twice.  [take_free_page] fails no assertion;
    it returns a page that was free and is not free afterwards, every other
    page keeps its status, and it returns nothing only when every zone is
    exhausted. *)
Theorem take_free_page_exact (r : t) (mm : MM.t) (fs : list (gmap Z Z)) :
  inv r mm fs ->
  (take_free_page r mm = Ok (None, r, mm) /\
   forall i z, m_zones r !! i = Some z -> PhysicalZone.available z = 0) \/
  (exists paddr r' mm' fs', take_free_page r mm = Ok (Some paddr, r', mm') /\ inv r' mm' fs' /\
     page_free r fs paddr /\ (exists i z x, is_page r' i z x paddr) /\
     forall q, page_free r' fs' q <-> page_free r fs q /\ q <> paddr).
Proof. apply take_page_ok. Qed.

Lemma take_free_page_exact_witness :
  (take_free_page (fst sample) (snd sample) = Ok (None, fst sample, snd sample) /\
   forall i z, m_zones (fst sample) !! i = Some z -> PhysicalZone.available z = 0) \/
  (exists paddr r' mm' fs',
     take_free_page (fst sample) (snd sample) = Ok (Some paddr, r', mm') /\ inv r' mm' fs' /\
     page_free (fst sample) [{[0 := 8]}; {[0 := 8]}] paddr /\
     (exists i z x, is_page r' i z x paddr) /\
     forall q, page_free r' fs' q <->
       page_free (fst sample) [{[0 := 8]}; {[0 := 8]}] q /\ q <> paddr).
Proof. apply take_free_page_exact, region_sample_inv. Defined.

(** C35: a page that is in use can be given back: [return_page] finds its zone by
    address arithmetic alone, passes every assertion, and makes exactly that
    page free again, moving its zone back to the usable ones. *)
Theorem return_page_exact (r : t) (mm : MM.t) (fs : list (gmap Z Z)) (i : nat)
    (z : PhysicalZone.t) (x paddr : Z) :
  inv r mm fs -> is_page r i z x paddr -> ~ page_free r fs paddr ->
  exists r' mm' fs', return_page r mm paddr = Ok (r', mm') /\ inv r' mm' fs' /\
    forall q, page_free r' fs' q <-> page_free r fs q \/ q = paddr.
Proof. apply return_page_ok. Qed.

Lemma sample_first :
  match take_free_page (fst sample) (snd sample) with
  | Ok (page, _, _) => page
  | _ => None
  end = Some 1454080.
Proof. vm_compute. reflexivity. Qed.

Lemma return_page_exact_witness :
  exists r mm fs paddr r' mm' fs', return_page r mm paddr = Ok (r', mm') /\ inv r' mm' fs' /\
    forall q, page_free r' fs' q <-> page_free r fs q \/ q = paddr.
Proof.
  destruct (take_page_ok _ _ _ region_sample_inv)
    as [[E _]|(paddr & r & mm & fs & _ & H & _ & (i & z & x & Hp) & Hpf)].
  - pose proof sample_first as Ef. rewrite E in Ef. discriminate Ef.
  - exists r, mm, fs, paddr. apply (return_page_exact r mm fs i z x paddr H Hp).
    rewrite Hpf. tauto.
Defined.

(** contiguous allocation returns [count] consecutive pages that were all
    free.  What it removes from the free pages is the whole block, [count]
    rounded up to a power of two; it changes nothing when no zone has such a
    block. *)
Theorem take_contiguous_exact (r : t) (mm : MM.t) (fs : list (gmap Z Z)) (count : Z) :
  inv r mm fs -> 1 <= count <= 2 ^ 31 ->
  take_contiguous_free_pages r mm count = Ok ([], r, mm) \/
  (exists a r' mm' fs',
     take_contiguous_free_pages r mm count =
       Ok (map (fun k => a + k * PAGE_SIZE) (seqZ 0 count), r', mm') /\
     inv r' mm' fs' /\
     (forall k, 0 <= k < count -> page_free r fs (a + k * PAGE_SIZE)) /\
     forall q, page_free r' fs' q <-> page_free r fs q /\
       ~ a <= q < a + 2 ^ Z.log2_up count * PAGE_SIZE).
Proof. apply take_contiguous_ok. Qed.

Lemma take_contiguous_exact_witness :
  take_contiguous_free_pages (fst sample) (snd sample) 3 = Ok ([], fst sample, snd sample) \/
  (exists a r' mm' fs',
     take_contiguous_free_pages (fst sample) (snd sample) 3 =
       Ok (map (fun k => a + k * PAGE_SIZE) (seqZ 0 3), r', mm') /\
     inv r' mm' fs' /\
     (forall k, 0 <= k < 3 ->
        page_free (fst sample) [{[0 := 8]}; {[0 := 8]}] (a + k * PAGE_SIZE)) /\
     forall q, page_free r' fs' q <-> page_free (fst sample) [{[0 := 8]}; {[0 := 8]}] q /\
       ~ a <= q < a + 2 ^ Z.log2_up 3 * PAGE_SIZE).
Proof. apply take_contiguous_exact; [apply region_sample_inv|lia]. Defined.

(** rounding page counts.  The bit-smearing routine returns the least power
    of two that is not below its argument. *)
Theorem next_power_of_two_exact (v : Z) :
  1 <= v <= 2 ^ 31 -> next_power_of_two v = 2 ^ Z.log2_up v.
Proof. apply next_power_of_two_spec. Qed.

Lemma next_power_of_two_exact_witness : next_power_of_two 1000 = 2 ^ Z.log2_up 1000.
Proof. apply (next_power_of_two_exact 1000). lia. Defined.

(** Finding: the pages that rounding adds are lost.  Three contiguous pages are
    taken and all three are returned, and the zone still has one page less. *)
Lemma contiguous_pages_leak :
  (let! (pages, r, mm) := take_contiguous_free_pages (fst sample) (snd sample) 3 in
   let! (r, mm) := return_page r mm (nth 0 pages 0) in
   let! (r, mm) := return_page r mm (nth 1 pages 0) in
   let! (r, mm) := return_page r mm (nth 2 pages 0) in
   Ok (len pages, map PhysicalZone.available (m_zones r))) = Ok (3, [255; 256]).
Proof. vm_compute. reflexivity. Qed.

End PhysicalRegion.
