(* ===== verification/VirtualRange.v ===== *)
(** Ranges of virtual addresses, [Kernel/Memory/VirtualRange.{h,cpp}], with the
    page roundings of [Kernel/Memory/MemoryManager.{h,cpp}]. *)

From S2P Require Import Prelude BitOps.

Module VirtualRange.

(** A base address and a byte size; both are 64-bit words. *)
Record t : Type := mk { m_base : Z; m_size : Z }.

#[global] Instance VirtualRange_eq_dec : EqDecision t.
Proof. solve_decision. Defined.

(** ** Definitions *)

Definition eqb (a b : t) : bool := (m_base a =? m_base b) && (m_size a =? m_size b).

Definition is_valid (r : t) : bool := negb (m_base r =? 0).

Definition end_ (r : t) : Z := u64 (m_base r + m_size r).

Definition contains_address (r : t) (vaddr : Z) : bool :=
  (m_base r <=? vaddr) && (vaddr <? end_ r).

Definition contains_sized (r : t) (base size : Z) : bool :=
  if u64 (base + size) <? base then false
  else (m_base r <=? base) && (u64 (base + size) <=? end_ r).

Definition contains (r other : t) : bool := contains_sized r (m_base other) (m_size other).

Definition carve (r taken : t) : outcome (list t) :=
  VERIFY (m_size taken mod PAGE_SIZE =? 0) ;;
  if eqb taken r then Ok [] else
  Ok ((if m_base r <? m_base taken then [mk (m_base r) (u64 (m_base taken - m_base r))] else []) ++
      (if end_ taken <? end_ r then [mk (end_ taken) (u64 (end_ r - end_ taken))] else [])).

Definition intersects (r other : t) : bool :=
  let (a, b) := if m_base other <? m_base r then (other, r) else (r, other) in
  (m_base a <? end_ b) && (m_base b <? end_ a).

Definition intersect (r other : t) : outcome t :=
  if eqb r other then Ok r else
  let new_base := Z.max (m_base r) (m_base other) in
  let new_end := Z.min (end_ r) (end_ other) in
  VERIFY (new_base <? new_end) ;;
  Ok (mk new_base (u64 (new_end - new_base))).

(** ** Page boundaries *)

Definition page_round_up (x : Z) : outcome Z :=
  if Z.land 0xFFFFFFFFFFFFFFFF (u64 (Z.lnot 0xFFF)) <? x then Err EINVAL
  else Ok (Z.land (u64 (x + PAGE_SIZE - 1)) (u64 (Z.lnot (PAGE_SIZE - 1)))).

Definition page_round_down (x : Z) : Z := Z.land x (u64 (Z.lnot (PAGE_SIZE - 1))).

(** [VirtualAddress::page_base] *)
Definition page_base (x : Z) : Z := Z.land x (u64 (Z.lnot 0xfff)).

Definition is_page_aligned (x : Z) : bool := Z.land x 0xfff =? 0.

Definition expand_to_page_boundaries (address size : Z) : outcome t :=
  if u64 (address + size) <? address then Err EINVAL else
  let base := page_base address in
  let! e := page_round_up (u64 (address + size)) in
  Ok (mk base (u64 (e - base))).

Definition shrink_range_to_page_boundaries (address size : Z) : outcome t :=
  if u64 (address + size) <? address then Err EINVAL else
  let! base := page_round_up address in
  let e := page_round_down (u64 (address + size)) in
  if e <? base then Err EINVAL else Ok (mk base (u64 (e - base))).

(** ** Ranges that do not wrap *)

Definition wf (r : t) : Prop := 0 <= m_base r /\ 0 <= m_size r /\ m_base r + m_size r < 2 ^ 64.

(** The addresses of a range. *)
Definition within (r : t) (a : Z) : Prop := m_base r <= a < m_base r + m_size r.

Definition page_aligned (r : t) : Prop := m_base r mod PAGE_SIZE = 0 /\ m_size r mod PAGE_SIZE = 0.

Definition disjoint (a b : t) : Prop :=
  m_base a + m_size a <= m_base b \/ m_base b + m_size b <= m_base a.

Lemma end_ok r : wf r -> end_ r = m_base r + m_size r.
Proof. intros (? & ? & ?). apply wrap_small. unfold fits. lia. Qed.

Lemma eqb_spec a b : eqb a b = true <-> a = b.
Proof.
  unfold eqb. rewrite andb_true_iff, !Z.eqb_eq. destruct a, b; simpl. split.
  - intros [-> ->]. done.
  - by intros [= -> ->].
Qed.

Lemma contains_address_spec r a : wf r -> contains_address r a = true <-> within r a.
Proof.
  intros H. unfold contains_address, within. rewrite (end_ok r H), andb_true_iff, Z.leb_le, Z.ltb_lt.
  done.
Qed.

Lemma contains_spec r o : wf r -> wf o ->
  contains r o = true <-> m_base r <= m_base o /\ m_base o + m_size o <= m_base r + m_size r.
Proof.
  intros Hr Ho. pose proof Ho as (? & ? & ?). unfold contains, contains_sized.
  rewrite (end_ok r Hr). fold (end_ o). rewrite (end_ok o Ho).
  rewrite (proj2 (Z.ltb_ge _ _)) by lia. rewrite andb_true_iff, !Z.leb_le. done.
Qed.

(** Two non-empty ranges intersect exactly when they share an address. *)
Lemma intersects_spec a b : wf a -> wf b -> 0 < m_size a -> 0 < m_size b ->
  intersects a b = true <-> ~ disjoint a b.
Proof.
  intros Ha Hb Hsa Hsb. unfold intersects, disjoint.
  destruct (Z.ltb_spec (m_base b) (m_base a)); rewrite !end_ok by done;
    rewrite andb_true_iff, !Z.ltb_lt; lia.
Qed.

Lemma intersect_ok a b : wf a -> wf b -> 0 < m_size a -> 0 < m_size b -> ~ disjoint a b ->
  exists c, intersect a b = Ok c /\ wf c /\ forall x, within c x <-> within a x /\ within b x.
Proof.
  intros Ha Hb Hsa Hsb Hd. unfold intersect, disjoint, within in *.
  pose proof Ha as (? & ? & ?). pose proof Hb as (? & ? & ?).
  destruct (eqb a b) eqn:E.
  - apply eqb_spec in E as ->. exists b. split; [done|]. split; [done|]. lia.
  - rewrite !end_ok by done. rewrite (proj2 (Z.ltb_lt _ _)) by lia.
    unfold u64. rewrite wrap_small by (unfold fits; lia).
    eexists. split; [done|]. unfold wf. simpl. split; [lia|]. lia.
Qed.

Lemma carve_ok r taken :
  wf r -> wf taken -> m_size taken mod PAGE_SIZE = 0 ->
  m_base r <= m_base taken -> m_base taken + m_size taken <= m_base r + m_size r ->
  exists parts, carve r taken = Ok parts /\
    (forall p, p ∈ parts -> wf p /\ 0 < m_size p /\ disjoint p taken /\
       m_base r <= m_base p /\ m_base p + m_size p <= m_base r + m_size r) /\
    (page_aligned r -> page_aligned taken -> Forall page_aligned parts) /\
    (forall p q, p ∈ parts -> q ∈ parts -> p = q \/ disjoint p q) /\
    forall a, within r a <-> within taken a \/ exists p, p ∈ parts /\ within p a.
Proof.
  intros Hr Ht Hp Hlo Hhi. pose proof Hr as (? & ? & ?). pose proof Ht as (? & ? & ?).
  unfold carve. rewrite (proj2 (Z.eqb_eq _ _) Hp). rewrite !end_ok by done.
  destruct (eqb taken r) eqn:E.
  { apply eqb_spec in E as ->. exists []. split; [done|]. split; [set_solver|].
    split; [constructor|]. split; [set_solver|]. intros a. split; [by left|].
    intros [?|(p & ?%not_elem_of_nil & _)]; done. }
  unfold u64. rewrite !wrap_small by (unfold fits; lia). eexists. split; [done|].
  unfold within, disjoint, wf, page_aligned, PAGE_SIZE.
  destruct (Z.ltb_spec (m_base r) (m_base taken)),
    (Z.ltb_spec (m_base taken + m_size taken) (m_base r + m_size r)); simpl.
  all: split; [intros p; rewrite ?elem_of_cons, ?elem_of_nil; intros Hin; destruct_or! Hin;
               subst; simpl; done || lia|].
  all: split; [intros [Ha Hb] [Hc Hd]; repeat constructor; simpl; zdiv|].
  all: split; [intros p q; rewrite ?elem_of_cons, ?elem_of_nil; intros Hin Hin';
               destruct_or! Hin; destruct_or! Hin'; subst; simpl; try done; auto; lia|].
  all: intros a; split;
    [intros Ha|intros [?|(p & Hin & Hw)]; [lia|]; rewrite ?elem_of_cons, ?elem_of_nil in Hin;
     destruct_or! Hin; subst; simpl in *; done || lia].
  all: destruct (Z.lt_ge_cases a (m_base taken)), (Z.lt_ge_cases a (m_base taken + m_size taken));
    try lia; try (left; lia); right;
    solve [eexists; split; [constructor|simpl; lia]
          |eexists; split; [constructor; constructor|simpl; lia]].
Qed.

(** Cutting a range that overlaps, whether or not it lies inside: what is left
    of [r] is at most one range on either side. *)
Lemma carve_overlap r taken :
  wf r -> wf taken -> 0 < m_size r -> 0 < m_size taken -> page_aligned r -> page_aligned taken ->
  ~ disjoint r taken ->
  exists parts, carve r taken = Ok parts /\
    Forall (fun p => wf p /\ 0 < m_size p /\ page_aligned p /\ disjoint p taken /\
      m_base r <= m_base p /\ m_base p + m_size p <= m_base r + m_size r) parts /\
    ForallOrdPairs disjoint parts /\
    (forall a, within r a <-> within r a /\ within taken a \/ exists p, p ∈ parts /\ within p a) /\
    (m_base taken <= m_base r \/ m_base r + m_size r <= m_base taken + m_size taken ->
     (length parts <= 1)%nat).
Proof.
  intros Hr Ht Hpr Hpt [Ar Ar'] [At At'] Hd. pose proof Hr as (? & ? & ?). pose proof Ht as (? & ? & ?).
  unfold carve. rewrite At'. cbn [Z.eqb]. rewrite !end_ok by done.
  destruct (eqb taken r) eqn:E.
  { apply eqb_spec in E as ->. exists []. split; [done|]. split; [done|].
    split; [constructor|]. split; [|simpl; lia].
    intros a. split; [by left|]. intros [[? _]|(p & ?%not_elem_of_nil & _)]; done. }
  unfold disjoint in Hd. unfold u64. eexists. split; [done|].
  assert (m_base r < m_base taken -> wrap 64 (m_base taken - m_base r) = m_base taken - m_base r) as E1
    by (intros; apply wrap_small; unfold fits; lia).
  assert (m_base taken + m_size taken < m_base r + m_size r ->
    wrap 64 (m_base r + m_size r - (m_base taken + m_size taken)) =
    m_base r + m_size r - (m_base taken + m_size taken)) as E2
    by (intros; apply wrap_small; unfold fits; lia).
  unfold wf, page_aligned, disjoint, within, PAGE_SIZE in *.
  destruct (Z.ltb_spec (m_base r) (m_base taken)) as [L|L],
    (Z.ltb_spec (m_base taken + m_size taken) (m_base r + m_size r)) as [R|R]; cbn [app];
    try rewrite (E1 L); try rewrite (E2 R).
  all: split; [repeat (apply Forall_cons; split; [simpl; zdiv|]); apply Forall_nil; done|].
  all: split; [repeat constructor; simpl; lia|].
  all: split; [|simpl; lia].
  all: intros a; split;
    [intros Ha|intros [[? _]|(p & Hin & Hw)]; [lia|]; rewrite ?elem_of_cons, ?elem_of_nil in Hin;
     destruct_or! Hin; subst; simpl in *; done || lia].
  all: destruct (Z.lt_ge_cases a (m_base taken)), (Z.lt_ge_cases a (m_base taken + m_size taken));
    try lia; try (left; lia); right;
    solve [eexists; split; [constructor|simpl; lia]
          |eexists; split; [constructor; constructor|simpl; lia]].
Qed.

(** ** Roundings *)

Lemma page_mask x : fits 64 x -> Z.land x (u64 (Z.lnot 0xfff)) = x / PAGE_SIZE * PAGE_SIZE.
Proof. intros H. apply (land_lnot_ones x 12 64); [lia|done]. Qed.

Lemma page_round_up_ok x :
  0 <= x ->
  (x <= 2 ^ 64 - PAGE_SIZE /\
   page_round_up x = Ok ((x + PAGE_SIZE - 1) / PAGE_SIZE * PAGE_SIZE)) \/
  (2 ^ 64 - PAGE_SIZE < x /\ page_round_up x = Err EINVAL).
Proof.
  intros Hx. unfold page_round_up.
  change (Z.land 0xFFFFFFFFFFFFFFFF (u64 (Z.lnot 0xFFF))) with (2 ^ 64 - PAGE_SIZE).
  destruct (Z.ltb_spec (2 ^ 64 - PAGE_SIZE) x); [by right|left]. split; [done|].
  unfold PAGE_SIZE in *. change (4096 - 1) with 0xfff. unfold u64 at 1.
  rewrite wrap_small by (unfold fits; lia). by rewrite page_mask by (unfold fits; lia).
Qed.

Lemma is_page_aligned_spec x : fits 64 x -> is_page_aligned x = true <-> x mod PAGE_SIZE = 0.
Proof.
  intros H. unfold is_page_aligned. rewrite (Z.land_ones x 12 ltac:(lia) : Z.land x 0xfff = x mod 4096).
  apply Z.eqb_eq.
Qed.

Lemma expand_ok address size :
  fits 64 address -> fits 64 size ->
  (exists r, expand_to_page_boundaries address size = Ok r /\ wf r /\ page_aligned r /\
     m_base r <= address < m_base r + PAGE_SIZE /\
     address + size <= m_base r + m_size r < address + size + PAGE_SIZE) \/
  (expand_to_page_boundaries address size = Err EINVAL /\ 2 ^ 64 - PAGE_SIZE < address + size).
Proof.
  intros [Ha Ha'] [Hs Hs']. unfold expand_to_page_boundaries.
  destruct (Z.lt_ge_cases (address + size) (2 ^ 64)) as [Hlt|Hge].
  - unfold u64. rewrite (wrap_small 64 (address + size)) by (unfold fits; lia).
    rewrite (proj2 (Z.ltb_ge _ _)) by lia. unfold page_base.
    rewrite page_mask by (unfold fits; lia).
    destruct (page_round_up_ok (address + size)) as [[Hle ->]|[Hgt ->]]; [lia| |right; done].
    cbn [bind]. left. set (b := address / PAGE_SIZE * PAGE_SIZE).
    set (e := (address + size + PAGE_SIZE - 1) / PAGE_SIZE * PAGE_SIZE).
    assert (b <= address < b + PAGE_SIZE /\ b mod PAGE_SIZE = 0 /\ 0 <= b) as (Hb1 & Hb2 & Hb3)
      by (unfold b, PAGE_SIZE; split; [zdiv|split; [apply Z.mod_mul; lia|zdiv]]).
    assert (address + size <= e < address + size + PAGE_SIZE /\ e mod PAGE_SIZE = 0) as (He1 & He2)
      by (unfold e, PAGE_SIZE; split; [zdiv|apply Z.mod_mul; lia]).
    clearbody b e. unfold PAGE_SIZE in *. rewrite wrap_small by (unfold fits; lia).
    eexists. split; [done|]. unfold wf, page_aligned, PAGE_SIZE. simpl.
    split; [lia|]. split; [zdiv|]. lia.
  - right. unfold PAGE_SIZE in *. split; [|lia]. unfold u64. rewrite wrap_over by (unfold fits; lia).
    by rewrite (proj2 (Z.ltb_lt _ _)) by lia.
Qed.

(** ** Properties *)

(** [carve] partitions.  Cutting a page-multiple range out of a range that
    contains it yields non-empty ranges that keep page alignment, do not overlap
    each other or what was cut, and together with it cover exactly the
    original addresses. *)
Theorem carve_partitions (r taken : t) :
  wf r -> wf taken -> m_size taken mod PAGE_SIZE = 0 ->
  m_base r <= m_base taken -> m_base taken + m_size taken <= m_base r + m_size r ->
  exists parts, carve r taken = Ok parts /\
    (forall p, p ∈ parts -> wf p /\ 0 < m_size p /\ disjoint p taken) /\
    (page_aligned r -> page_aligned taken -> Forall page_aligned parts) /\
    (forall p q, p ∈ parts -> q ∈ parts -> p = q \/ disjoint p q) /\
    forall a, within r a <-> within taken a \/ exists p, p ∈ parts /\ within p a.
Proof.
  intros H1 H2 H3 H4 H5. destruct (carve_ok r taken H1 H2 H3 H4 H5) as (ps & E & Hp & Hr).
  exists ps. split; [done|]. split; [|done]. intros p Hin. destruct (Hp p Hin) as (? & ? & ? & _). done.
Qed.

Lemma carve_partitions_witness :
  exists parts, carve (mk 4096 40960) (mk 12288 8192) = Ok parts /\
    (forall p, p ∈ parts -> wf p /\ 0 < m_size p /\ disjoint p (mk 12288 8192)) /\
    (page_aligned (mk 4096 40960) -> page_aligned (mk 12288 8192) -> Forall page_aligned parts) /\
    (forall p q, p ∈ parts -> q ∈ parts -> p = q \/ disjoint p q) /\
    forall a, within (mk 4096 40960) a <->
      within (mk 12288 8192) a \/ exists p, p ∈ parts /\ within p a.
Proof. apply (carve_partitions (mk 4096 40960) (mk 12288 8192)); unfold wf; simpl; done || lia. Defined.

(** user ranges are expanded to whole pages.  [expand_to_page_boundaries]
    returns the smallest page-aligned range around the bytes asked for, or
    [EINVAL] exactly when the range wraps or reaches into the last page. *)
Theorem expand_to_page_boundaries_exact (address size : Z) :
  fits 64 address -> fits 64 size ->
  (exists r, expand_to_page_boundaries address size = Ok r /\ wf r /\ page_aligned r /\
     m_base r <= address < m_base r + PAGE_SIZE /\
     address + size <= m_base r + m_size r < address + size + PAGE_SIZE) \/
  (expand_to_page_boundaries address size = Err EINVAL /\ 2 ^ 64 - PAGE_SIZE < address + size).
Proof. apply expand_ok. Qed.

Lemma expand_to_page_boundaries_exact_witness :
  (exists r, expand_to_page_boundaries 5000 10000 = Ok r /\ wf r /\ page_aligned r /\
     m_base r <= 5000 < m_base r + PAGE_SIZE /\
     5000 + 10000 <= m_base r + m_size r < 5000 + 10000 + PAGE_SIZE) \/
  (expand_to_page_boundaries 5000 10000 = Err EINVAL /\ 2 ^ 64 - PAGE_SIZE < 5000 + 10000).
Proof. apply expand_to_page_boundaries_exact; unfold fits; lia. Defined.

End VirtualRange.
