(* ===== verification/Region.v ===== *)
(** Memory regions and their page table entries, [Kernel/Memory/Region.{h,cpp}]
    with [Kernel/Memory/MemorySections.h]: the access bits of a region with
    their history, and the loops that enter a region in the page tables and
    take it out again. *)

From stdpp Require Import strings.
From S2P Require Import Prelude BitOps VirtualRange.

Module Region.

(** ** Data *)

Inductive VMObjectKind : Type := Anonymous | SharedInode | PrivateInode | MMIO.

(** A memory object: its class, its identity and its number of page slots. *)
Record VMObject : Type := vmobject { vm_kind : VMObjectKind; vm_id : Z; vm_page_count : Z }.

Definition is_anonymous (v : VMObject) : bool :=
  match vm_kind v with Anonymous => true | _ => false end.
Definition is_shared_inode (v : VMObject) : bool :=
  match vm_kind v with SharedInode => true | _ => false end.
Definition is_mmio (v : VMObject) : bool :=
  match vm_kind v with MMIO => true | _ => false end.
Definition is_inode (v : VMObject) : bool :=
  match vm_kind v with SharedInode | PrivateInode => true | _ => false end.
Definition vm_size (v : VMObject) : Z := u64 (vm_page_count v * PAGE_SIZE).

(** [Region::Access] *)
Abbreviation Read := 1%Z (only parsing).
Abbreviation Write := 2%Z (only parsing).
Abbreviation Execute := 4%Z (only parsing).

Definition PROT_READ : Z := 1.
Definition PROT_WRITE : Z := 2.
Definition PROT_EXEC : Z := 4.
Definition PROT_NONE : Z := 0.

(** The fields of a region.  All regions of an address space belong to the same
    page directory, so [m_page_directory] only says whether it is set. *)
Record Region : Type := region {
  m_page_directory : bool;
  m_range : VirtualRange.t;
  m_offset_in_vmobject : Z;
  m_vmobject : VMObject;
  m_name : option string;
  m_access : Z;
  m_shared : bool;
  m_stack : bool;
  m_mmap : bool;
  m_syscall_region : bool;
  m_mmapped_from_readable : bool;
  m_mmapped_from_writable : bool;
  m_memory_type : Z;
  m_immutable : bool;
  m_initially_loaded_executable_segment : bool;
  m_has_been_readable : bool;
  m_has_been_writable : bool;
  m_has_been_executable : bool
}.

Definition vaddr (r : Region) : Z := VirtualRange.m_base (m_range r).
Definition region_end (r : Region) : Z := VirtualRange.end_ (m_range r).
Definition size (r : Region) : Z := VirtualRange.m_size (m_range r).
Definition page_count (r : Region) : Z := size r / PAGE_SIZE.
Definition first_page_index (r : Region) : Z := m_offset_in_vmobject r / PAGE_SIZE.
Definition vaddr_from_page_index (r : Region) (page_index : Z) : Z :=
  u64 (vaddr r + u64 (page_index * PAGE_SIZE)).

Definition is_readable (r : Region) : bool := Z.land (m_access r) Read =? Read.
Definition is_writable (r : Region) : bool := Z.land (m_access r) Write =? Write.
Definition is_executable (r : Region) : bool := Z.land (m_access r) Execute =? Execute.

(** ** Setters *)

Definition set_range (r : Region) (range : VirtualRange.t) : Region :=
  region (m_page_directory r) range (m_offset_in_vmobject r) (m_vmobject r) (m_name r) (m_access r)
    (m_shared r) (m_stack r) (m_mmap r) (m_syscall_region r) (m_mmapped_from_readable r)
    (m_mmapped_from_writable r) (m_memory_type r) (m_immutable r)
    (m_initially_loaded_executable_segment r) (m_has_been_readable r) (m_has_been_writable r)
    (m_has_been_executable r).

Definition set_directory (r : Region) (b : bool) : Region :=
  region b (m_range r) (m_offset_in_vmobject r) (m_vmobject r) (m_name r) (m_access r)
    (m_shared r) (m_stack r) (m_mmap r) (m_syscall_region r) (m_mmapped_from_readable r)
    (m_mmapped_from_writable r) (m_memory_type r) (m_immutable r)
    (m_initially_loaded_executable_segment r) (m_has_been_readable r) (m_has_been_writable r)
    (m_has_been_executable r).

Definition set_mmap (r : Region) (mmap description_was_readable description_was_writable : bool)
    : Region :=
  region (m_page_directory r) (m_range r) (m_offset_in_vmobject r) (m_vmobject r) (m_name r)
    (m_access r) (m_shared r) (m_stack r) mmap (m_syscall_region r) description_was_readable
    description_was_writable (m_memory_type r) (m_immutable r)
    (m_initially_loaded_executable_segment r) (m_has_been_readable r) (m_has_been_writable r)
    (m_has_been_executable r).

Definition set_name (r : Region) (name : option string) : Region :=
  region (m_page_directory r) (m_range r) (m_offset_in_vmobject r) (m_vmobject r) name
    (m_access r) (m_shared r) (m_stack r) (m_mmap r) (m_syscall_region r)
    (m_mmapped_from_readable r) (m_mmapped_from_writable r) (m_memory_type r) (m_immutable r)
    (m_initially_loaded_executable_segment r) (m_has_been_readable r) (m_has_been_writable r)
    (m_has_been_executable r).

Definition set_shared (r : Region) (shared : bool) : Region :=
  region (m_page_directory r) (m_range r) (m_offset_in_vmobject r) (m_vmobject r) (m_name r)
    (m_access r) shared (m_stack r) (m_mmap r) (m_syscall_region r)
    (m_mmapped_from_readable r) (m_mmapped_from_writable r) (m_memory_type r) (m_immutable r)
    (m_initially_loaded_executable_segment r) (m_has_been_readable r) (m_has_been_writable r)
    (m_has_been_executable r).

Definition set_stack (r : Region) (stack : bool) : Region :=
  region (m_page_directory r) (m_range r) (m_offset_in_vmobject r) (m_vmobject r) (m_name r)
    (m_access r) (m_shared r) stack (m_mmap r) (m_syscall_region r)
    (m_mmapped_from_readable r) (m_mmapped_from_writable r) (m_memory_type r) (m_immutable r)
    (m_initially_loaded_executable_segment r) (m_has_been_readable r) (m_has_been_writable r)
    (m_has_been_executable r).

Definition set_syscall_region (r : Region) (b : bool) : Region :=
  region (m_page_directory r) (m_range r) (m_offset_in_vmobject r) (m_vmobject r) (m_name r)
    (m_access r) (m_shared r) (m_stack r) (m_mmap r) b
    (m_mmapped_from_readable r) (m_mmapped_from_writable r) (m_memory_type r) (m_immutable r)
    (m_initially_loaded_executable_segment r) (m_has_been_readable r) (m_has_been_writable r)
    (m_has_been_executable r).

Definition set_immutable (r : Region) : Region :=
  region (m_page_directory r) (m_range r) (m_offset_in_vmobject r) (m_vmobject r) (m_name r)
    (m_access r) (m_shared r) (m_stack r) (m_mmap r) (m_syscall_region r)
    (m_mmapped_from_readable r) (m_mmapped_from_writable r) (m_memory_type r) true
    (m_initially_loaded_executable_segment r) (m_has_been_readable r) (m_has_been_writable r)
    (m_has_been_executable r).

(** The access bits and the flags that remember which of them were ever set. *)
Definition set_access_fields (r : Region) (access : Z) (been_r been_w been_x : bool) : Region :=
  region (m_page_directory r) (m_range r) (m_offset_in_vmobject r) (m_vmobject r) (m_name r)
    access (m_shared r) (m_stack r) (m_mmap r) (m_syscall_region r)
    (m_mmapped_from_readable r) (m_mmapped_from_writable r) (m_memory_type r) (m_immutable r)
    (m_initially_loaded_executable_segment r) been_r been_w been_x.

Definition access_bit (m_access access : Z) (b : bool) : Z :=
  if b then Z.lor m_access access else Z.land m_access (u8 (Z.lnot access)).

Definition set_readable (r : Region) (b : bool) : Region :=
  set_access_fields r (access_bit (m_access r) Read b)
    (m_has_been_readable r || b) (m_has_been_writable r) (m_has_been_executable r).
Definition set_writable (r : Region) (b : bool) : Region :=
  set_access_fields r (access_bit (m_access r) Write b)
    (m_has_been_readable r) (m_has_been_writable r || b) (m_has_been_executable r).
Definition set_executable (r : Region) (b : bool) : Region :=
  set_access_fields r (access_bit (m_access r) Execute b)
    (m_has_been_readable r) (m_has_been_writable r) (m_has_been_executable r || b).

(** The three setters a change of protection calls. *)
Definition set_prot (r : Region) (prot : Z) : Region :=
  set_executable (set_writable (set_readable r (negb (Z.land prot PROT_READ =? 0)))
    (negb (Z.land prot PROT_WRITE =? 0))) (negb (Z.land prot PROT_EXEC =? 0)).

(** ** Construction *)

Definition has_flag (access flag : Z) : bool := Z.land access flag =? flag.

(** The constructor for regions that have no place yet; it ends with
    [update_shadow_permission_bits]. *)
Definition create_unplaced (v : VMObject) (offset_in_vmobject : Z) (name : option string)
    (access memory_type : Z) (shared : bool) : Region :=
  region false (VirtualRange.mk 0 0) offset_in_vmobject v name access shared false false false
    false false memory_type false false
    (has_flag access Read) (has_flag access Write) (has_flag access Execute).

Definition prot_to_region_access_flags (prot : Z) : Z :=
  Z.lor (Z.lor (if Z.land prot PROT_READ =? PROT_READ then Read else 0)
               (if Z.land prot PROT_WRITE =? PROT_WRITE then Write else 0))
        (if Z.land prot PROT_EXEC =? PROT_EXEC then Execute else 0).

Definition region_access_flags_to_prot (access : Z) : Z :=
  Z.lor (Z.lor (if Z.land access Read =? Read then PROT_READ else 0)
               (if Z.land access Write =? Write then PROT_WRITE else 0))
        (if Z.land access Execute =? Execute then PROT_EXEC else 0).

(** ** The machine around a region

    What a region sees of the rest of the kernel while one system call runs:
    the boot parameters, the page slots of the memory objects, and whether the
    [n]th point at which kernel memory has to be allocated succeeds. *)

Record PhysicalPage : Type := {
  paddr : Z;
  is_shared_zero_page : bool;
  is_lazy_committed_page : bool
}.

Record Env : Type := {
  kernel_mapping_base : Z;
  has_nx : bool;
  memory_available : nat -> bool;
  physical_pages : VMObject -> Z -> option PhysicalPage;
  anonymous_should_cow : VMObject -> Z -> bool -> bool;
  is_page_dirty : VMObject -> Z -> bool;
  base_address : VMObject -> Z
}.

Abbreviation USER_RANGE_BASE := 0x10000%Z (only parsing).
Definition USER_RANGE_CEILING (env : Env) : Z := u64 (kernel_mapping_base env - 0x2000000).

Definition is_user_address (env : Env) (vaddr : Z) : bool := vaddr <? USER_RANGE_CEILING env.

Definition is_user_range (env : Env) (range : VirtualRange.t) : bool :=
  let vaddr := VirtualRange.m_base range in
  let size := VirtualRange.m_size range in
  if u64 (vaddr + size) <? vaddr then false
  else if negb (is_user_address env vaddr) then false
  else if size <=? 1 then true
  else is_user_address env (u64 (vaddr + (size - 1))).

Definition is_kernel (env : Env) (r : Region) : bool :=
  (vaddr r <? USER_RANGE_BASE) || (kernel_mapping_base env <=? vaddr r).
Definition is_user (env : Env) (r : Region) : bool := negb (is_kernel env r).

Record PageTableEntry : Type := {
  pte_memory_type : Z;
  physical_page_base : Z;
  pte_is_writable : bool;
  is_execute_disabled : bool;
  is_user_allowed : bool
}.

(** The present entries of the page tables by page address, and the number of
    allocations made so far. *)
Record MMU : Type := mmu { ptes : gmap Z PageTableEntry; ticks : nat }.

(** ** Mapping *)

Definition should_cow (env : Env) (r : Region) (page_index : Z) : bool :=
  if negb (is_anonymous (m_vmobject r)) then false
  else anonymous_should_cow env (m_vmobject r) (first_page_index r + page_index) (m_shared r).

Definition should_dirty_on_write (env : Env) (r : Region) (page_index : Z) : bool :=
  if negb (is_inode (m_vmobject r)) then false
  else negb (is_page_dirty env (m_vmobject r) (first_page_index r + page_index)).

(** The entry for a page; [None] clears it. *)
Definition page_entry (env : Env) (r : Region) (page_index : Z) (source : Z * bool * bool)
    (old : option PageTableEntry) (user_allowed : bool) : option PageTableEntry :=
  let '(paddr, readable, writable) := source in
  if negb readable && negb writable then None
  else Some {|
    pte_memory_type := m_memory_type r;
    physical_page_base := paddr;
    pte_is_writable :=
      writable && negb (should_cow env r page_index || should_dirty_on_write env r page_index);
    is_execute_disabled := if has_nx env then negb (is_executable r)
                           else match old with Some o => is_execute_disabled o | None => false end;
    is_user_allowed := user_allowed |}.

(** [map_individual_page_impl]: [false] when no page table could be allocated. *)
Definition map_individual_page (env : Env) (r : Region) (page_index : Z) (source : Z * bool * bool)
    (m : MMU) : outcome (MMU * bool) :=
  let page_vaddr := vaddr_from_page_index r page_index in
  let user_allowed := (USER_RANGE_BASE <=? page_vaddr) && is_user_address env page_vaddr in
  if m_mmap r && negb user_allowed then Panic
  else if memory_available env (ticks m) then
    let ptes' := match page_entry env r page_index source (ptes m !! page_vaddr) user_allowed with
                 | Some pte => <[page_vaddr := pte]> (ptes m)
                 | None => delete page_vaddr (ptes m)
                 end in
    Ok (mmu ptes' (S (ticks m)), true)
  else Ok (mmu (ptes m) (S (ticks m)), false).

(** The page in the slot of the memory object behind a page of the region, with
    the access it is mapped with. *)
Definition page_in_slot (env : Env) (r : Region) (page_index : Z) : Z * bool * bool :=
  match physical_pages env (m_vmobject r) (first_page_index r + page_index) with
  | None => (0, false, false)
  | Some page => (paddr page, is_readable r,
      is_writable r && negb (is_shared_zero_page page) && negb (is_lazy_committed_page page))
  end.

(** The page of a device behind a page of the region. *)
Definition page_of_device (env : Env) (r : Region) (page_index : Z) : Z * bool * bool :=
  (u64 (base_address env (m_vmobject r) + page_index * PAGE_SIZE), is_readable r, is_writable r).

(** The loop of [map_impl] and [map] over the [n] pages from [page_index] on. *)
Fixpoint map_pages (n : nat) (env : Env) (r : Region) (source : Z -> Z * bool * bool)
    (page_index : Z) (m : MMU) : outcome (MMU * bool) :=
  match n with
  | O => Ok (m, true)
  | S n =>
      let! (m, mapped) := map_individual_page env r page_index (source page_index) m in
      if mapped then map_pages n env r source (page_index + 1) m else Ok (m, false)
  end.

(** [false] is [ENOMEM]; the pages entered before the failure stay. *)
Definition map_from (env : Env) (r : Region) (source : Z -> Z * bool * bool) (m : MMU)
    : outcome (MMU * bool) :=
  let! (m, all) := map_pages (Z.to_nat (page_count r)) env r source 0 m in
  Ok (m, all && (0 <? page_count r)).

Definition map_impl (env : Env) (r : Region) (m : MMU) : outcome (MMU * bool) :=
  if is_user env r && negb (m_shared r) && is_shared_inode (m_vmobject r) then Panic else
  map_from env r (page_in_slot env r) m.

(** The mapping that [remap_impl] makes. *)
Definition remap_impl (env : Env) (r : Region) (m : MMU) : outcome (MMU * bool) :=
  if is_mmio (m_vmobject r) then map_from env r (page_of_device env r) m else map_impl env r m.

Fixpoint release_ptes (n : nat) (r : Region) (page_index : Z) (ps : gmap Z PageTableEntry)
    : gmap Z PageTableEntry :=
  match n with
  | O => ps
  | S n => release_ptes n r (page_index + 1) (delete (vaddr_from_page_index r page_index) ps)
  end.

Definition unmap (r : Region) (m : MMU) : MMU :=
  if negb (m_page_directory r) then m
  else mmu (release_ptes (Z.to_nat (page_count r)) r 0 (ptes m)) (ticks m).

(** [~Region] *)
Definition destroy (r : Region) (m : MMU) : MMU :=
  if negb (m_page_directory r) then m
  else if negb (is_readable r) && negb (is_writable r) && negb (is_executable r) then m
  else unmap r m.

(** ** Proofs *)

(** Regions the address space code works with. *)
Record region_ok (r : Region) : Prop := {
  ok_wf : VirtualRange.wf (m_range r);
  ok_pages : VirtualRange.page_aligned (m_range r);
  ok_size : 0 < size r;
  ok_shared : is_shared_inode (m_vmobject r) = true -> m_shared r = true;
  ok_access : 0 <= m_access r < 8
}.

(** What [region_ok] says of a region that has no place yet. *)
Definition attrs_ok (r : Region) : Prop :=
  (is_shared_inode (m_vmobject r) = true -> m_shared r = true) /\ 0 <= m_access r < 8.

(** The address of one of the pages of a region. *)
Definition page_of (r : Region) (p : Z) : Prop :=
  VirtualRange.within (m_range r) p /\ p mod PAGE_SIZE = 0.

(** The region lies where user programs may have memory. *)
Definition in_user_space (env : Env) (r : Region) : Prop :=
  USER_RANGE_BASE <= vaddr r /\ vaddr r + size r <= USER_RANGE_CEILING env.

(** A page table entry that grants no more than the region does. *)
Definition entry_allowed (env : Env) (r : Region) (pte : PageTableEntry) : Prop :=
  (pte_is_writable pte = true -> is_writable r = true) /\
  (has_nx env = true -> is_execute_disabled pte = negb (is_executable r)) /\
  is_readable r || is_writable r = true.

Lemma page_index_vaddr r i :
  region_ok r -> 0 <= i < page_count r ->
  vaddr_from_page_index r i = vaddr r + i * PAGE_SIZE /\ page_of r (vaddr r + i * PAGE_SIZE).
Proof.
  intros [(Hb & Hs & He) [Ha Ha'] Hp _ _] Hi. unfold page_count, size in *.
  assert (i * PAGE_SIZE + PAGE_SIZE <= VirtualRange.m_size (m_range r)) as Hle
    by (unfold PAGE_SIZE in *; zdiv).
  unfold vaddr_from_page_index, page_of, VirtualRange.within, vaddr in *. unfold PAGE_SIZE in *.
  unfold u64. rewrite (wrap_small 64 (i * 4096)) by (unfold fits; lia).
  rewrite wrap_small by (unfold fits; lia). repeat split; [lia|lia|zdiv].
Qed.

Lemma page_of_index r p : region_ok r -> page_of r p ->
  exists i, 0 <= i < page_count r /\ p = vaddr r + i * PAGE_SIZE.
Proof.
  intros [_ [Ha Ha'] _ _ _] [[Hlo Hhi] Hm]. unfold page_count, size, vaddr, PAGE_SIZE in *.
  exists ((p - VirtualRange.m_base (m_range r)) / 4096). zdiv.
Qed.

(** A source of pages grants no more than the region does. *)
Definition source_allowed (r : Region) (source : Z * bool * bool) : Prop :=
  let '(_, readable, writable) := source in
  (readable = true -> is_readable r = true) /\ (writable = true -> is_writable r = true).

Lemma page_in_slot_allowed env r i : source_allowed r (page_in_slot env r i).
Proof.
  unfold page_in_slot. destruct (physical_pages _ _ _) as [pg|]; [|done]. split; [done|].
  by intros [[? _]%andb_prop _]%andb_prop.
Qed.

Lemma page_entry_allowed env r i source old u pte :
  source_allowed r source -> page_entry env r i source old u = Some pte -> entry_allowed env r pte.
Proof.
  destruct source as [[pa rd] wr]. intros [Hrd Hwr]. unfold page_entry, entry_allowed. intros H.
  destruct (negb rd && negb wr) eqn:E; [discriminate|]. injection H as <-. simpl.
  split; [|split].
  - intros [? _]%andb_prop. auto.
  - by intros ->.
  - destruct rd; [by rewrite Hrd|]. destruct wr; [|done]. rewrite Hwr by done. apply orb_true_r.
Qed.

Lemma map_pages_ok n env r source i m :
  region_ok r -> in_user_space env r -> (forall j, source_allowed r (source j)) -> 0 <= i -> i + Z.of_nat n <= page_count r ->
  exists m' b, map_pages n env r source i m = Ok (m', b) /\
    (forall p, (forall j, i <= j < i + Z.of_nat n -> p <> vaddr r + j * PAGE_SIZE) ->
       ptes m' !! p = ptes m !! p) /\
    (forall p pte, ptes m' !! p = Some pte -> ptes m !! p = Some pte \/
       page_of r p /\ entry_allowed env r pte) /\
    (b = true -> forall j pte, i <= j < i + Z.of_nat n ->
       ptes m' !! (vaddr r + j * PAGE_SIZE) = Some pte -> entry_allowed env r pte) /\
    ((forall t, memory_available env t = true) -> b = true).
Proof.
  intros Hr Hu Hs. revert i m. induction n as [|n IH]; intros i m Hi Hn.
  { exists m, true. split; [done|]. split; [done|]. split; [by left|]. split; [lia|done]. }
  destruct (page_index_vaddr r i Hr ltac:(lia)) as [Ev Hpage].
  cbn [map_pages]. unfold map_individual_page. rewrite Ev. set (v := vaddr r + i * PAGE_SIZE) in *.
  assert ((USER_RANGE_BASE <=? v) && is_user_address env v = true) as ->.
  { destruct Hu. destruct Hpage as [[? ?] _]. unfold is_user_address, vaddr, size in *.
    apply andb_true_iff. rewrite Z.leb_le, Z.ltb_lt. lia. }
  rewrite andb_false_r. destruct (memory_available env (ticks m)) eqn:Em; cbn [bind].
  2:{ eexists _, false. split; [done|]. simpl. split; [done|]. split; [by left|].
      split; [done|]. intros Hall. by rewrite Hall in Em. }
  set (ptes' := match page_entry env r i (source i) (ptes m !! v) true with Some _ => _ | None => _ end).
  assert (forall p, p <> v -> ptes' !! p = ptes m !! p) as Hne.
  { intros p Hp. unfold ptes'. destruct (page_entry _ _ _ _ _ _).
    - by rewrite lookup_insert_ne. - by rewrite lookup_delete_ne. }
  assert (forall pte, ptes' !! v = Some pte -> entry_allowed env r pte) as Hv.
  { intros pte. unfold ptes'. destruct (page_entry _ _ _ _ _ _) eqn:E.
    - rewrite lookup_insert_eq. intros [= <-]. by eapply page_entry_allowed, E.
    - by rewrite lookup_delete_eq. }
  destruct (IH (i + 1) (mmu ptes' (S (ticks m))) ltac:(lia) ltac:(lia))
    as (m' & b & E & Hout & Hin & Hall & Hmem).
  exists m', b. split; [exact E|]. split; [|split; [|split; [|exact Hmem]]].
  - intros p Hp. rewrite Hout by (intros j Hj; apply Hp; lia). apply Hne. apply (Hp i). lia.
  - intros p pte Hl. destruct (Hin p pte Hl) as [Hl'|?]; [|by right]. simpl in Hl'.
    destruct (decide (p = v)) as [->|Hd]; [right; split; [done|by apply Hv]|left].
    by rewrite <- Hne.
  - intros -> j pte Hj Hl. destruct (decide (j = i)) as [->|Hd].
    + fold v in Hl. rewrite Hout in Hl by (intros j Hj'; unfold v, PAGE_SIZE; lia). by apply Hv.
    + apply (Hall eq_refl j); [lia|done].
Qed.

(** What entering a region in the page tables does. *)
Definition entered (env : Env) (r : Region) (m : MMU) (o : outcome (MMU * bool)) : Prop :=
  exists m' b, o = Ok (m', b) /\
    (forall p, ~ page_of r p -> ptes m' !! p = ptes m !! p) /\
    (forall p pte, ptes m' !! p = Some pte -> ptes m !! p = Some pte \/
       page_of r p /\ entry_allowed env r pte) /\
    (b = true -> forall p pte, page_of r p -> ptes m' !! p = Some pte -> entry_allowed env r pte) /\
    ((forall t, memory_available env t = true) -> b = true).

Lemma map_from_ok env r source m :
  region_ok r -> in_user_space env r -> (forall j, source_allowed r (source j)) ->
  entered env r m (map_from env r source m).
Proof.
  intros Hr Hu Hs. unfold map_from.
  assert (0 < page_count r) as Hpc.
  { pose proof (ok_size r Hr). destruct (ok_pages r Hr) as [_ ?]. unfold page_count, size, PAGE_SIZE in *.
    zdiv. }
  destruct (map_pages_ok (Z.to_nat (page_count r)) env r source 0 m Hr Hu Hs) as (m' & b & -> & H1 & H2 & H3 & H4);
    [lia|lia|]. cbn [bind]. rewrite (proj2 (Z.ltb_lt _ _) Hpc), andb_true_r.
  exists m', b. split; [done|]. split; [|split; [done|split; [|done]]].
  - intros p Hp. apply H1. intros j Hj ->. apply Hp. apply page_index_vaddr; [done|lia].
  - intros -> p pte Hp Hl. destruct (page_of_index r p Hr Hp) as (i & Hi & ->).
    apply (H3 eq_refl i); [lia|done].
Qed.

Lemma map_impl_ok env r m :
  region_ok r -> in_user_space env r -> entered env r m (map_impl env r m).
Proof.
  intros Hr Hu. unfold map_impl.
  replace (is_user env r && negb (m_shared r) && is_shared_inode (m_vmobject r)) with false.
  - apply map_from_ok; [done|done|]. intros j. apply page_in_slot_allowed.
  - pose proof (ok_shared r Hr). destruct (is_shared_inode _); [|by rewrite andb_false_r].
    rewrite H by done. by rewrite andb_false_r.
Qed.

Lemma remap_impl_ok env r m :
  region_ok r -> in_user_space env r -> entered env r m (remap_impl env r m).
Proof.
  intros Hr Hu. unfold remap_impl. destruct (is_mmio _); [|by apply map_impl_ok]. by apply map_from_ok.
Qed.

Lemma release_ptes_ok n r i ps :
  region_ok r -> 0 <= i -> i + Z.of_nat n <= page_count r ->
  (forall j, i <= j < i + Z.of_nat n -> release_ptes n r i ps !! (vaddr r + j * PAGE_SIZE) = None) /\
  (forall p, (forall j, i <= j < i + Z.of_nat n -> p <> vaddr r + j * PAGE_SIZE) ->
     release_ptes n r i ps !! p = ps !! p).
Proof.
  intros Hr. revert i ps. induction n as [|n IH]; intros i ps Hi Hn; [split; [lia|done]|].
  destruct (page_index_vaddr r i Hr ltac:(lia)) as [Ev _]. cbn [release_ptes]. rewrite Ev.
  destruct (IH (i + 1) (delete (vaddr r + i * PAGE_SIZE) ps) ltac:(lia) ltac:(lia)) as [Hin Hout].
  split.
  - intros j Hj. destruct (decide (j = i)) as [->|]; [|apply Hin; lia].
    rewrite Hout by (intros; unfold PAGE_SIZE; lia). apply lookup_delete_eq.
  - intros p Hp. rewrite Hout by (intros j Hj; apply Hp; lia).
    apply lookup_delete_ne. intros E. apply (Hp i); [lia|done].
Qed.

Lemma unmap_ok r m :
  region_ok r ->
  (forall p, ~ page_of r p -> ptes (unmap r m) !! p = ptes m !! p) /\
  (forall p, page_of r p -> m_page_directory r = true -> ptes (unmap r m) !! p = None) /\
  (forall p pte, ptes (unmap r m) !! p = Some pte -> ptes m !! p = Some pte).
Proof.
  intros Hr. unfold unmap. destruct (m_page_directory r); [|done]. simpl.
  destruct (release_ptes_ok (Z.to_nat (page_count r)) r 0 (ptes m) Hr) as [Hin Hout]; [lia| |].
  { destruct (ok_wf r Hr) as (_ & ? & _). unfold page_count, size, PAGE_SIZE in *. zdiv. }
  assert (forall p, page_of r p -> release_ptes (Z.to_nat (page_count r)) r 0 (ptes m) !! p = None)
    as Hnone.
  { intros p Hp. destruct (page_of_index r p Hr Hp) as (j & Hj & ->). apply Hin. lia. }
  assert (forall p, ~ page_of r p ->
    release_ptes (Z.to_nat (page_count r)) r 0 (ptes m) !! p = ptes m !! p) as Hsame.
  { intros p Hp. apply Hout. intros j Hj ->. apply Hp, page_index_vaddr; [done|lia]. }
  split; [done|]. split; [by intros p ? _; apply Hnone|]. intros p pte Hl.
  destruct (decide (VirtualRange.contains_address (m_range r) p = true /\ p mod PAGE_SIZE = 0)) as [[E ?]|Hd].
  - apply VirtualRange.contains_address_spec in E; [|apply Hr]. by rewrite Hnone in Hl.
  - rewrite Hsame in Hl; [done|]. intros [? ?]. apply Hd. split; [|done].
    by apply VirtualRange.contains_address_spec; [apply Hr|].
Qed.

(** ** Access bits *)

Lemma readable_bit r : is_readable r = Z.testbit (m_access r) 0.
Proof. apply (land_bit (m_access r) 0). lia. Qed.
Lemma writable_bit r : is_writable r = Z.testbit (m_access r) 1.
Proof. apply (land_bit (m_access r) 1). lia. Qed.
Lemma executable_bit r : is_executable r = Z.testbit (m_access r) 2.
Proof. apply (land_bit (m_access r) 2). lia. Qed.

Lemma access_bit_spec a b n k : 0 <= n < 8 -> 0 <= k < 8 ->
  Z.testbit (access_bit a (2 ^ n) b) k = if k =? n then b else Z.testbit a k.
Proof.
  intros Hn Hk. unfold access_bit. destruct b.
  - rewrite Z.lor_spec, Z.pow2_bits_eqb by lia. rewrite Z.eqb_sym.
    destruct (k =? n); [apply orb_true_r|apply orb_false_r].
  - rewrite Z.land_spec. unfold u8, wrap. rewrite Z.mod_pow2_bits_low by lia.
    rewrite Z.lnot_spec, Z.pow2_bits_eqb by lia. rewrite (Z.eqb_sym n k).
    destruct (k =? n); [apply andb_false_r|apply andb_true_r].
Qed.

Lemma set_prot_bits r prot :
  is_readable (set_prot r prot) = Z.testbit prot 0 /\
  is_writable (set_prot r prot) = Z.testbit prot 1 /\
  is_executable (set_prot r prot) = Z.testbit prot 2.
Proof.
  rewrite readable_bit, writable_bit, executable_bit.
  unfold set_prot, set_executable, set_writable, set_readable, set_access_fields. cbn [m_access].
  change Read with (2 ^ 0). change Write with (2 ^ 1). change Execute with (2 ^ 2).
  change PROT_READ with (2 ^ 0). change PROT_WRITE with (2 ^ 1). change PROT_EXEC with (2 ^ 2).
  rewrite !access_bit_spec by lia. rewrite !land_zero_bit by lia. done.
Qed.

Lemma prot_flags_bits prot :
  Z.testbit (prot_to_region_access_flags prot) 0 = Z.testbit prot 0 /\
  Z.testbit (prot_to_region_access_flags prot) 1 = Z.testbit prot 1 /\
  Z.testbit (prot_to_region_access_flags prot) 2 = Z.testbit prot 2.
Proof.
  unfold prot_to_region_access_flags.
  change PROT_READ with (2 ^ 0). change PROT_WRITE with (2 ^ 1). change PROT_EXEC with (2 ^ 2).
  rewrite !land_bit by lia.
  destruct (Z.testbit prot 0), (Z.testbit prot 1), (Z.testbit prot 2); done.
Qed.

Lemma prot_flags_range prot : 0 <= prot_to_region_access_flags prot < 8.
Proof. unfold prot_to_region_access_flags. repeat case_match; done. Qed.

Lemma bits3_eq a b :
  0 <= a < 8 -> 0 <= b < 8 -> Z.testbit a 0 = Z.testbit b 0 -> Z.testbit a 1 = Z.testbit b 1 ->
  Z.testbit a 2 = Z.testbit b 2 -> a = b.
Proof.
  intros Ha Hb H0 H1 H2. apply Z.bits_inj'. intros i Hi.
  destruct (Z.lt_ge_cases i 3) as [|Hge].
  - assert (i = 0 \/ i = 1 \/ i = 2) as [->|[->| ->]] by lia; done.
  - assert (forall x, 0 <= x < 8 -> Z.testbit x i = false) as Hx.
    { intros x Hx. destruct (Z.eq_dec x 0) as [->|]; [apply Z.bits_0|]. apply Z.bits_above_log2; [lia|].
      apply Z.lt_le_trans with 3; [|done]. apply Z.log2_lt_pow2; lia. }
    by rewrite !Hx.
Qed.

Lemma access_bit_range a n b : 0 <= n < 3 -> 0 <= a < 8 -> 0 <= access_bit a (2 ^ n) b < 8.
Proof.
  intros Hn Ha. assert (n = 0 \/ n = 1 \/ n = 2) as Hc by lia.
  assert (a = 0 \/ a = 1 \/ a = 2 \/ a = 3 \/ a = 4 \/ a = 5 \/ a = 6 \/ a = 7) as Hc' by lia.
  destruct b; destruct_or! Hc; destruct_or! Hc'; subst; done.
Qed.

(** Setting the protection gives the region the access bits of the protection. *)
Lemma set_prot_access r prot :
  0 <= m_access r < 8 -> m_access (set_prot r prot) = prot_to_region_access_flags prot.
Proof.
  intros Hr. pose proof (set_prot_bits r prot) as (H0 & H1 & H2).
  rewrite readable_bit in H0. rewrite writable_bit in H1. rewrite executable_bit in H2.
  destruct (prot_flags_bits prot) as (E0 & E1 & E2).
  apply bits3_eq; [|apply prot_flags_range|congruence..].
  unfold set_prot, set_executable, set_writable, set_readable, set_access_fields. cbn [m_access].
  change Read with (2 ^ 0). change Write with (2 ^ 1). change Execute with (2 ^ 2).
  do 3 (apply access_bit_range; [lia|]). done.
Qed.

Lemma is_user_range_spec env range :
  VirtualRange.wf range -> 0 < VirtualRange.m_size range ->
  is_user_range env range = true <->
  VirtualRange.m_base range + VirtualRange.m_size range <= USER_RANGE_CEILING env.
Proof.
  intros (Hb & Hs & He) Hp. unfold is_user_range, is_user_address.
  unfold u64. rewrite !wrap_small by (unfold fits; lia). rewrite (proj2 (Z.ltb_ge _ _)) by lia.
  destruct (Z.ltb_spec (VirtualRange.m_base range) (USER_RANGE_CEILING env)); simpl; [|split; [done|lia]].
  destruct (Z.leb_spec (VirtualRange.m_size range) 1); [split; [lia|done]|].
  rewrite Z.ltb_lt. lia.
Qed.

End Region.
