(* ===== verification/RegionTree.v ===== *)
(** The regions of an address space, [Kernel/Memory/RegionTree.{h,cpp}].  The
    regions are kept in a tree ordered by address; what the tree promises is
    the class [OrderedTree], and the placement algorithms are written and
    proved against it. *)

From stdpp Require Import strings.
From Stdlib Require Import Sorted.
From S2P Require Import Prelude BitOps VirtualRange Region.

(** ** The ordered tree interface

    The operations of [AK/IntrusiveRedBlackTree.h] that the kernel's address
    spaces use.  [tree_elements] is the order the iterators visit. *)
Class OrderedTree (T V : Type) : Type := {
  tree_empty : T;
  tree_elements : T -> list (Z * V);
  tree_find : T -> Z -> option V;
  find_largest_not_above : T -> Z -> option V;
  tree_insert : Z -> V -> T -> T;
  tree_remove : Z -> T -> option T
}.

Definition ordered {V} (l : list (Z * V)) : Prop := StronglySorted (fun a b => fst a < fst b) l.

Class OrderedTreeLaws (T V : Type) `{!OrderedTree T V} : Prop := {
  elements_empty : tree_elements (tree_empty : T) = [];
  elements_insert : forall (t : T) k (v : V),
    ordered (tree_elements t) -> (forall w, (k, w) ∉ tree_elements t) ->
    ordered (tree_elements (tree_insert k v t)) /\
    forall e, e ∈ tree_elements (tree_insert k v t) <-> e = (k, v) \/ e ∈ tree_elements t;
  elements_remove : forall (t : T) k (v : V),
    ordered (tree_elements t) -> (k, v) ∈ tree_elements t ->
    exists t', tree_remove k t = Some t' /\ ordered (tree_elements t') /\
      forall e, e ∈ tree_elements t' <-> e ∈ tree_elements t /\ fst e <> k;
  remove_absent : forall (t : T) k,
    ordered (tree_elements t) -> (forall w : V, (k, w) ∉ tree_elements t) -> tree_remove k t = None;
  find_iff : forall (t : T) k (v : V),
    ordered (tree_elements t) -> tree_find t k = Some v <-> (k, v) ∈ tree_elements t;
  largest_some : forall (t : T) k (v : V),
    ordered (tree_elements t) -> find_largest_not_above t k = Some v ->
    exists k', (k', v) ∈ tree_elements t /\ k' <= k /\
      forall k'' w, (k'', w) ∈ tree_elements t -> k'' <= k -> k'' <= k';
  largest_none : forall (t : T) k,
    ordered (tree_elements t) -> find_largest_not_above t k = None ->
    forall k' (w : V), (k', w) ∈ tree_elements t -> k < k'
}.

Module RegionTree.
Import Region.

(** ** State *)

Inductive RandomizeVirtualAddress : Type := No | Yes.

Section Tree.
Context {T : Type} `{!OrderedTree T Region}.

Record t : Type := mk { m_regions : T; m_total_range : VirtualRange.t }.

Definition make (total_range : VirtualRange.t) : t := mk tree_empty total_range.

(** ** Placement *)

Definition allocate_from_window (size alignment : Z) (window : VirtualRange.t)
    : option VirtualRange.t :=
  if VirtualRange.m_size window <? u64 (size + alignment) then None
  else Some (VirtualRange.mk (round_up_to_power_of_two (VirtualRange.m_base window) alignment) size).

(** The walk over the regions: the range found in a window between two of them,
    or the end of the last one. *)
Fixpoint search_windows (size alignment : Z) (l : list (Z * Region)) (window_start : Z)
    : VirtualRange.t + Z :=
  match l with
  | [] => inr window_start
  | (_, r) :: l =>
      if window_start =? vaddr r then search_windows size alignment l (region_end r) else
      let window := VirtualRange.mk window_start (u64 (vaddr r - window_start)) in
      match allocate_from_window size alignment window with
      | Some range => inl range
      | None => search_windows size alignment l (region_end r)
      end
  end.

Definition allocate_range_anywhere (tr : t) (size alignment : Z) : outcome VirtualRange.t :=
  if size =? 0 then Err EINVAL else
  VERIFY (size mod PAGE_SIZE =? 0) ;;
  VERIFY (alignment mod PAGE_SIZE =? 0) ;;
  if 2 ^ 64 <=? size + alignment then Err EOVERFLOW else
  match search_windows size alignment (tree_elements (m_regions tr))
          (VirtualRange.m_base (m_total_range tr)) with
  | inl range => Ok range
  | inr window_start =>
      let window := VirtualRange.mk window_start
                      (u64 (VirtualRange.end_ (m_total_range tr) - window_start)) in
      if VirtualRange.contains (m_total_range tr) window then
        match allocate_from_window size alignment window with
        | Some range => Ok range
        | None => Err ENOMEM
        end
      else Err ENOMEM
  end.

Definition allocate_range_specific (tr : t) (base size : Z) : outcome VirtualRange.t :=
  if size =? 0 then Err EINVAL else
  VERIFY (VirtualRange.is_page_aligned base) ;;
  VERIFY (size mod PAGE_SIZE =? 0) ;;
  let range := VirtualRange.mk base size in
  if negb (VirtualRange.contains (m_total_range tr) range) then Err ENOMEM else
  match find_largest_not_above (m_regions tr) (u64 (base + (size - 1))) with
  | None => Ok range
  | Some r => if VirtualRange.intersects (m_range r) range then Err ENOMEM else Ok range
  end.

Definition maximum_randomization_attempts : nat := 1000.

(** [rnd i] is what [get_fast_random] returns on the [i]th attempt. *)
Fixpoint randomized_attempts (n : nat) (rnd : nat -> Z) (i : nat) (tr : t) (size alignment : Z)
    : outcome VirtualRange.t :=
  match n with
  | O => allocate_range_anywhere tr size alignment
  | S n =>
      let random_address := round_up_to_power_of_two
        (rnd i mod VirtualRange.end_ (m_total_range tr)) alignment in
      if negb (VirtualRange.contains_sized (m_total_range tr) random_address size)
      then randomized_attempts n rnd (S i) tr size alignment
      else match allocate_range_specific tr random_address size with
           | Err _ => randomized_attempts n rnd (S i) tr size alignment
           | range_or_error => range_or_error
           end
  end.

Definition allocate_range_randomized (rnd : nat -> Z) (tr : t) (size alignment : Z)
    : outcome VirtualRange.t :=
  if size =? 0 then Err EINVAL else
  VERIFY (size mod PAGE_SIZE =? 0) ;;
  VERIFY (alignment mod PAGE_SIZE =? 0) ;;
  randomized_attempts maximum_randomization_attempts rnd 0 tr size alignment.

(** Inserting a region that has been given a range; the region is returned with
    its new range. *)
Definition insert_region (tr : t) (r : Region) (range : VirtualRange.t) : t * Region :=
  let r := set_range r range in
  (mk (tree_insert (vaddr r) r (m_regions tr)) (m_total_range tr), r).

Definition place_anywhere (rnd : nat -> Z) (tr : t) (r : Region)
    (randomize_virtual_address : RandomizeVirtualAddress) (size alignment : Z)
    : outcome (t * Region) :=
  let! range := match randomize_virtual_address with
                | Yes => allocate_range_randomized rnd tr size alignment
                | No => allocate_range_anywhere tr size alignment
                end in
  Ok (insert_region tr r range).

Definition place_specifically (tr : t) (r : Region) (range : VirtualRange.t)
    : outcome (t * Region) :=
  let! allocated_range := allocate_range_specific tr (VirtualRange.m_base range)
                            (VirtualRange.m_size range) in
  Ok (insert_region tr r allocated_range).

Definition remove_region (tr : t) (r : Region) : option t :=
  match tree_remove (VirtualRange.m_base (m_range r)) (m_regions tr) with
  | Some regions => Some (mk regions (m_total_range tr))
  | None => None
  end.

(** ** Lookup *)

Definition find_region_containing_address (tr : t) (address : Z) : option Region :=
  match find_largest_not_above (m_regions tr) address with
  | None => None
  | Some r => if VirtualRange.contains_address (m_range r) address then Some r else None
  end.

Definition find_region_containing (tr : t) (range : VirtualRange.t) : option Region :=
  match find_largest_not_above (m_regions tr) (VirtualRange.m_base range) with
  | None => None
  | Some r => if VirtualRange.contains (m_range r) range then Some r else None
  end.

(** [delete_all_regions_assuming_they_are_unmapped]: the loop removes the first
    region until none is left. *)
Fixpoint delete_all_regions (fuel : nat) (tr : t) : option t :=
  match tree_elements (m_regions tr) with
  | [] => Some tr
  | (_, r) :: _ =>
      match fuel, remove_region tr r with
      | S fuel, Some tr => delete_all_regions fuel tr
      | _, _ => None
      end
  end.

(** ** Invariant *)

Record inv (tr : t) : Prop := {
  t_total : VirtualRange.wf (m_total_range tr) /\ 0 < VirtualRange.m_size (m_total_range tr);
  t_ordered : ordered (tree_elements (m_regions tr));
  t_regions : forall k r, (k, r) ∈ tree_elements (m_regions tr) ->
    k = vaddr r /\ VirtualRange.wf (m_range r) /\ 0 < VirtualRange.m_size (m_range r) /\
    VirtualRange.m_base (m_total_range tr) <= vaddr r /\
    vaddr r + VirtualRange.m_size (m_range r) <=
      VirtualRange.m_base (m_total_range tr) + VirtualRange.m_size (m_total_range tr);
  t_disjoint : forall k r k' r', (k, r) ∈ tree_elements (m_regions tr) ->
    (k', r') ∈ tree_elements (m_regions tr) -> k <> k' ->
    VirtualRange.disjoint (m_range r) (m_range r');
}.

(** A range that can be given to a new region. *)
Definition available (tr : t) (range : VirtualRange.t) : Prop :=
  VirtualRange.wf range /\ 0 < VirtualRange.m_size range /\
  VirtualRange.m_base (m_total_range tr) <= VirtualRange.m_base range /\
  VirtualRange.m_base range + VirtualRange.m_size range <=
    VirtualRange.m_base (m_total_range tr) + VirtualRange.m_size (m_total_range tr) /\
  forall k r, (k, r) ∈ tree_elements (m_regions tr) -> VirtualRange.disjoint (m_range r) range.

End Tree.
Arguments t T : clear implicits.

(** ** Proofs *)

Section Proofs.
Context {T : Type} `{!OrderedTree T Region} `{!OrderedTreeLaws T Region}.
Implicit Types tr : t T.

(** Regions one behind the other from the address [ws]. *)
Fixpoint laid_out (ws : Z) (l : list (Z * Region)) : Prop :=
  match l with
  | [] => True
  | (_, r) :: l => ws <= vaddr r /\ VirtualRange.wf (m_range r) /\
      laid_out (vaddr r + VirtualRange.m_size (m_range r)) l
  end.

Lemma laid_out_of_sorted (l : list (Z * Region)) ws :
  ordered l ->
  (forall k r, (k, r) ∈ l -> k = vaddr r /\ VirtualRange.wf (m_range r) /\
     0 < VirtualRange.m_size (m_range r) /\ ws <= vaddr r) ->
  (forall k r k' r', (k, r) ∈ l -> (k', r') ∈ l -> k <> k' ->
     VirtualRange.disjoint (m_range r) (m_range r')) ->
  laid_out ws l.
Proof.
  revert ws. induction l as [|[k r] l IH]; intros ws Ho Hr Hd; [done|].
  apply StronglySorted_inv in Ho as [Ho Hk]. rewrite List.Forall_forall in Hk.
  destruct (Hr k r ltac:(by left)) as (-> & Hwf & Hs & Hws). simpl.
  split; [done|]. split; [done|]. apply IH; [done| |].
  - intros k' r' Hin. destruct (Hr k' r' ltac:(by right)) as (-> & Hwf' & Hs' & _).
    split; [done|]. split; [done|]. split; [done|].
    assert (vaddr r < vaddr r') as Hlt by (apply (Hk (vaddr r', r')); by apply list_elem_of_In).
    destruct (Hd _ _ _ _ ltac:(by left) ltac:(by right; exact Hin) ltac:(lia)) as [?|?];
      unfold vaddr in *; lia.
  - intros k1 r1 k2 r2 H1 H2. apply Hd; by right.
Qed.

Lemma inv_laid_out tr : inv tr ->
  laid_out (VirtualRange.m_base (m_total_range tr)) (tree_elements (m_regions tr)).
Proof.
  intros H. apply laid_out_of_sorted; [apply H| |apply H].
  intros k r Hin. destruct (t_regions _ H k r Hin) as (? & ? & ? & ? & _). done.
Qed.

(** Requests that can be met: whole pages, at a multiple of a page. *)
Definition need (size alignment : Z) : Prop :=
  0 < size < 2 ^ 64 /\ 0 < alignment < 2 ^ 64 /\
  size mod PAGE_SIZE = 0 /\ alignment mod PAGE_SIZE = 0.

(** Every range starts at a page; an alignment that is a power of two is
    respected. *)
Definition aligned_to (alignment base : Z) : Prop :=
  base mod PAGE_SIZE = 0 /\ forall k, 0 <= k -> alignment = 2 ^ k -> base mod alignment = 0.

Lemma round_up_aligned_to v alignment :
  0 < alignment < 2 ^ 64 -> alignment mod PAGE_SIZE = 0 ->
  fits 64 (round_up_to_power_of_two v alignment) /\
  aligned_to alignment (round_up_to_power_of_two v alignment).
Proof.
  intros Ha Hm. destruct (round_up_multiple v alignment 12 ltac:(lia) Ha Hm) as [? ?].
  split; [done|]. split; [done|]. intros k Hk ->.
  apply round_up_multiple; [|done|apply Z.mod_same; lia]. split; [done|].
  apply (Z.pow_lt_mono_r_iff 2); lia.
Qed.

(** A window that is large enough yields an aligned range inside it. *)
Lemma window_ok size alignment ws n :
  need size alignment -> size + alignment < 2 ^ 64 -> 0 <= ws -> 0 <= n -> ws + n < 2 ^ 64 ->
  match allocate_from_window size alignment (VirtualRange.mk ws n) with
  | Some r => ws <= VirtualRange.m_base r /\ VirtualRange.m_size r = size /\
      VirtualRange.m_base r + size <= ws + n /\ aligned_to alignment (VirtualRange.m_base r)
  | None => n < size + alignment
  end.
Proof.
  intros (Hs & Ha & Hsm & Ham) Hlt Hws Hn Hend. unfold allocate_from_window. simpl.
  unfold u64. rewrite wrap_small by (unfold fits; lia).
  destruct (Z.ltb_spec n (size + alignment)); [done|]. simpl.
  pose proof (round_up_any ws alignment ltac:(lia) Hws ltac:(lia)).
  destruct (round_up_aligned_to ws alignment Ha Ham) as [_ ?].
  split; [lia|]. split; [done|]. split; [lia|done].
Qed.

Lemma laid_out_above w l k q : laid_out w l -> (k, q) ∈ l -> w <= vaddr q.
Proof.
  revert w. induction l as [|[a b] l IH]; intros w; [by intros _ ?%not_elem_of_nil|].
  intros (Hw & (? & ? & ?) & Hl) [[= -> ->]|Hin]%elem_of_cons; [done|].
  specialize (IH _ Hl Hin). lia.
Qed.

(** What the walk over the regions [l] from [ws] returns. *)
Definition search_post (size alignment : Z) (l : list (Z * Region)) (ws : Z)
    (res : VirtualRange.t + Z) : Prop :=
  match res with
  | inl r => ws <= VirtualRange.m_base r /\ VirtualRange.m_size r = size /\
      aligned_to alignment (VirtualRange.m_base r) /\
      (forall k q, (k, q) ∈ l -> VirtualRange.disjoint (m_range q) r) /\
      exists k q, (k, q) ∈ l /\ VirtualRange.m_base r + size <= vaddr q
  | inr ws' => ws <= ws' /\
      (forall k q, (k, q) ∈ l -> vaddr q + VirtualRange.m_size (m_range q) <= ws') /\
      (ws' = ws \/ exists k q, (k, q) ∈ l /\ ws' = vaddr q + VirtualRange.m_size (m_range q)) /\
      (forall b, ws <= b -> b < ws' -> exists k q, (k, q) ∈ l /\
         ~ VirtualRange.disjoint (m_range q) (VirtualRange.mk b (size + alignment)))
  end.

(** Skipping a region whose window is too small. *)
Lemma search_skip size alignment k0 q0 l ws res :
  0 < size -> 0 <= alignment -> laid_out ws ((k0, q0) :: l) ->
  0 < VirtualRange.m_size (m_range q0) -> vaddr q0 - ws < size + alignment ->
  search_post size alignment l (vaddr q0 + VirtualRange.m_size (m_range q0)) res ->
  search_post size alignment ((k0, q0) :: l) ws res.
Proof.
  intros Hs Ha (Hge & Hwf & Hl) Hs0 Hsmall. unfold search_post, VirtualRange.disjoint, vaddr in *.
  destruct res as [r|ws']; simpl.
  - intros (Hb & Hsz & Hal & Hd & k & q & Hin & Hle). split; [lia|]. split; [done|]. split; [done|].
    split; [|exists k, q; split; [by right|done]].
    intros k' q' [[= -> ->]|Hin']%elem_of_cons; [left; lia|by eapply Hd].
  - intros (Hb & Hends & Hlast & Hgap). split; [lia|]. split; [|split].
    + intros k' q' [[= -> ->]|Hin']%elem_of_cons; [lia|by eapply Hends].
    + right. destruct Hlast as [->|(k & q & Hin & ->)]; [exists k0, q0|exists k, q];
        (split; [|done]); [by left|by right].
    + intros b Hb1 Hb2. destruct (Z.lt_ge_cases b (VirtualRange.m_base (m_range q0) +
        VirtualRange.m_size (m_range q0))) as [Hlt|Hge'].
      * exists k0, q0. split; [by left|]. simpl. lia.
      * destruct (Hgap b Hge' Hb2) as (k & q & Hin & Hnd). exists k, q. split; [by right|done].
Qed.

Lemma search_ok size alignment l ws :
  need size alignment -> size + alignment < 2 ^ 64 -> 0 <= ws -> laid_out ws l ->
  (forall k r, (k, r) ∈ l -> 0 < VirtualRange.m_size (m_range r)) ->
  search_post size alignment l ws (search_windows size alignment l ws).
Proof.
  intros Hneed Hlt. revert ws. induction l as [|[k0 q0] l IH]; intros ws Hws Hl Hpos.
  { simpl. split; [lia|]. split; [set_solver|]. split; [by left|]. lia. }
  pose proof Hl as (Hge & Hwf & Hl'). pose proof Hwf as (Hb0 & Hs0 & He0).
  assert (0 < VirtualRange.m_size (m_range q0)) as Hp0 by (eapply Hpos; by left).
  assert (0 < size /\ 0 <= alignment) as [Hsz Hal].
  { destruct Hneed as (? & ? & _). lia. }
  assert (search_post size alignment l (vaddr q0 + VirtualRange.m_size (m_range q0))
            (search_windows size alignment l (region_end q0))) as Hrest.
  { unfold region_end. rewrite VirtualRange.end_ok by done. fold (vaddr q0).
    apply IH; [unfold vaddr; lia|done|]. intros k r Hin. eapply Hpos. by right. }
  cbn [search_windows]. destruct (Z.eqb_spec ws (vaddr q0)) as [E|Hne].
  { apply search_skip; try done. lia. }
  unfold u64. rewrite wrap_small by (unfold fits, vaddr in *; lia).
  pose proof (window_ok size alignment ws (vaddr q0 - ws) Hneed Hlt Hws ltac:(lia)
                ltac:(unfold vaddr; lia)) as Hw.
  destruct (allocate_from_window _ _ _) as [r|]; [|by apply search_skip].
  destruct Hw as (H1 & H2 & H3 & H4). simpl. split; [done|]. split; [done|]. split; [done|].
  split; [|exists k0, q0; split; [by left|lia]].
  intros k q Hin. right. destruct Hl as (_ & _ & Hl).
  apply elem_of_cons in Hin as [[= -> ->]|Hin]; [unfold vaddr in *; lia|].
  pose proof (laid_out_above _ _ _ _ Hl Hin). unfold vaddr in *. lia.
Qed.

(** What a placement without a fixed address promises. *)
Definition placed (tr : t T) (size alignment : Z) (o : outcome VirtualRange.t) : Prop :=
  (exists range, o = Ok range /\ available tr range /\
     VirtualRange.m_size range = size /\ aligned_to alignment (VirtualRange.m_base range)) \/
  (o = Err EOVERFLOW /\ 2 ^ 64 <= size + alignment) \/
  (o = Err ENOMEM /\
   forall b, VirtualRange.m_base (m_total_range tr) <= b ->
     b + (size + alignment) <=
       VirtualRange.m_base (m_total_range tr) + VirtualRange.m_size (m_total_range tr) ->
     exists k r, (k, r) ∈ tree_elements (m_regions tr) /\
       ~ VirtualRange.disjoint (m_range r) (VirtualRange.mk b (size + alignment))).

Lemma anywhere_ok tr size alignment :
  inv tr -> need size alignment -> placed tr size alignment (allocate_range_anywhere tr size alignment).
Proof.
  intros H Hneed. destruct (t_total _ H) as [Hwf Htot]. pose proof Hwf as (? & ? & ?).
  pose proof Hneed as (Hs0 & Ha0 & Hs & Ha). unfold allocate_range_anywhere, placed.
  rewrite (proj2 (Z.eqb_neq size 0)) by lia. rewrite Hs, Ha. cbn [Z.eqb].
  destruct (Z.leb_spec (2 ^ 64) (size + alignment)) as [|Hlt]; [right; left; done|].
  pose proof (search_ok size alignment _ (VirtualRange.m_base (m_total_range tr)) Hneed Hlt
                ltac:(lia) (inv_laid_out tr H)
                (fun k r Hin => proj1 (proj2 (proj2 (t_regions _ H k r Hin))))) as Hpost.
  destruct (search_windows _ _ _ _) as [r|ws']; simpl in Hpost.
  - left. destruct Hpost as (Hb & Hsz & Hal & Hd & k & q & Hin & Hle). exists r. split; [done|].
    destruct (t_regions _ H k q Hin) as (_ & ? & ? & ? & ?). unfold vaddr in *.
    split; [|done]. unfold available, VirtualRange.wf. rewrite Hsz.
    split; [lia|]. split; [lia|]. split; [lia|]. split; [lia|]. apply Hd.
  - destruct Hpost as (Hb & Hends & Hlast & Hgap).
    assert (ws' <= VirtualRange.m_base (m_total_range tr) + VirtualRange.m_size (m_total_range tr)) as Hws'.
    { destruct Hlast as [->|(k & q & Hin & ->)]; [lia|].
      by destruct (t_regions _ H k q Hin) as (_ & _ & _ & _ & ?). }
    rewrite VirtualRange.end_ok by done. unfold u64. rewrite wrap_small by (unfold fits; lia).
    match goal with |- context [VirtualRange.contains ?a ?b] =>
      assert (VirtualRange.contains a b = true) as ->
        by (apply VirtualRange.contains_spec; [done|unfold VirtualRange.wf|]; simpl; lia) end.
    pose proof (window_ok size alignment ws' (VirtualRange.m_base (m_total_range tr) +
      VirtualRange.m_size (m_total_range tr) - ws') Hneed Hlt ltac:(lia) ltac:(lia) ltac:(lia)) as Hw.
    destruct (allocate_from_window _ _ _) as [r|]; [left|right; right].
    + destruct Hw as (Hw1 & Hw2 & Hw3 & Hw4). exists r. split; [done|]. split; [|done].
      unfold available, VirtualRange.wf. rewrite Hw2.
      split; [lia|]. split; [lia|]. split; [lia|]. split; [lia|].
      intros k q Hin. left. pose proof (Hends k q Hin). unfold vaddr in *. lia.
    + split; [done|]. intros b Hb1 Hb2. apply Hgap; lia.
Qed.

(** A range between the regions is one that the last region starting before
    its end does not intersect. *)
Lemma specific_ok tr base size :
  inv tr -> 0 < size -> VirtualRange.wf (VirtualRange.mk base size) ->
  VirtualRange.page_aligned (VirtualRange.mk base size) ->
  (allocate_range_specific tr base size = Ok (VirtualRange.mk base size) /\
   available tr (VirtualRange.mk base size)) \/
  (allocate_range_specific tr base size = Err ENOMEM /\
   ~ available tr (VirtualRange.mk base size)).
Proof.
  intros H Hs Hwf [Hal Hal']. pose proof Hwf as (? & ? & ?). simpl in *.
  destruct (t_total _ H) as [Hwt Htot]. unfold allocate_range_specific.
  rewrite (proj2 (Z.eqb_neq size 0)) by lia.
  rewrite (proj2 (VirtualRange.is_page_aligned_spec base ltac:(unfold fits; lia)) Hal).
  rewrite Hal'. cbn [Z.eqb].
  pose proof (VirtualRange.contains_spec _ _ Hwt Hwf) as Hc. simpl in Hc.
  destruct (VirtualRange.contains _ _) eqn:Ec; cbn [negb].
  2: { right. split; [done|]. intros (_ & _ & ? & ? & _). simpl in *.
       assert (false = true); [|done]. apply Hc. done. }
  destruct (proj1 Hc eq_refl) as [Hlo Hhi]. unfold u64. rewrite wrap_small by (unfold fits; lia).
  destruct (find_largest_not_above _ _) as [r|] eqn:Ef.
  - destruct (largest_some _ _ _ (t_ordered _ H) Ef) as (k & Hin & Hk & Hmax).
    destruct (t_regions _ H k r Hin) as (Ek & Hwr & Hsr & _).
    pose proof (VirtualRange.intersects_spec _ _ Hwr Hwf Hsr Hs) as Hi. simpl in Hi.
    destruct (VirtualRange.intersects _ _) eqn:Ei; [right|left]; (split; [done|]).
    + intros (_ & _ & _ & _ & Hd). apply (proj1 Hi eq_refl). by eapply Hd.
    + assert (VirtualRange.disjoint (m_range r) (VirtualRange.mk base size)) as Hdr.
      { destruct (decide (VirtualRange.m_base (m_range r) + VirtualRange.m_size (m_range r) <= base));
          [by left|]. destruct (decide (base + size <= VirtualRange.m_base (m_range r))); [by right|].
        assert (false = true); [|done]. apply Hi. unfold VirtualRange.disjoint. simpl. lia. }
      unfold available. simpl. split_and!; try done. intros k' r' Hin'.
      destruct (decide (k' = k)) as [->|Hne].
      { assert (r' = r) as ->; [|done].
        assert (Some r' = Some r); [|congruence].
        rewrite <- (proj2 (find_iff _ k r (t_ordered _ H)) Hin). symmetry.
        apply (find_iff _ k r' (t_ordered _ H)). done. }
      destruct (t_regions _ H k' r' Hin') as (Ek' & Hwr' & Hsr' & _).
      pose proof (t_disjoint _ H _ _ _ _ Hin Hin' ltac:(congruence)) as Hd'.
      unfold VirtualRange.disjoint, vaddr in *. simpl in *.
      destruct (decide (k' <= base + (size - 1))) as [Hle|]; [|lia].
      pose proof (Hmax k' r' Hin' Hle). lia.
  - left. split; [done|]. unfold available. simpl. split_and!; try done. intros k r Hin.
    pose proof (largest_none _ _ (t_ordered _ H) Ef k r Hin).
    destruct (t_regions _ H k r Hin) as (-> & _). unfold VirtualRange.disjoint, vaddr in *. simpl. lia.
Qed.

Lemma available_key tr range k r :
  inv tr -> available tr range -> (k, r) ∈ tree_elements (m_regions tr) ->
  k <> VirtualRange.m_base range.
Proof.
  intros H (_ & Hs & _ & _ & Hd) Hin ->. destruct (t_regions _ H _ r Hin) as (E & _ & Hsr & _).
  pose proof (Hd _ _ Hin) as [?|?]; unfold vaddr in *; lia.
Qed.

Lemma region_insert_ok tr r range :
  inv tr -> available tr range ->
  inv (fst (insert_region tr r range)) /\
  forall e, e ∈ tree_elements (m_regions (fst (insert_region tr r range))) <->
    e = (VirtualRange.m_base range, set_range r range) \/ e ∈ tree_elements (m_regions tr).
Proof.
  intros H Hav. pose proof Hav as (Hwf & Hs & Hlo & Hhi & Hd).
  destruct (elements_insert (m_regions tr) (VirtualRange.m_base range) (set_range r range)) as [Ho He].
  { apply H. } { intros w Hin. by apply (available_key tr range _ _ H Hav Hin). }
  split; [|exact He]. constructor; simpl.
  - apply H.
  - exact Ho.
  - intros k q [[= -> ->]|Hin]%He; [done|]. by apply (t_regions _ H).
  - intros k q k' q' [[= -> ->]|Hin]%He [[= -> ->]|Hin']%He Hne; try done.
    + simpl. destruct (Hd _ _ Hin'); [by right|by left].
    + simpl. by eapply Hd.
    + by apply (t_disjoint _ H k q k' q').
Qed.

Lemma region_remove_ok tr k r :
  inv tr -> (k, r) ∈ tree_elements (m_regions tr) ->
  exists tr', remove_region tr r = Some tr' /\ inv tr' /\
    m_total_range tr' = m_total_range tr /\
    forall e, e ∈ tree_elements (m_regions tr') <-> e ∈ tree_elements (m_regions tr) /\ fst e <> k.
Proof.
  intros H Hin. destruct (t_regions _ H k r Hin) as (-> & _).
  destruct (elements_remove (m_regions tr) (vaddr r) r (t_ordered _ H) Hin) as (T' & E & Ho & He).
  unfold remove_region. fold (vaddr r). rewrite E. eexists. split; [done|].
  split; [|done]. constructor; simpl; [apply H|done| |].
  - intros k q [Hq _]%He. by apply (t_regions _ H).
  - intros k q k' q' [Hq _]%He [Hq' _]%He. by apply (t_disjoint _ H).
Qed.

Lemma attempts_ok n rnd i tr size alignment :
  inv tr -> need size alignment ->
  placed tr size alignment (randomized_attempts n rnd i tr size alignment).
Proof.
  intros H Hneed. revert i. induction n as [|n IH]; intros i; [by apply anywhere_ok|].
  cbn [randomized_attempts]. pose proof Hneed as (Hs0 & Ha0 & Hs & Ha).
  set (v := rnd i mod _). destruct (round_up_aligned_to v alignment Ha0 Ha) as [[Hr0 Hr1] Hrm].
  set (addr := round_up_to_power_of_two v alignment) in *.
  destruct (VirtualRange.contains_sized _ _ _) eqn:Ec; cbn [negb]; [|apply IH].
  unfold VirtualRange.contains_sized in Ec.
  destruct (Z.ltb_spec (u64 (addr + size)) addr) as [|Hnw]; [done|].
  assert (addr + size < 2 ^ 64) as Hfit.
  { destruct (Z.lt_ge_cases (addr + size) (2 ^ 64)); [done|].
    unfold u64 in Hnw. rewrite wrap_over in Hnw by (unfold fits; lia). lia. }
  destruct (specific_ok tr addr size H ltac:(lia)) as [[-> Hav]|[-> _]].
  - unfold VirtualRange.wf. simpl. lia.
  - split; simpl; [apply Hrm|done].
  - left. eexists. split; [done|]. split; [done|]. by simpl.
  - apply IH.
Qed.

Lemma place_anywhere_ok rnd tr r randomize size alignment :
  inv tr -> need size alignment ->
  (exists range, available tr range /\ VirtualRange.m_size range = size /\
     aligned_to alignment (VirtualRange.m_base range) /\
     place_anywhere rnd tr r randomize size alignment = Ok (insert_region tr r range)) \/
  exists e, place_anywhere rnd tr r randomize size alignment = Err e /\ (e = ENOMEM \/ e = EOVERFLOW).
Proof.
  intros H Hneed. unfold place_anywhere.
  assert (placed tr size alignment
            match randomize with
            | Yes => allocate_range_randomized rnd tr size alignment
            | No => allocate_range_anywhere tr size alignment
            end) as Hp.
  { destruct randomize; [by apply anywhere_ok|]. unfold allocate_range_randomized.
    pose proof Hneed as (? & ? & Hs & Ha). rewrite (proj2 (Z.eqb_neq size 0)) by lia.
    rewrite Hs, Ha. cbn [Z.eqb]. by apply attempts_ok. }
  destruct Hp as [(range & -> & Hav & ? & ?)|[[-> _]|[-> _]]]; cbn [bind]; eauto 10.
Qed.

(** ** Lookup *)

Lemma same_key tr k r r' :
  inv tr -> (k, r) ∈ tree_elements (m_regions tr) -> (k, r') ∈ tree_elements (m_regions tr) -> r = r'.
Proof.
  intros H H1 H2. apply (find_iff _ _ _ (t_ordered _ H)) in H1, H2. congruence.
Qed.

(** The region that starts last at or before an address is the only one that
    can contain it. *)
Lemma region_at tr k r a :
  inv tr -> (k, r) ∈ tree_elements (m_regions tr) -> VirtualRange.within (m_range r) a ->
  find_largest_not_above (m_regions tr) a = Some r.
Proof.
  intros H Hin Hw. destruct (t_regions _ H k r Hin) as (-> & Hwf & Hs & _).
  destruct (find_largest_not_above (m_regions tr) a) as [r'|] eqn:E.
  - destruct (largest_some _ _ _ (t_ordered _ H) E) as (k' & Hin' & Hk' & Hmax).
    destruct (decide (k' = vaddr r)) as [->|Hne].
    { f_equal. by eapply same_key. }
    exfalso. destruct (t_regions _ H k' r' Hin') as (-> & _ & Hs' & _).
    pose proof (t_disjoint _ H _ _ _ _ Hin Hin' ltac:(congruence)) as Hd.
    pose proof (Hmax _ _ Hin). unfold VirtualRange.within, VirtualRange.disjoint, vaddr in *. lia.
  - pose proof (largest_none _ _ (t_ordered _ H) E _ _ Hin).
    unfold VirtualRange.within, vaddr in *. lia.
Qed.

Lemma lookup_ok tr a r :
  inv tr ->
  find_region_containing_address tr a = Some r <->
  exists k, (k, r) ∈ tree_elements (m_regions tr) /\ VirtualRange.within (m_range r) a.
Proof.
  intros H. unfold find_region_containing_address. split.
  - destruct (find_largest_not_above _ _) as [r'|] eqn:E; [|done].
    destruct (largest_some _ _ _ (t_ordered _ H) E) as (k & Hin & _).
    destruct (t_regions _ H k r' Hin) as (_ & Hwf & _).
    destruct (VirtualRange.contains_address _ _) eqn:Ec; [|done]. intros [= <-].
    exists k. split; [done|]. by apply VirtualRange.contains_address_spec.
  - intros (k & Hin & Hw). rewrite (region_at tr k r a) by done.
    destruct (t_regions _ H k r Hin) as (_ & Hwf & _).
    by rewrite (proj2 (VirtualRange.contains_address_spec _ _ Hwf) Hw).
Qed.

Lemma lookup_range_ok tr range r :
  inv tr -> VirtualRange.wf range -> 0 < VirtualRange.m_size range ->
  find_region_containing tr range = Some r <->
  exists k, (k, r) ∈ tree_elements (m_regions tr) /\
    VirtualRange.m_base (m_range r) <= VirtualRange.m_base range /\
    VirtualRange.m_base range + VirtualRange.m_size range <=
      VirtualRange.m_base (m_range r) + VirtualRange.m_size (m_range r).
Proof.
  intros H Hwf Hs. unfold find_region_containing. split.
  - destruct (find_largest_not_above _ _) as [r'|] eqn:E; [|done].
    destruct (largest_some _ _ _ (t_ordered _ H) E) as (k & Hin & _).
    destruct (t_regions _ H k r' Hin) as (_ & Hwf' & _).
    destruct (VirtualRange.contains _ _) eqn:Ec; [|done]. intros [= <-].
    exists k. split; [done|]. by apply VirtualRange.contains_spec.
  - intros (k & Hin & Hlo & Hhi). destruct (t_regions _ H k r Hin) as (_ & Hwf' & _).
    rewrite (region_at tr k r) by (done || unfold VirtualRange.within; lia).
    by rewrite (proj2 (VirtualRange.contains_spec _ _ Hwf' Hwf)).
Qed.

Lemma ordered_NoDup (l : list (Z * Region)) : ordered l -> NoDup l.
Proof.
  induction 1 as [|[k r] l Hs IH Hk]; [constructor|]. constructor; [|done].
  intros Hin. rewrite List.Forall_forall in Hk. specialize (Hk _ (proj1 (list_elem_of_In _ _) Hin)).
  simpl in Hk. lia.
Qed.

(** Deleting every region: as many steps as there are regions are enough. *)
Lemma delete_all_ok tr :
  inv tr -> forall fuel, (length (tree_elements (m_regions tr)) <= fuel)%nat ->
  exists tr', delete_all_regions fuel tr = Some tr' /\ tree_elements (m_regions tr') = [] /\
    m_total_range tr' = m_total_range tr.
Proof.
  intros H fuel. revert tr H. induction fuel as [|fuel IH]; intros tr H Hf; cbn [delete_all_regions];
    destruct (tree_elements (m_regions tr)) as [|[k r] l] eqn:E; eauto; simpl in Hf; [lia|].
  destruct (region_remove_ok tr k r H ltac:(rewrite E; by left)) as (tr' & -> & H' & Et & He).
  destruct (IH tr' H') as (tr'' & -> & ? & ?); [|exists tr''; split_and!; [done|done|congruence]].
  assert (length (tree_elements (m_regions tr')) < length (tree_elements (m_regions tr)))%nat;
    [|rewrite E in *; simpl in *; lia].
  rewrite E. simpl. apply le_n_S, submseteq_length, NoDup_submseteq.
  - apply ordered_NoDup, H'.
  - intros [k' r'] [Hin Hne]%He. rewrite E in Hin. apply elem_of_cons in Hin as [[= -> ->]|Hin]; done.
Qed.

End Proofs.



(** ** The reference tree

    Sorted association lists satisfy the interface. *)
Section SortedList.

Fixpoint sorted_insert (k : Z) (v : Region) (l : list (Z * Region)) : list (Z * Region) :=
  match l with
  | [] => [(k, v)]
  | (k', v') :: l => if k <? k' then (k, v) :: (k', v') :: l else (k', v') :: sorted_insert k v l
  end.

Fixpoint sorted_find (l : list (Z * Region)) (k : Z) : option Region :=
  match l with
  | [] => None
  | (k', v) :: l => if k =? k' then Some v else sorted_find l k
  end.

Fixpoint sorted_largest (l : list (Z * Region)) (k : Z) (candidate : option Region)
    : option Region :=
  match l with
  | [] => candidate
  | (k', v) :: l => if k' <=? k then sorted_largest l k (Some v) else candidate
  end.

Definition sorted_remove (k : Z) (l : list (Z * Region)) : option (list (Z * Region)) :=
  match sorted_find l k with
  | None => None
  | Some _ => Some (filter (fun e => fst e <> k) l)
  end.

#[export] Instance sorted_tree : OrderedTree (list (Z * Region)) Region := {|
  tree_empty := [];
  tree_elements := fun l => l;
  tree_find := sorted_find;
  find_largest_not_above := fun l k => sorted_largest l k None;
  tree_insert := sorted_insert;
  tree_remove := sorted_remove
|}.

Lemma sorted_insert_elem k v l e : e ∈ sorted_insert k v l <-> e = (k, v) \/ e ∈ l.
Proof.
  induction l as [|[k' v'] l IH]; simpl; [rewrite list_elem_of_singleton, elem_of_nil; tauto|].
  - destruct (k <? k'); rewrite !elem_of_cons, ?IH; tauto.
Qed.

Lemma sorted_insert_ordered k v l :
  ordered l -> (forall w, (k, w) ∉ l) -> ordered (sorted_insert k v l).
Proof.
  induction 1 as [|[k' v'] l Hs IH Hk]; intros Hn; [repeat constructor|]. simpl.
  rewrite List.Forall_forall in Hk. destruct (Z.ltb_spec k k') as [Hlt|Hge].
  - constructor; [constructor; [done|by apply List.Forall_forall]|].
    apply List.Forall_forall. intros e [<-|Hin]; [done|]. specialize (Hk e Hin). simpl in *. lia.
  - constructor; [apply IH; intros w Hin; apply (Hn w); by right|].
    apply List.Forall_forall. intros e Hin%list_elem_of_In%sorted_insert_elem.
    destruct Hin as [->|Hin]; [|by apply Hk, list_elem_of_In].
    simpl. assert (k <> k'); [|lia]. intros ->. apply (Hn v'). by left.
Qed.

Lemma sorted_find_iff l k v : ordered l -> sorted_find l k = Some v <-> (k, v) ∈ l.
Proof.
  induction 1 as [|[k' v'] l Hs IH Hk]; simpl; [by rewrite elem_of_nil|].
  rewrite elem_of_cons, <- IH. destruct (Z.eqb_spec k k') as [->|Hne]; [|naive_solver].
  split; [intros [= ->]; by left|]. intros [[= ->]|Hin]; [done|]. apply IH in Hin.
  rewrite List.Forall_forall in Hk. specialize (Hk _ (proj1 (list_elem_of_In _ _) Hin)).
  simpl in Hk. lia.
Qed.

Lemma sorted_largest_some l k c v :
  ordered l -> sorted_largest l k c = Some v ->
  (c = Some v /\ forall k' w, (k', w) ∈ l -> k < k') \/
  exists k', (k', v) ∈ l /\ k' <= k /\ forall k'' w, (k'', w) ∈ l -> k'' <= k -> k'' <= k'.
Proof.
  intros Ho. revert c. induction Ho as [|[k0 v0] l Hs IH Hk]; intros c; simpl.
  { intros ->. left. split; [done|]. by intros ? ? ?%not_elem_of_nil. }
  rewrite List.Forall_forall in Hk.
  assert (forall k'' w, (k'', w) ∈ l -> k0 < k'') as Hk' by
    (intros k'' w Hin; apply (Hk (k'', w)), list_elem_of_In; done).
  destruct (Z.leb_spec k0 k) as [Hle|Hgt].
  - intros [[[= ->] Hab]|(k' & Hin & Hk1 & Hmax)]%IH; right.
    + exists k0. split; [by left|]. split; [done|].
      intros k'' w [[= -> ->]|Hin]%elem_of_cons; [done|]. specialize (Hab _ _ Hin). lia.
    + exists k'. split; [by right|]. split; [done|].
      intros k'' w [[= -> ->]|Hin']%elem_of_cons Hle'; [specialize (Hk' _ _ Hin); lia|by eapply Hmax].
  - intros ->. left. split; [done|]. intros k'' w [[= -> ->]|Hin]%elem_of_cons; [done|].
    specialize (Hk' _ _ Hin). lia.
Qed.

Lemma sorted_largest_none l k c :
  sorted_largest l k c = None -> ordered l -> forall k' w, (k', w) ∈ l -> k < k'.
Proof.
  revert c. induction l as [|[k0 v0] l IH]; intros c; simpl; [by intros _ _ ? ? ?%not_elem_of_nil|].
  intros Hn [Ho Hk]%StronglySorted_inv. rewrite List.Forall_forall in Hk.
  destruct (Z.leb_spec k0 k) as [Hle|Hgt].
  - exfalso. clear IH. revert Hn. generalize v0. clear. intros v0 Hn.
    assert (forall l c, c <> None -> sorted_largest l k c <> None) as Hs.
    { intros m. induction m as [|[a b] m IHm]; intros c Hc; simpl; [done|].
      destruct (a <=? k); [by apply IHm|done]. }
    by apply (Hs l (Some v0)).
  - intros k' w [[= -> ->]|Hin]%elem_of_cons; [done|].
    specialize (Hk (k', w) (proj1 (list_elem_of_In _ _) Hin)). simpl in Hk. lia.
Qed.

#[export] Instance sorted_tree_laws : OrderedTreeLaws (list (Z * Region)) Region.
Proof.
  constructor; simpl; try done.
  - intros l k v Ho Hn. split; [by apply sorted_insert_ordered|]. apply sorted_insert_elem.
  - intros l k v Ho Hin. unfold sorted_remove. rewrite (proj2 (sorted_find_iff l k v Ho) Hin).
    eexists. split; [done|]. split.
    + clear Hin. induction Ho as [|[a b] l Hs IH Hk]; [constructor|]. rewrite filter_cons.
      case_decide; [|done]. constructor; [done|]. apply List.Forall_forall.
      intros e [_ He]%list_elem_of_In%list_elem_of_filter. rewrite List.Forall_forall in Hk.
      by apply Hk, list_elem_of_In.
    + intros e. rewrite list_elem_of_filter. tauto.
  - intros l k Ho Hn. unfold sorted_remove. destruct (sorted_find l k) as [v|] eqn:E; [|done].
    by apply sorted_find_iff, Hn in E.
  - intros l k v Ho. by apply sorted_find_iff.
  - intros l k v Ho E. by destruct (sorted_largest_some l k None v Ho E) as [[? _]|?].
  - intros l k Ho E. by eapply sorted_largest_none.
Qed.

End SortedList.

(** ** Properties *)

(** C40: regions never overlap.  Placing a region anywhere, with or without
    randomization and whatever the random source returns, either fails with
    [ENOMEM] or [EOVERFLOW] or gives it an aligned range of the size asked for that lies in
    the address space and overlaps no region; the tree keeps its invariant and
    gains exactly that region. *)
Theorem place_anywhere_safe {T : Type} `{!OrderedTree T Region} `{!OrderedTreeLaws T Region}
    (rnd : nat -> Z) (tr : t T) (r : Region) (randomize : RandomizeVirtualAddress)
    (size alignment : Z) :
  inv tr -> need size alignment ->
  (exists tr' range,
     place_anywhere rnd tr r randomize size alignment = Ok (tr', set_range r range) /\
     inv tr' /\ available tr range /\ VirtualRange.m_size range = size /\
     aligned_to alignment (VirtualRange.m_base range) /\
     forall e, e ∈ tree_elements (m_regions tr') <->
       e = (VirtualRange.m_base range, set_range r range) \/ e ∈ tree_elements (m_regions tr)) \/
  exists e, place_anywhere rnd tr r randomize size alignment = Err e /\ (e = ENOMEM \/ e = EOVERFLOW).
Proof.
  intros H Hn. destruct (place_anywhere_ok rnd tr r randomize size alignment H Hn)
    as [(range & Hav & Hsz & Hal & E)|E]; [left|by right].
  destruct (region_insert_ok tr r range H Hav) as [H' He].
  exists (fst (insert_region tr r range)), range. split; [exact E|]. done.
Qed.

(** An address space of 1 GiB with one mapped region. *)
Definition sample_region (base size : Z) : Region :=
  set_mmap (set_range (create_unplaced (vmobject Anonymous 1 (size / PAGE_SIZE)) 0 None 3 0 false)
    (VirtualRange.mk base size)) true true true.

Definition sample : t (list (Z * Region)) :=
  mk [(0x10000, sample_region 0x10000 0x4000)] (VirtualRange.mk 0x1000 0x40000000).

Lemma region_sample_ok : inv sample.
Proof.
  constructor; simpl.
  - unfold VirtualRange.wf. simpl. lia.
  - repeat constructor.
  - intros k r [= -> ->]%list_elem_of_singleton. unfold VirtualRange.wf, vaddr. simpl. lia.
  - intros k r k' r' [= -> ->]%list_elem_of_singleton [= -> ->]%list_elem_of_singleton. done.
Qed.

Lemma page_need : need 0x2000 0x1000.
Proof. split; [lia|]. split; [lia|done]. Qed.

Lemma place_anywhere_safe_witness :
  (exists tr' range,
     place_anywhere (fun i => Z.of_nat i * 77777) sample (sample_region 0 0) Yes 0x2000 0x1000 =
       Ok (tr', set_range (sample_region 0 0) range) /\
     inv tr' /\ available sample range /\ VirtualRange.m_size range = 0x2000 /\
     aligned_to 0x1000 (VirtualRange.m_base range) /\
     forall e, e ∈ tree_elements (m_regions tr') <->
       e = (VirtualRange.m_base range, set_range (sample_region 0 0) range) \/
       e ∈ tree_elements (m_regions sample)) \/
  exists e, place_anywhere (fun i => Z.of_nat i * 77777) sample (sample_region 0 0) Yes 0x2000
    0x1000 = Err e /\ (e = ENOMEM \/ e = EOVERFLOW).
Proof.
  apply (place_anywhere_safe (fun i => Z.of_nat i * 77777) sample (sample_region 0 0) Yes);
    [apply region_sample_ok|apply page_need].
Defined.

(** first fit is complete up to its alignment slack.  [allocate_range_anywhere]
    fails only when every stretch of [size + alignment] bytes of the address
    space meets a region. *)
Theorem allocate_anywhere_complete {T : Type} `{!OrderedTree T Region} `{!OrderedTreeLaws T Region}
    (tr : t T) (size alignment : Z) :
  inv tr -> need size alignment ->
  placed tr size alignment (allocate_range_anywhere tr size alignment).
Proof. apply anywhere_ok. Qed.

Lemma allocate_anywhere_complete_witness :
  placed sample 0x2000 0x1000 (allocate_range_anywhere sample 0x2000 0x1000).
Proof.
  apply (allocate_anywhere_complete sample); [apply region_sample_ok|apply page_need].
Defined.

(** a fixed address is granted exactly when it is available.  Checking the one
    region that starts last before the end of the range decides whether the
    range overlaps any region. *)
Theorem allocate_specific_exact {T : Type} `{!OrderedTree T Region} `{!OrderedTreeLaws T Region}
    (tr : t T) (base size : Z) :
  inv tr -> 0 < size -> VirtualRange.wf (VirtualRange.mk base size) ->
  VirtualRange.page_aligned (VirtualRange.mk base size) ->
  (allocate_range_specific tr base size = Ok (VirtualRange.mk base size) /\
   available tr (VirtualRange.mk base size)) \/
  (allocate_range_specific tr base size = Err ENOMEM /\
   ~ available tr (VirtualRange.mk base size)).
Proof. apply specific_ok. Qed.

Lemma allocate_specific_exact_witness :
  (allocate_range_specific sample 0x13000 0x2000 = Ok (VirtualRange.mk 0x13000 0x2000) /\
   available sample (VirtualRange.mk 0x13000 0x2000)) \/
  (allocate_range_specific sample 0x13000 0x2000 = Err ENOMEM /\
   ~ available sample (VirtualRange.mk 0x13000 0x2000)).
Proof.
  apply (allocate_specific_exact sample 0x13000 0x2000);
    [apply region_sample_ok|lia|unfold VirtualRange.wf; simpl; lia|by split].
Defined.

(** lookup is exact: an address is found in a region exactly when some region
    contains it, and then in that region. *)
Theorem find_region_containing_exact {T : Type} `{!OrderedTree T Region}
    `{!OrderedTreeLaws T Region} (tr : t T) (a : Z) (r : Region) :
  inv tr ->
  find_region_containing_address tr a = Some r <->
  exists k, (k, r) ∈ tree_elements (m_regions tr) /\ VirtualRange.within (m_range r) a.
Proof. apply lookup_ok. Qed.

Lemma find_region_containing_exact_witness :
  find_region_containing_address sample 0x12345 = Some (sample_region 0x10000 0x4000) <->
  exists k, (k, sample_region 0x10000 0x4000) ∈ tree_elements (m_regions sample) /\
    VirtualRange.within (VirtualRange.mk 0x10000 0x4000) 0x12345.
Proof.
  apply (find_region_containing_exact sample 0x12345 (sample_region 0x10000 0x4000)).
  apply region_sample_ok.
Defined.

End RegionTree.
