(* ===== verification/AddressSpace.v ===== *)
(** The regions and page tables of a process, [Kernel/Memory/AddressSpace.cpp].

    The state is the region tree together with the page tables; an operation
    is an [action] on it, so what was done before a failure is visible
    afterwards.  Performance events and TLB flushes are not part of the state. *)

From stdpp Require Import strings.
From Stdlib Require Import Sorted.
From S2P Require Import Prelude BitOps VirtualRange Region RegionTree.

Module AddressSpace.
Import Region.

Section Operations.
Context {T : Type} `{!OrderedTree T Region}.

Record t : Type := space { m_region_tree : RegionTree.t T; m_mmu : MMU }.

Definition set_tree (s : t) (tr : RegionTree.t T) : t := space tr (m_mmu s).
Definition set_mmu (s : t) (m : MMU) : t := space (m_region_tree s) m.

Context (env : Env).

(** A point at which the kernel may have to allocate memory. *)
Definition alloc : action t unit :=
  fun s => let m := m_mmu s in
    (set_mmu s (mmu (ptes m) (S (ticks m))),
     if memory_available env (ticks m) then Ok tt else Err ENOMEM).

(** A store through a pointer to a region of the tree: the region keeps its
    place. *)
Definition write_region (r : Region) (s : t) : t :=
  let tr := m_region_tree s in
  match tree_remove (vaddr r) (RegionTree.m_regions tr) with
  | Some regions => set_tree s (RegionTree.mk (tree_insert (vaddr r) r regions)
                                  (RegionTree.m_total_range tr))
  | None => s
  end.

(** [Region::map] on a region of the tree. *)
Definition map_region (r : Region) : action t unit :=
  fun s => match map_impl env r (m_mmu s) with
           | Ok (m, all) =>
               (set_mmu (write_region (set_directory r true) s) m,
                if all then Ok tt else Err ENOMEM)
           | Err e => (s, Err e)
           | Panic => (s, Panic)
           | Undefined => (s, Undefined)
           end.

(** [Region::remap]: a failure reaches [TODO()]. *)
Definition remap_region (r : Region) : action t unit :=
  fun s => if negb (m_page_directory r) then (s, Panic) else
           match remap_impl env r (m_mmu s) with
           | Ok (m, true) => (set_mmu s m, Ok tt)
           | Ok (m, false) => (set_mmu s m, Panic)
           | Err e => (s, Err e)
           | Panic => (s, Panic)
           | Undefined => (s, Undefined)
           end.

(** ** Lookup *)

Definition find_region_from_range (s : t) (range : VirtualRange.t) : option Region :=
  match tree_find (RegionTree.m_regions (m_region_tree s)) (VirtualRange.m_base range) with
  | None => None
  | Some r =>
      match VirtualRange.page_round_up (VirtualRange.m_size range) with
      | Ok rounded => if negb (size r =? rounded) then None else Some r
      | _ => None
      end
  end.

Definition find_region_containing (s : t) (range : VirtualRange.t) : option Region :=
  RegionTree.find_region_containing (m_region_tree s) range.

(** The iteration of [find_regions_intersecting]; [regions] has room for four
    pointers before it allocates. *)
Fixpoint collect_intersecting (range : VirtualRange.t) (l : list (Z * Region))
    (total_size_collected : Z) (regions : list Region) : action t (list Region) :=
  match l with
  | [] => ret regions
  | (_, r) :: l =>
      if (vaddr r <? VirtualRange.end_ range) && (VirtualRange.m_base range <? region_end r) then
        let* _ := (if 4 <=? len regions then alloc else ret tt) in
        let* common := lift (VirtualRange.intersect (m_range r) range) in
        let total := u64 (total_size_collected + u64 (size r - VirtualRange.m_size common)) in
        if total =? VirtualRange.m_size range then ret (regions ++ [r])
        else collect_intersecting range l total (regions ++ [r])
      else collect_intersecting range l total_size_collected regions
  end.

(** [begin_from]: the elements from a key on. *)
Definition begin_from (k : Z) (l : list (Z * Region)) : list (Z * Region) :=
  filter (fun e => k <= fst e) l.

Definition find_regions_intersecting (range : VirtualRange.t) : action t (list Region) :=
  fun s =>
    let regions := RegionTree.m_regions (m_region_tree s) in
    match find_largest_not_above regions (VirtualRange.m_base range) with
    | None => (s, Ok [])
    | Some found =>
        collect_intersecting range (begin_from (vaddr found) (tree_elements regions)) 0 [] s
    end.

(** ** Taking regions out *)

Definition take_region (r : Region) : action t unit :=
  fun s => match RegionTree.remove_region (m_region_tree s) r with
           | Some tr => (set_tree s tr, Ok tt)
           | None => (s, Panic)
           end.

(** [take_region] and the destructor of the region it returns. *)
Definition deallocate_region (r : Region) : action t unit :=
  let* _ := take_region r in
  modify (fun s => set_mmu s (destroy r (m_mmu s))).

(** ** Splitting *)

(** Putting a region in the tree by one of the placement functions. *)
Definition place (placement : RegionTree.t T -> outcome (RegionTree.t T * Region))
    : action t Region :=
  fun s => match placement (m_region_tree s) with
           | Ok (tr, r) => (set_tree s tr, Ok r)
           | Err e => (s, Err e)
           | Panic => (s, Panic)
           | Undefined => (s, Undefined)
           end.

(** A region like [source_region], with no place yet. *)
Definition split_copy (source_region : Region) (offset_in_vmobject : Z) : Region :=
  let new_region := create_unplaced (m_vmobject source_region) offset_in_vmobject
    (m_name source_region) (m_access source_region) (m_memory_type source_region)
    (m_shared source_region) in
  let new_region := set_syscall_region new_region (m_syscall_region source_region) in
  let new_region := set_mmap new_region (m_mmap source_region)
    (m_mmapped_from_readable source_region) (m_mmapped_from_writable source_region) in
  set_stack new_region (m_stack source_region).

Definition try_allocate_split_region (source_region : Region) (range : VirtualRange.t)
    (offset_in_vmobject : Z) : action t Region :=
  let* _ := (match m_name source_region with Some _ => alloc | None => ret tt end) in
  let* _ := alloc in
  place (fun tr => RegionTree.place_specifically tr (split_copy source_region offset_in_vmobject)
                     range).

(** The offset in the memory object of an address of a region. *)
Definition offset_of (r : Region) (a : Z) : Z :=
  u64 (m_offset_in_vmobject r + u64 (a - vaddr r)).

Fixpoint split_ranges (source_region : Region) (ranges : list VirtualRange.t)
    (new_regions : list Region) : action t (list Region) :=
  match ranges with
  | [] => ret new_regions
  | new_range :: ranges =>
      if VirtualRange.contains (m_range source_region) new_range then
        let* new_region := try_allocate_split_region source_region new_range
                             (offset_of source_region (VirtualRange.m_base new_range)) in
        split_ranges source_region ranges (new_regions ++ [new_region])
      else lift Panic
  end.

Definition try_split_region_around_range (source_region : Region) (desired_range : VirtualRange.t)
    : action t (list Region) :=
  let* remaining := lift (VirtualRange.carve (m_range source_region) desired_range) in
  match remaining with
  | [] => lift Panic
  | _ => split_ranges source_region remaining []
  end.

(** ** Unmapping *)

(** The checks on a region that is about to change. *)
Definition check_mutable (r : Region) : outcome unit :=
  if negb (m_mmap r) then Err EPERM else if m_immutable r then Err EPERM else Ok tt.

Fixpoint check_all_mutable (rs : list Region) : outcome unit :=
  match rs with
  | [] => Ok tt
  | r :: rs => let! _ := check_mutable r in check_all_mutable rs
  end.

Fixpoint map_all (rs : list Region) : action t unit :=
  match rs with
  | [] => ret tt
  | r :: rs => let* _ := map_region r in map_all rs
  end.

(** [take_region] followed by [Region::unmap] on what it returns. *)
Definition take_and_unmap (r : Region) : action t unit :=
  let* _ := take_region r in
  modify (fun s => set_mmu s (unmap r (m_mmu s))).

(** The loop over the regions that intersect the range; [new_regions] has room
    for two pointers before it allocates. *)
Fixpoint unmap_regions (range_to_unmap : VirtualRange.t) (rs new_regions : list Region)
    : action t (list Region) :=
  match rs with
  | [] => ret new_regions
  | old_region :: rs =>
      let* common := lift (VirtualRange.intersect (m_range old_region) range_to_unmap) in
      if VirtualRange.m_size common =? size old_region then
        let* _ := deallocate_region old_region in
        unmap_regions range_to_unmap rs new_regions
      else
        let* _ := take_and_unmap old_region in
        let* split_regions := try_split_region_around_range old_region range_to_unmap in
        let* _ := (if 2 <? len (new_regions ++ split_regions) then alloc else ret tt) in
        unmap_regions range_to_unmap rs (new_regions ++ split_regions)
  end.

Definition unmap_mmap_range (addr sz : Z) : action t unit :=
  if sz =? 0 then lift (Err EINVAL) else
  let* range_to_unmap := lift (VirtualRange.expand_to_page_boundaries addr sz) in
  if negb (is_user_range env range_to_unmap) then lift (Err EFAULT) else
  let* whole := gets (fun s => find_region_from_range s range_to_unmap) in
  match whole with
  | Some whole_region =>
      let* _ := lift (check_mutable whole_region) in
      deallocate_region whole_region
  | None =>
      let* containing := gets (fun s => find_region_containing s range_to_unmap) in
      match containing with
      | Some old_region =>
          let* _ := lift (check_mutable old_region) in
          let* _ := take_and_unmap old_region in
          let* new_regions := try_split_region_around_range old_region range_to_unmap in
          map_all new_regions
      | None =>
          let* regions := find_regions_intersecting range_to_unmap in
          match regions with
          | [] => ret tt
          | _ =>
              let* _ := lift (check_all_mutable regions) in
              let* new_regions := unmap_regions range_to_unmap regions [] in
              map_all new_regions
          end
      end
  end.

(** ** Allocation *)

(** The name of a region is copied to the heap. *)
Definition copy_name (name : option string) : action t unit :=
  match name with Some _ => alloc | None => ret tt end.

Definition place_requested (rnd : nat -> Z) (randomize_virtual_address : RegionTree.RandomizeVirtualAddress)
    (requested_address sz alignment : Z) (r : Region) : action t Region :=
  if requested_address =? 0
  then place (fun tr => RegionTree.place_anywhere rnd tr r randomize_virtual_address sz alignment)
  else place (fun tr => RegionTree.place_specifically tr r (VirtualRange.mk requested_address sz)).

(** [vm_id] names the anonymous memory object that is created; a region that
    could not be mapped is destroyed but stays in the tree. *)
Definition allocate_region (rnd : nat -> Z)
    (randomize_virtual_address : RegionTree.RandomizeVirtualAddress)
    (requested_address requested_size requested_alignment : Z) (name : option string) (prot : Z)
    (id : Z) : action t Region :=
  if negb (VirtualRange.is_page_aligned requested_address) then lift (Err EINVAL) else
  let* sz := lift (VirtualRange.page_round_up requested_size) in
  let* alignment := lift (VirtualRange.page_round_up requested_alignment) in
  let* _ := copy_name name in
  let* _ := alloc in
  let v := vmobject Anonymous id (sz / PAGE_SIZE) in
  let* _ := alloc in
  let* r := place_requested rnd randomize_virtual_address requested_address sz alignment
              (create_unplaced v 0 name (prot_to_region_access_flags prot) 0 false) in
  fun s => match map_region r s with
           | (s, Ok _) => (s, Ok (set_directory r true))
           | (s, Err e) => (set_mmu s (destroy (set_directory r true) (m_mmu s)), Err e)
           | (s, Panic) => (s, Panic)
           | (s, Undefined) => (s, Undefined)
           end.

(** [remove_region_from_tree_on_failure] and the destructor of the region. *)
Definition undo_placement (r : Region) (s : t) : t :=
  let s := match RegionTree.remove_region (m_region_tree s) r with
           | Some tr => set_tree s tr
           | None => s
           end in
  set_mmu s (destroy r (m_mmu s)).

Definition allocate_region_with_vmobject (rnd : nat -> Z)
    (randomize_virtual_address : RegionTree.RandomizeVirtualAddress)
    (requested_address requested_size requested_alignment : Z) (v : VMObject)
    (offset_in_vmobject : Z) (name : option string) (prot : Z) (shared : bool) (memory_type : Z)
    : action t Region :=
  if negb (VirtualRange.is_page_aligned requested_address) then lift (Err EINVAL) else
  let* sz := lift (VirtualRange.page_round_up requested_size) in
  let* alignment := lift (VirtualRange.page_round_up requested_alignment) in
  if 2 ^ 64 <=? offset_in_vmobject + requested_size then lift (Err EOVERFLOW) else
  let end_in_vmobject := offset_in_vmobject + requested_size in
  if vm_size v <=? offset_in_vmobject then lift (Err EINVAL) else
  if vm_size v <? end_in_vmobject then lift (Err EINVAL) else
  let offset_in_vmobject := VirtualRange.page_base offset_in_vmobject in
  let* _ := copy_name name in
  let* _ := alloc in
  let* r := place_requested rnd randomize_virtual_address requested_address sz alignment
              (create_unplaced v offset_in_vmobject name (prot_to_region_access_flags prot)
                 memory_type shared) in
  if prot =? PROT_NONE then
    let* _ := modify (write_region (set_directory r true)) in ret (set_directory r true)
  else
    fun s => match map_region r s with
             | (s, Ok _) => (s, Ok (set_directory r true))
             | (s, Err e) => (undo_placement (set_directory r true) s, Err e)
             | (s, Panic) => (s, Panic)
             | (s, Undefined) => (s, Undefined)
             end.

End Operations.
Arguments t T : clear implicits.

(** ** What a program sees

    The memory at an address: the memory object and offset behind it, and the
    attributes of the region. *)
Record View : Type := {
  v_vmobject : VMObject;
  v_offset : Z;
  v_name : option string;
  v_access : Z;
  v_shared : bool;
  v_stack : bool;
  v_mmap : bool;
  v_syscall : bool;
  v_from_readable : bool;
  v_from_writable : bool;
  v_memory_type : Z
}.

Definition view_of (r : Region) (a : Z) : View := {|
  v_vmobject := m_vmobject r;
  v_offset := offset_of r a;
  v_name := m_name r;
  v_access := m_access r;
  v_shared := m_shared r;
  v_stack := m_stack r;
  v_mmap := m_mmap r;
  v_syscall := m_syscall_region r;
  v_from_readable := m_mmapped_from_readable r;
  v_from_writable := m_mmapped_from_writable r;
  v_memory_type := m_memory_type r
|}.

Definition view {T : Type} `{!OrderedTree T Region} (s : t T) (a : Z) : option View :=
  match RegionTree.find_region_containing_address (m_region_tree s) a with
  | Some r => Some (view_of r a)
  | None => None
  end.

(** ** Proofs *)

Section Proofs.
Context {T : Type} `{!OrderedTree T Region} `{!OrderedTreeLaws T Region}.
Context (env : Env).
Implicit Types s : t T.

Definition elems (s : t T) : list (Z * Region) :=
  tree_elements (RegionTree.m_regions (m_region_tree s)).

Definition total (s : t T) : VirtualRange.t := RegionTree.m_total_range (m_region_tree s).

(** The regions do not overlap, lie in user space, and the page tables grant a
    program nothing that some region does not grant. *)
Record inv (s : t T) : Prop := {
  s_tree : RegionTree.inv (m_region_tree s);
  s_user : USER_RANGE_BASE <= VirtualRange.m_base (total s) /\
    VirtualRange.m_base (total s) + VirtualRange.m_size (total s) <= USER_RANGE_CEILING env;
  s_regions : forall k r, (k, r) ∈ elems s -> region_ok r;
  s_ptes : forall p pte, ptes (m_mmu s) !! p = Some pte ->
    p mod PAGE_SIZE = 0 /\ exists k r, (k, r) ∈ elems s /\ VirtualRange.within (m_range r) p /\
      m_page_directory r = true /\ entry_allowed env r pte
}.

(** States that differ only in the number of allocations made. *)
Definition same (s s' : t T) : Prop :=
  m_region_tree s' = m_region_tree s /\ ptes (m_mmu s') = ptes (m_mmu s).

Lemma same_refl s : same s s.
Proof. done. Qed.

Lemma same_trans s1 s2 s3 : same s1 s2 -> same s2 s3 -> same s1 s3.
Proof. unfold same. intros [? ?] [? ?]. split; congruence. Qed.

Lemma same_inv s s' : same s s' -> inv s -> inv s'.
Proof.
  destruct s, s'. intros [E1 E2] [? ? ? ?]. unfold elems, total in *. simpl in *. subst.
  constructor; unfold elems, total; simpl; try done. by rewrite E2.
Qed.

Lemma same_view s s' a : same s s' -> view s' a = view s a.
Proof. unfold view. by intros [-> _]. Qed.

Lemma same_elems s s' : same s s' -> elems s' = elems s.
Proof. unfold elems. by intros [-> _]. Qed.

Lemma key_vaddr s k r : inv s -> (k, r) ∈ elems s -> k = vaddr r.
Proof. intros H Hin. by destruct (RegionTree.t_regions _ (s_tree s H) k r Hin) as (-> & _). Qed.

Lemma same_region s k r r' : inv s -> (k, r) ∈ elems s -> (k, r') ∈ elems s -> r = r'.
Proof. intros H. apply RegionTree.same_key, H. Qed.

Lemma regions_apart s k r k' r' :
  inv s -> (k, r) ∈ elems s -> (k', r') ∈ elems s -> k <> k' ->
  VirtualRange.disjoint (m_range r) (m_range r').
Proof. intros H. apply (RegionTree.t_disjoint _ (s_tree s H)). Qed.

Lemma region_user s k r : inv s -> (k, r) ∈ elems s -> in_user_space env r.
Proof.
  intros H Hin. destruct (RegionTree.t_regions _ (s_tree s H) k r Hin) as (_ & _ & _ & ? & ?).
  destruct (s_user s H). unfold in_user_space, size, total in *. lia.
Qed.

(** The view of an address of a region. *)
Lemma view_in s k r a :
  inv s -> (k, r) ∈ elems s -> VirtualRange.within (m_range r) a -> view s a = Some (view_of r a).
Proof.
  intros H Hin Hw. unfold view.
  by rewrite (proj2 (RegionTree.lookup_ok (m_region_tree s) a r (s_tree s H)) (ex_intro _ k (conj Hin Hw))).
Qed.

Lemma view_out s a :
  inv s -> (forall k r, (k, r) ∈ elems s -> ~ VirtualRange.within (m_range r) a) -> view s a = None.
Proof.
  intros H Hn. unfold view. destruct (RegionTree.find_region_containing_address _ a) as [r|] eqn:E; [|done].
  apply (RegionTree.lookup_ok _ _ _ (s_tree s H)) in E as (k & Hin & Hw). by destruct (Hn k r Hin).
Qed.

(** Either some region contains the address or it is not mapped. *)
Lemma view_cases s a :
  inv s ->
  (exists k r, (k, r) ∈ elems s /\ VirtualRange.within (m_range r) a /\ view s a = Some (view_of r a)) \/
  (view s a = None /\ forall k r, (k, r) ∈ elems s -> ~ VirtualRange.within (m_range r) a).
Proof.
  intros H. destruct (RegionTree.find_region_containing_address (m_region_tree s) a) as [r|] eqn:E.
  - left. pose proof E as (k & Hin & Hw)%(RegionTree.lookup_ok _ _ _ (s_tree s H)).
    exists k, r. split; [done|]. split; [done|]. by eapply view_in.
  - right. unfold view. rewrite E. split; [done|]. intros k r Hin Hw.
    assert (RegionTree.find_region_containing_address (m_region_tree s) a = Some r) as E'
      by (apply (RegionTree.lookup_ok _ _ _ (s_tree s H)); eauto).
    congruence.
Qed.

(** ** Removal *)

(** [s'] is [s] without the region [r]. *)
Definition removed (s : t T) (r : Region) (s' : t T) : Prop :=
  total s' = total s /\
  forall e, e ∈ elems s' <-> e ∈ elems s /\ fst e <> vaddr r.

Lemma removed_view s r s' a :
  inv s -> inv s' -> (vaddr r, r) ∈ elems s -> removed s r s' ->
  view s' a = if VirtualRange.contains_address (m_range r) a then None else view s a.
Proof.
  intros H H' Hin [_ He]. pose proof (VirtualRange.contains_address_spec (m_range r) a
    (ok_wf r (s_regions s H _ _ Hin))) as Hc.
  destruct (VirtualRange.contains_address (m_range r) a).
  - apply view_out; [done|]. intros k q [Hq Hne]%He Hw. simpl in Hne.
    pose proof (proj1 Hc eq_refl) as Hw'. unfold VirtualRange.within in *.
    destruct (regions_apart s k q (vaddr r) r H Hq Hin Hne); lia.
  - destruct (view_cases s a H) as [(k & q & Hq & Hw & ->)|[-> Hn]].
    + apply (view_in s' k); [done| |done]. apply He. split; [done|]. simpl. intros ->.
      rewrite (same_region s _ _ _ H Hq Hin) in Hw. by rewrite <- Hc in Hw.
    + apply view_out; [done|]. intros k q [Hq _]%He. by eapply Hn.
Qed.

(** Page table entries of a region that is taken out have to go. *)
Lemma removed_inv s r s' :
  inv s -> (vaddr r, r) ∈ elems s -> removed s r s' -> RegionTree.inv (m_region_tree s') ->
  (forall p pte, ptes (m_mmu s') !! p = Some pte -> ptes (m_mmu s) !! p = Some pte) ->
  (forall p pte, page_of r p -> entry_allowed env r pte -> m_page_directory r = true ->
     ptes (m_mmu s') !! p = Some pte -> False) ->
  inv s'.
Proof.
  intros H Hin [Ht He] Htree Hsub Hgone. constructor; [done| | |].
  - rewrite Ht. apply H.
  - intros k q [Hq _]%He. by eapply s_regions.
  - intros p pte Hp. destruct (s_ptes s H p pte (Hsub _ _ Hp)) as (Hm & k & q & Hq & Hw & Hd & Ha).
    split; [done|]. exists k, q. split; [|done]. apply He. split; [done|]. simpl. intros ->.
    rewrite (same_region s _ _ _ H Hq Hin) in *. apply (Hgone p pte); try done.
Qed.

Lemma take_region_ok r s :
  inv s -> (vaddr r, r) ∈ elems s ->
  exists tr', take_region r s = (set_tree s tr', Ok tt) /\ RegionTree.inv tr' /\
    removed s r (set_tree s tr').
Proof.
  intros H Hin. destruct (RegionTree.region_remove_ok _ _ _ (s_tree s H) Hin) as (tr' & E & Hi & Ht & He).
  exists tr'. unfold take_region. rewrite E. done.
Qed.

Lemma take_and_unmap_ok r s E C :
  inv s -> (vaddr r, r) ∈ elems s ->
  wp (take_and_unmap r) (fun _ s' => inv s' /\ removed s r s') E C s.
Proof.
  intros H Hin. destruct (take_region_ok r s H Hin) as (tr' & Et & Hi & Hr).
  unfold take_and_unmap, wp, abind. rewrite Et. simpl.
  pose proof (s_regions s H _ _ Hin) as Hok. destruct (unmap_ok r (m_mmu s) Hok) as (_ & Hn & Hsub).
  split; [|done]. eapply removed_inv; [done|done|done|done|apply Hsub|].
  simpl. intros p pte Hp _ Hd Hl. by rewrite Hn in Hl.
Qed.

Lemma deallocate_region_ok r s E C :
  inv s -> (vaddr r, r) ∈ elems s ->
  wp (deallocate_region r) (fun _ s' => inv s' /\ removed s r s') E C s.
Proof.
  intros H Hin. destruct (take_region_ok r s H Hin) as (tr' & Et & Hi & Hr).
  unfold deallocate_region, wp, abind. rewrite Et. simpl.
  pose proof (s_regions s H _ _ Hin) as Hok. destruct (unmap_ok r (m_mmu s) Hok) as (_ & Hn & Hsub).
  split; [|done]. apply (removed_inv s r); [done|done|done|done| |].
  - unfold destroy. simpl. destruct (negb (m_page_directory r)); [done|].
    destruct (_ && _); [done|apply Hsub].
  - unfold destroy. simpl. intros p pte Hp (_ & _ & Ha) Hd Hl. rewrite Hd in Hl. simpl in Hl.
    destruct (is_readable r), (is_writable r), (is_executable r); try done; simpl in Hl; by rewrite Hn in Hl.
Qed.

(** ** Insertion *)

(** [s'] is [s] with the region [r], which has no page table entries yet. *)
Definition inserted (s : t T) (r : Region) (s' : t T) : Prop :=
  total s' = total s /\
  forall e, e ∈ elems s' <-> e = (vaddr r, r) \/ e ∈ elems s.

Lemma alloc_ok s (Q : unit -> t T -> Prop) E C :
  (forall s', same s s' -> Q tt s') -> (forall s', same s s' -> E s') -> wp (alloc env) Q E C s.
Proof.
  intros HQ HE. unfold wp, alloc. destruct (memory_available env _); [apply HQ|apply HE]; done.
Qed.

Lemma copy_name_ok name s (Q : unit -> t T -> Prop) E C :
  (forall s', same s s' -> Q tt s') -> (forall s', same s s' -> E s') -> wp (copy_name env name) Q E C s.
Proof.
  intros HQ HE. destruct name; [by apply alloc_ok|]. apply wp_ret, HQ, same_refl.
Qed.

Lemma insert_inv s r range :
  inv s -> RegionTree.available (m_region_tree s) range -> VirtualRange.page_aligned range ->
  attrs_ok r ->
  let s' := set_tree s (fst (RegionTree.insert_region (m_region_tree s) r range)) in
  inv s' /\ inserted s (set_range r range) s'.
Proof.
  intros H Hav Hal [Hsh Hacc]. destruct (RegionTree.region_insert_ok _ r range (s_tree s H) Hav) as [Hi He].
  split; [|done]. constructor; [done|apply H| |].
  - intros k q [[= -> ->]|Hq]%He; [|by eapply s_regions]. destruct Hav as (? & ? & _). by constructor.
  - intros p pte Hp. destruct (s_ptes s H p pte Hp) as (Hm & k & q & Hq & Hrest).
    split; [done|]. exists k, q. split; [|done]. apply He. by right.
Qed.

(** What is placed at a fixed, available range. *)
Lemma place_specifically_ok s r range E C :
  inv s -> RegionTree.available (m_region_tree s) range -> VirtualRange.page_aligned range ->
  attrs_ok r ->
  wp (place (fun tr => RegionTree.place_specifically tr r range))
     (fun r' s' => r' = set_range r range /\ inv s' /\ inserted s (set_range r range) s') E C s.
Proof.
  intros H Hav Hal Hsh. pose proof Hav as (Hwf & Hs & _). unfold wp, place, RegionTree.place_specifically.
  destruct range as [base sz]. simpl in *.
  destruct (RegionTree.specific_ok _ base sz (s_tree s H) Hs Hwf Hal) as [[-> _]|[_ Hna]]; [|done].
  cbn [bind]. split; [done|]. by apply insert_inv.
Qed.

Lemma within_dec range a : {VirtualRange.within range a} + {~ VirtualRange.within range a}.
Proof.
  unfold VirtualRange.within.
  destruct (Z_le_dec (VirtualRange.m_base range) a),
    (Z_lt_dec a (VirtualRange.m_base range + VirtualRange.m_size range)); [left|right..]; lia.
Defined.

Lemma inserted_view s r s' a :
  inv s -> inv s' -> RegionTree.available (m_region_tree s) (m_range r) -> inserted s r s' ->
  view s' a = (if within_dec (m_range r) a then Some (view_of r a) else view s a) /\
  (VirtualRange.within (m_range r) a -> view s a = None).
Proof.
  intros H H' (_ & Hsz & _ & _ & Hd) [_ He]. split.
  - destruct (within_dec (m_range r) a) as [Hw|Hn].
    + apply (view_in s' (vaddr r)); [done|apply He; by left|done].
    + destruct (view_cases s a H) as [(k & q & Hq & Hw & ->)|[-> Ho]].
      * apply (view_in s' k); [done|apply He; by right|done].
      * apply view_out; [done|]. intros k q [[= -> ->]|Hq]%He; [done|by eapply Ho].
  - intros Hw. apply view_out; [done|]. intros k q Hq Hqw. unfold VirtualRange.within in *.
    destruct (Hd k q Hq); lia.
Qed.

(** ** Splitting *)

(** The part of a region in a range. *)
Definition piece (src : Region) (p : VirtualRange.t) : Region :=
  set_range (split_copy src (offset_of src (VirtualRange.m_base p))) p.

Lemma piece_view src p a : view_of (piece src p) a = view_of src a.
Proof.
  unfold view_of, piece, offset_of, vaddr. simpl. f_equal. unfold u64.
  rewrite wrap_add_l, !wrap_add_r. rewrite <- Z.add_assoc, (Z.add_comm (wrap _ _)), Z.add_assoc.
  rewrite wrap_add_r. f_equal. lia.
Qed.

(** Ranges of [src] that can be given to new regions one after the other. *)
Definition free_parts (s : t T) (src : Region) (ranges : list VirtualRange.t) : Prop :=
  Forall (fun p => RegionTree.available (m_region_tree s) p /\ VirtualRange.page_aligned p /\
    VirtualRange.m_base (m_range src) <= VirtualRange.m_base p /\
    VirtualRange.m_base p + VirtualRange.m_size p <=
      VirtualRange.m_base (m_range src) + VirtualRange.m_size (m_range src)) ranges /\
  ForallOrdPairs VirtualRange.disjoint ranges.

Lemma inserted_available s r s' p :
  inserted s r s' -> VirtualRange.disjoint (m_range r) p ->
  RegionTree.available (m_region_tree s) p -> RegionTree.available (m_region_tree s') p.
Proof.
  intros [Ht He] Hd (? & ? & ? & ? & Ha). unfold total in Ht. unfold RegionTree.available. rewrite Ht.
  do 4 (split; [done|]). intros k q [[= -> ->]|Hq]%He; [done|]. by eapply Ha.
Qed.

Lemma try_allocate_split_region_ok s src p :
  inv s -> attrs_ok src ->
  RegionTree.available (m_region_tree s) p -> VirtualRange.page_aligned p ->
  wp (try_allocate_split_region env src p (offset_of src (VirtualRange.m_base p)))
     (fun r s' => r = piece src p /\ inv s' /\ inserted s (piece src p) s') (same s) False s.
Proof.
  intros H Hsh Hav Hal. apply wp_bind, copy_name_ok; [|done].
  intros s1 H1. apply wp_bind, alloc_ok; [|intros s2 H2; exact (same_trans _ _ _ H1 H2)].
  intros s2 H2. pose proof (same_trans _ _ _ H1 H2) as Hs.
  eapply wp_mono; [apply place_specifically_ok|..].
  - by eapply same_inv.
  - by destruct Hs as [-> _].
  - done.
  - done.
  - intros r s' (-> & Hi & [Ht He]). split; [done|]. split; [done|]. unfold inserted.
    split.
    + rewrite Ht. unfold total. by destruct Hs as [-> _].
    + intros e. rewrite (He e), (same_elems _ _ Hs). done.
  - exact (fun _ x => x).
  - done.
Qed.

(** [s'] is [s] with the parts of [src] in [ranges]. *)
Definition with_pieces (s : t T) (src : Region) (ranges : list VirtualRange.t) (s' : t T) : Prop :=
  total s' = total s /\
  forall e, e ∈ elems s' <->
    (exists p, p ∈ ranges /\ e = (VirtualRange.m_base p, piece src p)) \/ e ∈ elems s.

Lemma split_ranges_ok src ranges acc s :
  inv s -> region_ok src -> free_parts s src ranges ->
  wp (split_ranges env src ranges acc)
     (fun rs s' => rs = acc ++ map (piece src) ranges /\ inv s' /\ with_pieces s src ranges s')
     (fun s' => inv s' /\ forall a, view s' a = view s a \/
        VirtualRange.within (m_range src) a /\ view s' a = Some (view_of src a)) False s.
Proof.
  revert acc s. induction ranges as [|p ranges IH]; intros acc s H Hok [Hf Hd].
  { apply wp_ret. rewrite app_nil_r. split; [done|]. split; [done|]. split; [done|].
    intros e. split; [by right|]. intros [(p & ?%not_elem_of_nil & _)|?]; done. }
  apply Forall_cons in Hf as [(Hav & Hal & Hlo & Hhi) Hf]. inversion Hd as [|? ? Hp Hd']; subst.
  cbn [split_ranges]. pose proof Hav as (Hwf & Hs & _).
  rewrite (proj2 (VirtualRange.contains_spec _ _ (ok_wf _ Hok) Hwf) (conj Hlo Hhi)).
  apply wp_bind. eapply wp_mono; [apply try_allocate_split_region_ok|..]; [done|by split; apply Hok|done|done| | |done].
  2: { intros s' Hs'. split; [by eapply same_inv|]. intros a. left. by apply same_view. }
  intros r s1 (-> & H1 & Hins).
  assert (forall a, view s1 a = view s a \/
    VirtualRange.within (m_range src) a /\ view s1 a = Some (view_of src a)) as Hv.
  { intros a. destruct (inserted_view s (piece src p) s1 a H H1 Hav Hins) as [-> _]. simpl.
    destruct (within_dec p a) as [Hw|]; [right|by left]. rewrite piece_view. split; [|done].
    unfold VirtualRange.within in *. lia. }
  eapply wp_mono; [apply (IH _ s1)|..]; [done|done| | | |done].
  - split; [|done]. rewrite Forall_forall in Hf, Hp |- *. intros q Hq. destruct (Hf q Hq) as (? & Hrest).
    split; [|done]. apply (inserted_available s (piece src p)); [done| |done]. by apply Hp.
  - intros rs s' (-> & Hi & Ht & He). rewrite <- app_assoc. split; [done|]. split; [done|].
    destruct Hins as [Ht1 He1]. split; [congruence|]. intros e. rewrite (He e), (He1 e). split.
    + intros [(q & ? & ?)|[->|?]]; [left; exists q; split; [by right|done]|left|by right].
      exists p. split; [by left|done].
    + intros [(q & [->|?]%elem_of_cons & ->)|?]; [right; by left|left; by exists q|right; by right].
  - intros s' [Hi Hv']. split; [done|]. intros a. destruct (Hv' a) as [->|?]; [apply Hv|by right].
Qed.

Lemma with_pieces_view s src ranges s' a :
  inv s -> inv s' -> free_parts s src ranges -> with_pieces s src ranges s' ->
  ((exists p, p ∈ ranges /\ VirtualRange.within p a) /\ view s' a = Some (view_of src a)) \/
  (~ (exists p, p ∈ ranges /\ VirtualRange.within p a) /\ view s' a = view s a).
Proof.
  intros H H' [Hf _] [_ He]. rewrite Forall_forall in Hf.
  destruct (view_cases s' a H') as [(k & q & Hq & Hw & E)|[E Hn]]; rewrite E.
  - apply He in Hq as [(p & Hp & [= -> ->])|Hq].
    + left. rewrite piece_view. split; [by exists p|done].
    + right. split; [|symmetry; by eapply view_in]. intros (p & Hp & Hwp).
      destruct (Hf p Hp) as [(_ & _ & _ & _ & Hd) _].
      destruct (Hd k q Hq); unfold VirtualRange.within in *; lia.
  - right. split.
    + intros (p & Hp & Hwp). apply (Hn (VirtualRange.m_base p) (piece src p)); [|done].
      apply He. left. by exists p.
    + symmetry. apply view_out; [done|]. intros k r Hr. apply (Hn k r), He. by right.
Qed.

(** Regions of the tree, named once each. *)
Definition listed (s : t T) (rs : list Region) : Prop :=
  NoDup (map vaddr rs) /\ forall r, r ∈ rs -> (vaddr r, r) ∈ elems s.

(** What is cut reaches one of the ends of the region. *)
Definition one_sided (r : Region) (taken : VirtualRange.t) : Prop :=
  VirtualRange.m_base taken <= VirtualRange.m_base (m_range r) \/
  VirtualRange.m_base (m_range r) + VirtualRange.m_size (m_range r) <=
    VirtualRange.m_base taken + VirtualRange.m_size taken.

(** After a region was taken out, the ranges around what is cut from it are
    free. *)
Lemma carve_free s s1 r taken :
  inv s -> (vaddr r, r) ∈ elems s -> removed s r s1 ->
  VirtualRange.wf taken -> 0 < VirtualRange.m_size taken -> VirtualRange.page_aligned taken ->
  ~ VirtualRange.disjoint (m_range r) taken ->
  exists parts, VirtualRange.carve (m_range r) taken = Ok parts /\ free_parts s1 r parts /\
    (forall a, VirtualRange.within (m_range r) a <->
       VirtualRange.within (m_range r) a /\ VirtualRange.within taken a \/
       exists p, p ∈ parts /\ VirtualRange.within p a) /\
    (forall p a, p ∈ parts -> VirtualRange.within p a -> ~ VirtualRange.within taken a) /\
    (one_sided r taken -> (length parts <= 1)%nat).
Proof.
  intros H Hin [Ht He] Hwf Hs Hal Hd. pose proof (s_regions s H _ _ Hin) as Hok.
  destruct (VirtualRange.carve_overlap (m_range r) taken (ok_wf _ Hok) Hwf (ok_size _ Hok) Hs
    (ok_pages _ Hok) Hal Hd) as (parts & E & Hp & Hpd & Ha & Hlen).
  exists parts. split; [done|]. rewrite Forall_forall in Hp. split; [|split; [done|split; [|done]]].
  - split; [|done]. apply Forall_forall. intros p Hpin.
    destruct (Hp p Hpin) as (Hpw & Hps & Hpa & _ & Hlo & Hhi). split; [|done].
    destruct (RegionTree.t_regions _ (s_tree s H) _ _ Hin) as (_ & _ & _ & Hb1 & Hb2).
    unfold total in Ht. unfold RegionTree.available, vaddr in *. rewrite Ht.
    split; [done|]. split; [done|]. split; [lia|]. split; [lia|]. intros k q [Hq Hne]%He. simpl in Hne.
    destruct (regions_apart s k q _ r H Hq Hin Hne) as [?|?]; [left|right]; lia.
  - intros p a Hpin Hw Hw'. destruct (Hp p Hpin) as (_ & _ & _ & [?|?] & _);
      unfold VirtualRange.within in *; lia.
Qed.

(** Nothing new can be seen. *)
Definition shrunk (s s' : t T) : Prop := forall a, view s' a = None \/ view s' a = view s a.

Lemma shrunk_trans s1 s2 s3 : shrunk s1 s2 -> shrunk s2 s3 -> shrunk s1 s3.
Proof. intros H1 H2 a. destruct (H2 a) as [->| ->]; [by left|apply H1]. Qed.

Lemma same_shrunk s s' : same s s' -> shrunk s s'.
Proof. intros Hs a. right. by apply same_view. Qed.

(** Cutting [taken] out of one region: what was there is gone, every other
    address sees what it saw. *)
Definition cut (s : t T) (r : Region) (taken : VirtualRange.t) (s' : t T) : Prop :=
  total s' = total s /\
  (forall a, VirtualRange.within (m_range r) a /\ VirtualRange.within taken a -> view s' a = None) /\
  (forall a, ~ (VirtualRange.within (m_range r) a /\ VirtualRange.within taken a) ->
     view s' a = view s a) /\
  (forall e, e ∈ elems s -> fst e <> vaddr r -> e ∈ elems s').

(** New regions, all inside the region they were split from. *)
Definition inside (r : Region) (rs : list Region) : Prop :=
  Forall (fun q => VirtualRange.within (m_range r) (vaddr q)) rs.

Lemma removed_view_in s r s' a :
  inv s -> inv s' -> (vaddr r, r) ∈ elems s -> removed s r s' ->
  (VirtualRange.within (m_range r) a -> view s' a = None) /\
  (~ VirtualRange.within (m_range r) a -> view s' a = view s a).
Proof.
  intros H H' Hin Hr. rewrite (removed_view s r s' a H H' Hin Hr).
  pose proof (VirtualRange.contains_address_spec (m_range r) a (ok_wf r (s_regions s H _ _ Hin))) as Hc.
  destruct (VirtualRange.contains_address (m_range r) a); split; try done; intros Hw.
  - by destruct Hw; apply Hc.
  - by apply Hc in Hw.
Qed.

Lemma pieces_listed s src parts s' :
  free_parts s src parts -> with_pieces s src parts s' ->
  listed s' (map (piece src) parts) /\ inside src (map (piece src) parts).
Proof.
  intros [Hf Hd] [_ He]. split.
  - split.
    + rewrite map_map. unfold vaddr. simpl. clear He. induction Hd as [|p parts Hp Hd IH]; [constructor|].
      apply Forall_cons in Hf as [Hav Hf]. simpl. constructor; [|by apply IH].
      intros (q & Eq & Hq)%list_elem_of_In%in_map_iff. rewrite <- list_elem_of_In in Hq.
      rewrite Forall_forall in Hp, Hf. destruct (Hf q Hq) as [(_ & ? & _) _].
      destruct Hav as [(_ & ? & _) _]. destruct (Hp q Hq); lia.
    + intros r (p & <- & Hp)%list_elem_of_In%in_map_iff. apply He. left. exists p.
      split; [by apply list_elem_of_In|done].
  - apply Forall_forall. intros r (p & <- & Hp)%list_elem_of_In%in_map_iff.
    rewrite Forall_forall in Hf. apply list_elem_of_In in Hp. destruct (Hf p Hp) as [(_ & ? & _) [_ [? ?]]].
    unfold VirtualRange.within, vaddr. simpl. lia.
Qed.

(** The regions of [s2] are those of [s] beside [r] and the new ones. *)
Definition from_split (s : t T) (r : Region) (taken : VirtualRange.t) (s2 : t T) (rs : list Region) : Prop :=
  (forall e, e ∈ elems s2 -> e ∈ elems s /\ fst e <> vaddr r \/ exists q, q ∈ rs /\ e = (vaddr q, q)) /\
  (one_sided r taken -> length rs = 1%nat).

Lemma split_ok s s1 r taken :
  inv s -> inv s1 -> (vaddr r, r) ∈ elems s -> removed s r s1 ->
  VirtualRange.wf taken -> 0 < VirtualRange.m_size taken -> VirtualRange.page_aligned taken ->
  ~ VirtualRange.disjoint (m_range r) taken ->
  (exists a, VirtualRange.within (m_range r) a /\ ~ VirtualRange.within taken a) ->
  wp (try_split_region_around_range env r taken)
     (fun rs s2 => inv s2 /\ cut s r taken s2 /\ listed s2 rs /\ inside r rs /\ from_split s r taken s2 rs)
     (fun s2 => inv s2 /\ shrunk s s2) False s1.
Proof.
  intros H H1 Hin Hr Hwf Hs Hal Hd (a0 & Ha0 & Hna0).
  destruct (carve_free s s1 r taken H Hin Hr Hwf Hs Hal Hd) as (parts & E & Hfree & Hcov & Hout & Hlen).
  unfold try_split_region_around_range. apply wp_bind. unfold wp at 1. simpl. rewrite E.
  assert (parts <> []) as Hne.
  { intros ->. apply Hcov in Ha0 as [[_ ?]|(p & ?%not_elem_of_nil & _)]; done. }
  destruct parts as [|p0 parts]; [done|]. set (ps := p0 :: parts) in *.
  eapply wp_mono; [apply split_ranges_ok|..]; [done|exact (s_regions s H _ _ Hin)|done| | |done].
  2: { intros s2 [H2 Hv2]. split; [done|]. intros a.
       destruct (removed_view_in s r s1 a H H1 Hin Hr) as [Hv1 Hv1'].
       destruct (Hv2 a) as [->|[Hw ->]]; [|right; symmetry; by eapply view_in].
       destruct (within_dec (m_range r) a); [left|right]; auto. }
  intros rs s2 (-> & H2 & Hw). destruct (pieces_listed _ _ _ _ Hfree Hw) as [Hl Hi].
  split; [done|]. split; [|split; [done|split; [done|]]].
  2: { destruct Hr as [_ He1], Hw as [_ He2]. split.
       - intros e [(p & Hp & ->)|He]%He2; [right|left; by apply He1]. exists (piece r p).
         split; [|done]. apply list_elem_of_In, in_map. by apply list_elem_of_In.
       - intros Ho. pose proof (Hlen Ho). unfold ps in *. simpl in *. rewrite length_map. lia. }
  assert (forall a, view s2 a = if within_dec (m_range r) a
            then if within_dec taken a then None else view s a else view s a) as Hv.
  { intros a. destruct (removed_view_in s r s1 a H H1 Hin Hr) as [Hv1 Hv2].
    destruct (with_pieces_view s1 r ps s2 a H1 H2 Hfree Hw) as [[(p & Hp & Hpw) Ev]|[Hnp Ev]]; rewrite Ev.
    - assert (VirtualRange.within (m_range r) a) as Hra by (apply Hcov; right; eauto).
      destruct (within_dec (m_range r) a); [|done]. destruct (within_dec taken a).
      + by destruct (Hout p a Hp Hpw).
      + symmetry. by eapply view_in.
    - destruct (within_dec (m_range r) a) as [Hra|]; [|by apply Hv2].
      destruct (within_dec taken a); [by apply Hv1|]. apply Hcov in Hra as [[_ ?]|?]; done. }
  destruct Hr as [Ht1 He1], Hw as [Ht2 He2]. split; [congruence|]. split; [|split].
  - intros a [? ?]. rewrite Hv. by repeat destruct (within_dec _ _).
  - intros a Hn. rewrite Hv. repeat destruct (within_dec _ _); try done. by destruct Hn.
  - intros e He Hk. apply He2. right. by apply He1.
Qed.

(** ** Mapping *)

(** [s'] is [s] with the region [r] overwritten in place. *)
Definition rewritten (s : t T) (r : Region) (s' : t T) : Prop :=
  total s' = total s /\
  forall e, e ∈ elems s' <-> e = (vaddr r, r) \/ e ∈ elems s /\ fst e <> vaddr r.

Lemma write_region_ok s r r' :
  RegionTree.inv (m_region_tree s) -> (vaddr r, r) ∈ elems s -> m_range r' = m_range r ->
  RegionTree.inv (m_region_tree (write_region r' s)) /\ rewritten s r' (write_region r' s) /\
  m_mmu (write_region r' s) = m_mmu s.
Proof.
  intros H Hin Er. assert (vaddr r' = vaddr r) as Ev by (unfold vaddr; congruence).
  destruct (elements_remove _ _ _ (RegionTree.t_ordered _ H) Hin) as (T' & Et & Ho & He).
  destruct (elements_insert T' (vaddr r) r' Ho) as [Ho' He'].
  { intros w [_ Hw]%He. done. }
  unfold write_region, rewritten, total, elems. rewrite Ev, Et. simpl.
  assert (forall e, e ∈ tree_elements (tree_insert (vaddr r) r' T') <->
    e = (vaddr r, r') \/ e ∈ elems s /\ fst e <> vaddr r) as Hel.
  { intros e. rewrite (He' e), (He e). done. }
  split; [|done]. constructor; simpl; [apply H|done| |].
  - intros k q [[= -> ->]|[Hq _]]%Hel; [|by apply H]. rewrite Ev, Er.
    by destruct (RegionTree.t_regions _ H _ _ Hin) as (_ & ? & ? & ? & ?).
  - intros k q k' q' [[= -> ->]|[Hq Hn]]%Hel [[= -> ->]|[Hq' Hn']]%Hel Hk; simpl in *; try done.
    + rewrite Er. by apply (RegionTree.t_disjoint _ H (vaddr r) r k' q').
    + rewrite Er. by apply (RegionTree.t_disjoint _ H k q (vaddr r) r).
    + by apply (RegionTree.t_disjoint _ H k q k' q').
Qed.

Lemma rewritten_view s r r' s' a :
  inv s -> inv s' -> (vaddr r, r) ∈ elems s -> rewritten s r' s' -> m_range r' = m_range r ->
  view s' a = if within_dec (m_range r) a then Some (view_of r' a) else view s a.
Proof.
  intros H H' Hin [_ He] Er. destruct (within_dec (m_range r) a) as [Hw|Hn].
  - apply (view_in s' (vaddr r')); [done|apply He; by left|by rewrite Er].
  - destruct (view_cases s a H) as [(k & q & Hq & Hw & ->)|[-> Ho]].
    + apply (view_in s' k); [done| |done]. apply He. right. split; [done|]. simpl.
      assert (vaddr r' = vaddr r) as -> by (unfold vaddr; congruence). intros ->.
      by rewrite (same_region s _ _ _ H Hq Hin) in Hw.
    + apply view_out; [done|]. intros k q [[= -> ->]|[Hq _]]%He; [by rewrite Er|by eapply Ho].
Qed.

Lemma region_of_address s k r k' r' a :
  inv s -> (k, r) ∈ elems s -> (k', r') ∈ elems s ->
  VirtualRange.within (m_range r) a -> VirtualRange.within (m_range r') a -> k = k' /\ r = r'.
Proof.
  intros H Hr Hr' Hw Hw'. destruct (decide (k = k')) as [->|Hne].
  - split; [done|]. by eapply same_region.
  - unfold VirtualRange.within in *. destruct (regions_apart s k r k' r' H Hr Hr' Hne); lia.
Qed.

Lemma rewrite_inv s r r' s' :
  inv s -> (vaddr r, r) ∈ elems s -> rewritten s r' s' -> RegionTree.inv (m_region_tree s') ->
  m_range r' = m_range r -> region_ok r' ->
  (forall p pte, page_of r p -> ptes (m_mmu s') !! p = Some pte ->
     m_page_directory r' = true /\ entry_allowed env r' pte) ->
  (forall p, ~ page_of r p -> ptes (m_mmu s') !! p = ptes (m_mmu s) !! p) ->
  inv s'.
Proof.
  intros H Hin [Ht He] Htree Er Hok Hnew Hold. constructor; [done| | |].
  - rewrite Ht. apply H.
  - intros k q [[= -> ->]|[Hq _]]%He; [done|by eapply s_regions].
  - intros p pte Hp. destruct (within_dec (m_range r) p) as [Hw|Hn], (decide (p mod PAGE_SIZE = 0)) as [Hm|Hm].
    + split; [done|]. exists (vaddr r'), r'. split; [apply He; by left|]. rewrite Er. split; [done|].
      by apply (Hnew p).
    + rewrite Hold in Hp by (intros [_ ?]; done). by destruct (s_ptes s H p pte Hp) as [? _].
    + rewrite Hold in Hp by (intros [? _]; done).
      destruct (s_ptes s H p pte Hp) as (_ & k & q & Hq & Hqw & Hrest). split; [done|].
      exists k, q. split; [|done]. apply He. right. split; [done|]. simpl.
      assert (vaddr r' = vaddr r) as -> by (unfold vaddr; congruence). intros ->.
      by rewrite (same_region s _ _ _ H Hq Hin) in Hqw.
    + rewrite Hold in Hp by (intros [? _]; done). by destruct (s_ptes s H p pte Hp) as [? _].
Qed.

(** Mapping a region of the tree: on success and on failure only its directory
    flag and its own page table entries change. *)
Definition mapped_in (r : Region) (s s' : t T) : Prop :=
  inv s' /\ rewritten s (set_directory r true) s'.

Lemma map_region_ok r s :
  inv s -> (vaddr r, r) ∈ elems s ->
  wp (map_region env r) (fun _ s' => mapped_in r s s') (mapped_in r s) False s.
Proof.
  intros H Hin. pose proof (s_regions s H _ _ Hin) as Hok. pose proof (region_user s _ _ H Hin) as Hu.
  destruct (map_impl_ok env r (m_mmu s) Hok Hu) as (m' & b & E & Hout & Hsub & _ & _).
  unfold wp, map_region. rewrite E.
  destruct (write_region_ok s r (set_directory r true) (s_tree s H) Hin eq_refl) as (Ht & Hrw & Hmm).
  set (s' := set_mmu (write_region (set_directory r true) s) m').
  assert (mapped_in r s s') as Hp; [|by destruct b].
  split; [|done]. eapply (rewrite_inv s r (set_directory r true) s'); try done.
  - destruct Hok. by constructor.
  - intros p pte Hp Hl. split; [done|]. destruct (Hsub p pte Hl) as [Hl'|[_ ?]]; [|done].
    destruct (s_ptes s H p pte Hl') as (_ & k & q & Hq & Hqw & _ & Ha).
    by destruct (region_of_address s _ _ _ _ p H Hq Hin Hqw (proj1 Hp)) as [_ ->].
Qed.

Lemma mapped_view r s s' a :
  inv s -> (vaddr r, r) ∈ elems s -> mapped_in r s s' -> view s' a = view s a.
Proof.
  intros H Hin [H' Hr]. rewrite (rewritten_view s r _ s' a H H' Hin Hr eq_refl).
  destruct (within_dec (m_range r) a) as [Hw|]; [|done].
  by rewrite (view_in s _ r a H Hin Hw).
Qed.

Lemma mapped_listed r rs s s' :
  mapped_in r s s' -> listed s (r :: rs) -> listed s' rs.
Proof.
  intros [_ [_ He]] [Hnd Hl]. cbn [map] in Hnd. apply NoDup_cons in Hnd as [Hn Hnd]. split; [done|].
  intros q Hq. apply He. right. split; [apply Hl; by right|]. simpl. intros E.
  change (vaddr q = vaddr r) in E. apply Hn. rewrite <- E. apply list_elem_of_In, in_map. by apply list_elem_of_In.
Qed.

(** The regions [rs] now have a page directory, nothing else changed. *)
Definition attached_all (rs : list Region) (s s' : t T) : Prop :=
  forall e, e ∈ elems s' <->
    (exists r, r ∈ rs /\ e = (vaddr r, set_directory r true)) \/
    e ∈ elems s /\ forall r, r ∈ rs -> fst e <> vaddr r.

Lemma map_all_ok rs s :
  inv s -> listed s rs ->
  wp (map_all env rs)
     (fun _ s' => inv s' /\ total s' = total s /\ (forall a, view s' a = view s a) /\ attached_all rs s s')
     (fun s' => inv s' /\ total s' = total s /\ forall a, view s' a = view s a) False s.
Proof.
  revert s. induction rs as [|r rs IH]; intros s H Hl.
  { apply wp_ret. do 3 (split; [done|]). intros e. split.
    - intros He. right. split; [done|]. by intros r ?%not_elem_of_nil.
    - by intros [(r & ?%not_elem_of_nil & _)|[? _]]. }
  assert ((vaddr r, r) ∈ elems s) as Hin by (apply Hl; by left).
  cbn [map_all]. apply wp_bind. eapply wp_mono; [by apply map_region_ok| | |done].
  - intros [] s1 Hm. pose proof Hm as [H1 [Ht _]].
    assert (forall a, view s1 a = view s a) as Hv by (intros a; by apply (mapped_view r)).
    eapply wp_mono; [apply (IH s1 H1), (mapped_listed r rs s s1 Hm Hl)| | |done].
    + intros _ s2 (? & ? & Hv2 & He2). split; [done|]. split; [congruence|].
      split; [intros a; by rewrite Hv2|]. destruct Hm as [_ [_ He1]].
      assert (forall q, q ∈ rs -> vaddr q <> vaddr r) as Hx.
      { intros q Hq E. destruct Hl as [Hnd _]. cbn [map] in Hnd. apply NoDup_cons in Hnd as [Hn _].
        apply Hn. rewrite <- E. apply list_elem_of_In, in_map. by apply list_elem_of_In. }
      intros e. rewrite (He2 e), (He1 e). change (vaddr (set_directory r true)) with (vaddr r). split.
      * intros [(q & Hq & ->)|[[->|[He Hk]] Hks]].
        -- left. exists q. split; [by right|done].
        -- left. exists r. split; [by left|done].
        -- right. split; [done|]. intros q [->|?]%elem_of_cons; auto.
      * intros [(q & [->|Hq]%elem_of_cons & ->)|[He Hks]].
        -- right. split; [by left|]. intros q Hq. simpl. intros E. by apply (Hx q).
        -- left. by exists q.
        -- right. split; [right; split; [done|apply Hks; by left]|]. intros q Hq. apply Hks. by right.
    + intros s2 (? & ? & Hv2). split; [done|]. split; [congruence|]. intros a. by rewrite Hv2.
  - intros s1 Hm. pose proof Hm as [H1 [Ht _]]. split; [done|]. split; [done|].
    intros a. by apply (mapped_view r).
Qed.

(** ** Unmapping several regions *)

Lemma intersect_exact a b :
  VirtualRange.wf a -> VirtualRange.wf b -> 0 < VirtualRange.m_size a -> 0 < VirtualRange.m_size b ->
  ~ VirtualRange.disjoint a b ->
  VirtualRange.intersect a b = Ok (VirtualRange.mk
    (Z.max (VirtualRange.m_base a) (VirtualRange.m_base b))
    (Z.min (VirtualRange.m_base a + VirtualRange.m_size a) (VirtualRange.m_base b + VirtualRange.m_size b) -
     Z.max (VirtualRange.m_base a) (VirtualRange.m_base b))).
Proof.
  intros Ha Hb Hsa Hsb Hd. pose proof Ha as (? & ? & ?). pose proof Hb as (? & ? & ?).
  unfold VirtualRange.intersect, VirtualRange.disjoint in *. destruct (VirtualRange.eqb a b) eqn:E.
  - apply VirtualRange.eqb_spec in E as ->. f_equal. destruct b; simpl in *. f_equal; lia.
  - rewrite !VirtualRange.end_ok by done. rewrite (proj2 (Z.ltb_lt _ _)) by lia.
    unfold u64. rewrite wrap_small by (unfold fits; lia). done.
Qed.

(** Some of the regions [rs] contains the address. *)
Definition in_regions (rs : list Region) (a : Z) : Prop :=
  Exists (fun r => VirtualRange.within (m_range r) a) rs.

Lemma in_regions_dec rs a : {in_regions rs a} + {~ in_regions rs a}.
Proof. apply List.Exists_dec. intros r. apply within_dec. Defined.

(** The part of the range that the regions [rs] cover is gone, the rest of
    memory is as before. *)
Definition cleared (rs : list Region) (range : VirtualRange.t) (s s' : t T) : Prop :=
  total s' = total s /\ forall a,
    (in_regions rs a /\ VirtualRange.within range a -> view s' a = None) /\
    (~ (in_regions rs a /\ VirtualRange.within range a) -> view s' a = view s a).

Lemma cut_shrunk s r taken s' : cut s r taken s' -> shrunk s s'.
Proof.
  intros (_ & H1 & H2 & _) a. destruct (within_dec (m_range r) a), (within_dec taken a);
    first [left; by apply H1|right; apply H2; by intros []].
Qed.

Lemma removed_shrunk s r s' :
  inv s -> inv s' -> (vaddr r, r) ∈ elems s -> removed s r s' -> shrunk s s'.
Proof.
  intros H H' Hin Hr a. destruct (removed_view_in s r s' a H H' Hin Hr) as [H1 H2].
  destruct (within_dec (m_range r) a); [left|right]; auto.
Qed.

Lemma cleared_cons r rs range s s1 s' :
  total s1 = total s ->
  (forall a, (VirtualRange.within (m_range r) a /\ VirtualRange.within range a -> view s1 a = None) /\
     (~ (VirtualRange.within (m_range r) a /\ VirtualRange.within range a) -> view s1 a = view s a)) ->
  cleared rs range s1 s' -> cleared (r :: rs) range s s'.
Proof.
  intros Ht Hr [Ht' Hrs]. split; [congruence|]. intros a.
  destruct (Hr a) as [Hr1 Hr2], (Hrs a) as [Hs1 Hs2].
  destruct (within_dec range a) as [Hw|Hn].
  - destruct (in_regions_dec rs a) as [Hi|Hi], (within_dec (m_range r) a) as [Hi'|Hi'].
    + split; [|intros []; split; [by right|done]]. intros _. by apply Hs1.
    + split; [|intros []; split; [by right|done]]. intros _. by apply Hs1.
    + split; [|intros []; split; [by left|done]]. intros _. rewrite Hs2 by (intros []; done). by apply Hr1.
    + split.
      * intros [[?|?]%Exists_cons _]; done.
      * intros _. rewrite Hs2 by (intros []; done). apply Hr2. by intros [].
  - split; [intros []; done|]. intros _. rewrite Hs2 by (intros []; done). apply Hr2. by intros [].
Qed.

Lemma listed_app s rs acc : listed s (rs ++ acc) <->
  listed s rs /\ listed s acc /\ forall r q, r ∈ rs -> q ∈ acc -> vaddr r <> vaddr q.
Proof.
  unfold listed. rewrite map_app, NoDup_app. split.
  - intros [(? & Hx & ?) Hl]. split; [split; [done|]; intros r ?; apply Hl; set_solver|].
    split; [split; [done|]; intros r ?; apply Hl; set_solver|].
    intros r q Hr Hq E. apply (Hx (vaddr r)); apply list_elem_of_In; [|rewrite E];
      apply in_map, list_elem_of_In; done.
  - intros ([? Hl] & [? Hl'] & Hx). split; [|intros r [?|?]%elem_of_app; auto].
    split; [done|]. split; [|done]. intros x (r & <- & Hr)%list_elem_of_In%in_map_iff
      (q & E & Hq)%list_elem_of_In%in_map_iff. rewrite <- !list_elem_of_In in *. by apply (Hx r q).
Qed.

Lemma listed_cons s r rs : listed s (r :: rs) <->
  (vaddr r, r) ∈ elems s /\ listed s rs /\ forall q, q ∈ rs -> vaddr q <> vaddr r.
Proof.
  unfold listed. cbn [map]. rewrite NoDup_cons. split.
  - intros [[Hn ?] Hl]. split; [apply Hl; by left|]. split; [split; [done|]; intros q ?; apply Hl; by right|].
    intros q Hq E. apply Hn. rewrite <- E. apply list_elem_of_In, in_map. by apply list_elem_of_In.
  - intros (Hr & [? Hl] & Hx). split; [split; [|done]|].
    + intros (q & E & Hq)%list_elem_of_In%in_map_iff. apply (Hx q); [by apply list_elem_of_In|done].
    + intros q [->|?]%elem_of_cons; auto.
Qed.

(** Regions keep their place while others are taken out or cut. *)
Lemma listed_kept s s' r rs :
  (forall e, e ∈ elems s -> fst e <> vaddr r -> e ∈ elems s') -> listed s (r :: rs) -> listed s' rs.
Proof.
  intros He (_ & [Hnd Hl] & Hx)%listed_cons. split; [done|]. intros q Hq. apply He; [by apply Hl|]. by apply Hx.
Qed.

(** New regions inside [r] have other addresses than the regions beside [r]. *)
Lemma inside_apart s r rs qs :
  inv s -> listed s (r :: rs) -> inside r qs -> forall p q, p ∈ rs -> q ∈ qs -> vaddr p <> vaddr q.
Proof.
  intros H (Hr & [_ Hl] & Hx)%listed_cons Hi p q Hp Hq E. unfold inside in Hi. rewrite Forall_forall in Hi.
  pose proof (Hi q Hq) as Hw. rewrite <- E in Hw.
  assert (VirtualRange.within (m_range p) (vaddr p)) as Hw'.
  { pose proof (ok_size _ (s_regions s H _ _ (Hl p Hp))). unfold VirtualRange.within, vaddr, size in *. lia. }
  destruct (region_of_address s _ _ _ _ _ H Hr (Hl p Hp) Hw Hw') as [E' _]. by apply (Hx p).
Qed.

Lemma unmap_regions_ok range rs acc s :
  VirtualRange.wf range -> 0 < VirtualRange.m_size range -> VirtualRange.page_aligned range ->
  inv s -> listed s (rs ++ acc) -> Forall (fun r => ~ VirtualRange.disjoint (m_range r) range) rs ->
  wp (unmap_regions env range rs acc)
     (fun new s' => inv s' /\ listed s' new /\ cleared rs range s s')
     (fun s' => inv s' /\ shrunk s s') False s.
Proof.
  intros Hwf Hs Hal. revert acc s. induction rs as [|r rs IH]; intros acc s H Hl Hd.
  { apply wp_ret. split; [done|]. split; [done|]. split; [done|]. intros a. split; [|done].
    by intros [?%Exists_nil _]. }
  apply Forall_cons in Hd as [Hd Hds]. cbn [app] in Hl.
  pose proof Hl as (Hin & Hl' & Hx)%listed_cons. pose proof (s_regions s H _ _ Hin) as Hok.
  cbn [unmap_regions]. apply wp_bind. unfold wp at 1. simpl.
  rewrite (intersect_exact _ _ (ok_wf _ Hok) Hwf (ok_size _ Hok) Hs Hd). simpl.
  unfold VirtualRange.disjoint in Hd. unfold size.
  destruct (Z.eqb_spec (Z.min (VirtualRange.m_base (m_range r) + VirtualRange.m_size (m_range r))
    (VirtualRange.m_base range + VirtualRange.m_size range) -
    Z.max (VirtualRange.m_base (m_range r)) (VirtualRange.m_base range)) (VirtualRange.m_size (m_range r)))
    as [Hfull|Hpart].
  - apply wp_bind. eapply wp_mono; [by apply deallocate_region_ok| |exact (fun _ x => x)|exact (fun x => x)].
    intros [] s1 [H1 Hr]. eapply wp_mono; [apply (IH acc s1)| | |done]; [done| |done| |].
    + apply (listed_kept s s1 r); [|done]. intros e ? ?. by apply Hr.
    + intros new s' (? & ? & Hc). split; [done|]. split; [done|]. destruct Hr as [Ht He] eqn:?.
      apply (cleared_cons r rs range s s1); [done| |done]. intros a.
      destruct (removed_view_in s r s1 a H H1 Hin Hr) as [Hv1 Hv2]. split; [intros []; auto|].
      intros Hn. apply Hv2. intros Hw. apply Hn. split; [done|]. unfold VirtualRange.within in *. lia.
    + intros s' [? Hsh]. split; [done|]. apply (shrunk_trans s s1); [|done]. by apply (removed_shrunk s r).
  - apply wp_bind. eapply wp_mono; [by apply take_and_unmap_ok| |exact (fun _ x => x)|exact (fun x => x)].
    intros [] s1 [H1 Hr]. apply wp_bind. eapply wp_mono; [apply (split_ok s s1)| |done|done]; try done.
    { destruct (Z.lt_ge_cases (VirtualRange.m_base (m_range r)) (VirtualRange.m_base range)).
      - exists (VirtualRange.m_base (m_range r)). unfold VirtualRange.within. lia.
      - exists (VirtualRange.m_base range + VirtualRange.m_size range). unfold VirtualRange.within. lia. }
    intros split s2 (H2 & Hcut & Hls & Hins & _). pose proof Hcut as (Ht2 & Hc1 & Hc2 & Hkeep).
    apply wp_bind. assert (forall s3, same s2 s3 -> wp (unmap_regions env range rs (acc ++ split))
      (fun new s' => inv s' /\ listed s' new /\ cleared (r :: rs) range s s')
      (fun s' => inv s' /\ shrunk s s') False s3) as Hgo.
    { intros s3 Hs3. eapply wp_mono; [apply (IH (acc ++ split) s3)| | |done]; [by eapply same_inv| |done| |].
      - pose proof (listed_kept s s2 r (rs ++ acc) Hkeep Hl) as Hk.
        unfold listed. rewrite (same_elems _ _ Hs3). fold (listed s2 (rs ++ acc ++ split)).
        rewrite app_assoc. apply listed_app. split; [done|]. split; [done|].
        by apply (inside_apart s r).
      - intros new s' (? & ? & Hc). split; [done|]. split; [done|].
        apply (cleared_cons r rs range s s3); [by destruct Hs3 as [E _]; unfold total in *; rewrite E| |done].
        intros a. rewrite (same_view _ _ a Hs3). split; [apply Hc1|apply Hc2].
      - intros s' [? Hsh]. split; [done|]. apply (shrunk_trans s s3); [|done].
        apply (shrunk_trans s s2); [by eapply cut_shrunk|by apply same_shrunk]. }
    destruct (2 <? len (acc ++ split)); [|by apply wp_ret, Hgo].
    apply alloc_ok; [done|]. intros s3 Hs3. split; [by eapply same_inv|].
    apply (shrunk_trans s s2); [by eapply cut_shrunk|by apply same_shrunk].
Qed.

(** ** Finding the regions that intersect a range *)

(** The regions of [l] lie one behind the other. *)
Definition in_order (l : list (Z * Region)) : Prop :=
  ordered l /\ (forall k r, (k, r) ∈ l -> k = vaddr r /\ region_ok r) /\
  (forall k r k' r', (k, r) ∈ l -> (k', r') ∈ l -> k <> k' ->
     VirtualRange.disjoint (m_range r) (m_range r')).

Lemma in_order_cons k r l : in_order ((k, r) :: l) ->
  k = vaddr r /\ region_ok r /\ in_order l /\
  forall k' r', (k', r') ∈ l -> vaddr r + size r <= vaddr r'.
Proof.
  intros (Ho & Hr & Hd). apply StronglySorted_inv in Ho as [Ho Hk]. rewrite List.Forall_forall in Hk.
  destruct (Hr k r ltac:(by left)) as [-> Hok]. split; [done|]. split; [done|]. split.
  - split; [done|]. split; [intros; apply Hr; by right|]. intros ? ? ? ? ? ?. apply Hd; by right.
  - intros k' r' Hin. destruct (Hr k' r' ltac:(by right)) as [-> Hok'].
    assert (vaddr r < vaddr r') as Hlt by (apply (Hk (vaddr r', r')); by apply list_elem_of_In).
    pose proof (ok_size _ Hok').
    destruct (Hd _ _ _ _ ltac:(by left) ltac:(by right; exact Hin) ltac:(lia)) as [?|?];
      unfold vaddr, size in *; lia.
Qed.

Lemma meets_spec r range :
  region_ok r -> VirtualRange.wf range -> 0 < VirtualRange.m_size range ->
  (vaddr r <? VirtualRange.end_ range) && (VirtualRange.m_base range <? region_end r) = true <->
  ~ VirtualRange.disjoint (m_range r) range.
Proof.
  intros Hr Hwf Hs. pose proof (ok_size _ Hr). unfold region_end, size in *.
  rewrite !VirtualRange.end_ok by (done || apply Hr).
  rewrite andb_true_iff, !Z.ltb_lt. unfold VirtualRange.disjoint, vaddr. lia.
Qed.

(** What is collected are regions of the list that intersect the range, each once. *)
Definition collected (l : list (Z * Region)) (range : VirtualRange.t) (rs : list Region) : Prop :=
  StronglySorted (fun r q => vaddr r + size r <= vaddr q) rs /\
  forall r, r ∈ rs -> (vaddr r, r) ∈ l /\ ~ VirtualRange.disjoint (m_range r) range.

Lemma collect_ok range l tot acc s :
  inv s -> VirtualRange.wf range -> 0 < VirtualRange.m_size range -> in_order l ->
  wp (collect_intersecting env range l tot acc)
     (fun rs s' => same s s' /\ exists rs', rs = acc ++ rs' /\ collected l range rs') (same s) False s.
Proof.
  intros H Hwf Hs. revert tot acc s H. induction l as [|[k r] l IH]; intros tot acc s H Ho.
  { apply wp_ret. split; [done|]. exists []. rewrite app_nil_r. split; [done|]. split; [constructor|set_solver]. }
  destruct (in_order_cons k r l Ho) as (-> & Hok & Hol & Hbeyond). cbn [collect_intersecting].
  pose proof (meets_spec r range Hok Hwf Hs) as Hm.
  destruct (_ && _) eqn:E.
  2: { eapply wp_mono; [by apply (IH tot acc s)| |done|done]. intros rs s' (? & rs' & -> & ? & Hc).
       split; [done|]. exists rs'. split; [done|]. split; [done|]. intros q Hq. destruct (Hc q Hq).
       split; [by right|done]. }
  pose proof (proj1 Hm eq_refl) as Hd. apply wp_bind.
  assert (forall s1, same s s1 -> wp (let* common := lift (VirtualRange.intersect (m_range r) range) in
    let total := u64 (tot + u64 (size r - VirtualRange.m_size common)) in
    if total =? VirtualRange.m_size range then ret (acc ++ [r])
    else collect_intersecting env range l total (acc ++ [r]))
    (fun rs s' => same s s' /\ exists rs', rs = acc ++ rs' /\ collected ((vaddr r, r) :: l) range rs')
    (same s) False s1) as Hgo.
  { intros s1 Hs1. apply wp_bind. unfold wp at 1. simpl.
    rewrite (intersect_exact _ _ (ok_wf _ Hok) Hwf (ok_size _ Hok) Hs Hd).
    destruct (_ =? _).
    - apply wp_ret. split; [done|]. exists [r]. split; [done|]. split; [repeat constructor|].
      intros q ->%list_elem_of_singleton. split; [by left|done].
    - eapply wp_mono; [apply (IH _ (acc ++ [r]) s1); [by eapply same_inv|done]| |by intros s' ?; eapply same_trans|done].
      intros rs s' (? & rs' & -> & Hnd & Hc). split; [by eapply same_trans|]. exists (r :: rs').
      rewrite <- app_assoc. split; [done|]. split.
      + constructor; [done|]. apply List.Forall_forall. intros q Hq. apply list_elem_of_In in Hq.
        destruct (Hc q Hq) as [Hin _]. apply (Hbeyond _ _ Hin).
      + intros q [->|Hq]%elem_of_cons; [split; [by left|done]|]. destruct (Hc q Hq). split; [by right|done]. }
  destruct (4 <=? len acc); [|by apply wp_ret, Hgo]. by apply alloc_ok.
Qed.

Lemma collect_none range l tot acc s :
  VirtualRange.wf range -> 0 < VirtualRange.m_size range -> in_order l ->
  (forall k r, (k, r) ∈ l -> VirtualRange.disjoint (m_range r) range) ->
  collect_intersecting env range l tot acc s = (s, Ok acc).
Proof.
  intros Hwf Hs. induction l as [|[k r] l IH]; intros Ho Hd; [done|].
  destruct (in_order_cons k r l Ho) as (-> & Hok & Hol & _). cbn [collect_intersecting].
  pose proof (meets_spec r range Hok Hwf Hs) as Hm. destruct (_ && _).
  - destruct (proj1 Hm eq_refl). by eapply Hd; left.
  - apply IH; [done|]. intros. eapply Hd. by right.
Qed.

(** Beyond the first region nothing that intersects the range is missed, as long
    as the size collected so far is not the size of the range. *)
Lemma collect_complete range l tot acc s :
  VirtualRange.wf range -> 0 < VirtualRange.m_size range -> in_order l -> fits 64 tot ->
  tot <> VirtualRange.m_size range ->
  (forall k r, (k, r) ∈ l -> VirtualRange.m_base range < vaddr r) ->
  wp (collect_intersecting env range l tot acc)
     (fun rs _ => (forall r, r ∈ acc -> r ∈ rs) /\
        forall k r, (k, r) ∈ l -> ~ VirtualRange.disjoint (m_range r) range -> r ∈ rs)
     (fun _ => True) False s.
Proof.
  intros Hwf Hs Ho Ht Htot. revert acc s Ho. induction l as [|[k r] l IH]; intros acc s Ho Hb.
  { apply wp_ret. split; [done|]. by intros k r ?%not_elem_of_nil. }
  destruct (in_order_cons k r l Ho) as (-> & Hok & Hol & Hbeyond). cbn [collect_intersecting].
  assert (VirtualRange.m_base range < vaddr r) as Hbr by (eapply Hb; by left).
  pose proof (meets_spec r range Hok Hwf Hs) as Hm. destruct (_ && _) eqn:E.
  2: { eapply wp_mono; [apply (IH acc s Hol); intros; eapply Hb; by right| |done|done].
       intros rs s' [? Hl]. split; [done|]. intros k q [[= -> ->]|Hq]%elem_of_cons Hd; [|by eapply Hl].
       by apply Hm in Hd. }
  pose proof (proj1 Hm eq_refl) as Hd. pose proof (ok_wf _ Hok) as (? & ? & ?). apply wp_bind.
  assert (forall s1, wp (let* common := lift (VirtualRange.intersect (m_range r) range) in
    let total := u64 (tot + u64 (size r - VirtualRange.m_size common)) in
    if total =? VirtualRange.m_size range then ret (acc ++ [r])
    else collect_intersecting env range l total (acc ++ [r]))
    (fun rs _ => (forall q, q ∈ acc ++ [r] -> q ∈ rs) /\
       forall k q, (k, q) ∈ l -> ~ VirtualRange.disjoint (m_range q) range -> q ∈ rs)
    (fun _ => True) False s1) as Hgo.
  { intros s1. apply wp_bind. unfold wp at 1. simpl.
    rewrite (intersect_exact _ _ (ok_wf _ Hok) Hwf (ok_size _ Hok) Hs Hd). cbn [VirtualRange.m_size].
    unfold VirtualRange.disjoint, vaddr, size in *.
    destruct (Z.le_gt_cases (VirtualRange.m_base (m_range r) + VirtualRange.m_size (m_range r))
      (VirtualRange.m_base range + VirtualRange.m_size range)) as [Hin|Hover].
    - match goal with |- context [u64 (VirtualRange.m_size (m_range r) - ?x)] =>
        replace (u64 (VirtualRange.m_size (m_range r) - x)) with 0
          by (replace (VirtualRange.m_size (m_range r) - x) with 0 by lia; done) end.
      rewrite Z.add_0_r. unfold u64. rewrite wrap_small by done.
      rewrite (proj2 (Z.eqb_neq _ _) Htot). apply (IH (acc ++ [r]) s1 Hol). intros; eapply Hb; by right.
    - assert (forall k q, (k, q) ∈ l -> VirtualRange.disjoint (m_range q) range) as Hrest.
      { intros k q Hq. right. pose proof (Hbeyond k q Hq). lia. }
      assert (forall k q, (k, q) ∈ l -> ~ VirtualRange.disjoint (m_range q) range -> q ∈ acc ++ [r]) as Hno
        by (intros k q Hq []; by eapply Hrest).
      destruct (_ =? _); [by apply wp_ret|]. unfold wp. by rewrite (collect_none range l _ _ s1 Hwf Hs Hol Hrest). }
  eapply (wp_mono _ (fun _ _ => True) _ (fun _ => True) _ False); [|intros [] s1 _|done|done].
  - destruct (4 <=? len acc); [|done]. unfold wp, alloc. by destruct (memory_available _ _).
  - eapply wp_mono; [apply Hgo| |done|done]. intros rs s' [Ha Hl]. split; [intros; apply Ha; set_solver|].
    intros k q [[= -> ->]|Hq]%elem_of_cons Hdq; [apply Ha; set_solver|by eapply Hl].
Qed.

(** ** The regions from the one that starts last before the range *)

Lemma begin_from_in_order s k : inv s -> in_order (begin_from k (elems s)).
Proof.
  intros H. assert (forall e, e ∈ begin_from k (elems s) -> e ∈ elems s) as Hsub.
  { intros e [_ ?]%list_elem_of_filter. done. }
  split; [|split].
  - pose proof (RegionTree.t_ordered _ (s_tree s H)) as Ho. fold (elems s) in Ho. clear Hsub.
    unfold begin_from. induction Ho as [|e l Ho IH Hf]; [constructor|].
    rewrite filter_cons. destruct (decide _); [|done]. constructor; [done|].
    rewrite List.Forall_forall in *. intros x [_ ?]%list_elem_of_In%list_elem_of_filter.
    apply Hf. by apply list_elem_of_In.
  - intros k' r Hin. apply Hsub in Hin. split; [by eapply key_vaddr|by eapply s_regions].
  - intros ? ? ? ? Hr Hr'. by eapply regions_apart; [|apply Hsub..].
Qed.

(** Every region that intersects a range starts at or after the region found. *)
Lemma begin_from_shape s range found :
  inv s -> find_largest_not_above (RegionTree.m_regions (m_region_tree s)) (VirtualRange.m_base range) = Some found ->
  exists l, begin_from (vaddr found) (elems s) = (vaddr found, found) :: l /\
    (vaddr found, found) ∈ elems s /\ vaddr found <= VirtualRange.m_base range /\
    (forall k r, (k, r) ∈ l -> VirtualRange.m_base range < vaddr r) /\
    forall k r, (k, r) ∈ elems s -> 0 < VirtualRange.m_size range ->
      ~ VirtualRange.disjoint (m_range r) range -> r = found \/ (k, r) ∈ l.
Proof.
  intros H E. destruct (largest_some _ _ _ (RegionTree.t_ordered _ (s_tree s H)) E) as (k & Hin & Hle & Hmax).
  pose proof (key_vaddr s k found H Hin) as ->. fold (elems s) in Hmax.
  pose proof (begin_from_in_order s (vaddr found) H) as Ho.
  assert ((vaddr found, found) ∈ begin_from (vaddr found) (elems s)) as Hf.
  { apply list_elem_of_filter. simpl. split; [lia|done]. }
  assert (forall k r, (k, r) ∈ begin_from (vaddr found) (elems s) -> (k, r) ∈ elems s /\ vaddr found <= k) as Hsub.
  { intros k r [? ?]%list_elem_of_filter. done. }
  assert (forall k r, (k, r) ∈ elems s -> vaddr found <= k -> (k, r) ∈ begin_from (vaddr found) (elems s)) as Hsup.
  { intros k r ? ?. apply list_elem_of_filter. done. }
  destruct (begin_from (vaddr found) (elems s)) as [|[k0 r0] l]; [by apply not_elem_of_nil in Hf|].
  destruct (in_order_cons k0 r0 l Ho) as (-> & Hok & Hol & Hbeyond). pose proof (ok_size _ Hok).
  assert (r0 = found) as ->.
  { apply elem_of_cons in Hf as [[= _ ->]|Hf]; [done|]. pose proof (Hbeyond _ _ Hf).
    destruct (Hsub (vaddr r0) r0 ltac:(by left)). lia. }
  exists l. split; [done|]. split; [done|]. split; [done|].
  assert (forall k r, (k, r) ∈ l -> VirtualRange.m_base range < vaddr r) as Hl.
  { intros k r Hr. destruct (Hsub k r ltac:(by right)) as [Hr' _]. pose proof (key_vaddr s k r H Hr') as ->.
    destruct (Z.le_gt_cases (vaddr r) (VirtualRange.m_base range)) as [Hc|]; [|done].
    pose proof (Hmax _ _ Hr' Hc). pose proof (Hbeyond _ _ Hr). lia. }
  split; [done|]. intros k r Hr Hs Hd. pose proof (key_vaddr s k r H Hr) as ->.
  destruct (Z.le_gt_cases (vaddr found) (vaddr r)) as [Hc|Hc].
  - apply Hsup in Hr; [|done]. apply elem_of_cons in Hr as [[= _ ->]|?]; [by left|by right].
  - exfalso. apply Hd. left. destruct (regions_apart s _ _ _ _ H Hr Hin ltac:(lia)) as [?|?].
    + unfold vaddr in *. lia.
    + pose proof (ok_size _ (s_regions s H _ _ Hin)). unfold vaddr, size in *. lia.
Qed.

(** ** [unmap_mmap_range] *)

Lemma find_region_from_range_ok s range r :
  inv s -> VirtualRange.wf range -> VirtualRange.page_aligned range ->
  find_region_from_range s range = Some r -> (vaddr r, r) ∈ elems s /\ m_range r = range.
Proof.
  intros H Hwf Hal. unfold find_region_from_range. destruct (tree_find _ _) as [q|] eqn:E; [|done].
  apply (find_iff _ _ _ (RegionTree.t_ordered _ (s_tree s H))) in E. pose proof (key_vaddr s _ _ H E) as Ek.
  destruct Hwf as (? & ? & ?), Hal as [Ha Ha'].
  destruct (VirtualRange.page_round_up_ok (VirtualRange.m_size range) ltac:(lia)) as [[_ ->]|[? ->]]; [|done].
  replace ((_ + PAGE_SIZE - 1) / PAGE_SIZE * PAGE_SIZE) with (VirtualRange.m_size range)
    by (unfold PAGE_SIZE in *; zdiv).
  destruct (Z.eqb_spec (size q) (VirtualRange.m_size range)) as [Es|]; [|done]. simpl. intros [= ->].
  split; [by rewrite <- Ek|]. unfold vaddr, size in *. destruct (m_range r), range; simpl in *. congruence.
Qed.

(** The search for intersecting regions starts at a region, and the first one
    does not stick out of the range by exactly the size of the range. *)
Definition search_starts (s : t T) (range : VirtualRange.t) : Prop :=
  (exists k r, (k, r) ∈ elems s /\ k <= VirtualRange.m_base range) /\
  (forall k r, (k, r) ∈ elems s -> VirtualRange.within (m_range r) (VirtualRange.m_base range) ->
     VirtualRange.m_base range - vaddr r <> VirtualRange.m_size range).

(** What unmapping leaves behind. *)
Definition unmapped (range : VirtualRange.t) (s s' : t T) : Prop :=
  total s' = total s /\
  (forall a, ~ VirtualRange.within range a -> view s' a = view s a) /\
  (forall a, VirtualRange.within range a -> view s' a = None \/ view s' a = view s a) /\
  ((exists k r, (k, r) ∈ elems s /\ VirtualRange.m_base (m_range r) <= VirtualRange.m_base range /\
      VirtualRange.m_base range + VirtualRange.m_size range <=
        VirtualRange.m_base (m_range r) + VirtualRange.m_size (m_range r)) \/ search_starts s range ->
   forall a, VirtualRange.within range a -> view s' a = None).

Lemma sorted_keys_NoDup rs :
  (forall r, r ∈ rs -> 0 < size r) -> StronglySorted (fun r q => vaddr r + size r <= vaddr q) rs ->
  NoDup (map vaddr rs).
Proof.
  intros Hp Hs. induction Hs as [|r rs Hs IH Hf]; [constructor|]. cbn [map]. apply NoDup_cons.
  split; [|apply IH; intros; apply Hp; by right].
  intros (q & E & Hq)%list_elem_of_In%in_map_iff. rewrite List.Forall_forall in Hf.
  pose proof (Hf q Hq). assert (0 < size r) by (apply Hp; by left). lia.
Qed.

Lemma find_regions_ok s range :
  inv s -> VirtualRange.wf range -> 0 < VirtualRange.m_size range ->
  find_region_containing s range = None ->
  wp (find_regions_intersecting env range)
     (fun rs s' => same s s' /\ listed s rs /\ StronglySorted (fun r q => vaddr r + size r <= vaddr q) rs /\
        Forall (fun r => ~ VirtualRange.disjoint (m_range r) range) rs /\
        (search_starts s range -> forall k r, (k, r) ∈ elems s ->
           ~ VirtualRange.disjoint (m_range r) range -> r ∈ rs)) (same s) False s.
Proof.
  intros H Hwf Hs Hnc. unfold find_regions_intersecting, wp.
  destruct (find_largest_not_above _ _) as [found|] eqn:E.
  2: { split; [done|]. split; [split; [constructor|set_solver]|]. split; [constructor|]. split; [constructor|].
       intros [(k & r & Hr & Hk) _]. pose proof (largest_none _ _ (RegionTree.t_ordered _ (s_tree s H)) E k r Hr).
       lia. }
  destruct (begin_from_shape s range found H E) as (l & El & Hin & Hle & Hl & Hcov).
  fold (elems s). pose proof (begin_from_in_order s (vaddr found) H) as Ho.
  pose proof (collect_ok range _ 0 [] s H Hwf Hs Ho) as Hc.
  assert (search_starts s range -> wp (collect_intersecting env range (begin_from (vaddr found) (elems s)) 0 [])
    (fun rs _ => forall k r, (k, r) ∈ elems s -> ~ VirtualRange.disjoint (m_range r) range -> r ∈ rs)
    (fun _ => True) False s) as Hcomp.
  { intros [_ Hd0]. rewrite El in Ho |- *. destruct (in_order_cons _ _ _ Ho) as (_ & Hok & Hol & _).
    cbn [collect_intersecting]. pose proof (meets_spec found range Hok Hwf Hs) as Hm.
    pose proof (ok_wf _ Hok) as (? & ? & ?). pose proof Hwf as (? & ? & ?).
    destruct (_ && _).
    - pose proof (proj1 Hm eq_refl) as Hd. apply wp_bind, wp_ret, wp_bind. unfold wp at 1. simpl.
      rewrite (intersect_exact _ _ (ok_wf _ Hok) Hwf (ok_size _ Hok) Hs Hd). cbn [VirtualRange.m_size].
      assert (VirtualRange.m_base (m_range found) + VirtualRange.m_size (m_range found) <
        VirtualRange.m_base range + VirtualRange.m_size range) as Hend.
      { apply Z.nle_gt. intros Hcon. assert (find_region_containing s range = Some found) as E'; [|congruence].
        apply RegionTree.lookup_range_ok; [apply H|done|done|]. exists (vaddr found). done. }
      unfold VirtualRange.disjoint, vaddr, size in *.
      match goal with |- context [u64 (0 + u64 ?x)] => replace (u64 (0 + u64 x)) with
        (VirtualRange.m_base range - VirtualRange.m_base (m_range found)) end.
      2: { unfold u64. simpl. rewrite (wrap_small 64 (_ - _)) by (unfold fits; lia).
           rewrite wrap_small by (unfold fits; lia). lia. }
      assert (VirtualRange.m_base range - VirtualRange.m_base (m_range found) <> VirtualRange.m_size range) as Hne
        by (apply (Hd0 _ found Hin); unfold VirtualRange.within; lia).
      rewrite (proj2 (Z.eqb_neq _ _) Hne).
      eapply wp_mono; [apply (collect_complete range l); try done; unfold fits; lia| |done|done].
      intros rs s' [Ha Hrest] k r Hr Hrd. destruct (Hcov k r Hr Hs Hrd) as [->|?]; [|by eapply Hrest].
      apply Ha. set_solver.
    - eapply wp_mono; [apply (collect_complete range l); try done; unfold fits; lia| |done|done].
      intros rs s' [_ Hrest] k r Hr Hrd. destruct (Hcov k r Hr Hs Hrd) as [->|?]; [|by eapply Hrest].
      by apply Hm in Hrd. }
  unfold wp in Hc, Hcomp. destruct (collect_intersecting _ _ _ _ _ s) as [s' []]; try done.
  destruct Hc as (? & rs' & -> & Hnd & Hcol). split; [done|]. simpl in *.
  assert (forall r, r ∈ rs' -> (vaddr r, r) ∈ elems s) as Hel.
  { intros r Hr. by destruct (Hcol r Hr) as [[_ ?]%list_elem_of_filter _]. }
  split; [|split; [done|split; [|done]]].
  - split; [|done]. apply (sorted_keys_NoDup rs'); [|done]. intros r Hr.
    apply (ok_size _ (s_regions s H _ _ (Hel r Hr))).
  - apply Forall_forall. intros r Hr. by apply Hcol.
Qed.

Lemma cleared_unmapped s s' range rs :
  inv s -> listed s rs -> VirtualRange.wf range -> 0 < VirtualRange.m_size range ->
  find_region_containing s range = None ->
  (search_starts s range -> forall k r, (k, r) ∈ elems s ->
     ~ VirtualRange.disjoint (m_range r) range -> r ∈ rs) ->
  cleared rs range s s' -> unmapped range s s'.
Proof.
  intros H Hl Hwf Hs Hnc Hcov [Ht Hv]. split; [done|]. split; [|split].
  - intros a Hn. apply Hv. by intros [].
  - intros a Hw. destruct (in_regions_dec rs a); [left; by apply Hv|right]. apply Hv. by intros [].
  - intros Hor a Hw. destruct Hor as [(k & r & Hr & Hlo & Hhi)|Hst].
    { assert (find_region_containing s range = Some r) as E'; [|congruence].
      apply RegionTree.lookup_range_ok; [apply H|done|done|]. by exists k. }
    destruct (in_regions_dec rs a) as [?|Hn]; [by apply Hv|].
    rewrite (proj2 (Hv a)) by (by intros []). apply view_out; [done|]. intros k r Hr Hrw. apply Hn.
    apply Exists_exists. exists r. split; [|done]. apply (Hcov Hst k r Hr).
    unfold VirtualRange.disjoint, VirtualRange.within in *. lia.
Qed.

Lemma check_ok r (s : t T) (Q : unit -> t T -> Prop) (E : t T -> Prop) C :
  (m_mmap r = true -> m_immutable r = false -> Q tt s) -> E s -> wp (lift (check_mutable r)) Q E C s.
Proof.
  intros HQ HE. unfold wp, lift, check_mutable. destruct (m_mmap r); [|done]. simpl.
  by destruct (m_immutable r); [|apply HQ].
Qed.

Lemma check_all_ok rs (s : t T) (Q : unit -> t T -> Prop) (E : t T -> Prop) C :
  Q tt s -> E s -> wp (lift (check_all_mutable rs)) Q E C s.
Proof.
  intros HQ HE. unfold wp, lift. induction rs as [|r rs IH]; [done|]. simpl. unfold check_mutable.
  destruct (m_mmap r); [|done]. simpl. by destruct (m_immutable r).
Qed.

(** Cutting a range out of the region that contains it. *)
Lemma cut_unmapped s s' r range :
  inv s -> (vaddr r, r) ∈ elems s -> cut s r range s' ->
  VirtualRange.m_base (m_range r) <= VirtualRange.m_base range ->
  VirtualRange.m_base range + VirtualRange.m_size range <=
    VirtualRange.m_base (m_range r) + VirtualRange.m_size (m_range r) ->
  unmapped range s s'.
Proof.
  intros H Hin (Ht & Hc1 & Hc2 & _) Hlo Hhi. split; [done|]. split; [|split].
  - intros a Hn. apply Hc2. by intros [].
  - intros a Hw. left. apply Hc1. split; [|done]. unfold VirtualRange.within in *. lia.
  - intros _ a Hw. apply Hc1. split; [|done]. unfold VirtualRange.within in *. lia.
Qed.

Lemma unmapped_view range s s1 s2 :
  total s2 = total s1 -> (forall a, view s2 a = view s1 a) -> unmapped range s s1 -> unmapped range s s2.
Proof.
  intros Ht Hv (? & H1 & H2 & H3). split; [congruence|].
  split; [|split]; intros; rewrite Hv; auto.
Qed.

(** A region that contains the range and is not found by it is larger. *)
Lemma not_whole s range old :
  inv s -> VirtualRange.wf range -> VirtualRange.page_aligned range -> 0 < VirtualRange.m_size range ->
  (vaddr old, old) ∈ elems s -> find_region_from_range s range = None ->
  VirtualRange.m_base (m_range old) <= VirtualRange.m_base range ->
  VirtualRange.m_base range + VirtualRange.m_size range <=
    VirtualRange.m_base (m_range old) + VirtualRange.m_size (m_range old) ->
  exists a, VirtualRange.within (m_range old) a /\ ~ VirtualRange.within range a.
Proof.
  intros H (? & ? & ?) [Ha1 Ha2] Hs Hin Ew Hlo Hhi.
  destruct (Z.lt_ge_cases (VirtualRange.m_base (m_range old)) (VirtualRange.m_base range)).
  { exists (VirtualRange.m_base (m_range old)). unfold VirtualRange.within. lia. }
  exists (VirtualRange.m_base range + VirtualRange.m_size range). unfold VirtualRange.within.
  split; [|lia]. split; [lia|]. apply Z.nle_gt. intros Hle.
  assert (m_range old = range) as Er by (destruct (m_range old), range; simpl in *; f_equal; lia).
  unfold find_region_from_range in Ew.
  rewrite (proj2 (find_iff _ _ old (RegionTree.t_ordered _ (s_tree s H)))) in Ew by (rewrite <- Er; exact Hin).
  destruct (VirtualRange.page_round_up_ok (VirtualRange.m_size range) ltac:(lia)) as [[_ E]|[? E]];
    rewrite E in Ew; [|unfold PAGE_SIZE in *; zdiv].
  unfold size in Ew. rewrite Er in Ew.
  by rewrite (proj2 (Z.eqb_eq _ _)) in Ew by (unfold PAGE_SIZE in *; zdiv).
Qed.

Lemma unmap_mmap_range_ok addr sz s :
  inv s -> fits 64 addr -> fits 64 sz ->
  wp (unmap_mmap_range env addr sz)
     (fun _ s' => inv s' /\ exists range, VirtualRange.expand_to_page_boundaries addr sz = Ok range /\
        unmapped range s s') (fun s' => inv s' /\ shrunk s s') False s.
Proof.
  intros H Ha Hz. assert (inv s /\ shrunk s s) as Hid by (split; [done|by right]).
  unfold unmap_mmap_range. destruct (Z.eqb_spec sz 0) as [|Hsz]; [done|].
  apply wp_bind. unfold wp at 1. simpl.
  destruct (VirtualRange.expand_ok addr sz Ha Hz) as [(range & -> & Hwf & Hal & Hb & He)|[-> _]]; [|done].
  destruct (negb (is_user_range env range)); [done|].
  assert (0 < VirtualRange.m_size range) as Hs by (destruct Ha, Hz; lia).
  apply (wp_mono _ (fun _ s' => inv s' /\ unmapped range s s') _ (fun s' => inv s' /\ shrunk s s') _ False);
    [|intros ? ? [? ?]; eauto|done|done].
  apply wp_bind. unfold wp at 1. simpl. destruct (find_region_from_range s range) as [whole|] eqn:Ew.
  { destruct (find_region_from_range_ok s range whole H Hwf Hal Ew) as [Hin Er].
    apply wp_bind, check_ok; [|done]. intros _ _.
    eapply wp_mono; [by apply deallocate_region_ok| |exact (fun _ x => x)|exact (fun x => x)].
    intros [] s' [H' Hr]. split; [done|]. destruct Hr as [Ht Hel] eqn:?.
    assert (forall a, (VirtualRange.within range a -> view s' a = None) /\
      (~ VirtualRange.within range a -> view s' a = view s a)) as Hv.
    { intros a. rewrite <- Er. by apply removed_view_in. }
    split; [done|]. split; [apply Hv|]. split; [intros a ?; left; by apply Hv|]. intros _ a. apply Hv. }
  apply wp_bind. unfold wp at 1. simpl. destruct (find_region_containing s range) as [old|] eqn:Ec.
  - pose proof Ec as (k & Hin & Hlo & Hhi)%RegionTree.lookup_range_ok; [|apply H|done|done].
    pose proof (key_vaddr s _ _ H Hin) as ->. apply wp_bind, check_ok; [|done]. intros _ _.
    apply wp_bind. eapply wp_mono; [by apply take_and_unmap_ok| |exact (fun _ x => x)|exact (fun x => x)].
    intros [] s1 [H1 Hr]. apply wp_bind. eapply wp_mono; [apply (split_ok s s1)| |done|done]; try done.
    { unfold VirtualRange.disjoint. lia. }
    { by apply (not_whole s). }
    intros rs s2 (H2 & Hcut & Hl & _). pose proof (cut_unmapped s s2 old range H Hin Hcut Hlo Hhi) as Hu.
    assert (forall s', inv s' /\ total s' = total s2 /\ (forall a, view s' a = view s2 a) -> inv s' /\ shrunk s s')
      as Herr. { intros s' (? & _ & Hv). split; [done|]. intros a. rewrite Hv. by apply (cut_shrunk s old range). }
    eapply wp_mono; [by apply map_all_ok| |done|done].
    intros [] s' (H' & Ht & Hv & _). split; [done|]. by apply (unmapped_view range s s2).
  - apply wp_bind. eapply wp_mono; [by apply find_regions_ok| | |done].
    2: { intros s' Hs'. split; [by eapply same_inv|by apply same_shrunk]. }
    intros rs s1 (Hs1 & Hl & _ & Hd & Hcov). pose proof (same_inv _ _ Hs1 H) as H1.
    assert (forall rs' s', cleared rs' range s1 s' -> cleared rs' range s s') as Hcl.
    { intros rs' s' [Ht Hv]. split; [rewrite Ht; unfold total; by destruct Hs1 as [-> _]|].
      intros a. rewrite <- (same_view _ _ a Hs1). apply Hv. }
    destruct rs as [|r0 rs0].
    { apply wp_ret. split; [done|]. apply (cleared_unmapped s s1 range []); try done. apply Hcl.
      split; [done|]. intros a. split; [|done]. by intros [?%Exists_nil _]. }
    set (rs := r0 :: rs0) in *.
    assert (forall s', inv s' /\ shrunk s1 s' -> inv s' /\ shrunk s s') as Herr.
    { intros s' [? ?]. split; [done|]. apply (shrunk_trans s s1); [by apply same_shrunk|done]. }
    apply wp_bind, check_all_ok; [|by apply Herr; split; [|by right]]. apply wp_bind.
    eapply wp_mono; [apply unmap_regions_ok; try done| |exact Herr|done].
    { rewrite app_nil_r. unfold listed. by rewrite (same_elems _ _ Hs1). }
    intros new s2 (H2 & Hl2 & Hc).
    pose proof (cleared_unmapped s s2 range rs H Hl Hwf Hs Ec Hcov (Hcl _ _ Hc)) as Hu.
    eapply wp_mono; [by apply map_all_ok| | |done].
    + intros [] s' (H' & Ht & Hv & _). split; [done|]. by apply (unmapped_view range s s2).
    + intros s' (H' & Ht & Hv). split; [done|]. intros a. rewrite Hv. destruct Hu as (_ & Hu1 & Hu2 & _).
      destruct (within_dec range a); [by apply Hu2|right; by apply Hu1].
Qed.

(** ** Allocation *)

(** A request at a fixed address that wraps is refused. *)
Lemma specific_wraps tr base sz :
  RegionTree.inv (T := T) tr -> 0 < sz < 2 ^ 64 -> fits 64 base -> 2 ^ 64 <= base + sz ->
  base mod PAGE_SIZE = 0 -> sz mod PAGE_SIZE = 0 ->
  RegionTree.allocate_range_specific tr base sz = Err ENOMEM.
Proof.
  intros H Hs Hb Hw Ha Ha'. unfold RegionTree.allocate_range_specific.
  rewrite (proj2 (Z.eqb_neq sz 0)) by lia.
  rewrite (proj2 (VirtualRange.is_page_aligned_spec base Hb) Ha), Ha'. cbn [Z.eqb].
  unfold VirtualRange.contains, VirtualRange.contains_sized. cbn [VirtualRange.m_base VirtualRange.m_size].
  destruct Hb. unfold u64. rewrite wrap_over by (unfold fits; lia). by rewrite (proj2 (Z.ltb_lt _ _)) by lia.
Qed.

(** The range a request was given. *)
Definition granted (s : t T) (requested_address sz alignment : Z) (range : VirtualRange.t) : Prop :=
  RegionTree.available (m_region_tree s) range /\ VirtualRange.m_size range = sz /\
  VirtualRange.page_aligned range /\
  (requested_address <> 0 -> VirtualRange.m_base range = requested_address) /\
  (requested_address = 0 -> RegionTree.aligned_to alignment (VirtualRange.m_base range)).

Lemma place_requested_ok rnd randomize requested_address sz alignment r s :
  inv s -> fits 64 requested_address -> requested_address mod PAGE_SIZE = 0 ->
  fits 64 sz -> sz mod PAGE_SIZE = 0 -> 0 < alignment < 2 ^ 64 -> alignment mod PAGE_SIZE = 0 ->
  attrs_ok r ->
  wp (place_requested rnd randomize requested_address sz alignment r)
     (fun r' s' => inv s' /\ exists range, r' = set_range r range /\
        granted s requested_address sz alignment range /\ inserted s r' s') (same s) False s.
Proof.
  intros H Hra Hram Hsz Hszm Hal Halm Hsh. unfold place_requested.
  destruct (Z.eq_dec sz 0) as [->|Hnz].
  { unfold wp, place, RegionTree.place_anywhere, RegionTree.place_specifically,
      RegionTree.allocate_range_anywhere, RegionTree.allocate_range_randomized,
      RegionTree.allocate_range_specific. by destruct (_ =? 0), randomize. }
  assert (0 < sz < 2 ^ 64) as Hs by (destruct Hsz; lia).
  assert (forall range, RegionTree.available (m_region_tree s) range -> VirtualRange.page_aligned range ->
    let s' := set_tree s (fst (RegionTree.insert_region (m_region_tree s) r range)) in
    inv s' /\ inserted s (set_range r range) s') as Hins by (intros; by apply insert_inv).
  destruct (Z.eqb_spec requested_address 0) as [Hz|Hz].
  - destruct (RegionTree.place_anywhere_ok rnd (m_region_tree s) r randomize sz alignment (s_tree s H))
      as [(range & Hav & Es & Ha & E)|(e & E & _)]; [done| |].
    + unfold wp, place. rewrite E. cbn. assert (VirtualRange.page_aligned range) as Hpa
        by (split; [apply Ha|by rewrite Es]).
      destruct (Hins range Hav Hpa). split; [done|]. exists range. split; [done|]. split; [|done].
      split; [done|]. split; [done|]. split; [done|]. split; [done|]. done.
    + unfold wp, place. rewrite E. done.
  - destruct (Z.lt_ge_cases (requested_address + sz) (2 ^ 64)) as [Hlt|Hge].
    + destruct (RegionTree.specific_ok (m_region_tree s) requested_address sz (s_tree s H)) as [[E Hav]|[E _]];
        [lia|destruct Hra; unfold VirtualRange.wf; simpl; lia|done| |];
        unfold wp, place, RegionTree.place_specifically; simpl; rewrite E; [|done]. cbn [bind].
      destruct (Hins _ Hav ltac:(done)). split; [done|]. eexists. split; [done|]. split; [|done].
      split; [done|]. split; [done|]. split; [done|]. split; [done|]. intros; done.
    + unfold wp, place, RegionTree.place_specifically. simpl.
      by rewrite (specific_wraps _ _ _ (s_tree s H) Hs Hra Hge Hram Hszm).
Qed.

(** Giving a freshly placed region its page directory changes nothing else. *)
Lemma attach_ok s r :
  inv s -> (vaddr r, r) ∈ elems s -> m_page_directory r = false ->
  mapped_in r s (write_region (set_directory r true) s).
Proof.
  intros H Hin Hd.
  destruct (write_region_ok s r (set_directory r true) (s_tree s H) Hin eq_refl) as (Ht & Hrw & Hmm).
  split; [|done]. apply (rewrite_inv s r (set_directory r true)); try done.
  - destruct (s_regions s H _ _ Hin). by constructor.
  - intros p pte Hp Hl. rewrite Hmm in Hl. destruct (s_ptes s H p pte Hl) as (_ & k & q & Hq & Hqw & Hqd & _).
    destruct (region_of_address s _ _ _ _ p H Hq Hin Hqw (proj1 Hp)) as [_ ->]. congruence.
  - intros p _. by rewrite Hmm.
Qed.

Lemma undo_placement_ok s r :
  inv s -> (vaddr r, r) ∈ elems s -> inv (undo_placement r s) /\ removed s r (undo_placement r s).
Proof.
  intros H Hin. pose proof (deallocate_region_ok r s (fun _ => False) False H Hin) as Hd.
  destruct (RegionTree.region_remove_ok _ _ _ (s_tree s H) Hin) as (tr' & E & _).
  unfold wp, deallocate_region, abind, take_region in Hd. unfold undo_placement. rewrite E in *. done.
Qed.

(** Memory after an allocation: the new region, and everything else as it was. *)
Definition allocated (r : Region) (s s' : t T) : Prop :=
  forall a, view s' a = (if within_dec (m_range r) a then Some (view_of r a) else view s a) /\
    (VirtualRange.within (m_range r) a -> view s a = None).

Definition unchanged (s s' : t T) : Prop := forall a, view s' a = view s a.

Lemma same_available s s' range :
  same s s' -> RegionTree.available (m_region_tree s') range -> RegionTree.available (m_region_tree s) range.
Proof. by intros [-> _]. Qed.

Lemma inserted_allocated s s1 s2 r :
  inv s -> same s s1 -> inv s2 -> RegionTree.available (m_region_tree s1) (m_range r) ->
  inserted s1 r s2 -> allocated r s s2.
Proof.
  intros H Hs H2 Hav Hi a. rewrite <- (same_view s s1 a Hs).
  apply inserted_view; [by eapply same_inv|done|done|done].
Qed.

(** Mapping the region that was just placed, with the guard that takes it out
    again on failure. *)
Lemma map_or_undo_ok s s1 s2 r :
  inv s -> same s s1 -> inv s2 -> RegionTree.available (m_region_tree s1) (m_range r) ->
  inserted s1 r s2 ->
  wp (fun s => match map_region env r s with
               | (s, Ok _) => (s, Ok (set_directory r true))
               | (s, Err e) => (undo_placement (set_directory r true) s, Err e)
               | (s, Panic) => (s, Panic)
               | (s, Undefined) => (s, Undefined)
               end)
     (fun r' s' => inv s' /\ r' = set_directory r true /\ allocated r s s' /\ (vaddr r', r') ∈ elems s')
     (fun s' => inv s' /\ unchanged s s') False s2.
Proof.
  intros H Hs H2 Hav Hins. assert ((vaddr r, r) ∈ elems s2) as Hin by (apply Hins; by left).
  pose proof (inserted_allocated s s1 s2 r H Hs H2 Hav Hins) as Hal.
  pose proof (map_region_ok r s2 H2 Hin) as Hm. unfold wp in *.
  destruct (map_region env r s2) as [s3 [[]|?| |]]; try done.
  - split; [apply Hm|]. split; [done|]. split; [intros a; by rewrite (mapped_view r s2 s3 a H2 Hin Hm)|].
    destruct Hm as [_ [_ He]]. apply He. by left.
  - pose proof Hm as [H3 [_ He3]].
    assert ((vaddr (set_directory r true), set_directory r true) ∈ elems s3) as Hin3 by (apply He3; by left).
    destruct (undo_placement_ok s3 _ H3 Hin3) as [H4 Hr4]. split; [done|]. intros a.
    destruct (removed_view_in s3 _ _ a H3 H4 Hin3 Hr4) as [Hv1 Hv2]. destruct (Hal a) as [Ha1 Ha2].
    destruct (within_dec (m_range r) a) as [Hw|Hn].
    + rewrite (Hv1 Hw). symmetry. by apply Ha2.
    + rewrite (Hv2 Hn), (mapped_view r s2 s3 a H2 Hin Hm). done.
Qed.

(** Sizes as [page_round_up] leaves them. *)
Lemma page_round_up_inv x y : 0 <= x -> VirtualRange.page_round_up x = Ok y ->
  fits 64 y /\ y mod PAGE_SIZE = 0 /\ x <= y < x + PAGE_SIZE.
Proof.
  intros Hx E. destruct (VirtualRange.page_round_up_ok x Hx) as [[Hle E']|[_ E']]; [|congruence].
  rewrite E in E'. injection E' as ->. unfold fits, PAGE_SIZE in *. zdiv.
Qed.

Lemma allocate_with_vmobject_ok rnd randomize addr sz alignment v offset name prot shared mt s :
  inv s -> fits 64 addr -> 0 <= sz -> 0 < alignment -> (is_shared_inode v = true -> shared = true) ->
  wp (allocate_region_with_vmobject env rnd randomize addr sz alignment v offset name prot shared mt)
     (fun r s' => inv s' /\ allocated r s s' /\ (vaddr r, r) ∈ elems s' /\ exists rounded range,
        VirtualRange.page_round_up sz = Ok rounded /\ VirtualRange.m_size range = rounded /\
        (addr <> 0 -> VirtualRange.m_base range = addr) /\
        r = set_directory (set_range (create_unplaced v (VirtualRange.page_base offset) name
              (prot_to_region_access_flags prot) mt shared) range) true)
     (fun s' => inv s' /\ unchanged s s') False s.
Proof.
  intros H Ha Hsz Hal Hsh. unfold allocate_region_with_vmobject.
  assert (inv s /\ unchanged s s) as Hid by done.
  destruct (VirtualRange.is_page_aligned addr) eqn:Ea; [|done]. cbn [negb].
  apply (VirtualRange.is_page_aligned_spec addr Ha) in Ea. apply wp_bind. unfold wp at 1. simpl.
  destruct (VirtualRange.page_round_up sz) as [rsz| | |] eqn:Esz; try done;
    [|by destruct (VirtualRange.page_round_up_ok sz Hsz) as [[_ ?]|[_ ?]]; congruence..].
  apply wp_bind. unfold wp at 1. simpl.
  destruct (VirtualRange.page_round_up alignment) as [ral| | |] eqn:Eal; try done;
    [|by destruct (VirtualRange.page_round_up_ok alignment ltac:(lia)) as [[_ ?]|[_ ?]]; congruence..].
  destruct (page_round_up_inv _ _ Hsz Esz) as (Hf1 & Hm1 & _).
  destruct (page_round_up_inv alignment ral ltac:(lia) Eal) as (Hf2 & Hm2 & Hr2).
  destruct (_ <=? _); [done|]. destruct (_ <=? _); [done|]. destruct (_ <? _); [done|].
  assert (forall s', same s s' -> inv s' /\ unchanged s s') as Hsame.
  { intros s' Hs'. split; [by eapply same_inv|]. intros a. by apply same_view. }
  apply wp_bind, copy_name_ok; [|done]. intros s0 Hs0. apply wp_bind, alloc_ok;
    [|intros s1 Hs1; apply Hsame, (same_trans _ _ _ Hs0 Hs1)].
  intros s1 Hs1'. pose proof (same_trans _ _ _ Hs0 Hs1') as Hs1. clear s0 Hs0 Hs1'.
  apply wp_bind. eapply wp_mono; [apply place_requested_ok; try done;
    [by eapply same_inv|destruct Hf2; lia|by split; [|apply prot_flags_range]]| |
    |done].
  2: { intros s2 Hs2. apply Hsame, (same_trans _ _ _ Hs1 Hs2). }
  intros r s2 (H2 & range & Er & (Hav & Hrs & Hpa & Hfix & _) & Hins).
  assert (m_range r = range) as Emr by (by rewrite Er). rewrite <- Emr in Hav.
  assert ((vaddr r, r) ∈ elems s2) as Hin by (apply Hins; by left).
  destruct (prot =? PROT_NONE).
  - apply wp_bind. unfold wp at 1, modify. apply wp_ret.
    pose proof (attach_ok s2 r H2 Hin ltac:(by rewrite Er)) as Hm. split; [apply Hm|]. split; [|split].
    + intros a. rewrite (mapped_view r s2 _ a H2 Hin Hm). by apply (inserted_allocated s s1 s2 r).
    + destruct Hm as [_ [_ He]]. apply He. by left.
    + exists rsz, range. rewrite Er. done.
  - eapply wp_mono; [by apply (map_or_undo_ok s s1 s2 r)| |done|done].
    intros r' s3 (H3 & -> & Hall & Hin3). do 3 (split; [done|]). exists rsz, range. rewrite Er. done.
Qed.

End Proofs.

(** ** Properties *)


#[local] Existing Instances RegionTree.sorted_tree RegionTree.sorted_tree_laws.

(** A machine with enough memory whose pages are not populated, and an address
    space of two adjacent regions. *)
Definition sample_env : Env := {|
  kernel_mapping_base := 0x2000000000;
  has_nx := true;
  memory_available := fun _ => true;
  physical_pages := fun _ _ => None;
  anonymous_should_cow := fun _ _ _ => false;
  is_page_dirty := fun _ _ => false;
  base_address := fun _ => 0
|}.

Definition sample : t (list (Z * Region)) :=
  space (RegionTree.mk [(0x20000, RegionTree.sample_region 0x20000 0x6000);
                        (0x26000, RegionTree.sample_region 0x26000 0x2000)]
           (VirtualRange.mk 0x10000 0x40000000)) (mmu ∅ 0).

Lemma sample_region_ok base sz :
  0 <= base -> 0 < sz -> base + sz < 2 ^ 64 -> base mod PAGE_SIZE = 0 -> sz mod PAGE_SIZE = 0 ->
  region_ok (RegionTree.sample_region base sz).
Proof.
  intros. constructor; unfold VirtualRange.wf, VirtualRange.page_aligned, size; simpl; done || lia.
Qed.

Lemma space_sample_inv : inv sample_env sample.
Proof.
  assert (region_ok (RegionTree.sample_region 0x20000 0x6000)) as H1 by (apply sample_region_ok; done || lia).
  assert (region_ok (RegionTree.sample_region 0x26000 0x2000)) as H2 by (apply sample_region_ok; done || lia).
  constructor.
  - constructor; simpl.
    + unfold VirtualRange.wf. simpl. lia.
    + repeat constructor.
    + intros k r. rewrite !elem_of_cons, elem_of_nil. intros [[= -> ->]|[[= -> ->]|[]]];
        unfold VirtualRange.wf, vaddr; simpl; lia.
    + intros k r k' r' Hr Hr' Hne. rewrite !elem_of_cons, elem_of_nil in Hr, Hr'.
      destruct Hr as [[= -> ->]|[[= -> ->]|[]]], Hr' as [[= -> ->]|[[= -> ->]|[]]];
        (by destruct Hne) || (unfold VirtualRange.disjoint; simpl; lia).
  - unfold USER_RANGE_CEILING, total. simpl. split; [lia|done].
  - intros k r. unfold elems. simpl. rewrite !elem_of_cons, elem_of_nil.
    intros [[= -> ->]|[[= -> ->]|[]]]; done.
  - intros p pte Hp. simpl in Hp. by rewrite lookup_empty in Hp.
Qed.


(** C15: an allocation adds exactly one region.  [allocate_region_with_vmobject]
    either fails, with the invariant kept and every address seeing what it saw
    before (a region whose mapping failed half way is taken out again), or
    returns a region of the rounded size, at the address asked for if there was
    one, over addresses that were free; no other address sees a change. *)
Theorem allocate_region_with_vmobject_exact {T : Type} `{!OrderedTree T Region}
    `{!OrderedTreeLaws T Region} (env : Env) (rnd : nat -> Z)
    (randomize : RegionTree.RandomizeVirtualAddress) (addr sz alignment : Z) (v : VMObject) (offset : Z)
    (name : option string) (prot : Z) (shared : bool) (memory_type : Z) (s : t T) :
  inv env s -> fits 64 addr -> 0 <= sz -> 0 < alignment -> (is_shared_inode v = true -> shared = true) ->
  wp (allocate_region_with_vmobject env rnd randomize addr sz alignment v offset name prot shared memory_type)
     (fun r s' => inv env s' /\ allocated r s s' /\ (vaddr r, r) ∈ elems s' /\ exists rounded range,
        VirtualRange.page_round_up sz = Ok rounded /\ VirtualRange.m_size range = rounded /\
        (addr <> 0 -> VirtualRange.m_base range = addr) /\
        r = set_directory (set_range (create_unplaced v (VirtualRange.page_base offset) name
              (prot_to_region_access_flags prot) memory_type shared) range) true)
     (fun s' => inv env s' /\ unchanged s s') False s.
Proof. apply allocate_with_vmobject_ok. Qed.

Lemma allocate_region_with_vmobject_exact_witness :
  wp (allocate_region_with_vmobject sample_env (fun _ => 0) RegionTree.No 0x30000 0x1800 0x1000
        (vmobject SharedInode 7 2) 0 None 3 true 0)
     (fun r s' => inv sample_env s' /\ allocated r sample s' /\ (vaddr r, r) ∈ elems s' /\ exists rounded range,
        VirtualRange.page_round_up 0x1800 = Ok rounded /\ VirtualRange.m_size range = rounded /\
        (0x30000 <> 0 -> VirtualRange.m_base range = 0x30000) /\
        r = set_directory (set_range (create_unplaced (vmobject SharedInode 7 2)
              (VirtualRange.page_base 0) None (prot_to_region_access_flags 3) 0 true) range) true)
     (fun s' => inv sample_env s' /\ unchanged sample s') False sample.
Proof.
  apply allocate_region_with_vmobject_exact;
    [apply space_sample_inv|unfold fits; lia|lia|lia|done].
Defined.

(** ** Where the search misses regions *)

(** The range starts in a hole before the first region: nothing is unmapped. *)
Lemma unmap_misses_above_hole :
  snd (unmap_mmap_range sample_env 0x1f000 0x3000 sample) = Ok tt /\
  view (fst (unmap_mmap_range sample_env 0x1f000 0x3000 sample)) 0x20000 = view sample 0x20000 /\
  view sample 0x20000 <> None.
Proof. by vm_compute. Qed.

(** Four pages of the first region lie before a range of four pages: the second
    region is not looked at. *)
Lemma unmap_misses_second_region :
  snd (unmap_mmap_range sample_env 0x24000 0x4000 sample) = Ok tt /\
  view (fst (unmap_mmap_range sample_env 0x24000 0x4000 sample)) 0x26000 = view sample 0x26000 /\
  view sample 0x26000 <> None.
Proof. by vm_compute. Qed.

(** ** A region that is destroyed in the tree *)

(** No page table can be allocated for the new region, and it is still found
    after [allocate_region] has failed and destroyed it. *)
Lemma allocate_region_leaves_region :
  let env := {| kernel_mapping_base := 0x2000000000; has_nx := true;
    memory_available := fun n => (n <? 2)%nat; physical_pages := fun _ _ => None;
    anonymous_should_cow := fun _ _ _ => false; is_page_dirty := fun _ _ => false;
    base_address := fun _ => 0 |} in
  let (s', o) := allocate_region env (fun _ => 0) RegionTree.No 0x30000 0x1000 0x1000 None 3 9 sample in
  o = Err ENOMEM /\ view s' 0x30000 <> None.
Proof. by vm_compute. Qed.

End AddressSpace.
