(* ===== verification/StringView.v ===== *)
(** Views of strings, [AK/StringView.h] and [AK/StringUtils.cpp]: the operations
    the kernel uses to take paths and argument strings apart. *)

From S2P Require Import Prelude.

From Stdlib Require Import Ascii.
From Stdlib Require String.

Module StringView.

(** A view is the characters it shows. *)
Definition t : Type := list ascii.

Definition of_string (s : String.string) : t := String.list_ascii_of_string s.
Definition to_string (v : t) : String.string := String.string_of_list_ascii v.

Definition is_empty (v : t) : bool := bool_decide (v = []).

Definition starts_with (str start : t) : bool :=
  match start with
  | [] => true
  | _ => if bool_decide (str = []) then false else
         if (length str <? length start)%nat then false else
         bool_decide (take (length start) str = start)
  end.

Definition ends_with (str end_ : t) : bool :=
  match end_ with
  | [] => true
  | _ => if bool_decide (str = []) then false else
         if (length str <? length end_)%nat then false else
         bool_decide (drop (length str - length end_) str = end_)
  end.

Definition starts_with_char (str : t) (ch : ascii) : bool :=
  match str with [] => false | c :: _ => Ascii.eqb c ch end.

Definition ends_with_char (str : t) (ch : ascii) : bool :=
  match last str with None => false | Some c => Ascii.eqb c ch end.

(** [memmem], as an offset. *)
Fixpoint memmem (haystack needle : t) : option nat :=
  if bool_decide (take (length needle) haystack = needle) then Some 0%nat else
  match haystack with
  | [] => None
  | _ :: haystack => match memmem haystack needle with Some i => Some (S i) | None => None end
  end.

Definition contains (str needle : t) : bool :=
  if bool_decide (str = []) || (length str <? length needle)%nat then false else
  match needle with
  | [] => true
  | _ => match memmem str needle with Some _ => true | None => false end
  end.

(** [trim] from the right. *)
Fixpoint trim_end (reversed characters : t) : t :=
  match reversed with
  | [] => []
  | c :: cs => if bool_decide (c ∈ characters) then trim_end cs characters else c :: cs
  end.

Definition trim_right (str characters : t) : t := rev (trim_end (rev str) characters).

(** [find_last] of a character, searching from the end. *)
Fixpoint find_back (i : nat) (reversed : t) (needle : ascii) : option nat :=
  match i, reversed with
  | S i, c :: cs => if Ascii.eqb c needle then Some i else find_back i cs needle
  | _, _ => None
  end.

Definition find_last (haystack : t) (needle : ascii) : option nat :=
  find_back (length haystack) (rev haystack) needle.

(** [for_each_split_view] on one character with [SplitBehavior::Nothing]: the
    parts between separators, empty ones left out.  [part] is what was seen of the
    current part. *)
Fixpoint split_from (separator : ascii) (view part : t) : list t :=
  match view with
  | [] => if bool_decide (part = []) then [] else [part]
  | c :: view =>
      if Ascii.eqb c separator
      then (if bool_decide (part = []) then [] else [part]) ++ split_from separator view []
      else split_from separator view (part ++ [c])
  end.

Definition split_view (view : t) (separator : ascii) : list t := split_from separator view [].

(** ** What they find *)

Lemma starts_with_iff str start : starts_with str start = true <-> start `prefix_of` str.
Proof.
  unfold starts_with. destruct start as [|c start]; [split; [intros _; apply prefix_nil|done]|].
  case_bool_decide as E.
  { subst. split; [done|]. by intros ?%prefix_nil_inv. }
  destruct (Nat.ltb_spec (length str) (length (c :: start))) as [Hl|Hl].
  { split; [done|]. intros ?%prefix_length. lia. }
  rewrite bool_decide_eq_true. split.
  - intros Ht. rewrite <- Ht. apply prefix_take.
  - intros [k ->]. by rewrite take_app_length.
Qed.

Lemma ends_with_iff str end_ : ends_with str end_ = true <-> end_ `suffix_of` str.
Proof.
  unfold ends_with. destruct end_ as [|c e]; [split; [intros _; apply suffix_nil|done]|].
  case_bool_decide as E.
  { subst. split; [done|]. by intros ?%suffix_nil_inv. }
  destruct (Nat.ltb_spec (length str) (length (c :: e))) as [Hl|Hl].
  { split; [done|]. intros ?%suffix_length. lia. }
  rewrite bool_decide_eq_true. split.
  - intros Ht. exists (take (length str - length (c :: e)) str). rewrite <- Ht at 2. symmetry. apply take_drop.
  - intros [k ->]. rewrite length_app. replace (_ + _ - _)%nat with (length k) by lia. apply drop_app_length.
Qed.

Lemma memmem_iff haystack needle :
  memmem haystack needle <> None <-> exists a b, haystack = a ++ needle ++ b.
Proof.
  induction haystack as [|c cs IH]; simpl; case_bool_decide as E.
  - split; [|done]. intros _. exists [], []. rewrite app_nil_r. rewrite take_nil in E. done.
  - split; [done|]. intros (a & b & H). destruct E. symmetry in H. apply app_eq_nil in H as [_ H].
    apply app_eq_nil in H as [-> _]. done.
  - split; [|done]. intros _. exists [], (drop (length needle) (c :: cs)). simpl. rewrite <- E at 1.
    by rewrite take_drop.
  - split.
    + intros H. destruct (memmem cs needle) eqn:Em; [|done]. destruct IH as [IH _].
      destruct IH as (a & b & ->); [done|]. by exists (c :: a), b.
    + intros (a & b & H). destruct a as [|c' a].
      { simpl in H. destruct E. rewrite H. by rewrite take_app_length. }
      injection H as -> ->. destruct IH as [_ IH]. destruct (memmem _ needle); [done|]. exfalso. apply IH; eauto.
Qed.

Lemma contains_iff str needle :
  needle <> [] -> contains str needle = true <-> exists a b, str = a ++ needle ++ b.
Proof.
  intros Hn. rewrite <- memmem_iff. unfold contains. destruct needle as [|n ns]; [done|].
  destruct (bool_decide (str = []) || _) eqn:E.
  - split; [done|]. rewrite memmem_iff. intros (a & b & ->). apply orb_prop in E as [E|E].
    + apply bool_decide_eq_true in E. by destruct a.
    + apply Nat.ltb_lt in E. rewrite !length_app in E. lia.
  - by destruct (memmem str (n :: ns)).
Qed.

Lemma split_from_app separator a b part :
  split_from separator (a ++ separator :: b) part = split_from separator a part ++ split_from separator b [].
Proof.
  revert part. induction a as [|c a IH]; intros part; simpl.
  - by rewrite Ascii.eqb_refl.
  - destruct (Ascii.eqb c separator); rewrite IH; [by rewrite app_assoc|done].
Qed.

Lemma split_from_plain separator a part :
  separator ∉ a -> part ++ a <> [] -> split_from separator a part = [part ++ a].
Proof.
  revert part. induction a as [|c a IH]; intros part Hn Hne; simpl.
  - rewrite app_nil_r in *. by rewrite bool_decide_false.
  - apply not_elem_of_cons in Hn as [Hc Hn]. destruct (Ascii.eqb_spec c separator); [congruence|].
    rewrite IH; [by rewrite <- app_assoc|done|]. by destruct part.
Qed.

End StringView.
