(* ===== verification/LexicalPath.v ===== *)
(** Paths as text, [Kernel/Library/KLexicalPath.cpp]. *)

From Stdlib Require Import Ascii String.
From S2P Require Import Prelude StringView.
Import StringView.

Module KLexicalPath.

Definition slash : ascii := "/"%char.
Definition sv (s : string) : t := of_string s.
Arguments sv s%_string.

Definition is_absolute (path : t) : bool :=
  negb (is_empty path) && match path with c :: _ => Ascii.eqb c slash | [] => false end.

Definition is_canonical (path : t) : bool :=
  if is_empty path then false else
  if ends_with_char path slash && negb (Datatypes.length path =? 1)%nat then false else
  if starts_with path (sv "./") || contains path (sv "/./") || ends_with path (sv "/.") then false else
  if starts_with path (sv "../") || contains path (sv "/../") || ends_with path (sv "/..") then false else
  if contains path (sv "//") then false else true.

Definition basename (a_path : t) : t :=
  if bool_decide (a_path = sv "/") then a_path else
  if is_empty a_path then sv "." else
  let path := trim_right a_path (sv "/") in
  if is_empty path then take 1 a_path else
  match find_last path slash with
  | None => path
  | Some slash_index => drop (slash_index + 1) path
  end.

Definition dirname (path : t) : outcome t :=
  VERIFY (is_canonical path) ;;
  match find_last path slash with
  | None => Panic
  | Some slash_index => Ok (take slash_index path)
  end.

Definition parts (path : t) : outcome (list t) :=
  VERIFY (is_canonical path) ;;
  Ok (split_view path slash).

(** [allocated] says whether memory for the result is left. *)
Definition try_join (allocated : bool) (first second : t) : outcome t :=
  VERIFY (is_canonical first) ;;
  VERIFY (is_canonical second) ;;
  VERIFY (negb (is_absolute second)) ;;
  if negb allocated then Err ENOMEM else
  if bool_decide (first = sv "/") then Ok (slash :: second) else Ok (first ++ slash :: second).

(** ** Absolute paths and the names on them *)

(** A name of a directory entry that can be on a canonical path. *)
Definition name (n : t) : Prop := n <> [] /\ (slash ∉ n) /\ n <> sv "." /\ n <> sv "..".

(** The path with these names. *)
Definition tail (ns : list t) : t := List.concat (map (cons slash) ns).
Definition render (ns : list t) : t := match ns with [] => [slash] | _ => tail ns end.

Lemma tail_app ns ms : tail (ns ++ ms) = tail ns ++ tail ms.
Proof. unfold tail. by rewrite map_app, concat_app. Qed.

(** Every text that begins with a slash is a sequence of slashes with texts without
    slashes behind them. *)
Lemma decompose (path : t) : exists ns, slash :: path = tail ns /\ ns <> [] /\ Forall (fun n => slash ∉ n) ns.
Proof.
  induction path as [|c path (ns & E & Hne & Hn)].
  - exists [[]]. split; [done|]. split; [done|]. apply Forall_singleton. apply not_elem_of_nil.
  - destruct ns as [|n ns]; [done|]. destruct (Ascii.eqb_spec c slash) as [->|Hc].
    + exists ([] :: n :: ns). split; [by rewrite E|]. split; [done|]. apply Forall_cons. split; [apply not_elem_of_nil|done].
    + exists ((c :: n) :: ns). change (tail (n :: ns)) with (slash :: n ++ tail ns) in E. injection E as ->.
      split; [done|]. split; [done|]. inversion_clear Hn. apply Forall_cons. split; [|done].
      by apply not_elem_of_cons.
Qed.

(** What a canonical text must not be made of. *)
Lemma canonical_not path :
  is_canonical path = true ->
  (forall a b, path <> a ++ sv "//" ++ b) /\ (forall a b, path <> a ++ sv "/./" ++ b) /\
  (forall a b, path <> a ++ sv "/../" ++ b) /\ (forall a, path <> a ++ sv "/.") /\ (forall a, path <> a ++ sv "/..") /\
  (forall a, path = a ++ [slash] -> a = []).
Proof.
  unfold is_canonical. destruct (is_empty path) eqn:E0; [done|].
  destruct (ends_with_char path slash && _) eqn:E1; [done|].
  destruct (starts_with path (sv "./") || _ || _) eqn:E2; [done|].
  destruct (starts_with path (sv "../") || _ || _) eqn:E3; [done|].
  destruct (contains path (sv "//")) eqn:E4; [done|]. intros _.
  apply orb_false_iff in E2 as [[_ E2a]%orb_false_iff E2b]. apply orb_false_iff in E3 as [[_ E3a]%orb_false_iff E3b].
  assert (forall needle, needle <> [] -> contains path needle = false -> forall a b, path <> a ++ needle ++ b) as Hc.
  { intros needle Hn H a b E. assert (contains path needle = true) by (apply contains_iff; eauto). congruence. }
  assert (forall e, ends_with path e = false -> forall a, path <> a ++ e) as He.
  { intros e H a E. assert (ends_with path e = true) by (apply ends_with_iff; by exists a). congruence. }
  split; [by apply Hc|]. split; [by apply Hc|]. split; [by apply Hc|]. split; [by apply He|]. split; [by apply He|].
  intros a ->. unfold ends_with_char in E1. rewrite last_snoc, Ascii.eqb_refl in E1. simpl in E1.
  rewrite length_app in E1. apply negb_false_iff, Nat.eqb_eq in E1. simpl in E1. destruct a; [done|]. simpl in E1. lia.
Qed.

(** The names on a canonical path are proper. *)
Lemma canonical_names ns :
  Forall (fun n => slash ∉ n) ns -> ns <> [] -> is_canonical (tail ns) = true -> ns = [[]] \/ Forall name ns.
Proof.
  intros Hn Hne H. destruct (canonical_not _ H) as (N1 & N2 & N3 & N4 & N5 & N6).
  destruct (decide (ns = [[]])) as [|Hroot]; [by left|]. right. apply Forall_forall. intros n Hin.
  apply list_elem_of_split in Hin as (a & b & ->). split; [|split; [|split]].
  - intros ->. destruct b as [|m b].
    + rewrite tail_app in N6. specialize (N6 (tail a) eq_refl). destruct a as [|m a]; [done|]. done.
    + apply (N1 (tail a) (m ++ tail b)). by rewrite tail_app.
  - apply Forall_app in Hn as [_ Hn]. by inversion Hn.
  - intros ->. destruct b as [|m b].
    + apply (N4 (tail a)). by rewrite tail_app.
    + apply (N2 (tail a) (m ++ tail b)). by rewrite tail_app.
  - intros ->. destruct b as [|m b].
    + apply (N5 (tail a)). by rewrite tail_app.
    + apply (N3 (tail a) (m ++ tail b)). by rewrite tail_app.
Qed.

(** ** Paths made of proper names are canonical *)

(** A text without slashes does not matter when a text is searched that begins with
    one. *)
Lemma skip_plain needle n rest :
  slash ∉ n -> (exists a b, n ++ rest = a ++ (slash :: needle) ++ b) -> exists a b, rest = a ++ (slash :: needle) ++ b.
Proof.
  induction n as [|c n IH]; intros Hn (a & b & E); [eauto|]. apply not_elem_of_cons in Hn as [Hc Hn].
  destruct a as [|c' a]; [by injection E|]. injection E as _ E. apply IH; [done|]. eauto.
Qed.

(** Where a text that begins with a slash is in a path: behind one of its slashes. *)
Lemma found_in_tail needle ns :
  Forall (fun n => slash ∉ n) ns -> (exists a b, tail ns = a ++ (slash :: needle) ++ b) ->
  exists n ms b, n :: ms `suffix_of` ns /\ n ++ tail ms = needle ++ b.
Proof.
  induction 1 as [|n ns Hn Hns IH]; intros (a & b & E); [by destruct a|].
  change (tail (n :: ns)) with (slash :: n ++ tail ns) in E. destruct a as [|c a].
  - injection E as E. exists n, ns, b. split; [done|done].
  - injection E as _ E. destruct (skip_plain needle n (tail ns) Hn) as (a' & b' & E'); [eauto|].
    destruct IH as (m & ms & b2 & Hs & Hm); [eauto|]. exists m, ms, b2. split; [|done].
    by apply suffix_cons_r.
Qed.

Lemma tail_one n : tail [n] = slash :: n.
Proof. unfold tail. simpl. by rewrite app_nil_r. Qed.

Lemma tail_head ns : tail ns = [] \/ exists r, tail ns = slash :: r.
Proof. destruct ns; [by left|right]. by eexists. Qed.

(** A proper name does not begin like the text behind the slash. *)
Lemma name_first n ms b k :
  name n -> n ++ tail ms = replicate k "."%char ++ slash :: b -> (3 <= k)%nat.
Proof.
  intros (Hne & Hs & Hd & Hdd) E. destruct (decide (3 <= k)%nat) as [|Hk]; [done|]. exfalso.
  destruct n as [|c1 n]; [done|]. destruct k as [|[|[|k]]]; [| | |lia]; simpl in E; injection E as -> E.
  - apply Hs. apply list_elem_of_here.
  - destruct n as [|c2 n]; [done|]. injection E as -> _. apply Hs. do 1 apply list_elem_of_further. apply list_elem_of_here.
  - destruct n as [|c2 n]; [done|]. injection E as -> E. destruct n as [|c3 n]; [done|]. injection E as -> _. apply Hs.
    do 2 apply list_elem_of_further. apply list_elem_of_here.
Qed.

Lemma name_whole n ms k : name n -> n ++ tail ms = replicate k "."%char -> (3 <= k)%nat.
Proof.
  intros (Hne & Hs & Hd & Hdd) E. destruct (decide (3 <= k)%nat) as [|Hk]; [done|]. exfalso.
  assert (tail ms = []) as Et.
  { destruct (tail_head ms) as [|[r Er]]; [done|]. rewrite Er in E.
    assert (slash ∈ replicate k "."%char) as Hin. { rewrite <- E. apply elem_of_app. right. apply list_elem_of_here. }
    by apply elem_of_replicate in Hin as [? _]. }
  rewrite Et, app_nil_r in E. subst n. destruct k as [|[|[|k]]]; [done|done|done|lia].
Qed.

Lemma names_plain ns : Forall name ns -> Forall (fun n => slash ∉ n) ns.
Proof. intros H. eapply Forall_impl; [exact H|]. by intros n (_ & ? & _). Qed.

Lemma suffix_name (n : t) ms ns : Forall name ns -> n :: ms `suffix_of` ns -> name n.
Proof. intros H [k ->]. apply Forall_app in H as [_ H]. by inversion H. Qed.

Lemma not_contains ns needle k b0 :
  Forall name ns -> needle = replicate k "."%char ++ slash :: b0 -> (k < 3)%nat ->
  contains (tail ns) (slash :: needle) = false.
Proof.
  intros H -> Hk. apply not_true_iff_false. rewrite contains_iff by done. intros Hc.
  destruct (found_in_tail _ ns (names_plain _ H) Hc) as (n & ms & b & Hs & E).
  rewrite <- app_assoc in E. pose proof (name_first n ms _ k (suffix_name n ms ns H Hs) E). lia.
Qed.

(** The last slash. *)
Lemma last_slash (x y n e : t) : slash ∉ n -> slash ∉ e -> x ++ slash :: n = y ++ slash :: e -> x = y /\ n = e.
Proof.
  intros Hn He. revert y. induction x as [|c x IH]; intros [|c' y] E; simpl in E.
  - by injection E.
  - injection E as <- ->. destruct Hn. apply elem_of_app. right. apply list_elem_of_here.
  - injection E as -> <-. destruct He. apply elem_of_app. right. apply list_elem_of_here.
  - injection E as -> E. destruct (IH y E) as [-> ->]. done.
Qed.

Lemma not_ends ns k : Forall name ns -> (k < 3)%nat -> ends_with (tail ns) (slash :: replicate k "."%char) = false.
Proof.
  intros H Hk. apply not_true_iff_false. rewrite ends_with_iff. intros [a E].
  destruct ns as [|n ns _] using rev_ind; [by destruct a|]. apply Forall_app in H as [_ Hn]. inversion_clear Hn as [|? ? Hname _].
  rewrite tail_app, tail_one in E.
  apply last_slash in E as [_ ->]; [|apply Hname|by intros [? _]%elem_of_replicate].
  pose proof (name_whole _ [] k Hname (app_nil_r _)). lia.
Qed.

Lemma names_canonical ns : Forall name ns -> is_canonical (render ns) = true.
Proof.
  intros H. destruct ns as [|n0 ns0] eqn:Ens; [done|]. rewrite <- Ens in *.
  assert (render ns = tail ns) as -> by (by rewrite Ens). unfold is_canonical.
  assert (is_empty (tail ns) = false) as -> by (by rewrite Ens).
  change (sv "/./") with (slash :: replicate 1 "."%char ++ [slash]). change (sv "/.") with (slash :: replicate 1 "."%char).
  change (sv "/../") with (slash :: replicate 2 "."%char ++ [slash]). change (sv "/..") with (slash :: replicate 2 "."%char).
  change (sv "//") with (slash :: replicate 0 "."%char ++ [slash]).
  assert (ends_with_char (tail ns) slash = false) as ->.
  { destruct ns as [|n ns _] using rev_ind; [done|]. rewrite tail_app, tail_one.
    apply Forall_app in H as [_ Hn]. inversion_clear Hn as [|? ? (Hne & Hs & _) _]. unfold ends_with_char.
    destruct n as [|c n _] using rev_ind; [done|]. rewrite app_comm_cons, app_assoc, last_snoc.
    destruct (Ascii.eqb_spec c slash) as [->|]; [|done]. destruct Hs. apply elem_of_app. right. apply list_elem_of_here. }
  assert (forall s, starts_with (tail ns) ("."%char :: s) = false) as Hst.
  { intros s. apply not_true_iff_false. rewrite starts_with_iff. intros [k E]. by rewrite Ens in E. }
  change (sv "./") with ("."%char :: [slash]). change (sv "../") with ("."%char :: ["."%char; slash]).
  by rewrite !Hst, !(not_contains ns _ _ [] H eq_refl), !not_ends by (done || lia).
Qed.

Lemma split_tail ns : Forall name ns -> split_from slash (tail ns) [] = ns.
Proof.
  induction 1 as [|n ns (Hne & Hs & _) _ IH]; [done|].
  assert (split_from slash (n ++ tail ns) [] = n :: ns) as E.
  { destruct ns as [|m ns]; [by rewrite app_nil_r, split_from_plain|].
    change (tail (m :: ns)) with (slash :: m ++ tail ns) in IH |- *. rewrite split_from_app, split_from_plain by done.
    simpl in IH. by rewrite IH. }
  exact E.
Qed.

Lemma split_render ns : Forall name ns -> split_view (render ns) slash = ns.
Proof. intros H. destruct ns; [done|]. exact (split_tail _ H). Qed.

Lemma canonical_render path :
  is_absolute path = true -> is_canonical path = true -> exists ns, Forall name ns /\ path = render ns.
Proof.
  intros Ha Hc. destruct path as [|c path]; [done|]. unfold is_absolute in Ha. simpl in Ha. apply Ascii.eqb_eq in Ha as ->.
  destruct (decompose path) as (ns & E & Hne & Hn). rewrite E in Hc |- *.
  destruct (canonical_names ns Hn Hne Hc) as [->|H]; [by exists []|]. exists ns. split; [done|]. by destruct ns.
Qed.

(** ** Joining and taking apart *)

Lemma find_back_skip needle n r i :
  needle ∉ n -> find_back (Datatypes.length n + i) (n ++ r) needle = find_back i r needle.
Proof.
  induction n as [|c n IH]; intros Hn; [done|]. apply not_elem_of_cons in Hn as [Hc Hn]. simpl.
  destruct (Ascii.eqb_spec c needle); [congruence|]. by apply IH.
Qed.

Lemma find_last_slash x n : slash ∉ n -> find_last (x ++ slash :: n) slash = Some (Datatypes.length x).
Proof.
  intros Hn. unfold find_last. rewrite rev_app_distr. simpl. rewrite <- app_assoc, length_app. simpl.
  replace (Datatypes.length x + S (Datatypes.length n))%nat
    with (Datatypes.length (rev n) + S (Datatypes.length x))%nat by (rewrite length_rev; lia).
  rewrite find_back_skip by (rewrite list_elem_of_In, <- in_rev, <- list_elem_of_In; done).
  reflexivity.
Qed.

Lemma trim_plain x n : n <> [] -> slash ∉ n -> trim_right (x ++ slash :: n) [slash] = x ++ slash :: n.
Proof.
  intros Hne Hn. destruct n as [|c n _] using rev_ind; [done|]. unfold trim_right.
  rewrite app_comm_cons, app_assoc, rev_app_distr. simpl. rewrite bool_decide_false.
  - simpl. by rewrite rev_involutive.
  - intros ->%list_elem_of_singleton. apply Hn, elem_of_app. right. apply list_elem_of_here.
Qed.

Lemma render_snoc ns n : render (ns ++ [n]) = tail ns ++ slash :: n.
Proof.
  assert (render (ns ++ [n]) = tail (ns ++ [n])) as -> by (by destruct ns). by rewrite tail_app, tail_one.
Qed.

Lemma name_relative n : name n -> is_canonical n = true /\ is_absolute n = false.
Proof.
  intros (Hne & Hs & Hd & Hdd).
  assert (forall a b, n <> a ++ slash :: b) as Hno.
  { intros a b ->. apply Hs, elem_of_app. right. apply list_elem_of_here. }
  assert (forall needle, contains n (slash :: needle) = false) as Hc.
  { intros needle. apply not_true_iff_false. rewrite contains_iff by done. intros (a & b & E). by apply Hno in E. }
  assert (forall e, ends_with n (slash :: e) = false) as He.
  { intros e. apply not_true_iff_false. rewrite ends_with_iff. intros [a E]. by apply Hno in E. }
  split.
  - unfold is_canonical. unfold is_empty. rewrite bool_decide_false by done.
    assert (ends_with_char n slash = false) as ->.
    { unfold ends_with_char. destruct n as [|c n _] using rev_ind; [done|]. rewrite last_snoc.
      destruct (Ascii.eqb_spec c slash) as [->|]; [|done]. by destruct (Hno n []). }
    assert (forall k, starts_with n (replicate k "."%char ++ [slash]) = false) as Hst.
    { intros k. apply not_true_iff_false. rewrite starts_with_iff. intros [r E]. rewrite <- app_assoc in E. by apply Hno in E. }
    change (sv "./") with (replicate 1 "."%char ++ [slash]). change (sv "../") with (replicate 2 "."%char ++ [slash]).
    change (sv "/./") with (slash :: sv "./"). change (sv "/.") with (slash :: sv ".").
    change (sv "/../") with (slash :: sv "../"). change (sv "/..") with (slash :: sv ".."). change (sv "//") with (slash :: sv "/").
    by rewrite !Hst, !Hc, !He.
  - unfold is_absolute. destruct n as [|c n]; [done|]. simpl. destruct (Ascii.eqb_spec c slash) as [->|]; [|done].
    by destruct (Hno [] n).
Qed.

Lemma render_root ns : Forall name ns -> render ns = sv "/" <-> ns = [].
Proof.
  intros H. split; [|by intros ->]. destruct H as [|n ns [Hn _] _]; [done|]. intros [= E].
  by apply app_eq_nil in E as [? _].
Qed.

Lemma join_name allocated ns n :
  Forall name ns -> name n ->
  try_join allocated (render ns) n = if allocated then Ok (render (ns ++ [n])) else Err ENOMEM.
Proof.
  intros H Hn. destruct (name_relative n Hn) as [Hc Ha]. unfold try_join.
  rewrite names_canonical, Hc, Ha by done. cbn [negb]. destruct allocated; [|done]. cbn [negb].
  rewrite render_snoc. case_bool_decide as E.
  - apply render_root in E as ->; done.
  - by destruct ns.
Qed.

End KLexicalPath.



(** a path that begins with a slash is canonical exactly if it is made of proper
    names: not empty, without slashes, and neither one dot nor two. *)
Theorem canonical_path_exact (path : StringView.t) :
  KLexicalPath.is_absolute path = true ->
  (KLexicalPath.is_canonical path = true <-> exists ns, Forall KLexicalPath.name ns /\ path = KLexicalPath.render ns).
Proof.
  intros Ha. split; [by apply KLexicalPath.canonical_render|].
  intros (ns & H & ->). by apply KLexicalPath.names_canonical.
Qed.

Lemma canonical_path_exact_witness :
  KLexicalPath.is_canonical (StringView.of_string "/a/../b") = true <->
  exists ns, Forall KLexicalPath.name ns /\ StringView.of_string "/a/../b" = KLexicalPath.render ns.
Proof. apply canonical_path_exact. reflexivity. Defined.
