(* ===== verification/Process.v ===== *)
(** The security state of a process: promises ([Kernel/Syscalls/pledge.cpp]),
    user and group identities ([Kernel/Syscalls/setuid.cpp],
    [Kernel/Security/Credentials.h]) and the process flags that
    [Kernel/Syscalls/prctl.cpp] sets. *)

From stdpp Require Import strings.
From S2P Require Import Prelude BitOps StringView.
From Stdlib Require Import Ascii String.

Module Process.
#[local] Open Scope Z_scope.

(** ** Promises *)

Inductive Pledge : Type :=
| stdio | rpath | wpath | cpath | dpath | inet | id | proc | ptrace | exec | unix | recvfd | sendfd
| fattr | tty | chown | thread | video | accept | settime | sigaction | setkeymap | prot_exec
| map_fixed | getkeymap | mount | unshare | no_error.

(** The promises in the order of the enumeration, with their names. *)
Definition all_promises : list (Pledge * string) :=
  [ (stdio, "stdio"); (rpath, "rpath"); (wpath, "wpath"); (cpath, "cpath"); (dpath, "dpath");
    (inet, "inet"); (id, "id"); (proc, "proc"); (ptrace, "ptrace"); (exec, "exec"); (unix, "unix");
    (recvfd, "recvfd"); (sendfd, "sendfd"); (fattr, "fattr"); (tty, "tty"); (chown, "chown");
    (thread, "thread"); (video, "video"); (accept, "accept"); (settime, "settime");
    (sigaction, "sigaction"); (setkeymap, "setkeymap"); (prot_exec, "prot_exec");
    (map_fixed, "map_fixed"); (getkeymap, "getkeymap"); (mount, "mount"); (unshare, "unshare");
    (no_error, "no_error") ]%string.

#[global] Instance Pledge_eq_dec : EqDecision Pledge.
Proof. solve_decision. Defined.

(** [(u32)promise] *)
Definition pledge_number (p : Pledge) : Z :=
  match p with
  | stdio => 0 | rpath => 1 | wpath => 2 | cpath => 3 | dpath => 4 | inet => 5 | id => 6 | proc => 7
  | ptrace => 8 | exec => 9 | unix => 10 | recvfd => 11 | sendfd => 12 | fattr => 13 | tty => 14
  | chown => 15 | thread => 16 | video => 17 | accept => 18 | settime => 19 | sigaction => 20
  | setkeymap => 21 | prot_exec => 22 | map_fixed => 23 | getkeymap => 24 | mount => 25
  | unshare => 26 | no_error => 27
  end.

Definition pledge_bit (p : Pledge) : Z := u32 (Z.shiftl 1 (pledge_number p)).

(** [all_promises_strings_length_with_spaces]: [sizeof(#x)] counts the final
    zero. *)
Definition all_promises_strings_length_with_spaces : Z :=
  fold_right (fun p n => Z.of_nat (String.length (snd p)) + 1 + 1 + n) 0 all_promises - 1.

(** ** State *)

Record Credentials : Type := credentials {
  m_uid : Z;
  m_gid : Z;
  m_euid : Z;
  m_egid : Z;
  m_suid : Z;
  m_sgid : Z;
  m_extra_gids : list Z;
  m_sid : Z;
  m_pgid : Z
}.

Definition is_superuser (c : Credentials) : bool := m_euid c =? 0.

(** The fields of [Process::ProtectedValues] these system calls use. *)
Record ProtectedValues : Type := protected_values {
  creds : Credentials;
  dumpable : bool;
  has_promises : bool;
  promises : Z;
  has_execpromises : bool;
  execpromises : Z;
  reject_transition_to_executable_from_writable_prot : bool;
  jailed_until_exit : bool;
  jailed_until_exec : bool
}.

Definition with_credentials (p : ProtectedValues) (c : Credentials) (d : bool) : ProtectedValues :=
  protected_values c d (has_promises p) (promises p) (has_execpromises p) (execpromises p)
    (reject_transition_to_executable_from_writable_prot p) (jailed_until_exit p) (jailed_until_exec p).

Definition with_promises (p : ProtectedValues) (has : bool) (ps : Z) (has_exec : bool) (eps : Z)
    : ProtectedValues :=
  protected_values (creds p) (dumpable p) has ps has_exec eps
    (reject_transition_to_executable_from_writable_prot p) (jailed_until_exit p) (jailed_until_exec p).

Definition with_flags (p : ProtectedValues) (d reject until_exit until_exec : bool) : ProtectedValues :=
  protected_values (creds p) d (has_promises p) (promises p) (has_execpromises p) (execpromises p)
    reject until_exit until_exec.

(** ** [pledge] *)

Definition has_promised (s : ProtectedValues) (p : Pledge) : bool :=
  negb (Z.land (promises s) (pledge_bit p) =? 0).

Definition require_promise (s : ProtectedValues) (p : Pledge) : outcome unit :=
  if negb (has_promises s) then Ok tt
  else if has_promised s p then Ok tt
  else Err EPROMISEVIOLATION.

Fixpoint pledge_named (l : list (Pledge * string)) (part : string) : option Pledge :=
  match l with
  | [] => None
  | (p, name) :: l => if String.eqb part name then Some p else pledge_named l part
  end.

(** [parse_pledge]: the mask, and whether every part was a promise. *)
Fixpoint parse_parts (parts : list string) (mask : Z) (valid : bool) : Z * bool :=
  match parts with
  | [] => (mask, valid)
  | part :: parts =>
      match pledge_named all_promises part with
      | Some p => parse_parts parts (Z.lor mask (pledge_bit p)) valid
      | None => parse_parts parts mask false
      end
  end.

(** [pledge_spec.split_view(' ')] *)
Definition pledge_parts (pledge_spec : string) : list string :=
  map StringView.to_string (StringView.split_view (StringView.of_string pledge_spec) " ").

Definition parse_pledge (pledge_spec : string) : Z * bool := parse_parts (pledge_parts pledge_spec) 0 true.

(** The bytes a program passes as a string argument, cut at the first zero. *)
Fixpoint until_nul (s : string) : string :=
  match s with
  | EmptyString => EmptyString
  | String c s => if Ascii.eqb c "000" then EmptyString else String c (until_nul s)
  end.

Definition get_syscall_string_fixed_buffer (sz : Z) (argument : string) : outcome string :=
  if sz <? Z.of_nat (String.length argument) then Err E2BIG else Ok (until_nul argument).

(** An absent string argument is a null pointer. *)
Definition provided_string (argument : option string) : outcome (option string) :=
  match argument with
  | None => Ok None
  | Some a =>
      let! s := get_syscall_string_fixed_buffer all_promises_strings_length_with_spaces a in
      Ok (Some s)
  end.

Definition parse_provided (spec : option string) : outcome Z :=
  match spec with
  | None => Ok 0
  | Some s => let (mask, valid) := parse_pledge s in if valid then Ok mask else Err EINVAL
  end.

(** The promises a process may have next: none beyond those it has. *)
Definition restrict_promises (s : ProtectedValues) (provided has : bool) (old new : Z) : outcome Z :=
  if provided && has && negb (Z.land new (u32 (Z.lnot old)) =? 0) then
    if Z.land (promises s) (pledge_bit no_error) =? 0 then Err EPERM else Ok (Z.land new old)
  else Ok new.

Definition provided (argument : option string) : bool :=
  match argument with Some _ => true | None => false end.

Definition sys_pledge (promises_arg execpromises_arg : option string) : action ProtectedValues Z :=
  let* ps := lift (provided_string promises_arg) in
  let* eps := lift (provided_string execpromises_arg) in
  let* new_promises := lift (parse_provided ps) in
  let* new_execpromises := lift (parse_provided eps) in
  fun s =>
    (let* new_promises := lift (restrict_promises s (provided ps) (has_promises s) (promises s)
                                  new_promises) in
     let* new_execpromises := lift (restrict_promises s (provided eps) (has_execpromises s)
                                      (execpromises s) new_execpromises) in
     let* _ := modify (fun s => with_promises s
                 (provided ps || has_promises s) (if provided ps then new_promises else promises s)
                 (provided eps || has_execpromises s)
                 (if provided eps then new_execpromises else execpromises s)) in
     ret 0) s.

(** ** Identities *)

(** [(uid_t)-1], which stands for an identity that is not to change. *)
Definition NO_ID : Z := 2 ^ 32 - 1.

Definition set_uids (c : Credentials) (ruid euid suid : Z) : Credentials :=
  credentials ruid (m_gid c) euid (m_egid c) suid (m_sgid c) (m_extra_gids c) (m_sid c) (m_pgid c).
Definition set_gids (c : Credentials) (rgid egid sgid : Z) : Credentials :=
  credentials (m_uid c) rgid (m_euid c) egid (m_suid c) sgid (m_extra_gids c) (m_sid c) (m_pgid c).
Definition set_extra_gids (c : Credentials) (gids : list Z) : Credentials :=
  credentials (m_uid c) (m_gid c) (m_euid c) (m_egid c) (m_suid c) (m_sgid c) gids (m_sid c) (m_pgid c).

Definition in_group (c : Credentials) (gid : Z) : bool :=
  (m_gid c =? gid) || existsb (Z.eqb gid) (m_extra_gids c).

(** What the system calls below have in common: they need the [id] promise, are
    refused with [check] or build new credentials, for which [memory] says
    whether they can be allocated. *)
Definition change_credentials (memory : bool) (check : Credentials -> outcome Credentials)
    (drops_dumpable : Credentials -> Credentials -> bool) : action ProtectedValues Z :=
  let* s := gets (fun s => s) in
  let* c := lift (check (creds s)) in
  if negb memory then lift (Err ENOMEM) else
  let* _ := modify (fun s => with_credentials s c
              (if drops_dumpable (creds s) c then false else dumpable s)) in
  ret 0.

Definition euid_changes (old new : Credentials) : bool := negb (m_euid old =? m_euid new).
Definition egid_changes (old new : Credentials) : bool := negb (m_egid old =? m_egid new).

Definition require_id : action ProtectedValues unit := fun s => (s, require_promise s id).

Definition sys_seteuid (memory : bool) (new_euid : Z) : action ProtectedValues Z :=
  let* _ := require_id in
  if new_euid =? NO_ID then lift (Err EINVAL) else
  change_credentials memory (fun c =>
    if negb (new_euid =? m_uid c) && negb (new_euid =? m_suid c) && negb (is_superuser c)
    then Err EPERM else Ok (set_uids c (m_uid c) new_euid (m_suid c))) euid_changes.

Definition sys_setegid (memory : bool) (new_egid : Z) : action ProtectedValues Z :=
  let* _ := require_id in
  if new_egid =? NO_ID then lift (Err EINVAL) else
  change_credentials memory (fun c =>
    if negb (new_egid =? m_gid c) && negb (new_egid =? m_sgid c) && negb (is_superuser c)
    then Err EPERM else Ok (set_gids c (m_gid c) new_egid (m_sgid c))) egid_changes.

Definition sys_setuid (memory : bool) (new_uid : Z) : action ProtectedValues Z :=
  let* _ := require_id in
  if new_uid =? NO_ID then lift (Err EINVAL) else
  change_credentials memory (fun c =>
    if negb (new_uid =? m_uid c) && negb (new_uid =? m_euid c) && negb (is_superuser c)
    then Err EPERM else Ok (set_uids c new_uid new_uid new_uid)) euid_changes.

Definition sys_setgid (memory : bool) (new_gid : Z) : action ProtectedValues Z :=
  let* _ := require_id in
  if new_gid =? NO_ID then lift (Err EINVAL) else
  change_credentials memory (fun c =>
    if negb (new_gid =? m_gid c) && negb (new_gid =? m_egid c) && negb (is_superuser c)
    then Err EPERM else Ok (set_gids c new_gid new_gid new_gid)) egid_changes.

Definition keep (new old : Z) : Z := if new =? NO_ID then old else new.

Definition ok_uid (c : Credentials) (i : Z) : bool :=
  (i =? m_uid c) || (i =? m_euid c) || (i =? m_suid c).
Definition ok_gid (c : Credentials) (i : Z) : bool :=
  (i =? m_gid c) || (i =? m_egid c) || (i =? m_sgid c).

Definition sys_setreuid (memory : bool) (new_ruid new_euid : Z) : action ProtectedValues Z :=
  let* _ := require_id in
  change_credentials memory (fun c =>
    let new_ruid := keep new_ruid (m_uid c) in
    let new_euid := keep new_euid (m_euid c) in
    if negb (ok_uid c new_ruid) || negb (ok_uid c new_euid) then Err EPERM
    else if (new_ruid <? NO_ID) || (new_euid <? NO_ID) then Err EINVAL
    else Ok (set_uids c new_ruid new_euid (m_suid c))) euid_changes.

Definition sys_setresuid (memory : bool) (new_ruid new_euid new_suid : Z) : action ProtectedValues Z :=
  let* _ := require_id in
  change_credentials memory (fun c =>
    let new_ruid := keep new_ruid (m_uid c) in
    let new_euid := keep new_euid (m_euid c) in
    let new_suid := keep new_suid (m_suid c) in
    if (negb (ok_uid c new_ruid) || negb (ok_uid c new_euid) || negb (ok_uid c new_suid)) &&
       negb (is_superuser c)
    then Err EPERM else Ok (set_uids c new_ruid new_euid new_suid)) euid_changes.

Definition sys_setregid (memory : bool) (new_rgid new_egid : Z) : action ProtectedValues Z :=
  let* _ := require_id in
  change_credentials memory (fun c =>
    let new_rgid := keep new_rgid (m_gid c) in
    let new_egid := keep new_egid (m_egid c) in
    if negb (ok_gid c new_rgid) || negb (ok_gid c new_egid) then Err EPERM
    else Ok (set_gids c new_rgid new_egid (m_sgid c))) egid_changes.

Definition sys_setresgid (memory : bool) (new_rgid new_egid new_sgid : Z) : action ProtectedValues Z :=
  let* _ := require_id in
  change_credentials memory (fun c =>
    let new_rgid := keep new_rgid (m_gid c) in
    let new_egid := keep new_egid (m_egid c) in
    let new_sgid := keep new_sgid (m_sgid c) in
    if (negb (ok_gid c new_rgid) || negb (ok_gid c new_egid) || negb (ok_gid c new_sgid)) &&
       negb (is_superuser c)
    then Err EPERM else Ok (set_gids c new_rgid new_egid new_sgid)) egid_changes.

Definition NGROUPS_MAX : Z := 32.

(** The distinct groups of a list other than the group of the process, in the
    order [enumerate] gives the elements of the hash table. *)
Definition unique_extra_gids (enumerate : list Z -> list Z) (gid : Z) (gids : list Z) : list Z :=
  enumerate (remove_dups (filter (fun g => g <> gid) gids)).

(** [user_gids] is what can be read from the memory of the process. *)
Definition sys_setgroups (memory : bool) (enumerate : list Z -> list Z) (count : Z)
    (user_gids : outcome (list Z)) : action ProtectedValues Z :=
  let* _ := require_id in
  if NGROUPS_MAX <? count then lift (Err EINVAL) else
  change_credentials memory (fun c =>
    if negb (is_superuser c) then Err EPERM
    else if count =? 0 then Ok (set_extra_gids c [])
    else let! gids := user_gids in
         Ok (set_extra_gids c (unique_extra_gids enumerate (m_gid c) gids))) (fun _ _ => false).

(** ** The flags of [prctl] *)

Definition PR_SET_DUMPABLE : Z := 1.
Definition PR_GET_DUMPABLE : Z := 2.
Definition PR_SET_NO_TRANSITION_TO_EXECUTABLE_FROM_WRITABLE_PROT : Z := 10.
Definition PR_SET_JAILED_UNTIL_EXIT : Z := 11.
Definition PR_SET_JAILED_UNTIL_EXEC : Z := 12.

(** [other_option] stands for the options that read or change something else
    than the protected values (names, the address space, coredump metadata). *)
Definition sys_prctl (other_option : Z -> outcome Z) (option arg1 : Z) : action ProtectedValues Z :=
  fun s =>
  (if option =? PR_GET_DUMPABLE then ret (if dumpable s then 1 else 0)
   else if option =? PR_SET_DUMPABLE then
     if negb (arg1 =? 0) && negb (arg1 =? 1) then lift (Err EINVAL) else
     let* _ := modify (fun s => with_flags s (negb (arg1 =? 0))
                 (reject_transition_to_executable_from_writable_prot s) (jailed_until_exit s)
                 (jailed_until_exec s)) in ret 0
   else if option =? PR_SET_NO_TRANSITION_TO_EXECUTABLE_FROM_WRITABLE_PROT then
     let* _ := lift (require_promise s prot_exec) in
     let* _ := modify (fun s => with_flags s (dumpable s) true (jailed_until_exit s)
                 (jailed_until_exec s)) in ret 0
   else if option =? PR_SET_JAILED_UNTIL_EXIT then
     let* _ := lift (require_promise s proc) in
     let* _ := modify (fun s => with_flags s (dumpable s)
                 (reject_transition_to_executable_from_writable_prot s) true (jailed_until_exec s)) in
     ret 0
   else if option =? PR_SET_JAILED_UNTIL_EXEC then
     let* _ := lift (require_promise s proc) in
     let* _ := modify (fun s => with_flags s (dumpable s)
                 (reject_transition_to_executable_from_writable_prot s) (jailed_until_exit s) true) in
     ret 0
   else if (3 <=? option) && (option <=? 9) then lift (other_option option)
   else lift (Err EINVAL)) s.

(** ** Sequences of system calls *)

Inductive call : Type :=
| Pledge_call (promises_arg execpromises_arg : option string)
| Seteuid (memory : bool) (euid : Z)
| Setegid (memory : bool) (egid : Z)
| Setuid (memory : bool) (uid : Z)
| Setgid (memory : bool) (gid : Z)
| Setreuid (memory : bool) (ruid euid : Z)
| Setresuid (memory : bool) (ruid euid suid : Z)
| Setregid (memory : bool) (rgid egid : Z)
| Setresgid (memory : bool) (rgid egid sgid : Z)
| Setgroups (memory : bool) (enumerate : list Z -> list Z) (count : Z) (user_gids : outcome (list Z))
| Prctl (other_option : Z -> outcome Z) (option arg1 : Z).

Definition run_call (c : call) : action ProtectedValues Z :=
  match c with
  | Pledge_call p e => sys_pledge p e
  | Seteuid m e => sys_seteuid m e
  | Setegid m e => sys_setegid m e
  | Setuid m u => sys_setuid m u
  | Setgid m g => sys_setgid m g
  | Setreuid m r e => sys_setreuid m r e
  | Setresuid m r e s => sys_setresuid m r e s
  | Setregid m r e => sys_setregid m r e
  | Setresgid m r e s => sys_setresgid m r e s
  | Setgroups m en n g => sys_setgroups m en n g
  | Prctl f o a => sys_prctl f o a
  end.

(** The state after a program made the calls one after the other, whatever each
    of them returned. *)
Definition run_calls (cs : list call) (s : ProtectedValues) : ProtectedValues :=
  fold_left (fun s c => fst (run_call c s)) cs s.

(** ** Proofs *)

Definition uids (s : ProtectedValues) : list Z := [m_uid (creds s); m_euid (creds s); m_suid (creds s)].
Definition gids (s : ProtectedValues) : list Z := [m_gid (creds s); m_egid (creds s); m_sgid (creds s)].

(** What [change_credentials] can do to the state. *)
Lemma change_credentials_cases memory check drops s :
  fst (change_credentials memory check drops s) = s \/
  exists c d, check (creds s) = Ok c /\ fst (change_credentials memory check drops s) = with_credentials s c d.
Proof.
  unfold change_credentials, abind, gets, lift, modify, ret. simpl.
  destruct (check (creds s)) as [c| | |] eqn:E; simpl; auto. destruct memory; simpl; eauto.
Qed.

Lemma require_id_cases (k : unit -> action ProtectedValues Z) s :
  fst (abind require_id k s) = s \/ fst (abind require_id k s) = fst (k tt s).
Proof. unfold abind, require_id. destruct (require_promise s id) as [[]| | |]; auto. Qed.

(** A set of identities is only ever made smaller by a process that is not the
    superuser. *)
Definition identities_kept (s s' : ProtectedValues) : Prop :=
  (forall i, i ∈ uids s' -> i ∈ uids s) /\ (forall i, i ∈ gids s' -> i ∈ gids s) /\
  m_extra_gids (creds s') = m_extra_gids (creds s).

Lemma identities_kept_refl s : identities_kept s s.
Proof. done. Qed.

Lemma change_identities memory check drops s :
  (forall c, check (creds s) = Ok c ->
     (forall i, i ∈ [m_uid c; m_euid c; m_suid c] -> i ∈ uids s) /\
     (forall i, i ∈ [m_gid c; m_egid c; m_sgid c] -> i ∈ gids s) /\
     m_extra_gids c = m_extra_gids (creds s)) ->
  identities_kept s (fst (change_credentials memory check drops s)).
Proof.
  intros H. destruct (change_credentials_cases memory check drops s) as [->|(c & d & E & ->)]; [done|].
  exact (H c E).
Qed.

Lemma checked_identities (k : unit -> action ProtectedValues Z) s :
  identities_kept s (fst (k tt s)) -> identities_kept s (fst (abind require_id k s)).
Proof. intros H. by destruct (require_id_cases k s) as [->| ->]. Qed.

(** Promises of a process that has made any are only ever given up. *)
Definition promises_kept (s s' : ProtectedValues) : Prop :=
  (has_promises s = true -> has_promises s' = true /\
     forall p, has_promised s' p = true -> has_promised s p = true) /\
  (has_execpromises s = true -> has_execpromises s' = true /\
     forall p, Z.testbit (execpromises s') (pledge_number p) = true ->
       Z.testbit (execpromises s) (pledge_number p) = true).

Lemma pledge_number_range p : 0 <= pledge_number p < 28.
Proof. destruct p; simpl; lia. Qed.

Lemma pledge_bit_pow p : pledge_bit p = 2 ^ pledge_number p.
Proof. by destruct p. Qed.

Lemma has_promised_bit s p : has_promised s p = Z.testbit (promises s) (pledge_number p).
Proof.
  unfold has_promised. rewrite pledge_bit_pow. apply land_zero_bit. pose proof (pledge_number_range p). lia.
Qed.

(** What [restrict_promises] lets through was promised before. *)
Lemma restrict_promises_ok s prov has old new r p :
  restrict_promises s prov has old new = Ok r -> prov = true -> has = true ->
  Z.testbit r (pledge_number p) = true -> Z.testbit old (pledge_number p) = true.
Proof.
  intros H -> ->. pose proof (pledge_number_range p) as Hp. unfold restrict_promises in H. simpl in H.
  destruct (Z.eqb_spec (Z.land new (u32 (Z.lnot old))) 0) as [E|E]; simpl in H.
  - injection H as <-. intros Hn. destruct (Z.testbit old (pledge_number p)) eqn:Eo; [done|].
    assert (Z.testbit (Z.land new (u32 (Z.lnot old))) (pledge_number p) = true) as Hb.
    { rewrite Z.land_spec, Hn. unfold u32, wrap. rewrite Z.mod_pow2_bits_low, Z.lnot_spec, Eo by lia. done. }
    by rewrite E, Z.bits_0 in Hb.
  - destruct (_ =? 0); [discriminate|]. injection H as <-. rewrite Z.land_spec. intros [_ ?]%andb_prop. done.
Qed.

(** What [pledge] can do to the state. *)
Lemma pledge_cases pa ea s :
  fst (sys_pledge pa ea s) = s \/
  exists ps eps np nep,
    restrict_promises s (provided ps) (has_promises s) (promises s) np =
      Ok (if provided ps then promises (fst (sys_pledge pa ea s)) else np) /\
    restrict_promises s (provided eps) (has_execpromises s) (execpromises s) nep =
      Ok (if provided eps then execpromises (fst (sys_pledge pa ea s)) else nep) /\
    fst (sys_pledge pa ea s) = with_promises s (provided ps || has_promises s)
      (if provided ps then promises (fst (sys_pledge pa ea s)) else promises s)
      (provided eps || has_execpromises s)
      (if provided eps then execpromises (fst (sys_pledge pa ea s)) else execpromises s).
Proof.
  unfold sys_pledge, abind, lift, modify, ret.
  destruct (provided_string pa) as [ps| | |]; auto. destruct (provided_string ea) as [eps| | |]; auto.
  destruct (parse_provided ps) as [np| | |]; auto. destruct (parse_provided eps) as [nep| | |]; auto.
  destruct (restrict_promises s (provided ps) _ _ np) as [np'| | |] eqn:E1; auto.
  destruct (restrict_promises s (provided eps) _ _ nep) as [nep'| | |] eqn:E2; auto.
  right. exists ps, eps, np, nep. simpl. unfold restrict_promises in *.
  destruct (provided ps), (provided eps); simpl in *; auto.
Qed.

Lemma pledge_promises pa ea s : promises_kept s (fst (sys_pledge pa ea s)).
Proof.
  destruct (pledge_cases pa ea s) as [->|(ps & eps & np & nep & E1 & E2 & E)]; [done|].
  set (s' := fst (sys_pledge pa ea s)) in *. clearbody s'. split; intros Hh; rewrite Hh in *.
  - split; [rewrite E; simpl; apply orb_true_r|]. intros p. rewrite !has_promised_bit, E. simpl.
    destruct (provided ps) eqn:Ep; [|done]. by apply (restrict_promises_ok _ _ _ _ _ _ _ E1).
  - split; [rewrite E; simpl; apply orb_true_r|]. intros p. rewrite E. simpl.
    destruct (provided eps) eqn:Ep; [|done]. by apply (restrict_promises_ok _ _ _ _ _ _ _ E2).
Qed.

Lemma pledge_identities pa ea s : identities_kept s (fst (sys_pledge pa ea s)).
Proof.
  destruct (pledge_cases pa ea s) as [->|(ps & eps & np & nep & _ & _ & ->)]; done.
Qed.

Lemma prctl_cases f o a s :
  exists d r ue ux, fst (sys_prctl f o a s) = with_flags s d r ue ux /\
    (reject_transition_to_executable_from_writable_prot s = true -> r = true) /\
    (jailed_until_exit s = true -> ue = true).
Proof.
  assert (s = with_flags s (dumpable s) (reject_transition_to_executable_from_writable_prot s)
    (jailed_until_exit s) (jailed_until_exec s)) as Es by (by destruct s).
  unfold sys_prctl. repeat (case_match; simpl); unfold abind, lift, modify, ret; simpl;
    repeat (case_match; simpl); eauto 10.
Qed.

Lemma ok_uid_in s i : ok_uid (creds s) i = true <-> i ∈ uids s.
Proof.
  unfold ok_uid, uids. rewrite !orb_true_iff, !Z.eqb_eq, !elem_of_cons, elem_of_nil. tauto.
Qed.

Lemma ok_gid_in s i : ok_gid (creds s) i = true <-> i ∈ gids s.
Proof.
  unfold ok_gid, gids. rewrite !orb_true_iff, !Z.eqb_eq, !elem_of_cons, elem_of_nil. tauto.
Qed.

Lemma own_ids s :
  m_uid (creds s) ∈ uids s /\ m_euid (creds s) ∈ uids s /\ m_suid (creds s) ∈ uids s /\
  m_gid (creds s) ∈ gids s /\ m_egid (creds s) ∈ gids s /\ m_sgid (creds s) ∈ gids s.
Proof. unfold uids, gids. set_solver. Qed.

(** The identities a check that passed lets a process have. *)
Ltac identity_step s Hsu :=
  apply checked_identities; try (case_match; [done|]); apply change_identities; intros c Hc;
  cbv beta iota zeta in Hc; rewrite ?Hsu, ?andb_true_r in Hc;
  repeat match type of Hc with
  | (if ?b then _ else _) = _ => let E := fresh "E" in destruct b eqn:E; try discriminate Hc
  end;
  injection Hc as <-; pose proof (own_ids s); destruct_and!; simpl;
  repeat match goal with
  | E : (_ || _)%bool = false |- _ => apply orb_false_iff in E as [? ?]
  | E : (_ && _)%bool = false |- _ => apply andb_false_iff in E as [?|?]
  | E : negb _ = false |- _ => apply negb_false_iff in E
  | E : (_ =? _) = true |- _ => apply Z.eqb_eq in E; subst
  | E : ok_uid _ _ = true |- _ => apply ok_uid_in in E
  | E : ok_gid _ _ = true |- _ => apply ok_gid_in in E
  end;
  (split; [|split]); try done; intros i; rewrite !elem_of_cons, elem_of_nil; intros Hi;
  destruct_or! Hi; subst; done.

Lemma identities_step c s :
  0 ∉ uids s -> identities_kept s (fst (run_call c s)).
Proof.
  intros H0. assert (is_superuser (creds s) = false) as Hsu
    by (apply Z.eqb_neq; unfold uids in H0; set_solver).
  destruct c; simpl; [apply pledge_identities| | | | | | | | | |].
  1-8: identity_step s Hsu.
  - apply checked_identities. case_match; [done|]. apply change_identities. intros c Hc. by rewrite Hsu in Hc.
  - by destruct (prctl_cases other_option option arg1 s) as (d & r & ue & ux & -> & _).
Qed.

Lemma credentials_promises memory check drops s :
  promises_kept s (fst (change_credentials memory check drops s)).
Proof. by destruct (change_credentials_cases memory check drops s) as [->|(c & d & _ & ->)]. Qed.

Lemma checked_promises (k : unit -> action ProtectedValues Z) s :
  promises_kept s (fst (k tt s)) -> promises_kept s (fst (abind require_id k s)).
Proof. intros H. by destruct (require_id_cases k s) as [->| ->]. Qed.

Lemma promises_step c s : promises_kept s (fst (run_call c s)).
Proof.
  destruct c; simpl; [apply pledge_promises|..].
  1-9: apply checked_promises; try (case_match; [done|]); apply credentials_promises.
  by destruct (prctl_cases other_option option arg1 s) as (d & r & ue & ux & -> & _).
Qed.

(** None of the calls moves the process to another session. *)
Lemma session_step c s : m_sid (creds (fst (run_call c s))) = m_sid (creds s).
Proof.
  assert (H : forall memory check drops (k : unit -> action ProtectedValues Z),
    (forall c, check (creds s) = Ok c -> m_sid c = m_sid (creds s)) ->
    k tt s = (s, Err EINVAL) \/ k tt s = change_credentials memory check drops s ->
    m_sid (creds (fst (abind require_id k s))) = m_sid (creds s)).
  { intros memory check drops k Hc Hk. destruct (require_id_cases k s) as [->| ->]; [done|].
    destruct Hk as [->| ->]; [done|].
    destruct (change_credentials_cases memory check drops s) as [->|(c' & d & E & ->)]; [done|].
    simpl. by apply Hc. }
  destruct c; simpl.
  1: by destruct (pledge_cases promises_arg execpromises_arg s) as [->|(ps & eps & np & nep & _ & _ & ->)].
  1-8: (eapply H; [|try (case_match; [by left|]); by right]); intros c' Hc; simpl in Hc;
    repeat case_match; by simplify_eq.
  - eapply H; [|case_match; [by left|by right]]. intros c' Hc. simpl in Hc. unfold bind in Hc.
    repeat case_match; by simplify_eq.
  - by destruct (prctl_cases other_option option arg1 s) as (d & r & ue & ux & -> & _).
Qed.

Lemma identities_kept_trans s1 s2 s3 :
  identities_kept s1 s2 -> identities_kept s2 s3 -> identities_kept s1 s3.
Proof. intros (? & ? & ?) (? & ? & ?). split; [auto|]. split; [auto|congruence]. Qed.

Lemma promises_kept_trans s1 s2 s3 : promises_kept s1 s2 -> promises_kept s2 s3 -> promises_kept s1 s3.
Proof.
  intros [H1 H1'] [H2 H2']. split.
  - intros Hp. destruct (H1 Hp) as [Hp2 ?]. destruct (H2 Hp2). auto.
  - intros Hp. destruct (H1' Hp) as [Hp2 ?]. destruct (H2' Hp2). auto.
Qed.

Lemma run_calls_kept cs s :
  promises_kept s (run_calls cs s) /\ (0 ∉ uids s -> identities_kept s (run_calls cs s)).
Proof.
  unfold run_calls. revert s. induction cs as [|c cs IH]; intros s; [done|]. simpl.
  destruct (IH (fst (run_call c s))) as [IH1 IH2]. split.
  - eapply promises_kept_trans; [apply promises_step|done].
  - intros H0. pose proof (identities_step c s H0) as Hs. eapply identities_kept_trans; [done|].
    apply IH2. intros Hin. apply H0. by apply Hs.
Qed.

(** The mask has the bit of a promise exactly when one of the parts names it. *)
Lemma pledge_named_iff part p :
  pledge_named all_promises part = Some p <-> (p, part) ∈ all_promises.
Proof.
  unfold all_promises. simpl. split.
  - repeat case_match; intros [= <-]; repeat match goal with
      | E : String.eqb _ _ = true |- _ => apply String.eqb_eq in E as -> end; set_solver.
  - intros Hin. repeat (apply elem_of_cons in Hin as [[= -> ->]|Hin]; [done|]).
    by apply not_elem_of_nil in Hin.
Qed.

Lemma parse_parts_ok parts mask valid p :
  let (mask', valid') := parse_parts parts mask valid in
  (valid' = true <-> valid = true /\ Forall (fun part => exists q, (q, part) ∈ all_promises) parts) /\
  (Z.testbit mask' (pledge_number p) = true <->
     Z.testbit mask (pledge_number p) = true \/ exists part, part ∈ parts /\ (p, part) ∈ all_promises).
Proof.
  revert mask valid. induction parts as [|part parts IH]; intros mask valid; cbn [parse_parts].
  { split; [|split; [by left|intros [?|(x & ?%not_elem_of_nil & _)]; done]].
    split; [done|by intros []]. }
  destruct (pledge_named all_promises part) as [q|] eqn:E.
  - apply pledge_named_iff in E. specialize (IH (Z.lor mask (pledge_bit q)) valid).
    destruct (parse_parts parts _ _) as [mask' valid']. destruct IH as [IH1 IH2].
    rewrite IH1, IH2, Forall_cons. split.
    { split; [intros [? ?]; split; [done|split; [by exists q|done]]|by intros (? & _ & ?)]. }
    rewrite Z.lor_spec, orb_true_iff, pledge_bit_pow, Z.pow2_bits_eqb, Z.eqb_eq
      by apply pledge_number_range.
    assert (pledge_number q = pledge_number p <-> q = p) as -> by (split; [by destruct p, q|by intros ->]).
    split.
    + intros [[?|<-]|(x & ? & ?)]; [by left|right; exists part; split; [by left|done]|].
      right. exists x. split; [by right|done].
    + intros [?|(x & [->|?]%elem_of_cons & Hp)]; [by left; left| |right; by exists x]. left. right.
      apply pledge_named_iff in Hp, E. congruence.
  - specialize (IH mask false). destruct (parse_parts parts _ _) as [mask' valid']. destruct IH as [IH1 IH2].
    assert (forall r, (r, part) ∉ all_promises) as Hn.
    { intros r Hr. apply pledge_named_iff in Hr. congruence. }
    rewrite IH1, IH2, Forall_cons. split.
    { split; [by intros [? _]|]. intros (_ & (r & Hr) & _). by destruct (Hn r). }
    split; [intros [?|(x & ? & ?)]; [by left|right; exists x; split; [by right|done]]|].
    intros [?|(x & [->|?]%elem_of_cons & Hp)]; [by left|by destruct (Hn p)|right; by exists x].
Qed.

(** ** Properties *)


(** A user process with the group and a saved identity of another user. *)
Definition sample_process : ProtectedValues :=
  protected_values (credentials 100 100 100 100 101 100 [10; 20] 5 5) true true
    (Z.lor (pledge_bit stdio) (pledge_bit id)) false 0 false false false.




(** the parser of promise strings accepts exactly the lists of promise names, and the
    mask it returns has exactly the bits of the promises that are named. *)
Theorem parse_pledge_exact (spec : string) (p : Pledge) :
  let parts := pledge_parts spec in
  let (mask, valid) := parse_pledge spec in
  (valid = true <-> Forall (fun part => exists q, (q, part) ∈ all_promises) parts) /\
  (Z.testbit mask (pledge_number p) = true <-> exists part, part ∈ parts /\ (p, part) ∈ all_promises).
Proof.
  cbv zeta. unfold parse_pledge. pose proof (parse_parts_ok (pledge_parts spec) 0 true p) as H.
  destruct (parse_parts _ _ _) as [mask valid]. destruct H as [H1 H2]. rewrite H1, H2, Z.bits_0.
  split; [by split; [intros []|]|]. split; [by intros [?|?]|by right].
Qed.

(** [setreuid] never succeeds.  Whatever it is asked for, the comparison with
    [(uid_t)-1] refuses every identity that passed the permission check. *)
Theorem setreuid_never_succeeds (memory : bool) (new_ruid new_euid r : Z) (s : ProtectedValues) :
  Forall (fun i => i < NO_ID) (uids s) -> snd (sys_setreuid memory new_ruid new_euid s) <> Ok r.
Proof.
  intros Hlt. rewrite Forall_forall in Hlt. unfold sys_setreuid, abind, require_id.
  destruct (require_promise s id) as [[]| | |]; simpl; try discriminate.
  unfold change_credentials, abind, gets, lift, modify, ret.
  set (a := keep new_ruid _). set (b := keep new_euid _).
  destruct (ok_uid (creds s) a) eqn:Ea; simpl; [|discriminate].
  destruct (ok_uid (creds s) b) eqn:Eb; simpl; [|discriminate].
  apply ok_uid_in, Hlt in Ea. by rewrite (proj2 (Z.ltb_lt _ _) Ea).
Qed.

Lemma setreuid_never_succeeds_witness :
  snd (sys_setreuid true 100 101 sample_process) <> Ok 0.
Proof.
  apply setreuid_never_succeeds. unfold uids. simpl.
  repeat (apply Forall_cons; split; [unfold NO_ID; lia|]). by apply Forall_nil.
Defined.

End Process.
