(* ===== verification/Sessions.v ===== *)
(** Processes, process groups and sessions: the process lists of
    [Kernel/Tasks/Process.cpp], the groups of [Kernel/Tasks/ProcessGroup.cpp],
    the system calls of [Kernel/Syscalls/setpgid.cpp], [kill.cpp], [disown.cpp],
    what [fork.cpp], [posix_spawn.cpp] and [execve.cpp] do to the protected
    values of a process, and the foreground group of a terminal
    ([Kernel/Devices/TTY/TTY.cpp]). *)

From S2P Require Import Prelude Process.

Module Sessions.
#[local] Open Scope Z_scope.

(** ** State *)

Inductive State : Type := Running | Dying | Dead.

#[global] Instance State_eq_dec : EqDecision State.
Proof. solve_decision. Defined.

(** A process; [process_group] is the number of the group it refers to,
    [m_threads] are the numbers of its threads. *)
Record t : Type := mk_process {
  m_pid : Z;
  m_ppid : Z;
  values : Process.ProtectedValues;
  process_group : option Z;
  m_tty : option Z;
  m_is_kernel_process : bool;
  m_state : State;
  m_threads : list Z;
  m_scoped_process_list : option Z;
  m_exec_scoped_process_list : option Z
}.

(** A terminal: the group in its foreground, a weak reference that is null once
    the group is gone, and [m_original_process_parent]. *)
Record TTY : Type := terminal {
  m_pg : option Z;
  m_original_process_parent : option Z
}.

(** The process objects, each under the number it was created with (its number
    changes when a thread other than the first executes a program); the order of [Process::all_instances], of the
    scoped lists and of [ProcessGroup::all_instances]; the groups [waitid]
    refers to while it waits; the terminals; the signals sent so far, each with
    receiver and sender. *)
Record sys : Type := system {
  processes : gmap Z t;
  all_instances : list Z;
  attached_processes : gmap Z (list Z);
  groups : list Z;
  waited_groups : list Z;
  terminals : gmap Z TTY;
  next_pid : Z;
  sent : list (Z * Z * option Z)
}.

Definition set_processes (m : gmap Z t) (s : sys) : sys :=
  system m (all_instances s) (attached_processes s) (groups s) (waited_groups s) (terminals s)
    (next_pid s) (sent s).
Definition set_all_instances (l : list Z) (s : sys) : sys :=
  system (processes s) l (attached_processes s) (groups s) (waited_groups s) (terminals s)
    (next_pid s) (sent s).
Definition set_attached (m : gmap Z (list Z)) (s : sys) : sys :=
  system (processes s) (all_instances s) m (groups s) (waited_groups s) (terminals s)
    (next_pid s) (sent s).
Definition set_groups (l : list Z) (s : sys) : sys :=
  system (processes s) (all_instances s) (attached_processes s) l (waited_groups s) (terminals s)
    (next_pid s) (sent s).
Definition set_waited (l : list Z) (s : sys) : sys :=
  system (processes s) (all_instances s) (attached_processes s) (groups s) l (terminals s)
    (next_pid s) (sent s).
Definition set_terminals (m : gmap Z TTY) (s : sys) : sys :=
  system (processes s) (all_instances s) (attached_processes s) (groups s) (waited_groups s) m
    (next_pid s) (sent s).
Definition set_next_pid (n : Z) (s : sys) : sys :=
  system (processes s) (all_instances s) (attached_processes s) (groups s) (waited_groups s)
    (terminals s) n (sent s).
Definition set_sent (l : list (Z * Z * option Z)) (s : sys) : sys :=
  system (processes s) (all_instances s) (attached_processes s) (groups s) (waited_groups s)
    (terminals s) (next_pid s) l.

Definition credentials_of (p : t) : Process.Credentials := Process.creds (values p).
Definition sid (p : t) : Z := Process.m_sid (credentials_of p).
Definition is_session_leader (p : t) : bool := sid p =? m_pid p.
(** [Process::pgid()]: the number of the group, zero without one. *)
Definition pgid (p : t) : Z := match process_group p with Some g => g | None => 0 end.
Definition is_dead (p : t) : bool := bool_decide (m_state p = Dead).

Definition with_values (v : Process.ProtectedValues) (p : t) : t :=
  mk_process (m_pid p) (m_ppid p) v (process_group p) (m_tty p) (m_is_kernel_process p) (m_state p)
    (m_threads p) (m_scoped_process_list p) (m_exec_scoped_process_list p).
Definition with_ppid (q : Z) (p : t) : t :=
  mk_process (m_pid p) q (values p) (process_group p) (m_tty p) (m_is_kernel_process p) (m_state p)
    (m_threads p) (m_scoped_process_list p) (m_exec_scoped_process_list p).
Definition with_group (g : option Z) (p : t) : t :=
  mk_process (m_pid p) (m_ppid p) (values p) g (m_tty p) (m_is_kernel_process p) (m_state p)
    (m_threads p) (m_scoped_process_list p) (m_exec_scoped_process_list p).
Definition with_tty (o : option Z) (p : t) : t :=
  mk_process (m_pid p) (m_ppid p) (values p) (process_group p) o (m_is_kernel_process p) (m_state p)
    (m_threads p) (m_scoped_process_list p) (m_exec_scoped_process_list p).
Definition with_state (st : State) (p : t) : t :=
  mk_process (m_pid p) (m_ppid p) (values p) (process_group p) (m_tty p) (m_is_kernel_process p) st
    (m_threads p) (m_scoped_process_list p) (m_exec_scoped_process_list p).
Definition with_threads (i : Z) (l : list Z) (p : t) : t :=
  mk_process i (m_ppid p) (values p) (process_group p) (m_tty p) (m_is_kernel_process p) (m_state p)
    l (m_scoped_process_list p) (m_exec_scoped_process_list p).
Definition with_lists (l after_exec : option Z) (p : t) : t :=
  mk_process (m_pid p) (m_ppid p) (values p) (process_group p) (m_tty p) (m_is_kernel_process p)
    (m_state p) (m_threads p) l after_exec.

(** [Credentials::create] with another session and group. *)
Definition with_session (sid pgid : Z) (c : Process.Credentials) : Process.Credentials :=
  Process.credentials (Process.m_uid c) (Process.m_gid c) (Process.m_euid c) (Process.m_egid c)
    (Process.m_suid c) (Process.m_sgid c) (Process.m_extra_gids c) sid pgid.

(** Assigning to [protected_data.credentials] and to nothing else. *)
Definition assign_credentials (c : Process.Credentials) (v : Process.ProtectedValues)
    : Process.ProtectedValues := Process.with_credentials v c (Process.dumpable v).

Definition update (i : Z) (f : t -> t) (s : sys) : sys := set_processes (alter f i (processes s)) s.

(** ** Process lists *)

(** The list a process sees: the scoped list it is attached to, or all. *)
Definition visible_keys (me : t) (s : sys) : list Z :=
  match m_scoped_process_list me with
  | Some l => default [] (attached_processes s !! l)
  | None => all_instances s
  end.

Definition listed (ks : list Z) (s : sys) : list (Z * t) :=
  omap (fun k => pair k <$> processes s !! k) ks.

Definition visible (me : t) (s : sys) : list (Z * t) := listed (visible_keys me s) s.

Fixpoint find_pid (i : Z) (ps : list (Z * t)) : option (Z * t) :=
  match ps with
  | [] => None
  | x :: ps => if m_pid (snd x) =? i then Some x else find_pid i ps
  end.

Definition from_pid_in_same_process_list (me : t) (i : Z) (s : sys) : option (Z * t) :=
  find_pid i (visible me s).

Definition from_pid_ignoring_process_lists (i : Z) (s : sys) : option (Z * t) :=
  find_pid i (listed (all_instances s) s).

(** A loop that stops at the first error of its body.  The bodies below do not
    change the processes the loop runs over. *)
Fixpoint for_each {A : Type} (callback : Z * t -> action A unit) (ps : list (Z * t)) : action A unit :=
  match ps with
  | [] => ret tt
  | x :: ps => let* _ := callback x in for_each callback ps
  end.

Definition for_each_in_same_process_list {A : Type} (me : t) (s : sys)
    (callback : Z * t -> action A unit) : action A unit :=
  for_each callback (visible me s).

Definition for_each_in_pgrp_in_same_process_list {A : Type} (me : t) (g : Z) (s : sys)
    (callback : Z * t -> action A unit) : action A unit :=
  for_each (fun x => if negb (is_dead (snd x)) && (pgid (snd x) =? g) then callback x else ret tt)
    (visible me s).

(** The session of a group: that of the last process found in it, or -1. *)
Definition get_sid_from_pgid (me : t) (g : Z) (s : sys) : Z :=
  fst (for_each_in_pgrp_in_same_process_list me g s (fun x => modify (fun _ => sid (snd x))) (-1)).

(** [Atomic<pid_t>::fetch_add] *)
Definition allocate_pid : action sys Z := fun s =>
  (set_next_pid ((next_pid s + 1 + 2 ^ 31) mod 2 ^ 32 - 2 ^ 31) s, Ok (next_pid s)).

Definition register_new (i : Z) (s : sys) : sys := set_all_instances (i :: all_instances s) s.

(** ** Process groups *)

Definition refers_to (g : Z) (s : sys) : bool :=
  existsb (fun x => bool_decide (process_group (snd x) = Some g)) (map_to_list (processes s)) ||
  bool_decide (g ∈ waited_groups s).

(** [ListedRefCounted::unref]: a group nothing refers to leaves the list and
    the weak references to it become null. *)
Definition unref_group (g : Z) (s : sys) : sys :=
  if refers_to g s then s
  else set_terminals
         (fmap (fun y => if bool_decide (m_pg y = Some g)
                         then terminal None (m_original_process_parent y) else y) (terminals s))
         (set_groups (filter (fun h => h <> g) (groups s)) s).

Definition unref (o : option Z) (s : sys) : sys :=
  match o with Some g => unref_group g s | None => s end.

Definition create_if_unused_pgid (memory : bool) (g : Z) : action sys Z := fun s =>
  if bool_decide (g ∈ groups s) then (s, Err EPERM)
  else if negb memory then (s, Err ENOMEM)
  else (set_groups (g :: groups s) s, Ok g).

Definition find_or_create (memory : bool) (g : Z) : action sys Z := fun s =>
  if bool_decide (g ∈ groups s) then (s, Ok g)
  else if negb memory then (s, Err ENOMEM)
  else (set_groups (g :: groups s) s, Ok g).

Definition from_pgid (g : Z) (s : sys) : option Z :=
  if bool_decide (g ∈ groups s) then Some g else None.

(** [protected_data.process_group = move(process_group)]: the group the process
    was in loses a reference. *)
Definition assign_group (i g : Z) (s : sys) : sys :=
  let old := from_option process_group None (processes s !! i) in
  unref old (update i (with_group (Some g)) s).

(** ** System calls on sessions and groups

    [i] is the calling process; [memory] says whether an allocation succeeds. *)

Definition self (i : Z) : action sys t := fun s =>
  match processes s !! i with Some p => (s, Ok p) | None => (s, Undefined) end.

Definition require (i : Z) (promise : Process.Pledge) : action sys unit :=
  let* me := self i in lift (Process.require_promise (values me) promise).

Definition sys_getsid (i pid : Z) : action sys Z :=
  let* _ := require i Process.stdio in
  let* me := self i in
  if (pid =? 0) || (pid =? m_pid me) then ret (sid me) else
  let* peer := gets (from_pid_in_same_process_list me pid) in
  match peer with
  | None => lift (Err ESRCH)
  | Some (_, peer) => if negb (sid me =? sid peer) then lift (Err EPERM) else ret (sid peer)
  end.

Definition sys_setsid (i : Z) (memory_for_group memory : bool) : action sys Z :=
  let* _ := require i Process.proc in
  let* me := self i in
  let* process_group := create_if_unused_pgid memory_for_group (m_pid me) in
  let new_sid := m_pid me in
  if negb memory then
    let* _ := modify (unref_group process_group) in lift (Err ENOMEM)
  else
    let credentials := credentials_of me in
    let new_credentials := with_session new_sid (Process.m_pgid credentials) credentials in
    let* _ := modify (update i (with_tty None)) in
    let* _ := modify (assign_group i process_group) in
    let* _ := modify (update i (fun p => with_values (assign_credentials new_credentials (values p)) p)) in
    ret new_sid.

Definition sys_getpgid (i pid : Z) : action sys Z :=
  let* _ := require i Process.stdio in
  let* me := self i in
  if pid =? 0 then ret (pgid me) else
  let* process := gets (from_pid_in_same_process_list me pid) in
  match process with
  | None => lift (Err ESRCH)
  | Some (_, p) => ret (pgid p)
  end.

Definition sys_getpgrp (i : Z) : action sys Z :=
  let* _ := require i Process.stdio in
  let* me := self i in ret (pgid me).

Definition sys_setpgid (i specified_pid specified_pgid : Z) (memory_for_group memory : bool)
    : action sys Z :=
  let* _ := require i Process.proc in
  let* me := self i in
  let pid := if negb (specified_pid =? 0) then specified_pid else m_pid me in
  if specified_pgid <? 0 then lift (Err EINVAL) else
  let* process := gets (from_pid_in_same_process_list me pid) in
  match process with
  | None => lift (Err ESRCH)
  | Some (k, p) =>
      if negb (k =? i) && negb (m_ppid p =? m_pid me) then lift (Err ESRCH) else
      if is_session_leader p then lift (Err EPERM) else
      if (m_ppid p =? m_pid me) && negb (sid p =? sid me) then lift (Err EPERM) else
      let new_pgid := if negb (specified_pgid =? 0) then specified_pgid else m_pid p in
      let current_sid := sid me in
      let* new_sid := gets (get_sid_from_pgid me new_pgid) in
      if negb (new_sid =? -1) && negb (current_sid =? new_sid) then lift (Err EPERM) else
      if (new_sid =? -1) && negb (new_pgid =? m_pid p) then lift (Err EPERM) else
      let* process_group := find_or_create memory_for_group new_pgid in
      if negb memory then
        let* _ := modify (unref_group process_group) in lift (Err ENOMEM)
      else
        let* _ := modify (update k (fun p =>
                    with_values (assign_credentials
                      (with_session (sid p) new_pgid (credentials_of p)) (values p)) p)) in
        let* _ := modify (assign_group k process_group) in
        ret 0
  end.

(** The loop of [sys$get_root_session_id]; [None] is a loop that is still
    running after [fuel] rounds. *)
Fixpoint root_session (fuel : nat) (me : t) (sid_ : Z) (s : sys) : option (outcome Z) :=
  match fuel with
  | O => None
  | S fuel =>
      match from_pid_in_same_process_list me sid_ s with
      | None => Some (Err ESRCH)
      | Some (_, sid_process) =>
          match from_pid_in_same_process_list me (m_ppid sid_process) s with
          | None => Some (Err ESRCH)
          | Some (_, parent_process) =>
              let parent_sid := sid parent_process in
              if parent_sid =? 0 then Some (Ok sid_) else root_session fuel me parent_sid s
          end
      end
  end.

Definition sys_get_root_session_id (fuel : nat) (i force_sid : Z) (s : sys) : option (outcome Z) :=
  match require i Process.stdio s with
  | (_, Ok _) =>
      match processes s !! i with
      | Some me =>
          let sid_ := if force_sid =? -1 then sid me else force_sid in
          if sid_ =? 0 then Some (Ok 0) else root_session fuel me sid_ s
      | None => Some Undefined
      end
  | (_, Err e) => Some (Err e)
  | (_, Panic) => Some Panic
  | (_, Undefined) => Some Undefined
  end.

(** The waiter it then wakes is not part of this state. *)
Definition sys_disown (i pid : Z) : action sys Z :=
  let* _ := require i Process.proc in
  let* me := self i in
  let* process := gets (from_pid_in_same_process_list me pid) in
  match process with
  | None => lift (Err ESRCH)
  | Some (k, p) =>
      if negb (m_ppid p =? m_pid me) then lift (Err ECHILD) else
      let* _ := modify (update k (with_ppid 0)) in ret 0
  end.

(** ** Signals

    [sent] records the calls of [Thread::send_signal], each with the process of
    the thread, the signal and the sender. *)

Abbreviation SIGCONT := 18%Z (only parsing).

Definition deliver (p : t) (signal : Z) (sender : option Z) (s : sys) : sys :=
  set_sent (sent s ++ [(m_pid p, signal, sender)]) s.

(** [Process::send_signal]: to the first thread, or else to any other. *)
Definition send_signal (p : t) (signal : Z) (sender : option Z) : action sys unit :=
  if m_is_kernel_process p then lift Panic
  else match m_threads p with
       | [] => lift (Err ESRCH)
       | _ => modify (deliver p signal sender)
       end.

Definition can_send_signal (me p : t) (signal : Z) : bool :=
  Process.is_superuser (credentials_of me)
  || (Process.m_euid (credentials_of me) =? Process.m_uid (credentials_of p))
  || (Process.m_uid (credentials_of me) =? Process.m_uid (credentials_of p))
  || ((signal =? SIGCONT) &&
      (Process.m_pgid (credentials_of me) =? Process.m_pgid (credentials_of p))).

Definition do_kill (me p : t) (signal : Z) : action sys unit :=
  if negb (can_send_signal me p signal) then lift (Err EPERM) else
  if m_is_kernel_process p then lift (Err EPERM) else
  if negb (signal =? 0) then send_signal p signal (Some (m_pid me)) else ret tt.

(** [ignored] is [should_ignore_signal] of the calling thread. *)
Definition do_killself (ignored : Z -> bool) (me : t) (signal : Z) : action sys unit :=
  if signal =? 0 then ret tt else
  if negb (ignored signal) then modify (deliver me signal (Some (m_pid me))) else ret tt.

(** The variables the loops of [do_killpg] and [do_killall] update. *)
Record tally : Type := tallied {
  group_was_empty : bool;
  any_succeeded : bool;
  error : outcome unit;
  reached : sys
}.

(** [res = ...; if (!res.is_error()) any_succeeded = true; else error = move(res);] *)
Definition attempt (m : action sys unit) : action tally unit := fun a =>
  match m (reached a) with
  | (s, Ok _) => (tallied false true (error a) s, Ok tt)
  | (s, Err e) => (tallied false (any_succeeded a) (Err e) s, Ok tt)
  | (s, Panic) => (tallied false (any_succeeded a) (error a) s, Panic)
  | (s, Undefined) => (tallied false (any_succeeded a) (error a) s, Undefined)
  end.

Definition conclude (empty_is_error : bool) (loop : action tally unit) : action sys unit := fun s =>
  match loop (tallied true false (Ok tt) s) with
  | (a, Ok _) =>
      (reached a,
       if empty_is_error && group_was_empty a then Err ESRCH
       else if any_succeeded a then Ok tt else error a)
  | (a, Err e) => (reached a, Err e)
  | (a, Panic) => (reached a, Panic)
  | (a, Undefined) => (reached a, Undefined)
  end.

Definition do_killpg (me : t) (pgrp signal : Z) : action sys unit := fun s =>
  if negb (0 <=? pgrp) then (s, Panic) else
  let pgrp := if pgrp =? 0 then pgid me else pgrp in
  conclude true (for_each_in_pgrp_in_same_process_list me pgrp s
    (fun x => attempt (do_kill me (snd x) signal))) s.

Definition do_killall (ignored : Z -> bool) (me : t) (signal : Z) : action sys unit := fun s =>
  conclude false (for_each_in_same_process_list me s (fun x =>
    attempt (if m_pid (snd x) =? m_pid me then do_killself ignored me signal
             else do_kill me (snd x) signal))) s.

Definition sys_kill (ignored : Z -> bool) (i pid_or_pgid signal : Z) : action sys Z :=
  let* me := self i in
  let* _ := require i (if pid_or_pgid =? m_pid me then Process.stdio else Process.proc) in
  if (signal <? 0) || (32 <=? signal) then lift (Err EINVAL) else
  if pid_or_pgid <? -1 then
    if pid_or_pgid =? - 2 ^ 31 then lift (Err EINVAL)
    else let* _ := do_killpg me (- pid_or_pgid) signal in ret 0
  else if pid_or_pgid =? -1 then let* _ := do_killall ignored me signal in ret 0
  else if pid_or_pgid =? m_pid me then let* _ := do_killself ignored me signal in ret 0
  else if negb (0 <=? pid_or_pgid) then lift Panic
  else
    let* peer := gets (from_pid_in_same_process_list me pid_or_pgid) in
    match peer with
    | None => lift (Err ESRCH)
    | Some (_, peer) => let* _ := do_kill me peer signal in ret 0
    end.

Definition sys_killpg (i pgrp signum : Z) : action sys Z :=
  let* _ := require i Process.proc in
  let* me := self i in
  if (signum <? 1) || (32 <=? signum) then lift (Err EINVAL) else
  if pgrp <? 0 then lift (Err EINVAL) else
  let* _ := do_killpg me pgrp signum in ret 0.

(** ** The foreground group of a terminal *)

Definition tty_pgid (y : TTY) : Z := match m_pg y with Some g => g | None => 0 end.

Definition terminal_of (y : Z) : action sys TTY := fun s =>
  match terminals s !! y with Some d => (s, Ok d) | None => (s, Undefined) end.

(** The case [TIOCSPGRP] of [TTY::ioctl] on the terminal [y]; [memory] is for
    the weak reference. *)
Definition set_foreground (i y g : Z) (memory : bool) : action sys unit :=
  let* _ := require i Process.tty in
  let* me := self i in
  let* d := terminal_of y in
  if g <=? 0 then lift (Err EINVAL) else
  let* process_group := gets (from_pgid g) in
  match process_group with
  | None => lift (Err EINVAL)
  | Some g =>
      let* process := gets (from_pid_in_same_process_list me g) in
      let* new_sid := gets (fun s => match process with
                                     | Some (_, p) => sid p
                                     | None => get_sid_from_pgid me g s
                                     end) in
      if (new_sid =? 0) || negb (new_sid =? sid me) then lift (Err EPERM) else
      if match process with Some (_, p) => negb (g =? pgid p) | None => false end
      then lift (Err EPERM) else
      if negb memory then lift (Err ENOMEM) else
      let* parent := gets (fun s => match process with
                                    | Some (_, p) => from_pid_ignoring_process_lists (m_ppid p) s
                                    | None => None
                                    end) in
      modify (fun s => set_terminals (<[y := terminal (Some g) (fst <$> parent)]> (terminals s)) s)
  end.

(** [TTY::generate_signal], after the input was flushed; [i] is the process
    that runs. *)
Definition generate_signal (i y signal : Z) : action sys unit :=
  let* d := terminal_of y in
  if tty_pgid d =? 0 then ret tt else
  let* me := self i in
  fun s => for_each_in_pgrp_in_same_process_list me (tty_pgid d) s (fun x s =>
    match send_signal (snd x) signal None s with
    | (s, Panic) => (s, Panic)
    | (s, Undefined) => (s, Undefined)
    | (s, _) => (s, Ok tt)
    end) s.

(** ** Creating processes *)

(** The protected values of a process that was just constructed. *)
Definition new_values (c : Process.Credentials) : Process.ProtectedValues :=
  Process.protected_values c false false 0 false 0 false false false.

(** [Process::create_impl]: the process is not in any list yet.  [memory] is
    for the allocations before the process has a number, [resources] for those
    after. *)
Definition create_impl (memory resources : bool) (uid gid ppid : Z) (is_kernel : bool)
    (tty : option Z) (fork_parent : option t) : action sys t :=
  if negb memory then lift (Err ENOMEM) else
  let credentials := Process.credentials uid gid uid gid uid gid []
        (match fork_parent with Some p => sid p | None => 0 end)
        (match fork_parent with Some p => pgid p | None => 0 end) in
  let* pid := allocate_pid in
  if negb resources then lift (Err ENOMEM) else
  ret (mk_process pid ppid (new_values credentials) None tty is_kernel Running [pid] None None).

(** [list_ptr->attach(child)] and [child_list_ptr = list_ptr], then
    [commit_creation]. *)
Definition attach (l k : Z) (s : sys) : sys :=
  set_attached (<[l := default [] (attached_processes s !! l) ++ [k]]> (attached_processes s)) s.

Definition commit_creation (parent_list : option Z) (child : t) : action sys unit :=
  let k := m_pid child in
  modify (fun s =>
    let child := with_lists (match parent_list with Some l => Some l | None => m_scoped_process_list child end)
                   (m_exec_scoped_process_list child) child in
    let s := set_processes (<[k := child]> (processes s)) s in
    let s := match parent_list with Some l => attach l k s | None => s end in
    register_new k s).

(** What a forked child takes over. *)
Definition fork_values (mine child : Process.ProtectedValues) : Process.ProtectedValues :=
  Process.protected_values (Process.creds mine) (Process.dumpable mine) (Process.has_promises mine)
    (Process.promises mine) (Process.has_execpromises mine) (Process.execpromises mine)
    (Process.reject_transition_to_executable_from_writable_prot child)
    (Process.jailed_until_exit mine || Process.jailed_until_exit child)
    (Process.jailed_until_exec mine).

(** [copied] says whether the veil, the descriptors and the address space can
    be copied. *)
Definition sys_fork (i : Z) (memory resources copied : bool) : action sys Z :=
  let* _ := require i Process.proc in
  let* me := self i in
  if m_is_kernel_process me then lift Panic else
  let c := credentials_of me in
  let* child := create_impl memory resources (Process.m_uid c) (Process.m_gid c) (m_pid me)
                  (m_is_kernel_process me) (m_tty me) (Some me) in
  if negb copied then lift (Err ENOMEM) else
  let child := with_lists (m_scoped_process_list child) (m_exec_scoped_process_list me) child in
  let child := with_group (process_group me)
                 (with_values (fork_values (values me) (values child)) child) in
  let* _ := commit_creation (m_scoped_process_list me) child in
  ret (m_pid child).

(** ** Executing a program *)

(** What [do_exec] reads of the file: its owner if it is set-user-ID, its group
    if it is set-group-ID, and whether it is on a file system that ignores
    both. *)
Record program : Type := executable {
  setuid_owner : option Z;
  setgid_group : option Z;
  on_nosuid_mount : bool
}.

Definition is_jailed (v : Process.ProtectedValues) : bool :=
  Process.jailed_until_exit v || Process.jailed_until_exec v.

Definition is_setid (f : program) : bool :=
  match setuid_owner f, setgid_group f with None, None => false | _, _ => true end.

Definition exec_credentials (f : program) (c : Process.Credentials) : Process.Credentials :=
  if on_nosuid_mount f then c else
  let u := default (Process.m_euid c) (setuid_owner f) in
  let su := default (Process.m_suid c) (setuid_owner f) in
  let g := default (Process.m_egid c) (setgid_group f) in
  let sg := default (Process.m_sgid c) (setgid_group f) in
  if is_setid f then
    Process.credentials (Process.m_uid c) (Process.m_gid c) u g su sg (Process.m_extra_gids c)
      (Process.m_sid c) (Process.m_pgid c)
  else c.

Definition exec_values (f : program) (v : Process.ProtectedValues) : Process.ProtectedValues :=
  Process.protected_values (exec_credentials f (Process.creds v))
    (negb (negb (on_nosuid_mount f) && is_setid f))
    (Process.has_execpromises v) (Process.execpromises v) false 0
    (Process.reject_transition_to_executable_from_writable_prot v) (Process.jailed_until_exit v) false.

(** [do_exec] refuses a set-ID program to a jailed caller [current]. *)
Definition exec_check (current : Process.ProtectedValues) (f : program) : outcome unit :=
  if is_jailed current && is_setid f then Err EPERM else Ok tt.

Definition replace_scoped_process_list (i l : Z) (s : sys) : sys :=
  match processes s !! i with
  | None => s
  | Some p =>
      if bool_decide (m_scoped_process_list p = Some l) then s else
      let s := match m_scoped_process_list p with
               | Some old => set_attached (alter (filter (fun k => k <> i)) old (attached_processes s)) s
               | None => s
               end in
      attach l i (update i (with_lists (Some l) (m_exec_scoped_process_list p)) s)
  end.

(** [execve] by the thread [tid] of the process, whose other threads are told
    to die; [loaded] says whether the program can be loaded. *)
Definition sys_execve (i tid : Z) (f : program) (loaded : bool) : action sys Z :=
  let* _ := require i Process.exec in
  let* me := self i in
  if negb (bool_decide (tid ∈ m_threads me)) then lift Undefined else
  let* _ := lift (exec_check (values me) f) in
  if negb loaded then lift (Err ENOMEM) else
  let* _ := modify (fun s => match m_exec_scoped_process_list me with
                             | Some l => update i (fun p => with_lists (m_scoped_process_list p) None p)
                                           (replace_scoped_process_list i l s)
                             | None => s
                             end) in
  let* _ := modify (update i (fun p => with_threads tid [tid] (with_values (exec_values f (values p)) p))) in
  ret 0.

(** [params_ok] is the outcome of reading the arguments; the child executes
    the program before it is in any list. *)
Definition sys_posix_spawn (i : Z) (params : outcome unit) (memory resources copied loaded : bool)
    (f : program) : action sys Z :=
  let* _ := require i Process.proc in
  let* _ := require i Process.exec in
  let* _ := lift params in
  let* me := self i in
  if m_is_kernel_process me then lift Panic else
  let c := credentials_of me in
  let* child := create_impl memory resources (Process.m_uid c) (Process.m_gid c) (m_pid me) false
                  (m_tty me) None in
  if negb copied then lift (Err ENOMEM) else
  let child := with_group (process_group me)
                 (with_values (assign_credentials c (values child)) child) in
  let* _ := lift (exec_check (values me) f) in
  if negb loaded then lift (Err ENOMEM) else
  let child := with_values (exec_values f (values child)) child in
  let* _ := commit_creation (m_scoped_process_list me) child in
  ret (m_pid child).

(** A process of the kernel, and the first program. *)
Definition create_kernel_process (memory resources : bool) : action sys Z :=
  let* child := create_impl memory resources 0 0 0 true None None in
  let* _ := commit_creation None child in
  ret (m_pid child).

Definition create_userland_init_process (memory resources loaded : bool) (tty : option Z) (f : program)
    : action sys Z :=
  let* child := create_impl memory resources 0 0 0 false tty None in
  if negb loaded then lift (Err ENOMEM) else
  let* _ := commit_creation None (with_values (exec_values f (values child)) child) in
  ret (m_pid child).

(** ** Threads, death and the lists *)

(** A thread other than the first takes its number from the same counter. *)
Definition create_thread (i : Z) : action sys Z :=
  let* me := self i in
  let* tid := allocate_pid in
  let* _ := modify (update i (fun p => with_threads (m_pid p) (m_threads p ++ [tid]) p)) in
  ret tid.

Definition thread_exited (i tid : Z) (s : sys) : sys :=
  update i (fun p => with_threads (m_pid p) (filter (fun x => x <> tid) (m_threads p)) p) s.

(** [Process::die]: the terminal is let go. *)
Definition die (i : Z) (s : sys) : sys :=
  update i (fun p => if bool_decide (m_state p = Running) then with_tty None (with_state Dying p) else p) s.

(** [Process::finalize], once there are no threads, and [unref] of the last
    reference when the process has been waited for. *)
Definition finalize (i : Z) (s : sys) : sys :=
  update i (fun p => if bool_decide (m_threads p = []) then with_tty None (with_state Dead p) else p) s.

Definition remove_process (i : Z) (s : sys) : sys :=
  match processes s !! i with
  | None => s
  | Some p =>
      if negb (is_dead p) then s else
      let s := set_all_instances (filter (fun k => k <> i) (all_instances s)) s in
      let s := match m_scoped_process_list p with
               | Some l => set_attached (alter (filter (fun k => k <> i)) l (attached_processes s)) s
               | None => s
               end in
      unref (process_group p) (set_processes (delete i (processes s)) s)
  end.

(** [waitid] refers to the group it waits for until it returns. *)
Definition wait_for_group (g : Z) (s : sys) : sys :=
  match from_pgid g s with Some g => set_waited (g :: waited_groups s) s | None => s end.

Fixpoint remove_one (g : Z) (l : list Z) : list Z :=
  match l with
  | [] => []
  | h :: l => if h =? g then l else h :: remove_one g l
  end.

Definition waited_for_group (g : Z) (s : sys) : sys :=
  if bool_decide (g ∈ waited_groups s) then
    unref_group g (set_waited (remove_one g (waited_groups s)) s)
  else s.

(** The system calls on the identity of a process, of [Process.v]. *)
Definition identity_call (i : Z) (c : Process.call) (s : sys) : sys :=
  update i (fun p => with_values (fst (Process.run_call c (values p))) p) s.

(** ** Runs *)

Inductive event : Type :=
| KernelProcess (memory resources : bool)
| InitProcess (memory resources loaded : bool) (tty : option Z) (f : program)
| Setsid (i : Z) (memory_for_group memory : bool)
| Setpgid (i pid pgid : Z) (memory_for_group memory : bool)
| Fork (i : Z) (memory resources copied : bool)
| Spawn (i : Z) (memory resources copied loaded : bool) (f : program)
| Execve (i tid : Z) (f : program) (loaded : bool)
| Disown (i pid : Z)
| Kill (ignored : Z -> bool) (i pid_or_pgid signal : Z)
| Killpg (i pgrp signal : Z)
| Identity (i : Z) (c : Process.call)
| Foreground (i y g : Z) (memory : bool)
| Enter (i l : Z)
| CreateThread (i : Z)
| ThreadExited (i tid : Z)
| Die (i : Z)
| Finalize (i : Z)
| Remove (i : Z)
| WaitGroup (g : Z)
| WaitedGroup (g : Z).

Definition step (e : event) (s : sys) : sys :=
  match e with
  | KernelProcess m r => fst (create_kernel_process m r s)
  | InitProcess m r l tty f => fst (create_userland_init_process m r l tty f s)
  | Setsid i mg m => fst (sys_setsid i mg m s)
  | Setpgid i p g mg m => fst (sys_setpgid i p g mg m s)
  | Fork i m r c => fst (sys_fork i m r c s)
  | Spawn i m r c l f => fst (sys_posix_spawn i (Ok tt) m r c l f s)
  | Execve i tid f l => fst (sys_execve i tid f l s)
  | Disown i p => fst (sys_disown i p s)
  | Kill ignored i p sig => fst (sys_kill ignored i p sig s)
  | Killpg i g sig => fst (sys_killpg i g sig s)
  | Identity i c => identity_call i c s
  | Foreground i y g m => fst (set_foreground i y g m s)
  | Enter i l => replace_scoped_process_list i l s
  | CreateThread i => fst (create_thread i s)
  | ThreadExited i tid => thread_exited i tid s
  | Die i => die i s
  | Finalize i => finalize i s
  | Remove i => remove_process i s
  | WaitGroup g => wait_for_group g s
  | WaitedGroup g => waited_for_group g s
  end.

Definition run (es : list event) (s : sys) : sys := fold_left (fun s e => step e s) es s.

(** The system after [Process::initialize] and the creation of the idle process,
    which has number 0 and is in no list; [ttys] are its terminals. *)
Definition booted (ttys : list Z) : sys :=
  system ∅ [] ∅ [] [] (list_to_map (map (fun y => (y, terminal None None)) ttys)) 1 [].

(** ** The invariant *)

(** The numbers in use by a process. *)
Definition owned (p : t) : list Z := m_pid p :: m_threads p.

Definition member (s : sys) (k : Z) (p : t) (g : Z) : Prop :=
  processes s !! k = Some p /\ process_group p = Some g.

Record inv (s : sys) : Prop := {
  inv_key : forall k p, processes s !! k = Some p -> k < next_pid s;
  inv_owned : forall k p x, processes s !! k = Some p -> x ∈ owned p -> 0 < x < next_pid s;
  inv_disjoint : forall k k' p p' x, processes s !! k = Some p -> processes s !! k' = Some p' ->
    x ∈ owned p -> x ∈ owned p' -> k = k';
  inv_parent : forall k p, processes s !! k = Some p -> 0 <= m_ppid p < m_pid p;
  inv_threads : forall k p x, processes s !! k = Some p -> x ∈ m_threads p -> m_pid p <= x;
  inv_sid : forall k p, processes s !! k = Some p -> 0 <= sid p <= m_pid p;
  inv_listed : forall k p g, member s k p g -> g ∈ groups s;
  inv_number : forall g, g ∈ groups s -> 0 < g < next_pid s;
  inv_unthreaded : forall g k p, g ∈ groups s -> processes s !! k = Some p -> g ∈ m_threads p ->
    g = m_pid p;
  inv_session : forall k k' p p' g, member s k p g -> member s k' p' g -> sid p = sid p';
  inv_leader : forall k k' p q, processes s !! k = Some p -> member s k' q (m_pid p) -> sid q = sid p;
  inv_foreground : forall y d g, terminals s !! y = Some d -> m_pg d = Some g -> g ∈ groups s
}.

#[local] Create HintDb sess.
#[local] Hint Resolve inv_key inv_owned inv_parent inv_threads inv_sid inv_listed inv_number : sess.

Lemma owned_pid p : m_pid p ∈ owned p.
Proof. apply list_elem_of_here. Qed.

Lemma inv_pid s k k' p p' :
  inv s -> processes s !! k = Some p -> processes s !! k' = Some p' -> m_pid p = m_pid p' -> k = k'.
Proof.
  intros Hs H H' E. eapply (inv_disjoint s Hs k k' p p' (m_pid p)); [done|done|apply owned_pid|].
  rewrite E. apply owned_pid.
Qed.

(** Only these fields matter to it. *)
Lemma same_fields_inv s s' :
  inv s -> processes s' = processes s -> groups s' = groups s -> next_pid s' = next_pid s ->
  terminals s' = terminals s -> inv s'.
Proof. intros [] E1 E2 E3 E4. unfold member in *. constructor; unfold member; rewrite ?E1, ?E2, ?E3, ?E4; done. Qed.

(** What the change of one process to [p'] has to respect. *)
Record fits (s : sys) (n i : Z) (p p' : t) : Prop := {
  fit_owned : forall x, x ∈ owned p' -> x ∈ owned p \/ next_pid s <= x < n;
  fit_parent : 0 <= m_ppid p' < m_pid p';
  fit_threads : forall x, x ∈ m_threads p' -> m_pid p' <= x;
  fit_sid : 0 <= sid p' <= m_pid p';
  fit_listed : forall g, process_group p' = Some g -> g ∈ groups s;
  fit_unthreaded : forall g, g ∈ groups s -> g ∈ m_threads p' -> g = m_pid p';
  fit_session : forall k q g, k <> i -> process_group p' = Some g -> member s k q g -> sid q = sid p';
  fit_leader : forall k q, k <> i -> processes s !! k = Some q -> process_group p' = Some (m_pid q) ->
    sid q = sid p';
  fit_members : forall k q, k <> i -> member s k q (m_pid p') -> sid q = sid p'
}.

Lemma inv_change i f s n :
  inv s -> next_pid s <= n -> (forall p, processes s !! i = Some p -> fits s n i p (f p)) ->
  inv (update i f (set_next_pid n s)).
Proof.
  intros Hs Hn Hf.
  assert (H : forall k p', alter f i (processes s) !! k = Some p' ->
    (exists p, k = i /\ processes s !! i = Some p /\ fits s n i p p') \/ k <> i /\ processes s !! k = Some p').
  { intros k p'. rewrite lookup_alter_Some. intros [(<- & p & Hp & ->)|[N Hp]]; [left|right]; eauto. }
  unfold update, set_processes, set_next_pid. constructor; unfold member; simpl.
  - intros k p' [(p & -> & Hp & _)|[_ Hk]]%H; [pose proof (inv_key s Hs i p Hp)|pose proof (inv_key s Hs k p' Hk)]; lia.
  - intros k p' x [(p & -> & Hp & F)|[_ Hk]]%H Hx; [apply (fit_owned _ _ _ _ _ F) in Hx as [Hx|Hx]; [|
      pose proof (inv_owned s Hs i p _ Hp (owned_pid p)); lia]|]; eapply inv_owned in Hx; eauto; lia.
  - assert (O : forall k p' x, alter f i (processes s) !! k = Some p' -> x ∈ owned p' ->
      (exists p, processes s !! k = Some p /\ x ∈ owned p) \/ k = i /\ next_pid s <= x).
    { intros k p' x [(p & -> & Hp & F)|[_ Hk]]%H Hx; [|eauto].
      apply (fit_owned _ _ _ _ _ F) in Hx as [Hx|Hx]; [eauto|]. right. split; [done|lia]. }
    intros k k' p1 p2 x H1 H2 X1 X2.
    destruct (O _ _ _ H1 X1) as [(q1 & Q1 & Y1)|[-> L1]], (O _ _ _ H2 X2) as [(q2 & Q2 & Y2)|[-> L2]].
    + by eapply inv_disjoint.
    + pose proof (inv_owned s Hs k q1 x Q1 Y1). lia.
    + pose proof (inv_owned s Hs k' q2 x Q2 Y2). lia.
    + done.
  - intros k p' [(p & -> & Hp & F)|[_ Hk]]%H; [apply F|eauto with sess].
  - intros k p' x [(p & -> & Hp & F)|[_ Hk]]%H; [apply F|eauto with sess].
  - intros k p' [(p & -> & Hp & F)|[_ Hk]]%H; [apply F|eauto with sess].
  - intros k p' g [[(p & -> & Hp & F)|[_ Hk]]%H Hg]; [by apply F|]. apply (inv_listed s Hs k p'). by split.
  - intros g Hg. pose proof (inv_number s Hs g Hg). lia.
  - intros g k p' Hg [(p & -> & Hp & F)|[_ Hk]]%H Ht; [by apply F|by eapply (inv_unthreaded s Hs)].
  - intros k k' p1 p2 g [A1 G1] [A2 G2].
    destruct (H _ _ A1) as [(q1 & -> & Q1 & F1)|[N1 Q1]], (H _ _ A2) as [(q2 & -> & Q2 & F2)|[N2 Q2]].
    + congruence.
    + symmetry. apply (fit_session _ _ _ _ _ F1 k' p2 g); [done|done|by split].
    + apply (fit_session _ _ _ _ _ F2 k p1 g); [done|done|by split].
    + apply (inv_session s Hs k k' p1 p2 g); by split.
  - intros k k' p1 p2 A1 [A2 G2].
    destruct (H _ _ A1) as [(q1 & -> & Q1 & F1)|[N1 Q1]], (H _ _ A2) as [(q2 & -> & Q2 & F2)|[N2 Q2]].
    + congruence.
    + apply (fit_members _ _ _ _ _ F1 k' p2); [done|by split].
    + symmetry. by apply (fit_leader _ _ _ _ _ F2 k p1).
    + apply (inv_leader s Hs k k' p1 p2); [done|by split].
  - apply Hs.
Qed.

Lemma inv_change_in_place i f s :
  inv s -> (forall p, processes s !! i = Some p -> fits s (next_pid s) i p (f p)) -> inv (update i f s).
Proof.
  intros Hs Hf. eapply same_fields_inv; [apply (inv_change i f s (next_pid s) Hs); [lia|done]|..]; by destruct s.
Qed.

(** A process fits where it is. *)
Lemma fits_self s n i p : inv s -> processes s !! i = Some p -> fits s n i p p.
Proof.
  intros Hs Hp. constructor; eauto with sess.
  - intros g Hg. apply (inv_listed s Hs i p). by split.
  - intros g Hg. by apply (inv_unthreaded s Hs g i p).
  - intros k q g N Hg M. apply (inv_session s Hs k i q p g M). by split.
  - intros k q N Hq Hg. symmetry. apply (inv_leader s Hs k i q p Hq). by split.
  - intros k q N M. by apply (inv_leader s Hs i k p q Hp).
Qed.

(** Changing a process in a way that keeps its number, its session and its
    group. *)
Lemma inv_update i f s :
  inv s ->
  (forall p, processes s !! i = Some p ->
     m_pid (f p) = m_pid p /\ (m_ppid (f p) = m_ppid p \/ m_ppid (f p) = 0) /\
     m_threads (f p) ⊆ m_threads p /\ sid (f p) = sid p /\ process_group (f p) = process_group p) ->
  inv (update i f s).
Proof.
  intros Hs Hf. apply inv_change_in_place; [done|]. intros p Hp.
  destruct (Hf p Hp) as (E1 & E2 & E3 & E4 & E5). destruct (fits_self s (next_pid s) i p Hs Hp).
  constructor; rewrite ?E1, ?E4, ?E5; eauto; [|destruct E2 as [->| ->]; lia].
  intros x Hx. left. unfold owned in *. rewrite E1, elem_of_cons in *. set_solver.
Qed.

(** An update that touches none of what the invariant is about. *)
Ltac keep_update := apply inv_update; [done|]; intros ? ?; simpl; split_and!; auto.

(** ** Groups come and go *)

Lemma refers_to_false g s k p : refers_to g s = false -> ~ member s k p g.
Proof.
  unfold refers_to. intros H [Hk Hg]. apply orb_false_iff in H as [H _].
  rewrite <- not_true_iff_false, existsb_exists in H. apply H. exists (k, p).
  split; [by apply list_elem_of_In, elem_of_map_to_list|]. by apply bool_decide_eq_true_2.
Qed.

Lemma inv_unref_group g s : inv s -> inv (unref_group g s).
Proof.
  intros Hs. unfold unref_group. destruct (refers_to g s) eqn:E; [done|].
  unfold set_terminals, set_groups. destruct Hs. constructor; unfold member in *; simpl; try done.
  - intros k p h [Hk Hh]. apply list_elem_of_filter. split; [|eauto].
    intros ->. by apply (refers_to_false _ _ k p E).
  - intros h [_ Hh]%list_elem_of_filter. eauto.
  - intros h k p [_ Hh]%list_elem_of_filter. eauto.
  - intros y d h. rewrite lookup_fmap_Some. intros (d' & <- & Hd) Hh. apply list_elem_of_filter.
    case_bool_decide as D; simpl in *; [done|]. split; [congruence|]. eauto.
Qed.

Lemma inv_unref o s : inv s -> inv (unref o s).
Proof. destruct o; [apply inv_unref_group|done]. Qed.

(** A group with the number of a process may be created. *)
Lemma inv_add_group k p s :
  inv s -> processes s !! k = Some p -> inv (set_groups (m_pid p :: groups s) s).
Proof.
  intros Hs Hk. pose proof (inv_owned s Hs k p _ Hk (owned_pid p)) as B.
  destruct Hs. constructor; unfold member in *; simpl; try done.
  - intros k' p' g H. apply elem_of_cons. eauto.
  - intros g [->|H]%elem_of_cons; eauto.
  - intros g k' p' [->|H]%elem_of_cons; [|eauto]. intros Hk' Ht.
    assert (k = k') as <- by (eapply (inv_disjoint0 k k' p p' (m_pid p)); [done|done|apply owned_pid|by right]).
    congruence.
  - intros y d g H1 H2. apply elem_of_cons. eauto.
Qed.

(** Moving a process into a group of its session. *)
Lemma inv_assign_group i g p s :
  inv s -> processes s !! i = Some p -> g ∈ groups s ->
  (forall k q, member s k q g -> sid q = sid p) ->
  (forall k q, processes s !! k = Some q -> m_pid q = g -> sid q = sid p) ->
  inv (assign_group i g s).
Proof.
  intros Hs Hi Hg Hm Hl. unfold assign_group. apply inv_unref, inv_change_in_place; [done|].
  intros q Hq. simplify_eq. destruct (fits_self s (next_pid s) i p Hs Hi).
  constructor; simpl; eauto; intros; simplify_eq; eauto.
Qed.

(** A process that alone is in the group of its number may start the session
    of its number. *)
Lemma inv_new_session i f p s :
  inv s -> processes s !! i = Some p -> process_group p = Some (m_pid p) ->
  (forall k q, member s k q (m_pid p) -> k = i) ->
  m_pid (f p) = m_pid p -> m_ppid (f p) = m_ppid p -> m_threads (f p) = m_threads p ->
  process_group (f p) = process_group p -> sid (f p) = m_pid p ->
  inv (update i f s).
Proof.
  intros Hs Hi Hg Ho F1 F2 F3 F4 F5. pose proof (inv_owned s Hs i p _ Hi (owned_pid p)) as B.
  apply inv_change_in_place; [done|]. intros q Hq. simplify_eq.
  destruct (fits_self s (next_pid s) i p Hs Hi).
  constructor; unfold owned; rewrite ?F1, ?F2, ?F3, ?F4, ?F5; eauto; [lia| | |].
  - intros k q g N E M. simplify_eq. by apply Ho in M.
  - intros k q N Hk E. simplify_eq. by destruct N; apply (inv_pid s k i q p).
  - intros k q N M. by apply Ho in M.
Qed.

(** ** New processes *)

Lemma inv_skip_pid s : inv s -> inv (set_next_pid (next_pid s + 1) s).
Proof.
  intros []. constructor; unfold member in *; simpl; try done; intros.
  - eapply Z.lt_trans; [by eapply inv_key0|lia].
  - assert (0 < x < next_pid s) by eauto. lia.
  - assert (0 < g < next_pid s) by eauto. lia.
Qed.

(** What a process that inherits from [parent] looks like. *)
Record newborn (s : sys) (child : t) : Prop := {
  new_pid : m_pid child = next_pid s;
  new_threads : m_threads child = [next_pid s];
  new_ppid : 0 <= m_ppid child < next_pid s;
  new_sid : 0 <= sid child <= next_pid s;
  new_group : forall g, process_group child = Some g ->
    exists k p, member s k p g /\ sid p = sid child
}.

Lemma inv_newborn s child :
  inv s -> 0 < next_pid s -> newborn s child ->
  inv (set_processes (<[next_pid s := child]> (processes s)) (set_next_pid (next_pid s + 1) s)).
Proof.
  intros Hs Hn [Np Nt Npp Ns Ng].
  assert (O : forall x, x ∈ owned child <-> x = next_pid s).
  { intros x. unfold owned. rewrite Np, Nt, !elem_of_cons, elem_of_nil. tauto. }
  assert (O' : forall k p, processes s !! k = Some p -> next_pid s ∉ owned p).
  { intros k p Hk Hx. pose proof (inv_owned s Hs k p _ Hk Hx). lia. }
  unfold set_processes, set_next_pid. constructor; unfold member; simpl.
  - intros k p. rewrite lookup_insert_Some. intros [[<- _]|[_ Hk]]; [lia|].
    pose proof (inv_key s Hs k p Hk). lia.
  - intros k p x. rewrite lookup_insert_Some. intros [[<- <-]|[_ Hk]] Hx; [apply O in Hx; lia|].
    pose proof (inv_owned s Hs k p x Hk Hx). lia.
  - intros k k' p p' x. rewrite !lookup_insert_Some.
    intros [[<- <-]|[_ Hk]] [[<- <-]|[_ Hk']] Hx Hx'; [done| | |by eapply inv_disjoint].
    + apply O in Hx as ->. by apply O' in Hk'.
    + apply O in Hx' as ->. by apply O' in Hk.
  - intros k p. rewrite lookup_insert_Some. intros [[<- <-]|[_ Hk]]; [lia|]. eauto with sess.
  - intros k p x. rewrite lookup_insert_Some. intros [[<- <-]|[_ Hk]]; [|eauto with sess].
    rewrite Nt, list_elem_of_singleton. lia.
  - intros k p. rewrite lookup_insert_Some. intros [[<- <-]|[_ Hk]]; [lia|]. eauto with sess.
  - intros k p g [Hk Hg]. rewrite lookup_insert_Some in Hk. destruct Hk as [[<- <-]|[_ Hk]].
    + destruct (Ng g Hg) as (k & p & M & _). eauto with sess.
    + apply (inv_listed s Hs k p g). by split.
  - intros g Hg. pose proof (inv_number s Hs g Hg). lia.
  - intros g k p Hg. rewrite lookup_insert_Some. intros [[<- <-]|[_ Hk]] Ht.
    + rewrite Nt, list_elem_of_singleton in Ht. pose proof (inv_number s Hs g Hg). lia.
    + by eapply (inv_unthreaded s Hs).
  - assert (M : forall k p g, <[next_pid s:=child]> (processes s) !! k = Some p -> process_group p = Some g ->
      exists k' p', member s k' p' g /\ sid p' = sid p).
    { intros k p g. rewrite lookup_insert_Some. intros [[<- <-]|[_ Hk]] Hg; [eauto|].
      exists k, p. by repeat split. }
    intros k k' p p' g [H1 G1] [H2 G2]. destruct (M _ _ _ H1 G1) as (k1 & p1 & M1 & <-).
    destruct (M _ _ _ H2 G2) as (k2 & p2 & M2 & <-). by eapply inv_session.
  - intros k k' p q. rewrite !lookup_insert_Some. intros Hk [Hk' Hg].
    assert (exists k2 q2, member s k2 q2 (m_pid p) /\ sid q2 = sid q) as (k2 & q2 & M2 & <-).
    { destruct Hk' as [[<- <-]|[_ Hk']]; [eauto|]. exists k', q. by repeat split. }
    destruct Hk as [[<- <-]|[_ Hk]]; [|by eapply inv_leader].
    pose proof (inv_number s Hs _ (inv_listed s Hs _ _ _ M2)). lia.
  - apply Hs.
Qed.

(** ** What an operation leaves behind, on every path *)

Definition ends {A} (P : sys -> Prop) (m : action sys A) (s : sys) : Prop := P (fst (m s)).

Lemma ends_self {A} P i (k : t -> action sys A) s :
  P s -> (forall p, processes s !! i = Some p -> ends P (k p) s) -> ends P (abind (self i) k) s.
Proof. unfold ends, abind, self. destruct (processes s !! i); eauto. Qed.

Lemma ends_require {A} P i x (k : unit -> action sys A) s :
  P s -> ends P (k tt) s -> ends P (abind (require i x) k) s.
Proof.
  unfold ends, require, self, lift, abind. intros Hs Hk.
  destruct (processes s !! i); [|done]. by destruct (Process.require_promise _ _) as [[]| | |].
Qed.

Lemma ends_gets {A B} P (f : sys -> B) (k : B -> action sys A) s :
  ends P (k (f s)) s -> ends P (abind (gets f) k) s.
Proof. done. Qed.

Lemma ends_modify {A} P f (k : unit -> action sys A) s :
  ends P (k tt) (f s) -> ends P (abind (modify f) k) s.
Proof. done. Qed.

Lemma ends_lift {A B} P (o : outcome B) (k : B -> action sys A) s :
  P s -> (forall a, o = Ok a -> ends P (k a) s) -> ends P (abind (lift o) k) s.
Proof. unfold ends, abind, lift. destruct o; eauto. Qed.

Lemma ends_bind {A B} P (m : action sys B) (k : B -> action sys A) s :
  P (fst (m s)) -> (forall s' a, m s = (s', Ok a) -> ends P (k a) s') -> ends P (abind m k) s.
Proof. unfold ends, abind. destruct (m s) as [s' []]; simpl; eauto. Qed.

(** Every path keeps the invariant and takes at most one number. *)
Definition good (n : Z) (s : sys) : Prop := inv s /\ n <= next_pid s <= n + 1.

Lemma good_keep n s s' : good n s -> (inv s -> inv s') -> next_pid s' = next_pid s -> good n s'.
Proof. intros [H1 H2] H E. split; [auto|]. by rewrite E. Qed.

Lemma next_pid_unref_group g s : next_pid (unref_group g s) = next_pid s.
Proof. unfold unref_group. by destruct (refers_to _ _). Qed.

Lemma next_pid_unref o s : next_pid (unref o s) = next_pid s.
Proof. destruct o; [apply next_pid_unref_group|done]. Qed.

Lemma processes_unref o s : processes (unref o s) = processes s.
Proof. destruct o; simpl; [|done]. unfold unref_group. by destruct (refers_to _ _). Qed.

Lemma processes_assign i g s :
  processes (assign_group i g s) = alter (with_group (Some g)) i (processes s).
Proof. unfold assign_group. by rewrite processes_unref. Qed.

Lemma next_pid_assign i g s : next_pid (assign_group i g s) = next_pid s.
Proof. unfold assign_group. by rewrite next_pid_unref. Qed.

(** ** Looking processes up *)

Lemma elem_of_listed ks s k p : (k, p) ∈ listed ks s -> processes s !! k = Some p /\ k ∈ ks.
Proof.
  unfold listed. rewrite list_elem_of_omap. intros (k' & Hk & H).
  destruct (processes s !! k') eqn:E; simplify_eq/=. done.
Qed.

Lemma find_pid_Some i ps k p : find_pid i ps = Some (k, p) -> (k, p) ∈ ps /\ m_pid p = i.
Proof.
  induction ps as [|[k' p'] ps IH]; simpl; [done|]. case_match eqn:E.
  - intros [= -> ->]. split; [left|lia].
  - intros H%IH. split; [right|]; apply H.
Qed.

Lemma from_pid_Some me i s k p :
  from_pid_in_same_process_list me i s = Some (k, p) -> processes s !! k = Some p /\ m_pid p = i.
Proof. intros [H%elem_of_listed E]%find_pid_Some. by destruct H. Qed.

(** The session of a group is that of a live process in it. *)
Lemma get_sid_from_pgid_cases me g s :
  (get_sid_from_pgid me g s = -1 /\
   forall k p, (k, p) ∈ visible me s -> is_dead p = false -> pgid p <> g) \/
  exists k p, (k, p) ∈ visible me s /\ is_dead p = false /\ pgid p = g /\
    get_sid_from_pgid me g s = sid p.
Proof.
  unfold get_sid_from_pgid, for_each_in_pgrp_in_same_process_list.
  assert (H : forall ps x, let r := fst (for_each (fun x => if negb (is_dead (snd x)) && (pgid (snd x) =? g)
      then modify (fun _ => sid (snd x)) else ret tt) ps x) in
    (r = x /\ forall k p, (k, p) ∈ ps -> is_dead p = false -> pgid p <> g) \/
    exists k p, (k, p) ∈ ps /\ is_dead p = false /\ pgid p = g /\ r = sid p).
  2: apply H.
  induction ps as [|[k p] ps IH]; intros x; simpl.
  { left. split; [done|]. by intros k p ?%elem_of_nil. }
  destruct (is_dead p) eqn:D, (pgid p =? g) eqn:G; simpl; unfold abind; simpl.
  3: { destruct (IH (sid p)) as [[-> Hn]|(k' & p' & Hp & Hd & Hg & ->)].
    - right. exists k, p. split; [left|]. split; [done|]. split; [lia|done].
    - right. exists k', p'. split; [by right|done]. }
  all: destruct (IH x) as [[-> Hn]|(k' & p' & Hp & Hd & Hg & ->)];
    [left; split; [done|]; intros k1 p1 [E|Hin]%elem_of_cons; simplify_eq; eauto; congruence || lia
    |right; exists k', p'; split; [by right|done]].
Qed.

(** ** Every operation keeps the invariant *)

Lemma good_setsid n i memory_for_group memory s :
  good n s -> ends (good n) (sys_setsid i memory_for_group memory) s.
Proof.
  intros Hs. unfold sys_setsid. apply ends_require; [done|]. apply ends_self; [done|]. intros p Hp.
  destruct Hs as [Hs Hn]. unfold create_if_unused_pgid.
  destruct (bool_decide (m_pid p ∈ groups s)) eqn:G.
  { unfold ends, abind. rewrite G. by split. }
  apply bool_decide_eq_false in G.
  destruct memory_for_group; [|unfold ends, abind; rewrite bool_decide_false by done; by split].
  set (s1 := set_groups (m_pid p :: groups s) s).
  assert (H1 : inv s1) by by apply (inv_add_group i).
  eapply ends_bind; [rewrite bool_decide_false by done; by split|].
  intros s' g E. rewrite bool_decide_false in E by done. simplify_eq/=. fold s1.
  destruct memory; simpl.
  2: { unfold ends, abind, modify, lift. simpl. split; [by apply inv_unref_group|].
       by rewrite next_pid_unref_group. }
  assert (No : forall k q, ~ member s k q (m_pid p)).
  { intros k q M. by apply G, (inv_listed s Hs k q). }
  set (s2 := update i (with_tty None) s1).
  assert (L2 : processes s2 !! i = Some (with_tty None p)) by (simpl; by rewrite lookup_alter_eq, Hp).
  assert (H2 : inv s2) by keep_update.
  set (s3 := assign_group i (m_pid p) s2).
  assert (L3 : processes s3 = alter (with_group (Some (m_pid p))) i (processes s2)) by apply processes_assign.
  assert (No2 : forall k q, ~ member s2 k q (m_pid p)).
  { intros k q [Hk Hg]. simpl in Hk. apply lookup_alter_Some in Hk as [(-> & r & Hr & ->)|[_ Hk]].
    - by apply (No k r).
    - by apply (No k q). }
  assert (H3 : inv s3).
  { apply (inv_assign_group i (m_pid p) (with_tty None p)); [done|done|by left| |].
    - intros k q M. by apply No2 in M.
    - intros k q Hk E. assert (k = i) as -> by (by apply (inv_pid s2 k i q _ H2 Hk L2)). by simplify_eq. }
  unfold ends, abind, modify, ret. simpl. split.
  2: { change (n <= next_pid s3 <= n + 1). unfold s3. by rewrite next_pid_assign. }
  eapply (inv_new_session i _ (with_group (Some (m_pid p)) (with_tty None p)) s3); try done.
  - by rewrite L3, lookup_alter_eq, L2.
  - intros k q [Hk Hg]. rewrite L3 in Hk. apply lookup_alter_Some in Hk as [(-> & _)|[_ Hk]]; [done|].
    by destruct (No2 k q).
Qed.

Lemma good_setpgid_end n k p g s :
  inv s -> n <= next_pid s <= n + 1 -> processes s !! k = Some p -> g ∈ groups s ->
  (forall k1 q, member s k1 q g -> sid q = sid p) ->
  (forall k1 q, processes s !! k1 = Some q -> m_pid q = g -> sid q = sid p) ->
  good n (assign_group k g (update k (fun p =>
    with_values (assign_credentials (with_session (sid p) g (credentials_of p)) (values p)) p) s)).
Proof.
  intros Hs Hn Hk Hg Hm Hl. set (f := fun p => with_values _ p).
  assert (Hf : forall k1 q, alter f k (processes s) !! k1 = Some q -> exists q',
    processes s !! k1 = Some q' /\ sid q = sid q' /\ m_pid q = m_pid q' /\ process_group q = process_group q').
  { intros k1 q. rewrite lookup_alter_Some. intros [(-> & q' & Hq & ->)|[_ Hq]]; eauto. }
  split; [|by rewrite next_pid_assign].
  apply (inv_assign_group k g (f p)); [keep_update|by simpl; rewrite lookup_alter_eq, Hk|done| |].
  - intros k1 q [(q' & Hq' & -> & _ & G)%Hf Hq]. apply (Hm k1 q'). split; congruence.
  - intros k1 q (q' & Hq' & -> & -> & _)%Hf E. by apply (Hl k1 q').
Qed.

Lemma good_setpgid n i pid pg memory_for_group memory s :
  good n s -> ends (good n) (sys_setpgid i pid pg memory_for_group memory) s.
Proof.
  intros G. unfold sys_setpgid. apply ends_require; [done|]. apply ends_self; [done|]. intros me Hme.
  case_match; [done|]. apply ends_gets.
  destruct (from_pid_in_same_process_list _ _ s) as [[k p]|] eqn:F; [|done].
  apply from_pid_Some in F as [Hk _]. case_match eqn:C1; [done|]. case_match; [done|].
  case_match eqn:C2; [done|]. destruct G as [Hs Hn].
  assert (Sp : sid p = sid me).
  { apply andb_false_iff in C1. apply andb_false_iff in C2.
    destruct (decide (k = i)) as [->|Hki]; [congruence|].
    destruct C1 as [C1|C1]; [lia|]. destruct C2 as [C2|C2]; lia. }
  apply ends_gets. set (g := if negb (pg =? 0) then pg else m_pid p).
  case_match eqn:C3; [by split|]. case_match eqn:C4; [by split|].
  assert (M : (exists k0 q, member s k0 q g /\ sid q = sid p) \/ g = m_pid p).
  { apply andb_false_iff in C3. apply andb_false_iff in C4.
    destruct (get_sid_from_pgid_cases me g s) as [[E _]|(k0 & q & Hq & _ & Hg & E)].
    - right. rewrite E in C4. destruct C4 as [C4|C4]; [done|lia].
    - left. apply elem_of_listed in Hq as [Hq _]. exists k0, q. rewrite E in C3.
      pose proof (inv_sid s Hs k0 q Hq). split; [|lia]. split; [done|]. unfold pgid in Hg.
      destruct (process_group q) as [h|] eqn:Eg; [congruence|].
      pose proof (inv_owned s Hs k p _ Hk (owned_pid p)). subst g.
      destruct (pg =? 0) eqn:E0; simpl in Hg; lia. }
  assert (Ha : exists s1, find_or_create memory_for_group g s = (s, Err ENOMEM) \/
    find_or_create memory_for_group g s = (s1, Ok g) /\ inv s1 /\ g ∈ groups s1 /\
    processes s1 = processes s /\ next_pid s1 = next_pid s).
  { unfold find_or_create. case_bool_decide as B; [by exists s; right|].
    destruct memory_for_group; [|by exists s; left]. eexists. right. split; [done|].
    destruct M as [(k0 & q & M & _)| ->]; [by destruct B; apply (inv_listed s Hs k0 q)|].
    split; [by apply (inv_add_group k)|]. by split; [left|]. }
  destruct Ha as [s1 [Ha|(Ha & H1 & Hg & P1 & N1)]].
  { unfold ends, abind. by rewrite Ha. }
  apply ends_bind; rewrite Ha; simpl; [split; [done|lia]|]. intros s' g' [= <- <-].
  rewrite <- N1 in Hn. destruct memory; simpl.
  2: { unfold ends, abind, modify, lift. simpl. split; [by apply inv_unref_group|].
       by rewrite next_pid_unref_group. }
  apply (good_setpgid_end n k p); [done|done|congruence|done| |].
  - intros k1 q1 [Hq Hg1]. rewrite P1 in Hq. destruct M as [(k0 & q & M & E)|E]; rewrite <- ?E.
    + by apply (inv_session s Hs k1 k0 q1 q g).
    + apply (inv_leader s Hs k k1 p q1 Hk). by rewrite <- E.
  - intros k1 q1 Hq Eq. rewrite P1 in Hq. destruct M as [(k0 & q & M & E)|E]; rewrite <- ?E.
    + symmetry. apply (inv_leader s Hs k1 k0 q1 q Hq). by rewrite Eq.
    + assert (k1 = k) as -> by (apply (inv_pid s k1 k q1 p); congruence). congruence.
Qed.

Definition bump (s : sys) : sys := set_next_pid (next_pid s + 1) s.

Lemma allocate_pid_eq s :
  0 < next_pid s < 2 ^ 31 - 1 -> allocate_pid s = (bump s, Ok (next_pid s)).
Proof.
  intros H. unfold allocate_pid, bump. do 2 f_equal. rewrite Z.mod_small by lia. lia.
Qed.

Lemma good_bump s : inv s -> good (next_pid s) s /\ good (next_pid s) (bump s).
Proof. intros Hs. split; (split; [by try apply inv_skip_pid|simpl; lia]). Qed.

Lemma ends_create {A} memory resources uid gid ppid kernel tty fork_parent (k : t -> action sys A) s :
  inv s -> 0 < next_pid s < 2 ^ 31 - 1 ->
  ends (good (next_pid s)) (k (mk_process (next_pid s) ppid
    (new_values (Process.credentials uid gid uid gid uid gid []
      (match fork_parent with Some p => sid p | None => 0 end)
      (match fork_parent with Some p => pgid p | None => 0 end)))
    None tty kernel Running [next_pid s] None None)) (bump s) ->
  ends (good (next_pid s)) (abind (create_impl memory resources uid gid ppid kernel tty fork_parent) k) s.
Proof.
  intros Hs Hn Hk. destruct (good_bump s Hs) as [G0 G1]. unfold create_impl.
  destruct memory; [|done]. unfold ends, abind in *. cbn -[allocate_pid good].
  rewrite allocate_pid_eq by done.
  by destruct resources.
Qed.

Lemma newborn_with_lists s child a b : newborn s child -> newborn s (with_lists a b child).
Proof. by intros []. Qed.

Lemma good_commit {A} parent_list child (k : unit -> action sys A) s :
  inv s -> 0 < next_pid s -> newborn s child -> (forall s', fst (k tt s') = s') ->
  ends (good (next_pid s)) (abind (commit_creation parent_list child) k) (bump s).
Proof.
  intros Hs Hn Hc Hk. unfold ends, abind, commit_creation, modify. simpl. rewrite Hk.
  set (c := with_lists _ _ child).
  assert (Hc' : newborn s c) by by apply newborn_with_lists.
  split; [|by destruct parent_list; simpl; lia]. rewrite (new_pid s child Hc).
  apply (same_fields_inv _ _ (inv_newborn s c Hs Hn Hc')); by destruct parent_list.
Qed.

Lemma good_fork i memory resources copied s :
  inv s -> 0 < next_pid s < 2 ^ 31 - 1 ->
  ends (good (next_pid s)) (sys_fork i memory resources copied) s.
Proof.
  intros Hs Hn. destruct (good_bump s Hs) as [G0 G1]. unfold sys_fork. apply ends_require; [done|].
  apply ends_self; [done|]. intros p Hp. case_match; [done|]. apply ends_create; [done|done|].
  destruct copied; simpl; [|done]. apply good_commit; [done|lia| |done].
  pose proof (inv_owned s Hs i p _ Hp (owned_pid p)). pose proof (inv_sid s Hs i p Hp).
  constructor; simpl; [done|done|lia| |].
  - change (0 <= sid p <= next_pid s). lia.
  - intros g Hg. exists i, p. by repeat split.
Qed.

Lemma sid_exec f v : Process.m_sid (Process.creds (exec_values f v)) = Process.m_sid (Process.creds v).
Proof. simpl. unfold exec_credentials. by destruct (on_nosuid_mount f), (is_setid f). Qed.

Lemma good_spawn i params memory resources copied loaded f s :
  inv s -> 0 < next_pid s < 2 ^ 31 - 1 ->
  ends (good (next_pid s)) (sys_posix_spawn i params memory resources copied loaded f) s.
Proof.
  intros Hs Hn. destruct (good_bump s Hs) as [G0 G1]. unfold sys_posix_spawn.
  do 2 (apply ends_require; [done|]). apply ends_lift; [done|]. intros _ _.
  apply ends_self; [done|]. intros p Hp. case_match; [done|]. apply ends_create; [done|done|].
  destruct copied; simpl; [|done]. apply ends_lift; [done|]. intros _ _.
  destruct loaded; simpl; [|done]. apply good_commit; [done|lia| |done].
  pose proof (inv_owned s Hs i p _ Hp (owned_pid p)). pose proof (inv_sid s Hs i p Hp).
  constructor; [done|done|simpl; lia| |].
  - unfold sid, credentials_of. simpl values. rewrite sid_exec. change (0 <= sid p <= next_pid s). lia.
  - intros g Hg. exists i, p. split; [done|]. unfold sid at 2, credentials_of at 1. simpl values.
    by rewrite sid_exec.
Qed.

Lemma newborn_of_kernel s p :
  m_pid p = next_pid s -> m_threads p = [next_pid s] -> m_ppid p = 0 -> sid p = 0 ->
  process_group p = None -> 0 < next_pid s -> newborn s p.
Proof. intros. constructor; try done; [lia|lia|congruence]. Qed.

Lemma good_kernel_process memory resources s :
  inv s -> 0 < next_pid s < 2 ^ 31 - 1 ->
  ends (good (next_pid s)) (create_kernel_process memory resources) s.
Proof.
  intros Hs Hn. apply ends_create; [done|done|]. apply good_commit; [done|lia| |done].
  apply newborn_of_kernel; try done. lia.
Qed.

Lemma good_init_process memory resources loaded tty f s :
  inv s -> 0 < next_pid s < 2 ^ 31 - 1 ->
  ends (good (next_pid s)) (create_userland_init_process memory resources loaded tty f) s.
Proof.
  intros Hs Hn. destruct (good_bump s Hs) as [G0 G1]. apply ends_create; [done|done|].
  destruct loaded; simpl; [|done]. apply good_commit; [done|lia| |done].
  apply newborn_of_kernel; try done; [|lia]. unfold sid, credentials_of. simpl values. by rewrite sid_exec.
Qed.

Lemma inv_exec i f p tid s :
  inv s -> processes s !! i = Some p -> tid ∈ m_threads p ->
  m_pid (f p) = tid -> m_ppid (f p) = m_ppid p -> m_threads (f p) = [tid] ->
  sid (f p) = sid p -> process_group (f p) = process_group p ->
  inv (update i f s).
Proof.
  intros Hs Hi Ht F1 F2 F3 F4 F5. pose proof (inv_threads s Hs i p tid Hi Ht) as Le.
  apply inv_change_in_place; [done|]. intros q Hq. simplify_eq.
  destruct (fits_self s (next_pid s) i p Hs Hi).
  constructor; unfold owned; rewrite ?F1, ?F2, ?F3, ?F4, ?F5; eauto; [ |lia| |lia| | ].
  - intros x. rewrite !elem_of_cons, elem_of_nil. intros [->|[->|[]]]; left; by right.
  - intros x ->%list_elem_of_singleton. lia.
  - by intros g _ ->%list_elem_of_singleton.
  - intros k q N M. assert (E : m_pid (f p) = m_pid p).
    { apply (inv_unthreaded s Hs _ i p); [by apply (inv_listed s Hs k q)|done|done]. }
    rewrite E in M. eauto.
Qed.

Lemma inv_replace_list i l s : inv s -> inv (replace_scoped_process_list i l s).
Proof.
  intros Hs. unfold replace_scoped_process_list. destruct (processes s !! i) as [p|] eqn:Hp; [|done].
  case_bool_decide; [done|].
  set (s1 := match m_scoped_process_list p with Some _ => _ | None => s end).
  assert (inv s1) by (by apply (same_fields_inv s); destruct (m_scoped_process_list p)).
  assert (inv (update i (with_lists (Some l) (m_exec_scoped_process_list p)) s1)) by keep_update.
  by eapply same_fields_inv.
Qed.

Lemma processes_replace_list i l s k p :
  processes (replace_scoped_process_list i l s) !! k = Some p ->
  exists q, processes s !! k = Some q /\ m_pid p = m_pid q /\ m_threads p = m_threads q.
Proof.
  unfold replace_scoped_process_list. destruct (processes s !! i) as [p0|] eqn:Hp; [|by eauto].
  case_bool_decide; [by eauto|]. simpl.
  assert (E : processes (match m_scoped_process_list p0 with Some old => set_attached
    (alter (filter (fun k => k <> i)) old (attached_processes s)) s | None => s end) = processes s)
    by by destruct (m_scoped_process_list p0).
  rewrite E, lookup_alter_Some. intros [(-> & q & Hq & ->)|[_ Hk]]; eauto.
Qed.

Lemma update_absent i f s : processes s !! i = None -> processes (update i f s) = processes s.
Proof.
  intros H. apply map_eq. intros k. simpl. destruct (decide (k = i)) as [->|N].
  - by rewrite lookup_alter_eq, H.
  - by rewrite lookup_alter_ne.
Qed.

Lemma next_pid_replace_list i l s : next_pid (replace_scoped_process_list i l s) = next_pid s.
Proof.
  unfold replace_scoped_process_list. destruct (processes s !! i); [|done]. case_bool_decide; [done|].
  by destruct (m_scoped_process_list _).
Qed.

Lemma good_execve n i tid f loaded s :
  good n s -> ends (good n) (sys_execve i tid f loaded) s.
Proof.
  intros G. unfold sys_execve. apply ends_require; [done|]. apply ends_self; [done|]. intros me Hme.
  case_bool_decide as Ht; [|done]. simpl. apply ends_lift; [done|]. intros _ _.
  destruct loaded; [|done]. destruct G as [Hs Hn]. apply ends_modify.
  set (s1 := match m_exec_scoped_process_list me with Some _ => _ | None => s end).
  assert (H1 : inv s1 /\ next_pid s1 = next_pid s /\
    forall p, processes s1 !! i = Some p -> tid ∈ m_threads p).
  { unfold s1. destruct (m_exec_scoped_process_list me) as [l|]; [|split; [done|]; split; [done|]; congruence].
    pose proof (inv_replace_list i l s Hs). split; [keep_update|].
    split; [apply next_pid_replace_list|]. intros p. simpl. rewrite lookup_alter_Some.
    intros [(_ & q & Hq & ->)|[N _]]; [|done].
    destruct (processes_replace_list _ _ _ _ _ Hq) as (q' & Hq' & _ & E). simpl. rewrite E. congruence. }
  destruct H1 as (H1 & N1 & T1). apply ends_modify. unfold ends. simpl. split; [|simpl; lia].
  destruct (processes s1 !! i) as [p|] eqn:Hp.
  - apply (inv_exec i _ p tid); try done; [auto|]. unfold sid, credentials_of. simpl values. apply sid_exec.
  - by apply (same_fields_inv s1); [done|apply update_absent|..].
Qed.

Lemma good_create_thread i s :
  inv s -> 0 < next_pid s < 2 ^ 31 - 1 -> ends (good (next_pid s)) (create_thread i) s.
Proof.
  intros Hs Hn. destruct (good_bump s Hs) as [G0 [G1 _]]. apply ends_self; [done|]. intros me Hme.
  unfold ends, abind. rewrite allocate_pid_eq by done. simpl. split; [|simpl; lia].
  apply (inv_change i _ s (next_pid s + 1) Hs); [lia|]. intros p Hp.
  destruct (fits_self s (next_pid s) i p Hs Hp). pose proof (inv_owned s Hs i p _ Hp (owned_pid p)).
  constructor; simpl; eauto.
  - intros x. unfold owned. simpl. rewrite !elem_of_cons, elem_of_app, list_elem_of_singleton.
    intros [->|[Hx| ->]]; [by left; left|by left; right|right; lia].
  - intros x. rewrite elem_of_app, list_elem_of_singleton. intros [Hx| ->]; [eauto|lia].
  - intros g Hg. rewrite elem_of_app, list_elem_of_singleton. intros [Hx| ->]; [eauto|].
    pose proof (inv_number s Hs _ Hg). lia.
Qed.

(** ** Signals *)

(** What sending one process a signal does. *)
Definition kill_result (me p : t) (signal : Z) : outcome unit :=
  if negb (can_send_signal me p signal) || m_is_kernel_process p then Err EPERM
  else if negb (signal =? 0) && bool_decide (m_threads p = []) then Err ESRCH
  else Ok tt.

Definition succeeds (o : outcome unit) : bool := match o with Ok _ => true | _ => false end.

Definition kill_sends (me : t) (signal : Z) (p : t) : list (Z * Z * option Z) :=
  if succeeds (kill_result me p signal) && negb (signal =? 0)
  then [(m_pid p, signal, Some (m_pid me))] else [].

Lemma set_sent_id s : set_sent (sent s ++ []) s = s.
Proof. destruct s. unfold set_sent. simpl. by rewrite app_nil_r. Qed.

Lemma do_kill_eq me p signal s :
  do_kill me p signal s = (set_sent (sent s ++ kill_sends me signal p) s, kill_result me p signal).
Proof.
  unfold do_kill, kill_sends, kill_result, send_signal.
  destruct (can_send_signal me p signal), (m_is_kernel_process p); simpl; unfold lift;
    try by rewrite set_sent_id.
  destruct (signal =? 0); simpl; [by rewrite set_sent_id|].
  destruct (m_threads p) eqn:E; simpl; unfold lift, modify, deliver; [by rewrite set_sent_id|done].
Qed.

Definition latest (old : outcome unit) (rs : list (outcome unit)) : outcome unit :=
  fold_left (fun o r => if succeeds r then o else r) rs old.

Definition tells (r : outcome unit) : bool := match r with Ok _ | Err _ => true | _ => false end.

Lemma kill_result_tells me p signal : tells (kill_result me p signal) = true.
Proof. unfold kill_result. by repeat case_match. Qed.

Definition targets (me : t) (g : Z) (s : sys) : list t :=
  filter (fun p => is_dead p = false /\ pgid p = g) (map snd (visible me s)).

Lemma killpg_loop me g signal ps a :
  for_each (fun x => if negb (is_dead (snd x)) && (pgid (snd x) =? g)
                     then attempt (do_kill me (snd x) signal) else ret tt) ps a =
  let ts := filter (fun p => is_dead p = false /\ pgid p = g) (map snd ps) in
  let rs := map (fun p => kill_result me p signal) ts in
  (tallied (group_was_empty a && bool_decide (ts = [])) (any_succeeded a || existsb succeeds rs)
     (latest (error a) rs)
     (set_sent (sent (reached a) ++ concat (map (kill_sends me signal) ts)) (reached a)), Ok tt).
Proof.
  revert a. induction ps as [|[k p] ps IH]; intros a; simpl.
  { rewrite set_sent_id, orb_false_r, andb_true_r. by destruct a. }
  unfold abind. destruct (is_dead p) eqn:D.
  { rewrite filter_cons_False by (rewrite D; naive_solver). apply IH. }
  destruct (pgid p =? g) eqn:G.
  2: { rewrite filter_cons_False by (intros []; lia). apply IH. }
  rewrite filter_cons_True by (split; [done|lia]). unfold attempt. cbn [negb andb map existsb concat]. rewrite do_kill_eq.
  pose proof (kill_result_tells me p signal) as T. destruct (kill_result me p signal) eqn:R; try done;
    rewrite IH; simpl; rewrite ?R; simpl; f_equal; f_equal; rewrite ?andb_false_r, ?orb_true_r; try done;
    unfold set_sent; simpl; by rewrite <- app_assoc.
Qed.

Lemma existsb_map {A B} (f : B -> bool) (h : A -> B) l : existsb f (map h l) = existsb (fun x => f (h x)) l.
Proof. induction l as [|x l IH]; simpl; [done|]. by rewrite IH. Qed.

(** C26: [do_killpg] sends the signal to exactly the live processes of the group
    that the caller can see and may signal, in the order of the list; it fails
    with [ESRCH] if there is no process in the group, succeeds if one of them
    was reached, and otherwise fails the way the last one did. *)
Theorem killpg_exact (me : t) (pgrp signal : Z) (s : sys) :
  0 <= pgrp ->
  let ts := targets me (if pgrp =? 0 then pgid me else pgrp) s in
  do_killpg me pgrp signal s =
  (set_sent (sent s ++ concat (map (kill_sends me signal) ts)) s,
   match ts with
   | [] => Err ESRCH
   | _ => if existsb (fun p => succeeds (kill_result me p signal)) ts then Ok tt
          else latest (Ok tt) (map (fun p => kill_result me p signal) ts)
   end).
Proof.
  intros Hp ts. unfold do_killpg. rewrite (proj2 (Z.leb_le 0 pgrp) Hp). simpl.
  unfold conclude, for_each_in_pgrp_in_same_process_list. rewrite killpg_loop. simpl. fold (targets me
    (if pgrp =? 0 then pgid me else pgrp) s). fold ts. f_equal.
  destruct ts as [|p ts]; simpl; [done|]. rewrite existsb_map. done.
Qed.

(** The signal system calls change nothing else. *)
Definition only_sends (s s' : sys) : Prop := exists l, s' = set_sent l s.

Lemma only_sends_refl s : only_sends s s.
Proof. exists (sent s). by destruct s. Qed.

Lemma only_sends_trans s1 s2 s3 : only_sends s1 s2 -> only_sends s2 s3 -> only_sends s1 s3.
Proof. intros [l1 ->] [l2 ->]. by exists l2. Qed.

Lemma do_kill_only me p signal s : only_sends s (fst (do_kill me p signal s)).
Proof. rewrite do_kill_eq. by eexists. Qed.

Lemma do_killself_only ignored me signal s : only_sends s (fst (do_killself ignored me signal s)).
Proof. unfold do_killself. repeat case_match; try apply only_sends_refl. by eexists. Qed.

Lemma attempts_only (f : Z * t -> action tally unit) ps a :
  (forall x a, only_sends (reached a) (reached (fst (f x a)))) ->
  only_sends (reached a) (reached (fst (for_each f ps a))).
Proof.
  intros Hf. revert a. induction ps as [|x ps IH]; intros a; simpl; [apply only_sends_refl|].
  unfold abind. pose proof (Hf x a) as H. destruct (f x a) as [a' []]; simpl in *; try done.
  eapply only_sends_trans; [done|apply IH].
Qed.

Lemma attempt_only m a :
  (forall s, only_sends s (fst (m s))) -> only_sends (reached a) (reached (fst (attempt m a))).
Proof. intros H. unfold attempt. specialize (H (reached a)). by destruct (m (reached a)) as [s []]. Qed.

Lemma conclude_only b loop s :
  (forall a, only_sends (reached a) (reached (fst (loop a)))) -> only_sends s (fst (conclude b loop s)).
Proof.
  intros H. unfold conclude. specialize (H (tallied true false (Ok tt) s)).
  by destruct (loop _) as [a []].
Qed.

Lemma do_killpg_only me g signal s : only_sends s (fst (do_killpg me g signal s)).
Proof.
  unfold do_killpg. case_match; [apply only_sends_refl|]. apply conclude_only. intros a.
  apply attempts_only. intros x a'. case_match; [|apply only_sends_refl].
  apply attempt_only, do_kill_only.
Qed.

Lemma do_killall_only ignored me signal s : only_sends s (fst (do_killall ignored me signal s)).
Proof.
  apply conclude_only. intros a. apply attempts_only. intros x a'. apply attempt_only. intros s'.
  case_match; [apply do_killself_only|apply do_kill_only].
Qed.

Lemma good_sends n s s' : good n s -> only_sends s s' -> good n s'.
Proof. intros [H1 H2] [l ->]. split; [by apply (same_fields_inv s)|done]. Qed.

Lemma ends_sends {A} n m (k : unit -> action sys A) s :
  good n s -> only_sends s (fst (m s)) -> (forall s', fst (k tt s') = s') -> ends (good n) (abind m k) s.
Proof.
  intros G H Hk. unfold ends, abind. apply (good_sends n s); [done|].
  destruct (m s) as [s' [[]| | |]]; simpl in *; try done. by rewrite Hk.
Qed.

Lemma good_kill n ignored i target signal s :
  good n s -> ends (good n) (sys_kill ignored i target signal) s.
Proof.
  intros G. unfold sys_kill. apply ends_self; [done|]. intros me Hme. apply ends_require; [done|].
  case_match; [done|]. case_match.
  { case_match; [done|]. by apply ends_sends; [|apply do_killpg_only|]. }
  case_match; [by apply ends_sends; [|apply do_killall_only|]|].
  case_match; [by apply ends_sends; [|apply do_killself_only|]|]. case_match; [done|].
  apply ends_gets. destruct (from_pid_in_same_process_list _ _ _) as [[k p]|]; [|done].
  by apply ends_sends; [|apply do_kill_only|].
Qed.

Lemma good_killpg n i pgrp signal s : good n s -> ends (good n) (sys_killpg i pgrp signal) s.
Proof.
  intros G. unfold sys_killpg. apply ends_require; [done|]. apply ends_self; [done|]. intros me Hme.
  repeat (case_match; [done|]). by apply ends_sends; [|apply do_killpg_only|].
Qed.

(** ** Runs *)

Lemma good_disown n i pid s : good n s -> ends (good n) (sys_disown i pid) s.
Proof.
  intros G. unfold sys_disown. apply ends_require; [done|]. apply ends_self; [done|]. intros me Hme.
  apply ends_gets. destruct (from_pid_in_same_process_list _ _ _) as [[k p]|]; [|done].
  case_match; [done|]. apply ends_modify. destruct G as [Hs Hn]. split; [|done]. simpl. keep_update.
Qed.

Lemma good_foreground n i y g memory s : good n s -> ends (good n) (set_foreground i y g memory) s.
Proof.
  intros G. unfold set_foreground. apply ends_require; [done|]. apply ends_self; [done|]. intros me Hme.
  apply ends_bind; [by unfold terminal_of; case_match|]. intros s' d E.
  assert (s' = s) as -> by (unfold terminal_of in E; case_match; by simplify_eq).
  case_match; [done|]. apply ends_gets. unfold from_pgid. case_bool_decide as Hg; [|done].
  do 2 apply ends_gets. do 3 (match goal with |- ends _ (if ?b then _ else _) _ => destruct b; [done|] end).
  apply ends_gets. destruct G as [Hs Hn].
  unfold ends, modify. simpl. split; [|done]. destruct Hs.
  constructor; unfold member in *; simpl; try done.
  intros y' d' g'. rewrite lookup_insert_Some. intros [[<- <-]|[_ Hy]]; simpl; [congruence|eauto].
Qed.

Lemma inv_remove i s : inv s -> inv (remove_process i s).
Proof.
  intros Hs. unfold remove_process. destruct (processes s !! i) as [p|] eqn:Hp; [|done].
  case_match; [done|]. set (s1 := set_all_instances _ s).
  set (s2 := match m_scoped_process_list p with Some _ => _ | None => s1 end).
  assert (H2 : inv s2) by (by apply (same_fields_inv s); unfold s2; destruct (m_scoped_process_list p)).
  apply inv_unref. clearbody s2. destruct H2. unfold member in *.
  constructor; unfold member; simpl; try done; intros;
    repeat match goal with H : delete _ _ !! _ = Some _ |- _ => apply lookup_delete_Some in H as [_ H] end;
    repeat match goal with H : _ /\ process_group _ = _ |- _ => destruct H as [[_ ?]%lookup_delete_Some ?] end;
    eauto.
Qed.

Lemma next_pid_remove i s : next_pid (remove_process i s) = next_pid s.
Proof.
  unfold remove_process. destruct (processes s !! i) as [p|]; [|done]. case_match; [done|].
  rewrite next_pid_unref. by destruct (m_scoped_process_list p).
Qed.

Lemma inv_waited_for_group g s : inv s -> inv (waited_for_group g s).
Proof.
  intros Hs. unfold waited_for_group. case_bool_decide; [|done]. apply inv_unref_group. by apply (same_fields_inv s).
Qed.

Lemma step_good e s :
  inv s -> 0 < next_pid s < 2 ^ 31 - 1 -> good (next_pid s) (step e s).
Proof.
  intros Hs Hn. destruct (good_bump s Hs) as [G _].
  destruct e; simpl; [by apply good_kernel_process|by apply good_init_process|by apply good_setsid
    |by apply good_setpgid|by apply good_fork|by apply good_spawn|by apply good_execve|by apply good_disown
    |by apply good_kill|by apply good_killpg| |by apply good_foreground| |by apply good_create_thread|..].
  - apply (good_keep _ s); [done| |done]. intros _. apply inv_update; [done|]. intros p Hp. simpl.
    split_and!; auto. unfold sid, credentials_of. simpl. apply Process.session_step.
  - apply (good_keep _ s); [done|apply inv_replace_list|apply next_pid_replace_list].
  - apply (good_keep _ s); [done| |done]. intros _. apply inv_update; [done|]. intros p Hp. simpl.
    split_and!; auto. intros x. by intros [_ ?]%list_elem_of_filter.
  - apply (good_keep _ s); [done| |done]. intros _. apply inv_update; [done|]. intros p Hp.
    case_bool_decide; simpl; split_and!; auto.
  - apply (good_keep _ s); [done| |done]. intros _. apply inv_update; [done|]. intros p Hp.
    case_bool_decide; simpl; split_and!; auto.
  - apply (good_keep _ s); [done|apply inv_remove|apply next_pid_remove].
  - apply (good_keep _ s); [done| |]; unfold wait_for_group, from_pgid; case_bool_decide; try done.
    intros _. by apply (same_fields_inv s).
  - apply (good_keep _ s); [done|apply inv_waited_for_group|]. unfold waited_for_group.
    case_bool_decide; [|done]. by rewrite next_pid_unref_group.
Qed.

Lemma inv_booted ttys : inv (booted ttys).
Proof.
  constructor; unfold member; simpl; try (intros; by destruct_and?; rewrite lookup_empty in *); try set_solver.
  intros y d g H. apply elem_of_list_to_map_2, list_elem_of_In, in_map_iff in H as (y' & [= <- <-] & _). done.
Qed.

Lemma run_inv es s :
  inv s -> 0 < next_pid s -> next_pid s + Z.of_nat (length es) <= 2 ^ 31 - 1 -> inv (run es s).
Proof.
  unfold run. revert s. induction es as [|e es IH]; intros s Hs H0 Hn; [done|]. simpl in *.
  destruct (step_good e s Hs) as [H1 H2]; [lia|]. apply IH; [done|lia|lia].
Qed.

Definition few (es : list event) : Prop := Z.of_nat (length es) <= 2 ^ 31 - 2.

Lemma run_from_boot_inv ttys es : few es -> inv (run es (booted ttys)).
Proof. intros H. unfold few in H. apply run_inv; [apply inv_booted|done|simpl; lia]. Qed.

(** ** The main theorems *)

Definition plain : program := executable None None false.

(** A first program, a login session of process 2 with the processes 3 and 4 in
    the group 3. *)
Definition sample_events : list event :=
  [InitProcess true true true None plain; Fork 1 true true true; Setsid 2 true true;
   Fork 2 true true true; Setpgid 2 3 3 true true; Fork 3 true true true].

(** C11: however processes fork, spawn, execute programs, exit and move between
    groups, sessions and process lists, all processes of a group are in one
    session. *)
Theorem group_in_one_session (ttys : list Z) (es : list event) (k k' g : Z) (p p' : t) :
  few es ->
  member (run es (booted ttys)) k p g -> member (run es (booted ttys)) k' p' g -> sid p = sid p'.
Proof. intros H. apply (inv_session _ (run_from_boot_inv ttys es H)). Qed.

Lemma group_in_one_session_witness :
  match processes (run sample_events (booted [0])) !! 3, processes (run sample_events (booted [0])) !! 4 with
  | Some p, Some p' => process_group p = Some 3 /\ process_group p' = Some 3 /\ sid p = sid p'
  | _, _ => False
  end.
Proof.
  destruct (processes (run sample_events (booted [0])) !! 3) as [p|] eqn:E3; [|by vm_compute in E3].
  destruct (processes (run sample_events (booted [0])) !! 4) as [p'|] eqn:E4; [|by vm_compute in E4].
  assert (G : process_group p = Some 3) by (vm_compute in E3; by injection E3 as <-).
  assert (G' : process_group p' = Some 3) by (vm_compute in E4; by injection E4 as <-).
  split; [done|]. split; [done|].
  apply (group_in_one_session [0] sample_events 3 4 3); [unfold few; simpl; lia|by split|by split].
Defined.

Lemma root_session_total fuel me x s :
  inv s -> (Z.to_nat x < fuel)%nat -> exists r, root_session fuel me x s = Some r /\
    forall y, r = Ok y -> exists k p k' p', processes s !! k = Some p /\ processes s !! k' = Some p' /\
      m_pid p = y /\ m_pid p' = m_ppid p /\ sid p' = 0.
Proof.
  intros Hs. revert x. induction fuel as [|fuel IH]; intros x Hx; [lia|]. simpl.
  destruct (from_pid_in_same_process_list me x s) as [[k p]|] eqn:F; [|by eexists].
  apply from_pid_Some in F as [Hk Hp].
  destruct (from_pid_in_same_process_list me (m_ppid p) s) as [[k' p']|] eqn:F'; [|by eexists].
  apply from_pid_Some in F' as [Hk' Hp']. case_match eqn:E.
  - eexists. split; [done|]. intros y [= <-]. exists k, p, k', p'. split_and!; try done. lia.
  - pose proof (inv_parent s Hs k p Hk). pose proof (inv_sid s Hs k' p' Hk').
    apply IH. lia.
Qed.

(** C34: [get_root_session_id] returns on every reachable state, for any session
    it is asked for and after at most as many rounds as the largest number
    involved; a session other than 0 that it returns is that of a process
    whose parent is in the session 0. *)
Theorem root_session_terminates (ttys : list Z) (es : list event) (i force_sid : Z) (fuel : nat) :
  few es -> Z.max force_sid (next_pid (run es (booted ttys))) < Z.of_nat fuel ->
  exists r, sys_get_root_session_id fuel i force_sid (run es (booted ttys)) = Some r /\
    forall y, r = Ok y -> y <> 0 ->
      exists k p k' p', processes (run es (booted ttys)) !! k = Some p /\
        processes (run es (booted ttys)) !! k' = Some p' /\
        m_pid p = y /\ m_pid p' = m_ppid p /\ sid p' = 0.
Proof.
  intros Hes Hf. pose proof (run_from_boot_inv ttys es Hes) as Hs. set (s := run es (booted ttys)) in *.
  unfold sys_get_root_session_id. destruct (require i Process.stdio s) as [s' []]; try by eexists.
  destruct (processes s !! i) as [me|] eqn:Hi; [|by eexists].
  set (x := if force_sid =? -1 then sid me else force_sid). case_match.
  { eexists. split; [done|]. by intros y [= <-]. }
  destruct (root_session_total fuel me x s Hs) as (r & E & Hr).
  { pose proof (inv_sid s Hs i me Hi). pose proof (inv_owned s Hs i me _ Hi (owned_pid me)).
    subst x. case_match; lia. }
  exists r. split; [done|]. eauto.
Qed.

Lemma root_session_terminates_witness :
  next_pid (run sample_events (booted [0])) = 5 /\
  sys_get_root_session_id 6 4 (-1) (run sample_events (booted [0])) = Some (Ok 2) /\
  exists r, sys_get_root_session_id 6 4 (-1) (run sample_events (booted [0])) = Some r /\
    forall y, r = Ok y -> y <> 0 ->
      exists k p k' p', processes (run sample_events (booted [0])) !! k = Some p /\
        processes (run sample_events (booted [0])) !! k' = Some p' /\
        m_pid p = y /\ m_pid p' = m_ppid p /\ sid p' = 0.
Proof.
  split; [by vm_compute|]. split; [by vm_compute|].
  apply root_session_terminates; [unfold few; simpl; lia|].
  assert (next_pid (run sample_events (booted [0])) = 5) as -> by by vm_compute. lia.
Defined.

Lemma pgid_member s k p g : processes s !! k = Some p -> pgid p = g -> g <> 0 -> member s k p g.
Proof. unfold pgid. intros Hp Hg H0. split; [done|]. destruct (process_group p); congruence. Qed.

Lemma set_foreground_cases i y g memory s s' r :
  inv s -> set_foreground i y g memory s = (s', r) ->
  (r <> Ok tt /\ s' = s) \/
  r = Ok tt /\ exists me d, processes s !! i = Some me /\ sid me <> 0 /\ g ∈ groups s /\
    s' = set_terminals (<[y := d]> (terminals s)) s /\ m_pg d = Some g /\
    exists k p, member s k p g /\ sid p = sid me.
Proof.
  intros Hs. unfold set_foreground, require, self, terminal_of, abind, lift, gets, modify, ret, from_pgid.
  destruct (processes s !! i) as [me|] eqn:Hi; [|intros [= <- <-]; by left].
  destruct (Process.require_promise _ _) as [[]| | |]; try (intros [= <- <-]; by left).
  rewrite Hi. destruct (terminals s !! y) as [d|] eqn:Hy; [|intros [= <- <-]; by left].
  destruct (g <=? 0) eqn:G0; [intros [= <- <-]; by left|].
  case_bool_decide as Hg; [|intros [= <- <-]; by left].
  destruct (from_pid_in_same_process_list me g s) as [[k p]|] eqn:F; cbn -[from_pid_ignoring_process_lists].
  - apply from_pid_Some in F as [Hk _].
    destruct ((sid p =? 0) || negb (sid p =? sid me)) eqn:C1; [intros [= <- <-]; by left|].
    apply orb_false_iff in C1 as [C0 C1]. destruct (negb (g =? pgid p)) eqn:C2; [intros [= <- <-]; by left|].
    destruct memory; [|intros [= <- <-]; by left]. intros [= <- <-]. right. split; [done|].
    exists me. eexists. do 3 (split; [done || lia|]). do 2 (split; [done|]).
    exists k, p. split; [apply pgid_member; [done|lia|lia]|lia].
  - destruct ((get_sid_from_pgid me g s =? 0) || negb (get_sid_from_pgid me g s =? sid me)) eqn:C1;
      [intros [= <- <-]; by left|].
    apply orb_false_iff in C1 as [C0 C1]. destruct memory; [|intros [= <- <-]; by left].
    intros [= <- <-]. right. split; [done|]. pose proof (inv_sid s Hs i me Hi).
    exists me. eexists. do 3 (split; [done || lia|]). do 2 (split; [done|]).
    destruct (get_sid_from_pgid_cases me g s) as [[E _]|(k & p & Hp & _ & Hpg & E)]; [lia|].
    apply elem_of_listed in Hp as [Hp _]. exists k, p. split; [apply pgid_member; [done|lia|lia]|lia].
Qed.

(** C24: a terminal only gets a foreground group that exists and all of whose
    processes are in the session of the caller, which is not the session 0;
    otherwise the terminal is unchanged. *)
Theorem foreground_in_session (ttys : list Z) (es : list event) (i y g : Z) (memory : bool)
    (s' : sys) (r : outcome unit) :
  few es -> set_foreground i y g memory (run es (booted ttys)) = (s', r) ->
  (r <> Ok tt -> s' = run es (booted ttys)) /\
  (r = Ok tt ->
   exists me, processes (run es (booted ttys)) !! i = Some me /\ sid me <> 0 /\
     g ∈ groups s' /\ (exists d, terminals s' !! y = Some d /\ tty_pgid d = g) /\
     (forall y', y' <> y -> terminals s' !! y' = terminals (run es (booted ttys)) !! y') /\
     (exists k p, member s' k p g) /\
     forall k p, member s' k p g -> sid p = sid me).
Proof.
  intros Hes E. pose proof (run_from_boot_inv ttys es Hes) as Hs.
  destruct (set_foreground_cases i y g memory _ s' r Hs E)
    as [[Hr ->]|(-> & me & d & Hi & H0 & Hg & -> & Hd & k & p & M & Sp)]; [by split|].
  split; [done|]. intros _. exists me. do 3 (split; [done|]).
  split; [exists d; split; [apply lookup_insert_eq|unfold tty_pgid; by rewrite Hd]|].
  split; [intros y' N; by apply lookup_insert_ne|]. split; [by exists k, p|].
  intros k' p' M'. rewrite <- Sp. by apply (inv_session _ Hs k' k p' p g).
Qed.

Lemma foreground_in_session_witness :
  match set_foreground 2 0 3 true (run sample_events (booted [0])) with
  | (s', r) => r = Ok tt /\ forall k p, member s' k p 3 -> sid p = 2
  end.
Proof.
  destruct (set_foreground 2 0 3 true (run sample_events (booted [0]))) as [s' r] eqn:E.
  assert (r = Ok tt) as -> by (vm_compute in E; by injection E).
  split; [done|].
  destruct (foreground_in_session [0] sample_events 2 0 3 true s' (Ok tt)) as [_ H];
    [unfold few; simpl; lia|done|].
  destruct (H eq_refl) as (me & Hme & _ & _ & _ & _ & _ & Hm).
  assert (sid me = 2) as <- by (vm_compute in Hme; by injection Hme as <-). done.
Defined.

Lemma killpg_exact_witness :
  match processes (run sample_events (booted [0])) !! 2 with
  | Some me =>
      0 <= 3 /\ map m_pid (targets me 3 (run sample_events (booted [0]))) = [4; 3] /\
      do_killpg me 3 15 (run sample_events (booted [0])) =
      (set_sent [(4, 15, Some 2); (3, 15, Some 2)] (run sample_events (booted [0])), Ok tt)
  | None => False
  end.
Proof.
  destruct (processes (run sample_events (booted [0])) !! 2) as [me|] eqn:E; [|by vm_compute in E].
  split; [lia|]. vm_compute in E. injection E as <-. split; [by vm_compute|].
  rewrite killpg_exact by lia. by vm_compute.
Defined.

(** ** Confinement of children *)

Lemma commit_lookup parent_list child s :
  exists p, processes (fst (commit_creation parent_list child s)) !! m_pid child = Some p /\
    values p = values child /\ process_group p = process_group child /\ m_ppid p = m_ppid child.
Proof.
  destruct parent_list as [l|]; (eexists; split; [simpl; apply lookup_insert_eq|done]).
Qed.

(** C27: the child of [fork] is confined like its parent: it has the same
    credentials, promises and promises for the next program, the same group,
    and is in a jail if the parent is, until it exits or executes a program as
    for the parent. *)
Theorem fork_confines (i : Z) (memory resources copied : bool) (s s' : sys) (me : t) (c : Z) :
  processes s !! i = Some me -> sys_fork i memory resources copied s = (s', Ok c) ->
  exists p, processes s' !! c = Some p /\ m_ppid p = m_pid me /\ process_group p = process_group me /\
    credentials_of p = credentials_of me /\
    Process.has_promises (values p) = Process.has_promises (values me) /\
    Process.promises (values p) = Process.promises (values me) /\
    Process.has_execpromises (values p) = Process.has_execpromises (values me) /\
    Process.execpromises (values p) = Process.execpromises (values me) /\
    is_jailed (values p) = is_jailed (values me) /\
    Process.jailed_until_exit (values p) = Process.jailed_until_exit (values me).
Proof.
  intros Hi. unfold sys_fork, require, self, abind at 1 2 3, lift. rewrite Hi.
  destruct (Process.require_promise _ _) as [[]| | |]; try discriminate. unfold abind at 1. rewrite Hi.
  destruct (m_is_kernel_process me); [discriminate|]. unfold create_impl, abind at 1.
  destruct memory; [|discriminate]. cbn [negb]. unfold abind at 1, allocate_pid at 1.
  destruct resources; [|discriminate]. cbn [negb]. unfold ret at 1.
  destruct copied; [|discriminate]. cbn [negb].
  set (s1 := set_next_pid _ s). set (child := with_group (process_group me) _).
  destruct (commit_lookup (m_scoped_process_list me) child s1) as (p & Hp & Hv & Hg & Hpp).
  unfold abind. intros [= <- <-]. exists p. split; [done|]. rewrite Hpp, Hg. unfold credentials_of.
  rewrite Hv. unfold is_jailed. simpl. by rewrite orb_false_r.
Qed.

(** The first program puts itself into a jail. *)
Definition jailed_events : list event :=
  [InitProcess true true true None plain;
   Identity 1 (Process.Prctl (fun _ => Ok 0) Process.PR_SET_JAILED_UNTIL_EXIT 0)].

Lemma fork_confines_witness :
  match sys_fork 1 true true true (run jailed_events (booted [])) with
  | (s', Ok c) => exists p, processes s' !! c = Some p /\ m_ppid p = 1 /\ is_jailed (values p) = true
  | _ => False
  end.
Proof.
  destruct (sys_fork 1 true true true (run jailed_events (booted []))) as [s' o] eqn:E.
  assert (o = Ok 2) as -> by (vm_compute in E; by injection E).
  destruct (processes (run jailed_events (booted [])) !! 1) as [me|] eqn:Hi; [|by vm_compute in Hi].
  destruct (fork_confines 1 true true true (run jailed_events (booted [])) s' me 2 Hi E)
    as (p & Hp & P & _ & _ & _ & _ & _ & _ & J & _).
  exists p. split; [done|]. rewrite P, J. vm_compute in Hi. injection Hi as <-. done.
Defined.

(** [posix_spawn] copies neither the jail nor the promises for the next
    program: the child of a process that may only start confined programs is
    not confined. *)
Lemma spawn_escapes_confinement (i : Z) (memory resources copied loaded : bool) (f : program)
    (s s' : sys) (c : Z) :
  sys_posix_spawn i (Ok tt) memory resources copied loaded f s = (s', Ok c) ->
  exists p, processes s' !! c = Some p /\ is_jailed (values p) = false /\
    forall promise, Process.require_promise (values p) promise = Ok tt.
Proof.
  unfold sys_posix_spawn, require, self, abind at 1 2 3 4 5 6, lift.
  destruct (processes s !! i) as [me|] eqn:Hi; [|discriminate].
  destruct (Process.require_promise _ _) as [[]| | |]; try discriminate. rewrite Hi.
  destruct (Process.require_promise _ _) as [[]| | |]; try discriminate. rewrite Hi.
  destruct (m_is_kernel_process me); [discriminate|]. unfold create_impl, abind at 1.
  destruct memory; [|discriminate]. cbn [negb]. unfold abind at 1, allocate_pid at 1.
  destruct resources; [|discriminate]. cbn [negb]. unfold ret at 1.
  destruct copied; [|discriminate]. cbn [negb].
  destruct (exec_check (values me) f) as [[]| | |]; try discriminate.
  destruct loaded; [|discriminate]. cbn [negb].
  set (s1 := set_next_pid _ s). set (child := with_values _ _).
  destruct (commit_lookup (m_scoped_process_list me) child s1) as (p & Hp & Hv & _ & _).
  unfold abind. intros [= <- <-]. exists p. split; [done|]. rewrite Hv. by split.
Qed.

(** [setsid] moves the process to a group of its own but leaves the old number
    in its credentials, which the permission check for [SIGCONT] uses: the
    processes of the old group may still continue it. *)
Lemma setsid_leaves_old_pgid_in_credentials :
  let s := run [InitProcess true true true None plain; Fork 1 true true true;
                Setpgid 1 2 0 true true; Fork 2 true true true; Setsid 3 true true;
                Identity 2 (Process.Setuid true 100)] (booted []) in
  match processes s !! 2, processes s !! 3 with
  | Some p, Some q =>
      pgid p = 2 /\ pgid q = 3 /\ sid p <> sid q /\ Process.m_pgid (credentials_of q) = 2 /\
      can_send_signal p q SIGCONT = true /\ can_send_signal p q 15 = false
  | _, _ => False
  end.
Proof. vm_compute. repeat split. discriminate. Qed.

(** A session leader that executes a program from a thread other than its first
    takes the number of that thread, and is no session leader any more. *)
Lemma exec_from_thread_loses_leadership :
  let s := run (sample_events ++ [CreateThread 2; Execve 2 5 plain true]) (booted []) in
  match processes s !! 2 with
  | Some p => m_pid p = 5 /\ sid p = 2 /\ is_session_leader p = false
  | None => False
  end.
Proof. by vm_compute. Qed.
End Sessions.
