(* ===== verification/Unveil.v ===== *)
(** The veil, [Kernel/Syscalls/unveil.cpp] and the checks against it in
    [Kernel/FileSystem/VirtualFileSystem.cpp]: the tree of unveiled paths, and
    the rules it stands for. *)

From Stdlib Require Import Ascii String.
From S2P Require Import Prelude StringView LexicalPath.

Module Unveil.
#[local] Open Scope Z_scope.

(** [UnveilAccess] *)
Abbreviation Read := 1%Z (only parsing).
Abbreviation Write := 2%Z (only parsing).
Abbreviation Execute := 4%Z (only parsing).
Abbreviation CreateOrRemove := 8%Z (only parsing).
Abbreviation Browse := 16%Z (only parsing).
Abbreviation None_ := 0%Z (only parsing).

Record UnveilMetadata : Type := metadata {
  full_path : StringView.t;
  permissions : Z;
  explicitly_unveiled : bool
}.

(** [UnveilNode]: a node of the trie and its children by name. *)
Inductive UnveilNode : Type :=
| node (m_metadata : UnveilMetadata) (m_children : list (StringView.t * UnveilNode)).

Definition m_metadata (n : UnveilNode) : UnveilMetadata := match n with node m _ => m end.
Definition m_children (n : UnveilNode) : list (StringView.t * UnveilNode) := match n with node _ cs => cs end.
Definition set_metadata (n : UnveilNode) (m : UnveilMetadata) : UnveilNode := node m (m_children n).

(** ** The trie *)

Fixpoint find_child (name : StringView.t) (cs : list (StringView.t * UnveilNode)) : option UnveilNode :=
  match cs with
  | [] => None
  | (k, c) :: cs => if bool_decide (k = name) then Some c else find_child name cs
  end.

Fixpoint replace_child (name : StringView.t) (child : UnveilNode) (cs : list (StringView.t * UnveilNode))
    : list (StringView.t * UnveilNode) :=
  match cs with
  | [] => []
  | (k, c) :: cs => if bool_decide (k = name) then (k, child) :: cs else (k, c) :: replace_child name child cs
  end.

(** [traverse_until_last_accessible_node]: the node and the parts that are left. *)
Fixpoint traverse_until_last_accessible_node (n : UnveilNode) (it : list StringView.t)
    : UnveilNode * list StringView.t :=
  match it with
  | [] => (n, [])
  | part :: rest =>
      match find_child part (m_children n) with
      | None => (n, it)
      | Some c => traverse_until_last_accessible_node c rest
      end
  end.

(** A change of that node in place. *)
Fixpoint change_last_accessible_node (n : UnveilNode) (it : list StringView.t)
    (change : UnveilNode -> list StringView.t -> UnveilNode) : UnveilNode :=
  match it with
  | [] => change n []
  | part :: rest =>
      match find_child part (m_children n) with
      | None => change n it
      | Some c => node (m_metadata n) (replace_child part (change_last_accessible_node c rest change) (m_children n))
      end
  end.

(** The function that [update_unveil_data] hands to [insert]: what a node between
    gets. *)
Definition provide_missing_metadata (parent : UnveilNode) (part : StringView.t) : UnveilMetadata :=
  metadata (full_path (m_metadata parent) ++ "/"%char :: part) (permissions (m_metadata parent)) false.

(** [insert] of parts below a node that has no child of the first one's name.
    [memory] is the number of children that can be allocated; the result says
    whether that was enough. *)
Fixpoint insert (memory : nat) (n : UnveilNode) (it : list StringView.t) (m : UnveilMetadata) {struct it}
    : UnveilNode * bool :=
  match it with
  | [] => (set_metadata n m, true)
  | part :: it =>
      match memory with
      | O => (n, false)
      | S memory =>
          let child := node (provide_missing_metadata n part) [] in
          let (child, ok) := insert memory child it m in
          (node (m_metadata n) (m_children n ++ [(part, child)]), ok)
      end
  end.

(** ** Unveiling *)

(** [VeilState]; [NoVeil] is [None] in the code. *)
Inductive VeilState : Type := NoVeil | Dropped | Locked | LockedInherited.

#[global] Instance VeilState_eq_dec : EqDecision VeilState.
Proof. solve_decision. Defined.

Record UnveilData : Type := data { state : VeilState; paths : UnveilNode }.

Definition was_explicitly_unveiled (n : UnveilNode) : bool := explicitly_unveiled (m_metadata n).

Definition with_permissions (n : UnveilNode) (p : Z) : UnveilNode :=
  set_metadata n (metadata (full_path (m_metadata n)) p (explicitly_unveiled (m_metadata n))).

Fixpoint update_intermediate_node_permissions (root_node : UnveilNode) (new_permissions : Z) : UnveilNode :=
  match root_node with
  | node m cs =>
      node m ((fix children (cs : list (StringView.t * UnveilNode)) : list (StringView.t * UnveilNode) :=
                 match cs with
                 | [] => []
                 | (k, c) :: cs =>
                     (k, if was_explicitly_unveiled c then c
                         else with_permissions (update_intermediate_node_permissions c new_permissions) new_permissions)
                     :: children cs
                 end) cs)
  end.

(** The change of a node whose path was asked for and is there. *)
Definition unveil_node (n : UnveilNode) (new_permissions : Z) : UnveilNode :=
  let n := if negb (permissions (m_metadata n) =? new_permissions)
           then update_intermediate_node_permissions n new_permissions else n in
  set_metadata n (metadata (full_path (m_metadata n)) new_permissions true).

Definition update_unveil_data (memory : nat) (unveiled_path : StringView.t) (new_permissions : Z)
    : action UnveilData unit :=
  fun d =>
    match KLexicalPath.parts unveiled_path with
    | Ok path_parts =>
        if decide (state d = LockedInherited) then (d, Ok tt) else
        if decide (state d = Locked) then (d, Err EPERM) else
        let (matching_node, it) := traverse_until_last_accessible_node (paths d) path_parts in
        match it with
        | [] =>
            if was_explicitly_unveiled matching_node &&
               negb (Z.land new_permissions (Z.lnot (permissions (m_metadata matching_node))) =? 0)
            then (d, Err EPERM)
            else (data Dropped (change_last_accessible_node (paths d) path_parts
                                  (fun n _ => unveil_node n new_permissions)), Ok tt)
        | _ =>
            let m := metadata unveiled_path new_permissions true in
            let tree := change_last_accessible_node (paths d) path_parts (fun n it => fst (insert memory n it m)) in
            if snd (insert memory matching_node it m) then (data Dropped tree, Ok tt)
            else (data (state d) tree, Err ENOMEM)
        end
    | Err e => (d, Err e)
    | Panic => (d, Panic)
    | Undefined => (d, Undefined)
    end.

(** [UnveilFlags] *)
Abbreviation CurrentProgram := (Z.shiftl 1 0)%Z (only parsing).
Abbreviation AfterExec := (Z.shiftl 1 1)%Z (only parsing).

Definition has (flags bit : Z) : bool := negb (Z.land flags bit =? 0).

Record Veil : Type := veil { unveil_data : UnveilData; exec_unveil_data : UnveilData }.

(** What [resolve_path_without_veil] finds: the absolute path of the file, or an
    error and the path of the parent directory if only the last part is missing. *)
Record Resolution : Type := resolved { custody : outcome StringView.t; parent_custody : option StringView.t }.

(** The letters of a permission string. *)
Fixpoint parse_permissions (letters : list ascii) (new_permissions : Z) : outcome Z :=
  match letters with
  | [] => Ok new_permissions
  | c :: letters =>
      if Ascii.eqb c "r" then parse_permissions letters (Z.lor new_permissions Read)
      else if Ascii.eqb c "w" then parse_permissions letters (Z.lor new_permissions Write)
      else if Ascii.eqb c "x" then parse_permissions letters (Z.lor new_permissions Execute)
      else if Ascii.eqb c "c" then parse_permissions letters (Z.lor new_permissions CreateOrRemove)
      else if Ascii.eqb c "b" then parse_permissions letters (Z.lor new_permissions Browse)
      else Err EINVAL
  end.

(** The path that is unveiled. *)
Definition path_to_unveil (allocated : bool) (resolve : StringView.t -> Resolution) (path : StringView.t)
    (new_permissions : Z) : outcome StringView.t :=
  match custody (resolve path) with
  | Err ENOENT =>
      match parent_custody (resolve path) with
      | Some parent =>
          if has new_permissions CreateOrRemove
          then KLexicalPath.try_join allocated parent (KLexicalPath.basename path)
          else Err ENOENT
      | None => Err ENOENT
      end
  | r => r
  end.

Definition on_current (m : action UnveilData unit) : action Veil unit :=
  fun v => let '(d, o) := m (unveil_data v) in (veil d (exec_unveil_data v), o).
Definition on_exec (m : action UnveilData unit) : action Veil unit :=
  fun v => let '(d, o) := m (exec_unveil_data v) in (veil (unveil_data v) d, o).

(** The string arguments are absent, or what comes of copying them in. *)
Definition sys_unveil (memory exec_memory : nat) (allocated : bool) (resolve : StringView.t -> Resolution)
    (path permissions : option (outcome StringView.t)) (flags : Z) : action Veil Z :=
  match path, permissions with
  | None, None =>
      let* _ := modify (fun v => veil (data Locked (paths (unveil_data v))) (exec_unveil_data v)) in
      ret 0
  | _, _ =>
      if negb (has flags CurrentProgram || has flags AfterExec) then lift (Err EINVAL) else
      let* veil_state := gets (fun v => state (unveil_data v)) in
      if has flags CurrentProgram && bool_decide (veil_state = LockedInherited) then ret 0 else
      if has flags CurrentProgram && bool_decide (veil_state = Locked) then lift (Err EPERM) else
      match path, permissions with
      | Some path, Some permissions =>
          let* path := lift path in
          if StringView.is_empty path || negb (StringView.starts_with_char path "/") then lift (Err EINVAL) else
          let* letters := lift permissions in
          let* new_permissions := lift (parse_permissions letters 0) in
          let* new_unveiled_path := lift (path_to_unveil allocated resolve path new_permissions) in
          let* _ := (if has flags CurrentProgram
                     then on_current (update_unveil_data memory new_unveiled_path new_permissions) else ret tt) in
          let* _ := (if has flags AfterExec
                     then on_exec (fun d =>
                       if bool_decide (state d = LockedInherited) then (d, Panic) else
                       update_unveil_data exec_memory new_unveiled_path new_permissions d)
                     else ret tt) in
          ret 0
      | _, _ => lift (Err EINVAL)
      end
  end.

Definition fresh_node : UnveilNode := node (metadata [("/"%char)] None_ false) [].

(** A new process. *)
Definition fresh : Veil := veil (data NoVeil fresh_node) (data NoVeil fresh_node).

(** [clear] and [set_metadata] with a new root; [memory] says whether it could be
    allocated. *)
Definition reset_paths (memory : bool) (n : UnveilNode) : UnveilNode :=
  if memory then fresh_node else node (m_metadata n) [].

(** The part of [do_exec] that hands the veil on; [memory] allocations succeed. *)
Definition exec_veil (memory : nat) : action Veil unit :=
  fun v =>
    let current := unveil_data v in
    let next := exec_unveil_data v in
    match (if decide (state next = Dropped)
           then (data LockedInherited (if (0 <? memory)%nat then paths next else paths current))
           else (data NoVeil (reset_paths (0 <? memory)%nat (paths current)))), memory with
    | current, O => (veil current (data NoVeil (paths next)), Err ENOMEM)
    | current, S memory =>
        (veil current (data NoVeil (reset_paths (0 <? memory)%nat (paths next))),
         if (0 <? memory)%nat then Ok tt else Err ENOMEM)
    end.

(** ** Checking a path *)

Abbreviation O_RDONLY := (Z.shiftl 1 0)%Z (only parsing).
Abbreviation O_WRONLY := (Z.shiftl 1 1)%Z (only parsing).
Abbreviation O_EXEC := (Z.shiftl 1 2)%Z (only parsing).
Abbreviation O_CREAT := (Z.shiftl 1 3)%Z (only parsing).
Abbreviation O_DIRECTORY := (Z.shiftl 1 9)%Z (only parsing).
Abbreviation O_UNLINK_INTERNAL := (Z.shiftl 1 30)%Z (only parsing).

(** The permissions of the node that matches a path. *)
Definition find_matching_unveiled_path (d : UnveilData) (path : StringView.t) : outcome Z :=
  VERIFY (negb (bool_decide (state d = NoVeil))) ;;
  let! path_parts := KLexicalPath.parts path in
  Ok (permissions (m_metadata (fst (traverse_until_last_accessible_node (paths d) path_parts)))).

(** The checks on the permissions that were found. *)
Definition check_permissions (permissions options : Z) : outcome unit :=
  if permissions =? None_ then Err ENOENT else
  if has options O_CREAT && negb (has permissions CreateOrRemove) then Err EACCES else
  if has options O_UNLINK_INTERNAL then
    if negb (has permissions CreateOrRemove) then Err EACCES else Ok tt
  else
  if has options O_RDONLY && has options O_DIRECTORY && negb (has permissions (Z.lor Read Browse)) then Err EACCES else
  if has options O_RDONLY && negb (has options O_DIRECTORY) && negb (has permissions Read) then Err EACCES else
  if has options O_WRONLY && negb (has permissions Write) then Err EACCES else
  if has options O_EXEC && negb (has permissions Execute) then Err EACCES else
  Ok tt.

Definition validate_path_against_process_veil (d : UnveilData) (path : StringView.t) (options : Z) : outcome unit :=
  if bool_decide (state d = NoVeil) then Ok tt else
  VERIFY (StringView.starts_with_char path "/") ;;
  VERIFY (negb (StringView.contains path (KLexicalPath.sv "/../")) &&
          negb (StringView.ends_with path (KLexicalPath.sv "/.."))) ;;
  VERIFY (negb (StringView.contains path (KLexicalPath.sv "/./")) &&
          negb (StringView.ends_with path (KLexicalPath.sv "/."))) ;;
  let! permissions := find_matching_unveiled_path d path in
  check_permissions permissions options.

(** ** The rules a tree stands for *)

Fixpoint node_at (n : UnveilNode) (path : list StringView.t) : option UnveilNode :=
  match path with
  | [] => Some n
  | p :: path => match find_child p (m_children n) with Some c => node_at c path | None => None end
  end.

(** The permissions a path was explicitly unveiled with. *)
Definition rules (n : UnveilNode) (path : list StringView.t) : option Z :=
  match node_at n path with
  | Some c => if was_explicitly_unveiled c then Some (permissions (m_metadata c)) else None
  | None => None
  end.

(** The permissions of a path: those of the longest prefix that was unveiled. *)
Fixpoint granted (rs : list StringView.t -> option Z) (inherited : Z) (path : list StringView.t) : Z :=
  let here := default inherited (rs []) in
  match path with
  | [] => here
  | p :: path => granted (fun r => rs (p :: r)) here path
  end.

(** Along a path, a node that was not explicitly unveiled has the permissions of its
    parent. *)
Fixpoint inherits_along (path : list StringView.t) (n : UnveilNode) (inherited : Z) : Prop :=
  (was_explicitly_unveiled n = false -> permissions (m_metadata n) = inherited) /\
  match path with
  | [] => True
  | p :: path => match find_child p (m_children n) with
                 | Some c => inherits_along path c (permissions (m_metadata n))
                 | None => True
                 end
  end.

Definition inherits (n : UnveilNode) (inherited : Z) : Prop := forall path, inherits_along path n inherited.

Lemma inherits_unfold n i :
  inherits n i <-> (was_explicitly_unveiled n = false -> permissions (m_metadata n) = i) /\
    forall p c, find_child p (m_children n) = Some c -> inherits c (permissions (m_metadata n)).
Proof.
  split.
  - intros H. split; [apply (H [])|]. intros p c E path. destruct (H (p :: path)) as [_ Hc]. by rewrite E in Hc.
  - intros [H1 H2] [|p path]; (split; [done|]); [done|]. destruct (find_child p (m_children n)) eqn:E; [|done].
    by apply (H2 p).
Qed.

(** An explicitly unveiled node inherits nothing. *)
Lemma inherits_explicit n i j : was_explicitly_unveiled n = true -> inherits n i -> inherits n j.
Proof. rewrite !inherits_unfold. intros E [_ H]. split; [congruence|done]. Qed.

Lemma granted_none rs i path : (forall r, rs r = None) -> granted rs i path = i.
Proof. revert rs. induction path as [|p path IH]; intros rs H; simpl; rewrite H; [done|]. by apply IH. Qed.

Lemma rules_cons n p path : rules n (p :: path) = match find_child p (m_children n) with Some c => rules c path | None => None end.
Proof. unfold rules. simpl. by destruct (find_child p (m_children n)). Qed.

Lemma rules_nil n : rules n [] = if was_explicitly_unveiled n then Some (permissions (m_metadata n)) else None.
Proof. done. Qed.

Lemma granted_ext rs rs' i path : (forall r, rs r = rs' r) -> granted rs i path = granted rs' i path.
Proof.
  revert rs rs' i. induction path as [|p path IH]; intros rs rs' i H; simpl; rewrite H; [done|]. by apply IH.
Qed.

(** The search in the tree finds what the rules say. *)
Lemma traverse_granted n i path :
  inherits n i -> permissions (m_metadata (fst (traverse_until_last_accessible_node n path))) = granted (rules n) i path.
Proof.
  revert n i. induction path as [|p path IH]; intros n i H; simpl; apply inherits_unfold in H as [H1 H2];
    assert (default i (rules n []) = permissions (m_metadata n)) as Hd
      by (rewrite rules_nil; destruct (was_explicitly_unveiled n); [done|by rewrite H1]); rewrite Hd; [done|].
  destruct (find_child p (m_children n)) as [c|] eqn:E.
  - rewrite (IH c (permissions (m_metadata n))) by (by apply (H2 p)). apply granted_ext. intros r. by rewrite rules_cons, E.
  - simpl. rewrite granted_none; [done|]. intros r. by rewrite rules_cons, E.
Qed.

(** ** Changing the tree *)

Lemma find_replace q p c cs :
  find_child q (replace_child p c cs) =
  if bool_decide (p = q) then (match find_child p cs with Some _ => Some c | None => None end) else find_child q cs.
Proof.
  induction cs as [|[k d] cs IH]; simpl; [by case_bool_decide|].
  destruct (bool_decide_reflect (k = p)) as [->|Hk]; simpl.
  - by destruct (bool_decide_reflect (p = q)).
  - rewrite IH. destruct (bool_decide_reflect (p = q)) as [->|Hp]; [|done]. by rewrite bool_decide_false.
Qed.

Lemma find_append q p c cs :
  find_child q (cs ++ [(p, c)]) =
  match find_child q cs with Some d => Some d | None => if bool_decide (p = q) then Some c else None end.
Proof. induction cs as [|[k d] cs IH]; simpl; [done|]. rewrite IH. by destruct (bool_decide (k = q)). Qed.

(** A change at the end of a traversal: what the tree stands for changes as the node
    does. *)
Lemma change_ok change P n i x rest :
  inherits n i -> traverse_until_last_accessible_node n P = (x, rest) ->
  (forall j, inherits x j -> inherits (change x rest) j) ->
  inherits (change_last_accessible_node n P change) i /\
  exists Q, P = Q ++ rest /\ node_at n Q = Some x /\
    (forall r, rules (change_last_accessible_node n P change) (Q ++ r) = rules (change x rest) r) /\
    (forall path, ~ Q `prefix_of` path -> rules (change_last_accessible_node n P change) path = rules n path).
Proof.
  intros H E Hch. revert n i H E. induction P as [|p P IH]; intros n i H E; simpl in E |- *.
  { injection E as <- <-. split; [by apply Hch|]. exists []. repeat (split; [done|]). intros path Hn. destruct Hn. apply prefix_nil. }
  destruct (find_child p (m_children n)) as [c|] eqn:Ec.
  2: { injection E as <- <-. split; [by apply Hch|]. exists []. repeat (split; [done|]). intros path Hn. destruct Hn. apply prefix_nil. }
  pose proof H as H'. apply inherits_unfold in H' as [H1 H2]. destruct (IH c (permissions (m_metadata n))) as (Hi & Q & -> & Hx & Hr & Ho);
    [by apply (H2 p)|done|]. split.
  - apply inherits_unfold. split; [done|]. simpl. intros q d. rewrite find_replace, Ec.
    case_bool_decide as Eq; [by intros [= <-]|]. apply H2.
  - exists (p :: Q). split; [done|]. split; [simpl; by rewrite Ec|]. split.
    + intros r. simpl. rewrite rules_cons. simpl. rewrite find_replace, bool_decide_true, Ec by done. apply Hr.
    + intros [|q path] Hn; [done|]. rewrite !rules_cons. simpl. rewrite find_replace, Ec.
      case_bool_decide as Eq; [|done]. subst q. rewrite Ec. apply Ho. intros Hp. by apply Hn, prefix_cons.
Qed.

Lemma traverse_rest n P x rest :
  traverse_until_last_accessible_node n P = (x, rest) ->
  match rest with [] => True | p :: _ => find_child p (m_children x) = None end.
Proof.
  revert n. induction P as [|p P IH]; intros n E; simpl in E; [by injection E as <- <-|].
  destruct (find_child p (m_children n)) eqn:Ec; [by apply (IH u)|]. by injection E as <- <-.
Qed.

Lemma node_at_inherits Q : forall n i x, inherits n i -> node_at n Q = Some x -> exists j, inherits x j.
Proof.
  induction Q as [|p Q IH]; intros n i x H E; simpl in E; [injection E as <-; eauto|].
  apply inherits_unfold in H as [_ H]. destruct (find_child p (m_children n)) as [c|] eqn:Ec; [|done].
  by apply (IH c (permissions (m_metadata n)) x), E; apply (H p).
Qed.

Lemma rules_at Q r : forall n x, node_at n Q = Some x -> rules n (Q ++ r) = rules x r.
Proof.
  induction Q as [|p Q IH]; intros n x E; simpl in E; [by injection E as <-|]. simpl. rewrite rules_cons.
  destruct (find_child p (m_children n)) as [c|]; [by apply IH|done].
Qed.

(** [update_intermediate_node_permissions] *)

Definition updated (w : Z) (c : UnveilNode) : UnveilNode :=
  if was_explicitly_unveiled c then c else with_permissions (update_intermediate_node_permissions c w) w.

Lemma find_updated p n w :
  find_child p (m_children (update_intermediate_node_permissions n w)) =
  match find_child p (m_children n) with Some c => Some (updated w c) | None => None end.
Proof.
  destruct n as [m cs]. simpl. induction cs as [|[k c] cs IH]; simpl; [done|]. by case_bool_decide.
Qed.

Lemma update_root n w : m_metadata (update_intermediate_node_permissions n w) = m_metadata n.
Proof. by destruct n. Qed.

Lemma updated_explicit w c : was_explicitly_unveiled (updated w c) = was_explicitly_unveiled c.
Proof.
  unfold updated. destruct (was_explicitly_unveiled c) eqn:E; [done|]. unfold was_explicitly_unveiled. simpl.
  by rewrite update_root.
Qed.

Lemma updated_inherits w path : forall c i, inherits c i -> inherits_along path (updated w c) w.
Proof.
  induction path as [|p path IH]; intros c i H; pose proof H as H'; apply inherits_unfold in H' as [_ H2];
    pose proof (updated_explicit w c) as Eu; unfold updated in *; destruct (was_explicitly_unveiled c) eqn:E.
  - by apply (inherits_explicit c i w E H).
  - done.
  - by apply (inherits_explicit c i w E H).
  - split; [done|]. simpl. rewrite find_updated. destruct (find_child p (m_children c)) as [d|] eqn:Ed; [|done].
    by apply (IH d (permissions (m_metadata c))), (H2 p).
Qed.

Lemma updated_rules w r : forall c, rules (updated w c) r = rules c r.
Proof.
  induction r as [|p r IH]; intros c.
  - rewrite !rules_nil, updated_explicit. unfold updated. by destruct (was_explicitly_unveiled c) eqn:E.
  - rewrite !rules_cons. unfold updated. destruct (was_explicitly_unveiled c); [done|]. simpl. rewrite find_updated.
    destruct (find_child p (m_children c)); [apply IH|done].
Qed.

(** Unveiling a node that is there. *)
Lemma unveil_node_ok n w i :
  inherits n i -> (forall j, inherits (unveil_node n w) j) /\
  forall r, rules (unveil_node n w) r = match r with [] => Some w | _ => rules n r end.
Proof.
  intros H. apply inherits_unfold in H as [H1 H2]. unfold unveil_node.
  destruct (Z.eqb_spec (permissions (m_metadata n)) w) as [Ew|Ew]; cbn [negb]; split.
  - intros j. apply inherits_unfold. split; [done|]. simpl. rewrite <- Ew. apply H2.
  - intros [|p r]; [done|]. by rewrite !rules_cons.
  - intros j. apply inherits_unfold. split; [done|]. simpl. intros p c. rewrite find_updated.
    destruct (find_child p (m_children n)) as [d|] eqn:Ed; [|done]. intros [= <-] path.
    by apply (updated_inherits w path d (permissions (m_metadata n))), (H2 p).
  - intros [|p r]; [done|]. rewrite !rules_cons. simpl. rewrite find_updated.
    destruct (find_child p (m_children n)) as [d|]; [apply updated_rules|done].
Qed.

(** Inserting nodes below one that lacks the first of them. *)
Lemma insert_ok memory rest : forall n m i,
  match rest with [] => m_children n = [] | p :: _ => find_child p (m_children n) = None end ->
  explicitly_unveiled m = true -> inherits n i ->
  inherits (fst (insert memory n rest m)) i /\
  forall r, rules (fst (insert memory n rest m)) r =
    if snd (insert memory n rest m) && bool_decide (r = rest) then Some (permissions m) else rules n r.
Proof.
  revert memory. induction rest as [|p rest IH]; intros memory n m i Hn Hm H; simpl.
  - split.
    + apply inherits_unfold. destruct n as [m0 cs]. simpl in Hn. subst cs. split; [|by intros p c ?].
      intros E. change (explicitly_unveiled m = false) in E. congruence.
    + intros [|q r]; [rewrite rules_nil; unfold was_explicitly_unveiled; simpl; by rewrite Hm|]. by rewrite !rules_cons.
  - destruct memory as [|memory]; [by split|].
    set (child := node _ []). assert (inherits child (permissions (m_metadata n))) as Hc.
    { apply inherits_unfold. by split. }
    destruct (IH memory child m (permissions (m_metadata n))) as [Hi Hr]; [by destruct rest|done|done|].
    destruct (insert memory child rest m) as [child' ok]. simpl in Hi, Hr |- *. pose proof H as H'.
    apply inherits_unfold in H' as [H1 H2]. split.
    + apply inherits_unfold. split; [done|]. simpl. intros q c. rewrite find_append.
      destruct (find_child q (m_children n)) eqn:Eq; [intros [= <-]; by apply (H2 q)|].
      case_bool_decide; [by intros [= <-]|done].
    + intros [|q r]; [by rewrite andb_false_r, !rules_nil|]. rewrite !rules_cons. simpl. rewrite find_append.
      destruct (bool_decide_reflect (p = q)) as [<-|Hne].
      * rewrite Hn, Hr. destruct ok; [|by destruct r]. simpl. destruct (bool_decide_reflect (r = rest)) as [->|Hr'].
        { by rewrite bool_decide_true. }
        rewrite bool_decide_false by congruence. by destruct r.
      * rewrite (bool_decide_false (q :: r = p :: rest)) by congruence. rewrite andb_false_r.
        by destruct (find_child q (m_children n)).
Qed.

(** ** The specification of the veil *)

Record Spec : Type := spec { s_state : VeilState; s_rules : list StringView.t -> option Z }.

Definition open_veil (s : VeilState) : Prop := s = NoVeil \/ s = Dropped.

(** The rules with one more. *)
Definition add_rule (rs : list StringView.t -> option Z) (path : list StringView.t) (w : Z)
    : list StringView.t -> option Z :=
  fun r => if bool_decide (r = path) then Some w else rs r.

(** What unveiling a path may do. *)
Inductive spec_update (path : list StringView.t) (w : Z) (a : Spec) : Spec -> outcome unit -> Prop :=
| spec_inherited : s_state a = LockedInherited -> spec_update path w a a (Ok tt)
| spec_locked : s_state a = Locked -> spec_update path w a a (Err EPERM)
| spec_elevates p : open_veil (s_state a) -> s_rules a path = Some p -> Z.land w (Z.lnot p) <> 0 ->
    spec_update path w a a (Err EPERM)
| spec_adds a' : open_veil (s_state a) -> (forall p, s_rules a path = Some p -> Z.land w (Z.lnot p) = 0) ->
    s_state a' = Dropped -> (forall r, s_rules a' r = add_rule (s_rules a) path w r) ->
    spec_update path w a a' (Ok tt)
| spec_no_memory : open_veil (s_state a) -> spec_update path w a a (Err ENOMEM).

Definition represents (d : UnveilData) (a : Spec) : Prop :=
  state d = s_state a /\ (forall r, rules (paths d) r = s_rules a r) /\ inherits (paths d) 0.

Lemma parts_render ns : Forall KLexicalPath.name ns -> KLexicalPath.parts (KLexicalPath.render ns) = Ok ns.
Proof.
  intros H. unfold KLexicalPath.parts. by rewrite KLexicalPath.names_canonical, KLexicalPath.split_render.
Qed.

(** The rules of a tree after a change that adds one rule below a node. *)
Lemma added_rule n n' x y Q rest w :
  node_at n Q = Some x ->
  (forall r, rules n' (Q ++ r) = rules y r) -> (forall path, ~ Q `prefix_of` path -> rules n' path = rules n path) ->
  (forall r, rules y r = if bool_decide (r = rest) then Some w else rules x r) ->
  forall r, rules n' r = add_rule (rules n) (Q ++ rest) w r.
Proof.
  intros Hx Hin Hout Hy r. unfold add_rule. destruct (decide (Q `prefix_of` r)) as [[s ->]|Hp].
  - rewrite Hin, Hy, (rules_at Q s n x Hx). destruct (bool_decide_reflect (s = rest)) as [->|Hne];
      [by rewrite bool_decide_true|]. rewrite bool_decide_false; [done|]. by intros ?%app_inv_head.
  - rewrite Hout by done. rewrite bool_decide_false; [done|]. intros ->. apply Hp. by exists rest.
Qed.

(** A change that leaves the rules of the node alone. *)
Lemma same_rules n n' x y Q :
  node_at n Q = Some x ->
  (forall r, rules n' (Q ++ r) = rules y r) -> (forall path, ~ Q `prefix_of` path -> rules n' path = rules n path) ->
  (forall r, rules y r = rules x r) -> forall r, rules n' r = rules n r.
Proof.
  intros Hx Hin Hout Hy r. destruct (decide (Q `prefix_of` r)) as [[s ->]|Hp]; [|by apply Hout].
  by rewrite Hin, Hy, (rules_at Q s n x Hx).
Qed.

(** The path is in the tree. *)
Lemma update_existing ns w d a x :
  represents d a -> open_veil (s_state a) -> traverse_until_last_accessible_node (paths d) ns = (x, []) ->
  exists a', spec_update ns w a a' (if was_explicitly_unveiled x && negb (Z.land w (Z.lnot (permissions (m_metadata x))) =? 0)
                                    then Err EPERM else Ok tt) /\
    represents (if was_explicitly_unveiled x && negb (Z.land w (Z.lnot (permissions (m_metadata x))) =? 0)
                then d else data Dropped (change_last_accessible_node (paths d) ns (fun n _ => unveil_node n w))) a'.
Proof.
  intros (Hs & Hr & Hi) Hopen Et.
  destruct (change_ok (fun n _ => unveil_node n w) ns (paths d) 0 x [] Hi Et) as (Hi' & Q & EQ & Hx & Hin & Hout).
  { intros j Hj. by apply (unveil_node_ok x w j Hj). }
  rewrite app_nil_r in EQ. subst Q. destruct (node_at_inherits ns _ _ x Hi Hx) as [j Hj].
  assert (s_rules a ns = if was_explicitly_unveiled x then Some (permissions (m_metadata x)) else None) as Hrule
    by (rewrite <- Hr; unfold rules; by rewrite Hx).
  destruct (was_explicitly_unveiled x && _) eqn:Ee.
  - apply andb_prop in Ee as [Ee1 Ee2]. apply negb_true_iff, Z.eqb_neq in Ee2. rewrite Ee1 in Hrule.
    exists a. split; [by apply (spec_elevates _ _ _ (permissions (m_metadata x)))|done].
  - exists (spec Dropped (add_rule (s_rules a) ns w)). split.
    + apply spec_adds; [done| |done|done]. intros q Hq. rewrite Hrule in Hq.
      destruct (was_explicitly_unveiled x); [|done]. injection Hq as <-. simpl in Ee. by apply negb_false_iff, Z.eqb_eq in Ee.
    + split; [done|]. split; [|done]. intros r. simpl.
      rewrite (added_rule (paths d) _ x (unveil_node x w) ns [] w Hx Hin Hout).
      * rewrite app_nil_r. unfold add_rule. by rewrite Hr.
      * intros s. rewrite (proj2 (unveil_node_ok x w j Hj)). by destruct s.
Qed.

(** A part of the path is missing in the tree. *)
Lemma update_missing memory full ns w d a x p rest :
  represents d a -> open_veil (s_state a) -> traverse_until_last_accessible_node (paths d) ns = (x, p :: rest) ->
  let m := metadata full w true in
  let tree := change_last_accessible_node (paths d) ns (fun n it => fst (insert memory n it m)) in
  exists a', spec_update ns w a a' (if snd (insert memory x (p :: rest) m) then Ok tt else Err ENOMEM) /\
    represents (if snd (insert memory x (p :: rest) m) then data Dropped tree else data (state d) tree) a'.
Proof.
  intros (Hs & Hr & Hi) Hopen Et. cbv zeta. set (m := metadata full w true).
  pose proof (traverse_rest _ _ _ _ Et) as Hnone. simpl in Hnone.
  destruct (change_ok (fun n it => fst (insert memory n it m)) ns (paths d) 0 x (p :: rest) Hi Et)
    as (Hi' & Q & EQ & Hx & Hin & Hout).
  { intros j Hj. by apply (insert_ok memory (p :: rest) x m j). }
  destruct (node_at_inherits Q _ _ x Hi Hx) as [j Hj].
  destruct (insert_ok memory (p :: rest) x m j Hnone eq_refl Hj) as [_ Hrules].
  destruct (snd (insert memory x (p :: rest) m)) eqn:Eok; cbn [andb] in Hrules.
  - exists (spec Dropped (add_rule (s_rules a) ns w)).
    pose proof (added_rule (paths d) _ x _ Q (p :: rest) w Hx Hin Hout Hrules) as Hadd. rewrite <- EQ in Hadd. split.
    + apply spec_adds; [done| |done|done]. intros q Hq. rewrite <- Hr in Hq. subst ns. rewrite (rules_at _ _ _ x Hx) in Hq.
      rewrite rules_cons, Hnone in Hq. done.
    + split; [done|]. split; [|done]. intros r. simpl. rewrite Hadd. unfold add_rule. by rewrite Hr.
  - exists a. split; [by apply spec_no_memory|]. split; [done|]. split; [|done]. intros r. simpl. rewrite <- Hr.
    exact (same_rules (paths d) _ x _ Q Hx Hin Hout Hrules r).
Qed.

Lemma update_refines memory ns w d a :
  represents d a -> Forall KLexicalPath.name ns ->
  exists a', spec_update ns w a a' (snd (update_unveil_data memory (KLexicalPath.render ns) w d)) /\
    represents (fst (update_unveil_data memory (KLexicalPath.render ns) w d)) a'.
Proof.
  intros H Hns. pose proof H as (Hs & _ & _). unfold update_unveil_data. rewrite parts_render by done.
  destruct (decide (state d = LockedInherited)) as [E1|N1]; [exists a; split; [constructor; congruence|done]|].
  destruct (decide (state d = Locked)) as [E2|N2]; [exists a; split; [constructor; congruence|done]|].
  assert (open_veil (s_state a)) as Hopen by (rewrite <- Hs; unfold open_veil; destruct (state d); auto; done).
  destruct (traverse_until_last_accessible_node (paths d) ns) as [x rest] eqn:Et. destruct rest as [|p rest].
  - destruct (update_existing ns w d a x H Hopen Et) as (a' & H1 & H2). exists a'.
    by destruct (was_explicitly_unveiled x && _).
  - destruct (update_missing memory (KLexicalPath.render ns) ns w d a x p rest H Hopen Et) as (a' & H1 & H2). exists a'.
    by destruct (snd (insert memory x (p :: rest) _)).
Qed.

(** ** What a check sees *)

Lemma canonical_checks ns :
  Forall KLexicalPath.name ns ->
  StringView.starts_with_char (KLexicalPath.render ns) "/" = true /\
  StringView.contains (KLexicalPath.render ns) (KLexicalPath.sv "/../") = false /\
  StringView.ends_with (KLexicalPath.render ns) (KLexicalPath.sv "/..") = false /\
  StringView.contains (KLexicalPath.render ns) (KLexicalPath.sv "/./") = false /\
  StringView.ends_with (KLexicalPath.render ns) (KLexicalPath.sv "/.") = false.
Proof.
  intros H. pose proof (KLexicalPath.names_canonical ns H) as Hc. unfold KLexicalPath.is_canonical in Hc.
  destruct (StringView.is_empty _); [done|]. destruct (_ && _); [done|].
  destruct (_ || StringView.contains _ (KLexicalPath.sv "/./") || _) eqn:E1; [done|].
  destruct (_ || StringView.contains _ (KLexicalPath.sv "/../") || _) eqn:E2; [done|].
  apply orb_false_iff in E1 as [[_ ?]%orb_false_iff ?]. apply orb_false_iff in E2 as [[_ ?]%orb_false_iff ?].
  split; [by destruct ns|done].
Qed.

Lemma validate_exact d a ns options :
  represents d a -> Forall KLexicalPath.name ns ->
  validate_path_against_process_veil d (KLexicalPath.render ns) options =
    if decide (s_state a = NoVeil) then Ok tt else check_permissions (granted (s_rules a) 0 ns) options.
Proof.
  intros (Hs & Hr & Hi) H. unfold validate_path_against_process_veil. rewrite Hs.
  destruct (decide (s_state a = NoVeil)) as [E|E]; [by rewrite bool_decide_true|]. rewrite bool_decide_false by done.
  destruct (canonical_checks ns H) as (-> & -> & -> & -> & ->). cbn [negb andb].
  unfold find_matching_unveiled_path. rewrite Hs, bool_decide_false by done. cbn [negb bind].
  rewrite parts_render by done. cbn [bind]. rewrite (traverse_granted (paths d) 0 ns Hi).
  by rewrite (granted_ext (rules (paths d)) (s_rules a)).
Qed.

(** ** Sequences of calls *)

(** The veil of a process and the one its next program will have.  [unveiling]
    steps are those of [sys$unveil], the others are those of an exec. *)
Definition no_rules : Spec := spec NoVeil (fun _ => None).

Inductive unveiling : Spec * Spec -> Spec * Spec -> Prop :=
| lock_veil a b : unveiling (a, b) (spec Locked (s_rules a), b)
| unveil_current ns w a a' b o : Forall KLexicalPath.name ns -> spec_update ns w a a' o -> unveiling (a, b) (a', b)
| unveil_after_exec ns w a b b' o : Forall KLexicalPath.name ns -> spec_update ns w b b' o -> unveiling (a, b) (a, b').

Inductive veil_step : Spec * Spec -> Spec * Spec -> Prop :=
| veil_unveils x y : unveiling x y -> veil_step x y
| veil_inherited a b : s_state b = Dropped -> veil_step (a, b) (spec LockedInherited (s_rules b), no_rules)
| veil_dropped a b : s_state b <> Dropped -> veil_step (a, b) (no_rules, no_rules).

Inductive call : Type :=
| Call_unveil (memory exec_memory : nat) (allocated : bool) (resolve : StringView.t -> Resolution)
    (path permissions : option (outcome StringView.t)) (flags : Z)
| Call_exec (memory : nat).

(** What the path resolution promises: absolute canonical paths, and a parent only
    if the last part of the path is a name that does not exist there. *)
Definition resolve_ok (resolve : StringView.t -> Resolution) : Prop :=
  forall path,
    match custody (resolve path) with
    | Ok p => exists ns, Forall KLexicalPath.name ns /\ p = KLexicalPath.render ns
    | Err _ => forall parent, parent_custody (resolve path) = Some parent ->
        KLexicalPath.name (KLexicalPath.basename path) /\
        exists ns, Forall KLexicalPath.name ns /\ parent = KLexicalPath.render ns
    | _ => False
    end.

Definition argument_ok (argument : option (outcome StringView.t)) : Prop :=
  match argument with Some Panic | Some Undefined => False | _ => True end.

(** An exec is one that succeeds. *)
Definition call_ok (c : call) : Prop :=
  match c with
  | Call_unveil _ _ _ resolve path permissions _ => resolve_ok resolve /\ argument_ok path /\ argument_ok permissions
  | Call_exec memory => (2 <= memory)%nat
  end.

Definition run_call (c : call) (v : Veil) : option Veil :=
  match (match c with
         | Call_unveil memory exec_memory allocated resolve path permissions flags =>
             let '(v, o) := sys_unveil memory exec_memory allocated resolve path permissions flags v in
             (v, match o with Ok _ => Ok tt | Err e => Err e | Panic => Panic | Undefined => Undefined end)
         | Call_exec memory => exec_veil memory v
         end) with
  | (v, Ok _) | (v, Err _) => Some v
  | _ => None
  end.

Fixpoint run_calls (cs : list call) (v : Veil) : option Veil :=
  match cs with
  | [] => Some v
  | c :: cs => match run_call c v with Some v => run_calls cs v | None => None end
  end.

Definition related (v : Veil) (x : Spec * Spec) : Prop :=
  represents (unveil_data v) (fst x) /\ represents (exec_unveil_data v) (snd x) /\ open_veil (s_state (snd x)).

Lemma fresh_represents : represents (data NoVeil fresh_node) no_rules.
Proof.
  split; [done|]. split; [|by intros [|p path]]. intros [|p r]; done.
Qed.

Lemma update_opens ns w a a' o : spec_update ns w a a' o -> open_veil (s_state a) -> open_veil (s_state a').
Proof. destruct 1; try done. intros _. right. done. Qed.

Lemma update_outcome ns w a a' o : spec_update ns w a a' o -> o = Ok tt \/ exists e, o = Err e.
Proof. destruct 1; eauto. Qed.

Lemma path_to_unveil_ok allocated resolve path w :
  resolve_ok resolve ->
  match path_to_unveil allocated resolve path w with
  | Ok p => exists ns, Forall KLexicalPath.name ns /\ p = KLexicalPath.render ns
  | Err _ => True
  | _ => False
  end.
Proof.
  intros H. specialize (H path). unfold path_to_unveil. destruct (custody (resolve path)) as [p|e| |]; try done.
  destruct e; try done. destruct (parent_custody (resolve path)) as [parent|]; [|done].
  destruct (has w CreateOrRemove); [|done]. destruct (H parent eq_refl) as (Hn & ns & Hns & ->).
  rewrite KLexicalPath.join_name by done. destruct allocated; [|done].
  exists (ns ++ [KLexicalPath.basename path]). split; [|done]. apply Forall_app. split; [done|by apply Forall_singleton].
Qed.

(** One call. *)
Lemma on_current_ok memory ns w v x :
  related v x -> Forall KLexicalPath.name ns ->
  wp (on_current (update_unveil_data memory (KLexicalPath.render ns) w))
    (fun _ v' => exists y, rtc unveiling x y /\ related v' y) (fun v' => exists y, rtc unveiling x y /\ related v' y) False v.
Proof.
  intros (H1 & H2 & H3) Hns. destruct x as [a b]. simpl in *.
  destruct (update_refines memory ns w (unveil_data v) a H1 Hns) as (a' & Hu & Hr).
  unfold wp, on_current. destruct (update_unveil_data _ _ _ _) as [d o]. simpl in Hu, Hr.
  assert (rtc unveiling (a, b) (a', b)) as Hrtc by (apply rtc_once; by apply (unveil_current ns w a a' b o)).
  destruct (update_outcome _ _ _ _ _ Hu) as [->|[e ->]]; exists (a', b); (split; [done|]); (split; [done|]); by split.
Qed.

Lemma on_exec_ok memory ns w v x :
  related v x -> Forall KLexicalPath.name ns ->
  wp (on_exec (fun d => if bool_decide (state d = LockedInherited) then (d, Panic) else
                        update_unveil_data memory (KLexicalPath.render ns) w d))
    (fun _ v' => exists y, rtc unveiling x y /\ related v' y) (fun v' => exists y, rtc unveiling x y /\ related v' y) False v.
Proof.
  intros (H1 & H2 & H3) Hns. destruct x as [a b]. simpl in *.
  destruct (update_refines memory ns w (exec_unveil_data v) b H2 Hns) as (b' & Hu & Hr).
  unfold wp, on_exec. rewrite bool_decide_false.
  2: { destruct H2 as [-> _]. intros E. rewrite E in H3. by destruct H3. }
  destruct (update_unveil_data _ _ _ _) as [d o]. simpl in Hu, Hr.
  assert (rtc unveiling (a, b) (a, b')) as Hrtc by (apply rtc_once; by apply (unveil_after_exec ns w a b b' o)).
  pose proof (update_opens _ _ _ _ _ Hu H3).
  destruct (update_outcome _ _ _ _ _ Hu) as [->|[e ->]]; exists (a, b'); (split; [done|]); (split; [done|]); by split.
Qed.

Lemma unveil_ok memory exec_memory allocated resolve path permissions flags v x :
  related v x -> resolve_ok resolve -> argument_ok path -> argument_ok permissions ->
  wp (sys_unveil memory exec_memory allocated resolve path permissions flags)
    (fun _ v' => exists y, rtc unveiling x y /\ related v' y) (fun v' => exists y, rtc unveiling x y /\ related v' y) False v.
Proof.
  intros H Hres Hp1 Hp2. assert (exists y, rtc unveiling x y /\ related v y) as Hsame by (exists x; by split).
  unfold sys_unveil. destruct path as [path|], permissions as [perms|]; cbn beta iota.
  4: { apply wp_bind. unfold wp at 1, modify. apply wp_ret. destruct H as (H1 & H2 & H3). destruct x as [a b].
       exists (spec Locked (s_rules a), b). split; [apply rtc_once, lock_veil|]. destruct H1 as (_ & ? & ?).
       split; [by split|by split]. }
  all: destruct (negb _); [done|]; apply wp_bind; unfold wp at 1, gets; cbn beta;
       destruct (_ && bool_decide (_ = LockedInherited)); [by apply wp_ret|];
       destruct (_ && bool_decide (_ = Locked)); [done|]; try done.
  apply wp_bind. unfold wp at 1, lift. destruct path as [path|e| |]; try done.
  destruct (StringView.is_empty path || _); [done|]. apply wp_bind. unfold wp at 1, lift.
  destruct perms as [letters|e| |]; try done. apply wp_bind. unfold wp at 1, lift.
  assert (forall l w, match parse_permissions l w with Ok _ | Err _ => True | _ => False end) as Hparse.
  { induction l as [|c l IH]; intros w; simpl; [done|].
    do 5 (destruct (Ascii.eqb _ _); [by apply IH|]). done. }
  specialize (Hparse letters 0). destruct (parse_permissions letters 0) as [w|e| |]; try done.
  apply wp_bind. unfold wp at 1, lift. pose proof (path_to_unveil_ok allocated resolve path w Hres) as Hpath.
  destruct (path_to_unveil allocated resolve path w) as [p|e| |]; try done. destruct Hpath as (ns & Hns & ->).
  apply wp_bind. apply (wp_mono _ (fun _ v' => exists y, rtc unveiling x y /\ related v' y) _ (fun v' => exists y, rtc unveiling x y /\ related v' y) _ False).
  { destruct (has flags CurrentProgram); [by apply on_current_ok|by apply wp_ret]. }
  2: done. 2: done.
  intros [] v' (y & Hxy & Hy). apply wp_bind.
  apply (wp_mono _ (fun _ v' => exists y, rtc unveiling x y /\ related v' y) _ (fun v' => exists y, rtc unveiling x y /\ related v' y) _ False).
  - destruct (has flags AfterExec); [|apply wp_ret; by exists y].
    eapply wp_mono; [by apply on_exec_ok| | |done]; [intros [] v2|intros v2]; intros (z & Hyz & Hz);
      exists z; (split; [by etrans|done]).
  - intros [] v2 Hv2. by apply wp_ret.
  - done.
  - done.
Qed.

Lemma exec_ok memory v x :
  related v x -> (2 <= memory)%nat ->
  exists v' y, exec_veil memory v = (v', Ok tt) /\ veil_step x y /\ related v' y.
Proof.
  intros (H1 & H2 & H3) Hm. destruct x as [a b]. simpl in *. unfold exec_veil.
  destruct memory as [|[|memory]]; [lia|lia|]. cbn [Nat.ltb Nat.leb]. destruct (decide _) as [E|E].
  - eexists _, _. split; [reflexivity|]. split; [apply veil_inherited; by destruct H2 as [<- _]|].
    split; [by destruct H2 as (_ & ? & ?)|]. split; [apply fresh_represents|by left].
  - eexists _, _. split; [reflexivity|]. split; [apply veil_dropped; by destruct H2 as [<- _]|].
    split; [apply fresh_represents|]. split; [apply fresh_represents|by left].
Qed.

Lemma run_call_ok c v x :
  related v x -> call_ok c ->
  exists v' y, run_call c v = Some v' /\ rtc veil_step x y /\ related v' y /\
    match c with Call_unveil _ _ _ _ _ _ _ => rtc unveiling x y | Call_exec _ => True end.
Proof.
  intros H Hc. destruct c as [memory exec_memory allocated resolve path perms flags|memory]; simpl in Hc.
  - destruct Hc as (Hres & Hp1 & Hp2).
    pose proof (unveil_ok memory exec_memory allocated resolve path perms flags v x H Hres Hp1 Hp2) as W.
    unfold wp in W. unfold run_call. destruct (sys_unveil _ _ _ _ _ _ _ _) as [v' [r|e| |]]; try done;
      destruct W as (y & Hy & Hr); exists v', y; (split; [done|]); (split; [|done]);
      (eapply rtc_subrel; [|exact Hy]); by constructor.
  - destruct (exec_ok memory v x H Hc) as (v' & y & E & Hs & Hr). exists v', y. unfold run_call. rewrite E.
    split; [done|]. split; [by apply rtc_once|done].
Qed.

Lemma run_calls_ok cs : forall v x,
  related v x -> Forall call_ok cs -> exists v' y, run_calls cs v = Some v' /\ rtc veil_step x y /\ related v' y.
Proof.
  induction cs as [|c cs IH]; intros v x H Hcs; simpl; [by exists v, x|]. inversion_clear Hcs as [|? ? Hc Hcs'].
  destruct (run_call_ok c v x H Hc) as (v1 & y & -> & H1 & Hr & _). destruct (IH v1 y Hr Hcs') as (v2 & z & -> & H2 & Hr2).
  exists v2, z. split; [done|]. split; [by etrans|done].
Qed.

Definition is_unveil (c : call) : Prop := match c with Call_unveil _ _ _ _ _ _ _ => True | Call_exec _ => False end.

Lemma run_unveils_ok cs : forall v x,
  related v x -> Forall call_ok cs -> Forall is_unveil cs ->
  exists v' y, run_calls cs v = Some v' /\ rtc unveiling x y /\ related v' y.
Proof.
  induction cs as [|c cs IH]; intros v x H Hcs Hu; simpl; [by exists v, x|].
  inversion_clear Hcs as [|? ? Hc Hcs']. inversion_clear Hu as [|? ? Huc Hu'].
  destruct (run_call_ok c v x H Hc) as (v1 & y & -> & _ & Hr & Hy). destruct c; [|done].
  destruct (IH v1 y Hr Hcs' Hu') as (v2 & z & -> & H2 & Hr2). exists v2, z. split; [done|]. split; [by etrans|done].
Qed.

(** ** Permissions only shrink *)

Definition within (p q : Z) : Prop := Z.land p (Z.lnot q) = 0.

Lemma within_refl p : within p p.
Proof. apply Z.land_lnot_diag. Qed.

Lemma within_trans p q r : within p q -> within q r -> within p r.
Proof.
  unfold within. intros H1 H2. apply Z.bits_inj'. intros i Hi. rewrite Z.land_spec, Z.lnot_spec, Z.bits_0 by done.
  apply (f_equal (fun z => Z.testbit z i)) in H1, H2. rewrite Z.land_spec, Z.lnot_spec, Z.bits_0 in H1, H2 by done.
  destruct (Z.testbit p i), (Z.testbit q i), (Z.testbit r i); done.
Qed.

Definition narrower (a a' : Spec) : Prop :=
  forall path p, s_rules a path = Some p -> exists p', s_rules a' path = Some p' /\ within p' p.

Lemma unveiling_narrows x y :
  rtc unveiling x y -> narrower (fst x) (fst y) /\
  (~ open_veil (s_state (fst x)) -> ~ open_veil (s_state (fst y)) /\ s_rules (fst y) = s_rules (fst x)).
Proof.
  induction 1 as [x|x y z Hxy _ [IH1 IH2]].
  { split; [|done]. intros path p Hp. exists p. split; [done|apply within_refl]. }
  assert (narrower (fst x) (fst y) /\
    (~ open_veil (s_state (fst x)) -> ~ open_veil (s_state (fst y)) /\ s_rules (fst y) = s_rules (fst x))) as [S1 S2].
  { destruct Hxy as [a b|ns w a a' b o _ Hu|ns w a b b' o _ Hu]; simpl.
    - split; [intros path p Hp; exists p; split; [done|apply within_refl]|]. intros _. split; [by intros []|done].
    - split.
      + intros path p Hp. destruct Hu as [Hs|Hs|q Hs Hq Hw|a' Hs Hq Hd Hr|Hs];
          try (exists p; split; [done|apply within_refl]). rewrite Hr. unfold add_rule.
        case_bool_decide as E; [subst path; exists w; split; [done|by apply Hq]|exists p; split; [done|apply within_refl]].
      + intros Hn. by destruct Hu.
    - split; [|done]. intros path p Hp. exists p. split; [done|apply within_refl]. }
  split.
  - intros path p Hp. destruct (S1 path p Hp) as (q & Hq & Hw1). destruct (IH1 path q Hq) as (r & Hr & Hw2).
    exists r. split; [done|by apply (within_trans r q)].
  - intros Hn. destruct (S2 Hn) as [Hn' E]. destruct (IH2 Hn') as [Hn'' E']. split; [done|congruence].
Qed.

End Unveil.



(** ** Samples *)

(** A file system where every path that is asked for exists. *)
Definition sample_resolve (path : StringView.t) : Unveil.Resolution :=
  Unveil.resolved (if KLexicalPath.is_absolute path && KLexicalPath.is_canonical path then Ok path else Err ENOENT) None.

Lemma sample_resolve_ok : Unveil.resolve_ok sample_resolve.
Proof.
  intros path. unfold sample_resolve. simpl. destruct (_ && _) eqn:E; [|done]. apply andb_prop in E as [E1 E2].
  destruct (KLexicalPath.canonical_render path E1 E2) as (ns & H & ->). eauto.
Qed.

Definition sample_unveil (path letters : string) : Unveil.call :=
  Unveil.Call_unveil 9 9 true sample_resolve (Some (Ok (StringView.of_string path)))
    (Some (Ok (StringView.of_string letters))) Unveil.CurrentProgram.

Definition sample_lock : Unveil.call := Unveil.Call_unveil 0 0 true sample_resolve None None 0.

Definition sample_calls : list Unveil.call :=
  [sample_unveil "/home/anon" "rwc"; sample_unveil "/home" "r"; sample_lock].

Lemma sample_calls_ok : Forall Unveil.call_ok sample_calls.
Proof. repeat (apply Forall_cons; split; [by split; [apply sample_resolve_ok|]|]). by apply Forall_nil. Qed.


(** The locked veil: what is below the home directory can be written, its siblings
    can be read and the rest is not there. *)
Lemma sample_veil_checks :
  match Unveil.run_calls sample_calls Unveil.fresh with
  | Some v =>
      let check path options := Unveil.validate_path_against_process_veil (Unveil.unveil_data v) (StringView.of_string path) options in
      check "/home/anon/notes"%string Unveil.O_WRONLY = Ok tt /\ check "/home/other"%string Unveil.O_RDONLY = Ok tt /\
      check "/home/other"%string Unveil.O_WRONLY = Err EACCES /\ check "/etc/passwd"%string Unveil.O_RDONLY = Err ENOENT
  | None => False
  end.
Proof. by vm_compute. Qed.


(** The path that is recorded for a directory that was first only on the way to an
    unveiled path begins with two slashes, also after it is unveiled itself. *)
Lemma intermediate_path_doubled :
  match Unveil.run_calls sample_calls Unveil.fresh with
  | Some v =>
      match Unveil.node_at (Unveil.paths (Unveil.unveil_data v)) [StringView.of_string "home"] with
      | Some n => Unveil.was_explicitly_unveiled n = true /\
          Unveil.full_path (Unveil.m_metadata n) = StringView.of_string "//home"
      | None => False
      end
  | None => False
  end.
Proof. by vm_compute. Qed.
