(* ===== verification/Mmap.v ===== *)
(** The memory system calls of [Kernel/Syscalls/mmap.cpp]: the checks that keep
    memory from being writable and executable, and the handlers on top of the
    address space. *)

From stdpp Require Import strings.
From S2P Require Import Prelude BitOps VirtualRange Region RegionTree AddressSpace Process.

Module Mmap.
Import Region.
#[local] Open Scope Z_scope.

Abbreviation MS_WXALLOWED := (Z.shiftl 1 6)%Z (only parsing).
Abbreviation MS_AXALLOWED := (Z.shiftl 1 7)%Z (only parsing).

(** [MAP_*] and the flags of [msync] *)
Abbreviation MAP_SHARED := 0x01%Z (only parsing).
Abbreviation MAP_PRIVATE := 0x02%Z (only parsing).
Abbreviation MAP_FIXED := 0x10%Z (only parsing).
Abbreviation MAP_ANONYMOUS := 0x20%Z (only parsing).
Abbreviation MAP_STACK := 0x40%Z (only parsing).
Abbreviation MAP_NORESERVE := 0x80%Z (only parsing).
Abbreviation MAP_RANDOMIZED := 0x100%Z (only parsing).
Abbreviation MAP_FIXED_NOREPLACE := 0x400%Z (only parsing).
Abbreviation MS_SYNC := 1%Z (only parsing).
Abbreviation MS_ASYNC := 2%Z (only parsing).
Abbreviation MS_INVALIDATE := 4%Z (only parsing).

(** The process that makes a call: its protected values and the flags of the
    mount its executable comes from. *)
Record Caller : Type := {
  protected : Process.ProtectedValues;
  executable_mount_flags : Z
}.

Definition flag (x bit : Z) : bool := negb (Z.land x bit =? 0).

(** ** Checks *)

Definition validate_mmap_prot (c : Caller) (prot : Z) (map_stack map_anonymous : bool)
    (r : option Region) : outcome unit :=
  let make_writable := flag prot PROT_WRITE in
  let make_executable := flag prot PROT_EXEC in
  if map_anonymous && make_executable && negb (flag (executable_mount_flags c) MS_AXALLOWED)
  then Err EINVAL
  else if map_stack && make_executable then Err EINVAL
  else if flag (executable_mount_flags c) MS_WXALLOWED then Ok tt
  else if make_writable && make_executable then Err EINVAL
  else match r with
       | None => Ok tt
       | Some r =>
           if make_writable && m_has_been_executable r then Err EINVAL
           else if make_executable && m_has_been_writable r &&
                   Process.reject_transition_to_executable_from_writable_prot (protected c)
           then Err EINVAL
           else Ok tt
       end.

Definition validate_inode_mmap_prot (prot : Z) (readable_description description_writable
    map_shared : bool) : outcome unit :=
  if flag prot PROT_READ && negb readable_description then Err EACCES
  else if map_shared && flag prot PROT_WRITE && negb description_writable then Err EACCES
  else Ok tt.

(** The checks of [mprotect] on one region. *)
Definition check_mprotect (c : Caller) (prot : Z) (r : Region) : outcome unit :=
  let! _ := AddressSpace.check_mutable r in
  validate_mmap_prot c prot (m_stack r) (is_anonymous (m_vmobject r)) (Some r).

Definition check_inode (prot : Z) (r : Region) : outcome unit :=
  if is_inode (m_vmobject r)
  then validate_inode_mmap_prot prot (m_mmapped_from_readable r) (m_mmapped_from_writable r)
         (m_shared r)
  else Ok tt.

Section Handlers.
Context {T : Type} `{!OrderedTree T Region}.
Context (env : Env) (c : Caller).

Definition require (p : Process.Pledge) : action (AddressSpace.t T) unit :=
  lift (Process.require_promise (protected c) p).

(** ** [munmap] *)

Definition sys_munmap (addr sz : Z) : action (AddressSpace.t T) Z :=
  let* _ := require Process.stdio in
  let* _ := AddressSpace.unmap_mmap_range env addr sz in
  ret 0.

(** ** [mprotect] *)

(** Changing the protection of a region in place. *)
Definition protect_region (r : Region) (prot : Z) : action (AddressSpace.t T) unit :=
  let* _ := modify (AddressSpace.write_region (set_prot r prot)) in
  AddressSpace.remap_region env (set_prot r prot).

(** Splitting a region around a part of it that gets another protection; the
    part and the regions beside it are mapped afterwards. *)
Definition carve_protected (old_region : Region) (range : VirtualRange.t) (prot : Z)
    (check_adjacent : list Region -> bool) : action (AddressSpace.t T) unit :=
  let* _ := AddressSpace.take_and_unmap old_region in
  let* adjacent_regions := AddressSpace.try_split_region_around_range env old_region range in
  if negb (check_adjacent adjacent_regions) then lift Panic else
  let* new_region := AddressSpace.try_allocate_split_region env old_region range
                       (AddressSpace.offset_of old_region (VirtualRange.m_base range)) in
  let new_region := set_prot new_region prot in
  let* _ := modify (AddressSpace.write_region new_region) in
  let* _ := AddressSpace.map_all env adjacent_regions in
  AddressSpace.map_region env new_region.

(** The checks of all regions, with the sum of what they have in common with
    the range. *)
Fixpoint check_regions (range : VirtualRange.t) (prot : Z) (rs : list Region) (full_size_found : Z)
    : outcome Z :=
  match rs with
  | [] => Ok full_size_found
  | r :: rs =>
      let! _ := check_mprotect c prot r in
      let! _ := check_inode prot r in
      let! common := VirtualRange.intersect (m_range r) range in
      check_regions range prot rs (u64 (full_size_found + VirtualRange.m_size common))
  end.

Fixpoint protect_regions (range : VirtualRange.t) (prot : Z) (rs : list Region)
    : action (AddressSpace.t T) unit :=
  match rs with
  | [] => ret tt
  | old_region :: rs =>
      if m_access old_region =? prot_to_region_access_flags prot
      then protect_regions range prot rs
      else
        let* intersection := lift (VirtualRange.intersect range (m_range old_region)) in
        let* _ := (if VirtualRange.eqb intersection (m_range old_region)
                   then protect_region old_region prot
                   else carve_protected old_region intersection prot (fun a => len a =? 1)) in
        protect_regions range prot rs
  end.

Definition sys_mprotect (addr sz prot : Z) : action (AddressSpace.t T) Z :=
  let* _ := require Process.stdio in
  let* _ := (if flag prot PROT_EXEC then require Process.prot_exec else ret tt) in
  let* range := lift (VirtualRange.expand_to_page_boundaries addr sz) in
  if VirtualRange.m_size range =? 0 then lift (Err EINVAL) else
  if negb (is_user_range env range) then lift (Err EFAULT) else
  let* whole := gets (fun s => AddressSpace.find_region_from_range s range) in
  match whole with
  | Some r =>
      let* _ := lift (check_mprotect c prot r) in
      if m_access r =? prot_to_region_access_flags prot then ret 0 else
      let* _ := lift (check_inode prot r) in
      let* _ := protect_region r prot in
      ret 0
  | None =>
      let* containing := gets (fun s => AddressSpace.find_region_containing s range) in
      match containing with
      | Some r =>
          let* _ := lift (check_mprotect c prot r) in
          if m_access r =? prot_to_region_access_flags prot then ret 0 else
          let* _ := lift (check_inode prot r) in
          let* _ := carve_protected r range prot (fun _ => true) in
          ret 0
      | None =>
          let* regions := AddressSpace.find_regions_intersecting env range in
          match regions with
          | [] => lift (Err EINVAL)
          | _ =>
              let* full_size_found := lift (check_regions range prot regions 0) in
              if negb (full_size_found =? VirtualRange.m_size range) then lift (Err ENOMEM) else
              let* _ := protect_regions range prot regions in
              ret 0
          end
      end
  end.

(** ** [mmap] *)

Definition PATH_MAX : Z := 4096.

(** What [mmap] uses of an open file: the memory object of a file is made by the
    file, which may also move the offset. *)
Record FileDescription : Type := {
  is_directory : bool;
  description_is_readable : bool;
  description_is_writable : bool;
  has_inode : bool;
  vmobject_for_mmap : VirtualRange.t -> Z -> bool -> outcome (VMObject * Z * Z)
}.

Record mmap_params : Type := {
  p_addr : Z;
  p_size : Z;
  p_alignment : Z;
  p_prot : Z;
  p_flags : Z;
  p_offset : Z;
  p_name : option string
}.

Definition copy_mmap_name (name : option string) : action (AddressSpace.t T) unit :=
  match name with
  | None => ret tt
  | Some n => if PATH_MAX <? Z.of_nat (String.length n) then lift (Err ENAMETOOLONG)
              else AddressSpace.alloc env
  end.

(** The memory object behind the mapping with its memory type and offset, and
    the file it comes from.  [id] names an anonymous object that is created;
    [fd] is what [open_file_description] finds. *)
Definition mmap_backing (id : Z) (fd : outcome FileDescription) (params : mmap_params)
    (rounded_size : Z) (requested_range : VirtualRange.t)
    : action (AddressSpace.t T) (VMObject * Z * Z * option FileDescription) :=
  let map_shared := flag (p_flags params) MAP_SHARED in
  if flag (p_flags params) MAP_ANONYMOUS then
    let* _ := AddressSpace.alloc env in
    ret (vmobject Anonymous id (rounded_size / PAGE_SIZE), 0, 0, None)
  else
    if p_offset params <? 0 then lift (Err EINVAL) else
    if flag (p_offset params) 0xfff then lift (Err EINVAL) else
    let* description := lift fd in
    if is_directory description then lift (Err ENODEV) else
    if negb (description_is_readable description) then lift (Err EACCES) else
    if map_shared && flag (p_prot params) PROT_WRITE && negb (description_is_writable description)
    then lift (Err EACCES) else
    let* _ := (if has_inode description
               then lift (validate_inode_mmap_prot (p_prot params)
                            (description_is_readable description)
                            (description_is_writable description) map_shared)
               else ret tt) in
    let* backing := lift (vmobject_for_mmap description requested_range (p_offset params) map_shared) in
    let '(v, memory_type, used_offset) := backing in
    ret (v, memory_type, used_offset, Some description).

(** The attributes [mmap] gives the region it was handed. *)
Definition mmap_region (r : Region) (params : mmap_params) (description : option FileDescription)
    : Region :=
  let r := match description with
           | Some d => set_mmap r true (description_is_readable d) (description_is_writable d)
           | None => set_mmap r true false false
           end in
  let r := if flag (p_flags params) MAP_SHARED then set_shared r true else r in
  let r := if flag (p_flags params) MAP_STACK then set_stack r true else r in
  match p_name params with Some n => set_name r (Some n) | None => r end.

Definition sys_mmap (rnd : nat -> Z) (id : Z) (fd : outcome FileDescription) (params : mmap_params)
    : action (AddressSpace.t T) Z :=
  let* _ := require Process.stdio in
  let addr := p_addr params in
  let sz := p_size params in
  let alignment := if p_alignment params =? 0 then PAGE_SIZE else p_alignment params in
  let prot := p_prot params in
  let flags := p_flags params in
  let* _ := (if flag prot PROT_EXEC then require Process.prot_exec else ret tt) in
  let* _ := (if flag flags MAP_FIXED || flag flags MAP_FIXED_NOREPLACE
             then require Process.map_fixed else ret tt) in
  if flag alignment 0xfff then lift (Err EINVAL) else
  let* rounded_size := lift (VirtualRange.page_round_up sz) in
  if negb (is_user_range env (VirtualRange.mk addr rounded_size)) then lift (Err EFAULT) else
  let* _ := copy_mmap_name (p_name params) in
  if sz =? 0 then lift (Err EINVAL) else
  if flag addr 0xfff then lift (Err EINVAL) else
  let map_shared := flag flags MAP_SHARED in
  let map_anonymous := flag flags MAP_ANONYMOUS in
  let map_private := flag flags MAP_PRIVATE in
  let map_stack := flag flags MAP_STACK in
  let map_fixed := flag flags MAP_FIXED in
  let map_randomized := flag flags MAP_RANDOMIZED in
  let map_fixed_noreplace := flag flags MAP_FIXED_NOREPLACE in
  if map_shared && map_private then lift (Err EINVAL) else
  if negb map_shared && negb map_private then lift (Err EINVAL) else
  if (map_fixed || map_fixed_noreplace) && map_randomized then lift (Err EINVAL) else
  let* _ := lift (validate_mmap_prot c prot map_stack map_anonymous None) in
  if map_stack && (negb map_private || negb map_anonymous) then lift (Err EINVAL) else
  let requested_range :=
    if negb (addr =? 0) && negb (map_fixed || map_fixed_noreplace)
    then VirtualRange.mk 0 rounded_size else VirtualRange.mk addr rounded_size in
  let* backing := mmap_backing id fd params rounded_size requested_range in
  let '(v, memory_type, used_offset, description) := backing in
  let* _ := (if map_fixed then AddressSpace.unmap_mmap_range env addr sz else ret tt) in
  let* r := AddressSpace.allocate_region_with_vmobject env rnd
              (if map_randomized then RegionTree.Yes else RegionTree.No)
              (VirtualRange.m_base requested_range) (VirtualRange.m_size requested_range)
              alignment v used_offset None prot map_shared memory_type in
  let r := mmap_region r params description in
  let* _ := modify (AddressSpace.write_region r) in
  ret (vaddr r).

(** ** Names and annotations *)

Definition sys_set_mmap_name (addr sz : Z) (name : string) : action (AddressSpace.t T) Z :=
  let* _ := require Process.stdio in
  if PATH_MAX <? Z.of_nat (String.length name) then lift (Err ENAMETOOLONG) else
  let* _ := AddressSpace.alloc env in
  let* range := lift (VirtualRange.expand_to_page_boundaries addr sz) in
  let* found := gets (fun s => AddressSpace.find_region_from_range s range) in
  match found with
  | None => lift (Err EINVAL)
  | Some r =>
      let* _ := lift (AddressSpace.check_mutable r) in
      let* _ := modify (AddressSpace.write_region (set_name r (Some name))) in
      ret 0
  end.

(** [VirtualMemoryRangeFlags] *)
Definition SyscallCode : Z := Z.shiftl 1 0.
Definition Immutable : Z := Z.shiftl 1 1.

Definition sys_annotate_mapping (enforces_syscall_regions : bool) (address flags : Z)
    : action (AddressSpace.t T) Z :=
  if flags =? 0 then lift (Err EINVAL) else
  if address =? 0 then lift (Err EINVAL) else
  if negb (is_user_address env address) then lift (Err EFAULT) else
  if enforces_syscall_regions && flag flags SyscallCode then lift (Err EPERM) else
  let* found := gets (fun s => AddressSpace.find_region_containing s (VirtualRange.mk address 1)) in
  match found with
  | None => lift (Err EINVAL)
  | Some r =>
      if negb (m_mmap r) && negb (m_initially_loaded_executable_segment r) then lift (Err EINVAL) else
      if m_immutable r then lift (Err EPERM) else
      let r := if flag flags SyscallCode then set_syscall_region r true else r in
      let r := if flag flags Immutable then set_immutable r else r in
      let* _ := modify (AddressSpace.write_region r) in
      ret 0
  end.

(** ** [mremap] *)

(** [private_copy] is the outcome of creating a private memory object for the
    inode of the mapping.  The name of the old region is dereferenced whether
    or not it has one. *)
Definition sys_mremap (private_copy : outcome VMObject) (rnd : nat -> Z)
    (old_address old_size flags : Z) : action (AddressSpace.t T) Z :=
  let* _ := require Process.stdio in
  let* old_range := lift (VirtualRange.expand_to_page_boundaries old_address old_size) in
  let* found := gets (fun s => AddressSpace.find_region_from_range s old_range) in
  match found with
  | None => lift (Err EINVAL)
  | Some r =>
      let* _ := lift (AddressSpace.check_mutable r) in
      if is_shared_inode (m_vmobject r) && flag flags MAP_PRIVATE &&
         negb (flag flags (Z.lor MAP_ANONYMOUS MAP_NORESERVE)) then
        let* v := lift private_copy in
        let old_region := set_directory (set_name r None) false in
        let* _ := modify (fun s => AddressSpace.set_mmu (AddressSpace.write_region old_region s)
                                     (unmap r (AddressSpace.m_mmu s))) in
        let* _ := AddressSpace.deallocate_region old_region in
        match m_name r with
        | None => lift Panic
        | Some old_name =>
            let* new_region := AddressSpace.allocate_region_with_vmobject env rnd RegionTree.Yes
              (VirtualRange.m_base (m_range r)) (VirtualRange.m_size (m_range r)) PAGE_SIZE v
              (m_offset_in_vmobject r) (Some old_name) (region_access_flags_to_prot (m_access r))
              false 0 in
            let new_region := set_mmap new_region true (m_mmapped_from_readable r)
                                (m_mmapped_from_writable r) in
            let* _ := modify (AddressSpace.write_region new_region) in
            ret (vaddr new_region)
        end
      else lift (Err ENOTIMPL)
  end.

(** ** [msync] *)


Fixpoint msync_total (range_to_sync : VirtualRange.t) (rs : list Region) (total : Z) : outcome Z :=
  match rs with
  | [] => Ok total
  | r :: rs =>
      if negb (m_mmap r) then Err ENOMEM else
      let! common := VirtualRange.intersect (m_range r) range_to_sync in
      msync_total range_to_sync rs (u64 (total + VirtualRange.m_size common))
  end.

(** [sync] writes pages of a shared file mapping back. *)
Fixpoint msync_regions (sync : VMObject -> Z -> Z -> outcome unit) (address rounded_size : Z)
    (rs : list Region) : outcome unit :=
  match rs with
  | [] => Ok tt
  | r :: rs =>
      let! _ := (if negb (is_shared_inode (m_vmobject r)) then Ok tt else
                 let offset := sext 64 (m_offset_in_vmobject r + address - vaddr r) in
                 sync (m_vmobject r) (u64 (Z.quot offset PAGE_SIZE)) (rounded_size / PAGE_SIZE)) in
      msync_regions sync address rounded_size rs
  end.

Definition sys_msync (sync : VMObject -> Z -> Z -> outcome unit) (address sz flags : Z)
    : action (AddressSpace.t T) Z :=
  if negb (Z.land flags (Z.lor MS_SYNC (Z.lor MS_ASYNC MS_INVALIDATE)) =? flags)
  then lift (Err EINVAL) else
  let is_async := Z.land flags MS_ASYNC =? MS_ASYNC in
  let is_sync := Z.land flags MS_SYNC =? MS_SYNC in
  if Bool.eqb is_sync is_async then lift (Err EINVAL) else
  if negb (address mod PAGE_SIZE =? 0) then lift (Err EINVAL) else
  let* rounded_size := lift (VirtualRange.page_round_up sz) in
  let* regions := AddressSpace.find_regions_intersecting env (VirtualRange.mk address rounded_size) in
  match regions with
  | [] => lift (Err ENOMEM)
  | _ =>
      let* total_intersection_size := lift (msync_total (VirtualRange.mk address rounded_size) regions 0) in
      if negb (total_intersection_size =? sz) then lift (Err ENOMEM) else
      let* _ := lift (msync_regions sync address rounded_size regions) in
      ret 0
  end.

End Handlers.

(** ** Proofs *)

Section Proofs.
Context {T : Type} `{!OrderedTree T Region} `{!OrderedTreeLaws T Region}.
Context (env : Env) (c : Caller).
Implicit Types s : AddressSpace.t T.

(** Every region has been given the page directory. *)
Definition attached (s : AddressSpace.t T) : Prop :=
  forall k r, (k, r) ∈ AddressSpace.elems s -> m_page_directory r = true.

(** A protection the process may ask for. *)
Definition prot_allowed (prot : Z) : Prop :=
  flag (executable_mount_flags c) MS_WXALLOWED = true \/
  (Z.testbit prot 1 = false \/ Z.testbit prot 2 = false).

Definition with_access (v : AddressSpace.View) (access : Z) : AddressSpace.View := {|
  AddressSpace.v_vmobject := AddressSpace.v_vmobject v;
  AddressSpace.v_offset := AddressSpace.v_offset v;
  AddressSpace.v_name := AddressSpace.v_name v;
  AddressSpace.v_access := access;
  AddressSpace.v_shared := AddressSpace.v_shared v;
  AddressSpace.v_stack := AddressSpace.v_stack v;
  AddressSpace.v_mmap := AddressSpace.v_mmap v;
  AddressSpace.v_syscall := AddressSpace.v_syscall v;
  AddressSpace.v_from_readable := AddressSpace.v_from_readable v;
  AddressSpace.v_from_writable := AddressSpace.v_from_writable v;
  AddressSpace.v_memory_type := AddressSpace.v_memory_type v
|}.

(** Every address of the range sees its memory with the new protection, every
    other address sees what it saw. *)
Definition reprotected (range : VirtualRange.t) (prot : Z) (s s' : AddressSpace.t T) : Prop :=
  (forall a, ~ VirtualRange.within range a -> AddressSpace.view s' a = AddressSpace.view s a) /\
  (forall a, VirtualRange.within range a -> exists v, AddressSpace.view s a = Some v /\
     AddressSpace.view s' a = Some (with_access v (prot_to_region_access_flags prot))).

(** What a change of protection that fails may leave: memory that is gone, as it
    was, or already has the new protection. *)
Definition partly (prot : Z) (s s' : AddressSpace.t T) : Prop :=
  forall a, AddressSpace.view s' a = None \/ AddressSpace.view s' a = AddressSpace.view s a \/
    exists v, AddressSpace.view s a = Some v /\
      AddressSpace.view s' a = Some (with_access v (prot_to_region_access_flags prot)).

Lemma partly_refl prot s : partly prot s s.
Proof. intros a. right. by left. Qed.

Lemma partly_trans prot s1 s2 s3 : partly prot s1 s2 -> partly prot s2 s3 -> partly prot s1 s3.
Proof.
  intros H1 H2 a. destruct (H2 a) as [?|[E|(v & Ev & E)]]; [by left|rewrite E; apply H1|].
  rewrite E. destruct (H1 a) as [E1|[E1|(w & Ew & E1)]]; rewrite E1 in Ev; [done| |].
  - right. right. exists v. done.
  - right. right. exists w. injection Ev as <-. done.
Qed.

Lemma shrunk_partly prot s s' : AddressSpace.shrunk s s' -> partly prot s s'.
Proof. intros H a. destruct (H a); [by left|right; by left]. Qed.

Lemma flag_bit x n : 0 <= n -> flag x (2 ^ n) = Z.testbit x n.
Proof. apply land_zero_bit. Qed.

Lemma validated prot st an r :
  validate_mmap_prot c prot st an r = Ok tt -> prot_allowed prot.
Proof.
  unfold validate_mmap_prot, prot_allowed. change PROT_WRITE with (2 ^ 1). change PROT_EXEC with (2 ^ 2).
  rewrite !flag_bit by lia. destruct (an && _ && _); [done|]. destruct (st && _); [done|].
  destruct (flag _ MS_WXALLOWED); [by left|].
  destruct (Z.testbit prot 1), (Z.testbit prot 2); simpl; auto; discriminate.
Qed.

Lemma check_mprotect_ok prot r s (Q : unit -> AddressSpace.t T -> Prop) (E : AddressSpace.t T -> Prop) C :
  (prot_allowed prot -> Q tt s) -> E s -> wp (lift (check_mprotect c prot r)) Q E C s.
Proof.
  intros HQ HE. unfold wp, lift, check_mprotect, AddressSpace.check_mutable.
  destruct (m_mmap r); [|done]. simpl. destruct (m_immutable r); [done|]. simpl.
  destruct (validate_mmap_prot _ _ _ _ _) as [[]| | |] eqn:E1; [apply HQ; by eapply validated|done|..];
    exfalso; unfold validate_mmap_prot in E1; repeat case_match; done.
Qed.

Lemma check_inode_ok prot r s (Q : unit -> AddressSpace.t T -> Prop) (E : AddressSpace.t T -> Prop) C :
  Q tt s -> E s -> wp (lift (check_inode prot r)) Q E C s.
Proof.
  intros HQ HE. unfold wp, lift, check_inode, validate_inode_mmap_prot. repeat case_match; simplify_eq; done.
Qed.

(** Memory may run out. *)
Definition short_of_memory : Prop := ~ forall n, memory_available env n = true.

Lemma set_prot_ok r prot : region_ok r -> region_ok (set_prot r prot).
Proof.
  intros [? ? ? ? ?]. constructor; try done. rewrite set_prot_access by done. apply prot_flags_range.
Qed.

Lemma set_prot_view r prot a :
  region_ok r ->
  AddressSpace.view_of (set_prot r prot) a =
    with_access (AddressSpace.view_of r a) (prot_to_region_access_flags prot).
Proof.
  intros Hok. unfold AddressSpace.view_of, with_access. rewrite set_prot_access by apply Hok. done.
Qed.

(** Changing the protection of one region in place. *)
Lemma protect_region_ok r prot s E :
  AddressSpace.inv env s -> (vaddr r, r) ∈ AddressSpace.elems s ->
  wp (protect_region env r prot)
     (fun _ s' => AddressSpace.inv env s' /\ AddressSpace.rewritten s (set_prot r prot) s' /\
        m_page_directory r = true)
     E (short_of_memory \/ m_page_directory r = false) s.
Proof.
  intros H Hin. pose proof (AddressSpace.s_regions _ s H _ _ Hin) as Hok.
  pose proof (AddressSpace.region_user _ s _ _ H Hin) as Hu. pose proof (set_prot_ok r prot Hok) as Hok'.
  destruct (AddressSpace.write_region_ok s r (set_prot r prot) (AddressSpace.s_tree _ s H) Hin eq_refl)
    as (Ht & Hrw & Hmm).
  unfold protect_region. apply wp_bind. unfold wp at 1, modify. unfold wp, AddressSpace.remap_region.
  change (m_page_directory (set_prot r prot)) with (m_page_directory r).
  destruct (m_page_directory r) eqn:Hd; simpl; [|by right]. rewrite Hmm.
  destruct (remap_impl_ok env (set_prot r prot) (AddressSpace.m_mmu s) Hok' Hu)
    as (m' & b & -> & Hout & _ & Hall & Hmem).
  destruct b; [|left; intros Hm; by specialize (Hmem Hm)]. split; [|done].
  eapply (AddressSpace.rewrite_inv env s r (set_prot r prot)); try done.
  intros p pte Hp Hl. split; [done|]. by apply (Hall eq_refl p).
Qed.

(** A range inside the address space that no address of is mapped is free. *)
Lemma unmapped_available s range :
  AddressSpace.inv env s -> VirtualRange.wf range -> 0 < VirtualRange.m_size range ->
  VirtualRange.m_base (AddressSpace.total s) <= VirtualRange.m_base range ->
  VirtualRange.m_base range + VirtualRange.m_size range <=
    VirtualRange.m_base (AddressSpace.total s) + VirtualRange.m_size (AddressSpace.total s) ->
  (forall a, VirtualRange.within range a -> AddressSpace.view s a = None) ->
  RegionTree.available (AddressSpace.m_region_tree s) range.
Proof.
  intros H Hwf Hs Hlo Hhi Hv. do 4 (split; [done|]). intros k r Hr.
  pose proof (AddressSpace.s_regions _ s H k r Hr) as Hok. pose proof (ok_size _ Hok).
  destruct (Z.le_gt_cases (VirtualRange.m_base (m_range r) + VirtualRange.m_size (m_range r))
    (VirtualRange.m_base range)) as [|H1]; [by left|].
  destruct (Z.le_gt_cases (VirtualRange.m_base range + VirtualRange.m_size range)
    (VirtualRange.m_base (m_range r))) as [|H2]; [by right|]. exfalso. unfold size in *.
  set (a := Z.max (VirtualRange.m_base (m_range r)) (VirtualRange.m_base range)).
  assert (VirtualRange.within (m_range r) a) as Hw by (unfold VirtualRange.within, a; lia).
  assert (VirtualRange.within range a) as Hw' by (unfold VirtualRange.within, a; lia).
  pose proof (AddressSpace.view_in env s k r a H Hr Hw). rewrite (Hv a Hw') in *. done.
Qed.

(** A region that is not in the page tables can be overwritten in place. *)
Lemma rewrite_detached s r r' :
  AddressSpace.inv env s -> (vaddr r, r) ∈ AddressSpace.elems s -> m_page_directory r = false ->
  m_range r' = m_range r -> region_ok r' ->
  AddressSpace.inv env (AddressSpace.write_region r' s) /\
  AddressSpace.rewritten s r' (AddressSpace.write_region r' s).
Proof.
  intros H Hin Hd Er Hok.
  destruct (AddressSpace.write_region_ok s r r' (AddressSpace.s_tree _ s H) Hin Er) as (Ht & Hrw & Hmm).
  split; [|done]. apply (AddressSpace.rewrite_inv env s r r'); try done.
  - intros p pte Hp Hl. rewrite Hmm in Hl.
    destruct (AddressSpace.s_ptes _ s H p pte Hl) as (_ & k & q & Hq & Hqw & Hqd & _).
    destruct (AddressSpace.region_of_address env s _ _ _ _ p H Hq Hin Hqw (proj1 Hp)) as [_ ->]. congruence.
  - intros p _. by rewrite Hmm.
Qed.

(** [s'] is [s] with the part of [r] in the range given another protection. *)
Definition carved (r : Region) (range : VirtualRange.t) (prot : Z) (s s' : AddressSpace.t T) : Prop :=
  (forall a, VirtualRange.within range a -> AddressSpace.view s' a =
     Some (with_access (AddressSpace.view_of r a) (prot_to_region_access_flags prot))) /\
  (forall a, ~ VirtualRange.within range a -> AddressSpace.view s' a = AddressSpace.view s a) /\
  (forall e, e ∈ AddressSpace.elems s -> fst e <> vaddr r -> e ∈ AddressSpace.elems s') /\
  (attached s -> attached s').

Lemma carved_partly r range prot s s' :
  AddressSpace.inv env s -> (vaddr r, r) ∈ AddressSpace.elems s ->
  (forall a, VirtualRange.within range a -> VirtualRange.within (m_range r) a) ->
  (forall a, VirtualRange.within range a -> AddressSpace.view s' a = None \/ AddressSpace.view s' a =
     Some (with_access (AddressSpace.view_of r a) (prot_to_region_access_flags prot)) \/
     AddressSpace.view s' a = AddressSpace.view s a) ->
  (forall a, ~ VirtualRange.within range a -> AddressSpace.view s' a = AddressSpace.view s a) ->
  partly prot s s'.
Proof.
  intros H Hin Hsub H1 H2 a. destruct (AddressSpace.within_dec range a) as [Hw|Hn];
    [|right; left; by apply H2].
  destruct (H1 a Hw) as [?|[E|?]]; [by left| |right; by left]. right. right. eexists.
  split; [|exact E]. by apply (AddressSpace.view_in env s (vaddr r)); [..|apply Hsub].
Qed.

(** Placing the part with the new protection. *)
Lemma piece_protected r range prot s2 s3 :
  AddressSpace.inv env s2 -> AddressSpace.inv env s3 ->
  RegionTree.available (AddressSpace.m_region_tree s2) range ->
  AddressSpace.inserted s2 (AddressSpace.piece r range) s3 ->
  region_ok r -> exists new s4, new = set_prot (AddressSpace.piece r range) prot /\
  s4 = AddressSpace.write_region new s3 /\ AddressSpace.inv env s4 /\
  (forall a, VirtualRange.within range a -> AddressSpace.view s4 a =
     Some (with_access (AddressSpace.view_of r a) (prot_to_region_access_flags prot))) /\
  (forall a, ~ VirtualRange.within range a -> AddressSpace.view s4 a = AddressSpace.view s2 a) /\
  (forall k q, (k, q) ∈ AddressSpace.elems s2 -> k <> vaddr new) /\
  forall e, e ∈ AddressSpace.elems s4 <-> e = (vaddr new, new) \/ e ∈ AddressSpace.elems s2.
Proof.
  intros H2 H3 Hav Hins Hok. set (p := AddressSpace.piece r range) in *.
  set (new := set_prot p prot). set (s4 := AddressSpace.write_region new s3). exists new, s4.
  split; [done|]. split; [done|].
  assert ((vaddr p, p) ∈ AddressSpace.elems s3) as Hin3 by (apply Hins; by left).
  pose proof (AddressSpace.s_regions _ s3 H3 _ _ Hin3) as Hokp.
  destruct (rewrite_detached s3 p new H3 Hin3 eq_refl eq_refl (set_prot_ok _ _ Hokp)) as [H4 Hrw].
  fold s4 in H4, Hrw. split; [done|].
  assert (forall k q, (k, q) ∈ AddressSpace.elems s2 -> k <> vaddr new) as Hk.
  { intros k q Hq. apply (RegionTree.available_key _ range k q (AddressSpace.s_tree _ s2 H2) Hav Hq). }
  assert (forall a, AddressSpace.view s4 a = if AddressSpace.within_dec range a
    then Some (AddressSpace.view_of new a) else AddressSpace.view s2 a) as Hv.
  { intros a. rewrite (AddressSpace.rewritten_view env s3 p new s4 a H3 H4 Hin3 Hrw eq_refl).
    change (m_range p) with range. destruct (AddressSpace.within_dec range a) as [|Hn]; [done|].
    destruct (AddressSpace.inserted_view env s2 p s3 a H2 H3 Hav Hins) as [-> _].
    change (m_range p) with range. by destruct (AddressSpace.within_dec range a). }
  split; [|split; [|split; [done|]]].
  - intros a Ha. rewrite Hv. destruct (AddressSpace.within_dec range a); [|done].
    unfold new. rewrite set_prot_view by done. by unfold p; rewrite AddressSpace.piece_view.
  - intros a Ha. rewrite Hv. by destruct (AddressSpace.within_dec range a).
  - intros e. destruct Hrw as [_ He4], Hins as [_ He3]. rewrite (He4 e). split.
    + intros [->|[He Hne]]; [by left|]. apply He3 in He as [->|?]; [|by right]. by destruct Hne.
    + intros [->|He]; [by left|]. right. split; [apply He3; by right|]. destruct e as [k q]. by apply (Hk k q).
Qed.

Lemma same_partly prot s s' : AddressSpace.same s s' -> partly prot s s'.
Proof. intros Hs. by apply shrunk_partly, AddressSpace.same_shrunk. Qed.

Lemma carve_protected_ok r range prot chk s :
  AddressSpace.inv env s -> (vaddr r, r) ∈ AddressSpace.elems s -> VirtualRange.wf range ->
  0 < VirtualRange.m_size range -> VirtualRange.page_aligned range ->
  (forall a, VirtualRange.within range a -> VirtualRange.within (m_range r) a) ->
  (exists a, VirtualRange.within (m_range r) a /\ ~ VirtualRange.within range a) ->
  (forall rs, (AddressSpace.one_sided r range -> length rs = 1%nat) -> chk rs = true) ->
  wp (carve_protected env r range prot chk)
     (fun _ s' => AddressSpace.inv env s' /\ carved r range prot s s')
     (fun s' => AddressSpace.inv env s' /\ partly prot s s') False s.
Proof.
  intros H Hin Hwf Hs Hal Hsub Hex Hchk. pose proof (AddressSpace.s_regions _ s H _ _ Hin) as Hok.
  pose proof (ok_size _ Hok) as Hsr.
  assert (VirtualRange.m_base (m_range r) <= VirtualRange.m_base range /\
    VirtualRange.m_base range + VirtualRange.m_size range <=
      VirtualRange.m_base (m_range r) + VirtualRange.m_size (m_range r)) as [Hlo Hhi].
  { destruct (Hsub (VirtualRange.m_base range)) as [? _]; [unfold VirtualRange.within; lia|].
    destruct (Hsub (VirtualRange.m_base range + VirtualRange.m_size range - 1)) as [_ ?];
      [unfold VirtualRange.within; lia|]. lia. }
  unfold carve_protected. apply wp_bind.
  eapply wp_mono; [by apply AddressSpace.take_and_unmap_ok| |exact (fun _ x => x)|exact (fun x => x)].
  intros [] s1 [H1 Hr]. apply wp_bind.
  eapply wp_mono; [apply (AddressSpace.split_ok env s s1 r range); try done| | |done].
  { unfold VirtualRange.disjoint, size in *. lia. }
  2: { intros s2 [? ?]. split; [done|]. by apply shrunk_partly. }
  intros adj s2 (H2 & Hcut & Hl2 & Hins2 & Hfrom & Hlen). pose proof Hcut as (Ht2 & Hc1 & Hc2 & Hkeep).
  assert (forall a, VirtualRange.within range a -> AddressSpace.view s2 a = None) as Hnone
    by (intros a Ha; apply Hc1; auto).
  assert (forall a, ~ VirtualRange.within range a -> AddressSpace.view s2 a = AddressSpace.view s a) as Hkept
    by (intros a Ha; apply Hc2; by intros []).
  rewrite (Hchk adj Hlen). cbn [negb]. apply wp_bind.
  destruct (RegionTree.t_regions _ (AddressSpace.s_tree _ s H) _ _ Hin) as (_ & _ & _ & Hb1 & Hb2).
  assert (RegionTree.available (AddressSpace.m_region_tree s2) range) as Hav.
  { apply unmapped_available; try done; rewrite Ht2; unfold AddressSpace.total, vaddr in *; lia. }
  eapply wp_mono; [apply AddressSpace.try_allocate_split_region_ok|..]; [done|by split; apply Hok|done|done| | |done].
  2: { intros s3 Hs3. split; [by eapply AddressSpace.same_inv|].
       apply (partly_trans prot s s2); [|by apply same_partly].
       apply (carved_partly r range); try done. intros a Ha. left. by apply Hnone. }
  intros ? s3 (-> & H3 & Hins3). apply wp_bind. unfold wp at 1, modify.
  destruct (piece_protected r range prot s2 s3 H2 H3 Hav Hins3 Hok)
    as (new & s4 & En & Es & H4 & Hv1 & Hv2 & Hkey & He4). rewrite <- En, <- Es. clear En Es.
  assert (forall s', (forall a, AddressSpace.view s' a = AddressSpace.view s4 a) -> partly prot s s') as Hpart.
  { intros s' Hv. apply (carved_partly r range); try done; intros a Ha; rewrite Hv.
    - right. left. by apply Hv1.
    - rewrite Hv2 by done. by apply Hkept. }
  assert (AddressSpace.listed s4 adj) as Hl4.
  { destruct Hl2 as [? Hl2]. split; [done|]. intros q Hq. apply He4. right. by apply Hl2. }
  apply wp_bind. eapply wp_mono; [by apply AddressSpace.map_all_ok| | |done].
  2: { intros s5 (? & _ & Hv). split; [done|]. by apply Hpart. }
  intros [] s5 (H5 & _ & Hv5 & He5).
  assert ((vaddr new, new) ∈ AddressSpace.elems s5) as Hin5.
  { apply He5. right. split; [apply He4; by left|]. intros q Hq E. apply (Hkey (vaddr q) q); [|done].
    by apply Hl2. }
  eapply wp_mono; [by apply AddressSpace.map_region_ok| | |done].
  2: { intros s6 Hm. split; [apply Hm|]. apply Hpart. intros a.
       by rewrite (AddressSpace.mapped_view env new s5 s6 a H5 Hin5 Hm). }
  intros [] s6 Hm. split; [apply Hm|].
  assert (forall a, AddressSpace.view s6 a = AddressSpace.view s4 a) as Hv6.
  { intros a. by rewrite (AddressSpace.mapped_view env new s5 s6 a H5 Hin5 Hm). }
  destruct Hm as [H6 [_ He6]]. change (vaddr (set_directory new true)) with (vaddr new) in He6.
  assert (forall q, q ∈ adj -> VirtualRange.within (m_range r) (vaddr q)) as Hadj
    by (apply Forall_forall; exact Hins2).
  split; [intros a Ha; rewrite Hv6; by apply Hv1|].
  split; [intros a Ha; rewrite Hv6, Hv2 by done; by apply Hkept|]. split.
  - intros e He Hne. assert (e ∈ AddressSpace.elems s2) as He2 by (by apply Hkeep).
    destruct e as [k q]. apply He6. right. split; [|by apply (Hkey k q)]. apply He5. right.
    split; [apply He4; by right|]. intros q' Hq' E. simpl in E. subst k.
    pose proof (Hadj q' Hq') as Hw. pose proof (AddressSpace.key_vaddr env s _ _ H He) as Ek.
    pose proof (ok_size _ (AddressSpace.s_regions _ s H _ _ He)) as Hsq.
    assert (VirtualRange.within (m_range q) (vaddr q')) as Hwq.
    { rewrite Ek. unfold VirtualRange.within, vaddr, size in *. lia. }
    by destruct (AddressSpace.region_of_address env s _ _ _ _ _ H He Hin Hwq Hw).
  - intros Hatt k q [[= -> ->]|[Hq Hk6]]%He6; [done|]. apply He5 in Hq as [(q' & _ & [= -> ->])|[Hq Hk5]]; [done|].
    apply He4 in Hq as [[= -> ->]|Hq]; [done|].
    destruct (Hfrom _ Hq) as [[Hq' _]|(q' & Hq' & [= -> ->])]; [by eapply Hatt|]. by apply Hk5 in Hq'.
Qed.

(** ** Several regions *)

(** The addresses of [P] have the new protection, the others are as before. *)
Definition protects (P : Z -> Prop) (prot : Z) (s s' : AddressSpace.t T) : Prop :=
  forall a,
    (P a -> exists v, AddressSpace.view s a = Some v /\
       AddressSpace.view s' a = Some (with_access v (prot_to_region_access_flags prot))) /\
    (~ P a -> AddressSpace.view s' a = AddressSpace.view s a).

Lemma protects_compose (P Q R : Z -> Prop) prot s1 s2 s3 :
  (forall a, {P a} + {~ P a}) -> (forall a, {Q a} + {~ Q a}) -> (forall a, R a <-> P a \/ Q a) ->
  protects P prot s1 s2 -> protects Q prot s2 s3 -> protects R prot s1 s3.
Proof.
  intros dP dQ HR H1 H2 a. destruct (H1 a) as [H1y H1n], (H2 a) as [H2y H2n]. rewrite HR.
  split; [|intros Hn; rewrite H2n, H1n by tauto; done]. intros Hor.
  destruct (dP a) as [Hp|Hp].
  - destruct (H1y Hp) as (v & Ev & E2). exists v. split; [done|].
    destruct (dQ a) as [Hq|Hq]; [|by rewrite H2n].
    destruct (H2y Hq) as (w & Ew & ->). rewrite E2 in Ew. injection Ew as <-. done.
  - rewrite <- (H1n Hp). apply H2y. tauto.
Qed.

Lemma protects_partly P prot s s' : (forall a, {P a} + {~ P a}) -> protects P prot s s' -> partly prot s s'.
Proof. intros d H a. destruct (H a) as [H1 H2]. destruct (d a); right; [right|left]; auto. Qed.

Lemma with_access_same v access : AddressSpace.v_access v = access -> with_access v access = v.
Proof. intros <-. by destruct v. Qed.

(** The addresses of a region in the range. *)
Definition in_both (range : VirtualRange.t) (r : Region) (a : Z) : Prop :=
  VirtualRange.within (m_range r) a /\ VirtualRange.within range a.

Lemma in_both_dec range r a : {in_both range r a} + {~ in_both range r a}.
Proof.
  destruct (AddressSpace.within_dec (m_range r) a); [|right; by intros []].
  destruct (AddressSpace.within_dec range a); [by left|right; by intros []].
Defined.

Definition in_some (range : VirtualRange.t) (rs : list Region) (a : Z) : Prop :=
  AddressSpace.in_regions rs a /\ VirtualRange.within range a.

Lemma in_some_dec range rs a : {in_some range rs a} + {~ in_some range rs a}.
Proof.
  destruct (AddressSpace.in_regions_dec rs a); [|right; by intros []].
  destruct (AddressSpace.within_dec range a); [by left|right; by intros []].
Defined.

Lemma in_some_cons range r rs a : in_some range (r :: rs) a <-> in_both range r a \/ in_some range rs a.
Proof. unfold in_some, in_both, AddressSpace.in_regions. rewrite Exists_cons. tauto. Qed.

(** One region of the loop. *)
Definition stepped (range : VirtualRange.t) (prot : Z) (r : Region) (s s' : AddressSpace.t T) : Prop :=
  AddressSpace.inv env s' /\ protects (in_both range r) prot s s' /\ (attached s -> attached s') /\
  forall e, e ∈ AddressSpace.elems s -> fst e <> vaddr r -> e ∈ AddressSpace.elems s'.

Lemma protect_whole_ok range prot r s E :
  AddressSpace.inv env s -> (vaddr r, r) ∈ AddressSpace.elems s ->
  (forall a, VirtualRange.within (m_range r) a -> VirtualRange.within range a) ->
  wp (protect_region env r prot) (fun _ s' => stepped range prot r s s') E
     (short_of_memory \/ ~ attached s) s.
Proof.
  intros H Hin Hsub. pose proof (AddressSpace.s_regions _ s H _ _ Hin) as Hok.
  eapply wp_mono; [by apply protect_region_ok| |exact (fun _ x => x)|].
  2: { intros [?|Hd]; [by left|right]. intros Ha. specialize (Ha _ _ Hin). congruence. }
  intros [] s' (H' & Hrw & Hd). split; [done|]. split; [|split].
  - intros a. rewrite (AddressSpace.rewritten_view env s r _ s' a H H' Hin Hrw eq_refl).
    destruct (AddressSpace.within_dec (m_range r) a) as [Hw|Hn].
    + split; [|intros []; by split; [|apply Hsub]]. intros _. exists (AddressSpace.view_of r a).
      rewrite set_prot_view by done. split; [by apply (AddressSpace.view_in env s (vaddr r))|done].
    + by split; [intros []|].
  - intros Ha k q Hq. destruct Hrw as [_ He]. apply He in Hq as [[= -> ->]|[Hq _]]; [done|by eapply Ha].
  - intros e He Hne. destruct Hrw as [_ He']. apply He'. by right.
Qed.

(** A region that overlaps the range without containing it. *)
Definition overlaps (range : VirtualRange.t) (r : Region) : Prop :=
  ~ VirtualRange.disjoint (m_range r) range /\
  ~ (VirtualRange.m_base (m_range r) <= VirtualRange.m_base range /\
     VirtualRange.m_base range + VirtualRange.m_size range <=
       VirtualRange.m_base (m_range r) + VirtualRange.m_size (m_range r)).

Lemma protect_one_ok range prot r s :
  VirtualRange.wf range -> 0 < VirtualRange.m_size range -> VirtualRange.page_aligned range ->
  AddressSpace.inv env s -> (vaddr r, r) ∈ AddressSpace.elems s -> overlaps range r ->
  wp (let* intersection := lift (VirtualRange.intersect range (m_range r)) in
      if VirtualRange.eqb intersection (m_range r) then protect_region env r prot
      else carve_protected env r intersection prot (fun a => len a =? 1))
     (fun _ s' => stepped range prot r s s')
     (fun s' => AddressSpace.inv env s' /\ partly prot s s') (short_of_memory \/ ~ attached s) s.
Proof.
  intros Hwf Hs Hal H Hin [Hd Hnc]. pose proof (AddressSpace.s_regions _ s H _ _ Hin) as Hok.
  pose proof (ok_wf _ Hok) as Hwr. pose proof (ok_size _ Hok) as Hsr. pose proof (ok_pages _ Hok) as Har.
  unfold VirtualRange.disjoint, size in *. apply wp_bind. unfold wp at 1. simpl.
  rewrite AddressSpace.intersect_exact by (done || unfold VirtualRange.disjoint; lia).
  set (i := VirtualRange.mk _ _).
  assert (forall a, VirtualRange.within i a <-> in_both range r a) as Hi.
  { intros a. unfold in_both, VirtualRange.within, i. simpl. lia. }
  destruct (VirtualRange.eqb i (m_range r)) eqn:E.
  - apply VirtualRange.eqb_spec in E. apply protect_whole_ok; [done|done|].
    intros a Ha. rewrite <- E in Ha. by apply Hi.
  - destruct Hwr as (? & ? & ?), Hwf as (? & ? & ?), Har as [Ha1 Ha2], Hal as [Ha3 Ha4].
    assert (i <> m_range r) as Hne by (intros Ei; apply VirtualRange.eqb_spec in Ei; congruence).
    eapply wp_mono; [apply (carve_protected_ok r i prot)|..]; try done.
    + unfold VirtualRange.wf, i. simpl. lia.
    + unfold i. simpl. lia.
    + unfold VirtualRange.page_aligned, i, PAGE_SIZE in *. simpl. zdiv.
    + intros a Ha. by apply Hi.
    + destruct (Z.lt_ge_cases (VirtualRange.m_base (m_range r)) (VirtualRange.m_base range)).
      * exists (VirtualRange.m_base (m_range r)). unfold VirtualRange.within, i. simpl. lia.
      * exists (VirtualRange.m_base range + VirtualRange.m_size range). unfold VirtualRange.within, i. simpl.
        split; [|lia]. split; [lia|]. apply Z.nle_gt. intros Hle. apply Hne. unfold i.
        destruct (m_range r) as [b z]; simpl in *. f_equal; lia.
    + intros rs Hlen. apply Z.eqb_eq. unfold len. rewrite Hlen; [done|].
      unfold AddressSpace.one_sided, i. simpl. lia.
    + intros [] s' [H' (Hv1 & Hv2 & Hk & Hat)]. split; [done|]. split; [|split; [done|done]].
      intros a. split.
      * intros Ha. exists (AddressSpace.view_of r a). split; [|by apply Hv1, Hi].
        apply (AddressSpace.view_in env s (vaddr r)); [done|done|apply Ha].
      * intros Ha. apply Hv2. by rewrite Hi.
Qed.

Lemma protect_regions_ok range prot rs s :
  VirtualRange.wf range -> 0 < VirtualRange.m_size range -> VirtualRange.page_aligned range ->
  AddressSpace.inv env s -> AddressSpace.listed s rs -> Forall (overlaps range) rs ->
  wp (protect_regions env range prot rs)
     (fun _ s' => AddressSpace.inv env s' /\ protects (in_some range rs) prot s s' /\ (attached s -> attached s'))
     (fun s' => AddressSpace.inv env s' /\ partly prot s s') (short_of_memory \/ ~ attached s) s.
Proof.
  intros Hwf Hs Hal. revert s. induction rs as [|r rs IH]; intros s H Hl Ho.
  { apply wp_ret. split; [done|]. split; [|done]. intros a. split; [|done]. by intros [?%Exists_nil _]. }
  apply Forall_cons in Ho as [Hor Ho]. pose proof Hl as (Hin & Hl' & Hx)%AddressSpace.listed_cons.
  pose proof (AddressSpace.s_regions _ s H _ _ Hin) as Hok.
  assert (forall s1, stepped range prot r s s1 -> wp (protect_regions env range prot rs)
    (fun _ s' => AddressSpace.inv env s' /\ protects (in_some range (r :: rs)) prot s s' /\ (attached s -> attached s'))
    (fun s' => AddressSpace.inv env s' /\ partly prot s s') (short_of_memory \/ ~ attached s) s1) as Hgo.
  { intros s1 (H1 & Hp1 & Ha1 & Hk1).
    eapply wp_mono; [apply (IH s1 H1); [|done]; by apply (AddressSpace.listed_kept s s1 r)|..].
    - intros [] s' (? & Hp & Ha). split; [done|]. split; [|auto].
      apply (protects_compose (in_both range r) (in_some range rs) _ prot s s1); try done.
      + apply in_both_dec. + apply in_some_dec. + intros a. apply in_some_cons.
    - intros s' [? Hp]. split; [done|]. apply (partly_trans prot s s1); [|done].
      apply (protects_partly (in_both range r)); [apply in_both_dec|done].
    - intros [?|Hn]; [by left|right]. intros Ha. by apply Hn, Ha1. }
  cbn [protect_regions]. destruct (Z.eqb_spec (m_access r) (prot_to_region_access_flags prot)) as [Eacc|_].
  - apply Hgo. split; [done|]. split; [|done]. intros a. split; [|done]. intros [Hw _].
    exists (AddressSpace.view_of r a). rewrite with_access_same by done.
    split; by apply (AddressSpace.view_in env s (vaddr r)).
  - pose proof (protect_one_ok range prot r s Hwf Hs Hal H Hin Hor) as Hone.
    unfold wp, abind in Hone |- *. simpl in Hone |- *.
    destruct (VirtualRange.intersect range (m_range r)) as [i| | |]; try done.
    set (step := if VirtualRange.eqb i (m_range r) then protect_region env r prot
                 else carve_protected env r i prot (fun a => len a =? 1)) in *.
    destruct (step s) as [s1 [[]| | |]]; try done.
    apply (Hgo s1 Hone).
Qed.

(** ** Sizes that add up *)

Definition common_size (range : VirtualRange.t) (r : Region) : Z :=
  Z.min (VirtualRange.m_base (m_range r) + VirtualRange.m_size (m_range r))
        (VirtualRange.m_base range + VirtualRange.m_size range) -
  Z.max (VirtualRange.m_base (m_range r)) (VirtualRange.m_base range).

Definition sum_common (range : VirtualRange.t) (rs : list Region) : Z :=
  fold_right (fun r n => common_size range r + n) 0 rs.

(** Regions one behind the other have no more in common with the range than its
    size from [lo] on, and less if an address is in none of them. *)
Lemma sum_common_bound range rs lo a :
  Sorted.StronglySorted (fun r q => vaddr r + size r <= vaddr q) rs ->
  Forall (fun r => ~ VirtualRange.disjoint (m_range r) range /\ 0 < size r /\ lo <= vaddr r) rs ->
  0 < VirtualRange.m_size range ->
  let rest := Z.max 0 (VirtualRange.m_base range + VirtualRange.m_size range -
                       Z.max (VirtualRange.m_base range) lo) in
  0 <= sum_common range rs <= rest /\
  (VirtualRange.within range a -> lo <= a -> ~ AddressSpace.in_regions rs a -> sum_common range rs < rest).
Proof.
  intros Hso. revert lo. induction Hso as [|r rs Hso IH Hf]; intros lo Ho Hs; cbv zeta.
  { simpl. split; [lia|]. unfold VirtualRange.within. lia. }
  apply Forall_cons in Ho as [(Hd & Hr & Hlo) Ho]. cbn [sum_common fold_right]. fold (sum_common range rs).
  destruct (IH (vaddr r + size r)) as [IH1 IH2].
  { rewrite Forall_forall in Ho |- *. rewrite List.Forall_forall in Hf. intros q Hq.
    destruct (Ho q Hq) as (? & ? & _). split; [done|]. split; [done|]. apply Hf. by apply list_elem_of_In. }
  { done. }
  unfold common_size, VirtualRange.disjoint, VirtualRange.within, vaddr, size in *. split; [lia|].
  intros Ha Hla Hn. unfold AddressSpace.in_regions in Hn. rewrite Exists_cons in Hn.
  unfold VirtualRange.within in Hn.
  destruct (Z.le_gt_cases (VirtualRange.m_base (m_range r) + VirtualRange.m_size (m_range r)) a) as [Hc|Hc].
  - assert (sum_common range rs < Z.max 0 (VirtualRange.m_base range + VirtualRange.m_size range -
      Z.max (VirtualRange.m_base range) (VirtualRange.m_base (m_range r) + VirtualRange.m_size (m_range r))))
      by (apply IH2; [done|done|tauto]). lia.
  - assert (a < VirtualRange.m_base (m_range r)) by lia. lia.
Qed.

Lemma check_inode_outcome prot r : check_inode prot r = Ok tt \/ exists e, check_inode prot r = Err e.
Proof. unfold check_inode, validate_inode_mmap_prot. repeat case_match; eauto. Qed.

Lemma check_mprotect_outcome prot r :
  (check_mprotect c prot r = Ok tt /\ prot_allowed prot) \/ exists e, check_mprotect c prot r = Err e.
Proof.
  unfold check_mprotect, AddressSpace.check_mutable. destruct (m_mmap r); [|right; eauto].
  destruct (m_immutable r); [right; simpl; eauto|]. simpl.
  destruct (validate_mmap_prot _ _ _ _ _) as [[]| | |] eqn:E1; [|right; eauto|..].
  - left. split; [done|]. by eapply validated.
  - exfalso; unfold validate_mmap_prot in E1; repeat case_match; done.
  - exfalso; unfold validate_mmap_prot in E1; repeat case_match; done.
Qed.

(** The checks of [mprotect] add up what the regions have in common with the range. *)
Lemma check_regions_ok range prot rs acc :
  VirtualRange.wf range -> 0 < VirtualRange.m_size range ->
  Forall (fun r => region_ok r /\ ~ VirtualRange.disjoint (m_range r) range) rs -> fits 64 acc ->
  match check_regions c range prot rs acc with
  | Ok total => total = u64 (acc + sum_common range rs) /\ (rs <> [] -> prot_allowed prot)
  | Err _ => True
  | _ => False
  end.
Proof.
  intros Hwf Hs. revert acc. induction rs as [|r rs IH]; intros acc Ho Ha.
  { simpl. split; [|done]. unfold u64. by rewrite Z.add_0_r, wrap_small. }
  apply Forall_cons in Ho as [[Hok Hd] Ho]. cbn [check_regions].
  destruct (check_mprotect_outcome prot r) as [[-> Hp]|[e ->]]; [|done]. cbn [bind].
  destruct (check_inode_outcome prot r) as [->|[e ->]]; [|done]. cbn [bind].
  rewrite (AddressSpace.intersect_exact _ _ (ok_wf _ Hok) Hwf (ok_size _ Hok) Hs Hd). cbn [bind].
  set (acc' := u64 _). assert (fits 64 acc') as Ha' by by apply wrap_fits.
  specialize (IH acc' Ho Ha'). destruct (check_regions c range prot rs acc'); try done.
  destruct IH as [-> _]. split; [|done].
  unfold acc', u64. rewrite wrap_add_l. f_equal. simpl. unfold common_size. lia.
Qed.

(** ** [mprotect] *)

Lemma protects_reprotected P range prot s s' :
  (forall a, P a <-> VirtualRange.within range a) -> protects P prot s s' -> reprotected range prot s s'.
Proof. intros HP H. split; intros a Ha; apply (H a); rewrite HP; done. Qed.

Lemma already_protected range prot r s :
  AddressSpace.inv env s -> (vaddr r, r) ∈ AddressSpace.elems s ->
  m_access r = prot_to_region_access_flags prot ->
  (forall a, VirtualRange.within range a -> VirtualRange.within (m_range r) a) -> reprotected range prot s s.
Proof.
  intros H Hin Ea Hsub. split; [done|]. intros a Ha. exists (AddressSpace.view_of r a).
  rewrite with_access_same by done. split; (apply (AddressSpace.view_in env s (vaddr r)); auto).
Qed.

(** What a call that fails leaves. *)
Definition mprotect_failed (prot : Z) (s s' : AddressSpace.t T) : Prop :=
  AddressSpace.inv env s' /\ (AddressSpace.same s s' \/ prot_allowed prot /\ partly prot s s').

Definition range_protected (range : VirtualRange.t) (prot : Z) (s s' : AddressSpace.t T) : Prop :=
  AddressSpace.inv env s' /\ (attached s -> attached s') /\ prot_allowed prot /\ reprotected range prot s s'.

Lemma mprotect_whole_ok range prot r s :
  AddressSpace.inv env s -> (vaddr r, r) ∈ AddressSpace.elems s -> m_range r = range ->
  wp (let* _ := lift (check_mprotect c prot r) in
      if m_access r =? prot_to_region_access_flags prot then ret 0 else
      let* _ := lift (check_inode prot r) in
      let* _ := protect_region env r prot in
      ret 0)
     (fun _ s' => range_protected range prot s s') (mprotect_failed prot s)
     (short_of_memory \/ ~ attached s) s.
Proof.
  intros H Hin <-. assert (mprotect_failed prot s s) as HE by (split; [done|by left]).
  apply wp_bind, check_mprotect_ok; [|done]. intros Hp.
  destruct (Z.eqb_spec (m_access r) (prot_to_region_access_flags prot)) as [Ea|_].
  { apply wp_ret. do 3 (split; [done|]). by apply (already_protected _ prot r s). }
  apply wp_bind, check_inode_ok; [|done].
  apply wp_bind. eapply wp_mono; [by apply (protect_whole_ok (m_range r) prot r s (mprotect_failed prot s))| |done|done].
  intros [] s' (H' & Hpr & Ha & _). apply wp_ret. do 3 (split; [done|]).
  apply (protects_reprotected (in_both (m_range r) r)); [|done]. unfold in_both. tauto.
Qed.

Lemma mprotect_part_ok range prot r s :
  AddressSpace.inv env s -> VirtualRange.wf range -> VirtualRange.page_aligned range ->
  0 < VirtualRange.m_size range -> AddressSpace.find_region_from_range s range = None ->
  AddressSpace.find_region_containing s range = Some r ->
  wp (let* _ := lift (check_mprotect c prot r) in
      if m_access r =? prot_to_region_access_flags prot then ret 0 else
      let* _ := lift (check_inode prot r) in
      let* _ := carve_protected env r range prot (fun _ => true) in
      ret 0)
     (fun _ s' => range_protected range prot s s') (mprotect_failed prot s)
     (short_of_memory \/ ~ attached s) s.
Proof.
  intros H Hwf Hal Hs Ew Ec. assert (mprotect_failed prot s s) as HE by (split; [done|by left]).
  pose proof Ec as (k & Hin & Hlo & Hhi)%RegionTree.lookup_range_ok; [|apply H|done|done].
  pose proof (AddressSpace.key_vaddr env s _ _ H Hin) as ->.
  assert (forall a, VirtualRange.within range a -> VirtualRange.within (m_range r) a) as Hsub
    by (unfold VirtualRange.within; intros; lia).
  apply wp_bind, check_mprotect_ok; [|done]. intros Hp.
  destruct (Z.eqb_spec (m_access r) (prot_to_region_access_flags prot)) as [Ea|_].
  { apply wp_ret. do 3 (split; [done|]). by apply (already_protected _ prot r s). }
  apply wp_bind, check_inode_ok; [|done]. apply wp_bind.
  eapply wp_mono; [apply (carve_protected_ok r range prot)|..]; try done.
  { by apply (AddressSpace.not_whole env s). }
  - intros [] s' (H' & Hv1 & Hv2 & _ & Ha). apply wp_ret. do 3 (split; [done|]). split; [done|].
    intros a Hw. exists (AddressSpace.view_of r a). split; [|by apply Hv1].
    by apply (AddressSpace.view_in env s (vaddr r)); [..|apply Hsub].
  - intros s' [? ?]. split; [done|]. by right.
Qed.

Lemma listed_overlaps s range rs :
  AddressSpace.inv env s -> VirtualRange.wf range -> 0 < VirtualRange.m_size range ->
  AddressSpace.find_region_containing s range = None -> AddressSpace.listed s rs ->
  Forall (fun r => ~ VirtualRange.disjoint (m_range r) range) rs -> Forall (overlaps range) rs.
Proof.
  intros H Hwf Hs Hnc [_ Hl] Hd. rewrite Forall_forall in Hd |- *. intros r Hr. split; [by apply Hd|].
  intros Hcon. assert (AddressSpace.find_region_containing s range = Some r) as E; [|congruence].
  apply (RegionTree.lookup_range_ok _ range r); [apply H|done|done|]. exists (vaddr r). split; [by apply Hl|done].
Qed.

Lemma mprotect_several_ok range prot s :
  AddressSpace.inv env s -> VirtualRange.wf range -> VirtualRange.page_aligned range ->
  0 < VirtualRange.m_size range -> AddressSpace.find_region_containing s range = None ->
  wp (let* regions := AddressSpace.find_regions_intersecting env range in
      match regions with
      | [] => lift (Err EINVAL)
      | _ =>
          let* full_size_found := lift (check_regions c range prot regions 0) in
          if negb (full_size_found =? VirtualRange.m_size range) then lift (Err ENOMEM) else
          let* _ := protect_regions env range prot regions in
          ret 0
      end)
     (fun _ s' => range_protected range prot s s') (mprotect_failed prot s)
     (short_of_memory \/ ~ attached s) s.
Proof.
  intros H Hwf Hal Hs Ec. apply wp_bind.
  eapply wp_mono; [by apply AddressSpace.find_regions_ok| | |done].
  2: { intros s' Hs'. split; [by eapply AddressSpace.same_inv|by left]. }
  intros rs s1 (Hs1 & Hl & Hso & Hd & _). pose proof (AddressSpace.same_inv _ _ _ Hs1 H) as H1.
  assert (mprotect_failed prot s s1) as HE1 by (split; [done|by left]).
  destruct rs as [|r0 rs0] eqn:Ers; [done|]. rewrite <- Ers in *. assert (rs <> []) as Hne by by rewrite Ers.
  clear Ers r0 rs0. pose proof Hl as [_ Hin].
  assert (Forall (fun r => region_ok r /\ ~ VirtualRange.disjoint (m_range r) range) rs) as Hok.
  { rewrite Forall_forall in Hd |- *. intros r Hr. split; [|by apply Hd].
    exact (AddressSpace.s_regions _ s H _ _ (Hin r Hr)). }
  pose proof (listed_overlaps s range rs H Hwf Hs Ec Hl Hd) as Ho.
  apply wp_bind. unfold wp at 1, lift.
  pose proof (check_regions_ok range prot rs 0 Hwf Hs Hok ltac:(unfold fits; lia)) as Ht.
  destruct (check_regions c range prot rs 0) as [total| | |]; [|done|done|done].
  destruct Ht as [-> Hp]. specialize (Hp Hne).
  destruct (Z.eqb_spec (u64 (0 + sum_common range rs)) (VirtualRange.m_size range)) as [Et|]; [cbn [negb]|done].
  assert (forall a, VirtualRange.within range a -> AddressSpace.in_regions rs a) as Hcov.
  { intros a Hw. destruct (AddressSpace.in_regions_dec rs a) as [|Hn]; [done|]. exfalso.
    destruct (sum_common_bound range rs 0 a Hso) as [Hb Hb']; [|done|].
    { rewrite Forall_forall in Hok |- *. intros r Hr. destruct (Hok r Hr) as [Hk ?].
      pose proof (ok_size _ Hk). destruct (ok_wf _ Hk). done. }
    destruct Hwf as (? & ? & ?). pose proof Hw as [? ?].
    specialize (Hb' Hw ltac:(lia) Hn).
    unfold u64 in Et. rewrite wrap_small in Et by (unfold fits; lia). lia. }
  apply wp_bind. eapply wp_mono; [apply (protect_regions_ok range prot rs s1)|..]; try done.
  { destruct Hl as [? Hl]. split; [done|]. intros r Hr. rewrite (AddressSpace.same_elems _ _ Hs1). by apply Hl. }
  - intros [] s' (H' & Hpr & Ha). apply wp_ret. split; [done|]. split; [|split; [done|]].
    + intros Hat. apply Ha. intros k r. rewrite (AddressSpace.same_elems _ _ Hs1). apply Hat.
    + apply (protects_reprotected (in_some range rs)).
      * intros a. unfold in_some. split; [tauto|]. intros Hw. split; [by apply Hcov|done].
      * intros a. rewrite <- (AddressSpace.same_view _ _ a Hs1). apply Hpr.
  - intros s' [? Hpt]. split; [done|]. right. split; [done|]. intros a.
    rewrite <- (AddressSpace.same_view _ _ a Hs1). apply Hpt.
  - intros [?|Hn]; [by left|right]. intros Hat. apply Hn. intros k r.
    rewrite (AddressSpace.same_elems _ _ Hs1). apply Hat.
Qed.

Lemma require_ok p s (Q : unit -> AddressSpace.t T -> Prop) (E : AddressSpace.t T -> Prop) C :
  Q tt s -> E s -> wp (require c p) Q E C s.
Proof.
  intros HQ HE. unfold wp, require, lift, Process.require_promise. repeat case_match; simplify_eq; done.
Qed.

Lemma sys_mprotect_ok addr sz prot s :
  AddressSpace.inv env s -> fits 64 addr -> fits 64 sz ->
  wp (sys_mprotect env c addr sz prot)
     (fun _ s' => exists range, VirtualRange.expand_to_page_boundaries addr sz = Ok range /\
        range_protected range prot s s')
     (mprotect_failed prot s) (short_of_memory \/ ~ attached s) s.
Proof.
  intros H Ha Hz. assert (mprotect_failed prot s s) as HE by (split; [done|by left]).
  unfold sys_mprotect. apply wp_bind, require_ok; [|done].
  apply wp_bind. assert (forall (k : unit -> AddressSpace.t T -> Prop) C, k tt s ->
    wp (if flag prot PROT_EXEC then require c Process.prot_exec else ret tt) k (mprotect_failed prot s) C s) as Hexec.
  { intros k C Hk. destruct (flag prot PROT_EXEC); [by apply require_ok|done]. }
  apply Hexec. clear Hexec. apply wp_bind. unfold wp at 1, lift.
  destruct (VirtualRange.expand_ok addr sz Ha Hz) as [(range & -> & Hwf & Hal & Hb & He)|[-> _]]; [|done].
  destruct (Z.eqb_spec (VirtualRange.m_size range) 0) as [|Hnz]; [done|].
  assert (0 < VirtualRange.m_size range) as Hs by (destruct Hwf as (? & ? & ?); lia).
  destruct (negb (is_user_range env range)); [done|].
  apply (wp_mono _ (fun _ s' => range_protected range prot s s') _ (mprotect_failed prot s) _
    (short_of_memory \/ ~ attached s)); [|intros ? ? ?; by exists range|done|done].
  apply wp_bind. unfold wp at 1, gets. destruct (AddressSpace.find_region_from_range s range) as [r|] eqn:Ew.
  { destruct (AddressSpace.find_region_from_range_ok env s range r H Hwf Hal Ew). by apply mprotect_whole_ok. }
  apply wp_bind. unfold wp at 1, gets. destruct (AddressSpace.find_region_containing s range) as [r|] eqn:Ec.
  - by apply mprotect_part_ok.
  - by apply mprotect_several_ok.
Qed.

(** ** Writable or executable *)

(** Every access an address has now was there before or could be asked for. *)
Definition accesses (s s' : AddressSpace.t T) : Prop :=
  forall a v', AddressSpace.view s' a = Some v' ->
    (exists b v, AddressSpace.view s b = Some v /\ AddressSpace.v_access v' = AddressSpace.v_access v) \/
    exists prot, prot_allowed prot /\ AddressSpace.v_access v' = prot_to_region_access_flags prot.

Definition moved (s s' : AddressSpace.t T) : Prop := AddressSpace.inv env s' /\ accesses s s'.

Lemma accesses_refl s : accesses s s.
Proof. intros a v E. left. eauto. Qed.

Lemma accesses_trans s1 s2 s3 : accesses s1 s2 -> accesses s2 s3 -> accesses s1 s3.
Proof.
  intros H1 H2 a v E. destruct (H2 a v E) as [(b & w & Ew & ->)|?]; [by apply (H1 b)|by right].
Qed.

Lemma shrunk_accesses s s' : AddressSpace.shrunk s s' -> accesses s s'.
Proof. intros H a v E. destruct (H a) as [E'|E']; [congruence|]. left. rewrite E' in E. eauto. Qed.

Lemma same_accesses s s' : AddressSpace.same s s' -> accesses s s'.
Proof. intros Hs. by apply shrunk_accesses, AddressSpace.same_shrunk. Qed.

Lemma partly_accesses prot s s' : prot_allowed prot -> partly prot s s' -> accesses s s'.
Proof.
  intros Hp H a v E. destruct (H a) as [E'|[E'|(w & Ew & E')]]; rewrite E' in E; [done|left; eauto|right].
  exists prot. injection E as <-. done.
Qed.

Lemma reprotected_partly range prot s s' : reprotected range prot s s' -> partly prot s s'.
Proof.
  intros [H1 H2] a. destruct (AddressSpace.within_dec range a) as [Hw|Hn]; right; [right|left]; auto.
Qed.

Lemma unmapped_shrunk range s s' : AddressSpace.unmapped range s s' -> AddressSpace.shrunk s s'.
Proof.
  intros (_ & H1 & H2 & _) a. destruct (AddressSpace.within_dec range a); [auto|right; auto].
Qed.

Lemma sys_munmap_moves addr sz s :
  AddressSpace.inv env s -> fits 64 addr -> fits 64 sz ->
  wp (sys_munmap env c addr sz) (fun _ s' => moved s s') (moved s) True s.
Proof.
  intros H Ha Hz. assert (moved s s) as Hid by (split; [done|apply accesses_refl]).
  unfold sys_munmap. apply wp_bind, require_ok; [|done]. apply wp_bind.
  eapply wp_mono; [by apply AddressSpace.unmap_mmap_range_ok|..]; [| |done].
  - intros [] s' (H' & range & _ & Hu). apply wp_ret. split; [done|]. by eapply shrunk_accesses, unmapped_shrunk.
  - intros s' [? ?]. split; [done|]. by apply shrunk_accesses.
Qed.

Lemma sys_mprotect_moves addr sz prot s :
  AddressSpace.inv env s -> fits 64 addr -> fits 64 sz ->
  wp (sys_mprotect env c addr sz prot) (fun _ s' => moved s s') (moved s) True s.
Proof.
  intros H Ha Hz. eapply wp_mono; [by apply sys_mprotect_ok|..]; [| |done].
  - intros x s' (range & _ & H' & _ & Hp & Hr). split; [done|].
    by eapply partly_accesses, reprotected_partly.
  - intros s' [H' [Hs|[Hp Hpt]]]; (split; [done|]); [by apply same_accesses|by eapply partly_accesses].
Qed.

(** Changing attributes that the page tables do not depend on. *)
Lemma write_attributes_ok s r r' :
  AddressSpace.inv env s -> (vaddr r, r) ∈ AddressSpace.elems s -> m_range r' = m_range r ->
  m_page_directory r' = m_page_directory r -> m_access r' = m_access r -> region_ok r' ->
  moved s (AddressSpace.write_region r' s).
Proof.
  intros H Hin Er Ed Ea Hok.
  destruct (AddressSpace.write_region_ok s r r' (AddressSpace.s_tree _ s H) Hin Er) as (Ht & Hrw & Hmm).
  assert (AddressSpace.inv env (AddressSpace.write_region r' s)) as H'.
  { apply (AddressSpace.rewrite_inv env s r r'); try done; [|intros p _; by rewrite Hmm].
    intros p pte Hp Hl. rewrite Hmm in Hl.
    destruct (AddressSpace.s_ptes _ s H p pte Hl) as (_ & k & q & Hq & Hqw & Hqd & Hal).
    destruct (AddressSpace.region_of_address env s _ _ _ _ p H Hq Hin Hqw (proj1 Hp)) as [_ ->].
    split; [congruence|]. unfold entry_allowed, is_writable, is_executable, is_readable in *. by rewrite Ea. }
  split; [done|]. intros a v E. left. exists a.
  rewrite (AddressSpace.rewritten_view env s r r' _ a H H' Hin Hrw Er) in E.
  destruct (AddressSpace.within_dec (m_range r) a) as [Hw|]; [|eauto].
  exists (AddressSpace.view_of r a). injection E as <-. split; [|exact Ea].
  by apply (AddressSpace.view_in env s (vaddr r)).
Qed.

Lemma allocated_accesses r s s' prot :
  prot_allowed prot -> m_access r = prot_to_region_access_flags prot ->
  AddressSpace.allocated r s s' -> accesses s s'.
Proof.
  intros Hp Ea H a v E. destruct (H a) as [Hv _]. rewrite Hv in E.
  destruct (AddressSpace.within_dec (m_range r) a); [right|left; eauto].
  exists prot. injection E as <-. done.
Qed.

Lemma moved_trans s1 s2 s3 : moved s1 s2 -> moved s2 s3 -> moved s1 s3.
Proof. intros [_ H1] [? H2]. split; [done|]. by apply (accesses_trans s1 s2). Qed.

Lemma same_moved s s' : AddressSpace.inv env s -> AddressSpace.same s s' -> moved s s'.
Proof. intros H Hs. split; [by eapply AddressSpace.same_inv|by apply same_accesses]. Qed.

(** A file gives a shared object only to a shared mapping. *)
Definition file_ok (fd : outcome FileDescription) : Prop :=
  match fd with
  | Ok d => forall range offset shared, match vmobject_for_mmap d range offset shared with
            | Ok (v, _, _) => is_shared_inode v = true -> shared = true
            | Err _ => True
            | _ => False
            end
  | Err _ => True
  | _ => False
  end.

Lemma mmap_backing_ok id fd params rounded requested s (E : AddressSpace.t T -> Prop) C :
  file_ok fd -> (forall s', AddressSpace.same s s' -> E s') ->
  wp (mmap_backing env id fd params rounded requested)
     (fun b s' => AddressSpace.same s s' /\
        (is_shared_inode (fst (fst (fst b))) = true -> flag (p_flags params) MAP_SHARED = true)) E C s.
Proof.
  intros Hf HE. unfold mmap_backing. destruct (flag (p_flags params) MAP_ANONYMOUS).
  { apply wp_bind, AddressSpace.alloc_ok; [|done]. intros s' Hs. by apply wp_ret. }
  assert (E s) as HEs by by apply HE.
  destruct (_ <? 0); [done|]. destruct (flag _ 0xfff); [done|]. apply wp_bind. unfold wp at 1, lift.
  unfold file_ok in Hf. destruct fd as [d| | |]; [|done..].
  destruct (is_directory d); [done|]. destruct (description_is_readable d); [|done]. cbn [negb].
  destruct (_ && _); [done|]. apply wp_bind.
  assert (forall (k : unit -> AddressSpace.t T -> Prop), k tt s -> wp (if has_inode d
     then lift (validate_inode_mmap_prot (p_prot params) true (description_is_writable d)
                  (flag (p_flags params) MAP_SHARED)) else ret tt) k E C s) as Hv.
  { intros k Hk. unfold wp, lift, ret, validate_inode_mmap_prot. repeat case_match; simplify_eq; done. }
  apply Hv. clear Hv. apply wp_bind. unfold wp at 1, lift. specialize (Hf requested (p_offset params)
    (flag (p_flags params) MAP_SHARED)).
  destruct (vmobject_for_mmap _ _ _ _) as [[[v mt] off]| | |]; [|done..]. by apply wp_ret.
Qed.

Lemma mmap_region_ok r params d :
  region_ok r -> m_shared r = flag (p_flags params) MAP_SHARED -> region_ok (mmap_region r params d).
Proof.
  intros [? ? ? Hsh ?] E. unfold mmap_region.
  constructor; destruct d, (flag (p_flags params) MAP_SHARED) eqn:?, (flag _ MAP_STACK), (p_name params);
    done || (simpl; congruence) || (simpl in *; intros Hs; specialize (Hsh Hs); congruence).
Qed.

Lemma mmap_region_kept r params d :
  m_range (mmap_region r params d) = m_range r /\
  m_page_directory (mmap_region r params d) = m_page_directory r /\
  m_access (mmap_region r params d) = m_access r.
Proof. unfold mmap_region. by destruct d, (flag _ MAP_SHARED), (flag _ MAP_STACK), (p_name params). Qed.

Lemma validate_mmap_ok prot st an s (Q : unit -> AddressSpace.t T -> Prop) (E : AddressSpace.t T -> Prop) C :
  (prot_allowed prot -> Q tt s) -> E s -> wp (lift (validate_mmap_prot c prot st an None)) Q E C s.
Proof.
  intros HQ HE. unfold wp, lift.
  destruct (validate_mmap_prot _ _ _ _ _) as [[]| | |] eqn:E1; [apply HQ; by eapply validated|done|..];
    exfalso; unfold validate_mmap_prot in E1; repeat case_match; done.
Qed.

Lemma copy_mmap_name_ok name s (E : AddressSpace.t T -> Prop) C :
  (forall s', AddressSpace.same s s' -> E s') ->
  wp (copy_mmap_name env name) (fun _ s' => AddressSpace.same s s') E C s.
Proof.
  intros HE. unfold copy_mmap_name. destruct name; [|by apply wp_ret].
  destruct (_ <? _); [by apply HE|by apply AddressSpace.alloc_ok].
Qed.

(** The end of [mmap]: the new region and its attributes. *)
Lemma mmap_allocates rnd randomize base size alignment v offset mt params d s :
  AddressSpace.inv env s -> fits 64 base -> 0 <= size -> 0 < alignment -> prot_allowed (p_prot params) ->
  (is_shared_inode v = true -> flag (p_flags params) MAP_SHARED = true) ->
  wp (let* r := AddressSpace.allocate_region_with_vmobject env rnd randomize base size alignment v offset
                  None (p_prot params) (flag (p_flags params) MAP_SHARED) mt in
      let r := mmap_region r params d in
      let* _ := modify (AddressSpace.write_region r) in
      ret (vaddr r)) (fun _ s' => moved s s') (moved s) True s.
Proof.
  intros H Hb Hs Hal Hp Hsh. apply wp_bind.
  eapply wp_mono; [by apply AddressSpace.allocate_with_vmobject_ok|..]; [| |done].
  - intros r s1 (H1 & Hall & Hin & rounded & range & _ & _ & _ & Er).
    pose proof (AddressSpace.s_regions _ s1 H1 _ _ Hin) as Hok.
    apply wp_bind. unfold wp at 1, modify. apply wp_ret.
    destruct (mmap_region_kept r params d) as (E1 & E2 & E3).
    apply (moved_trans s s1).
    + split; [done|]. apply (allocated_accesses r s s1 (p_prot params)); [done|by rewrite Er|done].
    + apply (write_attributes_ok s1 r); try done. apply mmap_region_ok; [done|by rewrite Er].
  - intros s1 [H1 Hu]. split; [done|]. apply shrunk_accesses. intros a. right. apply Hu.
Qed.

Lemma sys_mmap_moves rnd id fd params s :
  AddressSpace.inv env s -> fits 64 (p_addr params) -> fits 64 (p_size params) ->
  0 <= p_alignment params -> file_ok fd ->
  wp (sys_mmap env c rnd id fd params) (fun _ s' => moved s s') (moved s) True s.
Proof.
  intros H Ha Hz Hal Hf. assert (moved s s) as Hid by (split; [done|apply accesses_refl]).
  unfold sys_mmap. set (alignment := if p_alignment params =? 0 then PAGE_SIZE else p_alignment params).
  assert (0 < alignment) as Hal'.
  { unfold alignment. destruct (Z.eqb_spec (p_alignment params) 0); [done|lia]. }
  apply wp_bind, require_ok; [|done].
  assert (forall (b : bool) p (k : unit -> AddressSpace.t T -> Prop), k tt s ->
    wp (if b then require c p else ret tt) k (moved s) True s) as Hreq.
  { intros [] p k Hk; [by apply require_ok|done]. }
  apply wp_bind, Hreq, wp_bind, Hreq. clear Hreq.
  destruct (flag alignment 0xfff); [done|]. apply wp_bind. unfold wp at 1, lift.
  destruct (VirtualRange.page_round_up (p_size params)) as [rounded| | |] eqn:Er; [|done|..];
    [|by destruct (VirtualRange.page_round_up_ok (p_size params)) as [[_ ?]|[_ ?]];
      [destruct Hz; lia|congruence|congruence]..].
  destruct (AddressSpace.page_round_up_inv _ _ (proj1 Hz) Er) as (Hfr & _ & _).
  destruct (negb _); [done|]. apply wp_bind.
  assert (forall s', AddressSpace.same s s' -> moved s s') as Hsame by (intros; by apply same_moved).
  eapply wp_mono; [by apply (copy_mmap_name_ok _ s (moved s) True)| |done|done].
  intros [] s1 Hs1. pose proof (Hsame _ Hs1) as Hm1. pose proof (proj1 Hm1) as H1.
  destruct (p_size params =? 0); [done|]. destruct (flag (p_addr params) 0xfff); [done|].
  destruct (_ && _); [done|]. destruct (_ && _); [done|]. destruct (_ && _); [done|].
  apply wp_bind, validate_mmap_ok; [|done]. intros Hp. destruct (_ && _); [done|].
  set (requested := if _ && _ then _ else _). apply wp_bind.
  eapply wp_mono; [apply (mmap_backing_ok id fd params rounded requested s1 (moved s) True)|..]; [done| | |done|done].
  { intros s' Hs'. apply Hsame. by eapply AddressSpace.same_trans. }
  intros [[[v mt] off] d] s2 [Hs2 Hsh]. cbn [fst] in Hsh.
  pose proof (Hsame _ (AddressSpace.same_trans _ _ _ Hs1 Hs2)) as Hm2. pose proof (proj1 Hm2) as H2.
  assert (fits 64 (VirtualRange.m_base requested) /\ 0 <= VirtualRange.m_size requested) as [Hb Hs].
  { unfold requested. destruct (_ && _); simpl; destruct Hfr; unfold fits in *; lia. }
  apply wp_bind. eapply (wp_mono _ (fun _ s3 => moved s s3) _ (moved s) _ True); [| |done|done].
  - destruct (flag _ MAP_FIXED); [|by apply wp_ret].
    eapply wp_mono; [by apply AddressSpace.unmap_mmap_range_ok|..]; [| |done].
    + intros [] s' (H' & range & _ & Hu). apply (moved_trans s s2); [done|]. split; [done|].
      by eapply shrunk_accesses, unmapped_shrunk.
    + intros s' [? ?]. apply (moved_trans s s2); [done|]. split; [done|]. by apply shrunk_accesses.
  - intros [] s3 Hm3. eapply wp_mono; [by apply mmap_allocates; [apply Hm3|..]|..]; [| |done].
    + intros ? s' ?. by apply (moved_trans s s3).
    + intros s' ?. by apply (moved_trans s s3).
Qed.

Lemma sys_set_mmap_name_moves addr sz name s :
  AddressSpace.inv env s -> fits 64 addr -> fits 64 sz ->
  wp (sys_set_mmap_name env c addr sz name) (fun _ s' => moved s s') (moved s) True s.
Proof.
  intros H Ha Hz. assert (moved s s) as Hid by (split; [done|apply accesses_refl]).
  unfold sys_set_mmap_name. apply wp_bind, require_ok; [|done]. destruct (_ <? _); [done|].
  apply wp_bind, AddressSpace.alloc_ok; [|intros; by apply same_moved]. intros s1 Hs1.
  pose proof (same_moved _ _ H Hs1) as Hm1. pose proof (proj1 Hm1) as H1.
  apply wp_bind. unfold wp at 1, lift.
  destruct (VirtualRange.expand_ok addr sz Ha Hz) as [(range & -> & Hwf & Hal & _ & _)|[-> _]]; [|done].
  apply wp_bind. unfold wp at 1, gets.
  destruct (AddressSpace.find_region_from_range s1 range) as [r|] eqn:Ew; [|done].
  destruct (AddressSpace.find_region_from_range_ok env s1 range r H1 Hwf Hal Ew) as [Hin _].
  apply wp_bind, AddressSpace.check_ok; [|done]. intros _ _.
  apply wp_bind. unfold wp at 1, modify. apply wp_ret. apply (moved_trans s s1); [done|].
  apply (write_attributes_ok s1 r); try done. by destruct (AddressSpace.s_regions _ s1 H1 _ _ Hin).
Qed.

Lemma sys_annotate_mapping_moves enforces addr flags s :
  AddressSpace.inv env s -> fits 64 addr ->
  wp (sys_annotate_mapping env enforces addr flags) (fun _ s' => moved s s') (moved s) True s.
Proof.
  intros H Ha. assert (moved s s) as Hid by (split; [done|apply accesses_refl]).
  unfold sys_annotate_mapping. destruct (_ =? 0); [done|]. destruct (Z.eqb_spec addr 0) as [|Hne]; [done|].
  destruct (is_user_address env addr) eqn:Eu; [cbn [negb]|done]. destruct (_ && _); [done|].
  apply wp_bind. unfold wp at 1, gets.
  destruct (AddressSpace.find_region_containing s (VirtualRange.mk addr 1)) as [r|] eqn:Ec; [|done].
  assert ((vaddr r, r) ∈ AddressSpace.elems s) as Hin.
  { unfold AddressSpace.find_region_containing, RegionTree.find_region_containing in Ec.
    destruct (find_largest_not_above _ _) as [q|] eqn:Eq; [|done].
    apply (largest_some _ _ _ (RegionTree.t_ordered _ (AddressSpace.s_tree _ s H))) in Eq
      as (k & Hq & _).
    destruct (VirtualRange.contains _ _); [|done]. injection Ec as <-.
    by rewrite (AddressSpace.key_vaddr env s _ _ H Hq) in Hq. }
  destruct (_ && _); [done|]. destruct (m_immutable r) eqn:Ei; [done|].
  set (r' := if flag flags Immutable then _ else _).
  assert (m_range r' = m_range r /\ m_page_directory r' = m_page_directory r /\ m_access r' = m_access r /\
    m_vmobject r' = m_vmobject r /\ m_shared r' = m_shared r) as (E1 & E2 & E3 & E4 & E5).
  { unfold r'. by destruct (flag flags Immutable), (flag flags SyscallCode). }
  apply wp_bind. unfold wp at 1, modify. apply wp_ret. apply (write_attributes_ok s r); try done.
  destruct (AddressSpace.s_regions _ s H _ _ Hin). unfold size in *. constructor; unfold size; rewrite ?E1, ?E3, ?E4, ?E5; done.
Qed.

Lemma mremap_takes_out r s (Q : unit -> AddressSpace.t T -> Prop) E C :
  AddressSpace.inv env s -> (vaddr r, r) ∈ AddressSpace.elems s ->
  (forall s', AddressSpace.inv env s' -> AddressSpace.shrunk s s' -> Q tt s') ->
  wp (let* _ := modify (fun s => AddressSpace.set_mmu
        (AddressSpace.write_region (set_directory (set_name r None) false) s) (unmap r (AddressSpace.m_mmu s))) in
      AddressSpace.deallocate_region (set_directory (set_name r None) false)) Q E C s.
Proof.
  intros H Hin HQ. set (r' := set_directory (set_name r None) false).
  pose proof (AddressSpace.s_regions _ s H _ _ Hin) as Hok.
  destruct (AddressSpace.write_region_ok s r r' (AddressSpace.s_tree _ s H) Hin eq_refl) as (Ht & Hrw & Hmm).
  destruct (unmap_ok r (AddressSpace.m_mmu s) Hok) as (Hu1 & Hu2 & Hu3).
  apply wp_bind. unfold wp at 1, modify. set (s1 := AddressSpace.set_mmu _ _).
  assert (AddressSpace.rewritten s r' s1) as Hrw1 by exact Hrw.
  assert (AddressSpace.inv env s1) as H1.
  { apply (AddressSpace.rewrite_inv env s r r'); try done; [by destruct Hok|].
    intros p pte Hp Hl. exfalso. pose proof (Hu3 p pte Hl) as Hl'.
    destruct (AddressSpace.s_ptes _ s H p pte Hl') as (_ & k & q & Hq & Hqw & Hqd & _).
    destruct (AddressSpace.region_of_address env s _ _ _ _ p H Hq Hin Hqw (proj1 Hp)) as [_ ->].
    pose proof (Hu2 p Hp Hqd) as Hn. simpl in Hl. congruence. }
  assert ((vaddr r', r') ∈ AddressSpace.elems s1) as Hin1 by (apply Hrw1; by left).
  eapply wp_mono; [apply (AddressSpace.deallocate_region_ok env r' s1 E C H1 Hin1)| |exact (fun _ x => x)|exact (fun x => x)].
  intros [] s2 [H2 Hr]. apply HQ; [done|]. intros a.
  destruct (AddressSpace.removed_view_in env s1 r' s2 a H1 H2 Hin1 Hr) as [Hv1 Hv2].
  destruct (AddressSpace.within_dec (m_range r') a) as [Hw|Hn]; [left; by apply Hv1|right].
  rewrite (Hv2 Hn), (AddressSpace.rewritten_view env s r r' s1 a H H1 Hin Hrw1 eq_refl).
  by destruct (AddressSpace.within_dec (m_range r) a).
Qed.

Lemma flags_to_prot_roundtrip access :
  0 <= access < 8 -> prot_to_region_access_flags (region_access_flags_to_prot access) = access.
Proof.
  intros H. assert (access = 0 \/ access = 1 \/ access = 2 \/ access = 3 \/
    access = 4 \/ access = 5 \/ access = 6 \/ access = 7) as Hc by lia.
  by destruct Hc as [->|[->|[->|[->|[->|[->|[->| ->]]]]]]].
Qed.

Lemma sys_mremap_moves copy rnd addr sz flags s :
  AddressSpace.inv env s -> fits 64 addr -> fits 64 sz ->
  match copy with Ok v => is_shared_inode v = false | Err _ => True | _ => False end ->
  wp (sys_mremap env c copy rnd addr sz flags) (fun _ s' => moved s s') (moved s) True s.
Proof.
  intros H Ha Hz Hc. assert (moved s s) as Hid by (split; [done|apply accesses_refl]).
  unfold sys_mremap. apply wp_bind, require_ok; [|done]. apply wp_bind. unfold wp at 1, lift.
  destruct (VirtualRange.expand_ok addr sz Ha Hz) as [(range & -> & Hwf & Hal & _ & _)|[-> _]]; [|done].
  apply wp_bind. unfold wp at 1, gets.
  destruct (AddressSpace.find_region_from_range s range) as [r|] eqn:Ew; [|done].
  destruct (AddressSpace.find_region_from_range_ok env s range r H Hwf Hal Ew) as [Hin Er].
  pose proof (AddressSpace.s_regions _ s H _ _ Hin) as Hok.
  apply wp_bind, AddressSpace.check_ok; [|done]. intros _ _. destruct (_ && _); [|done].
  apply wp_bind. unfold wp at 1, lift. destruct copy as [v| | |]; [|done..].
  match goal with |- wp (let* _ := ?m in let* _ := ?d in ?k) _ _ _ _ =>
    enough (wp (let* _ := (let* _ := m in d) in k) (fun _ s' => moved s s') (moved s) True s) as Hw end.
  { unfold wp, abind, modify in Hw |- *. simpl in Hw |- *. exact Hw. }
  apply wp_bind, mremap_takes_out; [done|done|]. intros s1 H1 Hsh1.
  assert (moved s s1) as Hm1 by (split; [done|by apply shrunk_accesses]).
  destruct (m_name r) as [old_name|]; [|done].
  destruct (ok_wf _ Hok) as (Hw1 & Hw2 & Hw3). apply wp_bind.
  eapply wp_mono; [apply AddressSpace.allocate_with_vmobject_ok|..]; [done|unfold fits; lia|lia|done|congruence| | |done].
  - intros q s2 (H2 & Hall & Hin2 & rounded & range2 & _ & _ & _ & Eq).
    apply wp_bind. unfold wp at 1, modify. apply wp_ret. apply (moved_trans s s2).
    + split; [done|]. intros a w E. destruct (Hall a) as [Hv _]. rewrite Hv in E.
      destruct (AddressSpace.within_dec (m_range q) a); [left|].
      * exists (vaddr r), (AddressSpace.view_of r (vaddr r)). injection E as <-. split.
        { apply (AddressSpace.view_in env s (vaddr r)); [done|done|]. pose proof (ok_size _ Hok).
          unfold VirtualRange.within, vaddr, size in *. lia. }
        rewrite Eq. simpl. apply flags_to_prot_roundtrip, Hok.
      * by apply Hm1 in E.
    + apply (write_attributes_ok s2 q); try done. by destruct (AddressSpace.s_regions _ s2 H2 _ _ Hin2).
  - intros s2 [H2 Hu]. apply (moved_trans s s1); [done|]. split; [done|]. apply shrunk_accesses.
    intros a. right. apply Hu.
Qed.

(** ** Sequences of calls *)

Inductive memory_call : Type :=
| Munmap (addr sz : Z)
| Mprotect (addr sz prot : Z)
| Mmap_call (rnd : nat -> Z) (id : Z) (fd : outcome FileDescription) (params : mmap_params)
| Set_mmap_name (addr sz : Z) (name : string)
| Annotate_mapping (enforces_syscall_regions : bool) (addr flags : Z)
| Mremap (private_copy : outcome VMObject) (rnd : nat -> Z) (addr sz flags : Z).

Definition run_memory_call (x : memory_call) : action (AddressSpace.t T) Z :=
  match x with
  | Munmap addr sz => sys_munmap env c addr sz
  | Mprotect addr sz prot => sys_mprotect env c addr sz prot
  | Mmap_call rnd id fd params => sys_mmap env c rnd id fd params
  | Set_mmap_name addr sz name => sys_set_mmap_name env c addr sz name
  | Annotate_mapping enforces addr flags => sys_annotate_mapping env enforces addr flags
  | Mremap copy rnd addr sz flags => sys_mremap env c copy rnd addr sz flags
  end.

(** The address space after a program made the calls one after the other,
    whatever each of them returned; a panic ends the run. *)
Fixpoint run_memory_calls (xs : list memory_call) (s : AddressSpace.t T) : outcome (AddressSpace.t T) :=
  match xs with
  | [] => Ok s
  | x :: xs => match run_memory_call x s with
               | (s', Ok _) | (s', Err _) => run_memory_calls xs s'
               | (_, Panic) => Panic
               | (_, Undefined) => Undefined
               end
  end.

(** Arguments of the machine's width, and files that keep their promise. *)
Definition call_ok (x : memory_call) : Prop :=
  match x with
  | Munmap addr sz | Mprotect addr sz _ | Set_mmap_name addr sz _ => fits 64 addr /\ fits 64 sz
  | Mmap_call _ _ fd params =>
      fits 64 (p_addr params) /\ fits 64 (p_size params) /\ 0 <= p_alignment params /\ file_ok fd
  | Annotate_mapping _ addr _ => fits 64 addr
  | Mremap copy _ addr sz _ => fits 64 addr /\ fits 64 sz /\
      match copy with Ok v => is_shared_inode v = false | Err _ => True | _ => False end
  end.

Lemma run_memory_call_moves x s :
  AddressSpace.inv env s -> call_ok x ->
  wp (run_memory_call x) (fun _ s' => moved s s') (moved s) True s.
Proof.
  intros H Hx. destruct x; simpl in Hx |- *; destruct_and?.
  - by apply sys_munmap_moves.
  - by apply sys_mprotect_moves.
  - by apply sys_mmap_moves.
  - by apply sys_set_mmap_name_moves.
  - by apply sys_annotate_mapping_moves.
  - by apply sys_mremap_moves.
Qed.

Lemma run_memory_calls_move xs s :
  AddressSpace.inv env s -> Forall call_ok xs ->
  match run_memory_calls xs s with Ok s' => moved s s' | Err _ | Undefined => False | Panic => True end.
Proof.
  intros H Hxs. revert s H. induction Hxs as [|x xs Hx _ IH]; intros s H.
  { split; [done|apply accesses_refl]. }
  pose proof (run_memory_call_moves x s H Hx) as Hm. unfold wp in Hm. simpl.
  destruct (run_memory_call x s) as [s1 [?|?| |]]; try done;
    specialize (IH s1 (proj1 Hm)); destruct (run_memory_calls xs s1); try done; by apply (moved_trans s s1).
Qed.

(** No address is writable and executable. *)
Definition write_xor_execute (s : AddressSpace.t T) : Prop :=
  forall a v, AddressSpace.view s a = Some v ->
    Z.testbit (AddressSpace.v_access v) 1 = false \/ Z.testbit (AddressSpace.v_access v) 2 = false.

(** No page table entry lets a page be written that can be executed. *)
Definition no_writable_code (s : AddressSpace.t T) : Prop :=
  forall p pte, ptes (AddressSpace.m_mmu s) !! p = Some pte ->
    pte_is_writable pte = true -> is_execute_disabled pte = true.

Lemma write_xor_execute_entries s :
  AddressSpace.inv env s -> has_nx env = true -> write_xor_execute s -> no_writable_code s.
Proof.
  intros H Hnx Hwx p pte Hl Hw.
  destruct (AddressSpace.s_ptes _ s H p pte Hl) as (_ & k & r & Hin & Hin' & _ & Ha1 & Ha2 & _).
  specialize (Hwx p (AddressSpace.view_of r p) (AddressSpace.view_in env s k r p H Hin Hin')).
  cbn [AddressSpace.v_access AddressSpace.view_of] in Hwx.
  specialize (Ha1 Hw). rewrite (Ha2 Hnx). unfold is_writable, is_executable in *.
  change (Z.land (m_access r) Write) with (Z.land (m_access r) (2 ^ 1)) in *.
  change (Z.land (m_access r) Execute) with (Z.land (m_access r) (2 ^ 2)) in *.
  rewrite land_bit in Ha1 by lia. rewrite land_bit by lia. destruct Hwx as [E|E]; [congruence|by rewrite E].
Qed.

Lemma accesses_write_xor_execute s s' :
  flag (executable_mount_flags c) MS_WXALLOWED = false ->
  write_xor_execute s -> accesses s s' -> write_xor_execute s'.
Proof.
  intros Hm Hwx Ha a v E. destruct (Ha a v E) as [(b & w & Ew & ->)|(prot & Hp & ->)]; [by eapply Hwx|].
  destruct (prot_flags_bits prot) as (_ & -> & ->). destruct Hp as [|?]; [congruence|done].
Qed.

End Proofs.

(** ** Properties *)


(** C2: no memory is ever writable and executable.  Unless the file system of the
    executable allows it, no sequence of memory system calls, whatever they
    return, makes an address writable and executable at the same time, and on a
    processor that can refuse execution no page table entry is either. *)
Theorem writable_xor_executable {T : Type} `{!OrderedTree T Region} `{!OrderedTreeLaws T Region}
    (env : Env) (c : Caller) (xs : list memory_call) (s : AddressSpace.t T) :
  AddressSpace.inv env s -> write_xor_execute s -> Forall call_ok xs ->
  flag (executable_mount_flags c) MS_WXALLOWED = false ->
  match run_memory_calls env c xs s with
  | Ok s' => AddressSpace.inv env s' /\ write_xor_execute s' /\ (has_nx env = true -> no_writable_code s')
  | Panic => True
  | _ => False
  end.
Proof.
  intros H Hwx Hxs Hm. pose proof (run_memory_calls_move env c xs s H Hxs) as Hr.
  destruct (run_memory_calls env c xs s) as [s'| | |]; try done. destruct Hr as [H' Ha].
  pose proof (accesses_write_xor_execute c s s' Hm Hwx Ha) as Hwx'. do 2 (split; [done|]).
  intros Hnx. by apply (write_xor_execute_entries env).
Qed.

#[local] Existing Instances RegionTree.sorted_tree RegionTree.sorted_tree_laws.

Definition sample_caller : Caller := {|
  protected := Process.protected_values (Process.credentials 100 100 100 100 100 100 [] 1 1)
    false false 0 false 0 true false false;
  executable_mount_flags := 0
|}.

Definition sample_params : mmap_params := {|
  p_addr := 0; p_size := 0x3000; p_alignment := 0; p_prot := 3;
  p_flags := Z.lor MAP_PRIVATE MAP_ANONYMOUS; p_offset := 0; p_name := None
|}.


Lemma sample_write_xor_execute : write_xor_execute AddressSpace.sample.
Proof.
  intros a v E. destruct (AddressSpace.view_cases AddressSpace.sample_env AddressSpace.sample a
    AddressSpace.space_sample_inv) as [(k & r & Hin & _ & E')|[E' _]]; [|congruence].
  rewrite E in E'. injection E' as ->. simpl. right. unfold AddressSpace.elems in Hin. simpl in Hin.
  rewrite !elem_of_cons, elem_of_nil in Hin. by destruct Hin as [[= -> ->]|[[= -> ->]|[]]].
Qed.

Lemma writable_xor_executable_witness :
  match run_memory_calls AddressSpace.sample_env sample_caller
          [Mmap_call (fun _ => 0) 2 (Err EBADF) sample_params; Mprotect 0x10000 0x1000 7;
           Mprotect 0x10000 0x1000 1; Munmap 0x11000 0x1000] AddressSpace.sample with
  | Ok s' => AddressSpace.inv AddressSpace.sample_env s' /\ write_xor_execute s' /\
             (has_nx AddressSpace.sample_env = true -> no_writable_code s')
  | Panic => True
  | _ => False
  end.
Proof.
  apply writable_xor_executable.
  - apply AddressSpace.space_sample_inv.
  - apply sample_write_xor_execute.
  - repeat constructor; simpl; done.
  - reflexivity.
Defined.

(** ** Where the checks fall short *)

(** Two pages of a private file mapping that are writable. *)
Definition sample_file_region : Region :=
  set_mmap (set_range (create_unplaced (vmobject PrivateInode 1 2) 0 None 3 0 false)
    (VirtualRange.mk 0x20000 0x2000)) true true true.

Definition sample_file_space : AddressSpace.t (list (Z * Region)) :=
  AddressSpace.space (RegionTree.mk [(0x20000, set_directory sample_file_region true)]
    (VirtualRange.mk 0x10000 0x40000000)) (mmu ∅ 0).

(** The caller has asked for written memory to stay non-executable.  Making the
    pages read-only and then executable is refused, but not when the region was
    split in between: the parts start without its history. *)
Lemma split_forgets_history :
  match run_memory_calls AddressSpace.sample_env sample_caller [Mprotect 0x20000 0x2000 1] sample_file_space with
  | Ok s => snd (sys_mprotect AddressSpace.sample_env sample_caller 0x20000 0x2000 5 s) = Err EINVAL
  | _ => False
  end /\
  match run_memory_calls AddressSpace.sample_env sample_caller
          [Mprotect 0x20000 0x2000 1; Mprotect 0x21000 0x1000 0] sample_file_space with
  | Ok s => snd (sys_mprotect AddressSpace.sample_env sample_caller 0x20000 0x1000 5 s) = Ok 0
  | _ => False
  end.
Proof. by vm_compute. Qed.

(** Remapping a shared file mapping that was never given a name. *)
Lemma mremap_without_name_panics :
  let file := {| is_directory := false; description_is_readable := true; description_is_writable := true;
    has_inode := true; vmobject_for_mmap := fun _ _ _ => Ok (vmobject SharedInode 3 1, 0, 0) |} in
  let params := {| p_addr := 0x30000; p_size := 0x1000; p_alignment := 0; p_prot := 3;
    p_flags := Z.lor MAP_SHARED MAP_FIXED; p_offset := 0; p_name := None |} in
  run_memory_calls AddressSpace.sample_env sample_caller
    [Mmap_call (fun _ => 0) 2 (Ok file) params;
     Mremap (Ok (vmobject PrivateInode 4 1)) (fun _ => 0) 0x30000 0x1000 MAP_PRIVATE] sample_file_space = Panic.
Proof. by vm_compute. Qed.

(** Synchronising a size that is not a multiple of the page size fails although
    all of it is mapped. *)
Lemma msync_unrounded_size_fails :
  snd (sys_msync AddressSpace.sample_env (fun _ _ _ => Ok tt) 0x20000 0x2000 MS_SYNC sample_file_space) = Ok 0 /\
  snd (sys_msync AddressSpace.sample_env (fun _ _ _ => Ok tt) 0x20000 0x1800 MS_SYNC sample_file_space) = Err ENOMEM.
Proof. by vm_compute. Qed.

End Mmap.
