(* ===== verification/DoubleBuffer.v ===== *)
(** The double buffer of [Kernel/Library/DoubleBuffer.cpp], a byte queue that
    pipes, terminals and sockets share, and the interface it offers them. *)

From S2P Require Import Prelude.

(** ** What a byte queue promises

    [source n] is what comes of copying [n] bytes out of the memory of the
    writer: the bytes that were copied and whether all of them were.  The
    argument of [read] says whether the memory of the reader can be written; the
    bytes that end up there are returned. *)

Definition Source : Type := Z -> list Z * bool.

Definition source_ok (source : Source) : Prop :=
  forall n, 0 <= n ->
    len (fst (source n)) <= n /\ (snd (source n) = true -> len (fst (source n)) = n).

Definition nonempty (l : list Z) : bool := match l with [] => false | _ => true end.

(** The calls of a callback, if one is set, when it is called once more or not. *)
Definition called (again : bool) (calls : option Z) : option Z :=
  if again then option_map (fun n => n + 1) calls else calls.

Class ByteQueue (Q : Type) : Type := {
  queue_write : Source -> Z -> action Q Z;
  queue_read : bool -> Z -> action Q (list Z);
  queue_is_empty : Q -> bool;
  queue_space : Q -> Z;
  queue_callbacks : Q -> option Z;
  queue_ok : Q -> Prop;
  queue_contents : Q -> list Z
}.

Class ByteQueueLaws (Q : Type) `{!ByteQueue Q} : Prop := {
  queue_empty_iff : forall q, queue_ok q -> (queue_is_empty q = true <-> queue_contents q = []);
  queue_space_nonneg : forall q, queue_ok q -> 0 <= queue_space q;
  queue_write_ok : forall q source size,
    queue_ok q -> source_ok source -> 0 <= size ->
    wp (queue_write source size)
       (fun n q' => queue_ok q' /\ n = Z.min size (queue_space q) /\
          queue_contents q' = queue_contents q ++ (if size =? 0 then [] else fst (source n)) /\
          (size <> 0 -> len (fst (source n)) = n) /\ queue_space q' = queue_space q - n /\
          queue_callbacks q' = called (negb (size =? 0) && negb (queue_is_empty q')) (queue_callbacks q))
       (fun q' => queue_ok q' /\ queue_contents q' = queue_contents q /\ queue_space q' = queue_space q /\
          queue_callbacks q' = queue_callbacks q) False q;
  queue_read_ok : forall q writable size,
    queue_ok q -> 0 <= size ->
    wp (queue_read writable size)
       (fun bytes q' => queue_ok q' /\ queue_contents q = bytes ++ queue_contents q' /\
          len bytes <= size /\ (bytes = [] -> size = 0 \/ queue_contents q = []) /\
          (bytes = [] -> queue_space q' = queue_space q) /\
          queue_callbacks q' = called (nonempty bytes && (0 <? queue_space q')) (queue_callbacks q))
       (fun q' => queue_ok q' /\ queue_contents q' = queue_contents q /\ writable = false /\
          queue_callbacks q' = queue_callbacks q) False q
}.

Module DoubleBuffer.

Record InnerBuffer : Type := inner { data : Z; size : Z }.

Inductive Which : Type := Buffer1 | Buffer2.

(** [data] is an offset in the storage.  [m_unblock_callback] is [None] before a
    callback is set and then the number of times it was called. *)
Record t : Type := buffer {
  m_write_buffer : Which;
  m_read_buffer : Which;
  m_buffer1 : InnerBuffer;
  m_buffer2 : InnerBuffer;
  m_storage : list Z;
  m_unblock_callback : option Z;
  m_capacity : Z;
  m_read_buffer_index : Z;
  m_space_for_writing : Z;
  m_empty : bool
}.

Definition the (w : Which) (b : t) : InnerBuffer :=
  match w with Buffer1 => m_buffer1 b | Buffer2 => m_buffer2 b end.

Definition write_buffer (b : t) : InnerBuffer := the (m_write_buffer b) b.
Definition read_buffer (b : t) : InnerBuffer := the (m_read_buffer b) b.

Definition set_size (w : Which) (n : Z) (b : t) : t :=
  let b1 := match w with Buffer1 => inner (data (m_buffer1 b)) n | Buffer2 => m_buffer1 b end in
  let b2 := match w with Buffer1 => m_buffer2 b | Buffer2 => inner (data (m_buffer2 b)) n end in
  buffer (m_write_buffer b) (m_read_buffer b) b1 b2 (m_storage b) (m_unblock_callback b)
    (m_capacity b) (m_read_buffer_index b) (m_space_for_writing b) (m_empty b).

Definition set_storage (b : t) (storage : list Z) : t :=
  buffer (m_write_buffer b) (m_read_buffer b) (m_buffer1 b) (m_buffer2 b) storage
    (m_unblock_callback b) (m_capacity b) (m_read_buffer_index b) (m_space_for_writing b) (m_empty b).

Definition set_index (b : t) (index : Z) : t :=
  buffer (m_write_buffer b) (m_read_buffer b) (m_buffer1 b) (m_buffer2 b) (m_storage b)
    (m_unblock_callback b) (m_capacity b) index (m_space_for_writing b) (m_empty b).

Definition swap_buffers (b : t) : t :=
  buffer (m_read_buffer b) (m_write_buffer b) (m_buffer1 b) (m_buffer2 b) (m_storage b)
    (m_unblock_callback b) (m_capacity b) (m_read_buffer_index b) (m_space_for_writing b) (m_empty b).

Definition compute_lockfree_metadata (b : t) : t :=
  buffer (m_write_buffer b) (m_read_buffer b) (m_buffer1 b) (m_buffer2 b) (m_storage b)
    (m_unblock_callback b) (m_capacity b) (m_read_buffer_index b)
    (u64 (m_capacity b - size (write_buffer b)))
    ((size (read_buffer b) <=? m_read_buffer_index b) && (size (write_buffer b) =? 0)).

(** [memory] is the storage that could be allocated. *)
Definition try_create (memory : option (list Z)) (capacity : Z) : outcome t :=
  match memory with
  | None => Err ENOMEM
  | Some storage =>
      Ok (buffer Buffer1 Buffer2 (inner 0 0) (inner capacity 0) storage None capacity 0 capacity true)
  end.

Definition set_unblock_callback : action t unit :=
  fun b => match m_unblock_callback b with
           | Some _ => (b, Panic)
           | None => (buffer (m_write_buffer b) (m_read_buffer b) (m_buffer1 b) (m_buffer2 b)
                        (m_storage b) (Some 0) (m_capacity b) (m_read_buffer_index b)
                        (m_space_for_writing b) (m_empty b), Ok tt)
           end.

(** Calling the callback if there is one. *)
Definition unblock (b : t) : t :=
  buffer (m_write_buffer b) (m_read_buffer b) (m_buffer1 b) (m_buffer2 b) (m_storage b)
    (called true (m_unblock_callback b))
    (m_capacity b) (m_read_buffer_index b) (m_space_for_writing b) (m_empty b).

Definition immediately_readable (b : t) : Z :=
  u64 (u64 (size (read_buffer b) - m_read_buffer_index b) + size (write_buffer b)).

Definition flip : action t unit :=
  fun b =>
    if negb (m_read_buffer_index b =? size (read_buffer b)) then (b, Panic) else
    let b := swap_buffers b in
    let b := set_size (m_write_buffer b) 0 b in
    (compute_lockfree_metadata (set_index b 0), Ok tt).

(** Copying into and out of the storage; outside of it there is no memory. *)
Definition store (storage : list Z) (offset : Z) (bytes : list Z) : option (list Z) :=
  if (0 <=? offset) && (offset + len bytes <=? len storage)
  then Some (take (Z.to_nat offset) storage ++ bytes ++
             drop (Z.to_nat (offset + len bytes)) storage)
  else None.

Definition load (storage : list Z) (offset n : Z) : option (list Z) :=
  if (0 <=? offset) && (offset + n <=? len storage)
  then Some (take (Z.to_nat n) (drop (Z.to_nat offset) storage))
  else None.

Definition write (source : Source) (sz : Z) : action t Z :=
  fun b =>
    if sz =? 0 then (b, Ok 0) else
    let bytes_to_write := Z.min sz (m_space_for_writing b) in
    let write_ptr := data (write_buffer b) + size (write_buffer b) in
    let '(bytes, copied) := source bytes_to_write in
    match store (m_storage b) write_ptr bytes with
    | None => (b, Undefined)
    | Some storage =>
        let b := set_storage b storage in
        if negb copied then (b, Err EFAULT) else
        let b := set_size (m_write_buffer b) (u64 (size (write_buffer b) + bytes_to_write)) b in
        let b := compute_lockfree_metadata b in
        (if m_empty b then b else unblock b, Ok bytes_to_write)
    end.

(** The part of [read_impl] behind the flip. *)
Definition read_rest (writable : bool) (sz : Z) (advance_buffer_index : bool) : action t (list Z) :=
  fun b =>
    if size (read_buffer b) <=? m_read_buffer_index b then (b, Ok []) else
    let nread := Z.min (u64 (size (read_buffer b) - m_read_buffer_index b)) sz in
    match load (m_storage b) (data (read_buffer b) + m_read_buffer_index b) nread with
    | None => (b, Undefined)
    | Some bytes =>
        if negb writable then (b, Err EFAULT) else
        let b := if advance_buffer_index then set_index b (u64 (m_read_buffer_index b + nread)) else b in
        let b := compute_lockfree_metadata b in
        (if 0 <? m_space_for_writing b then unblock b else b, Ok bytes)
    end.

Definition read_impl (writable : bool) (sz : Z) (advance_buffer_index : bool)
    : action t (list Z) :=
  if sz =? 0 then ret [] else
  let* b := gets (fun b => b) in
  let* _ := (if (size (read_buffer b) <=? m_read_buffer_index b) && negb (size (write_buffer b) =? 0)
             then flip else ret tt) in
  read_rest writable sz advance_buffer_index.

Definition read (writable : bool) (sz : Z) : action t (list Z) := read_impl writable sz true.
Definition peek (writable : bool) (sz : Z) : action t (list Z) := read_impl writable sz false.

(** ** The bytes in the queue *)

Definition slice (l : list Z) (offset n : Z) : list Z :=
  take (Z.to_nat n) (drop (Z.to_nat offset) l).

Definition contents (b : t) : list Z :=
  slice (m_storage b) (data (read_buffer b) + m_read_buffer_index b)
    (size (read_buffer b) - m_read_buffer_index b) ++
  slice (m_storage b) (data (write_buffer b)) (size (write_buffer b)).

(** What holds between any two statements. *)
Record core (b : t) : Prop := {
  b_which : m_read_buffer b <> m_write_buffer b;
  b_capacity : 0 <= m_capacity b < 2 ^ 63;
  b_storage : len (m_storage b) = 2 * m_capacity b;
  b_data1 : data (m_buffer1 b) = 0;
  b_data2 : data (m_buffer2 b) = m_capacity b;
  b_size1 : 0 <= size (m_buffer1 b) <= m_capacity b;
  b_size2 : 0 <= size (m_buffer2 b) <= m_capacity b;
  b_index : 0 <= m_read_buffer_index b <= size (read_buffer b)
}.

(** And what holds while the lock is free. *)
Record inv (b : t) : Prop := {
  b_core : core b;
  b_space : m_space_for_writing b = m_capacity b - size (write_buffer b);
  b_empty : m_empty b = (size (read_buffer b) <=? m_read_buffer_index b) && (size (write_buffer b) =? 0)
}.

(** ** Proofs *)

Lemma lookup_slice l o n (i : nat) :
  0 <= o -> slice l o n !! i = if Z.of_nat i <? n then l !! (Z.to_nat o + i)%nat else None.
Proof.
  intros Ho. unfold slice. destruct (Z.ltb_spec (Z.of_nat i) n).
  - rewrite lookup_take_lt by lia. by rewrite lookup_drop.
  - by rewrite lookup_take_ge by lia.
Qed.

Lemma len_slice l o n : 0 <= o -> 0 <= n -> o + n <= len l -> len (slice l o n) = n.
Proof. intros. unfold slice, len in *. rewrite length_take, length_drop. lia. Qed.

Lemma slice_nil l o : slice l o 0 = [].
Proof. done. Qed.

Lemma slice_split l o n k : 0 <= o -> 0 <= k <= n -> slice l o n = slice l o k ++ slice l (o + k) (n - k).
Proof.
  intros Ho Hk. unfold slice. rewrite <- (take_drop (Z.to_nat k) (take (Z.to_nat n) _)).
  rewrite take_take, Nat.min_l by lia. f_equal. rewrite skipn_firstn_comm, drop_drop.
  f_equal; [lia|]. f_equal. lia.
Qed.

Lemma store_some l o bytes :
  0 <= o -> o + len bytes <= len l -> exists l', store l o bytes = Some l' /\ len l' = len l /\
    (forall i : nat, Z.of_nat i < o \/ o + len bytes <= Z.of_nat i -> l' !! i = l !! i) /\
    (forall i : nat, Z.of_nat i < len bytes -> l' !! (Z.to_nat o + i)%nat = bytes !! i).
Proof.
  intros Ho Hl. unfold store. rewrite (proj2 (Z.leb_le 0 o)), (proj2 (Z.leb_le _ _) Hl) by done.
  eexists. split; [reflexivity|]. unfold len in *.
  split; [rewrite !length_app, length_take, length_drop; lia|]. split; intros i Hi.
  - destruct Hi.
    + rewrite lookup_app_l by (rewrite length_take; lia). by rewrite lookup_take_lt by lia.
    + rewrite app_assoc, lookup_app_r by (rewrite length_app, length_take; lia).
      rewrite length_app, length_take, lookup_drop. f_equal. lia.
  - rewrite lookup_app_r by (rewrite length_take; lia). rewrite length_take.
    rewrite lookup_app_l by lia. f_equal. lia.
Qed.

Lemma slice_store_other l l' o bytes p n :
  0 <= o -> o + len bytes <= len l -> store l o bytes = Some l' ->
  0 <= p -> p + n <= o \/ o + len bytes <= p -> slice l' p n = slice l p n.
Proof.
  intros Ho Hl E Hp Hd. destruct (store_some l o bytes Ho Hl) as (l2 & E2 & _ & Hs & _).
  rewrite E in E2. injection E2 as <-. apply list_eq. intros i. rewrite !lookup_slice by done.
  destruct (Z.ltb_spec (Z.of_nat i) n); [|done]. apply Hs. lia.
Qed.

Lemma slice_store_append l l' o bytes n :
  0 <= o -> 0 <= n -> o + n + len bytes <= len l -> store l (o + n) bytes = Some l' ->
  slice l' o (n + len bytes) = slice l o n ++ bytes.
Proof.
  intros Ho Hn Hl E. destruct (store_some l (o + n) bytes) as (l2 & E2 & Hlen & Hs & Hb); [lia|lia|].
  rewrite E in E2. injection E2 as <-. pose proof (len_slice l o n Ho Hn) as Hls.
  pose proof (len_nonneg bytes). apply list_eq. intros i. rewrite lookup_slice by done.
  specialize (Hls ltac:(lia)). unfold len in *. destruct (Z.lt_ge_cases (Z.of_nat i) n) as [Hi|Hi].
  - rewrite lookup_app_l by lia. rewrite lookup_slice by done.
    rewrite (proj2 (Z.ltb_lt _ _)), (proj2 (Z.ltb_lt _ _)) by lia. apply Hs. lia.
  - rewrite lookup_app_r by lia. destruct (Z.ltb_spec (Z.of_nat i) (n + Z.of_nat (length bytes))).
    + rewrite <- Hb by lia. f_equal. lia.
    + by rewrite lookup_ge_None_2 by lia.
Qed.

(** Where the two buffers are. *)
Lemma layout b :
  core b ->
  (data (read_buffer b) = 0 /\ data (write_buffer b) = m_capacity b \/
   data (write_buffer b) = 0 /\ data (read_buffer b) = m_capacity b) /\
  0 <= size (read_buffer b) <= m_capacity b /\ 0 <= size (write_buffer b) <= m_capacity b.
Proof.
  intros [Hw ? _ ? ? ? ? _]. unfold read_buffer, write_buffer.
  destruct (m_read_buffer b), (m_write_buffer b); try done; simpl; lia.
Qed.

Lemma contents_len b : core b ->
  len (contents b) = size (read_buffer b) - m_read_buffer_index b + size (write_buffer b).
Proof.
  intros H. destruct (layout b H) as (Hd & Hr & Hw). destruct H. unfold contents.
  rewrite len_app, !len_slice; lia.
Qed.

Lemma empty_iff b : inv b -> m_empty b = true <-> contents b = [].
Proof.
  intros [H _ ->]. destruct (layout b H) as (_ & Hr & Hw). pose proof (contents_len b H) as Hl.
  destruct H as [_ _ _ _ _ _ _ Hi]. rewrite andb_true_iff, Z.leb_le, Z.eqb_eq.
  split; [|intros E; rewrite E, len_nil in Hl; lia]. intros [? ?].
  destruct (contents b); [done|]. rewrite len_cons in Hl. pose proof (len_nonneg l). lia.
Qed.

Lemma readable_exact b : inv b -> immediately_readable b = len (contents b).
Proof.
  intros [H _ _]. rewrite contents_len by done. destruct (layout b H) as (_ & Hr & Hw). destruct H.
  unfold immediately_readable, u64. rewrite wrap_add_l, wrap_small; [done|]. unfold fits. lia.
Qed.

Lemma metadata_inv b : core b -> inv (compute_lockfree_metadata b).
Proof.
  intros H. destruct (layout b H) as (_ & _ & Hw). constructor; [by destruct H| |done].
  destruct H. simpl. unfold u64. rewrite wrap_small; [done|]. unfold fits. lia.
Qed.

Lemma unblock_inv b : inv b -> inv (unblock b).
Proof. intros [[] ? ?]. by constructor. Qed.

(** Growing the write buffer by bytes that were stored behind its end. *)
Lemma stored_core b bytes :
  core b -> size (write_buffer b) + len bytes <= m_capacity b ->
  exists l, store (m_storage b) (data (write_buffer b) + size (write_buffer b)) bytes = Some l /\
    core (set_storage b l) /\ contents (set_storage b l) = contents b /\
    let b' := set_size (m_write_buffer b) (size (write_buffer b) + len bytes) (set_storage b l) in
    core b' /\ contents b' = contents b ++ bytes.
Proof.
  intros H Hs. destruct (layout b H) as (Hd & Hr & Hw). pose proof (len_nonneg bytes) as Hb.
  pose proof H as [Hne ? Hl ? ? ? ? Hi].
  destruct (store_some (m_storage b) (data (write_buffer b) + size (write_buffer b)) bytes)
    as (l & E & Hlen & _ & _); [lia|lia|]. exists l. split; [done|].
  assert (forall p n, 0 <= p -> p + n <= data (write_buffer b) + size (write_buffer b) \/
    data (write_buffer b) + size (write_buffer b) + len bytes <= p ->
    slice l p n = slice (m_storage b) p n) as Hother.
  { intros p n Hp Hdis. eapply slice_store_other; [..|exact E| |]; lia. }
  split; [constructor; simpl; done || lia|]. split.
  { unfold contents. simpl. f_equal; apply Hother; lia. }
  assert (slice l (data (write_buffer b)) (size (write_buffer b) + len bytes) =
    slice (m_storage b) (data (write_buffer b)) (size (write_buffer b)) ++ bytes) as Happ.
  { eapply slice_store_append; [..|exact E]; lia. }
  cbv zeta. unfold contents. rewrite <- app_assoc, <- Happ.
  rewrite <- (Hother (data (read_buffer b) + m_read_buffer_index b)) by lia. clear Happ Hother E.
  unfold read_buffer, write_buffer in *.
  destruct (m_read_buffer b) eqn:Er, (m_write_buffer b) eqn:Ew; try done; simpl in *;
    (split; [constructor; unfold read_buffer; simpl; rewrite ?Er, ?Ew; simpl; done || lia|]);
    simpl; by rewrite Er, Ew.
Qed.

Lemma write_ok b source sz :
  inv b -> source_ok source -> 0 <= sz ->
  wp (write source sz)
     (fun n b' => inv b' /\ n = Z.min sz (m_space_for_writing b) /\
        contents b' = contents b ++ (if sz =? 0 then [] else fst (source n)) /\
        (sz <> 0 -> len (fst (source n)) = n) /\ m_space_for_writing b' = m_space_for_writing b - n /\
        m_unblock_callback b' = called (negb (sz =? 0) && negb (m_empty b')) (m_unblock_callback b))
     (fun b' => inv b' /\ contents b' = contents b /\ m_space_for_writing b' = m_space_for_writing b /\
        m_unblock_callback b' = m_unblock_callback b) False b.
Proof.
  intros H Hsrc Hsz. destruct (layout b (b_core _ H)) as (_ & _ & Hw). pose proof H as [Hc Hsp Hem].
  unfold wp, write. destruct (Z.eqb_spec sz 0) as [->|Hne].
  { rewrite app_nil_r. split; [done|]. split; [lia|]. split; [done|]. split; [done|]. split; [lia|done]. }
  set (n := Z.min sz (m_space_for_writing b)). specialize (Hsrc n ltac:(lia)).
  destruct (source n) as [bytes copied] eqn:Es. simpl in Hsrc. destruct Hsrc as [Hle Hall].
  destruct (stored_core b bytes Hc ltac:(lia)) as (l & -> & Hc1 & Hk1 & Hc2 & Hk2).
  destruct copied; cbn [negb].
  2: { split; [|done]. by constructor. }
  specialize (Hall eq_refl). change (m_write_buffer (set_storage b l)) with (m_write_buffer b).
  assert (u64 (size (write_buffer (set_storage b l)) + n) = size (write_buffer b) + len bytes) as ->.
  { change (write_buffer (set_storage b l)) with (write_buffer b). unfold u64. rewrite wrap_small; [lia|].
    destruct Hc. unfold fits. lia. }
  set (b2 := set_size _ _ _) in *. pose proof (metadata_inv b2 Hc2) as H3.
  assert (inv (if m_empty (compute_lockfree_metadata b2) then compute_lockfree_metadata b2
               else unblock (compute_lockfree_metadata b2))) as H4 by (case_match; [done|by apply unblock_inv]).
  assert (size (write_buffer b2) = size (write_buffer b) + n) as Hsize.
  { unfold b2, write_buffer. simpl. destruct (m_write_buffer b); simpl; lia. }
  split; [done|]. split; [done|]. rewrite Es. cbn [fst].
  rewrite <- Hk2, Hsp. assert (m_space_for_writing (compute_lockfree_metadata b2) =
    m_capacity b - size (write_buffer b) - n) as Hspace.
  { rewrite (b_space _ H3). change (write_buffer (compute_lockfree_metadata b2)) with (write_buffer b2).
    change (m_capacity (compute_lockfree_metadata b2)) with (m_capacity b). lia. }
  assert (contents (compute_lockfree_metadata b2) = contents b2 /\
    m_unblock_callback (compute_lockfree_metadata b2) = m_unblock_callback b) as [Hcon Hcb] by done.
  revert Hspace Hcon Hcb. generalize (compute_lockfree_metadata b2). intros c Hspace Hcon Hcb.
  destruct (m_empty c) eqn:Eem; cbn [m_space_for_writing m_unblock_callback unblock].
  - by rewrite Eem.
  - change (m_empty (unblock c)) with (m_empty c). by rewrite Eem, Hcb.
Qed.

Lemma flip_ok b :
  core b -> m_read_buffer_index b = size (read_buffer b) ->
  exists b', flip b = (b', Ok tt) /\ inv b' /\ contents b' = contents b.
Proof.
  intros H Hi. unfold flip. rewrite (proj2 (Z.eqb_eq _ _) Hi). cbn [negb]. eexists. split; [done|].
  destruct (layout b H) as (_ & _ & Hw). pose proof H as [Hne ? ? ? ? ? ? _]. split.
  - apply metadata_inv. unfold read_buffer, write_buffer in *.
    destruct (m_read_buffer b) eqn:Er, (m_write_buffer b) eqn:Ew; try done; simpl in *;
      constructor; unfold read_buffer; simpl; rewrite ?Er, ?Ew; simpl; done || lia.
  - unfold contents. simpl. rewrite Hi, Z.sub_diag, slice_nil. unfold read_buffer, write_buffer.
    destruct (m_read_buffer b) eqn:Er, (m_write_buffer b) eqn:Ew; try done; simpl in *;
      rewrite ?Er, ?Ew; simpl; rewrite ?slice_nil, ?app_nil_r, Z.sub_0_r, Z.add_0_r; done.
Qed.

(** Taking [n] bytes out of the read buffer. *)
Lemma advanced_core b n :
  core b -> 0 <= n <= size (read_buffer b) - m_read_buffer_index b ->
  core (set_index b (m_read_buffer_index b + n)) /\
  contents b = slice (m_storage b) (data (read_buffer b) + m_read_buffer_index b) n ++
               contents (set_index b (m_read_buffer_index b + n)).
Proof.
  intros H Hn. destruct (layout b H) as (Hd & _ & _). split.
  - destruct H. constructor; try done.
    change (read_buffer (set_index b (m_read_buffer_index b + n))) with (read_buffer b). simpl. lia.
  - destruct H. unfold contents. rewrite app_assoc. simpl. f_equal.
    change (read_buffer (set_index b (m_read_buffer_index b + n))) with (read_buffer b).
    rewrite (slice_split _ _ _ n) by lia. f_equal. f_equal; lia.
Qed.

Lemma load_inv l o n : 0 <= o -> 0 <= n -> o + n <= len l -> load l o n = Some (slice l o n).
Proof.
  intros Ho Hn Hl. unfold load. by rewrite (proj2 (Z.leb_le 0 o)), (proj2 (Z.leb_le _ _) Hl).
Qed.

Definition finish (b : t) : t :=
  let b := compute_lockfree_metadata b in if 0 <? m_space_for_writing b then unblock b else b.

Lemma finish_ok b : core b -> inv (finish b) /\ contents (finish b) = contents b.
Proof.
  intros H. pose proof (metadata_inv b H). unfold finish. cbv zeta.
  destruct (0 <? m_space_for_writing (compute_lockfree_metadata b)); [|done].
  split; [by apply unblock_inv|done].
Qed.

Lemma read_rest_ok b writable sz advance :
  inv b -> 0 < sz -> (contents b <> [] -> m_read_buffer_index b < size (read_buffer b)) ->
  wp (read_rest writable sz advance)
    (fun bytes b' => inv b' /\ len bytes <= sz /\ (bytes = [] -> contents b = []) /\
       (exists rest, contents b = bytes ++ rest /\ contents b' = if advance then rest else contents b) /\
       (bytes = [] -> m_space_for_writing b' = m_space_for_writing b) /\
       m_unblock_callback b' = called (nonempty bytes && (0 <? m_space_for_writing b')) (m_unblock_callback b))
    (fun b' => inv b' /\ contents b' = contents b /\ writable = false /\
       m_unblock_callback b' = m_unblock_callback b) False b.
Proof.
  intros H Hsz Hmore. pose proof (b_core _ H) as Hc. destruct (layout b Hc) as (Hd & Hr & _).
  pose proof Hc as [_ ? Hl _ _ _ _ Hi]. unfold wp, read_rest.
  destruct (Z.leb_spec (size (read_buffer b)) (m_read_buffer_index b)) as [Hge|Hlt].
  { assert (contents b = []) as E by (destruct (contents b); [done|]; specialize (Hmore ltac:(done)); lia).
    split; [done|]. split; [simpl; unfold len; simpl; lia|]. split; [done|]. split; [|done]. exists [].
    rewrite E. by destruct advance. }
  set (nread := Z.min _ sz).
  assert (nread = Z.min (size (read_buffer b) - m_read_buffer_index b) sz) as En.
  { unfold nread, u64. rewrite wrap_small; [done|]. unfold fits. lia. }
  cbv zeta. rewrite load_inv by lia. destruct writable; cbn [negb]; [|done].
  destruct (advanced_core b nread Hc ltac:(lia)) as [Hc' Hcon].
  assert (u64 (m_read_buffer_index b + nread) = m_read_buffer_index b + nread) as ->.
  { unfold u64. rewrite wrap_small; [done|]. unfold fits. lia. }
  set (b1 := if advance then _ else b).
  assert (core b1) as Hc1 by (unfold b1; by destruct advance).
  destruct (finish_ok b1 Hc1) as [Hf Hfc]. unfold finish in Hf, Hfc. cbv zeta in Hf, Hfc.
  assert (len (slice (m_storage b) (data (read_buffer b) + m_read_buffer_index b) nread) = nread) as Hls
    by (apply len_slice; lia).
  assert (slice (m_storage b) (data (read_buffer b) + m_read_buffer_index b) nread <> []) as Hnil
    by (intros E; rewrite E, len_nil in Hls; lia).
  split; [done|]. split; [lia|]. split; [done|]. split; [|split; [done|]].
  - eexists. split; [exact Hcon|]. rewrite Hfc. unfold b1. by destruct advance.
  - assert (m_unblock_callback (compute_lockfree_metadata b1) = m_unblock_callback b) as Hcb
      by (unfold b1; by destruct advance).
    destruct (slice _ _ nread); [done|]. cbn [nonempty andb]. rewrite <- Hcb.
    generalize (compute_lockfree_metadata b1). intros c.
    destruct (0 <? m_space_for_writing c) eqn:Es; cbn [m_space_for_writing m_unblock_callback unblock]; by rewrite Es.
Qed.

Lemma read_impl_ok b writable sz advance :
  inv b -> 0 <= sz ->
  wp (read_impl writable sz advance)
    (fun bytes b' => inv b' /\ len bytes <= sz /\ (bytes = [] -> sz = 0 \/ contents b = []) /\
       (exists rest, contents b = bytes ++ rest /\ contents b' = if advance then rest else contents b) /\
       (bytes = [] -> m_space_for_writing b' = m_space_for_writing b) /\
       m_unblock_callback b' = called (nonempty bytes && (0 <? m_space_for_writing b')) (m_unblock_callback b))
    (fun b' => inv b' /\ contents b' = contents b /\ writable = false /\
       m_unblock_callback b' = m_unblock_callback b) False b.
Proof.
  intros H Hsz. unfold read_impl. destruct (Z.eqb_spec sz 0) as [->|Hne].
  { apply wp_ret. split; [done|]. split; [done|]. split; [by left|]. split; [|done].
    exists (contents b). by destruct advance. }
  apply wp_bind. unfold wp at 1, gets. apply wp_bind. pose proof (b_core _ H) as Hc.
  assert (forall b1, inv b1 -> contents b1 = contents b -> m_unblock_callback b1 = m_unblock_callback b ->
    (contents b <> [] -> m_read_buffer_index b1 < size (read_buffer b1)) ->
    (contents b = [] -> m_space_for_writing b1 = m_space_for_writing b) ->
    wp (read_rest writable sz advance) (fun bytes b' => inv b' /\ len bytes <= sz /\
       (bytes = [] -> sz = 0 \/ contents b = []) /\
       (exists rest, contents b = bytes ++ rest /\ contents b' = if advance then rest else contents b) /\
       (bytes = [] -> m_space_for_writing b' = m_space_for_writing b) /\
       m_unblock_callback b' = called (nonempty bytes && (0 <? m_space_for_writing b')) (m_unblock_callback b))
    (fun b' => inv b' /\ contents b' = contents b /\ writable = false /\
       m_unblock_callback b' = m_unblock_callback b) False b1) as Hgo.
  { intros b1 H1 E Ec Hm Hs. rewrite <- E in Hm, Hs |- *. rewrite <- Ec.
    eapply wp_mono; [apply read_rest_ok; [done|lia|done]| |done|done]. simpl.
    intros bytes b' (? & ? & Hnil & ? & Hsp & ?). split; [done|]. split; [done|]. split; [by right; auto|].
    split; [done|]. split; [|done]. intros Eb. rewrite (Hsp Eb). auto. }
  destruct (_ && _) eqn:Eb.
  - apply andb_prop in Eb as [Ei Ew]. apply Z.leb_le in Ei. apply negb_true_iff, Z.eqb_neq in Ew.
    destruct (flip_ok b Hc) as (b1 & E1 & H1 & Hk1); [pose proof (b_index _ Hc); lia|].
    assert (m_read_buffer_index b1 < size (read_buffer b1)) as Hlt.
    { destruct (layout b Hc) as (_ & _ & Hw). unfold flip in E1.
      rewrite (proj2 (Z.eqb_eq _ _)) in E1 by (pose proof (b_index _ Hc); lia). injection E1 as <-. simpl.
      pose proof (b_which _ Hc). unfold read_buffer, write_buffer in *. simpl.
      destruct (m_read_buffer b) eqn:Er, (m_write_buffer b) eqn:Ewb; try done; simpl in *; rewrite ?Er, ?Ewb; simpl; lia. }
    unfold wp at 1. rewrite E1. apply (Hgo b1 H1 Hk1); [|done|].
    + unfold flip in E1. rewrite (proj2 (Z.eqb_eq _ _)) in E1 by (pose proof (b_index _ Hc); lia).
      by injection E1 as <-.
    + intros E. pose proof (contents_len b Hc) as Hl. rewrite E, len_nil in Hl. pose proof (b_index _ Hc).
      destruct (layout b Hc) as (_ & _ & ?). lia.
  - assert (contents b <> [] -> m_read_buffer_index b < size (read_buffer b)) as Hlt.
    { intros Hnc. apply Z.nle_gt. intros Hle. apply Hnc. apply andb_false_iff in Eb as [Eb|Eb].
      - apply Z.leb_gt in Eb. lia.
      - apply empty_iff; [done|]. rewrite (b_empty _ H). apply negb_false_iff in Eb. rewrite Eb, andb_true_r.
        by apply Z.leb_le. }
    unfold wp at 1, ret. by apply (Hgo b H).
Qed.

Lemma try_create_ok storage capacity b :
  0 <= capacity < 2 ^ 63 -> len storage = 2 * capacity ->
  try_create (Some storage) capacity = Ok b -> inv b /\ contents b = [].
Proof.
  intros Hc Hl [= <-]. split; [|done]. constructor; [|simpl; unfold write_buffer; simpl; lia|done].
  constructor; simpl; unfold read_buffer; simpl; done || lia.
Qed.

(** ** A stream of bytes *)

Inductive op : Type :=
| Write (source : Source) (sz : Z)
| Read (writable : bool) (sz : Z)
| Peek (writable : bool) (sz : Z).

Definition op_ok (o : op) : Prop :=
  match o with Write source sz => source_ok source /\ 0 <= sz | Read _ sz | Peek _ sz => 0 <= sz end.

(** The bytes that went in and the bytes that came out while a sequence of
    operations ran. *)
Fixpoint run (ops : list op) (b : t) (went_in came_out : list Z) : outcome (t * list Z * list Z) :=
  match ops with
  | [] => Ok (b, went_in, came_out)
  | Write source sz :: ops =>
      match write source sz b with
      | (b, Ok n) => run ops b (went_in ++ (if sz =? 0 then [] else fst (source n))) came_out
      | (b, Err _) => run ops b went_in came_out
      | (_, Panic) => Panic
      | (_, Undefined) => Undefined
      end
  | Read writable sz :: ops =>
      match read writable sz b with
      | (b, Ok bytes) => run ops b went_in (came_out ++ bytes)
      | (b, Err _) => run ops b went_in came_out
      | (_, Panic) => Panic
      | (_, Undefined) => Undefined
      end
  | Peek writable sz :: ops =>
      match peek writable sz b with
      | (b, Ok _) | (b, Err _) => run ops b went_in came_out
      | (_, Panic) => Panic
      | (_, Undefined) => Undefined
      end
  end.

Lemma run_ok ops b went_in came_out :
  inv b -> Forall op_ok ops -> went_in = came_out ++ contents b ->
  exists b' i o, run ops b went_in came_out = Ok (b', i, o) /\ inv b' /\ i = o ++ contents b'.
Proof.
  intros H Ho. revert b went_in came_out H. induction Ho as [|x ops Hx _ IH]; intros b i o H E.
  { exists b, i, o. done. }
  destruct x as [source sz|writable sz|writable sz]; simpl in Hx |- *.
  - destruct Hx as [Hs Hz]. pose proof (write_ok b source sz H Hs Hz) as Hw. unfold wp in Hw.
    destruct (write source sz b) as [b1 [n| | |]]; try done.
    + destruct Hw as (H1 & _ & Hc & _). apply IH; [done|]. by rewrite Hc, E, app_assoc.
    + destruct Hw as (H1 & Hc & _). apply IH; [done|]. by rewrite Hc.
  - pose proof (read_impl_ok b writable sz true H Hx) as Hr. unfold wp, read in *.
    destruct (read_impl writable sz true b) as [b1 [bytes| | |]]; try done.
    + destruct Hr as (H1 & _ & _ & (rest & Hc & Hc1) & _). apply IH; [done|]. by rewrite Hc1, E, Hc, app_assoc.
    + destruct Hr as (H1 & Hc & _). apply IH; [done|]. by rewrite Hc.
  - pose proof (read_impl_ok b writable sz false H Hx) as Hr. unfold wp, peek in *.
    destruct (read_impl writable sz false b) as [b1 [bytes| | |]]; try done.
    + destruct Hr as (H1 & _ & _ & (rest & Hc & Hc1) & _). apply IH; [done|]. by rewrite Hc1.
    + destruct Hr as (H1 & Hc & _). apply IH; [done|]. by rewrite Hc.
Qed.

End DoubleBuffer.

#[export] Instance double_buffer_queue : ByteQueue DoubleBuffer.t := {
  queue_write := DoubleBuffer.write;
  queue_read := DoubleBuffer.read;
  queue_is_empty := DoubleBuffer.m_empty;
  queue_space := DoubleBuffer.m_space_for_writing;
  queue_callbacks := DoubleBuffer.m_unblock_callback;
  queue_ok := DoubleBuffer.inv;
  queue_contents := DoubleBuffer.contents
}.

#[export] Instance double_buffer_queue_laws : ByteQueueLaws DoubleBuffer.t.
Proof.
  constructor; simpl.
  - apply DoubleBuffer.empty_iff.
  - intros q [Hc -> _]. destruct (DoubleBuffer.layout q Hc) as (_ & _ & ?). lia.
  - apply DoubleBuffer.write_ok.
  - intros q writable size H Hz. unfold DoubleBuffer.read.
    eapply wp_mono; [by apply DoubleBuffer.read_impl_ok| |done|done].
    intros bytes q' (? & ? & ? & (rest & E & ->) & ? & ?). done.
Qed.

(** C25: no byte is lost, made up or reordered.  Whatever sequence of writes, reads
    and peeks runs on a new double buffer, also when copies from or to user
    memory fail, it never panics or leaves its storage, and the bytes that went
    in are the bytes that came out followed by the bytes still inside. *)
Theorem double_buffer_stream (storage : list Z) (capacity : Z) (ops : list DoubleBuffer.op) :
  0 <= capacity < 2 ^ 63 -> len storage = 2 * capacity -> Forall DoubleBuffer.op_ok ops ->
  exists b b' went_in came_out,
    DoubleBuffer.try_create (Some storage) capacity = Ok b /\
    DoubleBuffer.run ops b [] [] = Ok (b', went_in, came_out) /\
    went_in = came_out ++ DoubleBuffer.contents b' /\
    DoubleBuffer.immediately_readable b' = len (DoubleBuffer.contents b').
Proof.
  intros Hc Hl Ho. destruct (DoubleBuffer.try_create (Some storage) capacity) as [b| | |] eqn:Eb; try done.
  destruct (DoubleBuffer.try_create_ok storage capacity b Hc Hl Eb) as [H Hempty].
  destruct (DoubleBuffer.run_ok ops b [] [] H Ho) as (b' & i & o & E & H' & Hi); [by rewrite Hempty|].
  exists b, b', i, o. do 3 (split; [done|]). by apply DoubleBuffer.readable_exact.
Qed.

(** A writer whose memory holds [bytes]. *)
Definition from_kernel (bytes : list Z) : Source := fun n => (take (Z.to_nat n) bytes, len bytes >=? n).

Lemma from_kernel_ok bytes : source_ok (from_kernel bytes).
Proof.
  intros n Hn. unfold from_kernel, len. simpl. rewrite length_take. split; [lia|]. rewrite Z.geb_leb, Z.leb_le. lia.
Qed.

Lemma double_buffer_stream_witness :
  exists b b' went_in came_out,
    DoubleBuffer.try_create (Some (replicate 16 0)) 8 = Ok b /\
    DoubleBuffer.run [DoubleBuffer.Write (from_kernel [1; 2; 3; 4; 5]) 5; DoubleBuffer.Read true 2;
      DoubleBuffer.Write (from_kernel [6; 7]) 4; DoubleBuffer.Write (from_kernel [6; 7; 8]) 3;
      DoubleBuffer.Peek true 9; DoubleBuffer.Read true 9] b [] [] = Ok (b', went_in, came_out) /\
    went_in = came_out ++ DoubleBuffer.contents b' /\
    DoubleBuffer.immediately_readable b' = len (DoubleBuffer.contents b').
Proof.
  apply double_buffer_stream; [lia|done|].
  repeat (apply Forall_cons; split; [simpl; try split; apply from_kernel_ok || lia|]). by apply Forall_nil.
Defined.

(** A full buffer: after a read whose destination cannot be written there is
    space, but the callback that tells the writers was not called. *)
Definition sample_full : DoubleBuffer.t :=
  DoubleBuffer.buffer DoubleBuffer.Buffer1 DoubleBuffer.Buffer2 (DoubleBuffer.inner 0 2) (DoubleBuffer.inner 2 0)
    [7; 8; 0; 0] (Some 0) 2 0 0 false.

Lemma failed_read_frees_space_silently :
  DoubleBuffer.m_space_for_writing sample_full = 0 /\
  exists b, DoubleBuffer.read false 1 sample_full = (b, Err EFAULT) /\
    DoubleBuffer.m_space_for_writing b = 2 /\ DoubleBuffer.m_unblock_callback b = Some 0.
Proof. split; [done|]. eexists. by vm_compute. Qed.
