(* ===== verification/BlockerSet.v ===== *)
(** Sets of blocked threads: [Thread::BlockerSet] of [Kernel/Tasks/Thread.h] and
    the queue of a futex that is built on it, [Kernel/Tasks/FutexQueue.cpp]. *)

From S2P Require Import Prelude.

Module BlockerSet.

Section Blockers.
Context {B : Type}.

(** The loop of [unblock_all_blockers_whose_conditions_are_met_locked].  The
    callback sees one blocker and its own variables; it returns whether the
    blocker was unblocked, whether to stop, the blocker and the variables.
    The result says also whether any blocker was unblocked. *)
Fixpoint unblock_all_locked {S : Type}
    (try_to_unblock_one : B -> S -> outcome (bool * bool * B * S)) (m_blockers : list B) (st : S)
    : outcome (list B * S * bool) :=
  match m_blockers with
  | [] => Ok ([], st, false)
  | b :: bs =>
      let! (unblocked, stop_iterating, b, st) := try_to_unblock_one b st in
      if stop_iterating then Ok (if unblocked then bs else b :: bs, st, unblocked)
      else let! (rest, st, any) := unblock_all_locked try_to_unblock_one bs st in
           Ok (if unblocked then rest else b :: rest, st, unblocked || any)
  end.

(** [Vector::take]: the element at an index, and the vector without it. *)
Definition vector_take (index : nat) (v : list B) : outcome (B * list B) :=
  match v !! index with
  | None => Undefined
  | Some b => Ok (b, delete index v)
  end.

(** [Vector::remove] of [count] elements from the front. *)
Definition vector_remove_front (count : nat) (v : list B) : outcome (list B) :=
  if (count <=? length v)%nat then Ok (drop count v) else Panic.

(** The first loop of [do_take_blockers], from index [i] on. *)
Fixpoint take_loop (n i : nat) (m_blockers taken_blockers : list B) : outcome (list B * list B) :=
  match n with
  | O => Ok (m_blockers, taken_blockers)
  | S n => let! (b, m_blockers) := vector_take i m_blockers in
           take_loop n (i + 1) m_blockers (taken_blockers ++ [b])
  end.

(** What is left and what was taken. *)
Definition do_take_blockers (count : nat) (m_blockers : list B) : outcome (list B * list B) :=
  if (length m_blockers <=? count)%nat then Ok ([], m_blockers) else
  let move_count := count in
  if (move_count =? 0)%nat then Panic else
  let! (m_blockers, taken_blockers) := take_loop move_count 0 m_blockers [] in
  let! m_blockers := vector_remove_front move_count m_blockers in
  Ok (m_blockers, taken_blockers).

(** The loop of [do_append_blockers]: its bound is the size of a vector that
    loses an element in every round. *)
Fixpoint append_loop (fuel i : nat) (blockers_to_append m_blockers : list B) : outcome (list B) :=
  match fuel with
  | O => Ok m_blockers
  | S fuel =>
      if (i <? length blockers_to_append)%nat then
        let! (b, blockers_to_append) := vector_take i blockers_to_append in
        append_loop fuel (i + 1) blockers_to_append (m_blockers ++ [b])
      else Ok m_blockers
  end.

Definition do_append_blockers (blockers_to_append m_blockers : list B) : outcome (list B) :=
  match blockers_to_append with
  | [] => Ok m_blockers
  | _ => match m_blockers with
         | [] => Ok blockers_to_append
         | _ => append_loop (length blockers_to_append) 0 blockers_to_append m_blockers
         end
  end.

End Blockers.

End BlockerSet.

Module FutexQueue.

Record FutexBlocker : Type := blocker { thread : Z; m_bitset : Z; m_did_unblock : bool }.

Record t : Type := queue { m_blockers : list FutexBlocker; m_imminent_waits : Z; m_was_removed : bool }.

(** A queue is only created by a thread that is going to wait. *)
Definition make : t := queue [] 1 false.

Definition set_blockers (q : t) (bs : list FutexBlocker) : t :=
  queue bs (m_imminent_waits q) (m_was_removed q).

Definition is_empty_and_no_imminent_waits (q : t) : bool :=
  (m_imminent_waits q =? 0) && match m_blockers q with [] => true | _ => false end.

(** [BlockerSet::add_blocker] with [should_add_blocker]. *)
Definition add_blocker (b : FutexBlocker) (q : t) : outcome (t * bool) :=
  if m_imminent_waits q <=? 0 then Panic else
  let q := queue (m_blockers q) (m_imminent_waits q - 1) (m_was_removed q) in
  if m_was_removed q then Ok (q, false) else Ok (set_blockers q (m_blockers q ++ [b]), true).

Definition remove_blocker (thread_id : Z) (q : t) : t :=
  set_blockers q (filter (fun b => thread b <> thread_id) (m_blockers q)).

Definition queue_imminent_wait (q : t) : t * bool :=
  if m_was_removed q then (q, false)
  else (queue (m_blockers q) (u64 (m_imminent_waits q + 1)) false, true).

Definition try_remove (q : t) : t * bool :=
  if m_was_removed q then (q, false)
  else if negb (is_empty_and_no_imminent_waits q) then (q, false)
  else (queue (m_blockers q) (m_imminent_waits q) true, true).

Definition FUTEX_BITSET_MATCH_ANY : Z := 0xffffffff.

(** [unblock_bitset] and [unblock]: whether they succeed, and the blocker; a
    thread is woken if it was not unblocked before. *)
Definition unblock_bitset (bitset : Z) (b : FutexBlocker) : bool * FutexBlocker :=
  if m_did_unblock b || (negb (bitset =? FUTEX_BITSET_MATCH_ANY) && (Z.land (m_bitset b) bitset =? 0))
  then (false, b) else (true, blocker (thread b) (m_bitset b) true).

Definition unblock (force : bool) (b : FutexBlocker) : bool * FutexBlocker :=
  if m_did_unblock b then (force, b) else (true, blocker (thread b) (m_bitset b) true).

(** The variables of the callbacks: the number of blockers that were unblocked
    and the threads that were woken. *)
Record Woken : Type := woken { did_wake : Z; threads : list Z }.

Definition wake (b : FutexBlocker) (w : Woken) : Woken :=
  woken (u32 (did_wake w + 1)) (if m_did_unblock b then threads w else threads w ++ [thread b]).

(** The callback of [wake_n] and [wake_n_requeue]. *)
Definition wake_callback (wake_count : Z) (bitset : option Z) (b : FutexBlocker) (w : Woken)
    : outcome (bool * bool * FutexBlocker * Woken) :=
  VERIFY (did_wake w <? wake_count) ;;
  let (unblocked, b') := match bitset with
                         | Some bits => unblock_bitset bits b
                         | None => unblock false b
                         end in
  if unblocked then Ok (true, wake_count <=? did_wake (wake b w), b', wake b w)
  else Ok (false, false, b', w).

(** The queue, the woken threads and the number the caller gets, and whether the
    queue is empty now. *)
Definition wake_n (wake_count : Z) (bitset : option Z) (q : t) : outcome (t * Woken * bool) :=
  if wake_count =? 0 then Ok (q, woken 0 [], false) else
  let! (bs, w, _) := BlockerSet.unblock_all_locked (wake_callback wake_count bitset) (m_blockers q) (woken 0 []) in
  let q := set_blockers q bs in
  Ok (q, w, is_empty_and_no_imminent_waits q).

Definition wake_all (q : t) : outcome (t * Woken * bool) :=
  let! (bs, w, _) := BlockerSet.unblock_all_locked
    (fun b w => let (unblocked, b') := unblock true b in
                if unblocked then Ok (true, false, b', wake b w) else Ok (false, false, b', w))
    (m_blockers q) (woken 0 []) in
  let q := set_blockers q bs in
  Ok (q, w, is_empty_and_no_imminent_waits q).

(** [wake_n_requeue] up to the point where the target queue is asked for: the
    queue, the woken threads, whether the queue was empty, and the blockers to
    move. *)
Definition wake_n_take (wake_count requeue_count : Z) (q : t)
    : outcome (t * Woken * bool * list FutexBlocker) :=
  let! (bs, w, _) := BlockerSet.unblock_all_locked (wake_callback wake_count None) (m_blockers q) (woken 0 []) in
  let q := set_blockers q bs in
  let is_empty := is_empty_and_no_imminent_waits q in
  if 0 <? requeue_count then
    let! (rest, taken) := BlockerSet.do_take_blockers (Z.to_nat requeue_count) (m_blockers q) in
    Ok (set_blockers q rest, w, is_empty, taken)
  else Ok (q, w, is_empty, []).

(** And behind it, where a target queue was found. *)
Definition requeue (taken : list FutexBlocker) (target : t) : outcome (t * bool) :=
  let! bs := BlockerSet.do_append_blockers taken (m_blockers target) in
  let target := set_blockers target bs in
  Ok (target, is_empty_and_no_imminent_waits target).


(** ** What a wake-up does *)

(** A blocker that a wake-up with these bits is meant for. *)
Definition matches (bitset : option Z) (b : FutexBlocker) : bool :=
  match bitset with
  | None => true
  | Some bits => (bits =? FUTEX_BITSET_MATCH_ANY) || negb (Z.land (m_bitset b) bits =? 0)
  end.

(** The blockers that stay when the first [n] that match are taken out. *)
Fixpoint without_first (p : FutexBlocker -> bool) (n : nat) (bs : list FutexBlocker) : list FutexBlocker :=
  match bs with
  | [] => []
  | b :: bs' => match n with
                | O => bs
                | S n' => if p b then without_first p n' bs' else b :: without_first p n bs'
                end
  end.

(** Blockers in a queue have not been unblocked. *)
Definition waiting (bs : list FutexBlocker) : Prop := Forall (fun b => m_did_unblock b = false) bs.

Lemma without_first_waiting p n bs : waiting bs -> waiting (without_first p n bs).
Proof.
  unfold waiting. intros H. revert n. induction H as [|b bs Hb H IH]; intros n; simpl; [done|].
  destruct n; [by constructor|]. destruct (p b); [apply IH|]. constructor; [done|apply IH].
Qed.

Lemma without_first_0 p bs : without_first p 0 bs = bs.
Proof. by destruct bs. Qed.

Lemma callback_waiting wake_count bitset b w :
  m_did_unblock b = false -> did_wake w < wake_count ->
  wake_callback wake_count bitset b w =
    if matches bitset b
    then Ok (true, wake_count <=? u32 (did_wake w + 1), blocker (thread b) (m_bitset b) true,
             woken (u32 (did_wake w + 1)) (threads w ++ [thread b]))
    else Ok (false, false, b, w).
Proof.
  intros Hb Hw. unfold wake_callback. rewrite (proj2 (Z.ltb_lt _ _) Hw).
  destruct bitset as [bits|]; simpl.
  - unfold unblock_bitset, matches. rewrite Hb. simpl. destruct (bits =? FUTEX_BITSET_MATCH_ANY); simpl;
      [by unfold wake; rewrite Hb|]. destruct (Z.land (m_bitset b) bits =? 0); simpl; [done|].
    unfold wake. by rewrite Hb.
  - unfold unblock. rewrite Hb. unfold wake. by rewrite Hb.
Qed.

Lemma wake_loop_ok wake_count bitset bs w :
  waiting bs -> 0 <= did_wake w < wake_count -> fits 32 wake_count ->
  let n := Z.to_nat (wake_count - did_wake w) in
  let taken := take n (filter (fun b => matches bitset b = true) bs) in
  exists any, BlockerSet.unblock_all_locked (wake_callback wake_count bitset) bs w =
    Ok (without_first (matches bitset) n bs,
        woken (did_wake w + len taken) (threads w ++ map thread taken), any).
Proof.
  intros H. revert w. induction H as [|b bs Hb H IH]; intros w Hw Hc; cbv zeta.
  { eexists. rewrite filter_nil, take_nil. simpl. rewrite len_nil, Z.add_0_r, app_nil_r. by destruct w. }
  cbn [BlockerSet.unblock_all_locked]. rewrite callback_waiting by (done || lia).
  rewrite filter_cons. destruct (matches bitset b) eqn:Em; cbn [bind].
  - rewrite decide_True by done. unfold u32. rewrite wrap_small by (unfold fits in *; lia).
    destruct (Z.leb_spec wake_count (did_wake w + 1)) as [Hle|Hgt].
    + replace (Z.to_nat (wake_count - did_wake w)) with 1%nat by lia. exists true. simpl.
      rewrite Em, without_first_0, firstn_O. done.
    + destruct (IH (woken (did_wake w + 1) (threads w ++ [thread b]))) as [any E]; [simpl; lia|done|].
      rewrite E. cbn [bind did_wake threads]. eexists.
      replace (Z.to_nat (wake_count - did_wake w)) with (S (Z.to_nat (wake_count - (did_wake w + 1)))) by lia.
      simpl. rewrite Em, len_cons, <- app_assoc. simpl. rewrite Z.add_assoc. done.
  - rewrite decide_False by done. destruct (IH w Hw Hc) as [any E]. rewrite E. cbn [bind]. eexists.
    replace (Z.to_nat (wake_count - did_wake w)) with (S (Z.to_nat (wake_count - did_wake w - 1))) by lia.
    simpl. rewrite Em. done.
Qed.

Lemma wake_n_ok wake_count bitset q :
  waiting (m_blockers q) -> 0 < wake_count -> fits 32 wake_count ->
  let taken := take (Z.to_nat wake_count) (filter (fun b => matches bitset b = true) (m_blockers q)) in
  let q' := set_blockers q (without_first (matches bitset) (Z.to_nat wake_count) (m_blockers q)) in
  wake_n wake_count bitset q =
    Ok (q', woken (len taken) (map thread taken), is_empty_and_no_imminent_waits q').
Proof.
  intros H Hc Hf. cbv zeta. unfold wake_n. rewrite (proj2 (Z.eqb_neq _ _)) by lia.
  destruct (wake_loop_ok wake_count bitset (m_blockers q) (woken 0 []) H) as [any E]; [simpl; lia|done|].
  simpl in E. rewrite Z.sub_0_r in E. rewrite E. done.
Qed.

(** The blockers that stay are a part of the queue, and those that go are the
    other part. *)
Lemma without_first_perm p n bs :
  bs ≡ₚ take n (filter (fun b => p b = true) bs) ++ without_first p n bs.
Proof.
  revert n. induction bs as [|b bs IH]; intros n; [by rewrite filter_nil, take_nil|].
  destruct n as [|n]; [by rewrite firstn_O|]. simpl. rewrite filter_cons. destruct (p b) eqn:E.
  - rewrite decide_True by done. simpl. constructor. apply IH.
  - rewrite decide_False by done. rewrite <- Permutation_middle. constructor. apply IH.
Qed.

Lemma wake_all_loop bs w :
  waiting bs -> 0 <= did_wake w -> did_wake w + len bs < 2 ^ 32 ->
  exists any, BlockerSet.unblock_all_locked
    (fun b w => let (unblocked, b') := unblock true b in
                if unblocked then Ok (true, false, b', wake b w) else Ok (false, false, b', w)) bs w =
  Ok ([], woken (did_wake w + len bs) (threads w ++ map thread bs), any).
Proof.
  intros H. revert w. induction H as [|b bs Hb H IH]; intros w Hw Hl.
  { eexists. simpl. rewrite len_nil, Z.add_0_r, app_nil_r. by destruct w. }
  rewrite len_cons in Hl |- *. pose proof (len_nonneg bs).
  cbn [BlockerSet.unblock_all_locked]. unfold unblock at 1. rewrite Hb. cbn [bind].
  assert (wake b w = woken (did_wake w + 1) (threads w ++ [thread b])) as ->.
  { unfold wake, u32. rewrite Hb, wrap_small by (unfold fits; lia). done. }
  destruct (IH (woken (did_wake w + 1) (threads w ++ [thread b]))) as [any E]; [simpl; lia|simpl; lia|].
  rewrite E. cbn [bind did_wake threads]. eexists. simpl. rewrite <- app_assoc, Z.add_assoc. done.
Qed.

Lemma wake_all_ok q :
  waiting (m_blockers q) -> len (m_blockers q) < 2 ^ 32 ->
  wake_all q = Ok (set_blockers q [], woken (len (m_blockers q)) (map thread (m_blockers q)),
                   m_imminent_waits q =? 0).
Proof.
  intros H Hl. unfold wake_all. destruct (wake_all_loop (m_blockers q) (woken 0 []) H) as [any E];
    [simpl; lia|done|]. rewrite E. cbn [bind]. unfold is_empty_and_no_imminent_waits. simpl.
  by rewrite andb_true_r.
Qed.

Lemma without_first_sublist p n bs : without_first p n bs `sublist_of` bs.
Proof.
  revert n. induction bs as [|b bs IH]; intros n; simpl; [done|]. destruct n; [done|].
  destruct (p b); [by apply sublist_cons|by apply sublist_skip].
Qed.

End FutexQueue.

(** C22: a wake-up wakes whom it should.  On a queue of waiting threads [wake_n] with
    a count does not panic, wakes the first threads in the queue that the bits are
    meant for, at most as many as asked for, reports their number, and leaves the
    others in their order; what it says about the queue being empty is right. *)
Theorem wake_n_exact (wake_count : Z) (bitset : option Z) (q : FutexQueue.t) :
  FutexQueue.waiting (FutexQueue.m_blockers q) -> 0 < wake_count -> fits 32 wake_count ->
  exists q' w empty, FutexQueue.wake_n wake_count bitset q = Ok (q', w, empty) /\
    FutexQueue.threads w = map FutexQueue.thread (take (Z.to_nat wake_count)
      (filter (fun b => FutexQueue.matches bitset b = true) (FutexQueue.m_blockers q))) /\
    FutexQueue.did_wake w = len (FutexQueue.threads w) /\
    map FutexQueue.thread (FutexQueue.m_blockers q) ≡ₚ
      FutexQueue.threads w ++ map FutexQueue.thread (FutexQueue.m_blockers q') /\
    FutexQueue.m_blockers q' `sublist_of` FutexQueue.m_blockers q /\
    (empty = true <-> FutexQueue.m_blockers q' = [] /\ FutexQueue.m_imminent_waits q = 0).
Proof.
  intros H Hc Hf. rewrite (FutexQueue.wake_n_ok wake_count bitset q H Hc Hf).
  eexists _, _, _. split; [reflexivity|]. split; [done|]. split; [|split; [|split]].
  - simpl. unfold len. by rewrite length_map.
  - simpl. rewrite <- map_app. by rewrite <- FutexQueue.without_first_perm.
  - apply FutexQueue.without_first_sublist.
  - unfold FutexQueue.is_empty_and_no_imminent_waits. simpl. rewrite andb_true_iff, Z.eqb_eq.
    destruct (FutexQueue.without_first _ _ _); naive_solver.
Qed.

(** Three threads wait, one of them for other bits. *)
Definition sample_futex_queue : FutexQueue.t :=
  FutexQueue.queue [FutexQueue.blocker 10 1 false; FutexQueue.blocker 11 2 false;
                    FutexQueue.blocker 12 3 false] 0 false.

Lemma wake_n_exact_witness :
  exists q' w empty, FutexQueue.wake_n 5 (Some 1) sample_futex_queue = Ok (q', w, empty) /\
    FutexQueue.threads w = map FutexQueue.thread (take (Z.to_nat 5)
      (filter (fun b => FutexQueue.matches (Some 1) b = true) (FutexQueue.m_blockers sample_futex_queue))) /\
    FutexQueue.did_wake w = len (FutexQueue.threads w) /\
    map FutexQueue.thread (FutexQueue.m_blockers sample_futex_queue) ≡ₚ
      FutexQueue.threads w ++ map FutexQueue.thread (FutexQueue.m_blockers q') /\
    FutexQueue.m_blockers q' `sublist_of` FutexQueue.m_blockers sample_futex_queue /\
    (empty = true <-> FutexQueue.m_blockers q' = [] /\ FutexQueue.m_imminent_waits sample_futex_queue = 0).
Proof.
  apply wake_n_exact; [|lia|unfold fits; lia]. repeat constructor.
Defined.

(** ** Where blockers get lost *)

(** Taking one of two blockers also drops the other one, and taking two of three
    fails the check in [Vector::remove]. *)
Lemma take_blockers_drops :
  BlockerSet.do_take_blockers 1 [1; 2] = Ok ([], [1]) /\
  BlockerSet.do_take_blockers 2 [1; 2; 3] = Panic.
Proof. by vm_compute. Qed.

(** Of two blockers that are appended to a queue that is not empty only the first
    arrives. *)
Lemma append_blockers_drops : BlockerSet.do_append_blockers [1; 2] [3] = Ok [3; 1].
Proof. by vm_compute. Qed.

(** Requeuing without waking anyone fails an assertion as soon as a thread waits. *)
Lemma requeue_without_wake_panics : FutexQueue.wake_n_take 0 1 sample_futex_queue = Panic.
Proof. by vm_compute. Qed.
