(* ===== verification/WaitQueue.v ===== *)
(** Wait queues, [Kernel/Tasks/DeprecatedWaitQueue.cpp]. *)

From S2P Require Import Prelude BlockerSet.

Module WaitQueue.

(** [DeprecatedWaitQueueBlocker] *)
Record Blocker : Type := blocker { thread : Z; m_did_unblock : bool }.

(** [DeprecatedWaitQueue]: the threads that wait, and whether a wake-up is
    pending because nobody waited. *)
Record t : Type := queue { m_blockers : list Blocker; m_wake_requested : bool }.

Definition make : t := queue [] false.

(** [add_blocker] with [should_add_blocker]: whether the thread blocks. *)
Definition add_blocker (b : Blocker) (q : t) : t * bool :=
  if m_wake_requested q then (queue (m_blockers q) false, false)
  else (queue (m_blockers q ++ [b]) false, true).

Definition remove_blocker (thread_id : Z) (q : t) : t :=
  queue (filter (fun b => thread b <> thread_id) (m_blockers q)) (m_wake_requested q).

Definition unblock (b : Blocker) : bool * Blocker :=
  if m_did_unblock b then (false, b) else (true, blocker (thread b) true).

(** The callbacks; their variable is the list of threads that were woken. *)
Definition wake_one_callback (b : Blocker) (w : list Z) : outcome (bool * bool * Blocker * list Z) :=
  let (unblocked, b') := unblock b in
  if unblocked then Ok (true, true, b', w ++ [thread b]) else Ok (false, false, b', w).

Definition wake_n_callback (wake_count : Z) (b : Blocker) (w : list Z)
    : outcome (bool * bool * Blocker * list Z) :=
  VERIFY (len w <? wake_count) ;;
  let (unblocked, b') := unblock b in
  if unblocked then Ok (true, wake_count <=? len (w ++ [thread b]), b', w ++ [thread b])
  else Ok (false, false, b', w).

Definition wake_all_callback (b : Blocker) (w : list Z) : outcome (bool * bool * Blocker * list Z) :=
  let (unblocked, b') := unblock b in
  if unblocked then Ok (true, false, b', w ++ [thread b]) else Ok (false, false, b', w).

(** The queue and the threads that were woken. *)
Definition wake_with (callback : Blocker -> list Z -> outcome (bool * bool * Blocker * list Z)) (q : t)
    : outcome (t * list Z) :=
  let! (bs, w, did_unblock_any) := BlockerSet.unblock_all_locked callback (m_blockers q) [] in
  Ok (queue bs (negb did_unblock_any), w).

Definition wake_one (q : t) : outcome (t * list Z) := wake_with wake_one_callback q.

Definition wake_n (wake_count : Z) (q : t) : outcome (t * list Z) :=
  if wake_count =? 0 then Ok (q, []) else wake_with (wake_n_callback wake_count) q.

Definition wake_all (q : t) : outcome (t * list Z) := wake_with wake_all_callback q.

End WaitQueue.
