(* ===== verification/Futex.v ===== *)
(** Futexes, [Kernel/Syscalls/futex.cpp]: the keys that name a futex, the system
    call, and the interleaving of threads that wait and threads that wake. *)

From S2P Require Import Prelude BitOps VirtualRange Region RegionTree AddressSpace BlockerSet.

Module Futex.
#[local] Open Scope Z_scope.

(** ** Keys *)

(** [GlobalFutexKey]: keys are compared by their raw words. *)
Definition Key : Type := Z * Z.

Definition futex_key_private_flag : Z := 1.

Definition private_key (address_space user_address : Z) : Key :=
  (address_space, Z.lor user_address futex_key_private_flag).

Definition offset_in_vmobject_from_vaddr (r : Region.Region) (vaddr : Z) : Z :=
  u64 (Region.m_offset_in_vmobject r + vaddr - Region.vaddr r).

(** [address_space] is the address of the address space object of the process,
    the address of a memory object is its identity. *)
Definition get_futex_key {T : Type} `{!OrderedTree T Region.Region} (env : Region.Env)
    (address_space : Z) (space : AddressSpace.t T) (user_address : Z) (shared : bool) : outcome Key :=
  if negb (Z.land user_address 3 =? 0) then Err EINVAL else
  let range := VirtualRange.mk user_address 4 in
  if negb (Region.is_user_range env range) then Err EFAULT else
  if negb shared then Ok (private_key address_space user_address) else
  match AddressSpace.find_region_containing space range with
  | None => Err EFAULT
  | Some matching_region =>
      if negb (Region.m_shared matching_region) then Ok (private_key address_space user_address) else
      let vmobject := Region.m_vmobject matching_region in
      if Region.is_inode vmobject && negb (Region.is_shared_inode vmobject) then Panic else
      Ok (Region.vm_id vmobject, offset_in_vmobject_from_vaddr matching_region user_address)
  end.

(** ** The queues *)

(** The queues by key, the queue objects by identity (a thread may hold a
    reference to a queue that is no longer in the table), the words of user
    memory that can be accessed, and the threads that were woken. *)
Record t : Type := futexes {
  s_global_futex_queues : gmap Key nat;
  objects : gmap nat FutexQueue.t;
  next_object : nat;
  memory : gmap Z Z;
  woken_threads : list Z
}.

Definition set_queues (s : t) (queues : gmap Key nat) : t :=
  futexes queues (objects s) (next_object s) (memory s) (woken_threads s).
Definition set_object (s : t) (id : nat) (q : FutexQueue.t) : t :=
  futexes (s_global_futex_queues s) (<[id := q]> (objects s)) (next_object s) (memory s) (woken_threads s).
Definition set_memory (s : t) (m : gmap Z Z) : t :=
  futexes (s_global_futex_queues s) (objects s) (next_object s) m (woken_threads s).
Definition add_woken (s : t) (threads : list Z) : t :=
  futexes (s_global_futex_queues s) (objects s) (next_object s) (memory s) (woken_threads s ++ threads).

(** [did_create] is the result through the pointer of that name, which
    [has_pointer] says is not null; [allocated] says whether memory is left. *)
Definition find_futex_queue (allocated : bool) (futex_key : Key) (create_if_not_found has_pointer : bool)
    : action t (option nat * bool) :=
  fun s =>
    if create_if_not_found && negb has_pointer then (s, Panic) else
    match s_global_futex_queues s !! futex_key with
    | Some q => (s, Ok (Some q, false))
    | None =>
        if negb create_if_not_found then (s, Ok (None, false)) else
        if negb allocated then (s, Err ENOMEM) else
        let q := next_object s in
        (futexes (<[futex_key := q]> (s_global_futex_queues s)) (<[q := FutexQueue.make]> (objects s))
           (S q) (memory s) (woken_threads s), Ok (Some q, true))
    end.

Definition remove_futex_queue (futex_key : Key) (s : t) : t :=
  match s_global_futex_queues s !! futex_key with
  | None => s
  | Some id =>
      match objects s !! id with
      | None => s
      | Some q =>
          let (q', removed) := FutexQueue.try_remove q in
          let s := set_object s id q' in
          if removed then set_queues s (delete futex_key (s_global_futex_queues s)) else s
      end
  end.

(** An operation on a queue object. *)
Definition on_queue {A : Type} (id : nat) (f : FutexQueue.t -> outcome (FutexQueue.t * A)) : action t A :=
  fun s => match objects s !! id with
           | None => (s, Undefined)
           | Some q => match f q with
                       | Ok (q', a) => (set_object s id q', Ok a)
                       | Err e => (s, Err e)
                       | Panic => (s, Panic)
                       | Undefined => (s, Undefined)
                       end
           end.

(** [wake_n] on a queue object, with the threads it wakes. *)
Definition wake_queue (id : nat) (count : Z) (bitmask : option Z) : action t (Z * bool) :=
  let* (w, is_empty) := on_queue id (fun q => let! (q', w, e) := FutexQueue.wake_n count bitmask q in Ok (q', (w, e))) in
  let* _ := modify (fun s => add_woken s (FutexQueue.threads w)) in
  ret (FutexQueue.did_wake w, is_empty).

Definition do_wake (futex_key : outcome Key) (count : Z) (bitmask : option Z) : action t Z :=
  if count =? 0 then ret 0 else
  let* key := lift futex_key in
  let* (futex_queue, _) := find_futex_queue true key false false in
  match futex_queue with
  | None => ret 0
  | Some id =>
      let* (woke_count, is_empty) := wake_queue id count bitmask in
      let* _ := (if is_empty then modify (remove_futex_queue key) else ret tt) in
      ret woke_count
  end.

(** [wake_n_requeue] with the callback of [do_requeue], which asks for the target
    queue without a place for [did_create]. *)
Definition wake_n_requeue (allocated : bool) (id : nat) (key2 : Key) (wake_count requeue_count : Z)
    : action t (Z * bool * bool) :=
  let* (w, is_empty, taken) := on_queue id (fun q =>
    let! (q', w, e, taken) := FutexQueue.wake_n_take wake_count requeue_count q in Ok (q', (w, e, taken))) in
  let* _ := modify (fun s => add_woken s (FutexQueue.threads w)) in
  match taken with
  | [] => ret (FutexQueue.did_wake w, is_empty, false)
  | _ =>
      let* (target, _) := find_futex_queue allocated key2 true false in
      match target with
      | Some target =>
          let* is_empty_target := on_queue target (FutexQueue.requeue taken) in
          ret (u32 (FutexQueue.did_wake w + len taken), is_empty, is_empty_target)
      | None =>
          let* _ := on_queue id (FutexQueue.requeue taken) in
          ret (FutexQueue.did_wake w, is_empty, false)
      end
  end.

Definition do_requeue (allocated : bool) (address : Z) (futex_key futex_key2 : outcome Key)
    (val val2 : Z) (val3 : option Z) : action t Z :=
  let* user_value := gets (fun s => memory s !! address) in
  match user_value with
  | None => lift (Err EFAULT)
  | Some user_value =>
      if match val3 with Some v => negb (v =? user_value) | None => false end then lift (Err EAGAIN) else
      let* key := lift futex_key in
      let* (futex_queue, _) := find_futex_queue true key false false in
      match futex_queue with
      | None => ret 0
      | Some id =>
          let* key2 := lift futex_key2 in
          let* (woken_or_requeued, is_empty, is_target_empty) := wake_n_requeue allocated id key2 val val2 in
          let* _ := (if is_empty then modify (remove_futex_queue key) else ret tt) in
          let* _ := (if is_target_empty then modify (remove_futex_queue key2) else ret tt) in
          ret woken_or_requeued
      end
  end.

(** ** The commands *)

Abbreviation FUTEX_OP_SET := 0%Z (only parsing).
Abbreviation FUTEX_OP_ADD := 1%Z (only parsing).
Abbreviation FUTEX_OP_OR := 2%Z (only parsing).
Abbreviation FUTEX_OP_ANDN := 3%Z (only parsing).
Abbreviation FUTEX_OP_XOR := 4%Z (only parsing).
Abbreviation FUTEX_OP_ARG_SHIFT := 8%Z (only parsing).

Abbreviation FUTEX_OP_CMP_EQ := 0%Z (only parsing).
Abbreviation FUTEX_OP_CMP_NE := 1%Z (only parsing).
Abbreviation FUTEX_OP_CMP_LT := 2%Z (only parsing).
Abbreviation FUTEX_OP_CMP_LE := 3%Z (only parsing).
Abbreviation FUTEX_OP_CMP_GT := 4%Z (only parsing).
Abbreviation FUTEX_OP_CMP_GE := 5%Z (only parsing).

Abbreviation FUTEX_WAIT := 1%Z (only parsing).
Abbreviation FUTEX_WAKE := 2%Z (only parsing).
Abbreviation FUTEX_REQUEUE := 3%Z (only parsing).
Abbreviation FUTEX_CMP_REQUEUE := 4%Z (only parsing).
Abbreviation FUTEX_WAKE_OP := 5%Z (only parsing).
Abbreviation FUTEX_WAIT_BITSET := 9%Z (only parsing).
Abbreviation FUTEX_WAKE_BITSET := 10%Z (only parsing).

Abbreviation FUTEX_CLOCK_REALTIME := (Z.shiftl 1 8)%Z (only parsing).
Abbreviation FUTEX_PRIVATE_FLAG := (Z.shiftl 1 9)%Z (only parsing).
Abbreviation FUTEX_CMD_MASK := (Z.lnot (Z.lor FUTEX_CLOCK_REALTIME FUTEX_PRIVATE_FLAG))%Z (only parsing).

Definition FUTEX_OP_of (val3 : Z) : Z := Z.land (Z.shiftr val3 28) 0xf.
Definition FUTEX_CMP_of (val3 : Z) : Z := Z.land (Z.shiftr val3 24) 0xf.
Definition FUTEX_OP_ARG_of (val3 : Z) : Z := Z.land (Z.shiftr val3 12) 0xfff.
Definition FUTEX_CMP_ARG_of (val3 : Z) : Z := Z.land (Z.shiftr val3 0) 0xfff.

(** The value the operation of [FUTEX_WAKE_OP] leaves in memory. *)
Definition wake_op_value (op op_arg old : Z) : option Z :=
  if op =? FUTEX_OP_SET then Some op_arg
  else if op =? FUTEX_OP_ADD then Some (u32 (old + op_arg))
  else if op =? FUTEX_OP_OR then Some (Z.lor old op_arg)
  else if op =? FUTEX_OP_ANDN then Some (Z.land old (u32 (Z.lnot op_arg)))
  else if op =? FUTEX_OP_XOR then Some (Z.lxor old op_arg)
  else None.

Definition wake_op_compare (cmp old arg : Z) : option bool :=
  if cmp =? FUTEX_OP_CMP_EQ then Some (old =? arg)
  else if cmp =? FUTEX_OP_CMP_NE then Some (negb (old =? arg))
  else if cmp =? FUTEX_OP_CMP_LT then Some (old <? arg)
  else if cmp =? FUTEX_OP_CMP_LE then Some (old <=? arg)
  else if cmp =? FUTEX_OP_CMP_GT then Some (arg <? old)
  else if cmp =? FUTEX_OP_CMP_GE then Some (arg <=? old)
  else None.

Definition wake_op (address2 : Z) (futex_key futex_key2 : outcome Key) (val val2 val3 : Z) : action t Z :=
  let op_arg := FUTEX_OP_ARG_of val3 in
  let op := FUTEX_OP_of val3 in
  let shifted := negb (Z.land op FUTEX_OP_ARG_SHIFT =? 0) in
  if shifted && (32 <=? op_arg) then lift Undefined else
  let op_arg := if shifted then u32 (Z.shiftl 1 op_arg) else op_arg in
  let op := if shifted then Z.land op FUTEX_OP_ARG_SHIFT else op in
  match wake_op_value op op_arg 0 with
  | None => lift (Err EINVAL)
  | Some _ =>
      let* oldval := gets (fun s => memory s !! address2) in
      match oldval with
      | None => lift (Err EFAULT)
      | Some oldval =>
          let* _ := modify (fun s => set_memory s (match wake_op_value op op_arg oldval with
                                                   | Some v => <[address2 := v]> (memory s)
                                                   | None => memory s
                                                   end)) in
          let* result := do_wake futex_key val None in
          if 0 <? val2 then
            match wake_op_compare (FUTEX_CMP_of val3) oldval (FUTEX_CMP_ARG_of val3) with
            | None => lift (Err EINVAL)
            | Some compare_result =>
                if compare_result then
                  let* more := do_wake futex_key2 val2 None in
                  ret (result + more)
                else ret result
            end
          else ret result
      end
  end.

(** What a call asks for once its arguments are decoded. *)
Inductive Command : Type :=
| Wait (bitset : Z)
| Wake (bitmask : option Z)
| WakeOp
| Requeue (val3 : option Z).

Definition dispatch (cmd val3 : Z) : outcome Command :=
  if cmd =? FUTEX_WAIT then Ok (Wait 0)
  else if cmd =? FUTEX_WAKE then Ok (Wake None)
  else if cmd =? FUTEX_WAKE_OP then Ok WakeOp
  else if cmd =? FUTEX_REQUEUE then Ok (Requeue None)
  else if cmd =? FUTEX_CMP_REQUEUE then Ok (Requeue (Some val3))
  else if cmd =? FUTEX_WAIT_BITSET then
    VERIFY (negb (val3 =? FutexQueue.FUTEX_BITSET_MATCH_ANY)) ;;
    if val3 =? 0 then Err EINVAL else Ok (Wait val3)
  else if cmd =? FUTEX_WAKE_BITSET then
    VERIFY (negb (val3 =? FutexQueue.FUTEX_BITSET_MATCH_ANY)) ;;
    if val3 =? 0 then Err EINVAL else Ok (Wake (Some val3))
  else Err ENOSYS.

Definition decode (futex_op val3 : Z) : outcome Command :=
  let cmd := Z.land futex_op FUTEX_CMD_MASK in
  let use_realtime_clock := negb (Z.land futex_op FUTEX_CLOCK_REALTIME =? 0) in
  if use_realtime_clock && negb (cmd =? FUTEX_WAIT) && negb (cmd =? FUTEX_WAIT_BITSET) then Err ENOSYS else
  let cmd := if (cmd =? FUTEX_WAIT_BITSET) && (val3 =? FutexQueue.FUTEX_BITSET_MATCH_ANY) then FUTEX_WAIT
             else if (cmd =? FUTEX_WAKE_BITSET) && (val3 =? FutexQueue.FUTEX_BITSET_MATCH_ANY) then FUTEX_WAKE
             else cmd in
  dispatch cmd val3.

(** [clear_futex_queues_on_exec]: every private queue of the address space is
    emptied and taken out of the table. *)
Definition clear_futex_queues_on_exec (address_space : Z) (s : t) : t * outcome unit :=
  fold_left (fun (r : t * outcome unit) (e : Key * nat) =>
    let '(s, o) := r in
    let '(key, id) := e in
    match o with
    | Ok _ =>
        if (Z.land (snd key) futex_key_private_flag =? 0) || negb (fst key =? address_space) then (s, Ok tt) else
        match objects s !! id with
        | None => (s, Undefined)
        | Some q =>
            match FutexQueue.wake_all q with
            | Ok (q', w, did_wake_all) =>
                let s := add_woken (set_object s id q') (FutexQueue.threads w) in
                if did_wake_all then (set_queues s (delete key (s_global_futex_queues s)), Ok tt) else (s, Panic)
            | _ => (s, Panic)
            end
        end
    | _ => (s, o)
    end) (map_to_list (s_global_futex_queues s)) (s, Ok tt).

(** The parts of [do_wait] around the point where the thread blocks.  The loop
    tries again when the queue was removed before the wait was announced. *)

Definition wait_check (address val : Z) (s : t) : outcome unit :=
  match memory s !! address with
  | None => Err EFAULT
  | Some user_value => if negb (user_value =? val) then Err EAGAIN else Ok tt
  end.

Definition wait_announce (id : nat) : action t bool :=
  on_queue id (fun q => Ok (FutexQueue.queue_imminent_wait q)).

Definition wait_on (thread : Z) (id : nat) (bitset : Z) : action t bool :=
  on_queue id (FutexQueue.add_blocker (FutexQueue.blocker thread bitset false)).

(** What [Thread::block] does when the thread runs again. *)
Definition wait_end (thread : Z) (id : nat) : action t unit :=
  on_queue id (fun q => Ok (FutexQueue.remove_blocker thread q, tt)).

Definition wait_is_last (id : nat) : action t bool :=
  on_queue id (fun q => Ok (q, FutexQueue.is_empty_and_no_imminent_waits q)).

(** ** Threads that wait and wake

    Between two steps of one thread any other thread may run.  A step is what
    happens while one of the locks is held. *)

Inductive pc : Type :=
| Running
| Checking (address val : Z) (key : Key) (bitset : Z)
| Checked (address val : Z) (key : Key) (bitset : Z)
| Found (address val : Z) (key : Key) (bitset : Z) (id : nat)
| AboutToBlock (key : Key) (bitset : Z) (id : nat)
| Blocked (key : Key) (id : nat)
| Returning (key : Key) (id : nat)
| Waking (key : Key) (count : Z) (bitmask : option Z) (id : nat)
| Removing (key : Key).

(** The system call: a result, or for a wait where the thread goes on.  The keys
    are those of the two addresses. *)
Definition sys_futex (allocated : bool) (futex_op val val2 val3 address address2 : Z)
    (futex_key futex_key2 : outcome Key) : action t (Z + pc) :=
  let* command := lift (decode futex_op val3) in
  match command with
  | Wait bitset =>
      let* key := lift futex_key in
      ret (inr (Checking address val key bitset))
  | Wake bitmask =>
      let* n := do_wake futex_key val bitmask in
      ret (inl n)
  | WakeOp =>
      let* n := wake_op address2 futex_key futex_key2 val val2 val3 in
      ret (inl n)
  | Requeue val3 =>
      let* n := do_requeue allocated address futex_key futex_key2 val val2 val3 in
      ret (inl n)
  end.

Record system : Type := sys { futex : t; pcs : gmap Z pc }.

Definition goto (tid : Z) (p : pc) (f : t) (s : system) : system := sys f (<[tid := p]> (pcs s)).

(** One step of a thread; [None] is a panic or an access to a queue that does not
    exist. *)
Definition thread_step (allocated : bool) (tid : Z) (s : system) : option system :=
  let f := futex s in
  match pcs s !! tid with
  | None | Some Running => Some s
  | Some (Checking address val key bitset) =>
      match wait_check address val f with
      | Ok _ => Some (goto tid (Checked address val key bitset) f s)
      | _ => Some (goto tid Running f s)
      end
  | Some (Checked address val key bitset) =>
      match find_futex_queue allocated key true true f with
      | (f, Ok (Some id, did_create)) =>
          Some (goto tid (if did_create then AboutToBlock key bitset id
                          else Found address val key bitset id) f s)
      | (f, Err _) => Some (goto tid Running f s)
      | _ => None
      end
  | Some (Found address val key bitset id) =>
      match wait_announce id f with
      | (f, Ok queued) => Some (goto tid (if queued then AboutToBlock key bitset id
                                          else Checking address val key bitset) f s)
      | _ => None
      end
  | Some (AboutToBlock key bitset id) =>
      match wait_on tid id bitset f with
      | (f, Ok blocks) => Some (goto tid (if blocks then Blocked key id else Returning key id) f s)
      | _ => None
      end
  | Some (Blocked key id) =>
      match wait_end tid id f with
      | (f, Ok _) => Some (goto tid (Returning key id) f s)
      | _ => None
      end
  | Some (Returning key id) =>
      match wait_is_last id f with
      | (f, Ok last) => Some (goto tid (if last then Removing key else Running) f s)
      | _ => None
      end
  | Some (Waking key count bitmask id) =>
      match wake_queue id count bitmask f with
      | (f, Ok (_, is_empty)) => Some (goto tid (if is_empty then Removing key else Running) f s)
      | _ => None
      end
  | Some (Removing key) => Some (goto tid Running (remove_futex_queue key f) s)
  end.

(** What can happen: a thread goes on (one that is blocked runs when it was woken,
    when its time is up or when a signal arrives), a thread begins to wait or to
    wake, or a word of user memory changes. *)
Inductive step (s : system) : option system -> Prop :=
| step_thread allocated tid : step s (thread_step allocated tid s)
| step_wait tid address val key bitset :
    pcs s !! tid = Some Running ->
    step s (Some (goto tid (Checking address val key bitset) (futex s) s))
| step_wake tid key count bitmask :
    pcs s !! tid = Some Running -> 0 < count -> fits 32 count ->
    step s (Some (match find_futex_queue true key false false (futex s) with
                  | (f, Ok (Some id, _)) => goto tid (Waking key count bitmask id) f s
                  | (f, _) => goto tid Running f s
                  end))
| step_store m : step s (Some (sys (set_memory (futex s) m) (pcs s))).

Inductive reachable (s0 : system) : option system -> Prop :=
| reach_refl : reachable s0 (Some s0)
| reach_step s o : reachable s0 (Some s) -> step s o -> reachable s0 o.

(** At the start no futex exists and all threads run. *)
Definition initial (s : system) : Prop :=
  s_global_futex_queues (futex s) = ∅ /\ objects (futex s) = ∅ /\
  (forall tid p, pcs s !! tid = Some p -> p = Running) /\ Z.of_nat (size (pcs s)) < 2 ^ 64.

(** ** The invariant *)

(** The queue a thread refers to and the key it looked it up with. *)
Definition refers (p : pc) : option (Key * nat) :=
  match p with
  | Found _ _ key _ id | AboutToBlock key _ id | Blocked key id | Returning key id | Waking key _ _ id =>
      Some (key, id)
  | _ => None
  end.

Definition about_to_block (id : nat) (p : pc) : Z :=
  match p with AboutToBlock _ _ id' => if decide (id = id') then 1 else 0 | _ => 0 end.

Record inv (s : system) : Prop := {
  i_table : forall key id, s_global_futex_queues (futex s) !! key = Some id ->
    exists q, objects (futex s) !! id = Some q /\ FutexQueue.m_was_removed q = false;
  i_next : forall id q, objects (futex s) !! id = Some q -> (id < next_object (futex s))%nat;
  i_inj : forall key key' id, s_global_futex_queues (futex s) !! key = Some id ->
    s_global_futex_queues (futex s) !! key' = Some id -> key = key';
  i_refers : forall tid p key id, pcs s !! tid = Some p -> refers p = Some (key, id) ->
    exists q, objects (futex s) !! id = Some q /\
      (FutexQueue.m_was_removed q = false -> s_global_futex_queues (futex s) !! key = Some id);
  i_count : forall id q, objects (futex s) !! id = Some q ->
    FutexQueue.m_imminent_waits q = msum (about_to_block id) (pcs s);
  i_removed : forall id q, objects (futex s) !! id = Some q -> FutexQueue.m_was_removed q = true ->
    FutexQueue.m_blockers q = [] /\ FutexQueue.m_imminent_waits q = 0;
  i_blockers : forall id q b, objects (futex s) !! id = Some q -> b ∈ FutexQueue.m_blockers q ->
    FutexQueue.m_did_unblock b = false /\
    exists key, pcs s !! FutexQueue.thread b = Some (Blocked key id);
  i_waking : forall tid key count bitmask id, pcs s !! tid = Some (Waking key count bitmask id) ->
    0 < count /\ fits 32 count;
  i_threads : Z.of_nat (size (pcs s)) < 2 ^ 64
}.

Lemma about_bounds id p : 0 <= about_to_block id p <= 1.
Proof. unfold about_to_block. repeat case_match; lia. Qed.

(** ** Every step keeps it *)

(** Threads other than [tid] keep their place. *)
Ltac other_thread tid :=
  match goal with
  | H : <[_ := _]> _ !! ?x = Some _ |- _ =>
      destruct (decide (x = tid)) as [->|];
      [rewrite lookup_insert_eq in H; apply (inj Some) in H|rewrite lookup_insert_ne in H by done]
  end.

(** A step that changes no queue. *)
Lemma move_inv s tid p p' :
  inv s -> pcs s !! tid = Some p ->
  (forall key id, refers p' = Some (key, id) -> exists q, objects (futex s) !! id = Some q /\
     (FutexQueue.m_was_removed q = false -> s_global_futex_queues (futex s) !! key = Some id)) ->
  (forall id, about_to_block id p' = about_to_block id p) ->
  (forall key id, p <> Blocked key id) ->
  (forall key count bitmask id, p' = Waking key count bitmask id -> 0 < count /\ fits 32 count) ->
  inv (goto tid p' (futex s) s).
Proof.
  intros [H1 H2 H3 H4 H5 H6 H7 H8 H9] Hp Hr Ha Hb Hw. constructor; try done; cbn [futex pcs goto].
  - intros tid' q key id Hl E. other_thread tid; [subst; by apply Hr|by eapply H4].
  - intros id q Hq. rewrite (msum_update _ _ _ p) by done. rewrite Ha, (H5 id q Hq). lia.
  - intros id q b Hq Hin. destruct (H7 id q b Hq Hin) as [Hd (key & Hk)]. split; [done|]. exists key.
    rewrite lookup_insert_ne; [done|]. intros Et. rewrite <- Et, Hp in Hk. injection Hk as ->. by apply (Hb key id).
  - intros tid' key count bitmask id Hl. other_thread tid; [by eapply Hw|by eapply H8].
  - rewrite map_size_insert_Some; [done|by rewrite Hp].
Qed.

(** A step that changes one queue, which is not removed by it. *)
Lemma update_inv s tid p p' key id q q' :
  inv s -> pcs s !! tid = Some p -> objects (futex s) !! id = Some q ->
  refers p = Some (key, id) -> (refers p' = Some (key, id) \/ refers p' = None) ->
  FutexQueue.m_was_removed q' = FutexQueue.m_was_removed q ->
  FutexQueue.m_imminent_waits q' =
    FutexQueue.m_imminent_waits q - about_to_block id p + about_to_block id p' ->
  (FutexQueue.m_was_removed q = true ->
     FutexQueue.m_blockers q' = [] /\ FutexQueue.m_imminent_waits q' = 0) ->
  (forall b, b ∈ FutexQueue.m_blockers q' -> FutexQueue.m_did_unblock b = false /\
     (FutexQueue.thread b = tid -> exists k, p' = Blocked k id) /\
     (FutexQueue.thread b <> tid -> b ∈ FutexQueue.m_blockers q)) ->
  (forall k count bitmask i, p' = Waking k count bitmask i -> 0 < count /\ fits 32 count) ->
  inv (goto tid p' (set_object (futex s) id q') s).
Proof.
  intros [H1 H2 H3 H4 H5 H6 H7 H8 H9] Hp Hq Hr Hr' Hrem Hcnt Hrm Hbs Hw.
  assert (forall i, i <> id -> about_to_block i p = 0 /\ about_to_block i p' = 0) as Hother.
  { intros i Hi. split.
    - destruct p; try done. simpl in Hr |- *. injection Hr as -> ->. by rewrite decide_False.
    - destruct p'; try done. simpl in Hr' |- *. destruct Hr' as [[= -> ->]|?]; [by rewrite decide_False|done]. }
  constructor; cbn [futex pcs goto set_object objects s_global_futex_queues next_object].
  - intros k i Hk. destruct (H1 k i Hk) as (q1 & Hq1 & Hr1). destruct (decide (i = id)) as [->|Hne].
    + exists q'. rewrite lookup_insert_eq. split; [done|]. rewrite Hq1 in Hq. congruence.
    + exists q1. by rewrite lookup_insert_ne.
  - intros i q1 Hl. destruct (decide (i = id)) as [->|Hne]; [by apply (H2 id q)|].
    rewrite lookup_insert_ne in Hl by done. by apply (H2 i q1).
  - done.
  - assert (forall t0 p0 k i, pcs s !! t0 = Some p0 -> refers p0 = Some (k, i) ->
      exists q1, <[id := q']> (objects (futex s)) !! i = Some q1 /\
        (FutexQueue.m_was_removed q1 = false -> s_global_futex_queues (futex s) !! k = Some i)) as Hgen.
    { intros t0 p0 k i Hl E. destruct (H4 t0 p0 k i Hl E) as (q1 & Hq1 & Hk).
      destruct (decide (i = id)) as [->|Hne].
      - exists q'. rewrite lookup_insert_eq. split; [done|]. rewrite Hq1 in Hq. injection Hq as ->.
        rewrite Hrem. done.
      - exists q1. by rewrite lookup_insert_ne. }
    intros tid' p0 k i Hl E. other_thread tid; [subst p0|by eapply Hgen].
    destruct Hr' as [Hr'|Hr']; [|congruence]. rewrite E in Hr'. injection Hr' as -> ->. by eapply Hgen.
  - intros i q1 Hl. rewrite (msum_update _ _ _ p) by done. destruct (decide (i = id)) as [->|Hne].
    + rewrite lookup_insert_eq in Hl. injection Hl as <-. rewrite Hcnt, (H5 id q Hq). lia.
    + rewrite lookup_insert_ne in Hl by done. destruct (Hother i Hne) as [-> ->]. rewrite (H5 i q1 Hl). lia.
  - intros i q1 Hl E. destruct (decide (i = id)) as [->|Hne].
    + rewrite lookup_insert_eq in Hl. injection Hl as <-. apply Hrm. congruence.
    + rewrite lookup_insert_ne in Hl by done. by eapply H6.
  - intros i q1 b Hl Hin. destruct (decide (i = id)) as [->|Hne].
    + rewrite lookup_insert_eq in Hl. injection Hl as <-. destruct (Hbs b Hin) as (Hd & Ht & Hn).
      split; [done|]. destruct (decide (FutexQueue.thread b = tid)) as [E|E].
      * destruct (Ht E) as [k ->]. exists k. rewrite E. by rewrite lookup_insert_eq.
      * rewrite lookup_insert_ne by done. by apply (H7 id q b Hq), Hn.
    + rewrite lookup_insert_ne in Hl by done. destruct (H7 i q1 b Hl Hin) as [Hd (k & Hk)]. split; [done|].
      exists k. rewrite lookup_insert_ne; [done|]. intros Et. rewrite <- Et, Hp in Hk. injection Hk as ->.
      simpl in Hr. congruence.
  - intros tid' k count bitmask i Hl. other_thread tid; [by eapply Hw|by eapply H8].
  - rewrite map_size_insert_Some; [done|by rewrite Hp].
Qed.

(** A thread that creates a queue. *)
Lemma create_inv s tid address val key bitset :
  inv s -> pcs s !! tid = Some (Checked address val key bitset) ->
  s_global_futex_queues (futex s) !! key = None ->
  let id := next_object (futex s) in
  inv (goto tid (AboutToBlock key bitset id)
        (futexes (<[key := id]> (s_global_futex_queues (futex s))) (<[id := FutexQueue.make]> (objects (futex s)))
           (S id) (memory (futex s)) (woken_threads (futex s))) s).
Proof.
  intros [H1 H2 H3 H4 H5 H6 H7 H8 H9] Hp Hk id.
  assert (objects (futex s) !! id = None) as Hfresh.
  { destruct (objects (futex s) !! id) eqn:E; [|done]. specialize (H2 id _ E). unfold id in H2. lia. }
  assert (forall k i, s_global_futex_queues (futex s) !! k = Some i -> i <> id) as Hne.
  { intros k i E ->. destruct (H1 k id E) as (? & ? & _). congruence. }
  assert (forall t0 p0 k, pcs s !! t0 = Some p0 -> refers p0 <> Some (k, id)) as Hnor.
  { intros t0 p0 k Hl E. destruct (H4 t0 p0 k id Hl E) as (? & ? & _). congruence. }
  constructor; cbn [futex pcs goto objects s_global_futex_queues next_object].
  - intros k i Hl. destruct (decide (k = key)) as [->|Hkk].
    + rewrite lookup_insert_eq in Hl. injection Hl as <-. exists FutexQueue.make. by rewrite lookup_insert_eq.
    + rewrite lookup_insert_ne in Hl by done. destruct (H1 k i Hl) as (q & Hq & Hr). exists q.
      rewrite lookup_insert_ne; [done|]. intros <-. by apply (Hne k id).
  - intros i q Hl. destruct (decide (i = id)) as [->|Hii]; [lia|]. rewrite lookup_insert_ne in Hl by done.
    specialize (H2 i q Hl). unfold id. lia.
  - intros k k' i Hl Hl'. destruct (decide (k = key)) as [->|Hkk], (decide (k' = key)) as [->|Hkk'];
      rewrite ?lookup_insert_eq, ?lookup_insert_ne in Hl by done;
      rewrite ?lookup_insert_eq, ?lookup_insert_ne in Hl' by done; try done.
    + injection Hl as <-. by destruct (Hne k' id).
    + injection Hl' as <-. by destruct (Hne k id).
    + by eapply H3.
  - intros tid' p0 k i Hl E. other_thread tid.
    + subst p0. simpl in E. injection E as <- <-. exists FutexQueue.make. by rewrite !lookup_insert_eq.
    + destruct (H4 tid' p0 k i Hl E) as (q & Hq & Hr). exists q.
      assert (i <> id) by (intros ->; by apply (Hnor tid' p0 k Hl)). rewrite lookup_insert_ne by done.
      split; [done|]. intros Hrm. specialize (Hr Hrm). rewrite lookup_insert_ne; [done|]. congruence.
  - intros i q Hl. rewrite (msum_update _ _ _ (Checked address val key bitset)) by done.
    cbn [about_to_block]. destruct (decide (i = id)) as [->|Hii].
    + rewrite lookup_insert_eq in Hl. injection Hl as <-. rewrite msum_zero; [done|].
      intros t0 p0 Hl. destruct p0; try done. simpl. rewrite decide_False; [done|]. intros <-.
      by apply (Hnor t0 _ key0 Hl).
    + rewrite lookup_insert_ne in Hl by done. rewrite (H5 i q Hl). lia.
  - intros i q Hl. destruct (decide (i = id)) as [->|Hii].
    + rewrite lookup_insert_eq in Hl. by injection Hl as <-.
    + rewrite lookup_insert_ne in Hl by done. by apply (H6 i).
  - intros i q b Hl Hin. destruct (decide (i = id)) as [->|Hii].
    + rewrite lookup_insert_eq in Hl. injection Hl as <-. by apply elem_of_nil in Hin.
    + rewrite lookup_insert_ne in Hl by done. destruct (H7 i q b Hl Hin) as [Hd (k & Hb)]. split; [done|].
      exists k. rewrite lookup_insert_ne; [done|]. intros Et. rewrite <- Et, Hp in Hb. done.
  - intros tid' k count bitmask i Hl. other_thread tid; [done|by eapply H8].
  - rewrite map_size_insert_Some; [done|by rewrite Hp].
Qed.

(** Taking an empty queue out of the table. *)
Lemma remove_inv s key : inv s -> inv (sys (remove_futex_queue key (futex s)) (pcs s)).
Proof.
  intros H. unfold remove_futex_queue.
  destruct (s_global_futex_queues (futex s) !! key) as [id|] eqn:Ek; [|by destruct s].
  pose proof H as [H1 H2 H3 H4 H5 H6 H7 H8 H9]. destruct (H1 key id Ek) as (q & Hq & Hr). rewrite Hq.
  unfold FutexQueue.try_remove. rewrite Hr.
  assert (set_object (futex s) id q = futex s) as Hsame.
  { unfold set_object. rewrite insert_id by done. by destruct (futex s). }
  destruct (FutexQueue.is_empty_and_no_imminent_waits q) eqn:Ee; simpl; [|rewrite Hsame; by destruct s].
  unfold FutexQueue.is_empty_and_no_imminent_waits in Ee. apply andb_prop in Ee as [Ei Eb].
  apply Z.eqb_eq in Ei. destruct (FutexQueue.m_blockers q) eqn:Ebs; [|done].
  set (q' := FutexQueue.queue _ _ true).
  constructor; cbn [futex pcs set_queues set_object objects s_global_futex_queues next_object].
  - intros k i Hl. apply lookup_delete_Some in Hl as [Hkk Hl]. destruct (H1 k i Hl) as (q1 & Hq1 & Hr1).
    exists q1. rewrite lookup_insert_ne; [done|]. intros <-. by apply Hkk, (H3 key k id).
  - intros i q1 Hl. destruct (decide (i = id)) as [->|Hii]; [by apply (H2 id q)|].
    rewrite lookup_insert_ne in Hl by done. by apply (H2 i q1).
  - intros k k' i Hl Hl'. apply lookup_delete_Some in Hl as [_ Hl], Hl' as [_ Hl']. by apply (H3 k k' i).
  - intros t0 p0 k i Hl E. destruct (H4 t0 p0 k i Hl E) as (q1 & Hq1 & Hk).
    destruct (decide (i = id)) as [->|Hii]; [exists q'; by rewrite lookup_insert_eq|].
    exists q1. rewrite lookup_insert_ne by done. split; [done|]. intros Hrm. specialize (Hk Hrm).
    apply lookup_delete_Some. split; [|done]. intros <-. congruence.
  - intros i q1 Hl. destruct (decide (i = id)) as [->|Hii].
    + rewrite lookup_insert_eq in Hl. injection Hl as <-. apply (H5 id q Hq).
    + rewrite lookup_insert_ne in Hl by done. by apply H5.
  - intros i q1 Hl. destruct (decide (i = id)) as [->|Hii].
    + rewrite lookup_insert_eq in Hl. by injection Hl as <-.
    + rewrite lookup_insert_ne in Hl by done. by apply (H6 i).
  - intros i q1 b Hl Hin. destruct (decide (i = id)) as [->|Hii].
    + rewrite lookup_insert_eq in Hl. injection Hl as <-. by apply elem_of_nil in Hin.
    + rewrite lookup_insert_ne in Hl by done. by eapply H7.
  - done.
  - done.
Qed.

(** Only the table, the queues and the threads matter. *)
Lemma inv_ext s f ps :
  inv s -> s_global_futex_queues f = s_global_futex_queues (futex s) -> objects f = objects (futex s) ->
  next_object f = next_object (futex s) -> ps = pcs s -> inv (sys f ps).
Proof.
  intros [? ? ? ? ? ? ? ? ?] E1 E2 E3 ->.
  constructor; cbn [futex pcs]; rewrite ?E1, ?E2, ?E3; assumption.
Qed.

Lemma referred s tid p key id :
  inv s -> pcs s !! tid = Some p -> refers p = Some (key, id) -> exists q, objects (futex s) !! id = Some q.
Proof. intros H Hp E. destruct (i_refers _ H tid p key id Hp E) as (q & ? & _). eauto. Qed.

Lemma checked_step allocated s tid address val key bitset :
  inv s -> pcs s !! tid = Some (Checked address val key bitset) ->
  exists s', thread_step allocated tid s = Some s' /\ inv s'.
Proof.
  intros H Hp. unfold thread_step. rewrite Hp. unfold find_futex_queue. cbn [andb negb].
  destruct (s_global_futex_queues (futex s) !! key) as [id|] eqn:Ek.
  - eexists. split; [done|]. apply (move_inv s tid _ _ H Hp); try done.
    intros k i [= <- <-]. destruct (i_table _ H key id Ek) as (q & Hq & _). eauto.
  - destruct allocated; cbn [negb]; eexists; (split; [done|]).
    + by apply (create_inv s tid address val).
    + by apply (move_inv s tid _ _ H Hp).
Qed.

Lemma found_step allocated s tid address val key bitset id :
  inv s -> pcs s !! tid = Some (Found address val key bitset id) ->
  exists s', thread_step allocated tid s = Some s' /\ inv s'.
Proof.
  intros H Hp. destruct (referred s tid _ key id H Hp eq_refl) as [q Hq].
  unfold thread_step. rewrite Hp. unfold wait_announce, on_queue. rewrite Hq.
  unfold FutexQueue.queue_imminent_wait. destruct (FutexQueue.m_was_removed q) eqn:Er; (eexists; split; [done|]).
  - apply (update_inv s tid (Found address val key bitset id) _ key id q); try done.
    + by right.
    + simpl. lia.
    + intros _. by apply (i_removed _ H id q).
    + intros b Hb. destruct (i_blockers _ H id q b Hq Hb) as [Hd (k & Hk)]. split; [done|]. split; [|done].
      intros E. rewrite E, Hp in Hk. done.
  - assert (FutexQueue.m_imminent_waits q + 1 < 2 ^ 64) as Hlt.
    { rewrite (i_count _ H id q Hq). pose proof (i_threads _ H).
      pose proof (msum_le_size (about_to_block id) (<[tid := AboutToBlock key bitset id]> (pcs s)) (about_bounds id)) as Hle.
      rewrite map_size_insert_Some in Hle by (by rewrite Hp).
      rewrite (msum_update _ _ _ _ _ Hp) in Hle. simpl in Hle. rewrite decide_True in Hle by done. lia. }
    assert (0 <= FutexQueue.m_imminent_waits q) as Hnn.
    { rewrite (i_count _ H id q Hq). apply msum_nonneg. intros. apply about_bounds. }
    apply (update_inv s tid (Found address val key bitset id) _ key id q); try done.
    + by left.
    + cbn [FutexQueue.m_imminent_waits about_to_block]. unfold u64. rewrite wrap_small by (unfold fits; lia).
      rewrite decide_True by done. lia.
    + by rewrite Er.
    + intros b Hb. destruct (i_blockers _ H id q b Hq Hb) as [Hd (k & Hk)]. split; [done|]. split; [|done].
      intros E. rewrite E, Hp in Hk. done.
Qed.

Lemma about_step allocated s tid key bitset id :
  inv s -> pcs s !! tid = Some (AboutToBlock key bitset id) ->
  exists s', thread_step allocated tid s = Some s' /\ inv s'.
Proof.
  intros H Hp. destruct (referred s tid _ key id H Hp eq_refl) as [q Hq].
  assert (0 < FutexQueue.m_imminent_waits q) as Hpos.
  { rewrite (i_count _ H id q Hq). pose proof (msum_member (about_to_block id) (pcs s) tid _
      (fun b => proj1 (about_bounds id b)) Hp) as Hm. simpl in Hm. rewrite decide_True in Hm by done. lia. }
  assert (FutexQueue.m_was_removed q = false) as Er.
  { destruct (FutexQueue.m_was_removed q) eqn:Er; [|done]. destruct (i_removed _ H id q Hq Er). lia. }
  unfold thread_step. rewrite Hp. unfold wait_on, on_queue. rewrite Hq. unfold FutexQueue.add_blocker.
  rewrite (proj2 (Z.leb_gt _ _) Hpos). simpl. rewrite Er. eexists. split; [done|].
  apply (update_inv s tid (AboutToBlock key bitset id) _ key id q); try done.
  - by left.
  - simpl. rewrite decide_True by done. lia.
  - by rewrite Er.
  - intros b. simpl. rewrite elem_of_app, list_elem_of_singleton. intros [Hb| ->].
    + destruct (i_blockers _ H id q b Hq Hb) as [Hd (k & Hk)]. split; [done|]. split; [|done].
      intros E. rewrite E, Hp in Hk. done.
    + split; [done|]. split; [eauto|done].
Qed.

Lemma blocked_step allocated s tid key id :
  inv s -> pcs s !! tid = Some (Blocked key id) ->
  exists s', thread_step allocated tid s = Some s' /\ inv s'.
Proof.
  intros H Hp. destruct (referred s tid _ key id H Hp eq_refl) as [q Hq].
  unfold thread_step. rewrite Hp. unfold wait_end, on_queue. rewrite Hq. eexists. split; [done|].
  apply (update_inv s tid (Blocked key id) _ key id q); try done.
  - by left.
  - simpl. lia.
  - intros Er. destruct (i_removed _ H id q Hq Er) as [E1 E2]. simpl. rewrite E1. by rewrite filter_nil.
  - intros b. simpl. rewrite list_elem_of_filter. intros [Hne Hb]. split; [by eapply i_blockers|]. split; [done|done].
Qed.

Lemma returning_step allocated s tid key id :
  inv s -> pcs s !! tid = Some (Returning key id) ->
  exists s', thread_step allocated tid s = Some s' /\ inv s'.
Proof.
  intros H Hp. destruct (referred s tid _ key id H Hp eq_refl) as [q Hq].
  unfold thread_step. rewrite Hp. unfold wait_is_last, on_queue. rewrite Hq. eexists. split; [done|].
  apply (update_inv s tid (Returning key id) _ key id q); try done.
  - right. by destruct (FutexQueue.is_empty_and_no_imminent_waits q).
  - destruct (FutexQueue.is_empty_and_no_imminent_waits q); simpl; lia.
  - by apply (i_removed _ H id q).
  - intros b Hb. destruct (i_blockers _ H id q b Hq Hb) as [Hd (k & Hk)]. split; [done|]. split; [|done].
    intros E. rewrite E, Hp in Hk. done.
  - by destruct (FutexQueue.is_empty_and_no_imminent_waits q).
Qed.

Lemma queue_waiting s id q : inv s -> objects (futex s) !! id = Some q -> FutexQueue.waiting (FutexQueue.m_blockers q).
Proof. intros H Hq. apply Forall_forall. intros b Hb. by destruct (i_blockers _ H id q b Hq Hb). Qed.

Lemma waking_step allocated s tid key count bitmask id :
  inv s -> pcs s !! tid = Some (Waking key count bitmask id) ->
  exists s', thread_step allocated tid s = Some s' /\ inv s'.
Proof.
  intros H Hp. destruct (referred s tid _ key id H Hp eq_refl) as [q Hq].
  destruct (i_waking _ H tid key count bitmask id Hp) as [Hc Hf].
  unfold thread_step. rewrite Hp. unfold wake_queue, abind, on_queue. rewrite Hq.
  rewrite (FutexQueue.wake_n_ok count bitmask q (queue_waiting s id q H Hq) Hc Hf). cbn [bind].
  eexists. split; [reflexivity|]. set (q' := FutexQueue.set_blockers q _).
  set (p' := if FutexQueue.is_empty_and_no_imminent_waits q' then _ else _).
  apply (inv_ext (goto tid p' (set_object (futex s) id q') s)); try done.
  apply (update_inv s tid (Waking key count bitmask id) _ key id q); try done.
  - right. unfold p'. by case_match.
  - unfold p'. case_match; simpl; lia.
  - intros Er. destruct (i_removed _ H id q Hq Er) as [E1 E2]. unfold q'. simpl. by rewrite E1.
  - intros b Hb. assert (b ∈ FutexQueue.m_blockers q) as Hb'.
    { eapply elem_of_sublist; [exact Hb|]. apply FutexQueue.without_first_sublist. }
    destruct (i_blockers _ H id q b Hq Hb') as [Hd (k & Hk)]. split; [done|]. split; [|done].
    intros E. rewrite E, Hp in Hk. done.
  - unfold p'. by case_match.
Qed.

Lemma thread_step_ok allocated tid s :
  inv s -> exists s', thread_step allocated tid s = Some s' /\ inv s'.
Proof.
  intros H. destruct (pcs s !! tid) as [p|] eqn:Hp; [|exists s; unfold thread_step; by rewrite Hp].
  destruct p.
  - exists s. unfold thread_step. by rewrite Hp.
  - unfold thread_step. rewrite Hp.
    destruct (wait_check address val (futex s)); eexists; (split; [done|]); by apply (move_inv s tid _ _ H Hp).
  - by eapply checked_step.
  - by eapply found_step.
  - by eapply about_step.
  - by eapply blocked_step.
  - by eapply returning_step.
  - by eapply waking_step.
  - unfold thread_step. rewrite Hp. eexists. split; [done|].
    apply (move_inv (sys (remove_futex_queue key (futex s)) (pcs s)) tid (Removing key)); try done.
    by apply remove_inv.
Qed.

Lemma step_ok s o : inv s -> step s o -> exists s', o = Some s' /\ inv s'.
Proof.
  intros H Hs. destruct Hs as [allocated tid|tid address val key bitset Hp|tid key count bitmask Hp Hc Hf|m].
  - by apply thread_step_ok.
  - eexists. split; [done|]. by apply (move_inv s tid _ _ H Hp).
  - eexists. split; [done|]. unfold find_futex_queue. cbn [andb negb].
    destruct (s_global_futex_queues (futex s) !! key) as [id|] eqn:Ek.
    + apply (move_inv s tid _ _ H Hp); try done.
      * intros k i [= <- <-]. destruct (i_table _ H key id Ek) as (q & Hq & _). eauto.
      * by intros k c' b i [= <- <- <- <-].
    + by apply (move_inv s tid _ _ H Hp).
  - eexists. split; [done|]. by apply (inv_ext s).
Qed.

Lemma initial_inv s : initial s -> inv s.
Proof.
  intros (E1 & E2 & Hr & Hsz). constructor; try done; rewrite ?E1, ?E2;
    try (intros; rewrite lookup_empty in *; done).
  - intros tid p key id Hp E. specialize (Hr tid p Hp). by subst.
  - intros tid key count bitmask id Hp. specialize (Hr _ _ Hp). done.
Qed.

Lemma reachable_inv s0 o : initial s0 -> reachable s0 o -> exists s, o = Some s /\ inv s.
Proof.
  intros H0. induction 1 as [|s o Hr IH Hs]; [exists s0; split; [done|by apply initial_inv]|].
  destruct IH as (s1 & [= ->] & Hi). by apply (step_ok s1).
Qed.

(** ** Wake-ups reach the threads that wait *)

Lemma do_wake_ok s key id q count :
  inv s -> s_global_futex_queues (futex s) !! key = Some id -> objects (futex s) !! id = Some q ->
  0 < count -> fits 32 count ->
  exists f', do_wake (Ok key) count None (futex s) =
      (f', Ok (len (take (Z.to_nat count) (FutexQueue.m_blockers q)))) /\
    woken_threads f' = woken_threads (futex s) ++
      map FutexQueue.thread (take (Z.to_nat count) (FutexQueue.m_blockers q)).
Proof.
  intros H Hk Hq Hc Hf. unfold do_wake. rewrite (proj2 (Z.eqb_neq _ _)) by lia.
  unfold find_futex_queue, wake_queue, on_queue, lift, abind. cbn [andb negb]. rewrite Hk, Hq.
  rewrite (FutexQueue.wake_n_ok count None q (queue_waiting s id q H Hq) Hc Hf). cbn [bind].
  assert (filter (fun b => FutexQueue.matches None b = true) (FutexQueue.m_blockers q) = FutexQueue.m_blockers q) as ->.
  { induction (FutexQueue.m_blockers q) as [|b bs IH]; [done|]. by rewrite filter_cons_True, IH. }
  set (q' := FutexQueue.set_blockers q _). unfold modify. cbn [FutexQueue.threads FutexQueue.did_wake].
  destruct (FutexQueue.is_empty_and_no_imminent_waits q'); (eexists; split; [reflexivity|]); [|done].
  unfold remove_futex_queue. cbn [add_woken set_object s_global_futex_queues objects]. rewrite Hk, lookup_insert_eq.
  destruct (FutexQueue.try_remove q') as [q'' []]; done.
Qed.

(** ** Keys *)

(** The word a futex is about. *)
Inductive Word : Type :=
| Private (address_space address : Z)
| Shared (vmobject offset : Z).

Definition word_of {T : Type} `{!OrderedTree T Region.Region} (address_space : Z) (space : AddressSpace.t T)
    (user_address : Z) (shared : bool) : Word :=
  match AddressSpace.view space user_address with
  | Some v => if shared && AddressSpace.v_shared v
              then Shared (Region.vm_id (AddressSpace.v_vmobject v)) (AddressSpace.v_offset v)
              else Private address_space user_address
  | None => Private address_space user_address
  end.

Definition key_of_word (w : Word) : Key :=
  match w with Private space address => (space, address + 1) | Shared vmobject offset => (vmobject, offset) end.

(** Regions begin at a page of their memory object. *)
Definition offsets_aligned {T : Type} `{!OrderedTree T Region.Region} (s : AddressSpace.t T) : Prop :=
  forall k r, (k, r) ∈ AddressSpace.elems s -> Region.m_offset_in_vmobject r mod PAGE_SIZE = 0.

Lemma private_key_word space a : Z.land a 3 = 0 -> private_key space a = key_of_word (Private space a).
Proof.
  intros Ha. unfold private_key, futex_key_private_flag. simpl. f_equal.
  rewrite <- Z.lxor_lor, <- Z.add_nocarry_lxor; [done| |]; change 1 with (Z.land 3 1); rewrite Z.land_assoc, Ha; done.
Qed.

Section Keys.
Context {T : Type} `{!OrderedTree T Region.Region} `{!OrderedTreeLaws T Region.Region}.

Lemma get_futex_key_word env space (s : AddressSpace.t T) a shared k :
  AddressSpace.inv env s -> fits 64 a -> get_futex_key env space s a shared = Ok k ->
  k = key_of_word (word_of space s a shared) /\ a mod 4 = 0 /\
  (offsets_aligned s -> forall v o, word_of space s a shared = Shared v o -> o mod 4 = 0).
Proof.
  intros H Ha. unfold get_futex_key. destruct (Z.eqb_spec (Z.land a 3) 0) as [El|]; [|done]. cbn [negb].
  assert (a mod 4 = 0) as Hm by (rewrite <- El; change 3 with (Z.ones 2); by rewrite Z.land_ones).
  destruct (Region.is_user_range env (VirtualRange.mk a 4)) eqn:Eu; [cbn [negb]|done].
  rewrite !(private_key_word space a El).
  assert (VirtualRange.wf (VirtualRange.mk a 4)) as Hwf.
  { unfold Region.is_user_range in Eu. cbn [VirtualRange.m_base VirtualRange.m_size] in Eu.
    destruct (Z.ltb_spec (u64 (a + 4)) a) as [|Hge]; [done|]. unfold VirtualRange.wf. simpl.
    destruct Ha. split; [done|]. split; [done|]. apply Z.nle_gt. intros Hge'.
    unfold u64 in Hge. rewrite wrap_over in Hge by (unfold fits; lia). lia. }
  destruct shared; cbn [negb].
  2: { intros [= <-]. unfold word_of. destruct (AddressSpace.view s a); done. }
  destruct (AddressSpace.find_region_containing s (VirtualRange.mk a 4)) as [r|] eqn:Er; [|done].
  apply RegionTree.lookup_range_ok in Er as (kk & Hin & Hlo & Hhi); [|apply H|done|done]. simpl in Hlo, Hhi.
  assert (AddressSpace.view s a = Some (AddressSpace.view_of r a)) as Ev.
  { apply (AddressSpace.view_in env s kk); [done|done|]. unfold VirtualRange.within. lia. }
  unfold word_of. rewrite Ev. cbn [AddressSpace.v_shared AddressSpace.view_of andb].
  destruct (Region.m_shared r) eqn:Es; cbn [negb]; [|intros [= <-]; done].
  destruct (_ && _); [done|]. intros [= <-].
  assert (offset_in_vmobject_from_vaddr r a = AddressSpace.offset_of r a) as Eo.
  { unfold offset_in_vmobject_from_vaddr, AddressSpace.offset_of, u64. rewrite wrap_add_r. f_equal. lia. }
  rewrite Eo. split; [done|]. split; [done|]. intros Hal v o [= <- <-]. rewrite <- Eo.
  specialize (Hal kk r Hin). pose proof (Region.ok_pages _ (AddressSpace.s_regions _ s H _ _ Hin)) as [Hp _].
  unfold offset_in_vmobject_from_vaddr, u64, wrap, Region.vaddr, PAGE_SIZE in *.
  change (2 ^ 64) with (4 * 2 ^ 62). rewrite Z.rem_mul_r by lia. zdiv.
Qed.

End Keys.

End Futex.



(** ** Samples *)

#[local] Open Scope Z_scope.
#[local] Existing Instances RegionTree.sorted_tree RegionTree.sorted_tree_laws.

Definition futex_sample : Futex.system :=
  Futex.sys (Futex.futexes ∅ ∅ 0 {[0x20000 := 5]} []) {[1 := Futex.Running; 2 := Futex.Running]}.

Lemma futex_sample_initial : Futex.initial futex_sample.
Proof.
  split; [done|]. split; [done|]. split; [|done]. intros tid p. simpl. intros H.
  apply lookup_insert_Some in H as [[_ <-]|[_ H]]; [done|]. by apply lookup_singleton_Some in H as [_ <-].
Qed.

Definition advance (tid : Z) (o : option Futex.system) : option Futex.system :=
  match o with Some s => Futex.thread_step true tid s | None => None end.

Lemma reachable_advance s0 tid o : Futex.reachable s0 o -> o <> None -> Futex.reachable s0 (advance tid o).
Proof. destruct o as [s|]; [|done]. intros H _. apply (Futex.reach_step _ s); [done|apply Futex.step_thread]. Qed.

(** Thread 1 waits for the word at 0x20000 to change from 5: it checks the word,
    creates the queue and blocks. *)
Definition futex_sample_waits : option Futex.system :=
  advance 1 (advance 1 (advance 1 (Some (Futex.goto 1 (Futex.Checking 0x20000 5 (7, 0x20001) 0)
    (Futex.futex futex_sample) futex_sample)))).

Lemma futex_sample_reachable : Futex.reachable futex_sample futex_sample_waits.
Proof.
  do 3 (apply reachable_advance; [|by vm_compute]).
  apply (Futex.reach_step _ futex_sample); [apply Futex.reach_refl|by apply Futex.step_wait].
Qed.



(** ** What the code does not mean to do *)

(** Two threads wait on one key. *)
Definition two_waiters : Futex.t :=
  Futex.futexes {[(7, 1) := 0%nat]}
    {[0%nat := FutexQueue.queue [FutexQueue.blocker 1 0 false; FutexQueue.blocker 2 0 false] 0 false]}
    1 {[0 := 5]} [].

(** [FUTEX_REQUEUE] panics as soon as there is a thread to move: [do_requeue] asks
    for the target queue to be created without a place for [did_create]. *)
Lemma requeue_panics :
  snd (Futex.do_requeue true 0 (Ok (7, 1)) (Ok (7, 5)) 1 1 None two_waiters) = Panic.
Proof. reflexivity. Qed.

(** An operation with [FUTEX_OP_ARG_SHIFT] never happens: the flag is kept and the
    operation is cleared, not the other way round. *)
Lemma shifted_operation_fails address2 futex_key futex_key2 val val2 val3 s :
  Z.land (Futex.FUTEX_OP_of val3) Futex.FUTEX_OP_ARG_SHIFT <> 0 -> Futex.FUTEX_OP_ARG_of val3 < 32 ->
  Futex.wake_op address2 futex_key futex_key2 val val2 val3 s = (s, Err EINVAL).
Proof.
  intros H1 H2. unfold Futex.wake_op. rewrite (proj2 (Z.eqb_neq _ _) H1), (proj2 (Z.leb_gt _ _) H2). cbn [negb andb].
  assert (Z.land (Futex.FUTEX_OP_of val3) Futex.FUTEX_OP_ARG_SHIFT = 8) as ->; [|done].
  apply Z.bits_inj'. intros i Hi. rewrite Z.land_spec.
  destruct (Z.eq_dec i 3) as [->|Hn].
  - destruct (Z.testbit (Futex.FUTEX_OP_of val3) 3) eqn:E; [done|]. destruct H1. apply Z.bits_inj'. intros j Hj.
    rewrite Z.land_spec, Z.bits_0. destruct (Z.eq_dec j 3) as [->|]; [by rewrite E|].
    change 8 with (2 ^ 3). by rewrite Z.pow2_bits_false, andb_false_r.
  - change 8 with (2 ^ 3). by rewrite Z.pow2_bits_false, andb_false_r by lia.
Qed.

(** A thread that waits for any bit, by [FUTEX_WAIT] or by [FUTEX_WAIT_BITSET] with
    [FUTEX_BITSET_MATCH_ANY], waits with no bit: no [FUTEX_WAKE_BITSET] wakes it. *)
Lemma wait_any_misses_wake_bitset (tid bits : Z) :
  Futex.decode Futex.FUTEX_WAIT_BITSET FutexQueue.FUTEX_BITSET_MATCH_ANY = Ok (Futex.Wait 0) /\
  (bits <> FutexQueue.FUTEX_BITSET_MATCH_ANY ->
   FutexQueue.matches (Some bits) (FutexQueue.blocker tid 0 false) = false).
Proof.
  split; [reflexivity|]. intros Hb. unfold FutexQueue.matches. simpl.
  destruct (Z.eqb_spec bits FutexQueue.FUTEX_BITSET_MATCH_ANY); try done; by rewrite ?Z.land_0_r, ?Z.land_0_l.
Qed.
