(* ===== verification/Fifo.v ===== *)
(** Pipes, [Kernel/FileSystem/FIFO.cpp], with the blocker set of a file in
    [Kernel/FileSystem/File.h] and the reading and writing system calls on top. *)

From S2P Require Import Prelude BlockerSet DoubleBuffer WaitQueue.

Module FIFO.
#[local] Open Scope Z_scope.

(** [Thread::FileBlocker::BlockFlags] *)
Abbreviation None_ := 0%Z (only parsing).
Abbreviation Read := (Z.shiftl 1 0)%Z (only parsing).
Abbreviation Write := (Z.shiftl 1 1)%Z (only parsing).
Abbreviation Accept := (Z.shiftl 1 4)%Z (only parsing).
Abbreviation Connect := (Z.shiftl 1 5)%Z (only parsing).
Abbreviation SocketFlags := (Z.lor Accept Connect)%Z (only parsing).
Abbreviation WriteError := (Z.shiftl 1 6)%Z (only parsing).
Abbreviation WriteHangUp := (Z.shiftl 1 7)%Z (only parsing).
Abbreviation ReadHangUp := (Z.shiftl 1 8)%Z (only parsing).
Abbreviation Exception := (Z.lor (Z.lor WriteError WriteHangUp) ReadHangUp)%Z (only parsing).

Definition has_flag (value mask : Z) : bool := Z.land value mask =? mask.
Definition has_any_flag (value mask : Z) : bool := negb (Z.land value mask =? 0).

(** The flags of a [ReadBlocker] and of a [WriteBlocker]. *)
Definition read_flags : Z := Z.lor Read Exception.
Definition write_flags : Z := Z.lor Write Exception.

Inductive Direction : Type := Neither | Reader | Writer.

#[export] Instance Direction_eq_dec : EqDecision Direction.
Proof. solve_decision. Defined.

(** What a pipe needs to know of an open file description. *)
Record Description : Type := description { fifo_direction : Direction; is_blocking : bool }.

(** [OpenFileDescriptionBlocker]; the result flags are those of the caller. *)
Record Blocker : Type := blocker { thread : Z; m_flags : Z; m_did_unblock : bool }.

(** The pipe, the descriptions that are open on it, and the threads that were
    unblocked with the flags they were told. *)
Record t (Q : Type) : Type := fifo {
  m_writers : Z;
  m_readers : Z;
  m_buffer : Q;
  m_attach_count : Z;
  m_blockers : list Blocker;
  descriptions : gmap Z Description;
  next_description : Z;
  unblocked : list (Z * Z)
}.
Arguments fifo {Q} _ _ _ _ _ _ _ _.
Arguments m_writers {Q} _.
Arguments m_readers {Q} _.
Arguments m_buffer {Q} _.
Arguments m_attach_count {Q} _.
Arguments m_blockers {Q} _.
Arguments descriptions {Q} _.
Arguments next_description {Q} _.
Arguments unblocked {Q} _.

Section FIFO.
Context {Q : Type} `{!ByteQueue Q} `{!ByteQueueLaws Q}.

Definition set_counts (s : t Q) (writers readers attached : Z) : t Q :=
  fifo writers readers (m_buffer s) attached (m_blockers s) (descriptions s) (next_description s) (unblocked s).
Definition set_buffer (s : t Q) (buffer : Q) : t Q :=
  fifo (m_writers s) (m_readers s) buffer (m_attach_count s) (m_blockers s) (descriptions s)
    (next_description s) (unblocked s).
Definition set_blockers (s : t Q) (bs : list Blocker) (woken : list (Z * Z)) : t Q :=
  fifo (m_writers s) (m_readers s) (m_buffer s) (m_attach_count s) bs (descriptions s)
    (next_description s) woken.
Definition set_descriptions (s : t Q) (ds : gmap Z Description) (next : Z) : t Q :=
  fifo (m_writers s) (m_readers s) (m_buffer s) (m_attach_count s) (m_blockers s) ds next (unblocked s).

Definition can_read (s : t Q) : bool := negb (queue_is_empty (m_buffer s)) || (m_writers s =? 0).
Definition can_write (s : t Q) : bool := negb (queue_space (m_buffer s) =? 0) || (m_readers s =? 0).

(** [OpenFileDescription::should_unblock] on a pipe, which is not a socket. *)
Definition should_unblock (s : t Q) (block_flags : Z) : outcome Z :=
  let unblock_flags := None_ in
  let unblock_flags := if has_flag block_flags Read && can_read s then Z.lor unblock_flags Read else unblock_flags in
  let unblock_flags := if has_flag block_flags Write && can_write s then Z.lor unblock_flags Write else unblock_flags in
  VERIFY (negb (has_any_flag block_flags SocketFlags)) ;;
  Ok unblock_flags.

(** Whether the blocker was unblocked, the blocker, and the flags it is told. *)
Definition unblock_if_conditions_are_met (s : t Q) (b : Blocker) : outcome (bool * Blocker * Z) :=
  let! unblock_flags := should_unblock s (m_flags b) in
  if unblock_flags =? None_ then Ok (false, b, None_) else
  if m_did_unblock b then Ok (false, b, None_) else
  Ok (true, blocker (thread b) (m_flags b) true, unblock_flags).

Definition unblock_callback (s : t Q) (b : Blocker) (woken : list (Z * Z))
    : outcome (bool * bool * Blocker * list (Z * Z)) :=
  let! (did, b', flags) := unblock_if_conditions_are_met s b in
  Ok (did, false, b', if did then woken ++ [(thread b, flags)] else woken).

Definition unblock_all_blockers_whose_conditions_are_met (s : t Q) : outcome (t Q) :=
  let! (bs, woken, _) := BlockerSet.unblock_all_locked (unblock_callback s) (m_blockers s) (unblocked s) in
  Ok (set_blockers s bs woken).

Definition evaluate_block_conditions : action (t Q) unit :=
  fun s => match unblock_all_blockers_whose_conditions_are_met s with
           | Ok s' => (s', Ok tt)
           | Err e => (s, Err e)
           | Panic => (s, Panic)
           | Undefined => (s, Undefined)
           end.

(** [BlockerSet::add_blocker] with [FileBlockerSet::should_add_blocker]: whether the
    thread blocks, and if it does not the flags it is told. *)
Definition add_blocker (b : Blocker) : action (t Q) (option Z) :=
  let* s := gets (fun s => s) in
  let* (met, b', flags) := lift (unblock_if_conditions_are_met s b) in
  if met then ret (Some flags) else
  let* _ := modify (fun s => set_blockers s (m_blockers s ++ [b']) (unblocked s)) in
  ret None.

Definition remove_blocker (thread_id : Z) : action (t Q) unit :=
  modify (fun s => set_blockers s (filter (fun b => thread b <> thread_id) (m_blockers s)) (unblocked s)).

(** The buffer calls back as its last action, so what it calls runs when it is
    done. *)
Definition with_buffer {A : Type} (m : action Q A) : action (t Q) A :=
  fun s =>
    let '(q, o) := m (m_buffer s) in
    let s' := set_buffer s q in
    if decide (queue_callbacks q = queue_callbacks (m_buffer s)) then (s', o) else
    match evaluate_block_conditions s' with
    | (s', Ok _) => (s', o)
    | (s', Err e) => (s', Err e)
    | (s', Panic) => (s', Panic)
    | (s', Undefined) => (s', Undefined)
    end.

(** [File::attach] and the count of the direction, as [open_direction] calls them. *)
Definition open_direction (allocated : bool) (direction : Direction) (blocking : bool) : action (t Q) Z :=
  if negb allocated then lift (Err ENOMEM) else
  let* id := gets next_description in
  let* _ := modify (fun s => set_counts s (m_writers s) (m_readers s) (u64 (m_attach_count s + 1))) in
  let* _ := modify (fun s =>
    match direction with
    | Reader => set_counts s (m_writers s) (u32 (m_readers s + 1)) (m_attach_count s)
    | Writer => set_counts s (u32 (m_writers s + 1)) (m_readers s) (m_attach_count s)
    | Neither => s
    end) in
  let* _ := evaluate_block_conditions in
  let* _ := modify (fun s => set_descriptions s (<[id := description direction blocking]> (descriptions s)) (id + 1)) in
  ret id.

(** The last reference to a description goes away. *)
Definition detach (id : Z) : action (t Q) unit :=
  let* d := gets (fun s => descriptions s !! id) in
  match d with
  | None => lift Undefined
  | Some d =>
      let* _ := modify (fun s => set_counts s (m_writers s) (m_readers s) (u64 (m_attach_count s - 1))) in
      let* s := gets (fun s => s) in
      let* _ := match fifo_direction d with
                | Reader =>
                    let* _ := lift (VERIFY (negb (m_readers s =? 0)) ;; Ok tt) in
                    modify (fun s => set_counts s (m_writers s) (u32 (m_readers s - 1)) (m_attach_count s))
                | Writer =>
                    let* _ := lift (VERIFY (negb (m_writers s =? 0)) ;; Ok tt) in
                    modify (fun s => set_counts s (u32 (m_writers s - 1)) (m_readers s) (m_attach_count s))
                | Neither => ret tt
                end in
      let* _ := evaluate_block_conditions in
      modify (fun s => set_descriptions s (delete id (descriptions s)) (next_description s))
  end.

(** The bytes that were read; [writable] says whether the memory of the reader can
    be written. *)
Definition read (d : Description) (writable : bool) (size : Z) : action (t Q) (list Z) :=
  let* s := gets (fun s => s) in
  if queue_is_empty (m_buffer s) && (m_writers s =? 0) then ret [] else
  if queue_is_empty (m_buffer s) && negb (is_blocking d) then lift (Err EAGAIN) else
  with_buffer (queue_read writable size).

Definition write (d : Description) (source : Source) (size : Z) : action (t Q) Z :=
  let* s := gets (fun s => s) in
  if m_readers s =? 0 then lift (Err EPIPE) else
  if negb (is_blocking d) && (queue_space (m_buffer s) =? 0) then lift (Err EAGAIN) else
  with_buffer (queue_write source size).

(** ** Sequences of operations *)

(** The calls that reach a pipe.  [Block] is a thread that blocks in
    [check_blocked_read] or [do_write], [Interrupt] a blocked thread that a signal
    wakes. *)
Inductive op : Type :=
| Open (allocated : bool) (direction : Direction) (blocking : bool)
| Close (id : Z)
| ReadFrom (id : Z) (writable : bool) (size : Z)
| WriteTo (id : Z) (source : Source) (size : Z)
| Block (thread : Z) (flags : Z)
| Interrupt (thread : Z).

Definition op_ok (o : op) : Prop :=
  match o with
  | ReadFrom _ _ size => 0 <= size
  | WriteTo _ source size => source_ok source /\ 0 <= size
  | Block _ flags => flags = read_flags \/ flags = write_flags
  | _ => True
  end.

(** No read fails because the memory of the reader cannot be written. *)
Definition no_fault (o : op) : Prop := match o with ReadFrom _ writable _ => writable = true | _ => True end.

(** What went through the pipe, and the threads that began to block and that were
    interrupted. *)
Record trace : Type := tr { went_in : list Z; came_out : list Z; parked : list Z; interrupted : list Z }.

Definition run_op (o : op) (s : t Q) (h : trace) : option (t Q * trace) :=
  match o with
  | Open allocated direction blocking =>
      match open_direction allocated direction blocking s with
      | (s', Ok _) | (s', Err _) => Some (s', h)
      | _ => None
      end
  | Close id =>
      match descriptions s !! id with
      | None => Some (s, h)
      | Some _ => match detach id s with (s', Ok _) => Some (s', h) | _ => None end
      end
  | ReadFrom id writable size =>
      match descriptions s !! id with
      | None => Some (s, h)
      | Some d =>
          match read d writable size s with
          | (s', Ok bytes) => Some (s', tr (went_in h) (came_out h ++ bytes) (parked h) (interrupted h))
          | (s', Err _) => Some (s', h)
          | _ => None
          end
      end
  | WriteTo id source size =>
      match descriptions s !! id with
      | None => Some (s, h)
      | Some d =>
          match write d source size s with
          | (s', Ok n) => Some (s', tr (went_in h ++ (if size =? 0 then [] else fst (source n))) (came_out h)
                                      (parked h) (interrupted h))
          | (s', Err _) => Some (s', h)
          | _ => None
          end
      end
  | Block thread flags =>
      match add_blocker (blocker thread flags false) s with
      | (s', Ok None) => Some (s', tr (went_in h) (came_out h) (parked h ++ [thread]) (interrupted h))
      | (s', Ok (Some _)) => Some (s', h)
      | _ => None
      end
  | Interrupt tid =>
      let gone := filter (fun b => thread b = tid) (m_blockers s) in
      match remove_blocker tid s with
      | (s', Ok _) => Some (s', tr (went_in h) (came_out h) (parked h) (interrupted h ++ map thread gone))
      | _ => None
      end
  end.

Fixpoint run (ops : list op) (s : t Q) (h : trace) : option (t Q * trace) :=
  match ops with
  | [] => Some (s, h)
  | o :: ops => match run_op o s h with Some (s, h) => run ops s h | None => None end
  end.

(** ** The invariant *)

Definition is_direction (d : Direction) (x : Description) : Z :=
  if decide (fifo_direction x = d) then 1 else 0.

Definition count (d : Direction) (s : t Q) : Z := msum (is_direction d) (descriptions s).

(** A blocker whose condition is met. *)
Definition met (s : t Q) (b : Blocker) : bool :=
  if m_flags b =? read_flags then can_read s else can_write s.

Definition blockers_ok (bs : list Blocker) : Prop :=
  Forall (fun b => m_did_unblock b = false /\ (m_flags b = read_flags \/ m_flags b = write_flags)) bs.

Definition readers_wait (s : t Q) : Prop :=
  forall b, b ∈ m_blockers s -> m_flags b = read_flags -> can_read s = false.
Definition writers_wait (s : t Q) : Prop :=
  forall b, b ∈ m_blockers s -> m_flags b = write_flags -> can_write s = false.

Record inv (s : t Q) (h : trace) : Prop := {
  f_queue : queue_ok (m_buffer s);
  f_hooked : queue_callbacks (m_buffer s) <> None;
  f_readers : m_readers s = count Reader s;
  f_writers : m_writers s = count Writer s;
  f_fresh : forall id d, descriptions s !! id = Some d -> id < next_description s;
  f_blockers : blockers_ok (m_blockers s);
  f_stream : went_in h = came_out h ++ queue_contents (m_buffer s);
  f_parked : parked h ≡ₚ map thread (m_blockers s) ++ map fst (unblocked s) ++ interrupted h;
  f_reading : readers_wait s
}.

(** ** Evaluating the conditions *)

Lemma read_not_write : read_flags <> write_flags.
Proof. done. Qed.

Lemma unblock_met s b :
  m_did_unblock b = false -> m_flags b = read_flags \/ m_flags b = write_flags ->
  exists b' flags, unblock_if_conditions_are_met s b = Ok (met s b, b', flags) /\ (met s b = false -> b' = b).
Proof.
  intros Hd [Hf|Hf]; unfold unblock_if_conditions_are_met, should_unblock, met; rewrite Hf, Hd;
    change (has_flag read_flags Read) with true; change (has_flag read_flags Write) with false;
    change (has_flag write_flags Read) with false; change (has_flag write_flags Write) with true;
    change (has_any_flag read_flags SocketFlags) with false; change (has_any_flag write_flags SocketFlags) with false;
    change (write_flags =? read_flags) with false; change (read_flags =? read_flags) with true;
    [destruct (can_read s)|destruct (can_write s)]; eexists _, _; (split; [reflexivity|done]).
Qed.

Lemma unblock_loop s bs woken :
  blockers_ok bs ->
  exists woken' any, BlockerSet.unblock_all_locked (unblock_callback s) bs woken =
      Ok (filter (fun b => met s b = false) bs, woken', any) /\
    map fst woken' = map fst woken ++ map thread (filter (fun b => met s b = true) bs).
Proof.
  intros H. revert woken. induction H as [|b bs [Hd Hf] H IH]; intros woken.
  { exists woken, false. split; [done|]. by rewrite app_nil_r. }
  destruct (unblock_met s b Hd Hf) as (b' & flags & E & Hb'). cbn [BlockerSet.unblock_all_locked].
  unfold unblock_callback at 1. rewrite E. cbn [bind]. rewrite !filter_cons.
  destruct (met s b) eqn:Em.
  - destruct (IH (woken ++ [(thread b, flags)])) as (woken' & any & -> & Hw). cbn [bind].
    eexists _, _. split; [reflexivity|]. rewrite Hw. rewrite map_app, <- app_assoc. done.
  - rewrite (Hb' eq_refl). destruct (IH woken) as (woken' & any & -> & Hw). cbn [bind].
    eexists _, _. split; [reflexivity|]. done.
Qed.

Lemma filter_split (p : Blocker -> bool) (bs : list Blocker) :
  map thread bs ≡ₚ map thread (filter (fun b => p b = false) bs) ++ map thread (filter (fun b => p b = true) bs).
Proof.
  induction bs as [|b bs IH]; [done|]. rewrite !filter_cons. destruct (p b); simpl.
  - by rewrite <- Permutation_middle, IH.
  - by rewrite IH.
Qed.

(** What [evaluate_block_conditions] leaves. *)
Lemma evaluate_ok s :
  blockers_ok (m_blockers s) ->
  exists bs woken, evaluate_block_conditions s = (set_blockers s bs woken, Ok tt) /\
    blockers_ok bs /\ readers_wait (set_blockers s bs woken) /\ writers_wait (set_blockers s bs woken) /\
    map thread (m_blockers s) ++ map fst (unblocked s) ≡ₚ map thread bs ++ map fst woken.
Proof.
  intros H. unfold evaluate_block_conditions, unblock_all_blockers_whose_conditions_are_met.
  destruct (unblock_loop s (m_blockers s) (unblocked s) H) as (woken & any & -> & Hw).
  eexists _, woken. split; [reflexivity|]. split; [|split; [|split]].
  - apply Forall_forall. intros b [_ Hb]%list_elem_of_filter. by eapply Forall_forall in H.
  - intros b [Hm _]%list_elem_of_filter Hf. unfold met in Hm. by rewrite Hf in Hm.
  - intros b [Hm _]%list_elem_of_filter Hf. unfold met in Hm. by rewrite Hf in Hm.
  - rewrite Hw, (filter_split (met s) (m_blockers s)), <- app_assoc.
    apply Permutation_app_head, Permutation_app_comm.
Qed.

(** An operation of the buffer that keeps the stream: if it called back, no thread
    blocks whose condition is met, and otherwise the blockers stayed. *)
Lemma with_buffer_ok {A} (m : action Q A) (P : A -> Q -> Prop) (E : Q -> Prop) s :
  blockers_ok (m_blockers s) -> wp m P E False (m_buffer s) ->
  wp (with_buffer m)
    (fun a s' => P a (m_buffer s') /\ exists bs woken, s' = set_blockers (set_buffer s (m_buffer s')) bs woken /\
       blockers_ok bs /\ map thread (m_blockers s) ++ map fst (unblocked s) ≡ₚ map thread bs ++ map fst woken /\
       (readers_wait s' /\ writers_wait s' \/
        bs = m_blockers s /\ queue_callbacks (m_buffer s') = queue_callbacks (m_buffer s)))
    (fun s' => E (m_buffer s') /\ exists bs woken, s' = set_blockers (set_buffer s (m_buffer s')) bs woken /\
       blockers_ok bs /\ map thread (m_blockers s) ++ map fst (unblocked s) ≡ₚ map thread bs ++ map fst woken /\
       (readers_wait s' /\ writers_wait s' \/
        bs = m_blockers s /\ queue_callbacks (m_buffer s') = queue_callbacks (m_buffer s))) False s.
Proof.
  intros Hb H. unfold wp, with_buffer in *. destruct (m (m_buffer s)) as [q o].
  destruct (decide _) as [Ec|Ec].
  - assert (set_buffer s q = set_blockers (set_buffer s q) (m_blockers s) (unblocked s)) as Es by done.
    destruct o; try done; (split; [done|]); exists (m_blockers s), (unblocked s);
      (do 3 (split; [done|])); by right.
  - destruct (evaluate_ok (set_buffer s q) Hb) as (bs & woken & -> & H1 & H2 & H3 & H4).
    destruct o; try done; (split; [done|]); exists bs, woken;
      (do 3 (split; [done|])); by left.
Qed.

Lemma read_flags_ne b : m_flags b = write_flags -> m_flags b <> read_flags.
Proof. by intros ->. Qed.

Lemma can_read_ext s s' :
  queue_is_empty (m_buffer s') = queue_is_empty (m_buffer s) -> m_writers s' = m_writers s ->
  can_read s' = can_read s.
Proof. unfold can_read. by intros -> ->. Qed.

Lemma empty_ext q q' :
  queue_ok q -> queue_ok q' -> (queue_contents q' = [] <-> queue_contents q = []) ->
  queue_is_empty q' = queue_is_empty q.
Proof.
  intros H H' E. apply Bool.eq_iff_eq_true. by rewrite !queue_empty_iff.
Qed.

(** A write. *)
Lemma write_keeps s h d source size :
  inv s h -> source_ok source -> 0 <= size ->
  wp (write d source size)
    (fun n s' => inv s' (tr (went_in h ++ (if size =? 0 then [] else fst (source n))) (came_out h)
       (parked h) (interrupted h)) /\ descriptions s' = descriptions s /\ (writers_wait s -> writers_wait s'))
    (fun s' => inv s' h /\ descriptions s' = descriptions s /\ (writers_wait s -> writers_wait s')) False s.
Proof.
  intros H Hs Hz. unfold write. apply wp_bind. unfold wp at 1, gets.
  destruct (m_readers s =? 0) eqn:Er; [done|]. destruct (negb (is_blocking d) && _); [done|].
  destruct H as [H1 H2 H3 H4 H5 H6 H7 H8 H9].
  eapply wp_mono; [exact (with_buffer_ok (queue_write source size) _ _ s H6 (queue_write_ok _ source size H1 Hs Hz))
    |simpl|simpl|done].
  - intros n s' ((Q1 & -> & Q3 & Q4 & Q5 & Q6) & bs & woken & Es & Hb & Hp & Hw). rewrite Es in Hw |- *. simpl in Hw |- *.
    set (q := m_buffer s') in *. split; [|split; [done|]].
    + constructor; try done; simpl.
      * rewrite Q6. unfold called. by destruct (_ && _), (queue_callbacks (m_buffer s)).
      * by rewrite Q3, H7, app_assoc.
      * by rewrite H8, !app_assoc, Hp.
      * destruct Hw as [[Hw _]|[-> Hw]]; [done|]. intros b Hin Hf. specialize (H9 b Hin Hf).
        rewrite <- H9. apply can_read_ext; [|done]. simpl.
        destruct (queue_is_empty q) eqn:Eq; [|].
        { symmetry. apply queue_empty_iff; [done|]. apply queue_empty_iff in Eq; [|done]. rewrite Q3 in Eq.
          by apply app_eq_nil in Eq as [? _]. }
        destruct (size =? 0) eqn:Ez; [|].
        { symmetry. rewrite <- Eq. symmetry. apply empty_ext; [done|done|]. by rewrite Q3, app_nil_r. }
        rewrite Q6 in Hw. simpl in Hw. destruct (queue_callbacks (m_buffer s)) as [k|]; [|done].
        injection Hw as Hw. lia.
    + intros Hwr. destruct Hw as [[_ Hw]|[-> Hw]]; [done|]. intros b Hin Hf. specialize (Hwr b Hin Hf).
      unfold can_write in Hwr |- *. simpl. rewrite Er, orb_false_r in Hwr |- *.
      apply negb_false_iff, Z.eqb_eq in Hwr. rewrite Q5, Hwr. rewrite negb_false_iff, Z.eqb_eq. lia.
  - intros s' ((Q1 & Q2 & Q3 & Q4) & bs & woken & Es & Hb & Hp & Hw). rewrite Es in Hw |- *. simpl in Hw |- *.
    set (q := m_buffer s') in *. split; [|split; [done|]].
    + constructor; try done; simpl.
      * by rewrite Q4.
      * by rewrite Q2.
      * by rewrite H8, !app_assoc, Hp.
      * destruct Hw as [[Hw _]|[-> Hw]]; [done|]. intros b Hin Hf. specialize (H9 b Hin Hf).
        rewrite <- H9. apply can_read_ext; [|done]. apply empty_ext; [done|done|]. simpl. by rewrite Q2.
    + intros Hwr. destruct Hw as [[_ Hw]|[-> Hw]]; [done|]. intros b Hin Hf. specialize (Hwr b Hin Hf).
      unfold can_write in Hwr |- *. simpl. by rewrite Q3.
Qed.

(** A read. *)
Lemma read_keeps s h d writable size :
  inv s h -> 0 <= size ->
  wp (read d writable size)
    (fun bytes s' => inv s' (tr (went_in h) (came_out h ++ bytes) (parked h) (interrupted h)) /\
       descriptions s' = descriptions s /\ (writers_wait s -> writers_wait s'))
    (fun s' => inv s' h /\ descriptions s' = descriptions s /\ (writable = true -> writers_wait s -> writers_wait s'))
    False s.
Proof.
  intros H Hz. unfold read. apply wp_bind. unfold wp at 1, gets.
  destruct (queue_is_empty _ && (m_writers s =? 0)).
  { apply wp_ret. rewrite app_nil_r. by destruct h. }
  destruct (_ && negb (is_blocking d)); [done|].
  destruct H as [H1 H2 H3 H4 H5 H6 H7 H8 H9].
  eapply wp_mono; [exact (with_buffer_ok (queue_read writable size) _ _ s H6 (queue_read_ok _ writable size H1 Hz))
    |simpl|simpl|done].
  - intros bytes s' ((Q1 & Q2 & Q3 & Q4 & Q5 & Q6) & bs & woken & Es & Hb & Hp & Hw).
    rewrite Es in Hw |- *. simpl in Hw |- *. set (q := m_buffer s') in *. split; [|split; [done|]].
    + constructor; try done; simpl.
      * rewrite Q6. unfold called. by destruct (_ && _), (queue_callbacks (m_buffer s)).
      * by rewrite <- app_assoc, <- Q2.
      * by rewrite H8, !app_assoc, Hp.
      * destruct Hw as [[Hw _]|[-> Hw]]; [done|]. intros b Hin Hf. specialize (H9 b Hin Hf).
        unfold can_read in H9 |- *. simpl. apply orb_false_iff in H9 as [E1 ->]. rewrite orb_false_r.
        apply negb_false_iff in E1. apply negb_false_iff.
        apply queue_empty_iff in E1; [|done]. apply queue_empty_iff; [done|].
        rewrite E1 in Q2. symmetry in Q2. by apply app_eq_nil in Q2 as [_ ?].
    + intros Hwr. destruct Hw as [[_ Hw]|[-> Hw]]; [done|]. intros b Hin Hf. specialize (Hwr b Hin Hf).
      unfold can_write in Hwr |- *. simpl. apply orb_false_iff in Hwr as [E1 ->]. rewrite orb_false_r.
      apply negb_false_iff, Z.eqb_eq in E1. rewrite negb_false_iff, Z.eqb_eq.
      destruct bytes as [|x bytes]; [by rewrite Q5|]. rewrite Q6 in Hw. simpl in Hw.
      destruct (Z.ltb_spec 0 (queue_space q)); [|pose proof (queue_space_nonneg q Q1); lia].
      destruct (queue_callbacks (m_buffer s)) as [k|]; [|done]. injection Hw as Hw. lia.
  - intros s' ((Q1 & Q2 & -> & Q4) & bs & woken & Es & Hb & Hp & Hw). rewrite Es in Hw |- *. simpl in Hw |- *.
    set (q := m_buffer s') in *. split; [|done].
    constructor; try done; simpl; [by rewrite Q4|by rewrite Q2|by rewrite H8, !app_assoc, Hp|].
    destruct Hw as [[Hw _]|[-> Hw]]; [done|]. intros b Hin Hf. specialize (H9 b Hin Hf).
    rewrite <- H9. apply can_read_ext; [|done]. apply empty_ext; [done|done|]. simpl. by rewrite Q2.
Qed.

Lemma direction_bounds d x : 0 <= is_direction d x <= 1.
Proof. unfold is_direction. case_match; lia. Qed.

Lemma count_bounds d s : 0 <= count d s <= Z.of_nat (size (descriptions s)).
Proof.
  split; [apply msum_nonneg|apply msum_le_size]; intros; apply direction_bounds.
Qed.

(** Opening and closing. *)
Lemma open_keeps s h allocated direction blocking :
  inv s h -> Z.of_nat (size (descriptions s)) + 1 < 2 ^ 32 ->
  wp (open_direction allocated direction blocking)
    (fun id s' => inv s' h /\ descriptions s' = <[id := description direction blocking]> (descriptions s) /\
       descriptions s !! id = None /\ writers_wait s')
    (fun s' => s' = s) False s.
Proof.
  intros H Hsize. unfold open_direction. destruct allocated; cbn [negb]; [|done].
  destruct H as [H1 H2 H3 H4 H5 H6 H7 H8 H9].
  pose proof (count_bounds Reader s). pose proof (count_bounds Writer s).
  unfold wp, abind, gets, modify. cbn [next_description].
  set (s1 := match direction with Neither => _ | Reader => _ | Writer => _ end).
  assert (m_blockers s1 = m_blockers s /\ unblocked s1 = unblocked s /\ m_buffer s1 = m_buffer s /\
    descriptions s1 = descriptions s /\ next_description s1 = next_description s /\
    m_readers s1 = m_readers s + is_direction Reader (description direction blocking) /\
    m_writers s1 = m_writers s + is_direction Writer (description direction blocking))
    as (E1 & E2 & E3 & E4 & E5 & E6 & E7).
  { unfold s1, is_direction. destruct direction; simpl; unfold u32; rewrite ?wrap_small by (unfold fits; lia);
      repeat split; try lia. }
  clearbody s1. destruct (evaluate_ok s1) as (bs & woken & -> & Hb & Hr & Hw & Hp); [by rewrite E1|].
  unfold ret. assert (descriptions s !! next_description s = None) as Hnew.
  { destruct (descriptions s !! next_description s) eqn:E; [|done]. specialize (H5 _ _ E). lia. }
  split; [|split; [|split]]; [|by simpl; rewrite E4|done|exact Hw].
  constructor; simpl; rewrite ?E3, ?E4; try done.
  - unfold count. simpl. rewrite msum_insert by done. rewrite E6, H3. unfold count. lia.
  - unfold count. simpl. rewrite msum_insert by done. rewrite E7, H4. unfold count. lia.
  - intros id d Hl. apply lookup_insert_Some in Hl as [[<- _]|[_ Hl]]; [lia|]. specialize (H5 _ _ Hl). lia.
  - rewrite E1, E2 in Hp. by rewrite H8, !app_assoc, Hp.
Qed.

Lemma detach_keeps s h id d :
  inv s h -> descriptions s !! id = Some d -> Z.of_nat (size (descriptions s)) < 2 ^ 32 ->
  wp (detach id)
    (fun _ s' => inv s' h /\ descriptions s' = delete id (descriptions s) /\ writers_wait s')
    (fun _ => False) False s.
Proof.
  intros H Hd Hsize. destruct H as [H1 H2 H3 H4 H5 H6 H7 H8 H9].
  pose proof (count_bounds Reader s). pose proof (count_bounds Writer s).
  pose proof (msum_member (is_direction Reader) _ _ _ (fun b => proj1 (direction_bounds _ b)) Hd) as Mr.
  pose proof (msum_member (is_direction Writer) _ _ _ (fun b => proj1 (direction_bounds _ b)) Hd) as Mw.
  fold (count Reader s) in Mr. fold (count Writer s) in Mw.
  unfold detach. apply wp_bind. unfold wp at 1, gets. rewrite Hd. apply wp_bind. unfold wp at 1, modify.
  apply wp_bind. unfold wp at 1, gets. apply wp_bind. cbn [m_readers m_writers set_counts].
  assert (forall s1, m_blockers s1 = m_blockers s -> unblocked s1 = unblocked s -> m_buffer s1 = m_buffer s ->
    descriptions s1 = descriptions s -> next_description s1 = next_description s ->
    m_readers s1 = m_readers s - is_direction Reader d -> m_writers s1 = m_writers s - is_direction Writer d ->
    wp (abind evaluate_block_conditions (fun _ => modify (fun s =>
          set_descriptions s (delete id (descriptions s)) (next_description s))))
      (fun _ s' => inv s' h /\ descriptions s' = delete id (descriptions s) /\ writers_wait s')
      (fun _ => False) False s1) as Hgo.
  { intros s1 E1 E2 E3 E4 E5 E6 E7.
    destruct (evaluate_ok s1) as (bs & woken & Ev & Hb & Hr & Hw & Hp); [by rewrite E1|].
    apply wp_bind. unfold wp at 1. rewrite Ev. unfold wp, modify.
    split; [|split]; [|by simpl; rewrite E4|exact Hw].
    constructor; simpl; rewrite ?E3, ?E4, ?E5; try done.
    - unfold count. simpl. rewrite (msum_delete _ _ _ _ Hd). rewrite E6, H3. unfold count. lia.
    - unfold count. simpl. rewrite (msum_delete _ _ _ _ Hd). rewrite E7, H4. unfold count. lia.
    - intros i x Hl. apply lookup_delete_Some in Hl as [_ Hl]. by apply (H5 i x).
    - rewrite E1, E2 in Hp. by rewrite H8, !app_assoc, Hp. }
  unfold is_direction in *. destruct (fifo_direction d) eqn:Ed; simpl in *.
  - apply wp_ret. apply Hgo; simpl; lia || done.
  - unfold wp at 1, abind, lift. destruct (Z.eqb_spec (m_readers s) 0); [lia|]. simpl.
    apply Hgo; simpl; try done; [|lia]. unfold u32. rewrite wrap_small; unfold fits; lia.
  - unfold wp at 1, abind, lift. destruct (Z.eqb_spec (m_writers s) 0); [lia|]. simpl.
    apply Hgo; simpl; try done; [lia|]. unfold u32. rewrite wrap_small; unfold fits; lia.
Qed.

(** Blocking and being interrupted. *)
Lemma block_keeps s h tid flags :
  inv s h -> flags = read_flags \/ flags = write_flags ->
  wp (add_blocker (blocker tid flags false))
    (fun told s' => inv s' (match told with
                            | None => tr (went_in h) (came_out h) (parked h ++ [tid]) (interrupted h)
                            | Some _ => h
                            end) /\ descriptions s' = descriptions s /\ (writers_wait s -> writers_wait s'))
    (fun _ => False) False s.
Proof.
  intros H Hf. unfold add_blocker. apply wp_bind. unfold wp at 1, gets. apply wp_bind. unfold wp at 1, lift.
  destruct (unblock_met s (blocker tid flags false) eq_refl Hf) as (b' & told & -> & Hb).
  destruct (met s (blocker tid flags false)) eqn:Em; [by apply wp_ret|]. rewrite (Hb eq_refl).
  apply wp_bind. unfold wp at 1, modify. apply wp_ret. destruct H as [H1 H2 H3 H4 H5 H6 H7 H8 H9].
  split; [|split; [done|]].
  - constructor; try done; simpl.
    + apply Forall_app. split; [done|]. apply Forall_singleton. by split.
    + rewrite map_app, H8. simpl. rewrite <- !app_assoc. apply Permutation_app_head.
      rewrite app_assoc. apply Permutation_app_comm.
    + intros b [Hb1|Hb1]%elem_of_app Hfb; [by apply (H9 b)|]. apply list_elem_of_singleton in Hb1 as ->.
      unfold met in Em. by rewrite Hfb in Em.
  - intros Hw b [Hb1|Hb1]%elem_of_app Hfb; [by apply (Hw b)|]. apply list_elem_of_singleton in Hb1 as ->.
    unfold met in Em. by rewrite Hfb in Em.
Qed.

Lemma split_thread tid (bs : list Blocker) :
  map thread bs ≡ₚ map thread (filter (fun b => thread b <> tid) bs) ++ map thread (filter (fun b => thread b = tid) bs).
Proof.
  induction bs as [|b bs IH]; [done|]. rewrite !filter_cons. destruct (decide (thread b = tid)) as [E|E].
  - rewrite decide_False by (intros ?; done). cbn [map]. by rewrite <- Permutation_middle, IH.
  - rewrite decide_True by done. cbn [map app]. by rewrite IH.
Qed.

Lemma interrupt_keeps s h tid :
  inv s h ->
  inv (set_blockers s (filter (fun b => thread b <> tid) (m_blockers s)) (unblocked s))
    (tr (went_in h) (came_out h) (parked h)
       (interrupted h ++ map thread (filter (fun b => thread b = tid) (m_blockers s)))) /\
  (writers_wait s -> writers_wait (set_blockers s (filter (fun b => thread b <> tid) (m_blockers s)) (unblocked s))).
Proof.
  intros [H1 H2 H3 H4 H5 H6 H7 H8 H9]. split.
  - constructor; try done; simpl.
    + apply Forall_forall. intros b [_ Hb]%list_elem_of_filter. by eapply Forall_forall in H6.
    + rewrite H8, (split_thread tid (m_blockers s)), <- !app_assoc. apply Permutation_app_head.
      rewrite Permutation_app_comm, <- !app_assoc. done.
    + intros b [_ Hb]%list_elem_of_filter Hf. by apply (H9 b).
  - intros Hw b [_ Hb]%list_elem_of_filter Hf. by apply (Hw b).
Qed.

Lemma run_op_ok o s h :
  inv s h -> op_ok o -> Z.of_nat (size (descriptions s)) + 1 < 2 ^ 32 ->
  exists s' h', run_op o s h = Some (s', h') /\ inv s' h' /\
    (size (descriptions s') <= size (descriptions s) + 1)%nat /\
    (no_fault o -> writers_wait s -> writers_wait s').
Proof.
  intros H Ho Hsize. destruct o as [allocated direction blocking|id|id writable sz|id source sz|tid flags|tid];
    simpl in Ho |- *.
  - pose proof (open_keeps s h allocated direction blocking H Hsize) as W. unfold wp in W.
    destruct (open_direction allocated direction blocking s) as [s' [id|e| |]]; try done.
    + destruct W as (Hi & Ed & En & Hw). exists s', h. split; [done|]. split; [done|]. split; [|done].
      rewrite Ed, map_size_insert_None by done. lia.
    + subst s'. exists s, h. split; [done|]. split; [done|]. split; [lia|done].
  - destruct (descriptions s !! id) as [d|] eqn:Ed.
    2: { exists s, h. split; [done|]. split; [done|]. split; [lia|done]. }
    pose proof (detach_keeps s h id d H Ed ltac:(lia)) as W. unfold wp in W.
    destruct (detach id s) as [s' [[]|e| |]]; try done. destruct W as (Hi & E & Hw).
    exists s', h. split; [done|]. split; [done|]. split; [|done]. rewrite E, map_size_delete_Some by done. lia.
  - destruct (descriptions s !! id) as [d|] eqn:Ed.
    2: { exists s, h. split; [done|]. split; [done|]. split; [lia|done]. }
    pose proof (read_keeps s h d writable sz H Ho) as W. unfold wp in W.
    destruct (read d writable sz s) as [s' [bytes|e| |]]; try done; destruct W as (Hi & E & Hw);
      eexists s', _; (split; [reflexivity|]); (split; [done|]); rewrite E; (split; [lia|auto]).
  - destruct (descriptions s !! id) as [d|] eqn:Ed.
    2: { exists s, h. split; [done|]. split; [done|]. split; [lia|done]. }
    destruct Ho as [Hs Hz]. pose proof (write_keeps s h d source sz H Hs Hz) as W. unfold wp in W.
    destruct (write d source sz s) as [s' [n|e| |]]; try done; destruct W as (Hi & E & Hw);
      eexists s', _; (split; [reflexivity|]); (split; [done|]); rewrite E; (split; [lia|auto]).
  - pose proof (block_keeps s h tid flags H Ho) as W. unfold wp in W.
    destruct (add_blocker _ s) as [s' [[told|]|e| |]]; try done; destruct W as (Hi & E & Hw);
      eexists s', _; (split; [reflexivity|]); (split; [done|]); rewrite E; (split; [lia|auto]).
  - destruct (interrupt_keeps s h tid H) as [Hi Hw]. eexists _, _. split; [reflexivity|]. split; [done|].
    split; [simpl; lia|auto].
Qed.

Lemma run_all_ok ops s h :
  inv s h -> Forall op_ok ops -> Z.of_nat (size (descriptions s)) + len ops < 2 ^ 32 ->
  exists s' h', run ops s h = Some (s', h') /\ inv s' h' /\
    (Forall no_fault ops -> writers_wait s -> writers_wait s').
Proof.
  intros H Ho. revert s h H. induction Ho as [|o ops Ho _ IH]; intros s h H Hsize; [eauto|].
  rewrite len_cons in Hsize. pose proof (len_nonneg ops).
  destruct (run_op_ok o s h H Ho ltac:(lia)) as (s1 & h1 & E & H1 & Hs1 & Hw1). simpl. rewrite E.
  destruct (IH s1 h1 H1 ltac:(lia)) as (s2 & h2 & -> & H2 & Hw2). exists s2, h2. split; [done|]. split; [done|].
  intros Hn Hw. inversion_clear Hn. auto.
Qed.

(** A new pipe over a buffer that has its callback. *)
Definition make (buffer : Q) : t Q := fifo 0 0 buffer 0 [] ∅ 0 [].

Lemma make_inv q :
  queue_ok q -> queue_contents q = [] -> queue_callbacks q <> None ->
  inv (make q) (tr [] [] [] []) /\ writers_wait (make q).
Proof.
  intros H1 H2 H3. split; [constructor; simpl; try done|].
  - by apply Forall_nil.
  - by intros b Hb%elem_of_nil.
  - by intros b Hb%elem_of_nil.
Qed.

(** ** The loop of [do_write] *)

(** [data n] is the memory of the writer from offset [n] on. *)
Inductive Progress : Type :=
| Return (total_nwritten : Z)
| MustBlock
| MayWrite
| Continue (total_nwritten : Z).

(** The conditions of the two loops. *)
Definition do_write_check (d : Description) (data_size total_nwritten : Z) (s : t Q) : outcome Progress :=
  if data_size <=? total_nwritten then Ok (Return total_nwritten) else
  if can_write s then Ok MayWrite else
  if negb (is_blocking d) then
    if 0 <? total_nwritten then Ok (Return total_nwritten) else Err EAGAIN
  else Ok MustBlock.

(** The part of the outer loop that writes. *)
Definition do_write_attempt (d : Description) (data : Z -> Source) (data_size total_nwritten : Z)
    : action (t Q) Progress :=
  fun s =>
    match write d (data total_nwritten) (data_size - total_nwritten) s with
    | (s', Ok nwritten) =>
        if 0 <? nwritten then (s', Ok (Continue (total_nwritten + nwritten))) else (s', Panic)
    | (s', Err e) =>
        if 0 <? total_nwritten then (s', Ok (Return total_nwritten)) else
        if decide (e = EAGAIN) then (s', Ok (Continue total_nwritten)) else (s', Err e)
    | (s', Panic) => (s', Panic)
    | (s', Undefined) => (s', Undefined)
    end.

(** ** Opening with both ends *)

(** The pipe with the queues of threads that wait for the other end to be opened. *)
Record opening : Type := op_state {
  pipe : t Q;
  m_read_open_queue : WaitQueue.t;
  m_write_open_queue : WaitQueue.t
}.

(** [wait_forever]: whether the thread blocks. *)
Definition wait_forever (tid : Z) (q : WaitQueue.t) : WaitQueue.t * bool :=
  WaitQueue.add_blocker (WaitQueue.blocker tid false) q.

(** [open_direction_blocking] up to the point where it waits for the other end:
    whether the thread blocks there. *)
Definition open_direction_blocking (allocated : bool) (tid : Z) (direction : Direction) (s : opening)
    : outcome (opening * bool) :=
  match open_direction allocated direction true (pipe s) with
  | (p, Ok _) =>
      match direction with
      | Reader =>
          let! (rq, _) := WaitQueue.wake_all (m_read_open_queue s) in
          if m_writers p =? 0
          then let (wq, blocks) := wait_forever tid (m_write_open_queue s) in Ok (op_state p rq wq, blocks)
          else Ok (op_state p rq (m_write_open_queue s), false)
      | Writer =>
          let! (wq, _) := WaitQueue.wake_all (m_write_open_queue s) in
          if m_readers p =? 0
          then let (rq, blocks) := wait_forever tid (m_read_open_queue s) in Ok (op_state p rq wq, blocks)
          else Ok (op_state p (m_read_open_queue s) wq, false)
      | Neither => Ok (op_state p (m_read_open_queue s) (m_write_open_queue s), false)
      end
  | (_, Err e) => Err e
  | (_, Panic) => Panic
  | (_, Undefined) => Undefined
  end.

End FIFO.

Arguments op_state {Q} _ _ _.
Arguments pipe {Q} _.

End FIFO.


(** ** Samples *)

#[local] Open Scope Z_scope.

(** An empty double buffer of two bytes with its callback set. *)
Definition pipe_buffer : DoubleBuffer.t :=
  DoubleBuffer.buffer DoubleBuffer.Buffer1 DoubleBuffer.Buffer2 (DoubleBuffer.inner 0 0) (DoubleBuffer.inner 2 0)
    [0; 0; 0; 0] (Some 0) 2 0 2 true.

Lemma pipe_buffer_inv : DoubleBuffer.inv pipe_buffer.
Proof. repeat constructor; simpl; done || lia. Qed.

(** A reader and a writer; two threads block for reading; the writer writes. *)
Definition pipe_ops : list FIFO.op :=
  [FIFO.Open true FIFO.Reader true; FIFO.Open true FIFO.Writer true;
   FIFO.Block 10 FIFO.read_flags; FIFO.Block 11 FIFO.read_flags;
   FIFO.WriteTo 1 (from_kernel [65]) 1; FIFO.ReadFrom 0 true 4].


(** ** What the code does not mean to do *)

(** Both blocked readers are told that they can read, one takes the byte, and the
    other one, which is blocking, reads nothing: the end of the file, although a
    writer is there. *)
Lemma blocking_read_sees_end_of_file :
  match FIFO.run pipe_ops (FIFO.make pipe_buffer) (FIFO.tr [] [] [] []) with
  | Some (s, _) =>
      FIFO.unblocked s = [(10, FIFO.Read); (11, FIFO.Read)] /\ FIFO.m_writers s = 1 /\
      snd (FIFO.read (FIFO.description FIFO.Reader true) true 4 s) = Ok []
  | None => False
  end.
Proof. by vm_compute. Qed.

(** Two writers that both found that they can write: after the first filled the
    buffer the second, which is blocking, writes nothing and the check in
    [do_write] fails. *)
Lemma racing_writer_panics :
  match FIFO.run [FIFO.Open true FIFO.Reader true; FIFO.Open true FIFO.Writer true; FIFO.Open true FIFO.Writer true]
          (FIFO.make pipe_buffer) (FIFO.tr [] [] [] []) with
  | Some (s, _) =>
      let d := FIFO.description FIFO.Writer true in
      FIFO.do_write_check d 1 0 s = Ok FIFO.MayWrite /\
      let (s', r) := FIFO.do_write_attempt d (fun _ => from_kernel [1; 2]) 2 0 s in
      r = Ok (FIFO.Continue 2) /\
      snd (FIFO.do_write_attempt d (fun _ => from_kernel [3]) 1 0 s') = Panic
  | None => False
  end.
Proof. by vm_compute. Qed.

(** A reader and a writer opened the pipe and closed it again.  A writer that opens
    it now should wait for a reader, but the wake-up of the first reader, for whom
    nobody waited, is still pending. *)
Lemma stale_wakeup_opens_without_reader :
  match
    let! (s1, blocks1) := FIFO.open_direction_blocking true 1 FIFO.Reader
      (FIFO.op_state (FIFO.make pipe_buffer) WaitQueue.make WaitQueue.make) in
    let! (s2, blocks2) := FIFO.open_direction_blocking true 2 FIFO.Writer s1 in
    let (p3, _) := FIFO.detach 0 (FIFO.pipe s2) in
    let (p4, _) := FIFO.detach 1 p3 in
    let! (s5, blocks5) := FIFO.open_direction_blocking true 3 FIFO.Writer
      (FIFO.op_state p4 (FIFO.m_read_open_queue s2) (FIFO.m_write_open_queue s2)) in
    Ok (blocks1, blocks2, FIFO.m_readers (FIFO.pipe s5), blocks5)
  with
  | Ok r => r = (true, false, 0, false)
  | _ => False
  end.
Proof. by vm_compute. Qed.
