(* ===== verification/Mutex.v ===== *)
(** The sleeping lock, [Kernel/Locking/Mutex.cpp], with the part of
    [Kernel/Tasks/Thread.cpp] that blocks a thread on it. *)

From S2P Require Import Prelude.

Module Mutex.
#[local] Open Scope Z_scope.

Inductive Mode : Type := Unlocked | Shared | Exclusive.
Inductive MutexBehavior : Type := Regular | BigLock.

#[export] Instance Mode_eq_dec : EqDecision Mode.
Proof. solve_decision. Defined.
#[export] Instance MutexBehavior_eq_dec : EqDecision MutexBehavior.
Proof. solve_decision. Defined.

(** The lock.  A thread is its number, [m_holder] is [None] where the code has 0.
    [blocking] holds the threads whose [m_blocking_mutex] is this lock, with their
    [m_lock_requested_count].  [holds] counts the locks a thread was given; the
    code keeps that count only for debugging. *)
Record t : Type := mutex {
  m_mode : Mode;
  m_behavior : MutexBehavior;
  m_times_locked : Z;
  m_holder : option Z;
  m_shared_holders : Z;
  exclusive : list Z;
  shared : list Z;
  exclusive_big_lock : list Z;
  blocking : gmap Z Z;
  holds : gmap Z Z
}.

Definition make (behavior : MutexBehavior) : t := mutex Unlocked behavior 0 None 0 [] [] [] ∅ ∅.

Definition set_mode (s : t) (mode : Mode) : t :=
  mutex mode (m_behavior s) (m_times_locked s) (m_holder s) (m_shared_holders s) (exclusive s) (shared s)
    (exclusive_big_lock s) (blocking s) (holds s).
Definition set_times (s : t) (n : Z) : t :=
  mutex (m_mode s) (m_behavior s) n (m_holder s) (m_shared_holders s) (exclusive s) (shared s)
    (exclusive_big_lock s) (blocking s) (holds s).
Definition set_holder (s : t) (h : option Z) : t :=
  mutex (m_mode s) (m_behavior s) (m_times_locked s) h (m_shared_holders s) (exclusive s) (shared s)
    (exclusive_big_lock s) (blocking s) (holds s).
Definition set_shared_holders (s : t) (n : Z) : t :=
  mutex (m_mode s) (m_behavior s) (m_times_locked s) (m_holder s) n (exclusive s) (shared s)
    (exclusive_big_lock s) (blocking s) (holds s).
Definition set_blocking (s : t) (b : gmap Z Z) : t :=
  mutex (m_mode s) (m_behavior s) (m_times_locked s) (m_holder s) (m_shared_holders s) (exclusive s) (shared s)
    (exclusive_big_lock s) b (holds s).
Definition held (s : t) (tid : Z) : Z := default 0 (holds s !! tid).
Definition set_held (s : t) (tid n : Z) : t :=
  mutex (m_mode s) (m_behavior s) (m_times_locked s) (m_holder s) (m_shared_holders s) (exclusive s) (shared s)
    (exclusive_big_lock s) (blocking s) (<[tid := n]> (holds s)).

(** The list a thread waits in. *)
Definition waiters (s : t) (mode : Mode) : list Z :=
  match m_behavior s, mode with
  | BigLock, _ => exclusive_big_lock s
  | Regular, Shared => shared s
  | Regular, _ => exclusive s
  end.
Definition set_waiters (s : t) (mode : Mode) (l : list Z) : t :=
  let '(e, sh, b) := match m_behavior s, mode with
                     | BigLock, _ => (exclusive s, shared s, l)
                     | Regular, Shared => (exclusive s, l, exclusive_big_lock s)
                     | Regular, _ => (l, shared s, exclusive_big_lock s)
                     end in
  mutex (m_mode s) (m_behavior s) (m_times_locked s) (m_holder s) (m_shared_holders s) e sh b
    (blocking s) (holds s).

Definition verify (P : t -> bool) : action t unit :=
  fun s => if P s then (s, Ok tt) else (s, Panic).

Definition is_mode (mode : Mode) (s : t) : bool := bool_decide (m_mode s = mode).
Definition is_holder (h : option Z) (s : t) : bool := bool_decide (m_holder s = h).

(** [Thread::unblock_from_mutex] *)
Definition unblock_from_mutex (tid : Z) : action t Z :=
  fun s =>
    match blocking s !! tid with
    | None => (s, Panic)
    | Some requested_count =>
        (set_held (set_blocking s (delete tid (blocking s))) tid (held s tid + requested_count), Ok requested_count)
    end.

Fixpoint unblock_all_shared (threads : list Z) : action t unit :=
  match threads with
  | [] => ret tt
  | tid :: threads =>
      let* requested_locks := unblock_from_mutex tid in
      let* _ := modify (fun s => set_shared_holders s (u64 (m_shared_holders s + requested_locks))) in
      let* _ := modify (fun s => set_times s (u32 (m_times_locked s + requested_locks))) in
      unblock_all_shared threads
  end.

Definition unblock_shared : action t bool :=
  let* s := gets (fun s => s) in
  match shared s with
  | [] => ret false
  | threads =>
      let* _ := verify (fun s => bool_decide (m_behavior s = Regular)) in
      let* _ := modify (fun s => set_mode s Shared) in
      let* _ := unblock_all_shared threads in
      ret true
  end.

Definition unblock_exclusive (threads : list Z) : action t bool :=
  match threads with
  | [] => ret false
  | next_exclusive_thread :: _ =>
      let* _ := modify (fun s => set_mode s Exclusive) in
      let* n := unblock_from_mutex next_exclusive_thread in
      let* _ := modify (fun s => set_holder (set_times s n) (Some next_exclusive_thread)) in
      ret true
  end.

Definition unblock_waiters (previous_mode : Mode) : action t unit :=
  let* _ := verify (fun s => m_times_locked s =? 0) in
  let* _ := verify (is_mode Unlocked) in
  let* s := gets (fun s => s) in
  match m_behavior s with
  | BigLock =>
      let* _ := unblock_exclusive (exclusive_big_lock s) in
      ret tt
  | Regular =>
      if decide (previous_mode = Exclusive) then
        let* did := unblock_shared in
        if did then ret tt else
        let* _ := unblock_exclusive (exclusive s) in
        ret tt
      else
        let* did := unblock_exclusive (exclusive s) in
        if did then ret tt else
        let* _ := unblock_shared in
        ret tt
  end.

(** [block] up to the point where the thread sleeps, and from there on. *)
Definition block_begin (tid : Z) (mode : Mode) (requested_locks : Z) : action t unit :=
  let* _ := verify (fun s => bool_decide (tid ∉ waiters s mode)) in
  let* _ := modify (fun s => set_waiters s mode (waiters s mode ++ [tid])) in
  let* _ := verify (fun s => bool_decide (blocking s !! tid = None)) in
  modify (fun s => set_blocking s (<[tid := requested_locks]> (blocking s))).

Definition block_end (tid : Z) (mode : Mode) : action t unit :=
  let* _ := verify (fun s => bool_decide (blocking s !! tid = None)) in
  let* _ := verify (fun s => bool_decide (tid ∈ waiters s mode)) in
  modify (fun s => set_waiters s mode (filter (fun x => x <> tid) (waiters s mode))).

(** [lock] up to where it returns or sleeps: whether it sleeps. *)
Definition lock (tid : Z) (mode : Mode) : action t bool :=
  let* _ := verify (fun _ => negb (bool_decide (mode = Unlocked))) in
  let* s := gets (fun s => s) in
  match m_mode s with
  | Unlocked =>
      let* _ := modify (fun s => set_mode s mode) in
      let* _ := verify (is_holder None) in
      let* _ := verify (fun s => m_shared_holders s =? 0) in
      let* _ := (if decide (mode = Exclusive) then modify (fun s => set_holder s (Some tid))
                 else let* _ := verify (fun _ => bool_decide (mode = Shared)) in
                      modify (fun s => set_shared_holders s (u64 (m_shared_holders s + 1)))) in
      let* _ := verify (fun s => m_times_locked s =? 0) in
      let* _ := modify (fun s => set_times s (u32 (m_times_locked s + 1))) in
      let* _ := modify (fun s => set_held s tid (held s tid + 1)) in
      ret false
  | Exclusive =>
      let* _ := verify (fun s => negb (is_holder None s)) in
      if is_holder (Some tid) s then
        let* _ := verify (fun s => m_shared_holders s =? 0) in
        let* _ := verify (fun s => 0 <? m_times_locked s) in
        let* _ := modify (fun s => set_times s (u32 (m_times_locked s + 1))) in
        let* _ := modify (fun s => set_held s tid (held s tid + 1)) in
        ret false
      else
        let* _ := block_begin tid mode 1 in
        ret true
  | Shared =>
      let* _ := verify (fun s => bool_decide (m_behavior s = Regular)) in
      let* _ := verify (is_holder None) in
      if decide (mode = Exclusive) then
        let* _ := block_begin tid mode 1 in
        ret true
      else
        let* _ := verify (fun s => 0 <? m_times_locked s) in
        let* _ := modify (fun s => set_times s (u32 (m_times_locked s + 1))) in
        let* _ := verify (fun s => 0 <? m_shared_holders s) in
        let* _ := modify (fun s => set_shared_holders s (u64 (m_shared_holders s + 1))) in
        let* _ := modify (fun s => set_held s tid (held s tid + 1)) in
        ret false
  end.

(** The rest of [lock] after it slept. *)
Definition lock_resumed (tid : Z) (mode : Mode) : action t unit :=
  let* _ := block_end tid mode in
  let* _ := verify (is_mode mode) in
  let* _ := verify (fun s => match m_mode s with
                             | Exclusive => is_holder (Some tid) s && (m_shared_holders s =? 0)
                             | _ => is_holder None s && (0 <? m_shared_holders s)
                             end) in
  verify (fun s => 0 <? m_times_locked s).

Definition unlock (tid : Z) : action t unit :=
  let* current_mode := gets m_mode in
  let* _ := verify (fun _ => negb (bool_decide (current_mode = Unlocked))) in
  let* _ := verify (fun s => 0 <? m_times_locked s) in
  let* _ := modify (fun s => set_times s (u32 (m_times_locked s - 1))) in
  let* _ := (match current_mode with
             | Exclusive =>
                 let* _ := verify (is_holder (Some tid)) in
                 let* _ := verify (fun s => m_shared_holders s =? 0) in
                 modify (fun s => if m_times_locked s =? 0 then set_holder s None else s)
             | _ =>
                 let* _ := verify (is_holder None) in
                 let* _ := verify (fun s => 0 <? m_shared_holders s) in
                 modify (fun s => set_shared_holders s (u64 (m_shared_holders s - 1)))
             end) in
  let* _ := modify (fun s => set_held s tid (held s tid - 1)) in
  let* s := gets (fun s => s) in
  if m_times_locked s =? 0 then
    let* _ := verify (fun s => match current_mode with Exclusive => is_holder None s | _ => m_shared_holders s =? 0 end) in
    let* _ := modify (fun s => set_mode s Unlocked) in
    unblock_waiters current_mode
  else ret tt.

(** The mode before and the count to restore. *)
Definition force_unlock_exclusive_if_locked (tid : Z) : action t (Mode * Z) :=
  let* _ := verify (fun s => bool_decide (m_behavior s = BigLock)) in
  let* s := gets (fun s => s) in
  match m_mode s with
  | Exclusive =>
      if negb (is_holder (Some tid) s) then ret (Unlocked, 0) else
      let* _ := modify (fun s => set_holder s None) in
      let* _ := verify (fun s => 0 <? m_times_locked s) in
      let lock_count_to_restore := m_times_locked s in
      let* _ := modify (fun s => set_mode (set_times s 0) Unlocked) in
      let* _ := modify (fun s => set_held s tid (held s tid - lock_count_to_restore)) in
      let* _ := unblock_waiters Exclusive in
      ret (Exclusive, lock_count_to_restore)
  | Unlocked => ret (Unlocked, 0)
  | Shared => lift Panic
  end.

(** Whether the thread sleeps. *)
Definition restore_exclusive_lock (tid lock_count : Z) : action t bool :=
  let* _ := verify (fun s => bool_decide (m_behavior s = BigLock)) in
  let* _ := verify (fun _ => 0 <? lock_count) in
  let* s := gets (fun s => s) in
  if is_mode Exclusive s && negb (is_holder (Some tid) s) then
    let* _ := block_begin tid Exclusive lock_count in
    ret true
  else
    let* _ := verify (fun s => negb (is_mode Shared s)) in
    let* _ := verify (fun s => m_shared_holders s =? 0) in
    let* _ := (if is_mode Unlocked s then
                 let* _ := modify (fun s => set_mode s Exclusive) in
                 let* _ := verify (fun s => m_times_locked s =? 0) in
                 let* _ := modify (fun s => set_times s lock_count) in
                 let* _ := verify (is_holder None) in
                 modify (fun s => set_holder s (Some tid))
               else
                 let* _ := verify (is_mode Exclusive) in
                 let* _ := verify (is_holder (Some tid)) in
                 let* _ := verify (fun s => 0 <? m_times_locked s) in
                 modify (fun s => set_times s (u32 (m_times_locked s + lock_count)))) in
    let* _ := modify (fun s => set_held s tid (held s tid + lock_count)) in
    ret false.

Definition restore_resumed (tid : Z) : action t unit :=
  let* _ := block_end tid Exclusive in
  let* _ := verify (is_mode Exclusive) in
  let* _ := verify (fun s => m_shared_holders s =? 0) in
  let* _ := verify (fun s => 0 <? m_times_locked s) in
  verify (is_holder (Some tid)).

(** ** Threads that lock and unlock *)

(** Where a thread is that sleeps in [lock] or [restore_exclusive_lock], or was
    unblocked there and did not run yet. *)
Inductive pc : Type := Locking (mode : Mode) | Restoring.

Definition mode_of (p : pc) : Mode := match p with Locking mode => mode | Restoring => Exclusive end.

Record system : Type := sys { the_mutex : t; sleeping : gmap Z pc }.

Definition sum (m : gmap Z Z) : Z := msum (fun n => n) m.

(** The locks that are held or asked for. *)
Definition total (s : t) : Z := m_times_locked s + sum (blocking s).

(** A call that may sleep at [p]. *)
Definition after_lock (tid : Z) (p : pc) (ps : gmap Z pc) (r : t * outcome bool) : option system :=
  match r with
  | (s, Ok true) => Some (sys s (<[tid := p]> ps))
  | (s, Ok false) => Some (sys s ps)
  | _ => None
  end.

Definition after {A : Type} (ps : gmap Z pc) (r : t * outcome A) : option system :=
  match r with (s, Ok _) => Some (sys s ps) | _ => None end.

(** What threads may do: lock, go on when they were unblocked, unlock what they
    hold, and release and restore the big lock.  The big lock is only locked
    exclusively.  Less than 2^32 locks are held or asked for at a time.  [None] is
    a panic. *)
Inductive step (x : system) : option system -> Prop :=
| step_lock tid mode :
    sleeping x !! tid = None -> mode <> Unlocked -> (m_behavior (the_mutex x) = BigLock -> mode = Exclusive) ->
    total (the_mutex x) + 1 < 2 ^ 32 ->
    step x (after_lock tid (Locking mode) (sleeping x) (lock tid mode (the_mutex x)))
| step_resume tid mode :
    sleeping x !! tid = Some (Locking mode) -> blocking (the_mutex x) !! tid = None ->
    step x (after (delete tid (sleeping x)) (lock_resumed tid mode (the_mutex x)))
| step_unlock tid :
    sleeping x !! tid = None -> 0 < held (the_mutex x) tid ->
    step x (after (sleeping x) (unlock tid (the_mutex x)))
| step_force tid :
    sleeping x !! tid = None -> m_behavior (the_mutex x) = BigLock ->
    step x (after (sleeping x) (force_unlock_exclusive_if_locked tid (the_mutex x)))
| step_restore tid n :
    sleeping x !! tid = None -> m_behavior (the_mutex x) = BigLock -> 0 < n -> total (the_mutex x) + n < 2 ^ 32 ->
    step x (after_lock tid Restoring (sleeping x) (restore_exclusive_lock tid n (the_mutex x)))
| step_restored tid :
    sleeping x !! tid = Some Restoring -> blocking (the_mutex x) !! tid = None ->
    step x (after (delete tid (sleeping x)) (restore_resumed tid (the_mutex x))).

Inductive reachable (behavior : MutexBehavior) : option system -> Prop :=
| reach_start : reachable behavior (Some (sys (make behavior) ∅))
| reach_step x o : reachable behavior (Some x) -> step x o -> reachable behavior o.

(** ** The invariant *)

Definition mode_ok (s : t) : Prop :=
  match m_mode s with
  | Unlocked => m_times_locked s = 0 /\ m_holder s = None /\ m_shared_holders s = 0 /\ blocking s = ∅
  | Exclusive => 0 < m_times_locked s /\ m_shared_holders s = 0 /\
      exists h, m_holder s = Some h /\ forall tid, 0 < held s tid -> tid = h
  | Shared => m_behavior s = Regular /\ 0 < m_times_locked s /\ m_holder s = None /\
      m_shared_holders s = m_times_locked s
  end.

(** The part that does not depend on who holds the lock. *)
Record queues (s : t) (ps : gmap Z pc) : Prop := {
  v_times : m_times_locked s = sum (holds s);
  v_holds : forall tid n, holds s !! tid = Some n -> 0 <= n;
  v_total : total s < 2 ^ 32;
  v_blocking : forall tid k, blocking s !! tid = Some k -> 0 < k /\ exists p, ps !! tid = Some p;
  v_exclusive : forall tid, tid ∈ waiters s Exclusive <-> exists p, ps !! tid = Some p /\ mode_of p = Exclusive;
  v_shared : forall tid, tid ∈ shared s <-> exists p, ps !! tid = Some p /\ mode_of p = Shared;
  v_nodup : NoDup (waiters s Exclusive) /\ NoDup (shared s);
  v_big : m_behavior s = BigLock -> shared s = [];
  v_pcs : forall tid p, ps !! tid = Some p -> mode_of p <> Unlocked
}.

Record inv (x : system) : Prop := {
  v_queues : queues (the_mutex x) (sleeping x);
  v_mode : mode_ok (the_mutex x);
  v_granted : forall tid p, sleeping x !! tid = Some p -> blocking (the_mutex x) !! tid = None ->
    m_mode (the_mutex x) = mode_of p /\ 0 < held (the_mutex x) tid
}.

(** ** Counting *)

Lemma sum_nonneg m : (forall tid n, m !! tid = Some n -> 0 <= n) -> 0 <= sum m.
Proof. intros H. by apply msum_nonneg. Qed.

Lemma sum_held s tid k : sum (<[tid := held s tid + k]> (holds s)) = sum (holds s) + k.
Proof.
  unfold sum, held. destruct (holds s !! tid) as [n|] eqn:E; simpl.
  - rewrite (msum_update _ _ _ n) by done. lia.
  - rewrite msum_insert by done. lia.
Qed.

Lemma sum_member (m : gmap Z Z) tid k :
  (forall tid n, m !! tid = Some n -> 0 <= n) -> m !! tid = Some k -> k <= sum m.
Proof.
  intros H E. pose proof (msum_delete (fun n => n) _ _ _ E) as Hd. cbv beta in Hd.
  assert (0 <= msum (fun n : Z => n) (delete tid m)).
  { apply msum_nonneg. intros i a Hi. apply lookup_delete_Some in Hi as [_ Hi]. by apply (H i). }
  unfold sum. lia.
Qed.

Lemma held_le s tid : (forall tid n, holds s !! tid = Some n -> 0 <= n) -> 0 <= held s tid <= sum (holds s).
Proof.
  intros H. unfold held. destruct (holds s !! tid) as [n|] eqn:E; simpl; [|split; [done|by apply sum_nonneg]].
  split; [by apply (H tid)|by apply (sum_member _ tid)].
Qed.

Lemma blocking_pos s ps : queues s ps -> forall tid k, blocking s !! tid = Some k -> 0 <= k.
Proof. intros H tid k Hk. destruct (v_blocking _ _ H tid k Hk). lia. Qed.

Lemma times_bounds s ps : queues s ps -> 0 <= m_times_locked s < 2 ^ 32.
Proof.
  intros H. pose proof (v_total _ _ H) as Ht. unfold total in Ht.
  pose proof (sum_nonneg _ (blocking_pos s ps H)). pose proof (v_times _ _ H).
  pose proof (sum_nonneg _ (v_holds _ _ H)). lia.
Qed.

Lemma held_insert s tid n tid' :
  held (set_held s tid n) tid' = if decide (tid = tid') then n else held s tid'.
Proof. unfold held. simpl. case_decide; [subst; by rewrite lookup_insert_eq|by rewrite lookup_insert_ne]. Qed.

Lemma holds_insert s tid n :
  (forall tid n, holds s !! tid = Some n -> 0 <= n) -> 0 <= n ->
  forall tid' n', <[tid := n]> (holds s) !! tid' = Some n' -> 0 <= n'.
Proof. intros H Hn tid' n' [[_ <-]|[_ E]]%lookup_insert_Some; [done|by apply (H tid')]. Qed.

(** ** Giving the lock to a waiter *)

(** One waiter is unblocked and given what it asked for. *)
Definition given (s : t) (tid k : Z) : t :=
  set_held (set_blocking s (delete tid (blocking s))) tid (held s tid + k).

Lemma unblock_given s tid k :
  blocking s !! tid = Some k -> unblock_from_mutex tid s = (given s tid k, Ok k).
Proof. intros E. unfold unblock_from_mutex. by rewrite E. Qed.

Lemma given_sums s tid k :
  blocking s !! tid = Some k ->
  sum (holds (given s tid k)) = sum (holds s) + k /\ sum (blocking (given s tid k)) = sum (blocking s) - k.
Proof.
  intros E. simpl. split; [apply sum_held|]. unfold sum. by rewrite (msum_delete _ _ _ k).
Qed.

(** The lock is free and every thread in its queues waits. *)
Record idle (s : t) (ps : gmap Z pc) : Prop := {
  d_queues : queues s ps;
  d_mode : m_mode s = Unlocked;
  d_times : m_times_locked s = 0;
  d_holder : m_holder s = None;
  d_shared : m_shared_holders s = 0;
  d_waits : forall tid p, ps !! tid = Some p -> exists k, blocking s !! tid = Some k
}.

Lemma given_queues s ps tid k f :
  queues s ps -> blocking s !! tid = Some k ->
  (forall s, holds (f s) = holds s /\ blocking (f s) = blocking s /\ waiters (f s) Exclusive = waiters s Exclusive /\
     shared (f s) = shared s /\ m_behavior (f s) = m_behavior s) ->
  m_times_locked (f (given s tid k)) = m_times_locked s + k ->
  queues (f (given s tid k)) ps.
Proof.
  intros [H1 H2 H3 H4 H5 H6 H7 H8 H9] E Hf Ht. destruct (given_sums s tid k E) as [G1 G2].
  destruct (Hf (given s tid k)) as (F1 & F2 & F3 & F4 & F5). destruct (H4 tid k E) as [Hk _].
  constructor; unfold total; rewrite ?F1, ?F2, ?F3, ?F4, ?F5; try done.
  - rewrite Ht, G1. lia.
  - apply holds_insert; [done|]. pose proof (held_le s tid H2). lia.
  - rewrite Ht, G2. unfold total in H3. lia.
  - intros tid' k' Hl. simpl in Hl. apply lookup_delete_Some in Hl as [_ Hl]. by apply H4.
Qed.

Lemma unblock_exclusive_ok s ps :
  idle s ps ->
  waiters s Exclusive = [] /\ unblock_exclusive (waiters s Exclusive) s = (s, Ok false) \/
  exists s', unblock_exclusive (waiters s Exclusive) s = (s', Ok true) /\ inv (sys s' ps).
Proof.
  intros [Hq Hm Ht Hh Hsh Hw]. destruct (waiters s Exclusive) as [|tid l] eqn:El; [by left|]. right.
  assert (exists p, ps !! tid = Some p /\ mode_of p = Exclusive) as (p & Hp & Hpm).
  { apply (v_exclusive _ _ Hq). rewrite El. apply list_elem_of_here. }
  destruct (Hw tid p Hp) as [k Hk]. unfold unblock_exclusive, abind, modify.
  rewrite (unblock_given _ tid k) by done. eexists. split; [reflexivity|].
  assert (forall tid', held s tid' = 0) as H0.
  { intros tid'. pose proof (held_le s tid' (v_holds _ _ Hq)). pose proof (v_times _ _ Hq). lia. }
  constructor; simpl.
  - apply (given_queues s ps tid k (fun s' => set_holder (set_times (set_mode s' Exclusive) k) (Some tid))); [done|done|done|].
    simpl. lia.
  - unfold mode_ok. simpl. destruct (v_blocking _ _ Hq tid k Hk) as [Hk0 _]. split; [done|]. split; [done|].
    exists tid. split; [done|]. intros tid' Hpos. unfold held in Hpos. simpl in Hpos. destruct (decide (tid = tid')); [done|].
    rewrite lookup_insert_ne in Hpos by done. specialize (H0 tid'). unfold held in H0. lia.
  - intros tid' p' Hp' Hb. unfold held. simpl. destruct (decide (tid = tid')) as [<-|Hne].
    + rewrite lookup_insert_eq. simpl. change (held (set_mode s Exclusive) tid) with (held s tid). rewrite H0.
      destruct (v_blocking _ _ Hq tid k Hk) as [Hk0 _].
      replace p' with p by congruence. split; [done|lia].
    + rewrite lookup_delete_ne in Hb by done. destruct (Hw tid' p' Hp') as [k' ?]. congruence.
Qed.

Lemma shared_loop ps l s :
  queues s ps -> m_mode s = Shared -> m_behavior s = Regular -> m_holder s = None ->
  m_shared_holders s = m_times_locked s -> NoDup l -> (forall tid, tid ∈ l -> exists k, blocking s !! tid = Some k) ->
  exists s', unblock_all_shared l s = (s', Ok tt) /\ queues s' ps /\ m_mode s' = Shared /\ m_behavior s' = Regular /\
    m_holder s' = None /\ m_shared_holders s' = m_times_locked s' /\ m_times_locked s <= m_times_locked s' /\
    (l <> [] -> m_times_locked s < m_times_locked s') /\
    (forall tid, tid ∉ l -> blocking s' !! tid = blocking s !! tid /\ held s' tid = held s tid) /\
    (forall tid, tid ∈ l -> 0 < held s' tid).
Proof.
  intros Hq Hm Hb Hh Hs Hnd. revert s Hq Hm Hb Hh Hs. induction Hnd as [|tid l Hn Hnd IH]; intros s Hq Hm Hb Hh Hs Hall.
  { exists s. repeat (split; [done || lia|]). by intros ? ?%elem_of_nil. }
  destruct (Hall tid) as [k Hk]; [apply list_elem_of_here|]. destruct (v_blocking _ _ Hq tid k Hk) as [Hk0 _].
  pose proof (v_total _ _ Hq) as Htot. unfold total in Htot. pose proof (times_bounds s ps Hq) as Htb.
  pose proof (sum_member _ tid k (blocking_pos s ps Hq) Hk) as Hle.
  pose proof (sum_nonneg _ (blocking_pos s ps Hq)).
  cbn [unblock_all_shared]. unfold abind, modify. rewrite (unblock_given s tid k Hk). cbn [m_shared_holders given set_held].
  set (s1 := set_times _ _).
  assert (s1 = set_times (set_shared_holders (given s tid k) (m_times_locked s + k)) (m_times_locked s + k)) as E1.
  { unfold s1. simpl. rewrite Hs. unfold u64, u32. by rewrite !wrap_small by (unfold fits; lia). }
  destruct (IH s1) as (s' & E & Hq' & I1 & I2 & I3 & I4 & I5 & I6 & I7 & I8); rewrite ?E1; try done.
  { apply (given_queues s ps tid k (fun s' => set_times (set_shared_holders s' (m_times_locked s + k)) (m_times_locked s + k))); done. }
  { intros tid' Hin. simpl. rewrite lookup_delete_ne by (intros ->; done). apply Hall. by apply list_elem_of_further. }
  rewrite E1 in I5, I6, I7. simpl in I5, I6. exists s'. split; [by rewrite <- E, E1|]. repeat (split; [done|]). split; [lia|].
  split; [lia|]. split.
  - intros tid' Hn'. apply not_elem_of_cons in Hn' as [Hne Hn']. destruct (I7 tid' Hn') as [-> ->]. simpl.
    rewrite lookup_delete_ne by done. split; [done|]. unfold held. simpl. by rewrite lookup_insert_ne by done.
  - intros tid' [->|Hin]%elem_of_cons; [|by apply I8]. destruct (I7 tid Hn) as [_ ->]. unfold held. simpl.
    rewrite lookup_insert_eq. simpl. pose proof (held_le s tid (v_holds _ _ Hq)). unfold held in *. lia.
Qed.

Lemma set_mode_queues s ps mode : queues s ps -> queues (set_mode s mode) ps.
Proof. intros []. by constructor. Qed.

Lemma unblock_shared_ok s ps :
  idle s ps ->
  shared s = [] /\ unblock_shared s = (s, Ok false) \/
  exists s', unblock_shared s = (s', Ok true) /\ inv (sys s' ps).
Proof.
  intros [Hq Hm Ht Hh Hsh Hw]. unfold unblock_shared, abind, gets, modify, verify.
  destruct (shared s) as [|t0 l0] eqn:El; [by left|]. right. rewrite <- El.
  assert (m_behavior s = Regular) as Hb.
  { destruct (m_behavior s) eqn:Eb; [done|]. rewrite (v_big _ _ Hq Eb) in El. done. }
  rewrite bool_decide_true by done.
  destruct (shared_loop ps (shared s) (set_mode s Shared)) as (s' & E & Hq' & I1 & I2 & I3 & I4 & I5 & I6 & I7 & I8);
    try done; [by apply set_mode_queues|by simpl; lia|apply (v_nodup _ _ Hq)| |].
  { intros tid Hin. apply (v_shared _ _ Hq) in Hin as (p & Hp & _). simpl. by apply (Hw tid p). }
  rewrite E. eexists. split; [reflexivity|]. constructor; simpl; [done| |].
  - unfold mode_ok. rewrite I1. specialize (I6 ltac:(by rewrite El)). simpl in I6. split; [done|]. split; [lia|done].
  - intros tid p Hp Hbl. destruct (decide (tid ∈ shared s)) as [Hin|Hout].
    + split; [|by apply I8]. apply (v_shared _ _ Hq) in Hin as (p' & Hp' & E'). congruence.
    + destruct (I7 tid Hout) as [Eb _]. simpl in Eb. destruct (Hw tid p Hp) as [k ?]. congruence.
Qed.

Lemma idle_alone s ps : idle s ps -> waiters s Exclusive = [] -> shared s = [] -> inv (sys s ps).
Proof.
  intros [Hq Hm Ht Hh Hsh Hw] E1 E2.
  assert (forall tid p, ps !! tid = Some p -> False) as Hnone.
  { intros tid p Hp. pose proof (v_pcs _ _ Hq tid p Hp) as Hne. destruct (mode_of p) eqn:Em; [done| |].
    - assert (tid ∈ shared s) as Hin by (apply (v_shared _ _ Hq); eauto). rewrite E2 in Hin. by apply elem_of_nil in Hin.
    - assert (tid ∈ waiters s Exclusive) as Hin by (apply (v_exclusive _ _ Hq); eauto). rewrite E1 in Hin.
      by apply elem_of_nil in Hin. }
  constructor; simpl; [done| |].
  - unfold mode_ok. rewrite Hm. do 3 (split; [done|]). apply map_empty. intros tid.
    destruct (blocking s !! tid) as [k|] eqn:E; [|done]. destruct (v_blocking _ _ Hq tid k E) as [_ [p Hp]].
    by destruct (Hnone tid p).
  - intros tid p Hp. by destruct (Hnone tid p).
Qed.

Lemma unblock_waiters_ok s ps previous :
  idle s ps -> exists s', unblock_waiters previous s = (s', Ok tt) /\ inv (sys s' ps).
Proof.
  intros H. pose proof (unblock_exclusive_ok s ps H) as He. pose proof (unblock_shared_ok s ps H) as Hs.
  pose proof (idle_alone s ps H) as Ha. pose proof H as [Hq Hm Ht _ _ _].
  unfold unblock_waiters, abind, verify, gets, is_mode, ret.
  rewrite Ht. cbn [Z.eqb]. rewrite bool_decide_true by done. unfold waiters in He, Ha. destruct (m_behavior s) eqn:Eb.
  - destruct (decide (previous = Exclusive)).
    + destruct Hs as [[Es ->]|(s' & -> & ?)]; [|eauto]. destruct He as [[Ee ->]|(s' & -> & ?)]; eauto.
    + destruct He as [[Ee ->]|(s' & -> & ?)]; [|eauto]. destruct Hs as [[Es ->]|(s' & -> & ?)]; eauto.
  - destruct He as [[Ee ->]|(s' & -> & ?)]; [|eauto]. exists s. split; [done|]. apply Ha; [done|].
    by apply (v_big _ _ Hq).
Qed.

(** ** Going to sleep and waking up *)

Definition listed (l : list Z) (ps : gmap Z pc) (m : Mode) : Prop :=
  forall tid, tid ∈ l <-> exists p, ps !! tid = Some p /\ mode_of p = m.

Lemma listed_append l ps m tid p :
  listed l ps m -> ps !! tid = None -> listed (if decide (mode_of p = m) then l ++ [tid] else l) (<[tid := p]> ps) m.
Proof.
  intros H Hn tid'. destruct (decide (tid = tid')) as [<-|Hne].
  - rewrite lookup_insert_eq. case_decide as E; [|split; [|naive_solver]].
    + split; [eauto|]. intros _. apply elem_of_app. right. by apply list_elem_of_singleton.
    + intros Hin. apply H in Hin as (p' & ? & _). congruence.
  - rewrite lookup_insert_ne by done. rewrite <- (H tid'). case_decide; [|done].
    rewrite elem_of_app, list_elem_of_singleton. naive_solver.
Qed.

Lemma listed_remove l ps m tid p :
  listed l ps m -> ps !! tid = Some p ->
  listed (if decide (mode_of p = m) then filter (fun x => x <> tid) l else l) (delete tid ps) m.
Proof.
  intros H Hp tid'. destruct (decide (tid = tid')) as [<-|Hne].
  - rewrite lookup_delete_eq. case_decide as E; split; try naive_solver.
    + by intros [? _]%list_elem_of_filter.
    + intros (p' & ? & ?)%H. congruence.
  - rewrite lookup_delete_ne by done. rewrite <- (H tid'). case_decide; [|done].
    rewrite list_elem_of_filter. naive_solver.
Qed.

Lemma waiters_set s mode l :
  mode <> Unlocked -> (m_behavior s = BigLock -> mode = Exclusive) ->
  waiters (set_waiters s mode l) Exclusive = (if decide (mode = Exclusive) then l else waiters s Exclusive) /\
  shared (set_waiters s mode l) = (if decide (mode = Shared) then l else shared s).
Proof.
  intros Hm Hb. unfold waiters, set_waiters. destruct (m_behavior s) eqn:E, mode; simpl; rewrite ?E; try done.
  by specialize (Hb eq_refl).
Qed.

Lemma waiters_listed s ps mode :
  queues s ps -> mode <> Unlocked -> (m_behavior s = BigLock -> mode = Exclusive) -> listed (waiters s mode) ps mode /\
  NoDup (waiters s mode).
Proof.
  intros H Hm Hb. destruct mode; [done| |split; [exact (v_exclusive _ _ H)|apply (v_nodup _ _ H)]].
  unfold waiters. destruct (m_behavior s); [|by specialize (Hb eq_refl)].
  split; [exact (v_shared _ _ H)|apply (v_nodup _ _ H)].
Qed.

(** Changing who is in the queues. *)
Lemma requeue_queues s ps s' ps' mode l :
  queues s ps -> mode <> Unlocked -> (m_behavior s = BigLock -> mode = Exclusive) ->
  m_behavior s' = m_behavior s -> m_times_locked s' = m_times_locked s -> holds s' = holds s ->
  waiters s' Exclusive = waiters (set_waiters s mode l) Exclusive -> shared s' = shared (set_waiters s mode l) ->
  NoDup l ->
  (forall m, m <> Unlocked -> listed (if decide (m = mode) then l else match m with Shared => shared s | _ => waiters s Exclusive end) ps' m) ->
  total s' < 2 ^ 32 ->
  (forall tid k, blocking s' !! tid = Some k -> 0 < k /\ exists p, ps' !! tid = Some p) ->
  (forall tid p, ps' !! tid = Some p -> mode_of p <> Unlocked) ->
  queues s' ps'.
Proof.
  intros [H1 H2 H3 H4 H5 H6 [H7a H7b] H8 H9] Hm Hb E1 E2 E3 E4 E5 Hnd Hl Ht Hbl Hps.
  destruct (waiters_set s mode l Hm Hb) as [W1 W2]. rewrite W1 in E4. rewrite W2 in E5.
  constructor; try done.
  - by rewrite E2, E3.
  - by rewrite E3.
  - rewrite E4. specialize (Hl Exclusive ltac:(done)). destruct (decide (mode = Exclusive)) as [->|Hne];
      [by rewrite decide_True in Hl by done|by rewrite decide_False in Hl by (by intros <-)].
  - rewrite E5. specialize (Hl Shared ltac:(done)). destruct (decide (mode = Shared)) as [->|Hne];
      [by rewrite decide_True in Hl by done|by rewrite decide_False in Hl by (by intros <-)].
  - rewrite E4, E5. split; repeat case_match; done.
  - intros Eb. rewrite E1 in Eb. rewrite E5. specialize (Hb Eb). subst mode. by rewrite decide_False, H8.
Qed.

Lemma block_begin_ok x tid p k :
  inv x -> sleeping x !! tid = None -> mode_of p <> Unlocked ->
  (m_behavior (the_mutex x) = BigLock -> mode_of p = Exclusive) -> 0 < k -> total (the_mutex x) + k < 2 ^ 32 ->
  m_mode (the_mutex x) <> Unlocked ->
  exists s', block_begin tid (mode_of p) k (the_mutex x) = (s', Ok tt) /\ inv (sys s' (<[tid := p]> (sleeping x))).
Proof.
  intros [Hq Hmode Hg] Hn Hm Hb Hk Ht Hlocked. destruct x as [s ps]. simpl in *.
  destruct (waiters_listed s ps (mode_of p) Hq Hm Hb) as [Hl Hnd].
  assert (tid ∉ waiters s (mode_of p)) as Hout. { intros (p' & ? & _)%Hl. congruence. }
  assert (blocking s !! tid = None) as Hnb.
  { destruct (blocking s !! tid) eqn:E; [|done]. destruct (v_blocking _ _ Hq _ _ E) as [_ [? ?]]. congruence. }
  unfold block_begin, abind, verify, modify. rewrite bool_decide_true by done.
  assert (forall l, blocking (set_waiters s (mode_of p) l) = blocking s) as Hsw.
  { intros l. unfold set_waiters. by destruct (m_behavior s), (mode_of p). }
  rewrite Hsw, bool_decide_true by done. eexists. split; [reflexivity|].
  set (l := waiters s (mode_of p) ++ [tid]).
  set (s' := set_blocking _ _).
  assert (m_behavior s' = m_behavior s /\ m_times_locked s' = m_times_locked s /\ holds s' = holds s /\
    m_mode s' = m_mode s /\ m_holder s' = m_holder s /\ m_shared_holders s' = m_shared_holders s /\
    waiters s' Exclusive = waiters (set_waiters s (mode_of p) l) Exclusive /\ shared s' = shared (set_waiters s (mode_of p) l) /\
    blocking s' = <[tid := k]> (blocking s)) as (E1 & E2 & E3 & E4 & E5 & E6 & E7 & E8 & E9).
  { unfold s', set_blocking, set_waiters, waiters. by destruct (m_behavior s) eqn:Eb, (mode_of p); simpl; rewrite ?Eb. }
  clearbody s'. constructor; simpl.
  - apply (requeue_queues s ps s' (<[tid := p]> ps) (mode_of p) l); try done.
    + apply NoDup_app. split; [done|]. split; [|apply NoDup_singleton].
      intros y Hy ->%list_elem_of_singleton. done.
    + intros m Hmne. assert (listed (if decide (m = mode_of p) then waiters s (mode_of p) else
        match m with Shared => shared s | _ => waiters s Exclusive end) ps m) as Hold.
      { case_decide as E; [by rewrite E|]. destruct m; [done|exact (v_shared _ _ Hq)|exact (v_exclusive _ _ Hq)]. }
      pose proof (listed_append _ _ _ tid p Hold Hn) as Ha. destruct (decide (m = mode_of p)) as [->|Hne].
      * by rewrite decide_True in Ha by done.
      * by rewrite decide_False in Ha by (by intros E; apply Hne).
    + unfold total. rewrite E2, E9. unfold sum. rewrite msum_insert by done. unfold total, sum in Ht. lia.
    + intros tid' k' Hl'. rewrite E9 in Hl'. apply lookup_insert_Some in Hl' as [[<- <-]|[Hne Hl']].
      * split; [done|]. exists p. apply lookup_insert_eq.
      * destruct (v_blocking _ _ Hq _ _ Hl') as [? [p' ?]]. split; [done|]. exists p'. by rewrite lookup_insert_ne.
    + intros tid' p' [[<- <-]|[_ Hp']]%lookup_insert_Some; [done|]. by apply (v_pcs _ _ Hq tid').
  - unfold mode_ok, held in *. rewrite E1, E2, E3, E4, E5, E6. by destruct (m_mode s).
  - intros tid' p' Hp' Hb'. rewrite E9 in Hb'. apply lookup_insert_None in Hb' as [Hb' Hne].
    rewrite lookup_insert_ne in Hp' by done. unfold held. rewrite E3, E4. by apply Hg.
Qed.

(** A thread that was unblocked leaves the queue. *)
Lemma block_end_ok x tid p :
  inv x -> sleeping x !! tid = Some p -> blocking (the_mutex x) !! tid = None ->
  exists s', block_end tid (mode_of p) (the_mutex x) = (s', Ok tt) /\ inv (sys s' (delete tid (sleeping x))) /\
    m_mode s' = mode_of p /\ 0 < held s' tid.
Proof.
  intros [Hq Hmode Hg] Hp Hnb. destruct x as [s ps]. simpl in *. destruct (Hg tid p Hp Hnb) as [Em Hheld].
  pose proof (v_pcs _ _ Hq tid p Hp) as Hm.
  assert (m_behavior s = BigLock -> mode_of p = Exclusive) as Hb.
  { intros Eb. destruct (mode_of p) eqn:E; [done| |done]. assert (tid ∈ shared s) as Hin by (apply (v_shared _ _ Hq); eauto).
    rewrite (v_big _ _ Hq Eb) in Hin. by apply elem_of_nil in Hin. }
  destruct (waiters_listed s ps (mode_of p) Hq Hm Hb) as [Hl Hnd].
  unfold block_end, abind, verify, modify. rewrite bool_decide_true by done.
  rewrite bool_decide_true by (apply Hl; eauto). eexists. split; [reflexivity|].
  set (l := filter (fun x => x <> tid) (waiters s (mode_of p))). set (s' := set_waiters s (mode_of p) l).
  assert (m_behavior s' = m_behavior s /\ m_times_locked s' = m_times_locked s /\ holds s' = holds s /\
    m_mode s' = m_mode s /\ m_holder s' = m_holder s /\ m_shared_holders s' = m_shared_holders s /\
    blocking s' = blocking s) as (E1 & E2 & E3 & E4 & E5 & E6 & E9).
  { unfold s', set_waiters. by destruct (m_behavior s) eqn:Eb, (mode_of p). }
  assert (held s' tid = held s tid) as Eh by (unfold held; by rewrite E3).
  split; [|rewrite E4, Eh; done]. constructor; simpl.
  - apply (requeue_queues s ps s' (delete tid ps) (mode_of p) l); try done.
    + by apply NoDup_filter.
    + intros m Hmne. assert (listed (if decide (m = mode_of p) then waiters s (mode_of p) else
        match m with Shared => shared s | _ => waiters s Exclusive end) ps m) as Hold.
      { case_decide as E; [by rewrite E|]. destruct m; [done|exact (v_shared _ _ Hq)|exact (v_exclusive _ _ Hq)]. }
      pose proof (listed_remove _ _ _ tid p Hold Hp) as Ha. destruct (decide (m = mode_of p)) as [->|Hne].
      * by rewrite decide_True in Ha by done.
      * by rewrite decide_False in Ha by (by intros E; apply Hne).
    + unfold total. rewrite E2, E9. apply (v_total _ _ Hq).
    + intros tid' k' Hl'. rewrite E9 in Hl'. destruct (v_blocking _ _ Hq _ _ Hl') as [? [p' ?]]. split; [done|].
      exists p'. rewrite lookup_delete_ne; [done|]. intros <-. congruence.
    + intros tid' p' [_ Hp']%lookup_delete_Some. by apply (v_pcs _ _ Hq tid').
  - unfold mode_ok, held in *. rewrite E1, E2, E3, E4, E5, E6, E9. done.
  - intros tid' p' [Hne Hp']%lookup_delete_Some Hb'. rewrite E9 in Hb'. unfold held. rewrite E3, E4. by apply Hg.
Qed.

(** ** The steps *)

(** The locks of one running thread change by [d]. *)
Lemma change_queues s ps s' tid d :
  queues s ps -> 0 <= held s tid + d -> total s + d < 2 ^ 32 ->
  holds s' = <[tid := held s tid + d]> (holds s) -> m_times_locked s' = m_times_locked s + d ->
  blocking s' = blocking s -> waiters s' Exclusive = waiters s Exclusive -> shared s' = shared s ->
  m_behavior s' = m_behavior s -> queues s' ps.
Proof.
  intros [H1 H2 H3 H4 H5 H6 H7 H8 H9] Hd Ht E1 E2 E3 E4 E5 E6.
  constructor; unfold total; rewrite ?E1, ?E2, ?E3, ?E4, ?E5, ?E6; try done.
  - rewrite sum_held. lia.
  - by apply holds_insert.
  - unfold total in Ht. lia.
Qed.

Lemma change_inv s ps s' tid d :
  inv (sys s ps) -> ps !! tid = None -> 0 <= held s tid + d -> total s + d < 2 ^ 32 ->
  holds s' = <[tid := held s tid + d]> (holds s) -> m_times_locked s' = m_times_locked s + d ->
  blocking s' = blocking s -> waiters s' Exclusive = waiters s Exclusive -> shared s' = shared s ->
  m_behavior s' = m_behavior s -> (m_mode s <> Unlocked -> m_mode s' = m_mode s) -> mode_ok s' ->
  inv (sys s' ps).
Proof.
  intros [Hq Hm Hg] Hn Hd Ht E1 E2 E3 E4 E5 E6 Hmode Hok. simpl in *. constructor; simpl.
  - by apply (change_queues s ps s' tid d).
  - done.
  - intros tid' p Hp Hb. rewrite E3 in Hb. destruct (Hg tid' p Hp Hb) as [Em Hh].
    assert (m_mode s <> Unlocked) as Hl. { rewrite Em. by apply (v_pcs _ _ Hq tid'). }
    rewrite (Hmode Hl). split; [done|]. unfold held. rewrite E1, lookup_insert_ne by congruence. done.
Qed.

(** The last lock goes away. *)
Lemma release_idle s ps s' tid :
  inv (sys s ps) -> ps !! tid = None -> held s tid = m_times_locked s ->
  holds s' = <[tid := 0]> (holds s) -> m_times_locked s' = 0 -> m_mode s' = Unlocked -> m_holder s' = None ->
  m_shared_holders s' = 0 -> blocking s' = blocking s -> waiters s' Exclusive = waiters s Exclusive ->
  shared s' = shared s -> m_behavior s' = m_behavior s -> idle s' ps.
Proof.
  intros [Hq Hm Hg] Hn Hh E1 E2 E3 E4 E5 E6 E7 E8 E9. simpl in *. pose proof (times_bounds s ps Hq) as Htb.
  pose proof (v_total _ _ Hq) as Htot.
  constructor; try done.
  - apply (change_queues s ps s' tid (- m_times_locked s)); try done; rewrite ?Hh; try lia; try done.
    all: rewrite ?Z.add_opp_diag_r; try done; lia.
  - intros tid' p Hp. rewrite E6. destruct (blocking s !! tid') as [k|] eqn:E; [eauto|].
    destruct (Hg tid' p Hp E) as [_ Hpos]. exfalso.
    assert (holds s !! tid' <> None) as Hin by (unfold held in Hpos; by destruct (holds s !! tid')).
    assert (sum (<[tid := 0]> (holds s)) = 0) as Hs0.
    { pose proof (sum_held s tid (- held s tid)) as Hsum. rewrite Z.add_opp_diag_r in Hsum.
      rewrite Hsum, <- (v_times _ _ Hq). lia. }
    pose proof (held_le (set_held s tid 0) tid') as Hle. simpl in Hle. rewrite Hs0, held_insert, decide_False in Hle
      by congruence. specialize (Hle (holds_insert s tid 0 (v_holds _ _ Hq) ltac:(lia))). lia.
Qed.

Lemma sleep_ok x tid p k :
  inv x -> sleeping x !! tid = None -> mode_of p <> Unlocked ->
  (m_behavior (the_mutex x) = BigLock -> mode_of p = Exclusive) -> 0 < k -> total (the_mutex x) + k < 2 ^ 32 ->
  m_mode (the_mutex x) <> Unlocked ->
  exists x', after_lock tid p (sleeping x) ((let* _ := block_begin tid (mode_of p) k in ret true) (the_mutex x)) = Some x' /\ inv x'.
Proof.
  intros H1 H2 H3 H4 H5 H6 H7. destruct (block_begin_ok x tid p k H1 H2 H3 H4 H5 H6 H7) as (s' & E & H).
  unfold abind. rewrite E. simpl. eauto.
Qed.

Lemma wraps s ps k :
  queues s ps -> 0 <= k -> total s + k < 2 ^ 32 ->
  u32 (m_times_locked s + k) = m_times_locked s + k /\ u64 (m_times_locked s + k) = m_times_locked s + k.
Proof.
  intros Hq Hk Ht. pose proof (times_bounds s ps Hq). pose proof (sum_nonneg _ (blocking_pos s ps Hq)).
  unfold total in Ht. unfold u32, u64. by rewrite !wrap_small by (unfold fits; lia).
Qed.

(** Nobody else holds a lock that is free or whose holder takes another one. *)
Lemma only_holder s ps tid d s' :
  queues s ps -> holds s' = <[tid := held s tid + d]> (holds s) ->
  m_times_locked s = 0 \/ (forall tid', 0 < held s tid' -> tid' = tid) ->
  forall tid', 0 < held s' tid' -> tid' = tid.
Proof.
  intros Hq E H tid' Hpos. unfold held in Hpos. rewrite E in Hpos. destruct (decide (tid = tid')) as [|Hne]; [done|].
  rewrite lookup_insert_ne in Hpos by done. destruct H as [H|H]; [|by apply H].
  pose proof (held_le s tid' (v_holds _ _ Hq)) as Hle. pose proof (v_times _ _ Hq). unfold held in Hle. lia.
Qed.

Lemma lock_free s ps tid mode :
  inv (sys s ps) -> ps !! tid = None -> mode <> Unlocked -> (m_behavior s = BigLock -> mode = Exclusive) ->
  total s + 1 < 2 ^ 32 -> m_mode s = Unlocked ->
  exists x', after_lock tid (Locking mode) ps (lock tid mode s) = Some x' /\ inv x'.
Proof.
  intros H Hn Hm Hb Ht Em. pose proof H as [Hq Hmode Hg]. simpl in *. unfold mode_ok in Hmode. rewrite Em in Hmode.
  destruct Hmode as (T & Hh0 & Hs0 & Hbl). pose proof (held_le s tid (v_holds _ _ Hq)) as Hh.
  assert (forall s', holds s' = <[tid := held s tid + 1]> (holds s) -> m_times_locked s' = 1 -> blocking s' = blocking s ->
    waiters s' Exclusive = waiters s Exclusive -> shared s' = shared s -> m_behavior s' = m_behavior s ->
    mode_ok s' -> inv (sys s' ps)) as Hgo.
  { intros s' E1 E2 E3 E4 E5 E6 Hok. apply (change_inv s ps s' tid 1); try done; lia. }
  unfold lock, abind, gets, modify, verify, is_holder. rewrite bool_decide_false by done. cbn [negb]. rewrite Em.
  cbn [m_holder set_mode]. rewrite bool_decide_true by done.
  cbn [m_shared_holders set_mode]. rewrite Hs0. cbn [Z.eqb].
  destruct (decide (mode = Exclusive)) as [->|Hne].
  - cbn [m_times_locked set_mode set_holder]. rewrite T. cbn [Z.eqb]. eexists. split; [reflexivity|].
    apply Hgo; try done; [by simpl; rewrite T|]. unfold mode_ok. simpl. rewrite T. split; [done|]. split; [done|]. exists tid. split; [done|].
    apply (only_holder s ps tid 1); [done|done|by left].
  - assert (mode = Shared) as -> by (by destruct mode).
    assert (m_behavior s = Regular) as Hreg by (destruct (m_behavior s); [done|by specialize (Hb eq_refl)]).
    rewrite bool_decide_true by done. cbn [m_times_locked set_mode set_shared_holders]. rewrite T. cbn [Z.eqb].
    eexists. split; [reflexivity|]. apply Hgo; try done; [by simpl; rewrite T|].
    unfold mode_ok. simpl. by rewrite T, Hs0.
Qed.

Lemma lock_when_shared s ps tid mode :
  inv (sys s ps) -> ps !! tid = None -> mode <> Unlocked -> (m_behavior s = BigLock -> mode = Exclusive) ->
  total s + 1 < 2 ^ 32 -> m_mode s = Shared ->
  exists x', after_lock tid (Locking mode) ps (lock tid mode s) = Some x' /\ inv x'.
Proof.
  intros H Hn Hm Hb Ht Em. pose proof H as [Hq Hmode Hg]. simpl in *. unfold mode_ok in Hmode. rewrite Em in Hmode.
  destruct Hmode as (Hreg & T & Hh0 & Hs0). pose proof (held_le s tid (v_holds _ _ Hq)) as Hh.
  destruct (wraps s ps 1 Hq ltac:(lia) Ht) as [U1 U2].
  unfold lock. unfold abind at 1, verify at 1. rewrite bool_decide_false by done. cbn [negb].
  unfold abind at 1, gets. rewrite Em. unfold abind at 1, verify at 1. rewrite bool_decide_true by done.
  unfold abind at 1, verify at 1, is_holder. rewrite bool_decide_true by done.
  destruct (decide (mode = Exclusive)) as [->|Hne].
  { apply (sleep_ok (sys s ps) tid (Locking Exclusive) 1); simpl; try done. by rewrite Em. }
  unfold abind, modify, verify. rewrite (proj2 (Z.ltb_lt _ _) T). cbn [m_shared_holders set_times].
  rewrite Hs0, (proj2 (Z.ltb_lt _ _) T). eexists. split; [reflexivity|].
  apply (change_inv s ps _ tid 1); try done; [lia|]. unfold mode_ok. simpl. rewrite Em, U1, ?Hs0, U2. split; [done|]. split; [lia|done].
Qed.

Lemma lock_when_exclusive s ps tid mode :
  inv (sys s ps) -> ps !! tid = None -> mode <> Unlocked -> (m_behavior s = BigLock -> mode = Exclusive) ->
  total s + 1 < 2 ^ 32 -> m_mode s = Exclusive ->
  exists x', after_lock tid (Locking mode) ps (lock tid mode s) = Some x' /\ inv x'.
Proof.
  intros H Hn Hm Hb Ht Em. pose proof H as [Hq Hmode Hg]. simpl in *. unfold mode_ok in Hmode. rewrite Em in Hmode.
  destruct Hmode as (T & Hs0 & h & Hh0 & Hall). pose proof (held_le s tid (v_holds _ _ Hq)) as Hh.
  destruct (wraps s ps 1 Hq ltac:(lia) Ht) as [U1 U2].
  unfold lock. unfold abind at 1, verify at 1. rewrite bool_decide_false by done. cbn [negb].
  unfold abind at 1, gets. rewrite Em. unfold abind at 1, verify at 1, is_holder at 1. rewrite Hh0.
  rewrite bool_decide_false by done. cbn [negb]. unfold is_holder. rewrite Hh0.
  destruct (decide (h = tid)) as [->|Hne].
  - rewrite bool_decide_true by done. unfold abind, modify, verify. rewrite Hs0. cbn [Z.eqb].
    rewrite (proj2 (Z.ltb_lt _ _) T). eexists. split; [reflexivity|].
    apply (change_inv s ps _ tid 1); try done; [lia|]. unfold mode_ok. simpl. rewrite Em, U1. split; [lia|]. split; [done|].
    exists tid. split; [done|]. apply (only_holder s ps tid 1); [done|done|by right].
  - rewrite bool_decide_false by congruence.
    apply (sleep_ok (sys s ps) tid (Locking mode) 1); simpl; try done. by rewrite Em.
Qed.

Lemma lock_ok x tid mode :
  inv x -> sleeping x !! tid = None -> mode <> Unlocked -> (m_behavior (the_mutex x) = BigLock -> mode = Exclusive) ->
  total (the_mutex x) + 1 < 2 ^ 32 ->
  exists x', after_lock tid (Locking mode) (sleeping x) (lock tid mode (the_mutex x)) = Some x' /\ inv x'.
Proof.
  destruct x as [s ps]. simpl. intros H Hn Hm Hb Ht. destruct (m_mode s) eqn:Em.
  - by apply lock_free.
  - by apply lock_when_shared.
  - by apply lock_when_exclusive.
Qed.

Lemma resumed_ok x tid mode :
  inv x -> sleeping x !! tid = Some (Locking mode) -> blocking (the_mutex x) !! tid = None ->
  exists x', after (delete tid (sleeping x)) (lock_resumed tid mode (the_mutex x)) = Some x' /\ inv x'.
Proof.
  intros H Hp Hb. destruct (block_end_ok x tid (Locking mode) H Hp Hb) as (s' & E & H' & Em & Hh). simpl in E, Em.
  unfold lock_resumed, abind. rewrite E. unfold verify, is_mode, is_holder. rewrite bool_decide_true by done.
  eexists. split; [|exact H']. destruct H' as [Hq Hmode _]. simpl in Hq, Hmode. unfold mode_ok in Hmode.
  pose proof (v_pcs _ _ (v_queues _ H) tid _ Hp) as Hm. simpl in Hm. destruct (m_mode s'); [congruence| |].
  - destruct Hmode as (_ & T & -> & ->). rewrite bool_decide_true, (proj2 (Z.ltb_lt _ _) T) by done.
    cbn [andb]. by rewrite (proj2 (Z.ltb_lt _ _) T).
  - destruct Hmode as (T & -> & h & -> & Hall). rewrite (Hall tid Hh).
    rewrite bool_decide_true by done. cbn [andb Z.eqb]. by rewrite (proj2 (Z.ltb_lt _ _) T).
Qed.

Lemma restored_ok x tid :
  inv x -> sleeping x !! tid = Some Restoring -> blocking (the_mutex x) !! tid = None ->
  exists x', after (delete tid (sleeping x)) (restore_resumed tid (the_mutex x)) = Some x' /\ inv x'.
Proof.
  intros H Hp Hb. destruct (block_end_ok x tid Restoring H Hp Hb) as (s' & E & H' & Em & Hh). simpl in E, Em.
  unfold restore_resumed, abind. rewrite E. unfold verify, is_mode, is_holder. rewrite bool_decide_true by done.
  eexists. split; [|exact H']. destruct H' as [Hq Hmode _]. simpl in Hq, Hmode. unfold mode_ok in Hmode.
  rewrite Em in Hmode. destruct Hmode as (T & -> & h & Hh0 & Hall). cbn [Z.eqb].
  rewrite (proj2 (Z.ltb_lt _ _) T). rewrite bool_decide_true; [done|]. by rewrite (Hall tid Hh).
Qed.

(** The holder of an exclusive lock holds all of it. *)
Lemma holder_holds_all s ps tid :
  queues s ps -> (forall tid', 0 < held s tid' -> tid' = tid) -> held s tid = m_times_locked s.
Proof.
  intros Hq Hall. rewrite (v_times _ _ Hq).
  pose proof (sum_held s tid (- held s tid)) as Hsum. rewrite Z.add_opp_diag_r in Hsum.
  enough (sum (<[tid := 0]> (holds s)) = 0) by lia. apply msum_zero. intros tid' n Hl.
  apply lookup_insert_Some in Hl as [[_ <-]|[Hne Hl]]; [done|]. pose proof (v_holds _ _ Hq tid' n Hl).
  assert (~ 0 < held s tid') as Hnot by (intros Hp; by apply Hne, eq_sym, Hall). unfold held in Hnot.
  rewrite Hl in Hnot. simpl in Hnot. lia.
Qed.

Lemma unlock_exclusive s ps tid :
  inv (sys s ps) -> ps !! tid = None -> 0 < held s tid -> m_mode s = Exclusive ->
  exists x', after ps (unlock tid s) = Some x' /\ inv x'.
Proof.
  intros H Hn Hpos Em. pose proof H as [Hq Hmode Hg]. simpl in *. unfold mode_ok in Hmode. rewrite Em in Hmode.
  destruct Hmode as (T & Hs0 & h & Hh0 & Hall). pose proof (Hall tid Hpos) as <-.
  pose proof (times_bounds s ps Hq) as Htb. pose proof (holder_holds_all s ps tid Hq Hall) as Hheld.
  unfold unlock, abind, gets, modify, verify, is_holder. rewrite Em, bool_decide_false by done. cbn [negb].
  rewrite (proj2 (Z.ltb_lt _ _) T). cbn [m_holder set_times]. rewrite bool_decide_true by done.
  cbn [m_shared_holders set_times]. rewrite Hs0. cbn [Z.eqb m_times_locked set_times].
  assert (u32 (m_times_locked s - 1) = m_times_locked s - 1) as -> by (unfold u32; rewrite wrap_small; [done|unfold fits; lia]).
  destruct (Z.eqb_spec (m_times_locked s - 1) 0) as [Ez|Ez];
    cbn [m_times_locked set_times set_holder set_held]; rewrite ?(proj2 (Z.eqb_eq _ _) Ez), ?(proj2 (Z.eqb_neq _ _) Ez).
  - cbn [m_holder set_holder set_held set_times]. rewrite bool_decide_true by done.
    set (s1 := set_mode _ Unlocked). destruct (unblock_waiters_ok s1 ps Exclusive) as (s' & -> & H').
    { apply (release_idle s ps s1 tid); try done. unfold s1. simpl. f_equal. unfold held in *. simpl. lia. }
    eexists. split; [reflexivity|done].
  - eexists. split; [reflexivity|]. pose proof (v_total _ _ Hq).
    apply (change_inv s ps _ tid (-1)); try done; [lia|lia|]. unfold mode_ok. simpl. rewrite Em. split; [lia|]. split; [done|].
    exists tid. split; [done|]. apply (only_holder s ps tid (-1)); [done|done|by right].
Qed.

Lemma unlock_shared s ps tid :
  inv (sys s ps) -> ps !! tid = None -> 0 < held s tid -> m_mode s = Shared ->
  exists x', after ps (unlock tid s) = Some x' /\ inv x'.
Proof.
  intros H Hn Hpos Em. pose proof H as [Hq Hmode Hg]. simpl in *. unfold mode_ok in Hmode. rewrite Em in Hmode.
  destruct Hmode as (Hreg & T & Hh0 & Hs0). pose proof (times_bounds s ps Hq) as Htb.
  pose proof (held_le s tid (v_holds _ _ Hq)) as Hle. rewrite <- (v_times _ _ Hq) in Hle.
  unfold unlock, abind, gets, modify, verify, is_holder. rewrite Em, bool_decide_false by done. cbn [negb].
  rewrite (proj2 (Z.ltb_lt _ _) T). cbn [m_holder set_times]. rewrite bool_decide_true by done.
  cbn [m_shared_holders set_times]. rewrite Hs0, (proj2 (Z.ltb_lt _ _) T).
  cbn [m_times_locked set_times set_shared_holders set_held].
  change (m_shared_holders (set_times s ?n)) with (m_shared_holders s). rewrite Hs0.
  assert (u32 (m_times_locked s - 1) = m_times_locked s - 1 /\ u64 (m_times_locked s - 1) = m_times_locked s - 1)
    as [-> ->] by (unfold u32, u64; rewrite !wrap_small; done || unfold fits; lia).
  destruct (Z.eqb_spec (m_times_locked s - 1) 0) as [Ez|Ez].
  - cbn [m_shared_holders set_shared_holders set_held set_times]. rewrite (proj2 (Z.eqb_eq _ _) Ez).
    set (s1 := set_mode _ Unlocked). destruct (unblock_waiters_ok s1 ps Shared) as (s' & -> & H').
    { apply (release_idle s ps s1 tid); try done; [lia|]. unfold s1. simpl. f_equal. unfold held in *. simpl. lia. }
    eexists. split; [reflexivity|done].
  - eexists. split; [reflexivity|]. pose proof (v_total _ _ Hq).
    apply (change_inv s ps _ tid (-1)); try done; [lia|lia|]. unfold mode_ok. simpl. rewrite Em. split; [done|]. split; [lia|done].
Qed.

Lemma unlock_ok x tid :
  inv x -> sleeping x !! tid = None -> 0 < held (the_mutex x) tid ->
  exists x', after (sleeping x) (unlock tid (the_mutex x)) = Some x' /\ inv x'.
Proof.
  destruct x as [s ps]. simpl. intros H Hn Hpos. destruct (m_mode s) eqn:Em.
  - pose proof (held_le s tid (v_holds _ _ (v_queues _ H))) as Hle. pose proof (v_times _ _ (v_queues _ H)) as Ht.
    pose proof (v_mode _ H) as Hm. unfold mode_ok in Hm. simpl in *. rewrite Em in Hm. lia.
  - by apply unlock_shared.
  - by apply unlock_exclusive.
Qed.

Lemma force_ok x tid :
  inv x -> sleeping x !! tid = None -> m_behavior (the_mutex x) = BigLock ->
  exists x', after (sleeping x) (force_unlock_exclusive_if_locked tid (the_mutex x)) = Some x' /\ inv x'.
Proof.
  destruct x as [s ps]. simpl. intros H Hn Hb. pose proof H as [Hq Hmode Hg]. simpl in *. unfold mode_ok in Hmode.
  unfold force_unlock_exclusive_if_locked, abind, gets, modify, verify, is_holder. rewrite bool_decide_true by done.
  destruct (m_mode s) eqn:Em; [simpl; eauto|destruct Hmode; congruence|].
  destruct Hmode as (T & Hs0 & h & Hh0 & Hall). rewrite Hh0. destruct (decide (h = tid)) as [->|Hne].
  2: { rewrite bool_decide_false by congruence. cbn [negb]. simpl. eauto. }
  rewrite bool_decide_true by done. cbn [negb m_times_locked set_holder]. rewrite (proj2 (Z.ltb_lt _ _) T).
  set (s1 := set_held _ tid _). destruct (unblock_waiters_ok s1 ps Exclusive) as (s' & -> & H').
  { pose proof (holder_holds_all s ps tid Hq Hall) as Hheld.
    apply (release_idle s ps s1 tid); try done. unfold s1. simpl. f_equal. unfold held in *. simpl. lia. }
  eexists. split; [reflexivity|done].
Qed.

Lemma restore_ok x tid n :
  inv x -> sleeping x !! tid = None -> m_behavior (the_mutex x) = BigLock -> 0 < n -> total (the_mutex x) + n < 2 ^ 32 ->
  exists x', after_lock tid Restoring (sleeping x) (restore_exclusive_lock tid n (the_mutex x)) = Some x' /\ inv x'.
Proof.
  destruct x as [s ps]. simpl. intros H Hn Hb Hpos Ht. pose proof H as [Hq Hmode Hg]. simpl in *.
  pose proof (held_le s tid (v_holds _ _ Hq)) as Hh. destruct (wraps s ps n Hq ltac:(lia) Ht) as [U1 U2].
  unfold restore_exclusive_lock. unfold abind at 1, verify at 1. rewrite bool_decide_true by done.
  unfold abind at 1, verify at 1. rewrite (proj2 (Z.ltb_lt _ _) Hpos). unfold abind at 1, gets.
  unfold mode_ok in Hmode. unfold is_mode, is_holder. destruct (m_mode s) eqn:Em; [|destruct Hmode; congruence|].
  - destruct Hmode as (T & Hh0 & Hs0 & _). rewrite bool_decide_false by done. cbn [andb].
    unfold abind, verify, modify, is_holder. rewrite Em, bool_decide_false by done. cbn [negb]. rewrite Hs0. cbn [Z.eqb].
    rewrite bool_decide_true by done. cbn [m_times_locked set_mode]. rewrite T. cbn [Z.eqb m_holder set_mode set_times].
    rewrite bool_decide_true by done. eexists. split; [reflexivity|].
    apply (change_inv s ps _ tid n); try done; [lia|simpl; lia|]. unfold mode_ok. simpl. split; [done|]. split; [done|].
    exists tid. split; [done|]. apply (only_holder s ps tid n); [done|done|by left].
  - destruct Hmode as (T & Hs0 & h & Hh0 & Hall). rewrite bool_decide_true by done. rewrite Hh0.
    destruct (decide (h = tid)) as [->|Hne].
    + rewrite bool_decide_true by done. cbn [andb negb]. unfold abind, verify, modify, is_mode, is_holder.
      rewrite Em, bool_decide_false by done. cbn [negb]. rewrite Hs0. cbn [Z.eqb].
      rewrite bool_decide_false, bool_decide_true by done. rewrite Hh0, bool_decide_true by done.
      rewrite (proj2 (Z.ltb_lt _ _) T), U1. eexists. split; [reflexivity|].
      apply (change_inv s ps _ tid n); try done; [lia|]. unfold mode_ok. simpl. rewrite Em. split; [lia|]. split; [done|].
      exists tid. split; [done|]. apply (only_holder s ps tid n); [done|done|by right].
    + rewrite bool_decide_false by congruence. cbn [andb negb].
      apply (sleep_ok (sys s ps) tid Restoring n); simpl; try done. by rewrite Em.
Qed.

Lemma step_inv x o : inv x -> step x o -> exists x', o = Some x' /\ inv x'.
Proof.
  intros H Hs. destruct Hs.
  - by apply lock_ok.
  - by apply resumed_ok.
  - by apply unlock_ok.
  - by apply force_ok.
  - by apply restore_ok.
  - by apply restored_ok.
Qed.

Lemma start_inv behavior : inv (sys (make behavior) ∅).
Proof.
  constructor; simpl; [|done|done]. constructor; simpl; try done.
  - intros tid. split; [|by intros (p & ? & _)]. unfold waiters. simpl. by destruct behavior; intros ?%elem_of_nil.
  - intros tid. split; [by intros ?%elem_of_nil|by intros (p & ? & _)].
  - unfold waiters. simpl. by destruct behavior; split; apply NoDup_nil.
Qed.

Lemma reachable_ok behavior o : reachable behavior o -> exists x, o = Some x /\ inv x.
Proof.
  induction 1 as [|x o _ (x' & [= <-] & H) Hs]; [eexists; split; [done|apply start_inv]|by apply (step_inv x)].
Qed.

End Mutex.

(** C18: a lock excludes and loses nobody.  However threads interleave that lock, sleep,
    wake up and unlock, and release and restore the big lock, no assertion
    fails.  While the lock is exclusive exactly its holder holds it; a lock that
    is free is held by nobody and nobody sleeps waiting for it; the count of
    locks is the number held; and a thread that was woken holds the lock in the
    mode it asked for. *)
Theorem mutex_excludes (behavior : Mutex.MutexBehavior) (o : option Mutex.system) :
  Mutex.reachable behavior o ->
  exists s ps, o = Some (Mutex.sys s ps) /\
    (Mutex.m_mode s = Mutex.Exclusive -> exists h, Mutex.m_holder s = Some h /\
       forall tid, 0 < Mutex.held s tid <-> tid = h) /\
    (Mutex.m_mode s = Mutex.Unlocked -> Mutex.blocking s = ∅ /\ forall tid, Mutex.held s tid = 0) /\
    (Mutex.m_mode s = Mutex.Shared -> Mutex.m_holder s = None /\ 0 < Mutex.m_times_locked s) /\
    Mutex.m_times_locked s = Mutex.sum (Mutex.holds s) /\
    (forall tid p, ps !! tid = Some p -> Mutex.blocking s !! tid = None ->
       Mutex.m_mode s = Mutex.mode_of p /\ 0 < Mutex.held s tid).
Proof.
  intros Hr. destruct (Mutex.reachable_ok behavior o Hr) as ([s ps] & -> & [Hq Hm Hg]). simpl in *.
  exists s, ps. split; [done|]. unfold Mutex.mode_ok in Hm.
  pose proof (Mutex.v_times _ _ Hq) as Ht. pose proof (fun tid => Mutex.held_le s tid (Mutex.v_holds _ _ Hq)) as Hle.
  split; [|split; [|split; [|split; [done|done]]]]; intros E; rewrite E in Hm.
  - destruct Hm as (T & _ & h & Hh & Hall). exists h. split; [done|]. intros tid. split; [apply Hall|]. intros ->.
    by rewrite (Mutex.holder_holds_all s ps h Hq Hall).
  - destruct Hm as (T & _ & _ & Hb). split; [done|]. intros tid. specialize (Hle tid). lia.
  - by destruct Hm as (_ & ? & ? & _).
Qed.

(** ** A sample: thread 1 locks exclusively, thread 2 sleeps until it may share *)

Definition mutex_state (o : option Mutex.system) : Mutex.system :=
  default (Mutex.sys (Mutex.make Mutex.Regular) ∅) o.

Definition mutex_sample1 : Mutex.system :=
  mutex_state (Mutex.after_lock 1 (Mutex.Locking Mutex.Exclusive) ∅
    (Mutex.lock 1 Mutex.Exclusive (Mutex.make Mutex.Regular))).
Definition mutex_sample2 : Mutex.system :=
  mutex_state (Mutex.after_lock 2 (Mutex.Locking Mutex.Shared) (Mutex.sleeping mutex_sample1)
    (Mutex.lock 2 Mutex.Shared (Mutex.the_mutex mutex_sample1))).
Definition mutex_sample3 : option Mutex.system :=
  Mutex.after (Mutex.sleeping mutex_sample2) (Mutex.unlock 1 (Mutex.the_mutex mutex_sample2)).

Lemma mutex_sample3_reachable : Mutex.reachable Mutex.Regular mutex_sample3.
Proof.
  apply (Mutex.reach_step _ mutex_sample2); [|by apply Mutex.step_unlock].
  apply (Mutex.reach_step _ mutex_sample1); [|by apply (Mutex.step_lock mutex_sample1 2 Mutex.Shared)].
  apply (Mutex.reach_step _ _ _ (Mutex.reach_start _)).
  by apply (Mutex.step_lock (Mutex.sys (Mutex.make Mutex.Regular) ∅) 1 Mutex.Exclusive).
Qed.

Lemma mutex_excludes_witness :
  exists s ps, mutex_sample3 = Some (Mutex.sys s ps) /\
    ps !! 2 = Some (Mutex.Locking Mutex.Shared) /\ Mutex.m_mode s = Mutex.Shared /\ 0 < Mutex.held s 2.
Proof.
  destruct (mutex_excludes Mutex.Regular mutex_sample3 mutex_sample3_reachable) as (s & ps & E & _ & _ & _ & _ & H).
  exists s, ps. split; [exact E|]. vm_compute in E. injection E as <- <-. split; [reflexivity|].
  apply (H 2 (Mutex.Locking Mutex.Shared)); reflexivity.
Defined.
