(* ===== verification/TimerQueue.v ===== *)
(** The queue of kernel timers ([Kernel/Time/TimerQueue.h], [TimerQueue.cpp]):
    adding and cancelling timers while the timer interrupt and the calls it
    deferred run on other processors. *)

From Stdlib Require Import Sorted.
From S2P Require Import Prelude.

Module TimerQueue.
#[local] Open Scope Z_scope.

(** ** Timers and queues *)

Abbreviation CLOCK_REALTIME := 0%Z (only parsing).
Abbreviation CLOCK_MONOTONIC := 1%Z (only parsing).
Abbreviation CLOCK_MONOTONIC_RAW := 2%Z (only parsing).
Abbreviation CLOCK_REALTIME_COARSE := 3%Z (only parsing).
Abbreviation CLOCK_MONOTONIC_COARSE := 4%Z (only parsing).

(** A timer; durations are numbers of nanoseconds. *)
Record Timer : Type := timer {
  m_id : Z;
  m_clock_id : Z;
  m_expires : Z;
  m_remaining : Z;
  m_cancelled : bool;
  m_callback_finished : bool;
  m_in_use : bool;
  m_ref_count : Z
}.

Record Queue : Type := queue {
  list_of : list Z;
  next_timer_due : Z
}.

(** Where a deferred call is: queued, about to run the callback, about to leave
    the list of executing timers, about to clear [m_in_use], about to set
    [m_callback_finished], about to drop its reference. *)
Inductive call_pc : Type := Queued | Callback | Unlist | ClearUse | Finish | Drop.

(** Where [cancel_timer] is: at its start, before [set_cancelled], before
    [clear_in_use], before taking the lock, waiting for the callback. *)
Inductive cancel_pc : Type := Start | Exchange | Unuse | Lock | Spin.

#[global] Instance call_pc_eq_dec : EqDecision call_pc.
Proof. solve_decision. Defined.
#[global] Instance cancel_pc_eq_dec : EqDecision cancel_pc.
Proof. solve_decision. Defined.

(** The timers by address, the queues, the deferred calls and the calls of
    [cancel_timer] in progress.  [ran] and [revoked] are history: the timers
    whose callback ran, and those a cancellation returned [true] for, since
    they were last added. *)
Record t : Type := timer_queue {
  timers : gmap Z Timer;
  m_timer_queue_monotonic : Queue;
  m_timer_queue_realtime : Queue;
  m_timers_executing : list Z;
  m_timer_id_count : Z;
  calls : list (Z * call_pc);
  cancels : list (Z * cancel_pc);
  ran : gset Z;
  revoked : gset Z
}.

Definition set_timer (i : Z) (f : Timer -> Timer) (s : t) : t :=
  timer_queue (alter f i (timers s)) (m_timer_queue_monotonic s) (m_timer_queue_realtime s)
    (m_timers_executing s) (m_timer_id_count s) (calls s) (cancels s) (ran s) (revoked s).
Definition set_monotonic (q : Queue) (s : t) : t :=
  timer_queue (timers s) q (m_timer_queue_realtime s) (m_timers_executing s) (m_timer_id_count s)
    (calls s) (cancels s) (ran s) (revoked s).
Definition set_realtime (q : Queue) (s : t) : t :=
  timer_queue (timers s) (m_timer_queue_monotonic s) q (m_timers_executing s) (m_timer_id_count s)
    (calls s) (cancels s) (ran s) (revoked s).
Definition set_executing (l : list Z) (s : t) : t :=
  timer_queue (timers s) (m_timer_queue_monotonic s) (m_timer_queue_realtime s) l
    (m_timer_id_count s) (calls s) (cancels s) (ran s) (revoked s).
Definition set_id_count (n : Z) (s : t) : t :=
  timer_queue (timers s) (m_timer_queue_monotonic s) (m_timer_queue_realtime s)
    (m_timers_executing s) n (calls s) (cancels s) (ran s) (revoked s).
Definition set_calls (l : list (Z * call_pc)) (s : t) : t :=
  timer_queue (timers s) (m_timer_queue_monotonic s) (m_timer_queue_realtime s)
    (m_timers_executing s) (m_timer_id_count s) l (cancels s) (ran s) (revoked s).
Definition set_cancels (l : list (Z * cancel_pc)) (s : t) : t :=
  timer_queue (timers s) (m_timer_queue_monotonic s) (m_timer_queue_realtime s)
    (m_timers_executing s) (m_timer_id_count s) (calls s) l (ran s) (revoked s).
Definition set_history (a b : gset Z) (s : t) : t :=
  timer_queue (timers s) (m_timer_queue_monotonic s) (m_timer_queue_realtime s)
    (m_timers_executing s) (m_timer_id_count s) (calls s) (cancels s) a b.

Definition with_setup (clock expires : Z) (x : Timer) : Timer :=
  timer (m_id x) clock expires (m_remaining x) (m_cancelled x) (m_callback_finished x) (m_in_use x)
    (m_ref_count x).
Definition with_id (i : Z) (x : Timer) : Timer :=
  timer i (m_clock_id x) (m_expires x) (m_remaining x) (m_cancelled x) (m_callback_finished x)
    (m_in_use x) (m_ref_count x).
Definition with_remaining (d : Z) (x : Timer) : Timer :=
  timer (m_id x) (m_clock_id x) (m_expires x) d (m_cancelled x) (m_callback_finished x)
    (m_in_use x) (m_ref_count x).
Definition with_flags (cancelled finished in_use : bool) (x : Timer) : Timer :=
  timer (m_id x) (m_clock_id x) (m_expires x) (m_remaining x) cancelled finished in_use (m_ref_count x).
Definition with_refs (n : Z) (x : Timer) : Timer :=
  timer (m_id x) (m_clock_id x) (m_expires x) (m_remaining x) (m_cancelled x) (m_callback_finished x)
    (m_in_use x) n.

Definition the_timer (i : Z) (s : t) : outcome Timer :=
  match timers s !! i with Some x => Ok x | None => Undefined end.

Inductive queue_name : Type := Monotonic | Realtime.

#[global] Instance queue_name_eq_dec : EqDecision queue_name.
Proof. solve_decision. Defined.

Definition get_queue (n : queue_name) (s : t) : Queue :=
  match n with Monotonic => m_timer_queue_monotonic s | Realtime => m_timer_queue_realtime s end.
Definition put_queue (n : queue_name) (q : Queue) (s : t) : t :=
  match n with Monotonic => set_monotonic q s | Realtime => set_realtime q s end.

Definition queue_for_timer (x : Timer) : outcome queue_name :=
  let c := m_clock_id x in
  if (c =? CLOCK_MONOTONIC) || (c =? CLOCK_MONOTONIC_COARSE) || (c =? CLOCK_MONOTONIC_RAW)
  then Ok Monotonic
  else if (c =? CLOCK_REALTIME) || (c =? CLOCK_REALTIME_COARSE) then Ok Realtime
  else Panic.

(** [Timer::now]; [times] is [TimeManagement::current_time]. *)
Definition now (times : Z -> Z) (is_firing : bool) (x : Timer) : Z :=
  let c := m_clock_id x in
  times (if is_firing then
           if c =? CLOCK_MONOTONIC then CLOCK_MONOTONIC_COARSE
           else if c =? CLOCK_REALTIME then CLOCK_REALTIME_COARSE else c
         else c).

(** ** Intrusive lists: a timer is in at most one of them. *)

Definition without (i : Z) (l : list Z) : list Z := filter (fun j => j <> i) l.

Definition unlist (i : Z) (s : t) : t :=
  let drop q := queue (without i (list_of q)) (next_timer_due q) in
  set_executing (without i (m_timers_executing s))
    (set_monotonic (drop (m_timer_queue_monotonic s)) (set_realtime (drop (m_timer_queue_realtime s)) s)).

Definition is_in_list (i : Z) (s : t) : bool :=
  bool_decide (i ∈ list_of (m_timer_queue_monotonic s)) ||
  bool_decide (i ∈ list_of (m_timer_queue_realtime s)) ||
  bool_decide (i ∈ m_timers_executing s).

Definition expires_of (s : t) (i : Z) : Z := from_option m_expires 0 (timers s !! i).

(** ** Adding *)

(** The first timer of a list that expires later than [expiration]. *)
Fixpoint following_timer (expires : Z -> Z) (expiration : Z) (l : list Z) : option Z :=
  match l with
  | [] => None
  | j :: l => if expiration <? expires j then Some j else following_timer expires expiration l
  end.

Fixpoint insert_before (f i : Z) (l : list Z) : list Z :=
  match l with
  | [] => [i]
  | j :: l => if j =? f then i :: j :: l else j :: insert_before f i l
  end.

Definition add_timer_locked (i : Z) (s : t) : outcome t :=
  let! x := the_timer i s in
  let s := set_timer i (fun x => with_refs (m_ref_count x + 1) (with_flags false false true x)) s in
  let! n := queue_for_timer x in
  let q := get_queue n s in
  let s := unlist i s in
  let rest := list_of (get_queue n s) in
  Ok (put_queue n
    (match list_of q with
     | [] => queue (rest ++ [i]) (m_expires x)
     | first :: _ =>
         match following_timer (expires_of s) (m_expires x) (list_of q) with
         | Some f => queue (insert_before f i rest) (if f =? first then m_expires x else next_timer_due q)
         | None => queue (rest ++ [i]) (next_timer_due q)
         end
     end) s).

(** [Timer::setup], then [add_timer_without_id]; the result says whether the
    timer was added. *)
Definition add_timer_without_id (times : Z -> Z) (i clock_id deadline : Z) (s : t) : outcome (t * bool) :=
  if deadline <=? times clock_id then Ok (s, false) else
  let! x := the_timer i s in
  if is_in_list i s then Panic else
  let s := set_timer i (with_setup clock_id deadline) s in
  let s := set_timer i (with_id 0) s in
  let! s := add_timer_locked i s in
  Ok (set_history (ran s ∖ {[ i ]}) (revoked s ∖ {[ i ]}) s, true).

Definition add_timer (i : Z) (s : t) : outcome (t * Z) :=
  let id := u64 (m_timer_id_count s + 1) in
  let s := set_id_count id (set_timer i (with_id id) s) in
  if id =? 0 then Panic else
  let! s := add_timer_locked i s in
  Ok (set_history (ran s ∖ {[ i ]}) (revoked s ∖ {[ i ]}) s, id).

(** ** Firing *)

Definition update_next_timer_due (n : queue_name) (s : t) : t :=
  let q := get_queue n s in
  put_queue n (queue (list_of q) (match list_of q with i :: _ => expires_of s i | [] => 0 end)) s.

(** The checks before the loop of [fire]. *)
Definition fire_begin (n : queue_name) (s : t) : outcome t :=
  match list_of (get_queue n s) with
  | [] => Ok s
  | i :: _ =>
      let! x := the_timer i s in
      if next_timer_due (get_queue n s) =? m_expires x then Ok s else Panic
  end.

(** One round of the loop, from taking the lock to queueing the deferred call;
    [false] is the end of the loop. *)
Definition fire_next (times : Z -> Z) (n : queue_name) (s : t) : outcome (t * bool) :=
  match list_of (get_queue n s) with
  | [] => Ok (s, false)
  | i :: _ =>
      let! x := the_timer i s in
      if negb (m_expires x <? now times true x) then Ok (s, false) else
      let s := unlist i s in
      let s := set_executing (m_timers_executing s ++ [i]) s in
      let s := update_next_timer_due n s in
      Ok (set_calls (calls s ++ [(i, Queued)]) s, true)
  end.

(** The loop without interruption. *)
Fixpoint fire_loop (fuel : nat) (times : Z -> Z) (n : queue_name) (s : t) : outcome t :=
  match fuel with
  | O => Undefined
  | S fuel =>
      let! (s, more) := fire_next times n s in
      if more : bool then fire_loop fuel times n s else Ok s
  end.

Definition fire_timers (times : Z -> Z) (n : queue_name) (s : t) : outcome t :=
  let! s := fire_begin n s in
  fire_loop (S (length (list_of (get_queue n s)))) times n s.

Definition fire (times : Z -> Z) (s : t) : outcome t :=
  let! s := fire_timers times Monotonic s in
  fire_timers times Realtime s.

(** One step of the deferred call number [k]. *)
Definition call_step (k : nat) (s : t) : outcome t :=
  match calls s !! k with
  | None => Ok s
  | Some (i, pc) =>
      let! x := the_timer i s in
      let next pc s := set_calls (<[k := (i, pc)]> (calls s)) s in
      match pc with
      | Queued =>
          let s := set_timer i (with_flags true (m_callback_finished x) (m_in_use x)) s in
          Ok (next (if m_cancelled x then ClearUse else Callback) s)
      | Callback => Ok (next Unlist (set_history (ran s ∪ {[ i ]}) (revoked s) s))
      | Unlist => Ok (next ClearUse (unlist i s))
      | ClearUse =>
          Ok (next Finish (set_timer i (with_flags (m_cancelled x) (m_callback_finished x) false) s))
      | Finish => Ok (next Drop (set_timer i (with_flags (m_cancelled x) true (m_in_use x)) s))
      | Drop =>
          let s := set_timer i (with_refs (m_ref_count x - 1)) s in
          Ok (set_calls (delete k (calls s)) s)
      end
  end.

(** ** Cancelling *)

Definition remove_timer_locked (times : Z -> Z) (n : queue_name) (i : Z) (s : t) : outcome t :=
  let! x := the_timer i s in
  let was_next_timer := bool_decide (head (list_of (get_queue n s)) = Some i) in
  let s := unlist i s in
  let d := now times false x in
  let s := if d <? m_expires x then set_timer i (with_remaining (m_expires x - d)) s else s in
  let s := if was_next_timer then update_next_timer_due n s else s in
  Ok (set_timer i (fun x => with_refs (m_ref_count x - 1) x) s).

Definition cancel_start (i : Z) (s : t) : outcome t := Ok (set_cancels (cancels s ++ [(i, Start)]) s).

(** One step of the cancellation number [k]; the result is what [cancel_timer]
    returned, if it did. *)
Definition cancel_step (times : Z -> Z) (k : nat) (s : t) : outcome (t * option bool) :=
  match cancels s !! k with
  | None => Ok (s, None)
  | Some (i, pc) =>
      let! x := the_timer i s in
      let next pc s := set_cancels (<[k := (i, pc)]> (cancels s)) s in
      let return_ b s := (set_cancels (delete k (cancels s)) s, Some b) in
      match pc with
      | Start =>
          if m_in_use x then Ok (next Exchange s, None)
          else if is_in_list i s then Panic else Ok (return_ false s)
      | Exchange =>
          let s := set_timer i (with_flags true (m_callback_finished x) (m_in_use x)) s in
          Ok (next (if m_cancelled x then Spin else Unuse) s, None)
      | Unuse =>
          Ok (next Lock (set_timer i (with_flags (m_cancelled x) (m_callback_finished x) false) s), None)
      | Lock =>
          let! n := queue_for_timer x in
          let! s :=
            if bool_decide (i ∈ list_of (get_queue n s)) then
              if m_ref_count x <=? 1 then Panic else remove_timer_locked times n i s
            else if bool_decide (i ∈ m_timers_executing s) then Ok (unlist i s)
            else Panic in
          Ok (return_ true (set_history (ran s) (revoked s ∪ {[ i ]}) s))
      | Spin => if m_callback_finished x then Ok (return_ false s) else Ok (s, None)
      end
  end.
(** ** Runs *)

Inductive event : Type :=
| New (i : Z)
| Add (times : Z -> Z) (i clock_id deadline : Z)
| FireBegin (n : queue_name)
| FireNext (times : Z -> Z) (n : queue_name)
| CallStep (k : nat)
| CancelStart (i : Z)
| CancelStep (times : Z -> Z) (k : nat).

Definition new_timer (i : Z) (s : t) : t :=
  timer_queue (<[i := timer 0 0 0 0 false false false 1]> (timers s)) (m_timer_queue_monotonic s)
    (m_timer_queue_realtime s) (m_timers_executing s) (m_timer_id_count s) (calls s) (cancels s)
    (ran s) (revoked s).

Definition step (e : event) (s : t) : outcome t :=
  match e with
  | New i => Ok (new_timer i s)
  | Add times i c d => let! (s, _) := add_timer_without_id times i c d s in Ok s
  | FireBegin n => fire_begin n s
  | FireNext times n => let! (s, _) := fire_next times n s in Ok s
  | CallStep k => call_step k s
  | CancelStart i => cancel_start i s
  | CancelStep times k => let! (s, _) := cancel_step times k s in Ok s
  end.

(** How the users of a timer behave: one that exists is not made again, it is
    added for one of the clocks, only while it is not in use, no deferred call
    for it is pending and nobody is cancelling it, and one caller cancels it at
    a time. *)
Definition idle_calls (i : Z) (s : t) : bool := negb (existsb (fun x => fst x =? i) (calls s)).
Definition idle_cancels (i : Z) (s : t) : bool := negb (existsb (fun x => fst x =? i) (cancels s)).

Definition allowed (e : event) (s : t) : bool :=
  match e with
  | New i => bool_decide (timers s !! i = None)
  | Add _ i c _ =>
      match timers s !! i with
      | Some x => (0 <=? c) && (c <=? 4) && negb (m_in_use x) && idle_calls i s && idle_cancels i s
      | None => false
      end
  | CancelStart i => bool_decide (is_Some (timers s !! i)) && idle_cancels i s
  | _ => true
  end.

Fixpoint run (es : list event) (s : t) : outcome t :=
  match es with
  | [] => Ok s
  | e :: es => let! s := step e s in run es s
  end.

Fixpoint disciplined (es : list event) (s : t) : bool :=
  match es with
  | [] => true
  | e :: es => allowed e s && match step e s with Ok s => disciplined es s | _ => true end
  end.

Definition initial : t := timer_queue ∅ (queue [] 0) (queue [] 0) [] 0 [] [] ∅ ∅.

(** ** What is known of one timer *)

(** The program counters of a timer in a list of calls. *)
Definition pcs {P : Type} (i : Z) (l : list (Z * P)) : list P :=
  omap (fun x => if fst x =? i then Some (snd x) else None) l.

Record view : Type := mk_view {
  v_use : bool; v_cancelled : bool; v_finished : bool;
  v_queued : bool; v_executing : bool; v_ran : bool; v_revoked : bool;
  v_calls : list call_pc; v_cancels : list cancel_pc
}.

Definition in_queue (i : Z) (s : t) : bool :=
  bool_decide (i ∈ list_of (m_timer_queue_monotonic s)) ||
  bool_decide (i ∈ list_of (m_timer_queue_realtime s)).

Definition view_of (i : Z) (s : t) : view :=
  mk_view (from_option m_in_use false (timers s !! i)) (from_option m_cancelled false (timers s !! i))
    (from_option m_callback_finished false (timers s !! i)) (in_queue i s)
    (bool_decide (i ∈ m_timers_executing s)) (bool_decide (i ∈ ran s)) (bool_decide (i ∈ revoked s))
    (pcs i (calls s)) (pcs i (cancels s)).

(** A cancellation that has not yet tried, has won, or has lost or not tried. *)
Definition untried (c : list cancel_pc) : bool :=
  match c with [] | [Start] | [Exchange] => true | _ => false end.
Definition won (use : bool) (c : list cancel_pc) : bool :=
  match c with [Unuse] => true | [Lock] => negb use | _ => false end.
Definition lost (c : list cancel_pc) : bool :=
  match c with [] | [Start] | [Exchange] | [Spin] => true | _ => false end.
Definition barely (c : list cancel_pc) : bool :=
  match c with [] | [Start] => true | _ => false end.

Definition at_most_one {A : Type} (l : list A) : bool := match l with [] | [_] => true | _ => false end.

(** The states a timer goes through. *)
Definition timer_ok (v : view) : bool :=
  let '(mk_view use cancelled finished queued executing ran revoked calls cancels) := v in
  at_most_one calls && at_most_one cancels &&
  let live := negb ran && negb revoked && negb finished &&
              (if cancelled then won use cancels else use && untried cancels) in
  let ended := (ran && negb revoked && lost cancels) || (negb ran && revoked && barely cancels) in
  match queued, executing, calls with
  | true, false, [] => live
  | false, true, [Queued] => live
  | false, true, [Callback] =>
      cancelled && negb ran && negb revoked && negb finished && use && lost cancels
  | false, true, [Unlist] => cancelled && ran && negb revoked && negb finished && use && lost cancels
  | false, true, [ClearUse] =>
      cancelled && negb ran && negb revoked && negb finished && won use cancels
  | false, true, [Finish] =>
      cancelled && negb ran && negb revoked && negb finished && negb use && won use cancels
  | false, true, [Drop] | false, true, [] =>
      cancelled && negb ran && negb revoked && finished && negb use && won use cancels
  | false, false, [Queued] => cancelled && negb ran && revoked && negb finished && negb use && barely cancels
  | false, false, [ClearUse] =>
      cancelled && negb finished &&
      ((ran && negb revoked && use && lost cancels) || (negb ran && revoked && negb use && barely cancels))
  | false, false, [Finish] => cancelled && negb use && negb finished && ended
  | false, false, [Drop] => cancelled && negb use && finished && ended
  | false, false, [] =>
      negb use && negb (ran && revoked) &&
      (barely cancels || (ran && cancelled && finished && lost cancels))
  | _, _, _ => false
  end.

(** What each operation does to the view of its timer. *)
Definition add_view (v : view) : view := mk_view true false false true false false false (v_calls v) (v_cancels v).
Definition fire_view (v : view) : view :=
  mk_view (v_use v) (v_cancelled v) (v_finished v) false true (v_ran v) (v_revoked v) (v_calls v ++ [Queued])
    (v_cancels v).
Definition call_view (v : view) : view :=
  let '(mk_view use cancelled finished queued executing ran revoked calls cancels) := v in
  match calls with
  | [Queued] => mk_view use true finished queued executing ran revoked
                  [if cancelled then ClearUse else Callback] cancels
  | [Callback] => mk_view use cancelled finished queued executing true revoked [Unlist] cancels
  | [Unlist] => mk_view use cancelled finished false false ran revoked [ClearUse] cancels
  | [ClearUse] => mk_view false cancelled finished queued executing ran revoked [Finish] cancels
  | [Finish] => mk_view use cancelled true queued executing ran revoked [Drop] cancels
  | [Drop] => mk_view use cancelled finished queued executing ran revoked [] cancels
  | _ => v
  end.
Definition cancel_view (v : view) : view :=
  let '(mk_view use cancelled finished queued executing ran revoked calls cancels) := v in
  match cancels with
  | [Start] => mk_view use cancelled finished queued executing ran revoked calls
                 (if use then [Exchange] else [])
  | [Exchange] => mk_view use true finished queued executing ran revoked calls
                    [if cancelled then Spin else Unuse]
  | [Unuse] => mk_view false cancelled finished queued executing ran revoked calls [Lock]
  | [Lock] => mk_view use cancelled finished false false ran true calls []
  | [Spin] => if finished then mk_view use cancelled finished queued executing ran revoked calls [] else v
  | _ => v
  end.
Definition start_view (v : view) : view :=
  mk_view (v_use v) (v_cancelled v) (v_finished v) (v_queued v) (v_executing v) (v_ran v) (v_revoked v)
    (v_calls v) (v_cancels v ++ [Start]).

(** Views with at most one call and one cancellation are finitely many. *)
Definition for_bool (P : bool -> bool) : bool := P true && P false.

Definition call_lists : list (list call_pc) := [[]; [Queued]; [Callback]; [Unlist]; [ClearUse]; [Finish]; [Drop]].
Definition cancel_lists : list (list cancel_pc) := [[]; [Start]; [Exchange]; [Unuse]; [Lock]; [Spin]].

Definition over_views (P : view -> bool) : bool :=
  for_bool (fun a => for_bool (fun b => for_bool (fun c => for_bool (fun d => for_bool (fun e =>
  for_bool (fun f => for_bool (fun g =>
    forallb (fun x => forallb (fun y => P (mk_view a b c d e f g x y)) cancel_lists) call_lists))))))).

Lemma for_bool_spec P b : for_bool P = true -> P b = true.
Proof. unfold for_bool. intros [H1 H2]%andb_true_iff. by destruct b. Qed.

Lemma forallb_elem {A} (P : A -> bool) l x : forallb P l = true -> x ∈ l -> P x = true.
Proof. rewrite forallb_forall. intros H Hx. by apply H, list_elem_of_In. Qed.

(** A property of acceptable views is decided by evaluating it on each. *)
Lemma views_by_cases (P : view -> bool) :
  over_views (fun v => implb (timer_ok v) (P v)) = true -> forall v, timer_ok v = true -> P v = true.
Proof.
  intros H v Hv. assert (implb (timer_ok v) (P v) = true) as E; [|by rewrite Hv in E].
  destruct v as [a b c d e f g x y].
  assert (x ∈ call_lists /\ y ∈ cancel_lists) as [Hx Hy].
  { simpl in Hv. rewrite !andb_true_iff in Hv. destruct Hv as [[Hx Hy] _]. clear H.
    unfold call_lists, cancel_lists. rewrite !elem_of_cons.
    destruct x as [|[] [|]], y as [|[] [|]]; try done; naive_solver. }
  unfold over_views in H. do 7 (eapply for_bool_spec in H).
  eapply forallb_elem in H; [|exact Hx]. eapply forallb_elem in H; [|exact Hy]. exact H.
Qed.

Lemma timer_ok_call v : timer_ok v = true -> timer_ok (call_view v) = true.
Proof. apply (views_by_cases (fun v => timer_ok (call_view v))). by vm_compute. Qed.

Lemma timer_ok_cancel v : timer_ok v = true -> timer_ok (cancel_view v) = true.
Proof. apply (views_by_cases (fun v => timer_ok (cancel_view v))). by vm_compute. Qed.

Lemma timer_ok_fire v : timer_ok v = true -> v_queued v = true -> timer_ok (fire_view v) = true.
Proof.
  intros Hv. apply implb_true_iff. revert v Hv.
  apply (views_by_cases (fun v => implb (v_queued v) (timer_ok (fire_view v)))). by vm_compute.
Qed.

Lemma timer_ok_start v : timer_ok v = true -> v_cancels v = [] -> timer_ok (start_view v) = true.
Proof.
  intros Hv Hc. assert (E : implb (bool_decide (v_cancels v = [])) (timer_ok (start_view v)) = true).
  2: by rewrite Hc in E.
  clear Hc. revert v Hv.
  apply (views_by_cases (fun v => implb (bool_decide (v_cancels v = [])) (timer_ok (start_view v)))).
  by vm_compute.
Qed.

Lemma timer_ok_add v :
  timer_ok v = true -> v_use v = false -> v_calls v = [] -> v_cancels v = [] ->
  v_queued v = false /\ v_executing v = false /\ timer_ok (add_view v) = true.
Proof.
  destruct v as [a b c d e f g x y]; simpl. intros Hv -> -> ->. destruct b, c, d, e, f, g; done.
Qed.

(** What the checks in the code rely on. *)
Definition relied_on (v : view) : bool :=
  implb (bool_decide (v_cancels v = [Start]) && negb (v_use v)) (negb (v_queued v) && negb (v_executing v)) &&
  implb (bool_decide (v_cancels v = [Lock])) (v_queued v || v_executing v) &&
  implb (bool_decide (v_cancels v = [Spin]))
    (v_finished v && v_ran v || negb (v_finished v) && negb (bool_decide (v_calls v = []))) &&
  implb (v_queued v) (negb (v_executing v) && bool_decide (v_calls v = [])) && negb (v_ran v && v_revoked v).

Lemma timer_ok_relied_on v : timer_ok v = true -> relied_on v = true.
Proof. apply (views_by_cases relied_on). by vm_compute. Qed.

(** ** Views of the state *)

Lemma pcs_app {P} i (l1 l2 : list (Z * P)) : pcs i (l1 ++ l2) = pcs i l1 ++ pcs i l2.
Proof. apply omap_app. Qed.

Lemma pcs_cons {P} i j (a : P) l : pcs i ((j, a) :: l) = (if j =? i then [a] else []) ++ pcs i l.
Proof. unfold pcs. simpl. by destruct (j =? i). Qed.

Lemma pcs_nil {P} i (l : list (Z * P)) : pcs i l = [] <-> existsb (fun x => fst x =? i) l = false.
Proof.
  induction l as [|[j a] l IH]; [done|]. rewrite pcs_cons. simpl. destruct (j =? i); simpl; [done|apply IH].
Qed.

Lemma pcs_elem {P} i (l : list (Z * P)) k a : l !! k = Some (i, a) -> a ∈ pcs i l.
Proof.
  intros H. apply list_elem_of_omap. exists (i, a). split; [by eapply list_elem_of_lookup_2|].
  simpl. by rewrite Z.eqb_refl.
Qed.

Lemma pcs_split {P} (l : list (Z * P)) k i a j :
  l !! k = Some (i, a) ->
  exists l1 l2, pcs j l = l1 ++ (if i =? j then [a] else []) ++ l2 /\
    (forall b, pcs j (<[k := (i, b)]> l) = l1 ++ (if i =? j then [b] else []) ++ l2) /\
    pcs j (delete k l) = l1 ++ l2.
Proof.
  intros H. exists (pcs j (take k l)), (pcs j (drop (S k) l)). split_and!.
  - rewrite <- (take_drop_middle l k (i, a) H) at 1. by rewrite pcs_app, pcs_cons.
  - intros b. rewrite insert_take_drop by (by eapply lookup_lt_Some). by rewrite pcs_app, pcs_cons.
  - by rewrite delete_take_drop, pcs_app.
Qed.

Lemma pcs_other {P} (l : list (Z * P)) k i a j :
  l !! k = Some (i, a) -> j <> i ->
  (forall b, pcs j (<[k := (i, b)]> l) = pcs j l) /\ pcs j (delete k l) = pcs j l.
Proof.
  intros H N. destruct (pcs_split l k i a j H) as (l1 & l2 & E1 & E2 & E3).
  rewrite (proj2 (Z.eqb_neq i j)) in * by done. by rewrite E1, E3.
Qed.

Lemma pcs_only {P} (l : list (Z * P)) k i a a' :
  l !! k = Some (i, a) -> pcs i l = [a'] ->
  a' = a /\ (forall b, pcs i (<[k := (i, b)]> l) = [b]) /\ pcs i (delete k l) = [].
Proof.
  intros H E. destruct (pcs_split l k i a i H) as (l1 & l2 & E1 & E2 & E3).
  rewrite Z.eqb_refl in *. rewrite E in E1. destruct l1 as [|? [|]], l2; simplify_eq/=. done.
Qed.

Lemma without_ne j i l : j <> i -> bool_decide (j ∈ without i l) = bool_decide (j ∈ l).
Proof. intros N. apply bool_decide_ext. unfold without. rewrite list_elem_of_filter. tauto. Qed.

Lemma without_eq i l : bool_decide (i ∈ without i l) = false.
Proof. apply bool_decide_eq_false. unfold without. rewrite list_elem_of_filter. tauto. Qed.

Lemma history_eq i (X : gset Z) :
  bool_decide (i ∈ X ∪ {[ i ]}) = true /\ bool_decide (i ∈ X ∖ {[ i ]}) = false.
Proof. split; [apply bool_decide_eq_true|apply bool_decide_eq_false]; set_solver. Qed.

Lemma history_ne j i (X : gset Z) :
  j <> i -> bool_decide (j ∈ X ∪ {[ i ]}) = bool_decide (j ∈ X) /\
            bool_decide (j ∈ X ∖ {[ i ]}) = bool_decide (j ∈ X).
Proof. intros N. split; apply bool_decide_ext; set_solver. Qed.

Lemma view_unlist_ne j i s : j <> i -> view_of j (unlist i s) = view_of j s.
Proof. intros N. unfold view_of, in_queue. simpl. by rewrite !without_ne. Qed.

Lemma view_unlist_eq i s :
  view_of i (unlist i s) =
  mk_view (v_use (view_of i s)) (v_cancelled (view_of i s)) (v_finished (view_of i s)) false false
    (v_ran (view_of i s)) (v_revoked (view_of i s)) (v_calls (view_of i s)) (v_cancels (view_of i s)).
Proof. unfold view_of, in_queue. simpl. by rewrite !without_eq. Qed.

Lemma view_timer_ne j i f s : j <> i -> view_of j (set_timer i f s) = view_of j s.
Proof. intros N. unfold view_of, in_queue. simpl. by rewrite lookup_alter_ne. Qed.

Lemma view_timer_eq i f s x :
  timers s !! i = Some x ->
  view_of i (set_timer i f s) =
  mk_view (m_in_use (f x)) (m_cancelled (f x)) (m_callback_finished (f x)) (v_queued (view_of i s))
    (v_executing (view_of i s)) (v_ran (view_of i s)) (v_revoked (view_of i s)) (v_calls (view_of i s))
    (v_cancels (view_of i s)).
Proof. intros H. unfold view_of, in_queue. simpl. by rewrite lookup_alter_eq, H. Qed.

(** ** The invariant *)

Definition sorted (s : t) (l : list Z) : Prop := StronglySorted (fun i j => expires_of s i <= expires_of s j) l.

Record queue_ok (n : queue_name) (s : t) : Prop := {
  q_sorted : sorted s (list_of (get_queue n s));
  q_nodup : NoDup (list_of (get_queue n s));
  q_due : forall i l, list_of (get_queue n s) = i :: l -> next_timer_due (get_queue n s) = expires_of s i;
  q_clock : forall i, i ∈ list_of (get_queue n s) -> exists x, timers s !! i = Some x /\ queue_for_timer x = Ok n
}.

Record inv (s : t) : Prop := {
  inv_ok : forall i, is_Some (timers s !! i) -> timer_ok (view_of i s) = true;
  inv_known : forall i, timers s !! i = None -> view_of i s = mk_view false false false false false false false [] [];
  inv_clock : forall i x, timers s !! i = Some x -> exists n, queue_for_timer x = Ok n;
  inv_refs : forall i x, timers s !! i = Some x ->
    m_ref_count x = 1 + (if in_queue i s then 1 else 0) + Z.of_nat (length (pcs i (calls s)));
  inv_queues : forall n, queue_ok n s
}.

(** An operation on the timer [i]. *)
Record evolves (i : Z) (v : view) (s s' : t) : Prop := {
  ev_view : view_of i s' = v;
  ev_others : forall j, j <> i -> timers s' !! j = timers s !! j /\ view_of j s' = view_of j s
}.

Definition same_schedule (s s' : t) : Prop :=
  forall j, (fun x => (m_clock_id x, m_expires x)) <$> timers s' !! j =
            (fun x => (m_clock_id x, m_expires x)) <$> timers s !! j.

Lemma inv_evolves i v s s' x x' :
  inv s -> evolves i v s s' -> timers s !! i = Some x -> timers s' !! i = Some x' ->
  timer_ok v = true -> (exists n, queue_for_timer x' = Ok n) ->
  m_ref_count x' = 1 + (if v_queued v then 1 else 0) + Z.of_nat (length (v_calls v)) ->
  (forall n, queue_ok n s') -> inv s'.
Proof.
  intros Hs [E Eo] Hx Hx' Hv Hc Hr Hq. constructor; [| | | |done].
  - intros j Hj. destruct (decide (j = i)) as [->|N]; [by rewrite E|].
    destruct (Eo j N) as [Et ->]. apply (inv_ok s Hs). by rewrite <- Et.
  - intros j Hj. destruct (decide (j = i)) as [->|N]; [congruence|].
    destruct (Eo j N) as [Et ->]. apply (inv_known s Hs). by rewrite <- Et.
  - intros j y Hy. destruct (decide (j = i)) as [->|N]; [by simplify_eq|].
    destruct (Eo j N) as [Et _]. apply (inv_clock s Hs j). by rewrite <- Et.
  - intros j y Hy. destruct (decide (j = i)) as [->|N].
    + assert (x' = y) as <- by congruence. by rewrite Hr, <- E.
    + destruct (Eo j N) as [Et Ev]. rewrite Et in Hy. rewrite (inv_refs s Hs j y Hy).
      pose proof (f_equal v_queued Ev) as E1. pose proof (f_equal v_calls Ev) as E2. simpl in E1, E2.
      by rewrite E1, E2.
Qed.

(** ** Queues *)

Lemma same_schedule_expires s s' j : same_schedule s s' -> expires_of s' j = expires_of s j.
Proof.
  intros H. specialize (H j). unfold expires_of. destruct (timers s' !! j), (timers s !! j); simplify_eq/=; done.
Qed.

Lemma same_schedule_clock s s' n j :
  same_schedule s s' -> (exists x, timers s !! j = Some x /\ queue_for_timer x = Ok n) ->
  exists x, timers s' !! j = Some x /\ queue_for_timer x = Ok n.
Proof.
  intros H (x & Hx & Hn). specialize (H j). rewrite Hx in H.
  destruct (timers s' !! j) as [x'|]; [|done]. simpl in H. injection H as Hc _. exists x'.
  split; [done|]. unfold queue_for_timer in *. by rewrite Hc.
Qed.

Lemma sorted_same s s' l : same_schedule s s' -> sorted s l -> sorted s' l.
Proof.
  intros H. unfold sorted. induction 1 as [|i l Hl IH Hi]; constructor; [done|].
  eapply Forall_impl; [done|]. intros j. by rewrite !(same_schedule_expires s s') by done.
Qed.

Lemma queue_ok_sub n s s' :
  queue_ok n s -> same_schedule s s' ->
  sublist (list_of (get_queue n s')) (list_of (get_queue n s)) ->
  (forall i l, list_of (get_queue n s') = i :: l -> next_timer_due (get_queue n s') = expires_of s i) ->
  queue_ok n s'.
Proof.
  intros [Qs Qn Qd Qc] Hss Hsub Hd. constructor.
  - apply (sorted_same s); [done|]. clear -Hsub Qs. unfold sorted in *.
    remember (list_of (get_queue n s)) as l eqn:E. remember (list_of (get_queue n s')) as l' eqn:E'.
    clear E E' n s'. induction Hsub as [|x l1 l2 Hsub IH|x l1 l2 Hsub IH]; [done| |]; inversion_clear Qs.
    + constructor; [by apply IH|]. apply Forall_forall. intros y Hy. rewrite Forall_forall in *.
      eauto using elem_of_sublist.
    + by apply IH.
  - by eapply sublist_NoDup.
  - intros i l E. rewrite (same_schedule_expires s s') by done. eauto.
  - intros i Hi. apply (same_schedule_clock s); [done|]. apply Qc. by eapply elem_of_sublist.
Qed.

Lemma queue_ok_same n s s' :
  queue_ok n s -> same_schedule s s' -> get_queue n s' = get_queue n s -> queue_ok n s'.
Proof. intros Hq Hss E. apply (queue_ok_sub n s); rewrite ?E; [done|done|done|]. apply Hq. Qed.

Lemma without_sublist i l : sublist (without i l) l.
Proof.
  induction l as [|j l IH]; [done|]. unfold without. rewrite filter_cons. case_decide.
  - by apply sublist_skip.
  - by apply sublist_cons.
Qed.

Lemma without_absent i l : i ∉ l -> without i l = l.
Proof.
  unfold without. induction l as [|j l IH]; [done|]. rewrite not_elem_of_cons. intros [N H].
  rewrite filter_cons_True by congruence. by rewrite IH.
Qed.

Lemma same_schedule_timer i f s :
  (forall x, m_clock_id (f x) = m_clock_id x /\ m_expires (f x) = m_expires x) ->
  same_schedule s (set_timer i f s).
Proof.
  intros Hf j. simpl. destruct (decide (j = i)) as [->|N]; [|by rewrite lookup_alter_ne].
  rewrite lookup_alter_eq. destruct (timers s !! i) as [x|]; [|done]. simpl.
  by destruct (Hf x) as [-> ->].
Qed.

(** ** Every operation keeps it *)

Lemma view_call_known i s : inv s -> pcs i (calls s) <> [] \/ pcs i (cancels s) <> [] -> is_Some (timers s !! i).
Proof.
  intros Hs H. destruct (timers s !! i) as [x|] eqn:Hx; [done|].
  pose proof (inv_known s Hs i Hx) as E. pose proof (f_equal v_calls E) as E1.
  pose proof (f_equal v_cancels E) as E2. simpl in E1, E2. naive_solver.
Qed.

Lemma one_pc {P} (l : list (Z * P)) i k a :
  l !! k = Some (i, a) -> at_most_one (pcs i l) = true -> pcs i l = [a].
Proof. intros H%pcs_elem A. destruct (pcs i l) as [|b [|]]; try done; set_solver. Qed.

Lemma ok_at_most_one v :
  timer_ok v = true -> at_most_one (v_calls v) = true /\ at_most_one (v_cancels v) = true.
Proof. destruct v. simpl. intros [[H1 H2]%andb_true_iff _]%andb_true_iff. done. Qed.

(** The only deferred call for a timer. *)
Lemma call_lookup k i pc s :
  inv s -> calls s !! k = Some (i, pc) ->
  exists x, timers s !! i = Some x /\ timer_ok (view_of i s) = true /\ pcs i (calls s) = [pc].
Proof.
  intros Hs Hk. assert (is_Some (timers s !! i)) as [x Hx].
  { apply view_call_known; [done|]. left. intros E. apply pcs_elem in Hk. rewrite E in Hk. set_solver. }
  exists x. assert (Hv : timer_ok (view_of i s) = true) by (apply (inv_ok s Hs); eauto).
  do 2 (split; [done|]). apply ok_at_most_one in Hv as [H1 _]. by eapply one_pc.
Qed.

Lemma cancel_lookup k i pc s :
  inv s -> cancels s !! k = Some (i, pc) ->
  exists x, timers s !! i = Some x /\ timer_ok (view_of i s) = true /\ pcs i (cancels s) = [pc].
Proof.
  intros Hs Hk. assert (is_Some (timers s !! i)) as [x Hx].
  { apply view_call_known; [done|]. right. intros E. apply pcs_elem in Hk. rewrite E in Hk. set_solver. }
  exists x. assert (Hv : timer_ok (view_of i s) = true) by (apply (inv_ok s Hs); eauto).
  do 2 (split; [done|]). apply ok_at_most_one in Hv as [_ H2]. by eapply one_pc.
Qed.

(** The field of a view after an operation. *)
Ltac fields Hx :=
  unfold view_of, in_queue; cbn -[pcs without Z.eqb]; rewrite ?lookup_alter_eq, ?Hx; cbn -[pcs without Z.eqb].

Lemma not_queued i n s : in_queue i s = false -> i ∉ list_of (get_queue n s).
Proof.
  unfold in_queue. intros [H1%bool_decide_eq_false H2%bool_decide_eq_false]%orb_false_iff. by destruct n.
Qed.

Lemma get_queue_unlist n i s :
  get_queue n (unlist i s) = queue (without i (list_of (get_queue n s))) (next_timer_due (get_queue n s)).
Proof. by destruct n. Qed.

Lemma get_queue_unlist_absent n i s : in_queue i s = false -> get_queue n (unlist i s) = get_queue n s.
Proof.
  intros H. rewrite get_queue_unlist, without_absent by by apply not_queued. by destruct (get_queue n s).
Qed.

Lemma call_step_view k i pc s x :
  inv s -> calls s !! k = Some (i, pc) -> timers s !! i = Some x -> pcs i (calls s) = [pc] ->
  exists s' x', call_step k s = Ok s' /\ evolves i (call_view (view_of i s)) s s' /\
    timers s' !! i = Some x' /\ m_clock_id x' = m_clock_id x /\
    m_ref_count x' = m_ref_count x - (if bool_decide (pc = Drop) then 1 else 0) /\
    same_schedule s s' /\ (pc <> Unlist -> forall n, get_queue n s' = get_queue n s) /\
    (pc = Unlist -> forall n, in_queue i s = false -> get_queue n s' = get_queue n s).
Proof.
  intros Hs Hk Hx Hp. destruct (pcs_only (calls s) k i pc pc Hk Hp) as (_ & Hi & Hd).
  unfold call_step. rewrite Hk. unfold the_timer. rewrite Hx. simpl.
  assert (Ho : forall j, j <> i -> (forall b, pcs j (<[k:=(i, b)]> (calls s)) = pcs j (calls s)) /\
    pcs j (delete k (calls s)) = pcs j (calls s)) by (intros j N; by apply (pcs_other _ _ _ pc)).
  unfold call_view, view_of at 1. rewrite Hx, Hp. simpl.
  destruct pc; (eexists; eexists; split; [reflexivity|]; split; [constructor|]).
  all: try (intros j N; destruct (Ho j N) as [Ho1 Ho2], (history_ne j i (ran s) N) as [Hr _]; split;
    [by simpl; rewrite ?lookup_alter_ne
    |unfold view_of, in_queue; simpl; by rewrite ?lookup_alter_ne, ?Ho1, ?Ho2, ?without_ne, ?Hr by done]).
  all: destruct (history_eq i (ran s)) as [Hr _].
  all: try (unfold view_of, in_queue; simpl; by rewrite ?lookup_alter_eq, ?Hx, ?Hi, ?Hd, ?without_eq, ?Hr).
  all: simpl; rewrite ?lookup_alter_eq, ?Hx.
  all: split; [reflexivity|]; split; [done|]; split; [simpl; lia|].
  all: split; [try done; by apply same_schedule_timer|]; split; [intros ? n; by destruct n|].
  all: intros ? n Hn; try discriminate; change (get_queue n (unlist i s) = get_queue n s);
    by apply get_queue_unlist_absent.
Qed.

Lemma call_step_inv k s : inv s -> exists s', call_step k s = Ok s' /\ inv s'.
Proof.
  intros Hs. destruct (calls s !! k) as [[i pc]|] eqn:Hk.
  2: { exists s. unfold call_step. by rewrite Hk. }
  destruct (call_lookup k i pc s Hs Hk) as (x & Hx & Hv & Hp).
  destruct (call_step_view k i pc s x Hs Hk Hx Hp) as (s' & x' & -> & Ev & Hx' & Hc & Hr & Hss & Hq & Hq').
  exists s'. split; [done|]. pose proof (timer_ok_relied_on _ Hv) as R. unfold relied_on in R.
  rewrite !andb_true_iff in R. destruct R as [[_ R] _]. simpl in R. rewrite Hp in R.
  assert (Nq : in_queue i s = false) by (by destruct (in_queue i s); [rewrite andb_false_r in R|]).
  eapply (inv_evolves i _ s s' x x'); [done|done|done|done|by apply timer_ok_call| | |].
  - destruct (inv_clock s Hs i x Hx) as [n Hn]. exists n. unfold queue_for_timer in *. by rewrite Hc.
  - rewrite Hr, (inv_refs s Hs i x Hx), Nq, Hp. unfold call_view, view_of. rewrite Hp, Nq. by destruct pc.
  - intros n. apply (queue_ok_same n s); [apply Hs|done|]. destruct (decide (pc = Unlist)); auto.
Qed.

Lemma get_put_queue n n' q s :
  get_queue n' (put_queue n q s) = if decide (n' = n) then q else get_queue n' s.
Proof. by destruct n, n'. Qed.

(** Taking a timer out of its queue. *)
Definition dequeue (n : queue_name) (i : Z) (next : bool) (s : t) : t :=
  if next then update_next_timer_due n (unlist i s) else unlist i s.

Lemma queue_unique n n' i s : inv s -> i ∈ list_of (get_queue n s) -> i ∈ list_of (get_queue n' s) -> n = n'.
Proof.
  intros Hs H H'. destruct (q_clock n s (inv_queues s Hs n) i H) as (x & Hx & E).
  destruct (q_clock n' s (inv_queues s Hs n') i H') as (x' & Hx' & E'). congruence.
Qed.

Lemma in_queue_iff i s : in_queue i s = true <-> exists n, i ∈ list_of (get_queue n s).
Proof.
  unfold in_queue. rewrite orb_true_iff, !bool_decide_eq_true. split.
  - intros [H|H]; [by exists Monotonic|by exists Realtime].
  - intros [[] H]; auto.
Qed.

Lemma dequeue_queue_ok n i next s :
  inv s -> i ∈ list_of (get_queue n s) ->
  (next = false -> head (list_of (get_queue n s)) <> Some i) -> forall n', queue_ok n' (dequeue n i next s).
Proof.
  intros Hs Hi Hnext n'. pose proof (inv_queues s Hs n') as Q.
  assert (E : list_of (get_queue n' (dequeue n i next s)) = without i (list_of (get_queue n' s))).
  { unfold dequeue, update_next_timer_due. destruct next; rewrite ?get_put_queue, ?get_queue_unlist; [|done].
    case_decide; subst; by rewrite ?get_queue_unlist. }
  apply (queue_ok_sub n' s); [done|by destruct next, n|rewrite E; apply without_sublist|].
  intros j l Ej. destruct (decide (n' = n)) as [->|N].
  - unfold dequeue, update_next_timer_due in *. destruct next.
    + rewrite get_put_queue, decide_True in Ej |- * by done. simpl in *. rewrite Ej.
      by unfold expires_of; destruct n.
    + rewrite get_queue_unlist in *. simpl in *. destruct (list_of (get_queue n s)) as [|j' l'] eqn:El; [done|].
      unfold without in Ej. rewrite filter_cons_True in Ej by (intros ->; by apply Hnext).
      injection Ej as <- _. by apply (q_due n s Q j' l').
  - rewrite E, without_absent in Ej by (intros Hi'; by apply N; eapply queue_unique).
    rewrite <- (q_due n' s Q j l Ej). unfold dequeue, update_next_timer_due.
    by destruct next, n, n'.
Qed.

Lemma dequeue_timers n i next s : timers (dequeue n i next s) = timers s.
Proof. by destruct next, n. Qed.

Lemma dequeue_view_ne n i next s j : j <> i -> view_of j (dequeue n i next s) = view_of j s.
Proof. intros N. rewrite <- (view_unlist_ne j i s N). by destruct next, n. Qed.

Lemma dequeue_view_eq n i next s : view_of i (dequeue n i next s) = view_of i (unlist i s).
Proof. by destruct next, n. Qed.

Lemma fire_next_inv times n s :
  inv s -> exists s' more, fire_next times n s = Ok (s', more) /\ inv s'.
Proof.
  intros Hs. unfold fire_next. destruct (list_of (get_queue n s)) as [|i l] eqn:El; [by exists s, false|].
  assert (Hi : i ∈ list_of (get_queue n s)) by (rewrite El; left).
  destruct (q_clock n s (inv_queues s Hs n) i Hi) as (x & Hx & Hc). unfold the_timer. rewrite Hx. simpl.
  case_match; [by exists s, false|]. eexists. exists true. split; [done|].
  assert (Hv : timer_ok (view_of i s) = true) by (apply (inv_ok s Hs); eauto).
  assert (Hqu : in_queue i s = true) by (apply in_queue_iff; eauto).
  set (s1 := dequeue n i true s).
  match goal with |- inv ?X => set (s' := X) end.
  assert (Es : s' = set_calls (calls s ++ [(i, Queued)]) (set_executing (without i (m_timers_executing s) ++ [i]) s1))
    by (by destruct n).
  eapply (inv_evolves i (fire_view (view_of i s)) s s' x x); [done| |done| | | | |].
  - rewrite Es. constructor.
    + unfold view_of, in_queue, fire_view. simpl. rewrite pcs_app, pcs_cons, Z.eqb_refl. simpl.
      assert (Hq : bool_decide (i ∈ list_of (m_timer_queue_monotonic s1)) ||
        bool_decide (i ∈ list_of (m_timer_queue_realtime s1)) = false).
      { pose proof (f_equal v_queued (dequeue_view_eq n i true s)) as E. rewrite view_unlist_eq in E. apply E. }
      rewrite Hq. unfold s1. rewrite dequeue_timers. f_equal; [|by destruct n..].
      apply bool_decide_eq_true. set_solver.
    + intros j N. split; [by destruct n|]. rewrite <- (dequeue_view_ne n i true s j N). fold s1.
      unfold view_of, in_queue. simpl. rewrite pcs_app, pcs_cons. rewrite (proj2 (Z.eqb_neq i j)) by done.
      simpl. rewrite app_nil_r. f_equal; [|by destruct n].
      apply bool_decide_ext. unfold s1, dequeue, without. destruct n; simpl; set_solver.
  - rewrite Es. simpl. unfold s1. by rewrite dequeue_timers.
  - by apply timer_ok_fire.
  - by exists n.
  - rewrite (inv_refs s Hs i x Hx), Hqu. unfold fire_view, view_of. simpl. rewrite length_app. simpl. lia.
  - intros n'. rewrite Es. apply (queue_ok_same n' s1); [|by intros j|by destruct n'].
    by apply dequeue_queue_ok.
Qed.

Lemma update_due_timer n i f s :
  (forall x, m_expires (f x) = m_expires x) ->
  update_next_timer_due n (set_timer i f s) = set_timer i f (update_next_timer_due n s).
Proof.
  intros Hf. assert (E : forall j, expires_of (set_timer i f s) j = expires_of s j).
  { intros j. unfold expires_of. simpl. destruct (decide (j = i)) as [->|N]; [|by rewrite lookup_alter_ne].
    rewrite lookup_alter_eq. by destruct (timers s !! i); simpl. }
  unfold update_next_timer_due.
  by destruct n; simpl; unfold set_monotonic, set_realtime, set_timer; simpl; do 2 f_equal;
    (destruct (list_of _); [|rewrite E]).
Qed.

(** What [remove_timer_locked] comes to. *)
Lemma remove_timer_locked_eq times n i s x :
  timers s !! i = Some x ->
  exists f, remove_timer_locked times n i s =
    Ok (set_timer i f (dequeue n i (bool_decide (head (list_of (get_queue n s)) = Some i)) s)) /\
    forall y, m_clock_id (f y) = m_clock_id y /\ m_expires (f y) = m_expires y /\
      m_in_use (f y) = m_in_use y /\ m_cancelled (f y) = m_cancelled y /\
      m_callback_finished (f y) = m_callback_finished y /\ m_ref_count (f y) = m_ref_count y - 1.
Proof.
  intros Hx. unfold remove_timer_locked, the_timer. rewrite Hx. cbn -[unlist dequeue update_next_timer_due].
  assert (C : forall f g (s : t), set_timer i f (set_timer i g s) = set_timer i (fun y => f (g y)) s).
  { intros f g s0. unfold set_timer. simpl. f_equal. by rewrite alter_alter_eq. }
  set (d := now times false x).
  exists (fun y => with_refs (m_ref_count y - 1) (if d <? m_expires x then with_remaining (m_expires x - d) y else y)).
  split; [|by intros y; destruct (d <? m_expires x)].
  f_equal. unfold dequeue. destruct (d <? m_expires x), (bool_decide _);
    rewrite ?update_due_timer by done; rewrite ?C; done.
Qed.

Lemma cancel_view_eq k i pc s x :
  cancels s !! k = Some (i, pc) -> timers s !! i = Some x -> pcs i (cancels s) = [pc] -> view_of i s =
  mk_view (m_in_use x) (m_cancelled x) (m_callback_finished x) (in_queue i s)
    (bool_decide (i ∈ m_timers_executing s)) (bool_decide (i ∈ ran s)) (bool_decide (i ∈ revoked s))
    (pcs i (calls s)) [pc].
Proof. intros Hk Hx Hp. unfold view_of. by rewrite Hx, Hp. Qed.

(** The steps of [cancel_timer] before it takes the lock, and its last one. *)
Lemma cancel_step_easy times k i pc s x :
  inv s -> cancels s !! k = Some (i, pc) -> timers s !! i = Some x -> pcs i (cancels s) = [pc] ->
  timer_ok (view_of i s) = true -> pc <> Lock ->
  exists s' r x', cancel_step times k s = Ok (s', r) /\ evolves i (cancel_view (view_of i s)) s s' /\
    timers s' !! i = Some x' /\ m_clock_id x' = m_clock_id x /\ m_ref_count x' = m_ref_count x /\
    same_schedule s s' /\ (forall n, get_queue n s' = get_queue n s) /\ calls s' = calls s.
Proof.
  intros Hs Hk Hx Hp Hv Hl. destruct (pcs_only (cancels s) k i pc pc Hk Hp) as (_ & Hi & Hd).
  unfold cancel_step. rewrite Hk. unfold the_timer. rewrite Hx. cbn [bind].
  assert (Ho : forall j, j <> i -> (forall b, pcs j (<[k:=(i, b)]> (cancels s)) = pcs j (cancels s)) /\
    pcs j (delete k (cancels s)) = pcs j (cancels s)) by (intros j N; by apply (pcs_other _ _ _ pc)).
  pose proof (timer_ok_relied_on _ Hv) as R. unfold relied_on in R. rewrite (cancel_view_eq k i pc s x) in * by done.
  rewrite !andb_true_iff in R. destruct R as [[[[R _] _] _] _]. unfold is_in_list.
  destruct pc; try done; [destruct (m_in_use x) eqn:Eu| | |destruct (m_callback_finished x) eqn:Ef];
    cbn -[pcs] in R |- *.
  2: { fold (in_queue i s). apply andb_true_iff in R as [R1%negb_true_iff R2%negb_true_iff].
       rewrite R1, R2. cbn -[pcs]. do 3 eexists. split; [done|]. split; [constructor|].
       - unfold view_of. simpl. rewrite Hx, Hd, R2. simpl.
         change (in_queue i _) with (in_queue i s). by rewrite R1, Eu.
       - intros j N. destruct (Ho j N) as [Ho1 Ho2]. split; [done|]. unfold view_of, in_queue. simpl. by rewrite Ho2.
       - by repeat (split; [done|]). }
  all: do 3 eexists; (split; [done|]); (split; [constructor|]);
    try (intros j N; destruct (Ho j N) as [Ho1 Ho2]; split; [by simpl; rewrite ?lookup_alter_ne|];
         unfold view_of, in_queue; simpl; by rewrite ?lookup_alter_ne, ?Ho1, ?Ho2 by done);
    try (unfold view_of, in_queue; simpl; rewrite ?lookup_alter_eq, ?Hx, ?Hi, ?Hd, ?Hp; simpl;
         rewrite ?Eu, ?Ef; by destruct (m_cancelled x)).
  all: simpl; rewrite ?lookup_alter_eq, ?Hx; split; [reflexivity|].
  all: split; [done|]; split; [done|]; split; [try done; by apply same_schedule_timer|].
  all: split; [by intros []|done].
Qed.

(** The step that takes the lock: the timer is in its queue or executing. *)
Lemma cancel_step_lock times k i s x :
  inv s -> cancels s !! k = Some (i, Lock) -> timers s !! i = Some x -> pcs i (cancels s) = [Lock] ->
  timer_ok (view_of i s) = true ->
  exists s' r x', cancel_step times k s = Ok (s', r) /\ evolves i (cancel_view (view_of i s)) s s' /\
    timers s' !! i = Some x' /\ m_clock_id x' = m_clock_id x /\
    m_ref_count x' = m_ref_count x - (if in_queue i s then 1 else 0) /\
    (forall n, queue_ok n s') /\ calls s' = calls s.
Proof.
  intros Hs Hk Hx Hp Hv. destruct (pcs_only (cancels s) k i Lock Lock Hk Hp) as (_ & _ & Hd).
  assert (Ho : forall j, j <> i -> pcs j (delete k (cancels s)) = pcs j (cancels s)).
  { intros j N. by apply (pcs_other _ _ _ Lock _ Hk). }
  destruct (inv_clock s Hs i x Hx) as [n Hn]. unfold cancel_step. rewrite Hk. unfold the_timer. rewrite Hx.
  cbn [bind]. rewrite Hn. cbn [bind].
  pose proof (timer_ok_relied_on _ Hv) as R. unfold relied_on in R. rewrite !andb_true_iff in R.
  destruct R as [[[[_ R] _] R2] _]. rewrite (cancel_view_eq k i Lock s x) in * by done. simpl in R, R2.
  destruct (decide (i ∈ list_of (get_queue n s))) as [Hq|Hq];
    [rewrite (bool_decide_true (i ∈ list_of (get_queue n s))) by done
    |rewrite (bool_decide_false (i ∈ list_of (get_queue n s))) by done].
  - assert (Q : in_queue i s = true) by (apply in_queue_iff; eauto).
    pose proof (inv_refs s Hs i x Hx) as Hrc. rewrite Q in Hrc |- *. destruct (m_ref_count x <=? 1) eqn:Ec; [lia|].
    destruct (remove_timer_locked_eq times n i s x Hx) as (f & -> & Hf). cbn [bind].
    set (s1 := dequeue n i _ s). do 3 eexists. split; [done|].
    assert (T1 : timers s1 = timers s) by apply dequeue_timers.
    destruct (Hf x) as (F1 & F2 & F3 & F4 & F5 & F6).
    assert (V1 : view_of i s1 = view_of i (unlist i s)) by apply dequeue_view_eq.
    assert (C1 : cancels s1 = cancels s /\ ran s1 = ran s /\ revoked s1 = revoked s /\ calls s1 = calls s).
    { unfold s1, dequeue. destruct (bool_decide (head _ = _)); by destruct n. }
    destruct C1 as (C1 & C2 & C3 & C4). split; [constructor|].
    + rewrite view_unlist_eq in V1. unfold view_of in V1 |- *. simpl in V1 |- *.
      unfold in_queue in V1 |- *. simpl. injection V1 as V1 V2 V3 V4 V5 _ _ _ _.
      rewrite lookup_alter_eq, T1, Hx, C1, Hd, C2, C3, C4, V4, V5. simpl. rewrite F3, F4, F5.
      destruct (history_eq i (revoked s)) as [-> _]. done.
    + intros j N. split; [by simpl; rewrite lookup_alter_ne, T1|].
      rewrite <- (dequeue_view_ne n i (bool_decide (head (list_of (get_queue n s)) = Some i)) s j N).
      fold s1. unfold view_of, in_queue. simpl. rewrite lookup_alter_ne, C1, C3, (Ho j N) by done.
      by destruct (history_ne j i (revoked s) N) as [-> _].
    + simpl. rewrite lookup_alter_eq, T1, Hx. split; [reflexivity|]. split; [done|].
      split; [lia|]. split; [|done].
      intros n'. apply (queue_ok_same n' s1); [|by apply same_schedule_timer; intros y; destruct (Hf y) as (? & ? & _)|by destruct n'].
      apply dequeue_queue_ok; [done|done|]. by intros ?%bool_decide_eq_false.
  - assert (Q : in_queue i s = false).
    { apply not_true_iff_false. intros [n' Hn']%in_queue_iff.
      destruct (q_clock n' s (inv_queues s Hs n') i Hn') as (y & Hy & Ey). assert (n' = n) as -> by congruence. done. }
    rewrite Q in *. simpl in R. rewrite R. cbn [bind]. do 3 eexists. split; [done|]. split; [constructor|].
    + unfold view_of, in_queue. simpl. rewrite Hx, Hd, !without_eq. simpl.
      by destruct (history_eq i (revoked s)) as [-> _].
    + intros j N. split; [done|]. unfold view_of, in_queue. simpl. rewrite !without_ne, (Ho j N) by done.
      by destruct (history_ne j i (revoked s) N) as [-> _].
    + simpl. split; [exact Hx|]. split; [done|]. split; [lia|]. split; [|done].
      intros n'. apply (queue_ok_same n' s); [apply Hs|done|].
      change (get_queue n' (unlist i s) = get_queue n' s). by apply get_queue_unlist_absent.
Qed.

Lemma queue_for_same x x' n : m_clock_id x' = m_clock_id x -> queue_for_timer x = Ok n -> queue_for_timer x' = Ok n.
Proof. unfold queue_for_timer. by intros ->. Qed.

Lemma cancel_step_inv times k s :
  inv s -> exists s' r, cancel_step times k s = Ok (s', r) /\ inv s'.
Proof.
  intros Hs. destruct (cancels s !! k) as [[i pc]|] eqn:Hk.
  2: { exists s, None. unfold cancel_step. by rewrite Hk. }
  destruct (cancel_lookup k i pc s Hs Hk) as (x & Hx & Hv & Hp). destruct (inv_clock s Hs i x Hx) as [n Hn].
  destruct (decide (pc = Lock)) as [->|N].
  - destruct (cancel_step_lock times k i s x Hs Hk Hx Hp Hv) as (s' & r & x' & -> & Ev & Hx' & Hc & Hr & Hq & Ec).
    exists s', r. split; [done|].
    eapply (inv_evolves i _ s s' x x'); [done|done|done|done|by apply timer_ok_cancel| | |done].
    + exists n. by apply (queue_for_same x).
    + rewrite Hr, (inv_refs s Hs i x Hx), (cancel_view_eq k i Lock s x) by done. simpl. lia.
  - destruct (cancel_step_easy times k i pc s x Hs Hk Hx Hp Hv N)
      as (s' & r & x' & -> & Ev & Hx' & Hc & Hr & Hss & Hq & Ec).
    exists s', r. split; [done|].
    eapply (inv_evolves i _ s s' x x'); [done|done|done|done|by apply timer_ok_cancel| | |].
    + exists n. by apply (queue_for_same x).
    + rewrite Hr, (inv_refs s Hs i x Hx), (cancel_view_eq k i pc s x) by done.
      destruct pc; try done; simpl; by destruct (m_callback_finished x).
    + intros n'. by apply (queue_ok_same n' s); [apply Hs| |].
Qed.

(** ** Insertion *)

Lemma elem_of_insert_before f i l j : j ∈ insert_before f i l <-> j = i \/ j ∈ l.
Proof.
  induction l as [|k l IH]; simpl; [set_solver|]. case_match; [set_solver|]. rewrite !elem_of_cons, IH. tauto.
Qed.

Lemma NoDup_insert_before f i l : i ∉ l -> NoDup l -> NoDup (insert_before f i l).
Proof.
  induction l as [|k l IH]; simpl; intros Hi H; [by apply NoDup_singleton|].
  apply NoDup_cons in H as [Hk H]. case_match.
  - apply NoDup_cons. split; [done|]. by apply NoDup_cons.
  - apply NoDup_cons. rewrite elem_of_insert_before. split; [set_solver|]. apply IH; set_solver.
Qed.

Lemma following_Some ex e l f : following_timer ex e l = Some f -> f ∈ l /\ e < ex f.
Proof.
  induction l as [|k l IH]; simpl; [done|]. case_match; [intros [= ->]; split; [left|lia]|].
  intros [H1 H2]%IH. split; [by right|done].
Qed.

Lemma following_None ex e l : following_timer ex e l = None -> Forall (fun j => ex j <= e) l.
Proof. induction l as [|k l IH]; simpl; [done|]. case_match; [done|]. intros Hn. constructor; [lia|auto]. Qed.

(** The place found keeps the list sorted. *)
Lemma insert_before_sorted (ex : Z -> Z) i l f :
  StronglySorted (fun a b => ex a <= ex b) l -> following_timer ex (ex i) l = Some f ->
  StronglySorted (fun a b => ex a <= ex b) (insert_before f i l).
Proof.
  induction 1 as [|k l Hl IH Hk]; simpl; [done|]. destruct (ex i <? ex k) eqn:E.
  - intros [= ->]. rewrite Z.eqb_refl. constructor; [by constructor|]. constructor; [lia|].
    eapply Forall_impl; [done|]. intros j Hj. simpl in *. lia.
  - intros Hf. destruct (following_Some _ _ _ _ Hf) as [Hin Hlt].
    destruct (k =? f) eqn:Ek; [apply Z.eqb_eq in Ek as ->; lia|]. constructor; [by apply IH|].
    apply Forall_forall. intros j. rewrite elem_of_insert_before, Forall_forall in *.
    intros [->|Hj]; [lia|auto].
Qed.

Lemma append_sorted (ex : Z -> Z) i l :
  StronglySorted (fun a b => ex a <= ex b) l -> Forall (fun j => ex j <= ex i) l ->
  StronglySorted (fun a b => ex a <= ex b) (l ++ [i]).
Proof.
  induction 1 as [|k l Hl IH Hk]; simpl; intros Hf; [by repeat constructor|].
  apply Forall_cons in Hf as [H1 H2]. constructor; [by apply IH|].
  apply Forall_app. split; [done|]. by constructor.
Qed.

(** The queue that [add_timer_locked] leaves. *)
Definition placed (ex : Z -> Z) (i e : Z) (q : Queue) : Queue :=
  match list_of q with
  | [] => queue [i] e
  | first :: _ =>
      match following_timer ex e (list_of q) with
      | Some f => queue (insert_before f i (list_of q)) (if f =? first then e else next_timer_due q)
      | None => queue (list_of q ++ [i]) (next_timer_due q)
      end
  end.

Lemma placed_spec (ex : Z -> Z) i q :
  StronglySorted (fun a b => ex a <= ex b) (list_of q) -> NoDup (list_of q) -> i ∉ list_of q ->
  (forall j l, list_of q = j :: l -> next_timer_due q = ex j) ->
  let q' := placed ex i (ex i) q in
  StronglySorted (fun a b => ex a <= ex b) (list_of q') /\ NoDup (list_of q') /\
  (forall j, j ∈ list_of q' <-> j = i \/ j ∈ list_of q) /\
  (forall j l, list_of q' = j :: l -> next_timer_due q' = ex j).
Proof.
  intros Hs Hn Hi Hd. unfold placed. destruct (list_of q) as [|first l] eqn:El.
  { split_and!; [by repeat constructor|by apply NoDup_singleton|set_solver|by intros j l [= <- _]]. }
  rewrite <- El in *. destruct (following_timer ex (ex i) (list_of q)) as [f|] eqn:F; cbn [list_of next_timer_due].
  - split_and!; [by apply insert_before_sorted|by apply NoDup_insert_before|apply elem_of_insert_before|].
    intros j l'. rewrite El. simpl. destruct (first =? f) eqn:E; intros [= <- _].
    + by rewrite Z.eqb_sym, E.
    + rewrite Z.eqb_sym, E. by apply (Hd first l).
  - split_and!; [by apply append_sorted; [|apply following_None]| |set_solver|].
    + apply NoDup_app. split; [done|]. split; [set_solver|by apply NoDup_singleton].
    + rewrite El. intros j l' [= <- _]. by apply (Hd first l).
Qed.

Lemma sorted_agree (ex ex' : Z -> Z) l :
  (forall j, j ∈ l -> ex' j = ex j) -> StronglySorted (fun a b => ex a <= ex b) l ->
  StronglySorted (fun a b => ex' a <= ex' b) l.
Proof.
  intros H. induction 1 as [|k l Hl IH Hk]; constructor; [apply IH; set_solver|].
  rewrite Forall_forall in *. intros j Hj. rewrite !H by set_solver. auto.
Qed.

Lemma expires_of_eq s s' j : timers s' !! j = timers s !! j -> expires_of s' j = expires_of s j.
Proof. unfold expires_of. by intros ->. Qed.

Lemma queue_ok_agree n s s' :
  queue_ok n s -> get_queue n s' = get_queue n s ->
  (forall j, j ∈ list_of (get_queue n s) -> timers s' !! j = timers s !! j) -> queue_ok n s'.
Proof.
  intros [Qs Qn Qd Qc] E H. constructor; rewrite ?E; [|done| |].
  - apply (sorted_agree (expires_of s)); [|done]. intros j Hj. by apply expires_of_eq, H.
  - intros i l El. rewrite (Qd i l El). symmetry. apply expires_of_eq, H. rewrite El. left.
  - intros i Hi. destruct (Qc i Hi) as (x & Hx & Hn). exists x. by rewrite H.
Qed.

Definition armed (clock deadline : Z) (x : Timer) : Timer :=
  with_refs (m_ref_count x + 1) (with_flags false false true (with_id 0 (with_setup clock deadline x))).

(** What adding an idle timer comes to. *)
Lemma add_timer_eq times i c d s x n :
  timers s !! i = Some x -> is_in_list i s = false -> times c < d ->
  queue_for_timer (with_id 0 (with_setup c d x)) = Ok n ->
  exists s', add_timer_without_id times i c d s = Ok (s', true) /\
    timers s' = alter (armed c d) i (timers s) /\
    (forall n', get_queue n' s' =
       if decide (n' = n) then placed (expires_of s') i d (get_queue n s) else get_queue n' s) /\
    m_timers_executing s' = m_timers_executing s /\ calls s' = calls s /\ cancels s' = cancels s /\
    ran s' = ran s ∖ {[ i ]} /\ revoked s' = revoked s ∖ {[ i ]}.
Proof.
  intros Hx Hl Hd Hn. unfold add_timer_without_id. rewrite (proj2 (Z.leb_gt d (times c)) Hd).
  unfold the_timer at 1. rewrite Hx. cbn [bind]. rewrite Hl.
  set (s1 := set_timer i (with_setup c d) s). set (s2 := set_timer i (with_id 0) s1).
  assert (T2 : timers s2 !! i = Some (with_id 0 (with_setup c d x))).
  { simpl. by rewrite !lookup_alter_eq, Hx. }
  unfold add_timer_locked, the_timer. rewrite T2. cbn [bind]. rewrite Hn. cbn [bind].
  set (s3 := set_timer i _ s2). unfold is_in_list in Hl. apply orb_false_iff in Hl as [Hq He].
  apply bool_decide_eq_false in He.
  assert (Q : forall n, get_queue n (unlist i s3) = get_queue n s3).
  { intros n'. by apply get_queue_unlist_absent. }
  assert (T3 : timers s3 = alter (armed c d) i (timers s)).
  { apply map_eq. intros j. simpl. destruct (decide (j = i)) as [->|N].
    - by rewrite !lookup_alter_eq, Hx.
    - by rewrite !lookup_alter_ne. }
  eexists. split; [done|]. assert (X : m_timers_executing (unlist i s3) = m_timers_executing s).
  { simpl. by apply without_absent. }
  split; [rewrite <- T3; destruct n; reflexivity|].
  split; [|rewrite <- X; destruct n; repeat (split; [reflexivity|]); reflexivity].
  intros n'. match goal with |- get_queue _ ?S = _ => set (s' := S) end.
  assert (Ex : forall j, expires_of s' j = expires_of (unlist i s3) j).
  { intros j. apply expires_of_eq. destruct n; reflexivity. }
  assert (F : forall l, following_timer (expires_of (unlist i s3)) d l = following_timer (expires_of s') d l).
  { induction l as [|j l IH]; simpl; [done|]. by rewrite Ex, IH. }
  clear Ex. generalize dependent (expires_of s'). intros ex F.
  unfold s'. change (get_queue n' (set_history ?a ?b ?r)) with (get_queue n' r). rewrite get_put_queue.
  destruct (decide (n' = n)) as [->|N]; [|rewrite Q; destruct n'; reflexivity]. rewrite Q. unfold placed.
  assert (E3 : get_queue n s3 = get_queue n s) by (by destruct n). rewrite E3.
  destruct (list_of (get_queue n s)) eqn:El; [done|]. rewrite <- El. simpl m_expires. rewrite F.
  by destruct (following_timer _ _ _).
Qed.

Lemma add_inv times i c d s :
  inv s -> allowed (Add times i c d) s = true ->
  exists s' b, add_timer_without_id times i c d s = Ok (s', b) /\ inv s'.
Proof.
  intros Hs Ha. simpl in Ha. destruct (timers s !! i) as [x|] eqn:Hx; [|done].
  rewrite !andb_true_iff in Ha. destruct Ha as [[[[C1 C2] Hu] Hc] Hk].
  apply negb_true_iff in Hu, Hc, Hk. apply pcs_nil in Hc, Hk.
  destruct (Z_le_gt_dec d (times c)) as [L|L].
  { exists s, false. unfold add_timer_without_id. by rewrite (proj2 (Z.leb_le d (times c)) L). }
  assert (Hv : timer_ok (view_of i s) = true) by (apply (inv_ok s Hs); eauto).
  destruct (timer_ok_add _ Hv) as (Nq & Ne & Ha); [by unfold view_of; simpl; rewrite Hx|done|done|].
  assert (Hn : exists n, queue_for_timer (with_id 0 (with_setup c d x)) = Ok n).
  { unfold queue_for_timer. simpl. assert (c = 0 \/ c = 1 \/ c = 2 \/ c = 3 \/ c = 4) as Ec by lia.
    destruct_or! Ec; subst; simpl; eauto. }
  destruct Hn as [n Hn]. simpl in Nq, Ne.
  destruct (add_timer_eq times i c d s x n Hx) as (s' & -> & Ht & Hq & He & Hca & Hcc & Hr & Hre);
    [by unfold is_in_list; fold (in_queue i s); rewrite Nq, Ne|lia|done|].
  exists s', true. split; [done|].
  assert (Tx : timers s' !! i = Some (armed c d x)) by by rewrite Ht, lookup_alter_eq, Hx.
  assert (To : forall j, j <> i -> timers s' !! j = timers s !! j) by (intros j N; by rewrite Ht, lookup_alter_ne).
  assert (Ei : expires_of s' i = d) by (unfold expires_of; by rewrite Tx).
  assert (P : let q' := placed (expires_of s') i d (get_queue n s) in
    sorted s' (list_of q') /\ NoDup (list_of q') /\ (forall j, j ∈ list_of q' <-> j = i \/ j ∈ list_of (get_queue n s)) /\
    (forall j l, list_of q' = j :: l -> next_timer_due q' = expires_of s' j)).
  { destruct (inv_queues s Hs n) as [Qs Qn Qd Qc]. rewrite <- Ei.
    assert (Na : forall j, j ∈ list_of (get_queue n s) -> expires_of s' j = expires_of s j).
    { intros j Hj. apply expires_of_eq, To. intros ->. by apply (not_queued i n s Nq). }
    apply placed_spec; [by apply (sorted_agree (expires_of s))|done|by apply not_queued|].
    intros j l El. rewrite Na by (rewrite El; left). eauto. }
  destruct P as (Ps & Pn & Pe & Pd).
  assert (Iq : forall j, in_queue j s' = (bool_decide (j = i) || in_queue j s)).
  { intros j. apply eq_true_iff_eq. rewrite orb_true_iff, bool_decide_eq_true, !in_queue_iff. split.
    - intros [n' H]. rewrite Hq in H. destruct (decide (n' = n)) as [->|]; [apply Pe in H as [->|H]|]; eauto.
    - intros [->|[n' H]].
      + exists n. rewrite Hq, decide_True by done. apply Pe. by left.
      + exists n'. rewrite Hq. destruct (decide (n' = n)) as [->|]; [|done]. apply Pe. by right. }
  eapply (inv_evolves i (add_view (view_of i s)) s s' x (armed c d x)); [done| |done|done|done| | |].
  - constructor.
    + unfold view_of, add_view. simpl. rewrite Tx, He, Hca, Hcc, Hr, Hre, Iq, Ne. simpl.
      destruct (history_eq i (ran s)) as [_ ->], (history_eq i (revoked s)) as [_ ->].
      by rewrite bool_decide_true.
    + intros j N. split; [by apply To|]. unfold view_of. rewrite To, He, Hca, Hcc, Hr, Hre, Iq by done.
      destruct (history_ne j i (ran s) N) as [_ ->], (history_ne j i (revoked s) N) as [_ ->].
      by rewrite bool_decide_false.
  - exists n. by apply (queue_for_same (with_id 0 (with_setup c d x))).
  - simpl. rewrite (inv_refs s Hs i x Hx), Nq, Hc. simpl. lia.
  - intros n'. destruct (decide (n' = n)) as [->|N].
    + constructor; rewrite Hq, decide_True by done; [done|done|done|].
      intros j [->|Hj]%Pe.
      * exists (armed c d x). split; [done|]. by apply (queue_for_same (with_id 0 (with_setup c d x))).
      * rewrite To by (intros ->; by apply (not_queued i n s Nq)). by apply (q_clock n s (inv_queues s Hs n)).
    + apply (queue_ok_agree n' s); [apply Hs|by rewrite Hq, decide_False|].
      intros j Hj. apply To. intros ->. by apply (not_queued i n' s Nq).
Qed.

Lemma new_timer_inv i s : inv s -> timers s !! i = None -> inv (new_timer i s).
Proof.
  intros Hs Hi. pose proof (inv_known s Hs i Hi) as V. unfold view_of in V. rewrite Hi in V.
  simpl in V. injection V as V1 V2 V3 V4 V5 V6.
  assert (Nq : forall n j, j ∈ list_of (get_queue n s) -> j <> i).
  { intros n j Hj ->. by apply (not_queued i n s). }
  assert (To : forall j, j <> i -> timers (new_timer i s) !! j = timers s !! j).
  { intros j N. simpl. by rewrite lookup_insert_ne. }
  assert (Vo : forall j, j <> i -> view_of j (new_timer i s) = view_of j s).
  { intros j N. unfold view_of. by rewrite To. }
  assert (Vi : view_of i (new_timer i s) = mk_view false false false false false false false [] []).
  { unfold view_of, in_queue in *. simpl. rewrite lookup_insert_eq. simpl. by rewrite V1, V2, V3, V4, V5, V6. }
  constructor.
  - intros j Hj. destruct (decide (j = i)) as [->|N]; [by rewrite Vi|]. rewrite Vo by done.
    apply (inv_ok s Hs). by rewrite <- To.
  - intros j Hj. destruct (decide (j = i)) as [->|N]; [by simpl in Hj; rewrite lookup_insert_eq in Hj|].
    rewrite Vo by done. apply (inv_known s Hs). by rewrite <- To.
  - intros j x. simpl. rewrite lookup_insert_Some. intros [[<- <-]|[_ Hj]]; [by exists Realtime|].
    by eapply inv_clock.
  - intros j x Hj. simpl in Hj. rewrite lookup_insert_Some in Hj. destruct Hj as [[<- <-]|[N Hj]].
    + pose proof (f_equal v_queued Vi) as E1. pose proof (f_equal v_calls Vi) as E2. simpl in E1, E2 |- *.
      by rewrite E1, E2.
    + rewrite (inv_refs s Hs j x Hj). done.
  - intros n. apply (queue_ok_agree n s); [apply Hs|by destruct n|]. intros j Hj. by apply To, (Nq n).
Qed.

Lemma cancel_start_inv i s :
  inv s -> allowed (CancelStart i) s = true -> inv (set_cancels (cancels s ++ [(i, Start)]) s).
Proof.
  intros Hs [[x Hx]%bool_decide_eq_true Hk%negb_true_iff%pcs_nil]%andb_true_iff.
  eapply (inv_evolves i (start_view (view_of i s)) s _ x x); [done| |done|done| | | |].
  - constructor.
    + unfold view_of, start_view. simpl. by rewrite pcs_app, pcs_cons, Z.eqb_refl.
    + intros j N. split; [done|]. unfold view_of. simpl.
      rewrite pcs_app, pcs_cons, (proj2 (Z.eqb_neq i j)) by done. simpl. by rewrite app_nil_r.
  - apply timer_ok_start; [|done]. apply (inv_ok s Hs). eauto.
  - by eapply inv_clock.
  - by rewrite (inv_refs s Hs i x Hx).
  - intros n. apply (queue_ok_same n s); [apply Hs|done|by destruct n].
Qed.

Lemma fire_begin_ok n s : inv s -> fire_begin n s = Ok s.
Proof.
  intros Hs. unfold fire_begin. destruct (list_of (get_queue n s)) as [|i l] eqn:El; [done|].
  destruct (q_clock n s (inv_queues s Hs n) i) as (x & Hx & _); [rewrite El; left|].
  unfold the_timer. rewrite Hx. simpl. rewrite (q_due n s (inv_queues s Hs n) i l El). unfold expires_of.
  by rewrite Hx, Z.eqb_refl.
Qed.

Lemma timer_step_inv e s : inv s -> allowed e s = true -> exists s', step e s = Ok s' /\ inv s'.
Proof.
  intros Hs Ha. destruct e; simpl step.
  - eexists. split; [done|]. apply new_timer_inv; [done|]. by apply bool_decide_eq_true in Ha.
  - destruct (add_inv _ _ _ _ _ Hs Ha) as (s' & b & -> & H). by exists s'.
  - exists s. by rewrite fire_begin_ok.
  - destruct (fire_next_inv times n s Hs) as (s' & b & -> & H). by exists s'.
  - by apply call_step_inv.
  - eexists. split; [done|]. by apply cancel_start_inv.
  - destruct (cancel_step_inv times k s Hs) as (s' & r & -> & H). by exists s'.
Qed.

Lemma no_timers_inv : inv initial.
Proof.
  constructor.
  - intros i [x Hx]. simpl in Hx. by rewrite lookup_empty in Hx.
  - intros i _. unfold view_of, in_queue. simpl. by rewrite !bool_decide_false by set_solver.
  - intros i x Hx. simpl in Hx. by rewrite lookup_empty in Hx.
  - intros i x Hx. simpl in Hx. by rewrite lookup_empty in Hx.
  - intros n. constructor; destruct n; simpl; try constructor; try done; set_solver.
Qed.

Lemma run_disciplined es s :
  inv s -> disciplined es s = true -> exists s', run es s = Ok s' /\ inv s'.
Proof.
  revert s. induction es as [|e es IH]; intros s Hs Hd; [by exists s|]. simpl in *.
  apply andb_true_iff in Hd as [Ha Hd]. destruct (timer_step_inv e s Hs Ha) as (s' & E & Hs').
  rewrite E in *. simpl. by apply IH.
Qed.

(** ** The main theorems *)

(** A timer that is added, fires, and is cancelled before its deferred call
    ran; a second one that runs. *)
Definition at_time (d : Z) : Z -> Z := fun _ => d.

Definition sample_events : list event :=
  [New 1; New 2; Add (at_time 0) 1 CLOCK_MONOTONIC 5; Add (at_time 0) 2 CLOCK_MONOTONIC_COARSE 3;
   FireBegin Monotonic; FireNext (at_time 9) Monotonic; FireNext (at_time 9) Monotonic;
   FireNext (at_time 9) Monotonic; CancelStart 1; CancelStep (at_time 9) 0; CancelStep (at_time 9) 0;
   CallStep 0; CallStep 0; CallStep 0; CancelStep (at_time 9) 0; CancelStep (at_time 9) 0; CallStep 1].



(** ** Firing *)

Definition due (times : Z -> Z) (s : t) (i : Z) : Prop :=
  exists x, timers s !! i = Some x /\ m_expires x < now times true x.

Lemma fire_next_eq times n s i l x :
  inv s -> list_of (get_queue n s) = i :: l -> timers s !! i = Some x -> m_expires x < now times true x ->
  exists s', fire_next times n s = Ok (s', true) /\ timers s' = timers s /\
    list_of (get_queue n s') = l /\ calls s' = calls s ++ [(i, Queued)] /\
    (forall n', n' <> n -> list_of (get_queue n' s') = list_of (get_queue n' s)).
Proof.
  intros Hs El Hx Hd. unfold fire_next. rewrite El. unfold the_timer. rewrite Hx. simpl.
  rewrite (proj2 (Z.ltb_lt _ _) Hd). simpl. eexists. split; [done|].
  assert (Hi : i ∈ list_of (get_queue n s)) by (rewrite El; left).
  pose proof (q_nodup n s (inv_queues s Hs n)) as Nd. rewrite El in Nd. apply NoDup_cons in Nd as [Nd _].
  split; [by destruct n|]. split; [|split; [by destruct n|]].
  - transitivity (without i (list_of (get_queue n s))); [by destruct n|]. rewrite El. unfold without.
    rewrite filter_cons_False by naive_solver. by apply without_absent.
  - intros n' N. transitivity (without i (list_of (get_queue n' s))); [by destruct n, n'|].
    apply without_absent. intros Hi'. by apply N; eapply queue_unique.
Qed.

Lemma sorted_suffix {A} (R : A -> A -> Prop) l1 l2 : StronglySorted R (l1 ++ l2) -> StronglySorted R l2.
Proof. induction l1 as [|x l1 IH]; simpl; [done|]. intros H. inversion_clear H. auto. Qed.

(** What a round of [fire] over the queue [n] leaves. *)
Record fired (times : Z -> Z) (n : queue_name) (s s' : t) (now_due rest : list Z) : Prop := {
  f_split : list_of (get_queue n s) = now_due ++ rest;
  f_due : Forall (due times s) now_due;
  f_rest : forall i l, rest = i :: l -> ~ due times s i;
  f_list : list_of (get_queue n s') = rest;
  f_other : forall n', n' <> n -> list_of (get_queue n' s') = list_of (get_queue n' s);
  f_calls : calls s' = calls s ++ map (fun i => (i, Queued)) now_due;
  f_timers : timers s' = timers s
}.

Lemma fire_loop_spec fuel times n s :
  inv s -> (length (list_of (get_queue n s)) < fuel)%nat ->
  exists s' now_due rest, fire_loop fuel times n s = Ok s' /\ inv s' /\ fired times n s s' now_due rest.
Proof.
  revert s. induction fuel as [|fuel IH]; intros s Hs Hf; [lia|]. simpl.
  destruct (list_of (get_queue n s)) as [|i l] eqn:El.
  { exists s, [], []. unfold fire_next. rewrite El. simpl. split; [done|]. split; [done|].
    constructor; rewrite ?app_nil_r; done. }
  destruct (q_clock n s (inv_queues s Hs n) i) as (x & Hx & _); [rewrite El; left|].
  destruct (Z_lt_ge_dec (m_expires x) (now times true x)) as [Hd|Hd].
  - destruct (fire_next_eq times n s i l x Hs El Hx Hd) as (s1 & E & T1 & L1 & C1 & O1).
    destruct (fire_next_inv times n s Hs) as (s1' & b & E' & H1). rewrite E in E'. injection E' as <- <-.
    rewrite E. simpl. destruct (IH s1 H1) as (s2 & nd & rest & E2 & H2 & [F1 F2 F3 F4 F5 F6 F7]).
    { rewrite L1. simpl in Hf. lia. }
    exists s2, (i :: nd), rest. split; [done|]. split; [done|].
    assert (Ed : forall j, due times s1 j <-> due times s j) by (intros j; unfold due; by rewrite T1).
    constructor; [| | |done| | |congruence].
    + rewrite El, <- L1, F1. done.
    + constructor; [by exists x|]. eapply Forall_impl; [done|]. intros j. apply Ed.
    + intros j l' Er. rewrite <- Ed. eauto.
    + intros n' N. rewrite F5, O1 by done. done.
    + rewrite F6, C1, <- app_assoc. done.
  - exists s, [], (i :: l). unfold fire_next. rewrite El. unfold the_timer. rewrite Hx. simpl.
    rewrite (proj2 (Z.ltb_ge _ _)) by lia. simpl. split; [done|]. split; [done|].
    constructor; rewrite ?app_nil_r; try done. intros j l' [= <- <-] (y & Hy & Hlt). simplify_eq. lia.
Qed.


Definition queue_events : list event :=
  [New 1; New 2; New 3; Add (at_time 0) 1 CLOCK_MONOTONIC 5; Add (at_time 0) 2 CLOCK_MONOTONIC 3;
   Add (at_time 0) 3 CLOCK_MONOTONIC 20].


(** A cancellation that comes between the interrupt and the deferred call
    returns while that call is still pending.  If the timer is then added again,
    as [alarm] and [Thread::block] do, the old call runs the new callback before
    its time and takes the timer out of its queue without updating the deadline
    of the queue, and the next interrupt fails its check. *)
Lemma stale_call_runs_rearmed_timer :
  let times := at_time 9 in
  let es := [New 1; New 2; Add (at_time 0) 1 CLOCK_MONOTONIC 5; FireNext times Monotonic;
             CancelStart 1; CancelStep times 0; CancelStep times 0; CancelStep times 0; CancelStep times 0;
             Add times 1 CLOCK_MONOTONIC 100; Add times 2 CLOCK_MONOTONIC 200; CallStep 0; CallStep 0] in
  match run es initial with
  | Ok s => 1 ∈ ran s /\ expires_of s 1 = 100 /\
      match call_step 0 s with
      | Ok s => list_of (get_queue Monotonic s) = [2] /\ fire_begin Monotonic s = Panic
      | _ => False
      end
  | _ => False
  end.
Proof. vm_compute. by repeat split. Qed.

(** Two callers that cancel a timer at the same time: the one that comes second
    waits for a callback that never runs. *)
Lemma second_cancel_waits_forever :
  let times := at_time 0 in
  let es := [New 1; Add times 1 CLOCK_MONOTONIC 5; CancelStart 1; CancelStart 1; CancelStep times 0;
             CancelStep times 1; CancelStep times 0; CancelStep times 0; CancelStep times 0;
             CancelStep times 0] in
  match run es initial with
  | Ok s => cancels s = [(1, Spin)] /\ calls s = [] /\ is_in_list 1 s = false /\
      forall times, cancel_step times 0 s = Ok (s, None)
  | _ => False
  end.
Proof. vm_compute. by repeat split. Qed.
End TimerQueue.
