(* ===== verification/Checksum.v ===== *)
(** The CRC-32 checksum of [Userland/Libraries/LibCrypto/Checksum/CRC32.cpp]
    on a little-endian processor: the tables, the loop that takes eight bytes
    at a time, and the proof that it is division by the polynomial. *)

From Stdlib Require Import Btauto.
From S2P Require Import Prelude.

Module CRC32.
#[local] Open Scope Z_scope.

(** ** The code *)

Definition ethernet_polynomial : Z := 0xEDB88320.

(** [value = (value >> 1) ^ ((value & 1) * ethernet_polynomial)] *)
Definition shift_bit (value : Z) : Z :=
  u32 (Z.lxor (Z.shiftr value 1) (u64 (Z.land value 1 * ethernet_polynomial))).

(** The rows of the table. *)
Definition first_row : list Z := map (fun i => Nat.iter 8 shift_bit (Z.of_nat i)) (seq 0 256).

Definition entry (row : list Z) (i : Z) : Z := nth (Z.to_nat i) row 0.

Definition next_row (data0 row : list Z) : list Z :=
  map (fun x => Z.lxor (Z.shiftr x 8) (entry data0 (Z.land x 0xff))) row.

Fixpoint generate_rows (n : nat) (data0 row : list Z) : list (list Z) :=
  match n with
  | O => []
  | S n => row :: generate_rows n data0 (next_row data0 row)
  end.

Definition generate_table : list (list Z) := generate_rows 8 first_row first_row.

Definition table (j i : Z) : Z := entry (nth (Z.to_nat j) generate_table []) i.

Definition single_byte_crc (crc byte : Z) : Z :=
  Z.lxor (Z.shiftr crc 8) (table 0 (Z.lxor (Z.land crc 0xff) byte)).

(** The bytes before the first address divisible by [alignment], and the others. *)
Definition split_bytes_for_alignment (address : Z) (data : list Z) (alignment : Z) : list Z * list Z :=
  let offset := alignment - address mod alignment in
  if offset =? alignment then ([], data)
  else if Z.of_nat (length data) <? alignment then (data, [])
  else (take (Z.to_nat offset) data, drop (Z.to_nat offset) data).

(** A little-endian 32-bit load. *)
Definition load32 (b0 b1 b2 b3 : Z) : Z :=
  Z.lor b0 (Z.lor (Z.shiftl b1 8) (Z.lor (Z.shiftl b2 16) (Z.shiftl b3 24))).

Definition eight_byte_crc (m_state w0 w1 : Z) : Z :=
  let low := Z.lxor w0 m_state in
  let high := w1 in
  Z.lxor (table 0 (Z.land (Z.shiftr high 24) 0xff))
  (Z.lxor (table 1 (Z.land (Z.shiftr high 16) 0xff))
  (Z.lxor (table 2 (Z.land (Z.shiftr high 8) 0xff))
  (Z.lxor (table 3 (Z.land high 0xff))
  (Z.lxor (table 4 (Z.land (Z.shiftr low 24) 0xff))
  (Z.lxor (table 5 (Z.land (Z.shiftr low 16) 0xff))
  (Z.lxor (table 6 (Z.land (Z.shiftr low 8) 0xff))
          (table 7 (Z.land low 0xff)))))))).

(** The loop that takes eight bytes while there are as many, and what it leaves. *)
Fixpoint eight_byte_loop (body : Z -> Z -> Z -> Z) (m_state : Z) (data : list Z) : Z * list Z :=
  match data with
  | b0 :: b1 :: b2 :: b3 :: b4 :: b5 :: b6 :: b7 :: rest =>
      eight_byte_loop body (body m_state (load32 b0 b1 b2 b3) (load32 b4 b5 b6 b7)) rest
  | _ => (m_state, data)
  end.

(** [CRC32::update] on bytes at an address. *)
Definition update (address : Z) (data : list Z) (m_state : Z) : Z :=
  let (misaligned_data, aligned_data) := split_bytes_for_alignment address data 4 in
  let m_state := fold_left single_byte_crc misaligned_data m_state in
  let (m_state, aligned_data) := eight_byte_loop eight_byte_crc m_state aligned_data in
  fold_left single_byte_crc aligned_data m_state.

Definition digest (m_state : Z) : Z := u32 (Z.lnot m_state).

Definition initial_state : Z := u32 (Z.lnot 0).

(** ** The definition of the checksum: division by the polynomial, one bit at a
    time, the least significant first. *)

Definition divide_bit (crc : Z) : Z :=
  if Z.odd crc then Z.lxor (Z.shiftr crc 1) ethernet_polynomial else Z.shiftr crc 1.

Definition divide_byte (crc byte : Z) : Z := Nat.iter 8 divide_bit (Z.lxor crc byte).

Definition crc_of (data : list Z) (crc : Z) : Z := fold_left divide_byte data crc.

(** ** Bits *)

Definition byte (b : Z) : Prop := 0 <= b < 256.
Definition word (x : Z) : Prop := 0 <= x < 2 ^ 32.

Definition steps (n : nat) (x : Z) : Z := Nat.iter n divide_bit x.

Lemma lxor_word x y : word x -> word y -> word (Z.lxor x y).
Proof.
  unfold word. intros Hx Hy. split; [apply Z.lxor_nonneg; lia|].
  destruct (Z.eq_dec (Z.lxor x y) 0) as [->|N]; [lia|].
  assert (0 < Z.lxor x y) by (assert (0 <= Z.lxor x y) by (apply Z.lxor_nonneg; lia); lia).
  apply Z.log2_lt_pow2; [done|]. eapply Z.le_lt_trans; [apply Z.log2_lxor; lia|].
  apply Z.max_lub_lt; (destruct (Z.eq_dec x 0) as [->|]; [done|]) ||
    (destruct (Z.eq_dec y 0) as [->|]; [done|]); apply Z.log2_lt_pow2; lia.
Qed.

Lemma shiftr_word x n : 0 <= n -> word x -> word (Z.shiftr x n).
Proof.
  unfold word. intros Hn Hx. rewrite Z.shiftr_div_pow2 by done.
  assert (0 < 2 ^ n) by (apply Z.pow_pos_nonneg; lia). split; [apply Z.div_pos; lia|].
  eapply Z.le_lt_trans; [apply Z.div_le_upper_bound with (q := x); nia|lia].
Qed.

Lemma divide_bit_word x : word x -> word (divide_bit x).
Proof.
  intros H. unfold divide_bit. destruct (Z.odd x); [apply lxor_word; [|by unfold word]|];
    apply shiftr_word; done || lia.
Qed.

Lemma steps_word n x : word x -> word (steps n x).
Proof. intros H. induction n as [|n IH]; simpl; [done|]. by apply divide_bit_word. Qed.

(** A step distributes over exclusive or. *)
Lemma divide_bit_lxor x y : divide_bit (Z.lxor x y) = Z.lxor (divide_bit x) (divide_bit y).
Proof.
  unfold divide_bit. rewrite <- !Z.bit0_odd, Z.lxor_spec, Z.shiftr_lxor.
  apply Z.bits_inj'. intros k Hk. destruct (Z.testbit x 0), (Z.testbit y 0); simpl; rewrite !Z.lxor_spec;
    by repeat destruct (Z.testbit _ _).
Qed.

Lemma steps_lxor n x y : steps n (Z.lxor x y) = Z.lxor (steps n x) (steps n y).
Proof. induction n as [|n IH]; simpl; [done|]. rewrite IH. apply divide_bit_lxor. Qed.

Lemma steps_add n m x : steps (n + m) x = steps n (steps m x).
Proof. unfold steps. induction n as [|n IH]; simpl; [done|]. by rewrite IH. Qed.

(** Zeros in the low bits are shifted out. *)
Lemma steps_shiftl n x : steps n (Z.shiftl x (Z.of_nat n)) = x.
Proof.
  induction n as [|n IH]; [done|]. rewrite Nat2Z.inj_succ, <- Nat.add_1_r, steps_add.
  change (steps 1 ?y) with (divide_bit y). rewrite <- IH at 2. f_equal. unfold divide_bit.
  rewrite Z.shiftl_mul_pow2, Z.pow_succ_r by lia.
  replace (x * (2 * 2 ^ Z.of_nat n)) with (2 * (x * 2 ^ Z.of_nat n)) by lia. rewrite Z.odd_mul. simpl.
  rewrite Z.shiftr_div_pow2, Z.shiftl_mul_pow2 by lia. change (2 ^ 1) with 2.
  by rewrite Z.mul_comm, Z.div_mul.
Qed.

Lemma steps_shiftl_le n k x : (k <= n)%nat -> steps n (Z.shiftl x (Z.of_nat k)) = steps (n - k) x.
Proof. intros H. replace n with ((n - k) + k)%nat at 1 by lia. by rewrite steps_add, steps_shiftl. Qed.

Lemma land_ff_testbit x k : 0 <= k -> Z.testbit (Z.land x 0xff) k = Z.testbit x k && (k <? 8).
Proof.
  intros Hk. rewrite Z.land_spec. change 0xff with (Z.ones 8). f_equal. rewrite Z.testbit_ones_nonneg by lia. done.
Qed.

Lemma land_ff_byte x : byte (Z.land x 0xff).
Proof. unfold byte. change 0xff with (Z.ones 8). rewrite Z.land_ones by lia. apply Z.mod_pos_bound. lia. Qed.

Lemma low_byte_split x : x = Z.lxor (Z.land x 0xff) (Z.shiftl (Z.shiftr x 8) 8).
Proof.
  apply Z.bits_inj'. intros k Hk. rewrite Z.lxor_spec, land_ff_testbit, Z.shiftl_spec by done.
  destruct (k <? 8) eqn:E; rewrite ?andb_true_r, ?andb_false_r.
  - rewrite (Z.testbit_neg_r _ (k - 8)) by lia. by rewrite xorb_false_r.
  - rewrite Z.shiftr_spec, xorb_false_l by lia. f_equal. lia.
Qed.

(** Eight steps: the low byte goes through the table, the rest is shifted. *)
Lemma steps_8 x : steps 8 x = Z.lxor (Z.shiftr x 8) (steps 8 (Z.land x 0xff)).
Proof.
  rewrite (low_byte_split x) at 1. rewrite steps_lxor.
  change 8 with (Z.of_nat 8) at 3. rewrite steps_shiftl. apply Z.lxor_comm.
Qed.

(** ** The table *)

Lemma shift_bit_eq x : word x -> shift_bit x = divide_bit x.
Proof.
  intros Hx. unfold shift_bit, divide_bit. change 1 with (Z.ones 1) at 2. rewrite Z.land_ones by lia.
  change (2 ^ 1) with 2. rewrite Zmod_odd. destruct (Z.odd x); simpl Z.mul.
  - rewrite Z.mul_1_l. unfold u64, u32, wrap. rewrite (Z.mod_small ethernet_polynomial) by (by vm_compute).
    apply Z.mod_small. apply lxor_word; [apply shiftr_word; [lia|done]|by unfold word].
  - unfold u64, u32, wrap. rewrite Z.mod_0_l by lia. rewrite Z.lxor_0_r. apply Z.mod_small.
    by apply shiftr_word.
Qed.

Definition row (n : nat) : list Z := map (fun i => steps n (Z.of_nat i)) (seq 0 256).

Lemma entry_row n b : byte b -> entry (row n) b = steps n b.
Proof.
  unfold byte, entry, row. intros H.
  rewrite (nth_indep _ 0 (steps n (Z.of_nat 0))) by (rewrite length_map, length_seq; lia).
  rewrite (map_nth (fun i => steps n (Z.of_nat i))). rewrite seq_nth by lia. f_equal. lia.
Qed.

Lemma first_row_eq : first_row = row 8.
Proof. by vm_compute. Qed.

Lemma next_row_eq n : next_row first_row (row n) = row (8 + n).
Proof.
  unfold next_row. rewrite first_row_eq. unfold row at 2 3. rewrite map_map. apply map_ext. intros i.
  rewrite entry_row by apply land_ff_byte. symmetry. etransitivity; [apply (steps_add 8 n)|apply steps_8].
Qed.

Lemma generate_rows_nth n j m :
  (j < n)%nat -> nth j (generate_rows n first_row (row m)) [] = row (8 * j + m).
Proof.
  revert j m. induction n as [|n IH]; intros j m Hj; [lia|]. destruct j as [|j]; [done|].
  cbn [generate_rows nth]. rewrite next_row_eq, IH by lia. f_equal. lia.
Qed.

(** Each entry is the effect of that many zero bytes on a byte. *)
Lemma table_eq (j : nat) b : (j < 8)%nat -> byte b -> table (Z.of_nat j) b = steps (8 * (j + 1)) b.
Proof.
  intros Hj Hb. unfold table.
  assert (generate_table = generate_rows 8 first_row (row 8)) as -> by (by rewrite <- first_row_eq).
  rewrite Nat2Z.id, generate_rows_nth, entry_row by done. f_equal. lia.
Qed.

(** ** One byte and eight bytes at a time *)

Lemma lxor_byte x y : byte x -> byte y -> byte (Z.lxor x y).
Proof.
  unfold byte. intros Hx Hy. split; [apply Z.lxor_nonneg; lia|].
  assert (E : Z.lxor x y = Z.land (Z.lxor x y) 0xff).
  { apply Z.bits_inj'. intros k Hk. rewrite land_ff_testbit, Z.lxor_spec by done.
    destruct (k <? 8) eqn:E; [by rewrite andb_true_r|].
    rewrite <- (Z.mod_small x 256), <- (Z.mod_small y 256) by done. change 256 with (2 ^ 8).
    by rewrite !Z.mod_pow2_bits_high by lia. }
  rewrite E. apply land_ff_byte.
Qed.

Lemma shiftr_byte b : byte b -> Z.shiftr b 8 = 0.
Proof. unfold byte. intros H. rewrite Z.shiftr_div_pow2 by lia. by apply Z.div_small. Qed.

Lemma land_byte b : byte b -> Z.land b 0xff = b.
Proof.
  unfold byte. intros H. change 0xff with (Z.ones 8). rewrite Z.land_ones by lia. by apply Z.mod_small.
Qed.

Lemma single_byte_crc_eq crc b : byte b -> single_byte_crc crc b = divide_byte crc b.
Proof.
  intros Hb. unfold single_byte_crc, divide_byte. change (Nat.iter 8 divide_bit ?x) with (steps 8 x).
  change (table 0) with (table (Z.of_nat 0)).
  rewrite table_eq by (lia || (apply lxor_byte; [apply land_ff_byte|done])).
  rewrite (steps_8 (Z.lxor crc b)), Z.shiftr_lxor, (shiftr_byte b Hb), Z.lxor_0_r. do 2 f_equal.
  apply Z.bits_inj'. intros k Hk. rewrite land_ff_testbit, !Z.lxor_spec, land_ff_testbit by done.
  rewrite <- (land_byte b Hb) at 1 2. rewrite land_ff_testbit by done.
  by destruct (Z.testbit crc k), (Z.testbit b k), (k <? 8).
Qed.

Lemma word_split x :
  word x ->
  x = Z.lxor (Z.land x 0xff)
       (Z.lxor (Z.shiftl (Z.land (Z.shiftr x 8) 0xff) 8)
       (Z.lxor (Z.shiftl (Z.land (Z.shiftr x 16) 0xff) 16) (Z.shiftl (Z.land (Z.shiftr x 24) 0xff) 24))).
Proof.
  intros Hx. rewrite (low_byte_split x) at 1. f_equal.
  rewrite (low_byte_split (Z.shiftr x 8)) at 1. rewrite Z.shiftl_lxor. f_equal.
  rewrite Z.shiftl_shiftl, Z.shiftr_shiftr by lia. change (8 + 8) with 16.
  rewrite (low_byte_split (Z.shiftr x 16)) at 1. rewrite Z.shiftl_lxor. f_equal.
  rewrite Z.shiftl_shiftl, Z.shiftr_shiftr by lia. change (8 + 16) with 24. change (16 + 8) with 24.
  rewrite land_byte; [done|]. unfold word, byte in *. rewrite Z.shiftr_div_pow2 by lia.
  split; [apply Z.div_pos; lia|]. apply Z.div_lt_upper_bound; lia.
Qed.

(** The four bytes of a word at the end of [n] bytes. *)
Lemma steps_word_bytes n x :
  word x -> (24 <= n)%nat ->
  steps n x = Z.lxor (steps n (Z.land x 0xff))
    (Z.lxor (steps (n - 8) (Z.land (Z.shiftr x 8) 0xff))
    (Z.lxor (steps (n - 16) (Z.land (Z.shiftr x 16) 0xff)) (steps (n - 24) (Z.land (Z.shiftr x 24) 0xff)))).
Proof.
  intros Hx Hn. rewrite (word_split x Hx) at 1. rewrite !steps_lxor.
  change 8 with (Z.of_nat 8) at 2. change 16 with (Z.of_nat 16) at 2. change 24 with (Z.of_nat 24) at 2.
  by rewrite !steps_shiftl_le by lia.
Qed.

Lemma eight_byte_crc_eq s w0 w1 :
  word s -> word w0 -> word w1 ->
  eight_byte_crc s w0 w1 = steps 32 (Z.lxor (steps 32 (Z.lxor s w0)) w1).
Proof.
  intros Hs H0 H1. rewrite steps_lxor, <- steps_add. change (32 + 32)%nat with 64%nat.
  rewrite (steps_word_bytes 64), (steps_word_bytes 32) by (lia || done || by apply lxor_word).
  assert (T : forall j n x, (j < 8)%nat -> n = (8 * (j + 1))%nat ->
    table (Z.of_nat j) (Z.land x 0xff) = steps n (Z.land x 0xff)).
  { intros j n x Hj ->. apply table_eq; [done|apply land_ff_byte]. }
  unfold eight_byte_crc. rewrite (Z.lxor_comm w0 s).
  rewrite (T 0%nat 8%nat _ ltac:(lia) eq_refl : table 0 _ = _), (T 1%nat 16%nat _ ltac:(lia) eq_refl : table 1 _ = _),
    (T 2%nat 24%nat _ ltac:(lia) eq_refl : table 2 _ = _), (T 3%nat 32%nat _ ltac:(lia) eq_refl : table 3 _ = _),
    (T 4%nat 40%nat _ ltac:(lia) eq_refl : table 4 _ = _), (T 5%nat 48%nat _ ltac:(lia) eq_refl : table 5 _ = _),
    (T 6%nat 56%nat _ ltac:(lia) eq_refl : table 6 _ = _), (T 7%nat 64%nat _ ltac:(lia) eq_refl : table 7 _ = _).
  change (64 - 8)%nat with 56%nat. change (64 - 16)%nat with 48%nat. change (64 - 24)%nat with 40%nat.
  change (32 - 8)%nat with 24%nat. change (32 - 16)%nat with 16%nat. change (32 - 24)%nat with 8%nat.
  repeat match goal with |- context [steps ?n ?x] => generalize (steps n x); intro end.
  apply Z.bits_inj'. intros k Hk. rewrite !Z.lxor_spec. btauto.
Qed.

Lemma load32_lxor b0 b1 b2 b3 :
  byte b0 -> byte b1 -> byte b2 -> byte b3 ->
  load32 b0 b1 b2 b3 =
    Z.lxor b0 (Z.lxor (Z.shiftl b1 8) (Z.lxor (Z.shiftl b2 16) (Z.shiftl b3 24))).
Proof.
  assert (D : forall a b n, byte a -> 0 <= n -> Z.land (Z.shiftl a n) (Z.shiftl b (n + 8)) = 0).
  { intros a b n Ha Hn. apply Z.bits_inj'. intros k Hk. rewrite Z.land_spec, Z.bits_0, !Z.shiftl_spec by done.
    destruct (Z.lt_ge_cases (k - n) 8) as [L|L].
    - by rewrite (Z.testbit_neg_r b), andb_false_r by lia.
    - by rewrite <- (land_byte a Ha), land_ff_testbit, (proj2 (Z.ltb_ge _ _) L), andb_false_r by lia. }
  intros H0 H1 H2 H3. unfold load32.
  assert (E3 := D b2 b3 16 H2 ltac:(lia)). assert (E2 := D b1 (Z.lxor b2 (Z.shiftl b3 8)) 8 H1 ltac:(lia)).
  assert (E1 := D b0 (Z.lxor b1 (Z.lxor (Z.shiftl b2 8) (Z.shiftl b3 16))) 0 H0 ltac:(lia)).
  repeat setoid_rewrite Z.shiftl_lxor in E1. repeat setoid_rewrite Z.shiftl_lxor in E2.
  rewrite !Z.shiftl_shiftl in E1, E2 by lia. rewrite Z.shiftl_0_r in E1.
  cbn [Z.add Pos.add Pos.succ] in E1, E2, E3.
  assert (L : forall a b, Z.land a b = 0 -> Z.lor a b = Z.lxor a b) by (intros a b E; by rewrite <- Z.lxor_lor).
  rewrite (L (Z.shiftl b2 16)) by done. rewrite (L (Z.shiftl b1 8)) by done. by rewrite L.
Qed.

Lemma load32_word b0 b1 b2 b3 :
  byte b0 -> byte b1 -> byte b2 -> byte b3 -> word (load32 b0 b1 b2 b3).
Proof.
  intros H0 H1 H2 H3. rewrite load32_lxor by done.
  unfold byte in *. repeat apply lxor_word; rewrite ?Z.shiftl_mul_pow2 by lia; unfold word; lia.
Qed.

(** Four bytes in a row are one word. *)
Lemma divide_four s b0 b1 b2 b3 :
  byte b0 -> byte b1 -> byte b2 -> byte b3 ->
  crc_of [b0; b1; b2; b3] s = steps 32 (Z.lxor s (load32 b0 b1 b2 b3)).
Proof.
  intros H0 H1 H2 H3. rewrite load32_lxor by done.
  assert (D : forall x b, divide_byte x b = steps 8 (Z.lxor x b)) by done.
  unfold crc_of. cbn [fold_left]. rewrite !D, !steps_lxor, <- !steps_add.
  change 8 with (Z.of_nat 8). change 16 with (Z.of_nat 16). change 24 with (Z.of_nat 24).
  rewrite !steps_shiftl_le by lia. cbn [Nat.add Nat.sub]. by rewrite !Z.lxor_assoc.
Qed.

Lemma single_bytes_eq data s : Forall byte data -> fold_left single_byte_crc data s = crc_of data s.
Proof.
  intros H. revert s. induction H as [|b data Hb _ IH]; intros s; [done|].
  cbn [fold_left]. rewrite single_byte_crc_eq by done. apply IH.
Qed.

Lemma crc_of_word data s : Forall byte data -> word s -> word (crc_of data s).
Proof.
  intros H. revert s. induction H as [|b data Hb _ IH]; intros s Hs; [done|]. apply IH.
  apply (steps_word 8), lxor_word; [done|]. unfold byte, word in *. lia.
Qed.

Lemma crc_of_app l k s : crc_of (l ++ k) s = crc_of k (crc_of l s).
Proof. apply fold_left_app. Qed.

Lemma eight_bytes_eq s b0 b1 b2 b3 b4 b5 b6 b7 :
  word s -> Forall byte [b0; b1; b2; b3; b4; b5; b6; b7] ->
  eight_byte_crc s (load32 b0 b1 b2 b3) (load32 b4 b5 b6 b7) = crc_of [b0; b1; b2; b3; b4; b5; b6; b7] s.
Proof.
  intros Hs H. repeat (apply Forall_cons in H as [? H]).
  rewrite eight_byte_crc_eq by (done || by apply load32_word). rewrite <- !divide_four by done.
  by rewrite <- crc_of_app.
Qed.

#[local] Opaque crc_of eight_byte_crc load32.

Lemma eight_byte_loop_eq n data s m rest :
  (length data <= n)%nat -> Forall byte data -> word s ->
  eight_byte_loop eight_byte_crc s data = (m, rest) ->
  Forall byte rest /\ (length rest < 8)%nat /\ crc_of rest m = crc_of data s.
Proof.
  revert data s. induction n as [|n IH]; intros data s Hn Hd Hs E.
  { destruct data; [|cbn in Hn; lia]. injection E as <- <-. split; [done|]. split; [cbn [length]; lia|done]. }
  do 8 (destruct data as [|? data]; [injection E as <- <-; split; [done|]; split; [cbn [length]; lia|done]|]).
  apply (Forall_app byte [_; _; _; _; _; _; _; _] data) in Hd as [H8 Hd].
  cbn [eight_byte_loop] in E. rewrite eight_bytes_eq in E by done.
  apply IH in E; [|cbn [length] in Hn; lia|done|by apply crc_of_word].
  by rewrite <- crc_of_app in E.
Qed.

(** C29: whatever the address of the data, and so wherever the eight-byte loop
    starts, [CRC32::update] computes the division by the polynomial bit by
    bit; the state stays a 32-bit word. *)
Theorem crc32_update_exact address data m_state :
  Forall byte data -> word m_state ->
  update address data m_state = crc_of data m_state /\ word (update address data m_state).
Proof.
  intros Hd Hs. enough (E : update address data m_state = crc_of data m_state).
  { rewrite E. split; [done|]. by apply crc_of_word. }
  unfold update. destruct (split_bytes_for_alignment address data 4) as [mis ali] eqn:S.
  assert (data = mis ++ ali) as ->.
  { unfold split_bytes_for_alignment in S. repeat case_match; injection S as <- <-;
      by rewrite ?app_nil_r, ?take_drop. }
  apply Forall_app in Hd as [Hm Ha]. rewrite single_bytes_eq by done.
  destruct (eight_byte_loop _ _ _) as [m rest] eqn:L.
  apply (eight_byte_loop_eq _ _ _ _ _ (Nat.le_refl _) Ha) in L as (Hr & _ & L); [|by apply crc_of_word].
  by rewrite single_bytes_eq, L, <- crc_of_app.
Qed.

(** The check value of CRC-32, [0xCBF43926], of the digits 1 to 9 at an odd address. *)
Lemma crc32_update_exact_witness :
  let data := [0x31; 0x32; 0x33; 0x34; 0x35; 0x36; 0x37; 0x38; 0x39] in
  update 1001 data initial_state = crc_of data initial_state /\
  digest (crc_of data initial_state) = 0xCBF43926.
Proof.
  intros data. split; [|vm_compute; reflexivity].
  apply (crc32_update_exact 1001 data initial_state).
  - unfold data, byte. repeat constructor; lia.
  - unfold word. vm_compute. split; [discriminate|reflexivity].
Defined.
End CRC32.
