(* ===== verification/Adler32.v ===== *)
(** The Adler-32 checksum of [Userland/Libraries/LibCrypto/Checksum/Adler32.cpp]:
    two 64-bit sums reduced once per chunk, and the proof that no chunk makes
    them wrap around. *)

From S2P Require Import Prelude.

Module Adler32.
#[local] Open Scope Z_scope.

(** ** The code *)

Definition iterations_without_overflow : Z := 380368439.

Definition sum_byte (state : Z * Z) (byte : Z) : Z * Z :=
  let state_a := u64 (state.1 + byte) in
  let state_b := u64 (state.2 + state_a) in
  (state_a, state_b).

(** The [while (data.size())] loop. *)
Fixpoint update_loop (fuel : nat) (data : list Z) (state : Z * Z) : option (Z * Z) :=
  match data, fuel with
  | [], _ => Some state
  | _, O => None
  | _, S fuel =>
      let size := Z.to_nat (Z.min (Z.of_nat (length data)) iterations_without_overflow) in
      let (state_a, state_b) := fold_left sum_byte (take size data) state in
      update_loop fuel (drop size data) (state_a mod 65521, state_b mod 65521)
  end.

(** [Adler32::update] on the members [m_state_a] and [m_state_b]. *)
Definition update (data : list Z) (state : Z * Z) : option (Z * Z) :=
  '(state_a, state_b) ← update_loop (length data) data state; Some (u32 state_a, u32 state_b).

Definition digest (state : Z * Z) : Z := Z.lor (u32 (Z.shiftl state.2 16)) state.1.

Definition initial_state : Z * Z := (1, 0).

(** ** The definition of the checksum: both sums reduced at every byte. *)

Definition reduce_byte (state : Z * Z) (byte : Z) : Z * Z :=
  ((state.1 + byte) mod 65521, (state.2 + (state.1 + byte)) mod 65521).

Definition adler_of (data : list Z) (state : Z * Z) : Z * Z := fold_left reduce_byte data state.

(** The sums without reduction and without wrap-around. *)
Definition exact_byte (state : Z * Z) (byte : Z) : Z * Z := (state.1 + byte, state.2 + (state.1 + byte)).

Definition byte (b : Z) : Prop := 0 <= b < 256.
Definition reduced (state : Z * Z) : Prop := 0 <= state.1 < 65521 /\ 0 <= state.2 < 65521.

(** ** The sums *)

(** The largest sums that [n] bytes give. *)
Definition largest (n : Z) : Z * Z := (65520 + 255 * n, 65520 + 65520 * n + 255 * (n * (n + 1) / 2)).

Lemma triangle_step n : 0 <= n -> (n + 1) * (n + 1 + 1) / 2 = n * (n + 1) / 2 + (n + 1).
Proof. intros. replace ((n + 1) * (n + 1 + 1)) with (n * (n + 1) + (n + 1) * 2) by ring. apply Z.div_add. lia. Qed.

Lemma largest_step n : 0 <= n -> largest (n + 1) = exact_byte (largest n) 255.
Proof. intros. unfold largest, exact_byte. cbn [fst snd]. rewrite triangle_step by done. f_equal; ring. Qed.

Lemma largest_mono n k : 0 <= n <= k -> (largest n).2 <= (largest k).2.
Proof.
  intros [H0 H]. unfold largest. cbn [snd]. assert (n * (n + 1) / 2 <= k * (k + 1) / 2); [|lia].
  apply Z.div_le_mono; nia.
Qed.

(** Both sums of a chunk that has taken [n] bytes. *)
Definition within (n : Z) (state : Z * Z) : Prop :=
  (0 <= state.1 <= (largest n).1) /\ (0 <= state.2 <= (largest n).2).

Lemma exact_byte_within n state b :
  0 <= n -> byte b -> within n state -> within (n + 1) (exact_byte state b).
Proof.
  unfold within, byte. intros Hn Hb [H1 H2]. rewrite largest_step by done.
  unfold exact_byte. cbn [fst snd]. lia.
Qed.

Lemma sum_byte_exact n state b :
  0 <= n < iterations_without_overflow -> byte b -> within n state -> sum_byte state b = exact_byte state b.
Proof.
  intros Hn Hb Hw. assert (W := exact_byte_within n state b ltac:(lia) Hb Hw). destruct W as [W1 W2].
  assert (M := largest_mono (n + 1) iterations_without_overflow ltac:(lia)).
  assert ((largest iterations_without_overflow).2 < 2 ^ 64) by (vm_compute; reflexivity).
  assert (0 <= (exact_byte state b).1 < 2 ^ 64).
  { unfold largest, iterations_without_overflow in *. cbn [fst snd] in *. lia. }
  unfold sum_byte, exact_byte in *. cbn [fst snd] in *.
  unfold u64, wrap. rewrite (Z.mod_small (state.1 + b)) by done. by rewrite Z.mod_small by lia.
Qed.

Lemma sums_exact data n state :
  0 <= n -> n + Z.of_nat (length data) <= iterations_without_overflow ->
  Forall byte data -> within n state -> fold_left sum_byte data state = fold_left exact_byte data state.
Proof.
  intros Hn Hl Hd. revert n state Hn Hl. induction Hd as [|b data Hb _ IH]; intros n state Hn Hl Hw; [done|].
  cbn [fold_left length] in *. rewrite (sum_byte_exact n) by (lia || done).
  apply (IH (n + 1)); [lia|lia|by apply exact_byte_within].
Qed.

Lemma exact_sums_largest n k :
  0 <= k -> fold_left exact_byte (replicate n 255) (largest k) = largest (k + Z.of_nat n).
Proof.
  revert k. induction n as [|n IH]; intros k Hk; cbn [replicate fold_left]; [by rewrite Z.add_0_r|].
  rewrite <- largest_step, IH by lia. f_equal. lia.
Qed.

Lemma sum_bytes_wrap data state :
  (0 < length data)%nat -> (fold_left sum_byte data state).2 < 2 ^ 64.
Proof.
  destruct data as [|b data] using rev_ind; cbn [length]; [lia|]. intros _.
  rewrite fold_left_app. cbn [fold_left]. unfold sum_byte. cbn [snd]. apply Z.mod_pos_bound. lia.
Qed.

(** C30: the chunk size of [Adler32::update] is exactly the largest number of
    bytes for which the 64-bit sums of every chunk are the true sums, whatever
    reduced state the chunk starts in. *)
Theorem adler32_chunk_exact (n : nat) :
  Z.of_nat n <= iterations_without_overflow <->
  (forall data state, length data = n -> Forall byte data -> reduced state ->
     fold_left sum_byte data state = fold_left exact_byte data state).
Proof.
  split.
  - intros H data state <- Hd [H1 H2]. apply (sums_exact data 0); [lia|lia|done|].
    unfold within, largest. cbn [fst snd]. change (0 * (0 + 1) / 2) with 0. lia.
  - intros H. destruct (Z.le_gt_cases (Z.of_nat n) iterations_without_overflow) as [L|L]; [done|exfalso].
    specialize (H (replicate n 255) (largest 0)). rewrite exact_sums_largest in H by lia.
    assert (W := sum_bytes_wrap (replicate n 255) (largest 0)).
    rewrite H in W; [|apply length_replicate|apply Forall_replicate; unfold byte; lia|by vm_compute].
    rewrite length_replicate in W. unfold iterations_without_overflow in L. specialize (W ltac:(lia)).
    assert (M := largest_mono (iterations_without_overflow + 1) (0 + Z.of_nat n)
      ltac:(unfold iterations_without_overflow; lia)).
    assert (2 ^ 64 <= (largest (iterations_without_overflow + 1)).2) by (vm_compute; discriminate). lia.
Qed.

(** ** The loop *)

Definition mod_state (state : Z * Z) : Z * Z := (state.1 mod 65521, state.2 mod 65521).

Lemma reduce_byte_mod state b : reduce_byte (mod_state state) b = mod_state (exact_byte state b).
Proof.
  unfold reduce_byte, mod_state, exact_byte. cbn [fst snd].
  rewrite Zplus_mod_idemp_l, Zplus_mod_idemp_l. f_equal.
  by rewrite <- Zplus_mod_idemp_r, Zplus_mod_idemp_l, Zplus_mod_idemp_r.
Qed.

Lemma adler_of_mod data state : adler_of data (mod_state state) = mod_state (fold_left exact_byte data state).
Proof.
  unfold adler_of. revert state. induction data as [|b data IH]; intros state; [done|].
  cbn [fold_left]. by rewrite reduce_byte_mod, IH.
Qed.

Lemma mod_state_reduced state : reduced state -> mod_state state = state.
Proof. destruct state. intros [H1 H2]. unfold mod_state. cbn [fst snd] in *. by rewrite !Z.mod_small. Qed.

Lemma reduced_mod_state state : reduced (mod_state state).
Proof. split; apply Z.mod_pos_bound; lia. Qed.

Lemma adler_of_reduced data state : reduced state -> reduced (adler_of data state).
Proof. intros H. rewrite <- (mod_state_reduced _ H), adler_of_mod. apply reduced_mod_state. Qed.

Lemma update_loop_exact fuel data state :
  (length data <= fuel)%nat -> Forall byte data -> reduced state ->
  update_loop fuel data state = Some (adler_of data state).
Proof.
  revert data state. induction fuel as [|fuel IH]; intros [|b data] state Hf Hd Hs; [done|cbn in Hf; lia|done|].
  cbn [update_loop]. set (size := Z.to_nat _).
  assert (Hsize : (0 < size)%nat /\ Z.of_nat size <= iterations_without_overflow).
  { unfold size, iterations_without_overflow. cbn [length]. lia. }
  rewrite <- (take_drop size (b :: data)) in Hd. apply Forall_app in Hd as [Ht Hd].
  rewrite (sums_exact (take size (b :: data)) 0); [|lia|rewrite length_take; lia|done|].
  2:{ destruct Hs. unfold within, largest. cbn [fst snd]. change (0 * (0 + 1) / 2) with 0. lia. }
  destruct (fold_left exact_byte (take size (b :: data)) state) as [sa sb] eqn:E.
  change (sa mod 65521, sb mod 65521) with (mod_state (sa, sb)).
  rewrite <- E, <- adler_of_mod, (mod_state_reduced _ Hs), IH.
  - unfold adler_of. by rewrite <- fold_left_app, take_drop.
  - rewrite length_drop. cbn [length] in *. lia.
  - done.
  - by apply adler_of_reduced.
Qed.

Lemma lor_high_low h l n : 0 <= n -> 0 <= l < 2 ^ n -> Z.lor (Z.shiftl h n) l = Z.shiftl h n + l.
Proof.
  intros Hn Hl. assert (E := Z.add_lor_land (Z.shiftl h n) l).
  enough (D : Z.land (Z.shiftl h n) l = 0) by lia. clear E.
  apply Z.bits_inj'. intros k Hk. rewrite Z.land_spec, Z.bits_0, Z.shiftl_spec by done.
  destruct (Z.lt_ge_cases k n) as [L|L]; [by rewrite Z.testbit_neg_r by lia|].
  rewrite <- (Z.mod_small l (2 ^ n)) by done. by rewrite Z.mod_pow2_bits_high, andb_false_r by lia.
Qed.

(** from a reduced state [Adler32::update] returns the two sums reduced at
    every byte, for data of any length; they stay reduced, and the digest is
    the second sum above the first. *)
Theorem adler32_update_exact data state :
  Forall byte data -> reduced state ->
  let '(a, b) := adler_of data state in
  update data state = Some (a, b) /\ reduced (a, b) /\ digest (a, b) = b * 65536 + a.
Proof.
  intros Hd Hs. assert (R := adler_of_reduced data _ Hs). unfold update.
  rewrite update_loop_exact by done. destruct (adler_of data state) as [a b]. cbn [mbind option_bind].
  destruct R as [R1 R2]. cbn [fst snd] in *. unfold u32, wrap. rewrite !Z.mod_small by lia. split; [done|].
  split; [done|]. unfold digest, u32, wrap. cbn [fst snd]. rewrite Z.shiftl_mul_pow2, Z.mod_small by lia.
  change 65536 with (2 ^ 16). rewrite <- !Z.shiftl_mul_pow2 by lia. apply lor_high_low; lia.
Qed.

(** The checksum of the word Wikipedia. *)
Lemma adler32_update_exact_witness :
  let data := [0x57; 0x69; 0x6b; 0x69; 0x70; 0x65; 0x64; 0x69; 0x61] in
  update data initial_state = Some (920, 4582) /\ digest (920, 4582) = 0x11E60398.
Proof.
  intros data. split; [|vm_compute; reflexivity].
  apply (adler32_update_exact data initial_state).
  - unfold data, byte. repeat constructor; lia.
  - unfold reduced. cbn. lia.
Defined.
End Adler32.
