(* ===== verification/RamFile.v ===== *)
(** The contents of a file of [Kernel/FileSystem/RAMFS/Inode.cpp]: blocks of
    128 KiB that are there only where something was written, and the proof
    that they are one flat array of bytes. *)

From S2P Require Import Prelude.

Module RamFile.
#[local] Open Scope Z_scope.

(** ** The code *)

(** [DataBlock::block_size] *)
Definition block_size : Z := 128 * 1024.

(** The memory of a block: a byte that was never written is 0, as fresh
    anonymous memory is. *)
Abbreviation DataBlock := (gmap Z Z).

(** [m_blocks] and [m_metadata.size] *)
Record t : Type := file { m_blocks : list (option DataBlock); m_size : Z }.

(** What the kernel heap and the page allocator have for a call: whether a
    vector can be resized, how many blocks can be created, and whether there
    is a region to map a block in. *)
Record Memory : Type := memory { resizable : bool; creatable : nat; mappable : bool }.

Definition plenty : Memory := memory true (Z.to_nat (2 ^ 16)) true.

(** [Vector::try_resize] *)
Definition resize (bs : list (option DataBlock)) (n : Z) : list (option DataBlock) :=
  take (Z.to_nat n) bs ++ replicate (Z.to_nat n - length bs) None.

(** The loop that creates the missing blocks, and the indices it created.
    [false] is a failed allocation. *)
Fixpoint allocate_blocks (n : nat) (block_index : Z) (creatable : nat) (bs : list (option DataBlock))
    (allocated_block_indices : list Z) : outcome (list (option DataBlock) * list Z * bool) :=
  match n with
  | O => Ok (bs, allocated_block_indices, true)
  | S n =>
      match bs !! Z.to_nat block_index with
      | None => Panic
      | Some (Some _) => allocate_blocks n (block_index + 1) creatable bs allocated_block_indices
      | Some None =>
          match creatable with
          | O => Ok (bs, allocated_block_indices, false)
          | S creatable =>
              allocate_blocks n (block_index + 1) creatable (<[Z.to_nat block_index := Some ∅]> bs)
                (allocated_block_indices ++ [block_index])
          end
      end
  end.

(** The scope guard: the new blocks go, then the new room. *)
Definition clear_block (bs : list (option DataBlock)) (index : Z) : list (option DataBlock) :=
  <[Z.to_nat index := None]> bs.

Definition clean_allocated_blocks (bs : list (option DataBlock)) (indices : list Z) (original_size : Z)
    : list (option DataBlock) :=
  resize (fold_left clear_block indices bs) original_size.

Definition ensure_allocated_blocks (m : Memory) (offset io_size : Z) : action t unit := fun f =>
  let block_start_index := offset / block_size in
  let block_last_index := u64 (offset + io_size) / block_size +
                          (if u64 (offset + io_size) mod block_size =? 0 then 0 else 1) in
  if negb (block_start_index <=? block_last_index) then (f, Panic) else
  let original_size := Z.of_nat (length (m_blocks f)) in
  if (original_size <? block_last_index) && negb (resizable m) then (f, Err ENOMEM) else
  let bs := if original_size <? block_last_index then resize (m_blocks f) block_last_index else m_blocks f in
  match allocate_blocks (Z.to_nat (block_last_index - block_start_index)) block_start_index (creatable m) bs [] with
  | Ok (bs, _, true) => (file bs (m_size f), Ok tt)
  | Ok (bs, indices, false) =>
      (file (clean_allocated_blocks bs indices original_size) (m_size f), Err ENOMEM)
  | Err e => (f, Err e)
  | Panic => (f, Panic)
  | Undefined => (f, Undefined)
  end.

(** The bytes of a block from an offset on, and a block with bytes put there. *)
Definition block_bytes (b : DataBlock) (offset n : Z) : list Z :=
  map (fun i => default 0 (b !! i)) (seqZ offset n).

Fixpoint block_with (b : DataBlock) (offset : Z) (data : list Z) : DataBlock :=
  match data with
  | [] => b
  | x :: data => block_with (<[offset := x]> b) (offset + 1) data
  end.

(** The loop of [do_io_on_content_space] for a read: the bytes it puts into the
    buffer.  [Undefined] is a loop that has not ended. *)
Fixpoint read_blocks (fuel : nat) (bs : list (option DataBlock)) (block_index offset_in_block remaining_bytes : Z)
    : outcome (list Z) :=
  if remaining_bytes <=? 0 then Ok [] else
  match fuel with
  | O => Undefined
  | S fuel =>
      let current_io_size := Z.min (block_size - offset_in_block) remaining_bytes in
      match bs !! Z.to_nat block_index with
      | None => Panic
      | Some block =>
          let bytes := match block with
                       | None => replicate (Z.to_nat current_io_size) 0
                       | Some b => block_bytes b offset_in_block current_io_size
                       end in
          let! rest := read_blocks fuel bs (block_index + 1) 0 (remaining_bytes - current_io_size) in
          Ok (bytes ++ rest)
      end
  end.

(** The same loop for a write. *)
Fixpoint write_blocks (fuel : nat) (bs : list (option DataBlock)) (block_index offset_in_block : Z) (data : list Z)
    : list (option DataBlock) * outcome unit :=
  match data, fuel with
  | [], _ => (bs, Ok tt)
  | _, O => (bs, Undefined)
  | _, S fuel =>
      let current_io_size := Z.min (block_size - offset_in_block) (Z.of_nat (length data)) in
      match bs !! Z.to_nat block_index with
      | None => (bs, Panic)
      | Some None => (bs, Err EIO)
      | Some (Some b) =>
          write_blocks fuel
            (<[Z.to_nat block_index := Some (block_with b offset_in_block (take (Z.to_nat current_io_size) data))]> bs)
            (block_index + 1) 0 (drop (Z.to_nat current_io_size) data)
      end
  end.

(** One round per block that the bytes touch: [n] bytes touch at most [n / block_size + 2]. *)
Definition rounds (n : Z) : nat := Z.to_nat (n / block_size + 2).

Definition read_bytes_from_content_space (m : Memory) (f : t) (offset io_size : Z) : outcome (list Z) :=
  VERIFY (0 <=? m_size f) ;;
  if m_size f <=? offset then Ok [] else
  if negb (mappable m) then Err ENOMEM else
  let remaining_bytes := Z.min io_size (m_size f - offset) in
  if remaining_bytes =? 0 then Ok [] else
  let! buffer := read_blocks (rounds remaining_bytes) (m_blocks f) (offset / block_size) (offset mod block_size)
                   remaining_bytes in
  VERIFY (Z.of_nat (length buffer) <=? io_size) ;; Ok buffer.

Definition write_bytes_to_content_space (m : Memory) (offset : Z) (data : list Z) : action t Z := fun f =>
  if negb (mappable m) then (f, Err ENOMEM) else
  match data with
  | [] => (f, Panic)
  | _ =>
      let (bs, r) := write_blocks (rounds (Z.of_nat (length data))) (m_blocks f) (offset / block_size)
                       (offset mod block_size) data in
      (file bs (m_size f), let! _ := r in Ok (Z.of_nat (length data)))
  end.

(** [RAMFSInode::write_bytes_locked] of a file that is no directory. *)
Definition write_bytes_locked (m : Memory) (offset : Z) (data : list Z) : action t Z :=
  let size := Z.of_nat (length data) in
  let* _ := lift (VERIFY (0 <=? offset) ;; Ok tt) in
  let* _ := ensure_allocated_blocks m offset size in
  let* nwritten := write_bytes_to_content_space m offset data in
  let* _ := modify (fun f => if m_size f <? offset + size then file (m_blocks f) (offset + size) else f) in
  ret nwritten.

(** [RAMFSInode::truncate_locked] *)
Definition truncate_locked (m : Memory) (size : Z) : action t unit := fun f =>
  let block_index := size / block_size + (if size mod block_size =? 0 then 0 else 1) in
  if (Z.of_nat (length (m_blocks f)) <? block_index) && negb (resizable m) then (f, Err ENOMEM) else
  let bs := resize (m_blocks f) block_index in
  let last_possible_block_index := Z.to_nat (size / block_size) in
  if size mod block_size =? 0 then (file bs size, Ok tt) else
  match bs !! last_possible_block_index with
  | None => (file bs (m_size f), Panic)
  | Some None => (file bs size, Ok tt)
  | Some (Some b) =>
      if negb (mappable m) then (file bs (m_size f), Err ENOMEM) else
      (file (<[last_possible_block_index :=
                 Some (block_with b (size mod block_size)
                         (replicate (Z.to_nat (block_size - size mod block_size)) 0))]> bs) size, Ok tt)
  end.

(** ** The flat view *)

Definition block_at (bs : list (option DataBlock)) (k : nat) : DataBlock :=
  match bs !! k with Some (Some b) => b | _ => ∅ end.

Definition byte_at (bs : list (option DataBlock)) (i : Z) : Z :=
  default 0 (block_at bs (Z.to_nat (i / block_size)) !! (i mod block_size)).

(** The file as an array of bytes. *)
Definition contents (f : t) : list Z := byte_at (m_blocks f) <$> seqZ 0 (m_size f).

(** There is room for every byte, and bytes past the end are 0. *)
Record inv (f : t) : Prop := {
  inv_size : 0 <= m_size f;
  inv_room : m_size f <= Z.of_nat (length (m_blocks f)) * block_size;
  inv_clear : forall i, m_size f <= i -> byte_at (m_blocks f) i = 0
}.

Lemma block_size_pos : 0 < block_size.
Proof. done. Qed.

#[local] Opaque block_size.

Lemma block_at_insert bs k b k' :
  (k < length bs)%nat -> block_at (<[k := b]> bs) k' = if decide (k' = k) then default ∅ b else block_at bs k'.
Proof.
  intros Hk. unfold block_at. destruct (decide (k' = k)) as [->|N].
  - rewrite list_lookup_insert_eq by done. by destruct b.
  - by rewrite list_lookup_insert_ne.
Qed.

Lemma byte_at_div k o : 0 <= o < block_size -> (k * block_size + o) / block_size = k /\ (k * block_size + o) mod block_size = o.
Proof.
  intros Ho. assert (P := block_size_pos). split.
  - rewrite Z.div_add_l by lia. rewrite Z.div_small by done. lia.
  - rewrite Z.add_comm, Z.mod_add by lia. by apply Z.mod_small.
Qed.

Lemma block_with_lookup data b o i :
  block_with b o data !! i = if decide (o <= i < o + Z.of_nat (length data)) then data !! Z.to_nat (i - o) else b !! i.
Proof.
  revert b o. induction data as [|x data IH]; intros b o; cbn [block_with length].
  - by rewrite decide_False by lia.
  - rewrite IH. destruct (decide (i = o)) as [->|N].
    + rewrite decide_False, decide_True by lia. by rewrite lookup_insert_eq, Z.sub_diag.
    + rewrite lookup_insert_ne by done. destruct (decide (o + 1 <= i < _)) as [D|D].
      * rewrite decide_True by lia. by replace (Z.to_nat (i - o)) with (S (Z.to_nat (i - (o + 1)))) by lia.
      * by rewrite decide_False by lia.
Qed.

(** ** Room *)

Lemma resize_length bs n : length (resize bs n) = Z.to_nat n.
Proof. unfold resize. rewrite length_app, length_take, length_replicate. lia. Qed.

Lemma resize_lookup bs n k :
  resize bs n !! k = if decide (Z.of_nat k < n) then Some (default None (bs !! k)) else None.
Proof.
  unfold resize. destruct (decide (Z.of_nat k < n)) as [L|L].
  - destruct (decide (k < length bs)%nat) as [B|B].
    + rewrite lookup_app_l by (rewrite length_take; lia). rewrite lookup_take_lt by lia.
      destruct (lookup_lt_is_Some_2 bs k B) as [x ->]. done.
    + rewrite lookup_app_r by (rewrite length_take; lia). rewrite lookup_replicate_2 by (rewrite length_take; lia).
      by rewrite (lookup_ge_None_2 bs k) by lia.
  - apply lookup_ge_None_2. fold (resize bs n). rewrite resize_length. lia.
Qed.

Lemma block_at_resize bs n k :
  block_at (resize bs n) k = if decide (Z.of_nat k < n) then block_at bs k else ∅.
Proof.
  unfold block_at. rewrite resize_lookup. destruct (decide _); [|done]. by destruct (bs !! k) as [[?|]|].
Qed.

Lemma resize_same bs : resize bs (Z.of_nat (length bs)) = bs.
Proof. unfold resize. rewrite Nat2Z.id, take_ge, Nat.sub_diag by lia. apply app_nil_r. Qed.

Lemma byte_at_ext bs bs' i :
  (forall k, block_at bs' k = block_at bs k) -> byte_at bs' i = byte_at bs i.
Proof. intros H. unfold byte_at. by rewrite H. Qed.

Lemma resize_grow bs n k : Z.of_nat (length bs) <= n -> block_at (resize bs n) k = block_at bs k.
Proof.
  intros H. rewrite block_at_resize. destruct (decide _); [done|].
  unfold block_at. by rewrite lookup_ge_None_2 by lia.
Qed.

Lemma clear_blocks_insert l bs k x y :
  <[k := y]> (fold_left clear_block l (<[k := x]> bs)) = <[k := y]> (fold_left clear_block l bs).
Proof.
  revert bs x. induction l as [|i l IH]; intros bs x; cbn [fold_left]; [apply list_insert_insert_eq|].
  unfold clear_block at 2 4. destruct (decide (Z.to_nat i = k)) as [->|N]; [by rewrite list_insert_insert_eq|].
  by rewrite list_insert_insert_ne, IH.
Qed.

Lemma clear_blocks_cleared l bs k : bs !! k = Some None -> fold_left clear_block l bs !! k = Some None.
Proof.
  revert bs. induction l as [|i l IH]; intros bs H; [done|]. apply IH. unfold clear_block.
  destruct (decide (Z.to_nat i = k)) as [->|N]; [|by rewrite list_lookup_insert_ne].
  apply list_lookup_insert_eq. by eapply lookup_lt_Some.
Qed.

(** Creating blocks changes no byte, and clearing what was created undoes it. *)
Lemma allocate_blocks_spec n k c bs l bs' l' ok :
  0 <= k -> k + Z.of_nat n <= Z.of_nat (length bs) ->
  allocate_blocks n k c bs l = Ok (bs', l', ok) ->
  length bs' = length bs /\ (forall j, block_at bs' j = block_at bs j) /\
  (forall j b, bs !! j = Some (Some b) -> bs' !! j = Some (Some b)) /\
  (ok = true -> forall j, k <= j < k + Z.of_nat n -> exists b, bs' !! Z.to_nat j = Some (Some b)) /\
  fold_left clear_block l' bs' = fold_left clear_block l bs.
Proof.
  revert k c bs l. induction n as [|n IH]; intros k c bs l Hk Hn E; cbn [allocate_blocks] in E.
  { injection E as <- <- <-. repeat (split; [done|]). split; [lia|done]. }
  destruct (bs !! Z.to_nat k) as [[b|]|] eqn:B; [| |done].
  - apply IH in E as (L & A & P & T & C); [|lia|lia]. repeat (split; [done|]). split; [|done].
    intros -> j Hj. destruct (decide (j = k)) as [->|]; [eauto|apply T; [done|lia]].
  - destruct c as [|c]; [by injection E as <- <- <-|].
    apply IH in E as (L & A & P & T & C); [|lia|rewrite length_insert; lia].
    assert (Lt := lookup_lt_Some _ _ _ B). rewrite length_insert in L. split; [done|].
    split; [|split; [|split]].
    + intros j. rewrite A, block_at_insert by done. destruct (decide _) as [->|]; [|done].
      unfold block_at. by rewrite B.
    + intros j b Hj. apply P. rewrite list_lookup_insert_ne; [done|]. intros <-. congruence.
    + intros -> j Hj. destruct (decide (j = k)) as [->|]; [|apply T; [done|lia]].
      exists ∅. apply P. by apply list_lookup_insert_eq.
    + rewrite C, fold_left_app. cbn [fold_left]. unfold clear_block at 1.
      rewrite clear_blocks_insert. apply list_insert_id. by apply clear_blocks_cleared.
Qed.

Lemma allocate_blocks_total n k c bs l :
  0 <= k -> k + Z.of_nat n <= Z.of_nat (length bs) -> exists r, allocate_blocks n k c bs l = Ok r.
Proof.
  revert k c bs l. induction n as [|n IH]; intros k c bs l Hk Hn; cbn [allocate_blocks]; [eauto|].
  destruct (lookup_lt_is_Some_2 bs (Z.to_nat k) ltac:(lia)) as [[b|] B]; rewrite B.
  - apply IH; lia.
  - destruct c as [|c]; [eauto|]. apply IH; [lia|rewrite length_insert; lia].
Qed.

(** The index after the last block that bytes up to [e] touch. *)
Lemma last_index e :
  let l := e / block_size + (if e mod block_size =? 0 then 0 else 1) in
  (l - 1) * block_size < e <= l * block_size.
Proof.
  intros l. assert (P := block_size_pos). assert (D := Z.div_mod e block_size ltac:(lia)).
  assert (M := Z.mod_pos_bound e block_size P). subst l.
  destruct (Z.eqb_spec (e mod block_size) 0); nia.
Qed.

Lemma index_lt i n : i < n * block_size -> i / block_size < n.
Proof. intros. apply Z.div_lt_upper_bound; [done|lia]. Qed.

Lemma index_ge i n : n * block_size <= i -> n <= i / block_size.
Proof. intros. apply Z.div_le_lower_bound; [done|lia]. Qed.

Lemma ensure_allocated_blocks_spec m offset size f f' r :
  0 <= offset -> 0 <= size -> offset + size < 2 ^ 64 ->
  ensure_allocated_blocks m offset size f = (f', r) ->
  m_size f' = m_size f /\
  (r = Err ENOMEM /\ f' = f \/
   r = Ok tt /\ (forall k, block_at (m_blocks f') k = block_at (m_blocks f) k) /\
   (length (m_blocks f) <= length (m_blocks f'))%nat /\
   offset + size <= Z.of_nat (length (m_blocks f')) * block_size /\
   forall i, offset <= i < offset + size ->
     exists b, m_blocks f' !! Z.to_nat (i / block_size) = Some (Some b)).
Proof.
  intros Ho Hs Hw. unfold ensure_allocated_blocks, u64, wrap. rewrite Z.mod_small by lia.
  assert (P := block_size_pos). assert (L := last_index (offset + size)). cbv zeta in L. set (l := _ / _ + _) in *.
  set (s := offset / block_size). assert (Hss : 0 <= s <= l).
  { split; [apply Z.div_pos; lia|]. apply Z.div_le_upper_bound; lia. }
  rewrite (proj2 (Z.leb_le s l)) by lia. cbn [negb].
  destruct (Z.ltb_spec (Z.of_nat (length (m_blocks f))) l) as [G|G]; cbn [andb].
  - destruct (resizable m); cbn [negb]; [|intros [= <- <-]; split; [done|by left]].
    assert (Hl : s + Z.of_nat (Z.to_nat (l - s)) <= Z.of_nat (length (resize (m_blocks f) l))).
    { rewrite resize_length. lia. }
    destruct (allocate_blocks_total _ s (creatable m) _ [] (proj1 Hss) Hl) as [[[bs ids] ok] E]. rewrite E.
    apply allocate_blocks_spec in E as (EL & EA & _ & ET & EC); [|lia|lia]. rewrite resize_length in EL.
    destruct ok; intros [= <- <-]; (split; [done|]).
    + cbn [m_blocks]. right. split; [done|]. split; [|split; [lia|split; [nia|]]].
      * intros k. rewrite EA. by apply resize_grow; lia.
      * intros i Hi. apply ET; [done|]. split; [apply Z.div_le_mono; lia|]. apply (Z.lt_le_trans _ l); [apply index_lt; lia|lia].
    + left. split; [done|]. destruct f as [bs0 sz]. cbn [m_blocks m_size] in *. f_equal.
      unfold clean_allocated_blocks. rewrite EC. cbn [fold_left].
      apply list_eq. intros k. rewrite !resize_lookup. destruct (decide _) as [D|D].
      * rewrite decide_True by lia. by destruct (lookup_lt_is_Some_2 bs0 k ltac:(lia)) as [x ->].
      * symmetry. apply lookup_ge_None_2. lia.
  - assert (Hl : s + Z.of_nat (Z.to_nat (l - s)) <= Z.of_nat (length (m_blocks f))) by lia.
    destruct (allocate_blocks_total _ s (creatable m) _ [] (proj1 Hss) Hl) as [[[bs ids] ok] E]. rewrite E.
    apply allocate_blocks_spec in E as (EL & EA & _ & ET & EC); [|lia|lia].
    destruct ok; intros [= <- <-]; (split; [done|]).
    + cbn [m_blocks]. right. split; [done|]. split; [done|]. split; [lia|]. split; [rewrite EL; nia|].
      intros i Hi. apply ET; [done|]. split; [apply Z.div_le_mono; lia|]. apply (Z.lt_le_trans _ l); [apply index_lt; lia|lia].
    + left. split; [done|]. destruct f as [bs0 sz]. cbn [m_blocks m_size] in *. f_equal.
      unfold clean_allocated_blocks. rewrite EC. cbn [fold_left]. apply resize_same.
Qed.

(** ** Reading and writing *)

Lemma bytes_in_block bs k o n b :
  0 <= k -> 0 <= o -> o + n <= block_size -> default None (bs !! Z.to_nat k) = b ->
  match b with None => replicate (Z.to_nat n) 0 | Some b => block_bytes b o n end =
    byte_at bs <$> seqZ (k * block_size + o) n.
Proof.
  intros Hk Ho Hn Hb. apply list_eq. intros j. rewrite list_lookup_fmap.
  destruct (decide (Z.of_nat j < n)) as [D|D].
  - rewrite lookup_seqZ_lt by lia. cbn [fmap option_fmap option_map].
    unfold byte_at. rewrite <- Z.add_assoc.
    destruct (byte_at_div k (o + Z.of_nat j) ltac:(lia)) as [-> ->].
    assert (block_at bs (Z.to_nat k) = default ∅ b) as ->.
    { unfold block_at. subst b. by destruct (bs !! Z.to_nat k) as [[?|]|]. }
    destruct b as [b|].
    + unfold block_bytes. by rewrite list_lookup_fmap, lookup_seqZ_lt by lia.
    + rewrite lookup_replicate_2 by lia. done.
  - rewrite (lookup_seqZ_ge) by lia. apply lookup_ge_None_2.
    destruct b; [unfold block_bytes; rewrite length_map, length_seqZ|rewrite length_replicate]; lia.
Qed.

Lemma read_blocks_spec fuel bs k o n :
  0 <= k -> 0 <= o < block_size -> o + n <= Z.of_nat fuel * block_size ->
  k * block_size + o + n <= Z.of_nat (length bs) * block_size ->
  read_blocks fuel bs k o n = Ok (byte_at bs <$> seqZ (k * block_size + o) n).
Proof.
  assert (P := block_size_pos).
  revert k o n. induction fuel as [|fuel IH]; intros k o n Hk Ho Hf Hr; cbn [read_blocks].
  { rewrite (proj2 (Z.leb_le n 0)) by lia. by rewrite seqZ_nil by lia. }
  destruct (Z.leb_spec n 0) as [N|N]; [by rewrite seqZ_nil by lia|].
  set (c := Z.min (block_size - o) n).
  assert (Lt : k < Z.of_nat (length bs)) by nia.
  destruct (lookup_lt_is_Some_2 bs (Z.to_nat k)) as [b B]; [lia|].
  rewrite B, IH; [|lia|lia|lia|].
  2:{ assert ((k + 1) * block_size <= Z.of_nat (length bs) * block_size) by nia. lia. }
  cbn [bind]. f_equal. rewrite (bytes_in_block bs k o c b); [|lia|lia|lia|by rewrite B].
  rewrite <- fmap_app. f_equal.
  destruct (Z.le_gt_cases n (block_size - o)) as [L|L].
  - replace c with n by lia. by rewrite Z.sub_diag, (seqZ_nil _ 0), app_nil_r.
  - replace c with (block_size - o) by lia. replace (seqZ (k * block_size + o) n) with
      (seqZ (k * block_size + o) ((block_size - o) + (n - (block_size - o)))) by (f_equal; lia).
    rewrite seqZ_app by lia. do 2 f_equal; lia.
Qed.

(** Bytes put at a place. *)
Definition patched (byte : Z -> Z) (offset : Z) (data : list Z) (i : Z) : Z :=
  if decide (offset <= i < offset + Z.of_nat (length data)) then default 0 (data !! Z.to_nat (i - offset))
  else byte i.

Lemma byte_at_put bs k o b data i :
  0 <= k -> 0 <= o -> o + Z.of_nat (length data) <= block_size -> 0 <= i ->
  bs !! Z.to_nat k = Some (Some b) ->
  byte_at (<[Z.to_nat k := Some (block_with b o data)]> bs) i = patched (byte_at bs) (k * block_size + o) data i.
Proof.
  intros Hk Ho Hl Hi B. assert (P := block_size_pos). assert (Lt := lookup_lt_Some _ _ _ B).
  unfold patched, byte_at. rewrite block_at_insert by done.
  assert (D := Z.div_mod i block_size ltac:(lia)). assert (M := Z.mod_pos_bound i block_size P).
  assert (Q : 0 <= i / block_size) by (apply Z.div_pos; lia).
  destruct (decide (Z.to_nat (i / block_size) = Z.to_nat k)) as [E|E].
  - assert (EK : i / block_size = k) by lia. cbn [from_option]. unfold id at 2. rewrite block_with_lookup.
    assert (block_at bs (Z.to_nat (i / block_size)) = b) as -> by (unfold block_at; by rewrite E, B).
    destruct (decide (o <= _ < _)) as [I|I].
    + rewrite decide_True by nia. do 2 f_equal. f_equal. nia.
    + by rewrite decide_False by nia.
  - rewrite decide_False; [done|]. intros [I1 I2]. apply E. f_equal.
    symmetry. apply (Z.div_unique _ _ _ (i - k * block_size)); nia.
Qed.

Lemma write_blocks_spec fuel bs k o data :
  0 <= k -> 0 <= o < block_size -> o + Z.of_nat (length data) <= Z.of_nat fuel * block_size ->
  (forall i, k * block_size + o <= i < k * block_size + o + Z.of_nat (length data) ->
     exists b, bs !! Z.to_nat (i / block_size) = Some (Some b)) ->
  exists bs', write_blocks fuel bs k o data = (bs', Ok tt) /\ length bs' = length bs /\
    forall i, 0 <= i -> byte_at bs' i = patched (byte_at bs) (k * block_size + o) data i.
Proof.
  assert (P := block_size_pos).
  revert bs k o data. induction fuel as [|fuel IH]; intros bs k o [|x data] Hk Ho Hf Ha.
  1,3: exists bs; split; [done|]; split; [done|]; intros i Hi; unfold patched; cbn [length]; by rewrite decide_False by lia.
  { cbn [length] in Hf. lia. }
  cbn [write_blocks]. set (d := x :: data) in *. assert (0 < Z.of_nat (length d)) by (cbn [d length]; lia).
  set (c := Z.min (block_size - o) (Z.of_nat (length d))).
  destruct (Ha (k * block_size + o)) as [b B]; [lia|]. rewrite (proj1 (byte_at_div k o Ho)) in B. rewrite B.
  assert (Hc : Z.of_nat (length (take (Z.to_nat c) d)) = c) by (rewrite length_take; lia).
  assert (Hd : Z.of_nat (length (drop (Z.to_nat c) d)) = Z.of_nat (length d) - c) by (rewrite length_drop; lia).
  destruct (IH (<[Z.to_nat k := Some (block_with b o (take (Z.to_nat c) d))]> bs) (k + 1) 0 (drop (Z.to_nat c) d))
    as (bs' & -> & L & W); [lia|lia|rewrite Hd; lia| |].
  { intros i Hi. rewrite Hd in Hi. destruct (Ha i) as [b' B']; [split; [|nia]|].
    { destruct (Z.le_gt_cases (Z.of_nat (length d)) (block_size - o)); nia. }
    exists b'. rewrite list_lookup_insert_ne; [done|]. intros E.
    assert (i / block_size = k) by (assert (0 <= i / block_size) by (apply Z.div_pos; nia); lia).
    assert (k + 1 <= i / block_size) by (apply index_ge; lia). lia. }
  exists bs'. split; [done|]. rewrite length_insert in L. split; [done|]. intros i Hi. rewrite W by done.
  unfold patched at 1. rewrite Hd. rewrite (byte_at_put bs k o b _ i) by (done || lia). unfold patched. rewrite Hc.
  destruct (Z.le_gt_cases (Z.of_nat (length d)) (block_size - o)) as [S|S].
  - assert (c = Z.of_nat (length d)) as -> by lia. rewrite decide_False by lia.
    destruct (decide _); [|done]. by rewrite lookup_take_lt by lia.
  - assert (c = block_size - o) as -> by lia. destruct (decide (_ <= i < _)) as [I|I].
    + rewrite decide_True by lia. rewrite lookup_drop. do 2 f_equal. lia.
    + destruct (decide (k * block_size + o <= i < k * block_size + o + (block_size - o))) as [J|J].
      * rewrite decide_True by lia. by rewrite lookup_take_lt by lia.
      * by rewrite decide_False by lia.
Qed.

(** ** The flat array *)

Inductive Op : Type := ReadBytes (offset io_size : Z) | WriteBytes (offset : Z) (data : list Z) | TruncateTo (size : Z).
Inductive Result : Type := Bytes (bytes : list Z) | Count (n : Z) | Done.

Definition run (m : Memory) (op : Op) (f : t) : t * outcome Result :=
  match op with
  | ReadBytes offset io_size => (f, let! bytes := read_bytes_from_content_space m f offset io_size in Ok (Bytes bytes))
  | WriteBytes offset data => (let* n := write_bytes_locked m offset data in ret (Count n)) f
  | TruncateTo size => (let* _ := truncate_locked m size in ret Done) f
  end.

(** What the operations are on an array of bytes. *)
Definition padded (n : Z) (l : list Z) : list Z := l ++ replicate (Z.to_nat n - length l) 0.

Definition flat_run (op : Op) (l : list Z) : list Z * Result :=
  match op with
  | ReadBytes offset io_size => (l, Bytes (take (Z.to_nat io_size) (drop (Z.to_nat offset) l)))
  | WriteBytes offset data =>
      (take (Z.to_nat offset) (padded offset l) ++ data ++ drop (Z.to_nat offset + length data) l,
       Count (Z.of_nat (length data)))
  | TruncateTo size => (take (Z.to_nat size) (padded size l), Done)
  end.

(** Arguments that the callers pass: offsets and sizes of the type [off_t], and
    something to write. *)
Definition op_ok (op : Op) : Prop :=
  match op with
  | ReadBytes offset io_size => 0 <= offset /\ 0 <= io_size
  | WriteBytes offset data => 0 <= offset /\ data <> [] /\ offset + Z.of_nat (length data) < 2 ^ 63
  | TruncateTo size => 0 <= size < 2 ^ 63
  end.

Lemma contents_length f : 0 <= m_size f -> length (contents f) = Z.to_nat (m_size f).
Proof. intros. unfold contents. by rewrite length_fmap, length_seqZ. Qed.

Lemma contents_lookup f j :
  contents f !! j = if decide (Z.of_nat j < m_size f) then Some (byte_at (m_blocks f) (Z.of_nat j)) else None.
Proof.
  unfold contents. rewrite list_lookup_fmap. destruct (decide _).
  - by rewrite lookup_seqZ_lt by lia.
  - by rewrite lookup_seqZ_ge by lia.
Qed.

Lemma padded_lookup f n j :
  inv f -> 0 <= n -> Z.of_nat j < n -> padded n (contents f) !! j = Some (byte_at (m_blocks f) (Z.of_nat j)).
Proof.
  intros [Hs _ Hc] Hn Hj. unfold padded. destruct (decide (Z.of_nat j < m_size f)) as [D|D].
  - rewrite lookup_app_l by (rewrite contents_length; lia). by rewrite contents_lookup, decide_True.
  - rewrite lookup_app_r, contents_length by (rewrite ?contents_length; lia).
    rewrite lookup_replicate_2 by lia. by rewrite Hc by lia.
Qed.

Lemma read_exact m f offset io_size :
  inv f -> 0 <= offset -> 0 <= io_size ->
  read_bytes_from_content_space m f offset io_size =
    Ok (take (Z.to_nat io_size) (drop (Z.to_nat offset) (contents f))) \/
  mappable m = false /\ read_bytes_from_content_space m f offset io_size = Err ENOMEM.
Proof.
  intros [Hs Hr _] Ho Hi. assert (P := block_size_pos). unfold read_bytes_from_content_space.
  rewrite (proj2 (Z.leb_le 0 _) Hs). destruct (Z.leb_spec (m_size f) offset) as [L|L].
  { left. rewrite drop_ge; [by rewrite take_nil|]. rewrite contents_length; lia. }
  destruct (mappable m); cbn [negb]; [left|by right]. set (n := Z.min io_size (m_size f - offset)).
  assert (E : take (Z.to_nat io_size) (drop (Z.to_nat offset) (contents f)) = byte_at (m_blocks f) <$> seqZ offset n).
  { apply list_eq. intros j. destruct (decide (Z.of_nat j < n)) as [D|D].
    - rewrite lookup_take_lt, lookup_drop, contents_lookup, decide_True by lia.
      rewrite list_lookup_fmap, lookup_seqZ_lt by lia. cbn. do 2 f_equal. lia.
    - rewrite (lookup_ge_None_2 (_ <$> _)) by (rewrite length_fmap, length_seqZ; lia).
      apply lookup_ge_None_2. rewrite length_take, length_drop, contents_length; lia. }
  rewrite E. destruct (Z.eqb_spec n 0) as [->|N]; [done|].
  assert (D := Z.div_mod offset block_size ltac:(lia)). assert (M := Z.mod_pos_bound offset block_size P).
  rewrite read_blocks_spec; cbn [bind].
  - rewrite length_fmap, length_seqZ, (proj2 (Z.leb_le _ io_size)) by lia. do 3 f_equal. lia.
  - apply Z.div_pos; lia.
  - done.
  - unfold rounds. assert (D' := Z.div_mod n block_size ltac:(lia)). assert (M' := Z.mod_pos_bound n block_size P).
    assert (0 <= n / block_size) by (apply Z.div_pos; lia). nia.
  - lia.
Qed.

(** Memory for every block that [n] bytes touch. *)
Definition enough (m : Memory) (n : Z) : Prop :=
  resizable m = true /\ mappable m = true /\ (rounds n <= creatable m)%nat.

Lemma allocate_blocks_enough n k c bs l r :
  (n <= c)%nat -> allocate_blocks n k c bs l = Ok r -> snd r = true.
Proof.
  revert k c bs l. induction n as [|n IH]; intros k c bs l Hn; cbn [allocate_blocks]; [by intros [= <-]|].
  destruct (bs !! Z.to_nat k) as [[b|]|]; [apply IH; lia| |done].
  destruct c; [lia|]. apply IH. lia.
Qed.

Lemma allocate_blocks_no_error n k c bs l e : allocate_blocks n k c bs l <> Err e.
Proof.
  revert k c bs l. induction n as [|n IH]; intros k c bs l; cbn [allocate_blocks]; [done|].
  destruct (bs !! _) as [[b|]|]; [apply IH| |done]. destruct c; [done|apply IH].
Qed.

Lemma ensure_enough m offset size f e :
  0 <= offset -> 0 <= size -> offset + size < 2 ^ 64 -> enough m size ->
  snd (ensure_allocated_blocks m offset size f) <> Err e.
Proof.
  intros Ho Hs Hw (Hr & _ & Hc). unfold ensure_allocated_blocks, u64, wrap. rewrite Z.mod_small by lia.
  assert (P := block_size_pos). rewrite Hr, andb_false_r. destruct (negb _); [done|].
  destruct (allocate_blocks _ _ _ _ _) as [[[bs ids] ok]|e'| |] eqn:E; [|exfalso|done|done].
  - apply allocate_blocks_enough in E; [cbn [snd] in E; by subst ok|]. unfold rounds in Hc.
    assert (L := last_index (offset + size)). cbv zeta in L. set (l := (offset + size) / _ + _) in *.
    assert (D := Z.div_mod offset block_size ltac:(lia)). assert (M := Z.mod_pos_bound offset block_size P).
    assert (D' := Z.div_mod size block_size ltac:(lia)). assert (M' := Z.mod_pos_bound size block_size P).
    assert (Q : (l - 1) * block_size < (offset / block_size + size / block_size + 2) * block_size) by lia.
    apply Z.mul_lt_mono_pos_r in Q; [|done]. lia.
  - by apply allocate_blocks_no_error in E.
Qed.

Lemma contents_same f f' :
  inv f -> m_size f' = m_size f -> (forall k, block_at (m_blocks f') k = block_at (m_blocks f) k) ->
  (length (m_blocks f) <= length (m_blocks f'))%nat -> inv f' /\ contents f' = contents f.
Proof.
  intros [Hs Hr Hc] Es Eb El. assert (P := block_size_pos). split.
  - constructor; rewrite ?Es; [done|nia|]. intros i Hi. rewrite (byte_at_ext _ _ _ Eb). by apply Hc.
  - apply list_eq. intros j. rewrite !contents_lookup, Es. destruct (decide _); [|done].
    by rewrite (byte_at_ext _ _ _ Eb).
Qed.

(** The file after a write, given its bytes. *)
Lemma written_contents f f' offset data :
  inv f -> 0 <= offset -> data <> [] ->
  m_size f' = Z.max (m_size f) (offset + Z.of_nat (length data)) ->
  m_size f' <= Z.of_nat (length (m_blocks f')) * block_size ->
  (forall i, 0 <= i -> byte_at (m_blocks f') i = patched (byte_at (m_blocks f)) offset data i) ->
  inv f' /\ contents f' = (flat_run (WriteBytes offset data) (contents f)).1.
Proof.
  intros I Ho Hd Es Er Eb. assert (I' := I). destruct I' as [Hs _ Hc]. split.
  - constructor; [lia|done|]. intros i Hi. rewrite Eb by lia. unfold patched. rewrite decide_False by lia. apply Hc. lia.
  - apply list_eq. intros j. cbn [flat_run fst]. rewrite contents_lookup, Es.
    assert (Lt : length (take (Z.to_nat offset) (padded offset (contents f))) = Z.to_nat offset).
    { unfold padded. rewrite length_take, length_app, length_replicate. lia. }
    destruct (decide (Z.of_nat j < offset)) as [A|A].
    + rewrite decide_True by lia. rewrite lookup_app_l, lookup_take_lt, padded_lookup by (done || lia).
      rewrite Eb by lia. unfold patched. by rewrite decide_False by lia.
    + rewrite lookup_app_r, Lt by lia. rewrite Eb by lia. unfold patched.
      destruct (decide (Z.of_nat j < offset + Z.of_nat (length data))) as [B|B].
      * rewrite !decide_True by lia. rewrite lookup_app_l by lia.
        replace (Z.to_nat (Z.of_nat j - offset)) with (j - Z.to_nat offset)%nat by lia.
        by destruct (lookup_lt_is_Some_2 data (j - Z.to_nat offset)) as [x ->]; [lia|].
      * rewrite lookup_app_r, lookup_drop by lia. rewrite (decide_False (P := offset <= _ < _)) by lia.
        replace (_ + (j - Z.to_nat offset - length data))%nat with j by lia. rewrite contents_lookup.
        destruct (decide (Z.of_nat j < m_size f)); [rewrite decide_True by lia|rewrite decide_False by lia]; done.
Qed.

Lemma write_exact m f offset data f' r :
  inv f -> 0 <= offset -> data <> [] -> offset + Z.of_nat (length data) < 2 ^ 63 ->
  write_bytes_locked m offset data f = (f', r) ->
  inv f' /\
  (r = Ok (Z.of_nat (length data)) /\ contents f' = (flat_run (WriteBytes offset data) (contents f)).1 \/
   r = Err ENOMEM /\ contents f' = contents f /\ ~ enough m (Z.of_nat (length data))).
Proof.
  intros I Ho Hd Hw E. assert (P := block_size_pos). set (n := Z.of_nat (length data)) in *.
  unfold write_bytes_locked, abind, lift in E. rewrite (proj2 (Z.leb_le 0 _) Ho) in E. fold n in E.
  destruct (ensure_allocated_blocks m offset n f) as [f1 r1] eqn:E1.
  assert (Q := ensure_enough m offset n f ENOMEM Ho ltac:(lia) ltac:(lia)). rewrite E1 in Q. cbn [snd] in Q.
  apply ensure_allocated_blocks_spec in E1 as [S1 [[-> ->]|(-> & B1 & L1 & R1 & A1)]]; [| |lia|lia|lia].
  { injection E as <- <-. split; [done|]. right. split; [done|]. split; [done|]. intros En. by apply (Q En). }
  unfold write_bytes_to_content_space in E. destruct (mappable m) eqn:Em; cbn [negb] in E.
  2:{ injection E as <- <-. destruct (contents_same f f1 I S1 B1 L1) as [I1 C1]. split; [done|]. right.
      split; [done|]. split; [done|]. intros (_ & ? & _). congruence. }
  assert (M := Z.mod_pos_bound offset block_size P). assert (D := Z.div_mod offset block_size ltac:(lia)).
  assert (ED : offset / block_size * block_size + offset mod block_size = offset) by lia.
  destruct (write_blocks_spec (rounds n) (m_blocks f1) (offset / block_size) (offset mod block_size) data)
    as (bs & W & LW & BW); [apply Z.div_pos; lia|done| | |].
  { unfold rounds. assert (D' := Z.div_mod n block_size ltac:(lia)). assert (M' := Z.mod_pos_bound n block_size P).
    assert (0 <= n / block_size) by (apply Z.div_pos; lia). fold n. nia. }
  { rewrite ED. apply A1. }
  rewrite ED in BW.
  assert (Eu : forall (A : Type) (x y : A), match data with [] => x | _ :: _ => y end = y) by (by destruct data).
  rewrite Eu in E. fold n in E. rewrite W in E. cbn [bind] in E. unfold modify, ret in E. injection E as <- <-.
  destruct (written_contents f (if m_size f1 <? offset + n then file bs (offset + n) else file bs (m_size f1)) offset data)
    as [I2 C2]; [done|done|done| | | |].
  1,2: destruct (Z.ltb_spec (m_size f1) (offset + n)); destruct I; cbn [m_size m_blocks]; rewrite ?LW, ?S1; fold n; nia.
  { intros i Hi. assert (m_blocks (if m_size f1 <? offset + n then file bs (offset + n) else file bs (m_size f1)) = bs) as ->
      by (by destruct (_ <? _)). rewrite BW by done. unfold patched. destruct (decide _); [done|].
    by rewrite (byte_at_ext _ _ _ B1). }
  cbn [m_size]. split; [done|]. by left.
Qed.

Lemma byte_at_resize bs l i :
  0 <= i -> byte_at (resize bs l) i = if decide (i < l * block_size) then byte_at bs i else 0.
Proof.
  intros Hi. assert (P := block_size_pos). unfold byte_at. rewrite block_at_resize.
  assert (0 <= i / block_size) by (apply Z.div_pos; lia).
  destruct (decide (i < _)) as [L|L].
  - rewrite decide_True; [done|]. apply index_lt in L. lia.
  - rewrite decide_False; [done|]. assert (l <= i / block_size) by (apply index_ge; lia). lia.
Qed.

(** The file after a truncation, given its bytes. *)
Lemma truncated_contents f f' size :
  inv f -> 0 <= size -> m_size f' = size -> size <= Z.of_nat (length (m_blocks f')) * block_size ->
  (forall i, 0 <= i -> byte_at (m_blocks f') i = if decide (i < size) then byte_at (m_blocks f) i else 0) ->
  inv f' /\ contents f' = (flat_run (TruncateTo size) (contents f)).1.
Proof.
  intros I Hs Es Er Eb. split.
  - constructor; rewrite ?Es; [done|done|]. intros i Hi. rewrite Eb by lia. by rewrite decide_False by lia.
  - apply list_eq. intros j. cbn [flat_run fst]. rewrite contents_lookup, Es. destruct (decide _) as [D|D].
    + rewrite Eb, decide_True by lia. rewrite lookup_take_lt by lia. by rewrite padded_lookup.
    + symmetry. apply lookup_ge_None_2. rewrite length_take. lia.
Qed.

Lemma truncate_exact m f size f' r :
  inv f -> 0 <= size -> truncate_locked m size f = (f', r) ->
  r = Ok tt /\ inv f' /\ contents f' = (flat_run (TruncateTo size) (contents f)).1 \/
  r = Err ENOMEM /\ (resizable m = false \/ mappable m = false).
Proof.
  intros I Hs. assert (P := block_size_pos). unfold truncate_locked.
  assert (L := last_index size). cbv zeta in L. set (l := size / block_size + _) in *.
  destruct (_ && _) eqn:EC; [intros [= <- <-]; right; split; [done|]; apply andb_prop in EC as [_ EC]; left; by destruct (resizable m)|].
  clear EC. assert (Hl : 0 <= l) by (unfold l; assert (0 <= size / block_size) by (apply Z.div_pos; lia); destruct (_ =? _); lia).
  assert (D := Z.div_mod size block_size ltac:(lia)). assert (M := Z.mod_pos_bound size block_size P).
  assert (Q : 0 <= size / block_size) by (apply Z.div_pos; lia).
  destruct (Z.eqb_spec (size mod block_size) 0) as [Z0|Z0].
  - intros [= <- <-]. left. split; [done|]. apply truncated_contents; cbn [m_blocks m_size]; [done|done|done| |].
    + rewrite resize_length. lia.
    + intros i Hi. rewrite byte_at_resize by done. unfold l. by replace ((size / block_size + 0) * block_size) with size by lia.
  - assert (El : l = size / block_size + 1) by done.
    rewrite resize_lookup, decide_True by lia. set (k := Z.to_nat (size / block_size)).
    destruct (m_blocks f !! k) as [[b|]|] eqn:B; cbn [from_option id].
    2,3: intros [= <- <-]; left; split; [done|]; apply truncated_contents; cbn [m_blocks m_size];
      [done|done|done|rewrite resize_length; lia|]; intros i Hi; rewrite byte_at_resize by done;
      destruct (decide (i < size)); [by rewrite decide_True by lia|]; destruct (decide _); [|done];
      unfold byte_at, block_at; replace (Z.to_nat (i / block_size)) with k; [by rewrite B|];
      unfold k; f_equal; apply (Z.div_unique _ _ _ (i - block_size * (size / block_size))); lia.
    destruct (mappable m) eqn:Em; cbn [negb]; intros [= <- <-]; [left|right; by eauto].
    split; [done|]. apply truncated_contents; cbn [m_blocks m_size]; [done|done|done| |].
    + rewrite length_insert, resize_length. lia.
    + intros i Hi. unfold k. rewrite byte_at_put; [|lia|lia|rewrite length_replicate; lia|done|].
      2:{ rewrite resize_lookup, decide_True by lia. fold k. by rewrite B. }
      unfold patched. rewrite length_replicate. replace (size / block_size * block_size + size mod block_size) with size by lia.
      destruct (decide (i < size)) as [J|J].
      * rewrite decide_False by lia. rewrite byte_at_resize by done. by rewrite decide_True by lia.
      * destruct (decide _) as [K|K].
        -- rewrite lookup_replicate_2 by lia. done.
        -- rewrite byte_at_resize by done. by rewrite decide_False by lia.
Qed.



(** A truncation that finds no region to map the last block has already given
    up the blocks behind it, and keeps the old size: reading there fails an
    assertion. *)
Lemma failed_truncate_breaks_file :
  let f := (run plenty (WriteBytes 0 [1]) (run plenty (WriteBytes 131072 [1]) (file [] 0)).1).1 in
  let '(f', r) := run (memory true 0 false) (TruncateTo 1) f in
  r = Err ENOMEM /\ (run plenty (ReadBytes 131072 1) f).2 = Ok (Bytes [1]) /\
  (run plenty (ReadBytes 131072 1) f').2 = Panic.
Proof. by vm_compute. Qed.
End RamFile.
