(* ===== verification/InodeMetadata.v ===== *)
(** Modes and owners of files, and who may read, write and execute them
    ([Kernel/FileSystem/InodeMetadata.h] and [.cpp]). *)

From S2P Require Import Prelude Process.

Module InodeMetadata.
#[local] Open Scope Z_scope.

(** ** Modes *)

Abbreviation S_IFMT := 0xF000%Z (only parsing).
Abbreviation S_IFDIR := 0x4000%Z (only parsing).
Abbreviation S_IFCHR := 0x2000%Z (only parsing).
Abbreviation S_IFBLK := 0x6000%Z (only parsing).
Abbreviation S_IFREG := 0x8000%Z (only parsing).
Abbreviation S_IFIFO := 0x1000%Z (only parsing).
Abbreviation S_IFLNK := 0xA000%Z (only parsing).
Abbreviation S_IFSOCK := 0xC000%Z (only parsing).
Abbreviation S_ISUID := 0x800%Z (only parsing).
Abbreviation S_ISGID := 0x400%Z (only parsing).
Abbreviation S_ISVTX := 0x200%Z (only parsing).
Abbreviation S_IRUSR := 0x100%Z (only parsing).
Abbreviation S_IWUSR := 0x080%Z (only parsing).
Abbreviation S_IXUSR := 0x040%Z (only parsing).
Abbreviation S_IRGRP := 0x020%Z (only parsing).
Abbreviation S_IWGRP := 0x010%Z (only parsing).
Abbreviation S_IXGRP := 0x008%Z (only parsing).
Abbreviation S_IROTH := 0x004%Z (only parsing).
Abbreviation S_IWOTH := 0x002%Z (only parsing).
Abbreviation S_IXOTH := 0x001%Z (only parsing).

(** [(mode & S_IFMT) == type] and [(mode & bits) == bits] *)
Definition is_type (type mode : Z) : bool := Z.land mode S_IFMT =? type.
Definition has_bits (bits mode : Z) : bool := Z.land mode bits =? bits.

Abbreviation is_directory := (is_type S_IFDIR).
Abbreviation is_character_device := (is_type S_IFCHR).
Abbreviation is_block_device := (is_type S_IFBLK).
Abbreviation is_regular_file := (is_type S_IFREG).
Abbreviation is_fifo := (is_type S_IFIFO).
Abbreviation is_symlink := (is_type S_IFLNK).
Abbreviation is_socket := (is_type S_IFSOCK).
Abbreviation is_sticky := (has_bits S_ISVTX).
Abbreviation is_setuid := (has_bits S_ISUID).
Abbreviation is_setgid := (has_bits S_ISGID).

(** ** Metadata

    The size is that of the contents; times and counts of links and blocks are
    left out. *)

Record InodeMetadata : Type := metadata {
  mode : Z;
  uid : Z;
  gid : Z;
  major_device : Z;
  minor_device : Z
}.

(** [may_read], [may_write] and [may_execute] of a user and groups, which
    differ in the bits they ask for. *)
Definition may (usr grp oth : Z) (m : InodeMetadata) (u g : Z) (eg : list Z) : bool :=
  if u =? 0 then true else
  if uid m =? u then has_bits usr (mode m) else
  if (gid m =? g) || bool_decide (gid m ∈ eg) then has_bits grp (mode m) else
  has_bits oth (mode m).

Inductive UseEffectiveIDs : Type := Effective | Real.

Definition may_with_credentials (usr grp oth : Z) (m : InodeMetadata) (c : Process.Credentials) (ids : UseEffectiveIDs) : bool :=
  match ids with
  | Effective => may usr grp oth m (Process.m_euid c) (Process.m_egid c) (Process.m_extra_gids c)
  | Real => may usr grp oth m (Process.m_uid c) (Process.m_gid c) (Process.m_extra_gids c)
  end.

Definition may_read := may_with_credentials S_IRUSR S_IRGRP S_IROTH.
Definition may_write := may_with_credentials S_IWUSR S_IWGRP S_IWOTH.
Definition may_execute := may_with_credentials S_IXUSR S_IXGRP S_IXOTH.

(** [Credentials::in_group] *)
Definition in_group (c : Process.Credentials) (g : Z) : bool :=
  (Process.m_gid c =? g) || bool_decide (g ∈ Process.m_extra_gids c).
End InodeMetadata.
