(* ===== verification/RamFS.v ===== *)
(** The files and directories of [Kernel/FileSystem/RAMFS].  An inode is known
    by a pointer; the store holds the inodes that live and the file systems
    they belong to; an inode that lost its last entry stays in the store.  Times
    and the notifications of watchers are left out. *)

From Stdlib Require Import Ascii String.
From S2P Require Import Prelude StringView LexicalPath RamFile Process InodeMetadata.

Module RAMFS.
Import InodeMetadata.
#[local] Open Scope Z_scope.

(** [RAMFSInode]; the parent is a weak pointer. *)
Record Inode : Type := inode {
  m_file_system : Z;
  m_index : Z;
  m_metadata : InodeMetadata;
  m_parent : option Z;
  m_root_directory_inode : bool;
  m_children : list (StringView.t * Z);
  m_content : RamFile.t
}.

(** [RAMFS] *)
Record FileSystem : Type := file_system {
  m_next_inode_index : Z;
  m_root_inode : Z;
  m_readonly : bool
}.

Record t : Type := store {
  inodes : gmap Z Inode;
  file_systems : gmap Z FileSystem
}.

(** ** Access *)

Definition get_inode (i : Z) : action t Inode :=
  fun s => (s, match inodes s !! i with Some n => Ok n | None => Undefined end).

Definition get_file_system (f : Z) : action t FileSystem :=
  fun s => (s, match file_systems s !! f with Some x => Ok x | None => Undefined end).

Definition set_inodes (f : gmap Z Inode -> gmap Z Inode) : action t unit :=
  modify (fun s => store (f (inodes s)) (file_systems s)).

Definition put_inode (i : Z) (n : Inode) : action t unit := set_inodes <[i := n]>.

Definition with_metadata (m : InodeMetadata) (n : Inode) : Inode :=
  inode (m_file_system n) (m_index n) m (m_parent n) (m_root_directory_inode n) (m_children n) (m_content n).

Definition with_children (cs : list (StringView.t * Z)) (n : Inode) : Inode :=
  inode (m_file_system n) (m_index n) (m_metadata n) (m_parent n) (m_root_directory_inode n) cs (m_content n).

Definition with_content (f : RamFile.t) (n : Inode) : Inode :=
  inode (m_file_system n) (m_index n) (m_metadata n) (m_parent n) (m_root_directory_inode n) (m_children n) f.

Definition is_directory_inode (n : Inode) : bool := is_directory (mode (m_metadata n)).

Definition verify (b : bool) : action t unit := lift (if b then Ok tt else Panic).

(** ** Directories *)

(** [find_child_by_name]: the first child with the name. *)
Fixpoint find_child_by_name (name : StringView.t) (cs : list (StringView.t * Z)) : option Z :=
  match cs with
  | [] => None
  | (n, i) :: cs => if bool_decide (n = name) then Some i else find_child_by_name name cs
  end.

Fixpoint remove_first (name : StringView.t) (cs : list (StringView.t * Z)) : list (StringView.t * Z) :=
  match cs with
  | [] => []
  | (n, i) :: cs => if bool_decide (n = name) then cs else (n, i) :: remove_first name cs
  end.

(** [LockWeakPtr::strong_ref] *)
Definition strong_ref (s : t) (p : option Z) : option Z :=
  match p with
  | Some i => match inodes s !! i with Some _ => Some i | None => None end
  | None => None
  end.

Definition lookup (dir : Z) (name : StringView.t) : action t Z :=
  let* n := get_inode dir in
  let* _ := verify (is_directory_inode n) in
  if bool_decide (name = KLexicalPath.sv ".") then ret dir else
  if bool_decide (name = KLexicalPath.sv "..") then
    let* parent := gets (fun s => strong_ref s (m_parent n)) in
    match parent with Some p => ret p | None => lift (Err ENOENT) end
  else
    match find_child_by_name name (m_children n) with
    | Some i => ret i
    | None => lift (Err ENOENT)
    end.

(** [traverse_as_directory] with a callback that counts. *)
Definition count_entries (dir : Z) : action t Z :=
  let* n := get_inode dir in
  if negb (is_directory_inode n) then lift (Err ENOTDIR) else
  let* parent := gets (fun s => strong_ref s (m_parent n)) in
  let dotdot := if m_root_directory_inode n then 1 else match parent with Some _ => 1 | None => 0 end in
  ret (1 + dotdot + Z.of_nat (length (m_children n))).

Abbreviation NAME_MAX := 255%Z (only parsing).

(** [memory] says whether the new entry can be allocated. *)
Definition add_child (memory : bool) (dir child : Z) (name : StringView.t) : action t unit :=
  let* n := get_inode dir in
  let* c := get_inode child in
  let* _ := verify (is_directory_inode n) in
  let* _ := verify (m_file_system c =? m_file_system n) in
  if NAME_MAX <? Z.of_nat (length name) then lift (Err ENAMETOOLONG) else
  match find_child_by_name name (m_children n) with
  | Some _ => lift (Err EEXIST)
  | None =>
      if negb memory then lift (Err ENOMEM) else
      put_inode dir (with_children (m_children n ++ [(name, child)]) n)
  end.

(** [encoded_device] the other way round *)
Definition major_from_encoded_device (dev : Z) : Z := Z.shiftr (Z.land dev 0xfff00) 8.
Definition minor_from_encoded_device (dev : Z) : Z := Z.lor (Z.land dev 0xff) (Z.land (Z.shiftr dev 12) 0xfff00).

(** A pointer that no inode has. *)
Definition fresh_pointer (s : t) : Z := fresh (dom (inodes s)).

(** [memory] says whether the inode, and then whether its entry, can be
    allocated; without an entry the new inode is gone again, but not its index. *)
Definition create_child (memory : bool * bool) (dir : Z) (name : StringView.t) (mode dev uid gid : Z) : action t Z :=
  let* n := get_inode dir in
  if negb (fst memory) then lift (Err ENOMEM) else
  let* fs := get_file_system (m_file_system n) in
  let* child := gets fresh_pointer in
  let m := metadata mode uid gid (major_from_encoded_device dev) (minor_from_encoded_device dev) in
  let* _ := modify (fun s => store (inodes s)
              (<[m_file_system n := file_system (u32 (m_next_inode_index fs + 1)) (m_root_inode fs) (m_readonly fs)]>
                 (file_systems s))) in
  let* _ := put_inode child (inode (m_file_system n) (m_next_inode_index fs) m (Some dir) false [] (RamFile.file [] 0)) in
  fun s =>
    match add_child (snd memory) dir child name s with
    | (s, Ok _) => (s, Ok child)
    | (s, Err e) => (fst (set_inodes (delete child) s), Err e)
    | (s, Panic) => (s, Panic)
    | (s, Undefined) => (s, Undefined)
    end.

Definition remove_child (dir : Z) (name : StringView.t) : action t unit :=
  let* n := get_inode dir in
  let* _ := verify (is_directory_inode n) in
  if bool_decide (name = KLexicalPath.sv ".") || bool_decide (name = KLexicalPath.sv "..") then ret tt else
  match find_child_by_name name (m_children n) with
  | None => lift (Err ENOENT)
  | Some _ => put_inode dir (with_children (remove_first name (m_children n)) n)
  end.

(** [RAMFS::rename] *)
Definition rename (memory : bool) (old_parent : Z) (old_basename : StringView.t) (new_parent : Z)
    (new_basename : StringView.t) : action t unit := fun s =>
  (let* _ := (match snd (lookup new_parent new_basename s) with
              | Ok replaced =>
                  let* r := get_inode replaced in
                  let* _ := verify (negb (is_directory_inode r)) in
                  remove_child new_parent new_basename
              | Err _ => ret tt
              | Panic => lift Panic
              | Undefined => lift Undefined
              end) in
   let* old_inode := lookup old_parent old_basename in
   let* _ := add_child memory new_parent old_inode new_basename in
   remove_child old_parent old_basename) s.

(** ** Files *)

Definition chmod (i mode : Z) : action t unit :=
  let* n := get_inode i in
  let m := m_metadata n in
  put_inode i (with_metadata (metadata mode (uid m) (gid m) (major_device m) (minor_device m)) n).

Definition chown (i uid gid : Z) : action t unit :=
  let* n := get_inode i in
  let m := m_metadata n in
  put_inode i (with_metadata (metadata (mode m) uid gid (major_device m) (minor_device m)) n).

(** Without the bits [04000] and [02000]. *)
Definition without_setid (mode : Z) : Z := Z.land mode (Z.lnot (Z.lor S_ISUID S_ISGID)).

(** [Inode::prepare_to_write_data] *)
Definition prepare_to_write_data (i : Z) : action t unit :=
  let* n := get_inode i in
  let* fs := get_file_system (m_file_system n) in
  if m_readonly fs then lift (Err EROFS) else
  let md := mode (m_metadata n) in
  if is_setuid md || is_setgid md then chmod i (without_setid md) else ret tt.

(** An operation on the contents of a file that is no directory. *)
Definition on_content {A : Type} (i : Z) (op : action RamFile.t A) : action t A :=
  let* n := get_inode i in
  let* _ := verify (negb (is_directory_inode n)) in
  let (f, r) := op (m_content n) in
  let* _ := put_inode i (with_content f n) in
  lift r.

(** [Inode::write_bytes] *)
Definition write_bytes (m : RamFile.Memory) (i offset : Z) (data : list Z) : action t Z :=
  let* _ := prepare_to_write_data i in
  on_content i (RamFile.write_bytes_locked m offset data).

(** [Inode::truncate] *)
Definition truncate (m : RamFile.Memory) (i size : Z) : action t unit :=
  on_content i (RamFile.truncate_locked m size).
End RAMFS.
