(* ===== verification/VFS.v ===== *)
(** The virtual file system, [Kernel/FileSystem/VirtualFileSystem.cpp]: custodies,
    mounts, the resolution of paths and the operations on the files that paths
    name, over the file systems of [RamFS.v].  One call at a time; custodies can
    always be allocated. *)

From Stdlib Require Import Ascii String.
From S2P Require Import Prelude StringView LexicalPath Process Unveil RamFile InodeMetadata RamFS.

Module VFS.
Import InodeMetadata.
#[local] Open Scope Z_scope.

Abbreviation O_RDONLY := Unveil.O_RDONLY (only parsing).
Abbreviation O_WRONLY := Unveil.O_WRONLY (only parsing).
Abbreviation O_RDWR := (Z.lor Unveil.O_RDONLY Unveil.O_WRONLY) (only parsing).
Abbreviation O_EXEC := Unveil.O_EXEC (only parsing).
Abbreviation O_CREAT := Unveil.O_CREAT (only parsing).
Abbreviation O_EXCL := (Z.shiftl 1 4)%Z (only parsing).
Abbreviation O_TRUNC := (Z.shiftl 1 6)%Z (only parsing).
Abbreviation O_DIRECTORY := Unveil.O_DIRECTORY (only parsing).
Abbreviation O_NOFOLLOW := (Z.shiftl 1 10)%Z (only parsing).
Abbreviation O_NOFOLLOW_NOERROR := (Z.shiftl 1 29)%Z (only parsing).
Abbreviation O_UNLINK_INTERNAL := Unveil.O_UNLINK_INTERNAL (only parsing).
Abbreviation MS_NODEV := (Z.shiftl 1 0)%Z (only parsing).
Abbreviation MS_NOEXEC := (Z.shiftl 1 1)%Z (only parsing).
Abbreviation MS_RDONLY := (Z.shiftl 1 4)%Z (only parsing).
Abbreviation MS_NOREGULAR := (Z.shiftl 1 8)%Z (only parsing).
Abbreviation R_OK := 4%Z (only parsing).
Abbreviation W_OK := 2%Z (only parsing).
Abbreviation X_OK := 1%Z (only parsing).
Abbreviation has := Unveil.has (only parsing).

(** ** Custodies *)

(** A custody without and with a parent. *)
Inductive Custody : Type :=
| root_custody (m_name : StringView.t) (m_inode m_mount_flags : Z)
| child_custody (m_parent : Custody) (m_name : StringView.t) (m_inode m_mount_flags : Z).

Definition parent (c : Custody) : option Custody :=
  match c with root_custody _ _ _ => None | child_custody p _ _ _ => Some p end.
Definition inode (c : Custody) : Z :=
  match c with root_custody _ i _ | child_custody _ _ i _ => i end.
Definition name (c : Custody) : StringView.t :=
  match c with root_custody n _ _ | child_custody _ n _ _ => n end.
Definition mount_flags (c : Custody) : Z :=
  match c with root_custody _ _ f | child_custody _ _ _ f => f end.

(** The names below the root, each after a slash. *)
Fixpoint chain_path (c : Custody) : StringView.t :=
  match c with
  | root_custody _ _ _ => []
  | child_custody p n _ _ => chain_path p ++ KLexicalPath.slash :: n
  end.

Definition try_serialize_absolute_path (c : Custody) : StringView.t :=
  match parent c with None => KLexicalPath.sv "/" | Some _ => chain_path c end.

Definition metadata_of (s : RAMFS.t) (i : Z) : outcome InodeMetadata :=
  match RAMFS.inodes s !! i with Some n => Ok (RAMFS.m_metadata n) | None => Undefined end.

Definition is_readonly (s : RAMFS.t) (c : Custody) : outcome bool :=
  if has (mount_flags c) MS_RDONLY then Ok true else
  match RAMFS.inodes s !! inode c with
  | None => Undefined
  | Some n => match RAMFS.file_systems s !! RAMFS.m_file_system n with
              | None => Undefined
              | Some fs => Ok (RAMFS.m_readonly fs)
              end
  end.

(** ** Mounts *)

Record Mount : Type := mount { guest : Z; host_custody : option Custody; flags : Z }.

Record VFSRootContext : Type := context { m_root_custody : Custody; mounts : list Mount }.

(** The loop of [check_matching_absolute_path_hierarchy]. *)
Fixpoint matching_ancestors (custody1 custody2 : Custody) : bool :=
  match custody1, custody2 with
  | root_custody _ _ _, _ => true
  | child_custody _ _ _ _, root_custody _ _ _ => false
  | child_custody p1 _ _ _, child_custody p2 _ _ _ => (inode p1 =? inode p2) && matching_ancestors p1 p2
  end.

Definition check_matching_absolute_path_hierarchy (first_custody second_custody : Custody) : bool :=
  match parent first_custody, parent second_custody with
  | None, None => true
  | _, _ => if bool_decide (name first_custody = name second_custody)
            then matching_ancestors first_custody second_custody else false
  end.

(** The first mount on a custody that has a parent. *)
Fixpoint mount_on (ms : list Mount) (c : Custody) : option Mount :=
  match ms with
  | [] => None
  | m :: ms =>
      match host_custody m with
      | Some h => if check_matching_absolute_path_hierarchy h c then Some m else mount_on ms c
      | None => mount_on ms c
      end
  end.

Fixpoint root_mount (ms : list Mount) : option Mount :=
  match ms with
  | [] => None
  | m :: ms => match host_custody m with None => Some m | Some _ => root_mount ms end
  end.

Definition current_mount_state_for_host_custody (x : VFSRootContext) (c : Custody) : outcome Mount :=
  match parent c with
  | None => match root_mount (mounts x) with Some m => Ok m | None => Panic end
  | Some _ => match mount_on (mounts x) c with Some m => Ok m | None => Err ENODEV end
  end.

(** ** The caller

    What a call takes from the current process, and the memory there is. *)

Record Caller : Type := caller {
  vfs_root_context : VFSRootContext;
  veil : Unveil.UnveilData;
  credentials : Process.Credentials;
  supplies : RamFile.Memory
}.

Definition validate_custody (w : Caller) (c : Custody) (options : Z) : outcome unit :=
  if bool_decide (Unveil.state (veil w) = Unveil.NoVeil) then Ok tt else
  Unveil.validate_path_against_process_veil (veil w) (try_serialize_absolute_path c) options.

(** ** Resolution of paths *)

Definition symlink_recursion_limit : nat := 8.

Definition safe_to_follow_symlink (w : Caller) (m parent_metadata : InodeMetadata) : bool :=
  if Process.m_euid (credentials w) =? uid m then true else
  if negb (is_sticky (mode parent_metadata) && has (mode parent_metadata) S_IWOTH) then true else
  if uid m =? uid parent_metadata then true else false.

(** The parts of a path between its slashes, one after the other, with the empty
    part after a slash at the end; with each, the text that follows it. *)
Fixpoint lex (path : StringView.t) : list (StringView.t * StringView.t) :=
  match path with
  | [] => [([], [])]
  | c :: rest =>
      if Ascii.eqb c KLexicalPath.slash then ([], path) :: lex rest
      else match lex rest with
           | (part, after) :: l => (c :: part, after) :: l
           | [] => []
           end
  end.

(** [resolve_path], given [resolve_path_without_veil]: a veiled result clears
    the parent that was found.  The state is [*out_parent]. *)
Definition unveiled (w : Caller) (options : Z) (resolved : action (option Custody) Custody)
    : action (option Custody) Custody := fun out_parent =>
  match resolved out_parent with
  | (out_parent, Ok custody) =>
      match validate_custody w custody options with
      | Ok _ => (out_parent, Ok custody)
      | Err e => (None, Err e)
      | Panic => (out_parent, Panic)
      | Undefined => (out_parent, Undefined)
      end
  | r => r
  end.

(** [Inode::read_until_filled_or_end], of the contents of an inode. *)
Fixpoint read_until_filled_or_end (fuel : nat) (m : RamFile.Memory) (f : RamFile.t) (offset remaining_length : Z)
    : outcome (list Z) :=
  if remaining_length <=? 0 then Ok [] else
  match fuel with
  | O => Undefined
  | S fuel =>
      let! filled := RamFile.read_bytes_from_content_space m f offset remaining_length in
      match filled with
      | [] => Ok []
      | _ =>
          let! rest := read_until_filled_or_end fuel m f (offset + Z.of_nat (length filled))
                         (remaining_length - Z.of_nat (length filled)) in
          Ok (filled ++ rest)
      end
  end.

Abbreviation MAXPATHLEN := 4096%Z (only parsing).

Definition character (b : Z) : ascii := ascii_of_nat (Z.to_nat b).
Definition byte_of (c : ascii) : Z := Z.of_nat (nat_of_ascii c).

(** The text of a symbolic link. *)
Definition link_target (s : RAMFS.t) (w : Caller) (link : Z) : outcome StringView.t :=
  match RAMFS.inodes s !! link with
  | None => Undefined
  | Some n =>
      VERIFY (RamFile.m_size (RAMFS.m_content n) <=? MAXPATHLEN) ;;
      let! contents := read_until_filled_or_end (S (Z.to_nat MAXPATHLEN)) (supplies w) (RAMFS.m_content n) 0 MAXPATHLEN in
      Ok (map character contents)
  end.

Section Resolution.
Context (s : RAMFS.t) (w : Caller) (options : Z).

(** The calls to itself that [resolve_path_without_veil] makes one level deeper. *)
Context (again : StringView.t -> Custody -> action (option Custody) Custody).

(** [Inode::resolve_as_link] *)
Definition resolve_as_link (link : Z) (base : Custody) : action (option Custody) Custody :=
  let* target := lift (link_target s w link) in
  unveiled w options (again target base).

(** What is mounted on a custody, or itself. *)
Definition mounted (current_custody : Custody) : outcome Custody :=
  match current_mount_state_for_host_custody (vfs_root_context w) current_custody with
  | Ok m => match current_custody with
            | child_custody p n _ _ => Ok (child_custody p n (guest m) (flags m))
            | root_custody _ _ _ => Ok current_custody
            end
  | Err _ => Ok current_custody
  | Panic => Panic
  | Undefined => Undefined
  end.

(** The loop over the parts of the path. *)
Fixpoint walk (custody : Custody) (parts : list (StringView.t * StringView.t)) : action (option Custody) Custody :=
  match parts with
  | [] => fun _ => (parent custody, Ok custody)
  | (part, after) :: parts =>
      let the_parent := custody in
      let* parent_metadata := lift (metadata_of s (inode the_parent)) in
      if negb (is_directory (mode parent_metadata)) then lift (Err ENOTDIR) else
      if negb (may_execute parent_metadata (credentials w) Effective) then lift (Err EACCES) else
      let have_more_parts := negb (bool_decide (parts = [])) in
      if bool_decide (part = KLexicalPath.sv "..") then
        walk (match parent custody with Some p => p | None => custody end) parts
      else if bool_decide (part = KLexicalPath.sv ".") || StringView.is_empty part then walk custody parts
      else
        match snd (RAMFS.lookup (inode the_parent) part s) with
        | Err e => fun _ => (if have_more_parts then None else Some the_parent, Err e)
        | Panic => lift Panic
        | Undefined => lift Undefined
        | Ok child =>
            let* custody := lift (mounted (child_custody the_parent part child (mount_flags the_parent))) in
            let* child_metadata := lift (metadata_of s (inode custody)) in
            if is_symlink (mode child_metadata) then
              if negb have_more_parts && has options O_NOFOLLOW then lift (Err ELOOP) else
              if negb have_more_parts && has options O_NOFOLLOW_NOERROR then fun _ => (parent custody, Ok custody) else
              if negb (safe_to_follow_symlink w child_metadata parent_metadata) then lift (Err EACCES) else
              let* _ := lift (validate_custody w custody options) in
              let* symlink_target := resolve_as_link (inode custody) the_parent in
              if negb have_more_parts then ret symlink_target
              else again (KLexicalPath.sv "." ++ after) symlink_target
            else walk custody parts
        end
  end.
End Resolution.

(** [levels] is [symlink_recursion_limit - symlink_recursion_level]. *)
Fixpoint resolve_path_without_veil (levels : nat) (s : RAMFS.t) (w : Caller) (path : StringView.t) (base : Custody)
    (options : Z) : action (option Custody) Custody :=
  match levels with
  | O => lift (Err ELOOP)
  | S levels =>
      match path with
      | [] => lift (Err EINVAL)
      | c :: _ =>
          let custody := if Ascii.eqb c KLexicalPath.slash then m_root_custody (vfs_root_context w) else base in
          walk s w options (fun path base => resolve_path_without_veil levels s w path base options) custody (lex path)
      end
  end.

Definition resolve_path (s : RAMFS.t) (w : Caller) (path : StringView.t) (base : Custody) (options : Z)
    : action (option Custody) Custody :=
  unveiled w options (resolve_path_without_veil symlink_recursion_limit s w path base options).

(** ** Operations

    Each works on the store; [TRY] on a resolution is [resolve], and
    [resolve_with_parent] gives the result or the error with [*out_parent]. *)

Definition resolve (w : Caller) (path : StringView.t) (base : Custody) (options : Z) : action RAMFS.t Custody :=
  fun s => (s, snd (resolve_path s w path base options None)).

Definition with_out_parent (r : option Custody * outcome Custody) : outcome ((Custody + Errno) * option Custody) :=
  match r with
  | (p, Ok c) => Ok (inl c, p)
  | (p, Err e) => Ok (inr e, p)
  | (_, Panic) => Panic
  | (_, Undefined) => Undefined
  end.

Definition resolve_with_parent (w : Caller) (path : StringView.t) (base : Custody) (options : Z)
    : action RAMFS.t ((Custody + Errno) * option Custody) :=
  fun s => (s, with_out_parent (resolve_path s w path base options None)).

Definition get_metadata (c : Custody) : action RAMFS.t InodeMetadata := fun s => (s, metadata_of s (inode c)).
Definition get_readonly (c : Custody) : action RAMFS.t bool := fun s => (s, is_readonly s c).

(** [if (b) return e;] *)
Definition fail_if (b : bool) (e : Errno) : action RAMFS.t unit := if b then lift (Err e) else ret tt.

Definition may_write_to (w : Caller) (m : InodeMetadata) : bool := may_write m (credentials w) Effective.
Definition euid (w : Caller) : Z := Process.m_euid (credentials w).
Definition superuser (w : Caller) : bool := Process.is_superuser (credentials w).

(** What a file was opened as. *)
Inductive Opened : Type :=
| OpenedFile (c : Custody) (options : Z)
| OpenedFifo (writer : bool) (i options : Z)
| OpenedDevice (c : Custody) (options : Z).

Definition create (w : Caller) (memory : bool * bool) (path : StringView.t) (options mode_arg : Z) (parent_custody : Custody)
    (owner : option (Z * Z)) : action RAMFS.t Opened :=
  let basename := KLexicalPath.basename path in
  let* full_path := lift (KLexicalPath.try_join true (try_serialize_absolute_path parent_custody) basename) in
  let* _ := lift (Unveil.validate_path_against_process_veil (veil w) full_path options) in
  let new_mode :=
    if negb (is_socket mode_arg) && negb (is_fifo mode_arg) && negb (is_block_device mode_arg) &&
       negb (is_character_device mode_arg) then Z.lor mode_arg S_IFREG else mode_arg in
  let* parent_metadata := get_metadata parent_custody in
  let* _ := fail_if (negb (may_write_to w parent_metadata)) EACCES in
  let* readonly := get_readonly parent_custody in
  let* _ := fail_if readonly EROFS in
  let* _ := fail_if (is_regular_file new_mode && has (mount_flags parent_custody) MS_NOREGULAR) EACCES in
  let new_uid := match owner with Some (u, _) => u | None => euid w end in
  let new_gid := match owner with Some (_, g) => g | None => Process.m_egid (credentials w) end in
  let* i := RAMFS.create_child memory (inode parent_custody) basename new_mode 0 new_uid new_gid in
  ret (OpenedFile (child_custody parent_custody basename i (mount_flags parent_custody)) options).

(** [device_open] is the lookup of a device by its numbers and its [open]. *)
Definition open (w : Caller) (memory : bool * bool) (device_open : InodeMetadata -> outcome unit) (path : StringView.t)
    (options mode_arg : Z) (base : Custody) (owner : option (Z * Z)) : action RAMFS.t Opened :=
  let* _ := fail_if (has options O_CREAT && has options O_DIRECTORY) EINVAL in
  let* (custody_or_error, parent_custody) := resolve_with_parent w path base options in
  match custody_or_error with
  | inr e =>
      match parent_custody with
      | Some p => if has options O_CREAT && bool_decide (e = ENOENT)
                  then create w memory path options mode_arg p owner else lift (Err e)
      | None => lift (Err e)
      end
  | inl custody =>
      let* _ := fail_if (has options O_CREAT && has options O_EXCL) EEXIST in
      let* m := get_metadata custody in
      let* _ := fail_if (is_regular_file (mode m) && has (mount_flags custody) MS_NOREGULAR) EACCES in
      let* _ := fail_if (has options O_DIRECTORY && negb (is_directory (mode m))) ENOTDIR in
      let* _ := fail_if (has options O_RDONLY && negb (may_read m (credentials w) Effective)) EACCES in
      let* _ := fail_if (has options O_WRONLY && negb (may_write_to w m)) EACCES in
      let* _ := fail_if (has options O_WRONLY && is_directory (mode m)) EISDIR in
      let should_truncate_file := has options O_WRONLY && has options O_TRUNC in
      let* _ := fail_if (has options O_EXEC &&
                  (negb (may_execute m (credentials w) Effective) || has (mount_flags custody) MS_NOEXEC)) EACCES in
      if is_fifo (mode m) then
        if has options O_WRONLY then ret (OpenedFifo true (inode custody) options)
        else if has options O_RDONLY then ret (OpenedFifo false (inode custody) options)
        else lift (Err EINVAL)
      else if is_character_device (mode m) || is_block_device (mode m) then
        let* _ := fail_if (has (mount_flags custody) MS_NODEV) EACCES in
        let* _ := lift (device_open m) in
        ret (OpenedDevice custody options)
      else
        let* readonly := get_readonly custody in
        let* _ := fail_if (has options O_WRONLY && readonly) EROFS in
        let* _ := (if should_truncate_file then RAMFS.truncate (supplies w) (inode custody) 0 else ret tt) in
        ret (OpenedFile custody options)
  end.

Definition mknod (w : Caller) (memory : bool * bool) (path : StringView.t) (mode_arg dev : Z) (base : Custody)
    : action RAMFS.t unit :=
  let* _ := fail_if (negb (is_regular_file mode_arg) && negb (is_block_device mode_arg) &&
              negb (is_character_device mode_arg) && negb (is_fifo mode_arg) && negb (is_socket mode_arg)) EINVAL in
  let* (existing_file_or_error, parent_custody) := resolve_with_parent w path base 0 in
  match existing_file_or_error, parent_custody with
  | inl _, _ => lift (Err EEXIST)
  | inr _, None => lift (Err ENOENT)
  | inr e, Some p =>
      let* _ := fail_if (negb (bool_decide (e = ENOENT))) e in
      let* parent_metadata := get_metadata p in
      let* _ := fail_if (negb (may_write_to w parent_metadata)) EACCES in
      let* readonly := get_readonly p in
      let* _ := fail_if readonly EROFS in
      let* _ := RAMFS.create_child memory (inode p) (KLexicalPath.basename path) mode_arg dev
                  (euid w) (Process.m_egid (credentials w)) in
      ret tt
  end.

Definition mkdir (w : Caller) (memory : bool * bool) (path : StringView.t) (mode_arg : Z) (base : Custody)
    : action RAMFS.t unit :=
  let path := StringView.trim_right path (KLexicalPath.sv "/") in
  let path := if StringView.is_empty path then KLexicalPath.sv "/" else path in
  let* (result, parent_custody) :=
    (fun s => (s, with_out_parent (resolve_path_without_veil symlink_recursion_limit s w path base 0 None))) in
  match result, parent_custody with
  | inl _, _ => lift (Err EEXIST)
  | inr e, None => lift (Err e)
  | inr e, Some p =>
      let* _ := RAMFS.verify (bool_decide (e = ENOENT)) in
      let* _ := lift (validate_custody w p O_CREAT) in
      let* parent_metadata := get_metadata p in
      let* _ := fail_if (negb (may_write_to w parent_metadata)) EACCES in
      let* readonly := get_readonly p in
      let* _ := fail_if readonly EROFS in
      let* _ := RAMFS.create_child memory (inode p) (KLexicalPath.basename path) (Z.lor S_IFDIR mode_arg) 0
                  (euid w) (Process.m_egid (credentials w)) in
      ret tt
  end.

Definition access (w : Caller) (path : StringView.t) (mode_arg : Z) (base : Custody) (follow_symlinks effective : bool)
    : action RAMFS.t unit :=
  let* custody := resolve w path base (if follow_symlinks then 0 else O_NOFOLLOW_NOERROR) in
  let* m := get_metadata custody in
  let ids := if effective then Effective else Real in
  let* _ := fail_if (has mode_arg R_OK && negb (may_read m (credentials w) ids)) EACCES in
  let* _ := fail_if (has mode_arg W_OK && negb (may_write m (credentials w) ids)) EACCES in
  let* readonly := get_readonly custody in
  let* _ := fail_if (has mode_arg W_OK && readonly) EROFS in
  fail_if (has mode_arg X_OK && negb (may_execute m (credentials w) ids)) EACCES.

Definition open_directory (w : Caller) (path : StringView.t) (base : Custody) : action RAMFS.t Custody :=
  let* custody := resolve w path base 0 in
  let* m := get_metadata custody in
  let* _ := fail_if (negb (is_directory (mode m))) ENOTDIR in
  let* _ := fail_if (negb (may_execute m (credentials w) Effective)) EACCES in
  ret custody.

Definition chmod_custody (w : Caller) (custody : Custody) (mode_arg : Z) : action RAMFS.t unit :=
  let* m := get_metadata custody in
  let* _ := fail_if (negb (euid w =? uid m) && negb (superuser w)) EPERM in
  let* readonly := get_readonly custody in
  let* _ := fail_if readonly EROFS in
  RAMFS.chmod (inode custody) (Z.lor (Z.land (mode m) (Z.lnot 0xFFF)) (Z.land mode_arg 0xFFF)).

Definition chmod (w : Caller) (path : StringView.t) (mode_arg : Z) (base : Custody) (options : Z) : action RAMFS.t unit :=
  let* custody := resolve w path base options in
  chmod_custody w custody mode_arg.

Abbreviation NO_ID := 0xFFFFFFFF%Z (only parsing).

Definition chown_custody (w : Caller) (custody : Custody) (a_uid a_gid : Z) : action RAMFS.t unit :=
  let* m := get_metadata custody in
  let* _ := fail_if (negb (euid w =? uid m) && negb (superuser w)) EPERM in
  let* _ := fail_if (negb (a_uid =? NO_ID) && negb (euid w =? a_uid) && negb (superuser w)) EPERM in
  let new_uid := if a_uid =? NO_ID then uid m else a_uid in
  let* _ := fail_if (negb (a_gid =? NO_ID) && negb (in_group (credentials w) a_gid) && negb (superuser w)) EPERM in
  let new_gid := if a_gid =? NO_ID then gid m else a_gid in
  let* readonly := get_readonly custody in
  let* _ := fail_if readonly EROFS in
  let* _ := (if is_setuid (mode m) || is_setgid (mode m)
             then RAMFS.chmod (inode custody) (RAMFS.without_setid (mode m)) else ret tt) in
  RAMFS.chown (inode custody) new_uid new_gid.

Definition chown (w : Caller) (path : StringView.t) (a_uid a_gid : Z) (base : Custody) (options : Z) : action RAMFS.t unit :=
  let* custody := resolve w path base options in
  chown_custody w custody a_uid a_gid.

Definition hard_link_allowed (w : Caller) (m : InodeMetadata) : bool :=
  if euid w =? uid m then true else
  if is_regular_file (mode m) && negb (is_setuid (mode m)) &&
     negb (is_setgid (mode m) && has (mode m) S_IXGRP) && may_write_to w m then true else false.

Definition link (w : Caller) (memory : bool) (old_path new_path : StringView.t) (base : Custody) : action RAMFS.t unit :=
  let* old_custody := resolve w old_path base O_RDWR in
  let* (new_custody_or_error, parent_custody) := resolve_with_parent w new_path base 0 in
  match new_custody_or_error, parent_custody with
  | inl _, _ => lift (Err EEXIST)
  | inr _, None => lift (Err ENOENT)
  | inr _, Some p =>
      let* parent_inode := RAMFS.get_inode (inode p) in
      let* old_inode := RAMFS.get_inode (inode old_custody) in
      let* _ := fail_if (negb (RAMFS.m_file_system parent_inode =? RAMFS.m_file_system old_inode)) EXDEV in
      let* _ := fail_if (negb (may_write_to w (RAMFS.m_metadata parent_inode))) EACCES in
      let* _ := fail_if (RAMFS.is_directory_inode old_inode) EPERM in
      let* readonly := get_readonly p in
      let* _ := fail_if readonly EROFS in
      let* _ := fail_if (negb (hard_link_allowed w (RAMFS.m_metadata old_inode))) EPERM in
      RAMFS.add_child memory (inode p) (inode old_custody) (KLexicalPath.basename new_path)
  end.

(** The sticky bit of a directory: neither the directory nor the file is the caller's. *)
Definition protected_by_sticky_bit (w : Caller) (parent_metadata m : InodeMetadata) : bool :=
  is_sticky (mode parent_metadata) && negb (superuser w) &&
  negb (uid parent_metadata =? euid w) && negb (uid m =? euid w).

Definition unlink (w : Caller) (path : StringView.t) (base : Custody) : action RAMFS.t unit :=
  let* (custody_or_error, parent_custody) :=
    resolve_with_parent w path base (Z.lor O_WRONLY (Z.lor O_NOFOLLOW_NOERROR O_UNLINK_INTERNAL)) in
  match custody_or_error with
  | inr e => lift (Err e)
  | inl custody =>
      let* m := get_metadata custody in
      let* _ := fail_if (is_directory (mode m)) EISDIR in
      match parent_custody with
      | None => lift Panic
      | Some p =>
          let* parent_metadata := get_metadata p in
          let* _ := fail_if (negb (may_write_to w parent_metadata)) EACCES in
          let* _ := fail_if (protected_by_sticky_bit w parent_metadata m) EACCES in
          let* readonly := get_readonly p in
          let* _ := fail_if readonly EROFS in
          RAMFS.remove_child (inode p) (KLexicalPath.basename path)
      end
  end.

Definition symlink (w : Caller) (memory : bool * bool) (target linkpath : StringView.t) (base : Custody)
    : action RAMFS.t unit :=
  let* _ := (fun s => match snd (resolve_path_without_veil symlink_recursion_limit s w target base O_RDWR None) with
                      | Ok target_custody => (s, validate_custody w target_custody O_RDWR)
                      | Err _ => (s, Ok tt)
                      | Panic => (s, Panic)
                      | Undefined => (s, Undefined)
                      end) in
  let* (existing_custody_or_error, parent_custody) := resolve_with_parent w linkpath base O_RDWR in
  match existing_custody_or_error, parent_custody with
  | inl _, _ => lift (Err EEXIST)
  | inr _, None => lift (Err ENOENT)
  | inr e, Some p =>
      let* _ := lift (validate_custody w p O_RDWR) in
      let* _ := fail_if (negb (bool_decide (e = ENOENT))) e in
      let* parent_metadata := get_metadata p in
      let* _ := fail_if (negb (may_write_to w parent_metadata)) EACCES in
      let* readonly := get_readonly p in
      let* _ := fail_if readonly EROFS in
      let* i := RAMFS.create_child memory (inode p) (KLexicalPath.basename linkpath) (Z.lor S_IFLNK 0x1A4) 0
                  (euid w) (Process.m_egid (credentials w)) in
      let* _ := RAMFS.write_bytes (supplies w) i 0 (map byte_of target) in
      ret tt
  end.

Definition rmdir (w : Caller) (path : StringView.t) (base : Custody) : action RAMFS.t unit :=
  let* (custody_or_error, parent_custody) := resolve_with_parent w path base O_CREAT in
  match custody_or_error with
  | inr e => lift (Err e)
  | inl custody =>
      let last_component := KLexicalPath.basename path in
      let* _ := fail_if (bool_decide (last_component = KLexicalPath.sv ".")) EINVAL in
      let* m := get_metadata custody in
      let* _ := fail_if (negb (is_directory (mode m))) ENOTDIR in
      match parent_custody with
      | None => lift (Err EBUSY)
      | Some p =>
          let* parent_metadata := get_metadata p in
          let* _ := fail_if (negb (may_write_to w parent_metadata)) EACCES in
          let* _ := fail_if (protected_by_sticky_bit w parent_metadata m) EACCES in
          let* child_count := RAMFS.count_entries (inode custody) in
          let* _ := fail_if (negb (child_count =? 2)) ENOTEMPTY in
          let* readonly := get_readonly custody in
          let* _ := fail_if readonly EROFS in
          RAMFS.remove_child (inode p) (KLexicalPath.basename path)
      end
  end.

(** The loop over the ancestors of the new parent. *)
Fixpoint has_ancestor (new_ancestor : Custody) (i : Z) : bool :=
  (i =? inode new_ancestor) ||
  match new_ancestor with
  | root_custody _ _ _ => false
  | child_custody p _ _ _ => has_ancestor p i
  end.

Definition no_entry_name (basename : StringView.t) : bool :=
  StringView.is_empty basename || bool_decide (basename = KLexicalPath.sv ".") ||
  bool_decide (basename = KLexicalPath.sv "..").

Definition rename (w : Caller) (memory : bool) (old_base : Custody) (old_path : StringView.t) (new_base : Custody)
    (new_path : StringView.t) : action RAMFS.t unit :=
  let* (old_custody_or_error, old_parent_custody) := resolve_with_parent w old_path old_base O_NOFOLLOW_NOERROR in
  match old_custody_or_error with inr e => lift (Err e) | inl old_custody =>
  let* (new_custody_or_error, new_parent_custody) := resolve_with_parent w new_path new_base 0 in
  let* _ := (match new_custody_or_error with
             | inr e => fail_if (negb (bool_decide (e = ENOENT)) || bool_decide (new_parent_custody = None)) e
             | inl _ => ret tt
             end) in
  match old_parent_custody, new_parent_custody with Some old_p, Some new_p =>
  let* old_inode := RAMFS.get_inode (inode old_custody) in
  let* _ := (match new_custody_or_error with
             | inr _ => ret tt
             | inl new_custody =>
                 let* new_inode := RAMFS.get_inode (inode new_custody) in
                 if negb (RAMFS.m_index old_inode =? RAMFS.m_index new_inode) &&
                    RAMFS.is_directory_inode old_inode && RAMFS.is_directory_inode new_inode then
                   let* child_count := RAMFS.count_entries (inode new_custody) in
                   fail_if (2 <? child_count) ENOTEMPTY
                 else ret tt
             end) in
  let* old_parent_inode := RAMFS.get_inode (inode old_p) in
  let* new_parent_inode := RAMFS.get_inode (inode new_p) in
  let* _ := fail_if (negb (RAMFS.m_file_system old_parent_inode =? RAMFS.m_file_system new_parent_inode)) EXDEV in
  let* _ := fail_if (has_ancestor new_p (inode old_custody)) EDIRINTOSELF in
  let* _ := fail_if (negb (may_write_to w (RAMFS.m_metadata new_parent_inode))) EACCES in
  let* _ := fail_if (negb (may_write_to w (RAMFS.m_metadata old_parent_inode))) EACCES in
  let* _ := fail_if (protected_by_sticky_bit w (RAMFS.m_metadata old_parent_inode) (RAMFS.m_metadata old_inode)) EACCES in
  let* old_readonly := get_readonly old_p in
  let* new_readonly := get_readonly new_p in
  let* _ := fail_if (old_readonly || new_readonly) EROFS in
  let old_basename := KLexicalPath.basename old_path in
  let* _ := fail_if (no_entry_name old_basename) EINVAL in
  let new_basename := KLexicalPath.basename new_path in
  let* _ := fail_if (no_entry_name new_basename) EINVAL in
  if bool_decide (old_basename = new_basename) && (RAMFS.m_index old_parent_inode =? RAMFS.m_index new_parent_inode)
  then ret tt else
  match new_custody_or_error with
  | inr _ => RAMFS.rename memory (inode old_p) old_basename (inode new_p) new_basename
  | inl new_custody =>
      if inode new_custody =? inode old_custody then ret tt else
      let* new_metadata := get_metadata new_custody in
      let* _ := fail_if (is_sticky (mode (RAMFS.m_metadata new_parent_inode)) && negb (superuser w) &&
                  negb (uid new_metadata =? euid w)) EACCES in
      let* _ := fail_if (is_directory (mode new_metadata) && negb (RAMFS.is_directory_inode old_inode)) EISDIR in
      RAMFS.rename memory (inode old_p) old_basename (inode new_p) new_basename
  end
  | _, _ => lift (Err EPERM)
  end
  end.
End VFS.
