(* ===== verification/VFSResolve.v ===== *)
(** The resolution of paths: what it finds is a walk from the root through
    directories the caller may search, it ends without failing an assertion,
    and the path of a custody leads back to it. *)

From Stdlib Require Import Ascii String.
From S2P Require Import Prelude StringView LexicalPath Process Unveil RamFile InodeMetadata RamFS VFS.

Module VFSResolve.
Import InodeMetadata VFS.
#[local] Open Scope Z_scope.

(** ** Well-formed stores and callers *)

(** An inode whose entries name inodes and whose contents are a file. *)
Record inode_ok (s : RAMFS.t) (n : RAMFS.Inode) : Prop := {
  ok_children : Forall (fun c => is_Some (RAMFS.inodes s !! snd c)) (RAMFS.m_children n);
  ok_file_system : is_Some (RAMFS.file_systems s !! RAMFS.m_file_system n);
  ok_content : RamFile.inv (RAMFS.m_content n);
  ok_link : is_symlink (mode (RAMFS.m_metadata n)) = true -> RamFile.m_size (RAMFS.m_content n) <= 4096
}.

Definition store_ok (s : RAMFS.t) : Prop := forall i n, RAMFS.inodes s !! i = Some n -> inode_ok s n.

(** The root has no parent, and it and what is mounted exist. *)
Record caller_ok (s : RAMFS.t) (w : Caller) : Prop := {
  ok_root : parent (m_root_custody (vfs_root_context w)) = None;
  ok_root_inode : is_Some (RAMFS.inodes s !! inode (m_root_custody (vfs_root_context w)));
  ok_guests : Forall (fun m => is_Some (RAMFS.inodes s !! guest m)) (mounts (vfs_root_context w))
}.

(** ** Walks from the root *)

Definition searchable (s : RAMFS.t) (w : Caller) (c : Custody) : Prop :=
  exists m, metadata_of s (inode c) = Ok m /\ is_directory (mode m) = true /\
            may_execute m (credentials w) Effective = true.

(** Custodies at the end of a walk from the root: each name is an entry of the
    directory before it, which the caller may search, and stands for what is
    mounted on it if something is. *)
Inductive reaches (s : RAMFS.t) (w : Caller) : Custody -> Prop :=
| reaches_root : reaches s w (m_root_custody (vfs_root_context w))
| reaches_entry p n child i f :
    reaches s w p -> searchable s w p -> KLexicalPath.name n ->
    snd (RAMFS.lookup (inode p) n s) = Ok child ->
    mounted w (child_custody p n child (mount_flags p)) = Ok (child_custody p n i f) ->
    reaches s w (child_custody p n i f).

Fixpoint names (c : Custody) : list StringView.t :=
  match c with
  | root_custody _ _ _ => []
  | child_custody p n _ _ => names p ++ [n]
  end.

Lemma chain_path_names c : chain_path c = KLexicalPath.tail (names c).
Proof.
  induction c as [|p IH n i f]; cbn [chain_path names]; [done|].
  by rewrite KLexicalPath.tail_app, KLexicalPath.tail_one, IH.
Qed.

Lemma serialize_names c : try_serialize_absolute_path c = KLexicalPath.render (names c).
Proof.
  destruct c as [|p n i f]; [done|]. unfold try_serialize_absolute_path. cbn [parent].
  rewrite chain_path_names. cbn [names]. by destruct (names p).
Qed.

Lemma validate_names d ns options :
  Forall KLexicalPath.name ns -> no_crash (Unveil.validate_path_against_process_veil d (KLexicalPath.render ns) options).
Proof.
  intros F. unfold Unveil.validate_path_against_process_veil.
  destruct (bool_decide_reflect (Unveil.state d = Unveil.NoVeil)) as [E|E]; [done|].
  destruct (Unveil.canonical_checks _ F) as (-> & -> & -> & -> & ->). cbn [negb andb].
  unfold Unveil.find_matching_unveiled_path. rewrite bool_decide_false by done. cbn [negb bind].
  rewrite Unveil.parts_render by done. cbn [bind]. unfold Unveil.check_permissions.
  repeat match goal with |- no_crash (if ?b then _ else _) => destruct b end; done.
Qed.

(** What resolution keeps of the custodies it goes through: [good] holds of them,
    and [par] of the parents it reports. *)
Record walkable (s : RAMFS.t) (w : Caller) (good par : Custody -> Prop) : Prop := {
  walk_root : good (m_root_custody (vfs_root_context w));
  walk_entry p n child i f :
    good p -> searchable s w p -> KLexicalPath.name n -> snd (RAMFS.lookup (inode p) n s) = Ok child ->
    mounted w (child_custody p n child (mount_flags p)) = Ok (child_custody p n i f) ->
    good (child_custody p n i f);
  walk_parent c q : good c -> parent c = Some q -> par q;
  walk_searched c : good c -> searchable s w c -> par c;
  walk_good c : par c -> good c;
  walk_exists c : good c -> is_Some (RAMFS.inodes s !! inode c);
  walk_names c : good c -> Forall KLexicalPath.name (names c)
}.

Section Walks.
Context (s : RAMFS.t) (w : Caller).
Context (Hs : store_ok s) (Hw : caller_ok s w).

Lemma mount_on_in ms c m : mount_on ms c = Some m -> m ∈ ms.
Proof.
  induction ms as [|m' ms IH]; cbn [mount_on]; [done|].
  destruct (host_custody m') as [h|]; [destruct (check_matching_absolute_path_hierarchy h c)|].
  - intros [= ->]. apply list_elem_of_here.
  - intros H. apply list_elem_of_further. by apply IH.
  - intros H. apply list_elem_of_further. by apply IH.
Qed.

Lemma find_child_in name cs i : RAMFS.find_child_by_name name cs = Some i -> (name, i) ∈ cs.
Proof.
  induction cs as [|[n j] cs IH]; cbn [RAMFS.find_child_by_name]; [done|].
  destruct (bool_decide_reflect (n = name)) as [->|N].
  - intros [= ->]. apply list_elem_of_here.
  - intros H. apply list_elem_of_further. by apply IH.
Qed.

(** [lookup] of an entry of a directory. *)
Lemma lookup_entry d n m name :
  RAMFS.inodes s !! d = Some n -> m = RAMFS.m_metadata n -> is_directory (mode m) = true -> KLexicalPath.name name ->
  snd (RAMFS.lookup d name s) =
    match RAMFS.find_child_by_name name (RAMFS.m_children n) with Some i => Ok i | None => Err ENOENT end.
Proof.
  intros E -> Hd (_ & _ & N1 & N2). unfold RAMFS.lookup, RAMFS.get_inode, abind. rewrite E.
  unfold RAMFS.verify, RAMFS.is_directory_inode. rewrite Hd. cbn [lift].
  rewrite bool_decide_eq_false_2, bool_decide_eq_false_2 by done. by destruct (RAMFS.find_child_by_name _ _).
Qed.

Lemma searchable_lookup p n :
  searchable s w p -> KLexicalPath.name n ->
  match snd (RAMFS.lookup (inode p) n s) with
  | Ok child => is_Some (RAMFS.inodes s !! child)
  | Err e => e = ENOENT
  | _ => False
  end.
Proof.
  intros (m & E & Hd & _) Hn. unfold metadata_of in E. destruct (RAMFS.inodes s !! inode p) as [d|] eqn:Ed; [|done].
  injection E as <-. rewrite (lookup_entry _ d _ n Ed eq_refl Hd Hn).
  destruct (RAMFS.find_child_by_name n (RAMFS.m_children d)) as [i|] eqn:F; [|done].
  apply find_child_in in F. assert (C := ok_children _ _ (Hs _ _ Ed)). rewrite Forall_forall in C.
  exact (C _ F).
Qed.

Lemma mounted_entry p n child f :
  is_Some (RAMFS.inodes s !! child) ->
  exists i f', mounted w (child_custody p n child f) = Ok (child_custody p n i f') /\ is_Some (RAMFS.inodes s !! i).
Proof.
  intros Hc. unfold mounted, current_mount_state_for_host_custody. cbn [parent].
  destruct (mount_on (mounts (vfs_root_context w)) _) as [m|] eqn:E; [|eauto].
  apply mount_on_in in E. assert (G := ok_guests _ _ Hw). rewrite Forall_forall in G. eauto.
Qed.

Context (good par : Custody -> Prop) (W : walkable s w good par).

Definition parent_ok (p : option Custody) : Prop := forall q, p = Some q -> par q.

Lemma good_parent c : good c -> parent_ok (parent c).
Proof. intros H q Hq. by eapply (walk_parent _ _ _ _ W). Qed.

Lemma validate_total c options : good c -> no_crash (validate_custody w c options).
Proof.
  intros H. unfold validate_custody. destruct (bool_decide _); [done|]. rewrite serialize_names.
  apply validate_names, (walk_names _ _ _ _ W c H).
Qed.

Lemma read_until_total fuel m f offset n :
  RamFile.inv f -> 0 <= offset -> (Z.to_nat n <= fuel)%nat -> no_crash (read_until_filled_or_end fuel m f offset n).
Proof.
  intros Hf. revert offset n. induction fuel as [|fuel IH]; intros offset n Ho Hn; cbn [read_until_filled_or_end].
  { rewrite (proj2 (Z.leb_le n 0)) by lia. done. }
  destruct (Z.leb_spec n 0) as [L|L]; [done|].
  destruct (RamFile.read_exact m f offset n Hf Ho ltac:(lia)) as [->|[_ ->]]; [|done]. cbn [bind].
  destruct (take _ _) as [|b l] eqn:E; [done|]. rewrite <- E.
  assert (P : (0 < length (take (Z.to_nat n) (drop (Z.to_nat offset) (RamFile.contents f))))%nat) by (rewrite E; cbn; lia).
  set (k := Z.of_nat (length _)) in *. specialize (IH (offset + k) (n - k) ltac:(lia) ltac:(lia)).
  by destruct (read_until_filled_or_end _ _ _ _ _).
Qed.

Lemma link_target_total link n :
  RAMFS.inodes s !! link = Some n -> is_symlink (mode (RAMFS.m_metadata n)) = true -> no_crash (link_target s w link).
Proof.
  intros E L. unfold link_target. rewrite E. assert (O := Hs _ _ E).
  rewrite (proj2 (Z.leb_le _ _) (ok_link _ _ O L)).
  assert (R := read_until_total (S (Z.to_nat 4096)) (supplies w) (RAMFS.m_content n) 0 4096 (ok_content _ _ O)).
  specialize (R ltac:(lia) ltac:(lia)). by destruct (read_until_filled_or_end _ _ _ _ _).
Qed.

(** ** Soundness *)

(** A resolution that was given a good parent: the custody it returns is at the
    end of a walk and the parent it leaves is that custody's; after an error
    the parent it leaves is a directory at the end of a walk. *)
Definition sound (m : action (option Custody) Custody) : Prop :=
  forall out, parent_ok out ->
    match m out with
    | (p, Ok c) => good c /\ p = parent c
    | (p, Err _) => parent_ok p
    | _ => False
    end.

Lemma sound_err e : sound (lift (Err e)).
Proof. intros out H. exact H. Qed.

Lemma sound_found c : good c -> sound (fun _ => (parent c, Ok c)).
Proof. intros H out _. done. Qed.

Lemma sound_lift {A} (o : outcome A) k :
  no_crash o -> (forall a, o = Ok a -> sound (k a)) -> sound (let* a := lift o in k a).
Proof. intros F H out Ho. unfold abind, lift. destruct o as [a|e| |]; [by apply (H a eq_refl)|done|done|done]. Qed.

Lemma sound_unveiled options m : sound m -> sound (unveiled w options m).
Proof.
  intros H out Ho. unfold unveiled. specialize (H out Ho). destruct (m out) as [p [c|e| |]]; [|done|done|done].
  destruct H as [Hc ->]. assert (V := validate_total c options Hc).
  by destruct (validate_custody w c options).
Qed.

Lemma lex_plain path : Forall (fun x => KLexicalPath.slash ∉ fst x) (lex path).
Proof.
  induction path as [|c path IH]; cbn [lex]; [apply Forall_singleton, not_elem_of_nil|].
  destruct (Ascii.eqb_spec c KLexicalPath.slash) as [E|E].
  - apply Forall_cons. split; [apply not_elem_of_nil|done].
  - destruct (lex path) as [|[part after] l]; [done|]. apply Forall_cons in IH as [H1 H2]. apply Forall_cons.
    split; [|done]. cbn [fst] in *. apply not_elem_of_cons. split; [congruence|done].
Qed.

Lemma part_name part :
  KLexicalPath.slash ∉ part -> part <> KLexicalPath.sv ".." ->
  bool_decide (part = KLexicalPath.sv ".") || StringView.is_empty part = false -> KLexicalPath.name part.
Proof.
  intros H1 H2 [H3 H4]%orb_false_iff. apply bool_decide_eq_false in H3. unfold StringView.is_empty in H4.
  apply bool_decide_eq_false in H4. done.
Qed.

Lemma sound_resolve_as_link options again link base n :
  RAMFS.inodes s !! link = Some n -> is_symlink (mode (RAMFS.m_metadata n)) = true ->
  (forall path, sound (again path base)) -> sound (resolve_as_link s w options again link base).
Proof.
  intros E L H. unfold resolve_as_link. apply sound_lift; [by eapply link_target_total|].
  intros target _. by apply sound_unveiled.
Qed.

Lemma sound_walk options again parts custody :
  (forall path base, good base -> sound (again path base)) ->
  Forall (fun x => KLexicalPath.slash ∉ fst x) parts ->
  good custody -> sound (walk s w options again custody parts).
Proof.
  intros Hag Hparts. revert custody. induction Hparts as [|[part after] parts Hp _ IH]; intros custody Hc; cbn [walk].
  { by apply sound_found. }
  destruct (walk_exists _ _ _ _ W _ Hc) as [d Ed]. unfold metadata_of at 1. rewrite Ed.
  apply sound_lift; [done|]. intros m [= <-].
  destruct (is_directory (mode (RAMFS.m_metadata d))) eqn:Hd; cbn [negb]; [|apply sound_err].
  destruct (may_execute (RAMFS.m_metadata d) (credentials w) Effective) eqn:Hx; cbn [negb]; [|apply sound_err].
  assert (Hsr : searchable s w custody) by (exists (RAMFS.m_metadata d); unfold metadata_of; by rewrite Ed).
  destruct (bool_decide_reflect (part = KLexicalPath.sv "..")) as [Hdd|Hdd].
  { destruct (parent custody) as [q|] eqn:Eq; apply IH; [|done]. by eapply (walk_good _ _ _ _ W), good_parent. }
  destruct (bool_decide (part = KLexicalPath.sv ".") || StringView.is_empty part) eqn:Hdot; [by apply IH|].
  assert (Hn := part_name part Hp Hdd Hdot). assert (L := searchable_lookup custody part Hsr Hn).
  destruct (snd (RAMFS.lookup (inode custody) part s)) as [child|e| |] eqn:El; [|clear L|done|done].
  2:{ intros out _ q. destruct (negb _); [done|]. intros [= <-]. by apply (walk_searched _ _ _ _ W). }
  destruct (mounted_entry custody part child (mount_flags custody) L) as (i & f & Em & [n En]). rewrite Em.
  apply sound_lift; [done|]. intros c [= <-]. cbn [inode]. unfold metadata_of. rewrite En.
  apply sound_lift; [done|]. intros m [= <-].
  assert (Hr : good (child_custody custody part i f)) by (by eapply (walk_entry _ _ _ _ W)).
  destruct (is_symlink (mode (RAMFS.m_metadata n))) eqn:Hl; [|by apply IH].
  destruct (_ && has options O_NOFOLLOW); [apply sound_err|].
  destruct (_ && has options O_NOFOLLOW_NOERROR); [by apply (sound_found (child_custody custody part i f))|].
  destruct (negb (safe_to_follow_symlink _ _ _)); [apply sound_err|].
  apply sound_lift; [by apply validate_total|]. intros _ _ out Ho. unfold abind.
  assert (R := sound_resolve_as_link options again i custody n En Hl (fun path => Hag path custody Hc) out Ho).
  destruct (resolve_as_link s w options again i custody out) as [p [t|e| |]]; [|done|done|done].
  destruct R as [Ht ->]. destruct (negb (negb _)); [done|]. apply Hag; [done|]. by apply good_parent.
Qed.

Lemma sound_resolve levels options path base :
  good base -> sound (resolve_path_without_veil levels s w path base options).
Proof.
  revert path base. induction levels as [|levels IH]; intros path base Hb; cbn [resolve_path_without_veil]; [apply sound_err|].
  destruct path as [|c path]; [apply sound_err|]. apply sound_walk; [auto|apply lex_plain|].
  destruct (Ascii.eqb _ _); [apply (walk_root _ _ _ _ W)|done].
Qed.

Lemma sound_resolve_path options path base : good base -> sound (resolve_path s w path base options).
Proof. intros H. by apply sound_unveiled, sound_resolve. Qed.
End Walks.

Lemma resolve_path_validated s w path base options out :
  match resolve_path s w path base options out with
  | (_, Ok c) => validate_custody w c options = Ok tt
  | _ => True
  end.
Proof.
  unfold resolve_path, unveiled. destruct (resolve_path_without_veil _ _ _ _ _ _ _) as [p [c|e| |]]; [|done..].
  by destruct (validate_custody w c options) as [[]|e| |] eqn:V.
Qed.


(** ** Walks from the root *)

Lemma reaches_names s w c : caller_ok s w -> reaches s w c -> Forall KLexicalPath.name (names c).
Proof.
  intros Hw. induction 1 as [|p n child i f _ IH _ Hn _ _]; cbn [names].
  - assert (R := ok_root _ _ Hw). by destruct (m_root_custody (vfs_root_context w)).
  - apply Forall_app. split; [done|]. by apply Forall_singleton.
Qed.

Lemma entry_exists s w p n child i f :
  store_ok s -> caller_ok s w -> searchable s w p -> KLexicalPath.name n -> snd (RAMFS.lookup (inode p) n s) = Ok child ->
  mounted w (child_custody p n child (mount_flags p)) = Ok (child_custody p n i f) -> is_Some (RAMFS.inodes s !! i).
Proof.
  intros Hs Hw Hsr Hn El Em. assert (L := searchable_lookup s w Hs p n Hsr Hn). rewrite El in L.
  destruct (mounted_entry s w Hw p n child (mount_flags p) L) as (i' & f' & E & Hi). rewrite Em in E. by injection E as <- <-.
Qed.

Lemma reaches_exists s w c : store_ok s -> caller_ok s w -> reaches s w c -> is_Some (RAMFS.inodes s !! inode c).
Proof. intros Hs Hw. destruct 1 as [|p n child i f Hp Hsr Hn El Em]; [apply Hw|]. by eapply entry_exists. Qed.

Lemma reaches_walkable s w :
  store_ok s -> caller_ok s w -> walkable s w (reaches s w) (fun q => reaches s w q /\ searchable s w q).
Proof.
  intros Hs Hw. constructor.
  - apply reaches_root.
  - intros. by eapply reaches_entry.
  - intros c q H Hq. destruct H as [|p n child i f Hp Hsr _ _ _]; [by rewrite (ok_root _ _ Hw) in Hq|].
    by injection Hq as <-.
  - done.
  - by intros c [H _].
  - intros c. by apply reaches_exists.
  - intros c. by apply reaches_names.
Qed.

(** C6: whatever the path, its links and mounts, the resolution ends without
    failing an assertion.  What it returns is at the end of a walk from the
    root in which each name is an entry of a directory that the caller may
    search, and the veil of the process allows it; the parent it reports is the
    last directory of that walk.  After an error a reported parent is a
    directory at the end of such a walk. *)
Theorem resolve_path_sound s w path base options :
  store_ok s -> caller_ok s w -> reaches s w base ->
  match resolve_path s w path base options None with
  | (p, Ok c) => reaches s w c /\ p = parent c /\ validate_custody w c options = Ok tt
  | (p, Err _) => forall q, p = Some q -> reaches s w q /\ searchable s w q
  | _ => False
  end.
Proof.
  intros Hs Hw Hb. assert (W := reaches_walkable s w Hs Hw).
  assert (U := sound_resolve_path s w Hs Hw _ _ W options path base Hb None ltac:(done)).
  assert (V := resolve_path_validated s w path base options None).
  destruct (resolve_path _ _ _ _ _ _) as [p [c|e| |]]; [|done..]. destruct U as [U1 U2]. by rewrite V.
Qed.

(** ** The path of a custody *)

(** No part of the walk is a symbolic link. *)
Fixpoint no_links (s : RAMFS.t) (c : Custody) : Prop :=
  match c with
  | root_custody _ _ _ => True
  | child_custody p _ i _ =>
      no_links s p /\ forall m, metadata_of s i = Ok m -> is_symlink (mode m) = false
  end.

(** A walk, from its beginning on. *)
Inductive extends (s : RAMFS.t) (w : Caller) : Custody -> list StringView.t -> Custody -> Prop :=
| extends_nil c : extends s w c [] c
| extends_cons p n child i f m ns c :
    searchable s w p -> KLexicalPath.name n -> snd (RAMFS.lookup (inode p) n s) = Ok child ->
    mounted w (child_custody p n child (mount_flags p)) = Ok (child_custody p n i f) ->
    metadata_of s i = Ok m -> is_symlink (mode m) = false ->
    extends s w (child_custody p n i f) ns c -> extends s w p (n :: ns) c.

Lemma extends_snoc s w p ns q n child i f m :
  extends s w p ns q -> searchable s w q -> KLexicalPath.name n -> snd (RAMFS.lookup (inode q) n s) = Ok child ->
  mounted w (child_custody q n child (mount_flags q)) = Ok (child_custody q n i f) ->
  metadata_of s i = Ok m -> is_symlink (mode m) = false ->
  extends s w p (ns ++ [n]) (child_custody q n i f).
Proof.
  induction 1 as [q|]; intros; cbn [app]; econstructor; eauto. constructor.
Qed.

Lemma reaches_extends s w c :
  store_ok s -> caller_ok s w -> reaches s w c -> no_links s c ->
  extends s w (m_root_custody (vfs_root_context w)) (names c) c.
Proof.
  intros Hs Hw. induction 1 as [|p n child i f Hp IH Hsr Hn El Em]; intros Hl.
  - assert (R := ok_root _ _ Hw). destruct (m_root_custody (vfs_root_context w)); [constructor|done].
  - destruct Hl as [Hl1 Hl2]. cbn [names].
    assert (E : is_Some (RAMFS.inodes s !! i)) by (by eapply entry_exists).
    destruct E as [x E]. assert (M : metadata_of s i = Ok (RAMFS.m_metadata x)) by (unfold metadata_of; by rewrite E).
    eapply extends_snoc; eauto.
Qed.

(** The parts of the path with these names, from the second on. *)
Fixpoint parts_of (ns : list StringView.t) : list (StringView.t * StringView.t) :=
  match ns with
  | [] => []
  | n :: ns => (n, KLexicalPath.tail ns) :: parts_of ns
  end.

Lemma lex_skip n y :
  KLexicalPath.slash ∉ n -> lex (n ++ KLexicalPath.slash :: y) = (n, KLexicalPath.slash :: y) :: lex y.
Proof.
  induction n as [|c n IH]; intros H; cbn [app lex]; [done|]. apply not_elem_of_cons in H as [H1 H2].
  destruct (Ascii.eqb_spec c KLexicalPath.slash); [congruence|]. by rewrite IH.
Qed.

Lemma lex_last n : KLexicalPath.slash ∉ n -> lex n = [(n, [])].
Proof.
  induction n as [|c n IH]; intros H; cbn [lex]; [done|]. apply not_elem_of_cons in H as [H1 H2].
  destruct (Ascii.eqb_spec c KLexicalPath.slash); [congruence|]. by rewrite IH.
Qed.

Lemma lex_names n ns :
  KLexicalPath.slash ∉ n -> Forall KLexicalPath.name ns ->
  lex (n ++ KLexicalPath.tail ns) = (n, KLexicalPath.tail ns) :: parts_of ns.
Proof.
  intros Hn H. revert n Hn. induction H as [|m ns (Hm0 & Hm & _) _ IH]; intros n Hn.
  - cbn. rewrite app_nil_r. by apply lex_last.
  - change (KLexicalPath.tail (m :: ns)) with (KLexicalPath.slash :: m ++ KLexicalPath.tail ns).
    rewrite lex_skip by done. by rewrite IH.
Qed.

Lemma walk_extends s w options again p ns c out :
  extends s w p ns c -> walk s w options again p (parts_of ns) out = (parent c, Ok c).
Proof.
  intros H. revert out. induction H as [c|p n child i f m ns c (pm & E & Hd & Hx) Hn El Em M Hl _ IH]; intros out; [done|].
  cbn [parts_of walk]. rewrite E. unfold abind at 1. cbn [lift]. rewrite Hd, Hx. cbn [negb].
  destruct Hn as (N1 & N2 & N3 & N4). rewrite bool_decide_eq_false_2 by done.
  rewrite bool_decide_eq_false_2 by done. unfold StringView.is_empty. rewrite bool_decide_eq_false_2 by done. cbn [orb].
  rewrite El, Em. unfold abind at 1. cbn [lift inode]. rewrite M. unfold abind at 1. cbn [lift]. rewrite Hl. apply IH.
Qed.

(** C31: the path of a custody leads back to it: when no part of the walk to it is
    a symbolic link, the caller may search the root, and the veil allows the
    custody, resolving its absolute path from anywhere returns the custody and
    its parent, whatever the options. *)
Theorem resolve_path_roundtrip s w c base options :
  store_ok s -> caller_ok s w -> reaches s w c -> no_links s c ->
  searchable s w (m_root_custody (vfs_root_context w)) -> validate_custody w c options = Ok tt ->
  resolve_path s w (try_serialize_absolute_path c) base options None = (parent c, Ok c).
Proof.
  intros Hs Hw Hc Hl Hr Hv. unfold resolve_path, unveiled.
  assert (E : resolve_path_without_veil symlink_recursion_limit s w (try_serialize_absolute_path c) base options None
              = (parent c, Ok c)); [|by rewrite E, Hv].
  assert (X := reaches_extends s w c Hs Hw Hc Hl). assert (F := reaches_names s w c Hw Hc).
  rewrite serialize_names. destruct Hr as (rm & Er & Hd & Hx). unfold symlink_recursion_limit. cbn [resolve_path_without_veil].
  destruct (names c) as [|n ns] eqn:En.
  - inversion X as [z Hz|]; subst. cbn [KLexicalPath.render]. rewrite (Ascii.eqb_refl KLexicalPath.slash).
    cbn [lex]. rewrite (Ascii.eqb_refl KLexicalPath.slash). cbn [walk].
    rewrite Er. unfold abind at 1. cbn [lift]. rewrite Hd, Hx. cbn [negb].
    by unfold abind; cbn [lift]; rewrite Hd, Hx.
  - change (KLexicalPath.render (n :: ns)) with (KLexicalPath.slash :: n ++ KLexicalPath.tail ns).
    cbv beta iota zeta. rewrite (Ascii.eqb_refl KLexicalPath.slash). cbn [lex]. rewrite (Ascii.eqb_refl KLexicalPath.slash).
    inversion F as [|? ? (F0 & F1 & F2) F3]; subst. rewrite lex_names by done.
    change ((n, KLexicalPath.tail ns) :: parts_of ns) with (parts_of (n :: ns)). cbn [walk].
    rewrite Er. unfold abind at 1. cbn [lift]. rewrite Hd, Hx. cbn [negb]. by apply walk_extends.
Qed.
(** ** A small file system *)

Module Sample.
Definition sv : string -> StringView.t := StringView.of_string.

(** A file with these bytes, written into an empty one. *)
Definition written (data : StringView.t) : RamFile.t :=
  fst (RamFile.write_bytes_locked RamFile.plenty 0 (map (fun c => Z.of_nat (nat_of_ascii c)) data) (RamFile.file [] 0)).

Definition node (index mode owner parent : Z) (cs : list (StringView.t * Z)) (f : RamFile.t) : RAMFS.Inode :=
  RAMFS.inode 1 index (metadata mode owner owner 0 0) (Some parent) (index =? 1) cs f.

Definition empty : RamFile.t := RamFile.file [] 0.

(** The root, sticky and writable by all, "/home" and "/home/f" of the user 100, and the link "/l" to "home". *)
Definition store : RAMFS.t :=
  RAMFS.store
    {[ 1 := node 1 (0x4000 + 0x3ff) 0 1 [(sv "home", 2); (sv "l", 3)] empty;
       2 := node 2 (0x4000 + 0x1ed) 100 1 [(sv "f", 4)] empty;
       3 := node 3 (0xA000 + 0x1a4) 0 1 [] (written (sv "home"));
       4 := node 4 (0x8000 + 0x1a4) 100 2 [] empty ]}
    {[ 1 := RAMFS.file_system 5 1 false ]}.

Definition root : Custody := root_custody [] 1 0.
Definition home : Custody := child_custody root (sv "home") 2 0.
Definition f : Custody := child_custody home (sv "f") 4 0.

(** A process of the user [u]. *)
Definition process (u : Z) : Caller :=
  caller (context root [mount 1 None 0]) (Unveil.data Unveil.NoVeil Unveil.fresh_node)
    (Process.credentials u u u u u u [] 0 0) RamFile.plenty.

Lemma empty_inv : RamFile.inv empty.
Proof. constructor; cbn; [lia|lia|done]. Qed.

Lemma link_inv : RamFile.inv (written (sv "home")).
Proof.
  unfold written. destruct (RamFile.write_bytes_locked _ _ _ _) as [x r] eqn:E.
  apply RamFile.write_exact in E as [H _]; [done|apply empty_inv|lia|done|cbn; lia].
Qed.

Lemma store_ok_sample : store_ok store.
Proof.
  intros i n E. cbn [RAMFS.inodes store] in E.
  repeat (apply lookup_insert_Some in E as [[<- <-]|[_ E]]); [..|apply lookup_singleton_Some in E as [<- <-]];
    constructor; cbn [RAMFS.m_children RAMFS.m_content node]; try apply empty_inv; try apply link_inv; try (by vm_compute);
    try (by eexists); repeat constructor; by eexists.
Qed.

Lemma caller_ok_sample u : caller_ok store (process u).
Proof. constructor; [done|by eexists|]. apply Forall_singleton. by eexists. Qed.

Lemma name_sample n : bool_decide (n <> [] /\ (KLexicalPath.slash ∉ n) /\ n <> sv "." /\ n <> sv "..") = true -> KLexicalPath.name n.
Proof. intros H. by apply bool_decide_eq_true in H. Qed.

Lemma searchable_root : searchable store (process 7) root.
Proof. eexists. split; [reflexivity|]. by vm_compute. Qed.

Lemma searchable_home : searchable store (process 7) home.
Proof. eexists. split; [reflexivity|]. by vm_compute. Qed.

Lemma reaches_f : reaches store (process 7) f.
Proof.
  apply (reaches_entry _ _ home _ 4); [|apply searchable_home|by apply name_sample|done|done].
  apply (reaches_entry _ _ root _ 2); [|apply searchable_root|by apply name_sample|done|done].
  apply (reaches_root store (process 7)).
Qed.
End Sample.

(** The user 7 resolves "/l/f" through the link. *)
Lemma resolve_path_sound_witness :
  resolve_path Sample.store (Sample.process 7) (Sample.sv "/l/f") Sample.root O_RDONLY None = (Some Sample.home, Ok Sample.f) /\
  reaches Sample.store (Sample.process 7) Sample.f.
Proof.
  assert (H := resolve_path_sound Sample.store (Sample.process 7) (Sample.sv "/l/f") Sample.root O_RDONLY
                 Sample.store_ok_sample (Sample.caller_ok_sample 7) (reaches_root Sample.store (Sample.process 7))).
  assert (E : resolve_path Sample.store (Sample.process 7) (Sample.sv "/l/f") Sample.root O_RDONLY None
              = (Some Sample.home, Ok Sample.f)) by (vm_compute; reflexivity).
  rewrite E in H. split; [exact E|apply H].
Defined.

Lemma resolve_path_roundtrip_witness :
  resolve_path Sample.store (Sample.process 7) (Sample.sv "/home/f") Sample.home O_RDONLY None = (Some Sample.home, Ok Sample.f).
Proof.
  apply (resolve_path_roundtrip Sample.store (Sample.process 7) Sample.f Sample.home O_RDONLY);
    [apply Sample.store_ok_sample|apply Sample.caller_ok_sample|apply Sample.reaches_f| |apply Sample.searchable_root|reflexivity].
  repeat split; intros m [= <-]; reflexivity.
Defined.
End VFSResolve.
