(* ===== verification/VFSAccess.v ===== *)
(** Access control in the virtual file system: what the calls of a process can
    change, one by one and in sequence, and which of them can fail an assertion. *)

From Stdlib Require Import Ascii String.
From S2P Require Import Prelude StringView LexicalPath Process Unveil RamFile InodeMetadata RamFS VFS VFSResolve.

Module VFSAccess.
Import InodeMetadata VFS VFSResolve.
#[local] Open Scope Z_scope.

(** ** Custodies that are held

    Files move, and a process can hold a custody whose path no longer leads to
    it.  Its inodes still exist. *)

Definition is_dir (s : RAMFS.t) (i : Z) : Prop :=
  exists n, RAMFS.inodes s !! i = Some n /\ RAMFS.is_directory_inode n = true.

Fixpoint alive (s : RAMFS.t) (c : Custody) : Prop :=
  match c with
  | root_custody _ i _ => is_dir s i
  | child_custody p n i _ => alive s p /\ is_dir s (inode p) /\ KLexicalPath.name n /\ is_Some (RAMFS.inodes s !! i)
  end.

Definition alive_dir (s : RAMFS.t) (c : Custody) : Prop := alive s c /\ is_dir s (inode c).

(** A store and a caller whose root is a directory. *)
Record standing (s : RAMFS.t) (w : Caller) : Prop := {
  standing_store : store_ok s;
  standing_caller : caller_ok s w;
  standing_root : alive s (m_root_custody (vfs_root_context w))
}.

Lemma searchable_is_dir s w c : searchable s w c -> is_dir s (inode c).
Proof.
  intros (m & E & Hd & _). unfold metadata_of in E. destruct (RAMFS.inodes s !! inode c) as [n|] eqn:En; [|done].
  injection E as <-. exists n. done.
Qed.

Lemma alive_walkable s w : standing s w -> walkable s w (alive s) (alive_dir s).
Proof.
  intros [Hs Hw Hr]. constructor.
  - done.
  - intros p n child i f Hp Hsr Hn El Em. cbn [alive]. split; [done|]. split; [by eapply searchable_is_dir|].
    split; [done|]. by eapply entry_exists.
  - intros [|p n i f] q H Hq; [done|]. injection Hq as <-. destruct H as (H1 & H2 & _). done.
  - intros c H Hsr. split; [done|]. by eapply searchable_is_dir.
  - by intros c [H _].
  - intros [n i f|p n i f] H; cbn [inode]; [destruct H as (x & -> & _); by eexists|by destruct H as (_ & _ & _ & H)].
  - induction c as [|p IH n i f]; cbn [alive names]; [done|]. intros (H1 & _ & H2 & _).
    apply Forall_app. split; [by apply IH|]. by apply Forall_singleton.
Qed.

(** ** Calls *)

Inductive Call : Type :=
| Open (memory : bool * bool) (device_open : InodeMetadata -> outcome unit) (path : StringView.t) (options mode_arg : Z) (base : Custody)
| Mknod (memory : bool * bool) (path : StringView.t) (mode_arg dev : Z) (base : Custody)
| Mkdir (memory : bool * bool) (path : StringView.t) (mode_arg : Z) (base : Custody)
| Access (path : StringView.t) (mode_arg : Z) (base : Custody) (follow_symlinks effective : bool)
| OpenDirectory (path : StringView.t) (base : Custody)
| Chmod (path : StringView.t) (mode_arg : Z) (base : Custody) (options : Z)
| Chown (path : StringView.t) (a_uid a_gid : Z) (base : Custody) (options : Z)
| Link (memory : bool) (old_path new_path : StringView.t) (base : Custody)
| Unlink (path : StringView.t) (base : Custody)
| Symlink (memory : bool * bool) (target linkpath : StringView.t) (base : Custody)
| Rmdir (path : StringView.t) (base : Custody)
| Rename (memory : bool) (old_base : Custody) (old_path : StringView.t) (new_base : Custody) (new_path : StringView.t).

Definition run_call (w : Caller) (c : Call) : action RAMFS.t unit :=
  match c with
  | Open memory device_open path options mode_arg base =>
      let* _ := open w memory device_open path options mode_arg base None in ret tt
  | Mknod memory path mode_arg dev base => mknod w memory path mode_arg dev base
  | Mkdir memory path mode_arg base => mkdir w memory path mode_arg base
  | Access path mode_arg base follow_symlinks effective => access w path mode_arg base follow_symlinks effective
  | OpenDirectory path base => let* _ := open_directory w path base in ret tt
  | Chmod path mode_arg base options => chmod w path mode_arg base options
  | Chown path a_uid a_gid base options => chown w path a_uid a_gid base options
  | Link memory old_path new_path base => link w memory old_path new_path base
  | Unlink path base => unlink w path base
  | Symlink memory target linkpath base => symlink w memory target linkpath base
  | Rmdir path base => rmdir w path base
  | Rename memory old_base old_path new_base new_path => rename w memory old_base old_path new_base new_path
  end.

(** Arguments as the system calls pass them: custodies that are held, the text
    of a link within the length of a path, a device that answers. *)
Definition call_ok (s : RAMFS.t) (c : Call) : Prop :=
  match c with
  | Open _ device_open _ _ _ base => alive s base /\ forall m, no_crash (device_open m)
  | Mknod _ _ _ _ base | Mkdir _ _ _ base | Access _ _ base _ _ | OpenDirectory _ base | Chmod _ _ base _
  | Chown _ _ _ base _ | Link _ _ _ base | Unlink _ base | Rmdir _ base => alive s base
  | Symlink _ target _ base => alive s base /\ target <> [] /\ Z.of_nat (length target) <= 4096
  | Rename _ old_base _ new_base _ => alive s old_base /\ alive s new_base
  end.

(** Calls that can fail an assertion: [mkdir], [rename], and the creation of a
    file whose path ends in no name of an entry, but in "." or "..". *)
Definition may_panic (c : Call) : Prop :=
  match c with
  | Mkdir _ _ _ _ | Rename _ _ _ _ _ => True
  | Open _ _ path options _ _ => has options O_CREAT = true /\ ~ KLexicalPath.name (KLexicalPath.basename path)
  | _ => False
  end.

(** ** Changes *)

(** A change of the store: metadata change as [R] says, entries where [K] holds,
    contents where [F] holds, and new inodes have metadata with [N].  Inodes keep
    their identity and their type; file systems stay. *)
Record changed (R : Z -> InodeMetadata -> InodeMetadata -> Prop) (K F : Z -> Prop)
    (i : Z) (n n' : RAMFS.Inode) : Prop := {
  changed_file_system : RAMFS.m_file_system n' = RAMFS.m_file_system n;
  changed_index : RAMFS.m_index n' = RAMFS.m_index n;
  changed_type : Z.land (mode (RAMFS.m_metadata n')) S_IFMT = Z.land (mode (RAMFS.m_metadata n)) S_IFMT;
  changed_metadata : RAMFS.m_metadata n' = RAMFS.m_metadata n \/ R i (RAMFS.m_metadata n) (RAMFS.m_metadata n');
  changed_children : RAMFS.m_children n' = RAMFS.m_children n \/ K i;
  changed_content : RAMFS.m_content n' = RAMFS.m_content n \/ F i
}.

Record frame (R : Z -> InodeMetadata -> InodeMetadata -> Prop) (K F : Z -> Prop) (N : InodeMetadata -> Prop)
    (s s' : RAMFS.t) : Prop := {
  frame_old i n : RAMFS.inodes s !! i = Some n -> exists n', RAMFS.inodes s' !! i = Some n' /\ changed R K F i n n';
  frame_new i n' : RAMFS.inodes s !! i = None -> RAMFS.inodes s' !! i = Some n' -> N (RAMFS.m_metadata n');
  frame_file_systems f x : RAMFS.file_systems s !! f = Some x ->
    exists x', RAMFS.file_systems s' !! f = Some x' /\ RAMFS.m_readonly x' = RAMFS.m_readonly x
}.

Definition unchanged_metadata (i : Z) (m m' : InodeMetadata) : Prop := False.
Definition nowhere (i : Z) : Prop := False.

Lemma changed_refl R K F i n : changed R K F i n n.
Proof. constructor; auto. Qed.

Lemma frame_refl R K F N s : frame R K F N s s.
Proof.
  constructor; eauto using changed_refl. intros i n' E1 E2. congruence.
Qed.

Lemma changed_weaken (R R' : Z -> InodeMetadata -> InodeMetadata -> Prop) (K K' F F' : Z -> Prop) i n n' :
  (R i (RAMFS.m_metadata n) (RAMFS.m_metadata n') -> R' i (RAMFS.m_metadata n) (RAMFS.m_metadata n')) ->
  (K i -> K' i) -> (F i -> F' i) -> changed R K F i n n' -> changed R' K' F' i n n'.
Proof. intros HR HK HF []. constructor; naive_solver. Qed.

Lemma frame_weaken (R R' : Z -> InodeMetadata -> InodeMetadata -> Prop) (K K' F F' : Z -> Prop) (N N' : InodeMetadata -> Prop) s s' :
  (forall i n m', RAMFS.inodes s !! i = Some n -> R i (RAMFS.m_metadata n) m' -> R' i (RAMFS.m_metadata n) m') ->
  (forall i n, RAMFS.inodes s !! i = Some n -> K i -> K' i) ->
  (forall i n, RAMFS.inodes s !! i = Some n -> F i -> F' i) -> (forall m, N m -> N' m) ->
  frame R K F N s s' -> frame R' K' F' N' s s'.
Proof.
  intros HR HK HF HN [Ho Hn Hf]. constructor; [|by eauto|done]. intros i n E.
  destruct (Ho i n E) as (n' & E' & C). exists n'. split; [done|]. eapply changed_weaken; [| | |exact C]; eauto.
Qed.

(** A change, then one of entries and contents only. *)
Lemma frame_trans (R : Z -> InodeMetadata -> InodeMetadata -> Prop) (K K' F F' : Z -> Prop) (N : InodeMetadata -> Prop) s1 s2 s3 :
  frame R K F N s1 s2 -> frame unchanged_metadata K' F' (fun _ => False) s2 s3 ->
  (forall i n, RAMFS.inodes s1 !! i = Some n -> K' i -> K i) ->
  (forall i n, RAMFS.inodes s1 !! i = Some n -> F' i -> F i) ->
  frame R K F N s1 s3.
Proof.
  intros [Ho Hn Hf] [Ho' Hn' Hf'] HK HF. constructor.
  - intros i n E. destruct (Ho i n E) as (n2 & E2 & C1). destruct (Ho' i n2 E2) as (n3 & E3 & C2).
    exists n3. split; [done|]. destruct C1 as [A1 A2 A3 A4 A5 A6], C2 as [B1 B2 B3 [B4|[]] B5 B6].
    constructor; try congruence.
    + destruct B5 as [->|]; [done|]. right. by eapply HK.
    + destruct B6 as [->|]; [done|]. right. by eapply HF.
  - intros i n3 E1 E3. destruct (RAMFS.inodes s2 !! i) as [n2|] eqn:E2; [|by destruct (Hn' i n3 E2 E3)].
    destruct (Ho' i n2 E2) as (n & E & C). rewrite E3 in E. injection E as <-.
    destruct C as [_ _ _ [->|[]] _ _]. by apply (Hn i).
  - intros f x E. destruct (Hf f x E) as (x2 & E2 & R2). destruct (Hf' f x2 E2) as (x3 & E3 & R3). exists x3. split; [done|congruence].
Qed.

(** ** Stores that grow *)

(** Everything in one store is in another. *)
Definition grows (s s' : RAMFS.t) : Prop :=
  (forall i, is_Some (RAMFS.inodes s !! i) -> is_Some (RAMFS.inodes s' !! i)) /\
  (forall f, is_Some (RAMFS.file_systems s !! f) -> is_Some (RAMFS.file_systems s' !! f)).

Lemma inode_ok_grows s s' n : grows s s' -> inode_ok s n -> inode_ok s' n.
Proof.
  intros [G1 G2] [H1 H2 H3 H4]. constructor; [|by apply G2|done|done].
  eapply Forall_impl; [exact H1|]. intros c. apply G1.
Qed.

Lemma frame_grows R K F N s s' : frame R K F N s s' -> grows s s'.
Proof.
  intros [Ho _ Hf]. split.
  - intros i [n E]. destruct (Ho i n E) as (n' & -> & _). by eexists.
  - intros f [x E]. destruct (Hf f x E) as (x' & -> & _). by eexists.
Qed.

Definition put (s : RAMFS.t) (i : Z) (n : RAMFS.Inode) : RAMFS.t := RAMFS.store (<[i := n]> (RAMFS.inodes s)) (RAMFS.file_systems s).

Lemma put_grows s i n : grows s (put s i n).
Proof.
  split; [|done]. intros j Hj. cbn. destruct (decide (j = i)) as [->|]; [rewrite lookup_insert_eq; by eexists|].
  by rewrite lookup_insert_ne.
Qed.

Lemma frame_put R K F N s i n n' :
  RAMFS.inodes s !! i = Some n -> changed R K F i n n' -> frame R K F N s (put s i n').
Proof.
  intros E C. constructor; cbn; [|intros j x E1 E2|by eauto].
  - intros j x Ej. destruct (decide (j = i)) as [->|Hj].
    + rewrite lookup_insert_eq. rewrite E in Ej. injection Ej as <-. eauto.
    + rewrite lookup_insert_ne by done. eauto using changed_refl.
  - destruct (decide (j = i)) as [->|Hj]; [congruence|]. rewrite lookup_insert_ne in E2 by done. congruence.
Qed.

Lemma store_ok_put s i n : store_ok s -> inode_ok s n -> store_ok (put s i n).
Proof.
  intros Hs Hn j x. cbn. destruct (decide (j = i)) as [->|Hj].
  - rewrite lookup_insert_eq. intros [= <-]. eapply inode_ok_grows; [apply put_grows|done].
  - rewrite lookup_insert_ne by done. intros E. eapply inode_ok_grows; [apply put_grows|by apply Hs in E].
Qed.

(** ** Rules *)

Section Rules.
Context {A : Type} (Q : A -> RAMFS.t -> Prop) (E : RAMFS.t -> Prop) (C : Prop) (s : RAMFS.t).

Lemma wp_lift (o : outcome A) :
  match o with Ok a => Q a s | Err _ => E s | Panic => C | Undefined => False end -> wp (lift o) Q E C s.
Proof. by destruct o. Qed.

Lemma wp_lift_safe (o : outcome A) : no_crash o -> E s -> (forall a, o = Ok a -> Q a s) -> wp (lift o) Q E C s.
Proof. intros H HE HQ. apply wp_lift. destruct o; [by apply HQ|done|done|done]. Qed.

Lemma wp_lift_or (o : outcome A) :
  o <> Undefined -> (o = Panic -> C) -> E s -> (forall a, o = Ok a -> Q a s) -> wp (lift o) Q E C s.
Proof. intros H HC HE HQ. apply wp_lift. destruct o; [by apply HQ|done|by apply HC|done]. Qed.

Lemma wp_gets (f : RAMFS.t -> A) : Q (f s) s -> wp (gets f) Q E C s.
Proof. done. Qed.
End Rules.

Lemma wp_fail_if b e (Q : unit -> RAMFS.t -> Prop) (E : RAMFS.t -> Prop) C s :
  E s -> (b = false -> Q tt s) -> wp (fail_if b e) Q E C s.
Proof. intros HE HQ. unfold fail_if. destruct b; [done|by apply HQ]. Qed.

Lemma wp_verify b (Q : unit -> RAMFS.t -> Prop) E (C : Prop) s :
  (b = true -> Q tt s) -> (b = false -> C) -> wp (RAMFS.verify b) Q E C s.
Proof. intros H1 H2. unfold RAMFS.verify. destruct b; [by apply H1|by apply H2]. Qed.

Lemma wp_get_inode i n (Q : RAMFS.Inode -> RAMFS.t -> Prop) E C s :
  RAMFS.inodes s !! i = Some n -> Q n s -> wp (RAMFS.get_inode i) Q E C s.
Proof. intros H HQ. unfold wp, RAMFS.get_inode. by rewrite H. Qed.

Lemma wp_get_metadata c n (Q : InodeMetadata -> RAMFS.t -> Prop) E C s :
  RAMFS.inodes s !! inode c = Some n -> Q (RAMFS.m_metadata n) s -> wp (get_metadata c) Q E C s.
Proof. intros H HQ. unfold wp, get_metadata, metadata_of. by rewrite H. Qed.

(** The file system of an inode can be written to. *)
Definition on_writable_fs (s : RAMFS.t) (n : RAMFS.Inode) : Prop :=
  exists x, RAMFS.file_systems s !! RAMFS.m_file_system n = Some x /\ RAMFS.m_readonly x = false.

Lemma wp_get_readonly c n (Q : bool -> RAMFS.t -> Prop) E C s :
  store_ok s -> RAMFS.inodes s !! inode c = Some n ->
  (forall b, (b = false -> on_writable_fs s n) -> Q b s) -> wp (get_readonly c) Q E C s.
Proof.
  intros Hs H HQ. unfold wp, get_readonly, is_readonly. destruct (has (mount_flags c) MS_RDONLY); [by apply HQ|].
  rewrite H. destruct (ok_file_system _ _ (Hs _ _ H)) as [x Ex]. rewrite Ex. apply HQ. intros Hx. by exists x.
Qed.

Lemma wp_put i n (Q : unit -> RAMFS.t -> Prop) E C s : Q tt (put s i n) -> wp (RAMFS.put_inode i n) Q E C s.
Proof. done. Qed.

Lemma wp_add_child memory dir child name n c E (C : Prop) s :
  RAMFS.inodes s !! dir = Some n -> RAMFS.is_directory_inode n = true -> RAMFS.inodes s !! child = Some c ->
  (RAMFS.m_file_system c <> RAMFS.m_file_system n -> C) -> E s ->
  wp (RAMFS.add_child memory dir child name)
    (fun _ s' => RAMFS.find_child_by_name name (RAMFS.m_children n) = None /\
                 s' = put s dir (RAMFS.with_children (RAMFS.m_children n ++ [(name, child)]) n)) E C s.
Proof.
  intros En Hd Ec Hf HE. unfold RAMFS.add_child. apply wp_bind, (wp_get_inode _ n); [done|].
  apply wp_bind, (wp_get_inode _ c); [done|]. apply wp_bind, wp_verify; [intros _|congruence].
  apply wp_bind, wp_verify; [intros _|intros H; apply Z.eqb_neq in H; by apply Hf].
  destruct (_ <? _); [by apply wp_lift|].
  destruct (RAMFS.find_child_by_name name (RAMFS.m_children n)) eqn:F; [by apply wp_lift|].
  destruct memory; [|by apply wp_lift]. by apply wp_put.
Qed.

Lemma wp_remove_child dir name n E (C : Prop) s :
  RAMFS.inodes s !! dir = Some n -> RAMFS.is_directory_inode n = true -> E s ->
  wp (RAMFS.remove_child dir name)
    (fun _ s' => s' = s /\ (name = KLexicalPath.sv "." \/ name = KLexicalPath.sv "..") \/
                 is_Some (RAMFS.find_child_by_name name (RAMFS.m_children n)) /\
                 s' = put s dir (RAMFS.with_children (RAMFS.remove_first name (RAMFS.m_children n)) n)) E C s.
Proof.
  intros En Hd HE. unfold RAMFS.remove_child. apply wp_bind, (wp_get_inode _ n); [done|].
  apply wp_bind, wp_verify; [intros _|congruence].
  destruct (bool_decide (name = KLexicalPath.sv ".") || _) eqn:B.
  - apply wp_ret. left. split; [done|]. apply orb_prop in B as [B|B]; apply bool_decide_eq_true in B; auto.
  - destruct (RAMFS.find_child_by_name name (RAMFS.m_children n)); [|by apply wp_lift]. apply wp_put. right. by split; [eexists|].
Qed.

(** The store with a counter of a file system advanced. *)
Definition counted (s : RAMFS.t) (f : Z) (x : RAMFS.FileSystem) : RAMFS.t :=
  RAMFS.store (RAMFS.inodes s)
    (<[f := RAMFS.file_system (u32 (RAMFS.m_next_inode_index x + 1)) (RAMFS.m_root_inode x) (RAMFS.m_readonly x)]> (RAMFS.file_systems s)).

Lemma counted_frame R K F N s f x : RAMFS.file_systems s !! f = Some x -> frame R K F N s (counted s f x).
Proof.
  intros Hx. constructor; cbn; [by eauto using changed_refl|congruence|]. intros g y Hy.
  destruct (decide (g = f)) as [->|N']; [|rewrite lookup_insert_ne by done; by eauto].
  rewrite lookup_insert_eq. rewrite Hx in Hy. injection Hy as <-. by eexists.
Qed.

Lemma store_ok_frame_same s s' :
  store_ok s -> grows s s' -> RAMFS.inodes s' = RAMFS.inodes s -> store_ok s'.
Proof. intros Hs G E i n. rewrite E. intros H. eapply inode_ok_grows; [done|]. by apply (Hs i). Qed.

Lemma fresh_pointer_fresh s : RAMFS.inodes s !! RAMFS.fresh_pointer s = None.
Proof. apply not_elem_of_dom. unfold RAMFS.fresh_pointer. apply is_fresh. Qed.

Definition new_inode (n : RAMFS.Inode) (x : RAMFS.FileSystem) (dir mode dev uid gid : Z) : RAMFS.Inode :=
  RAMFS.inode (RAMFS.m_file_system n) (RAMFS.m_next_inode_index x)
    (metadata mode uid gid (RAMFS.major_from_encoded_device dev) (RAMFS.minor_from_encoded_device dev))
    (Some dir) false [] (RamFile.file [] 0).

Lemma new_inode_ok s n x dir mode dev uid gid :
  is_Some (RAMFS.file_systems s !! RAMFS.m_file_system n) -> inode_ok s (new_inode n x dir mode dev uid gid).
Proof. intros H. constructor; [by apply Forall_nil|done| |cbn; lia]. constructor; cbn; [lia|lia|done]. Qed.

(** A new inode with its entry, or nothing but an advanced counter. *)
Lemma wp_create_child memory dir name mode dev uid gid n (E : RAMFS.t -> Prop) (C : Prop) s :
  store_ok s -> RAMFS.inodes s !! dir = Some n -> RAMFS.is_directory_inode n = true ->
  E s -> (forall x, RAMFS.file_systems s !! RAMFS.m_file_system n = Some x -> E (counted s (RAMFS.m_file_system n) x)) ->
  wp (RAMFS.create_child memory dir name mode dev uid gid)
    (fun child s' =>
       RAMFS.inodes s !! child = None /\ RAMFS.find_child_by_name name (RAMFS.m_children n) = None /\
       exists x, RAMFS.file_systems s !! RAMFS.m_file_system n = Some x /\
         s' = put (put (counted s (RAMFS.m_file_system n) x) child (new_inode n x dir mode dev uid gid)) dir
                (RAMFS.with_children (RAMFS.m_children n ++ [(name, child)]) n)) E C s.
Proof.
  intros Hs En Hd HE HE'. unfold RAMFS.create_child. apply wp_bind, (wp_get_inode _ n); [done|].
  destruct (fst memory); cbn [negb]; [|by apply wp_lift].
  destruct (ok_file_system _ _ (Hs _ _ En)) as [x Ex].
  apply wp_bind. unfold wp at 1, RAMFS.get_file_system. rewrite Ex.
  apply wp_bind. unfold wp at 1, gets. set (child := RAMFS.fresh_pointer s).
  assert (Hc : RAMFS.inodes s !! child = None) by apply fresh_pointer_fresh.
  assert (Hne : dir <> child) by congruence.
  apply wp_bind. unfold wp at 1, modify. fold (counted s (RAMFS.m_file_system n) x).
  apply wp_bind, wp_put. fold (new_inode n x dir mode dev uid gid). set (s1 := put _ _ _).
  assert (A := wp_add_child (snd memory) dir child name n (new_inode n x dir mode dev uid gid) (fun s' => s' = s1) False s1).
  unfold wp in *. specialize (A ltac:(cbn; by rewrite lookup_insert_ne) Hd ltac:(cbn; by rewrite lookup_insert_eq) ltac:(done) eq_refl).
  destruct (RAMFS.add_child (snd memory) dir child name s1) as [s2 [[]|e| |]]; [|subst s2|done|done].
  - destruct A as [A1 ->]. split; [done|]. split; [done|]. by exists x.
  - unfold RAMFS.set_inodes, modify. cbn [fst RAMFS.inodes]. 
    assert (X : RAMFS.store (delete child (RAMFS.inodes s1)) (RAMFS.file_systems s1) = counted s (RAMFS.m_file_system n) x).
    { unfold s1, put, counted. cbn. f_equal. by rewrite delete_insert_id. }
    rewrite X. by apply HE'.
Qed.

(** ** What a caller may change *)

(** Metadata: by the owner or the superuser.  Only the superuser gives a file
    away; a file that gets another owner or group loses its setuid and setgid
    bits; a device stays the same device. *)
Record metadata_rule (w : Caller) (i : Z) (m m' : InodeMetadata) : Prop := {
  rule_owner : superuser w = true \/ euid w = uid m;
  rule_uid : uid m' = uid m \/ superuser w = true;
  rule_gid : gid m' = gid m \/ superuser w = true \/ in_group (credentials w) (gid m') = true;
  rule_setid : uid m' <> uid m \/ gid m' <> gid m -> is_setuid (mode m') = false /\ is_setgid (mode m') = false;
  rule_device : major_device m' = major_device m /\ minor_device m' = minor_device m
}.

(** Entries of directories and contents of files: with write permission and on a
    file system that can be written to.  That last condition is not [strict] for
    [rmdir], which looks at the file system of the directory that goes, not at
    that of its parent. *)
Definition dir_writable (s : RAMFS.t) (w : Caller) (strict : bool) (i : Z) : Prop :=
  exists n, RAMFS.inodes s !! i = Some n /\ RAMFS.is_directory_inode n = true /\
            may_write_to w (RAMFS.m_metadata n) = true /\ (strict = true -> on_writable_fs s n).

Definition file_writable (s : RAMFS.t) (w : Caller) (i : Z) : Prop :=
  exists n, RAMFS.inodes s !! i = Some n /\ RAMFS.is_directory_inode n = false /\
            may_write_to w (RAMFS.m_metadata n) = true /\ on_writable_fs s n.

(** New inodes belong to the caller. *)
Definition owned (w : Caller) (m : InodeMetadata) : Prop :=
  uid m = euid w /\ gid m = Process.m_egid (credentials w).

Definition permitted (w : Caller) (strict : bool) (s s' : RAMFS.t) : Prop :=
  frame (metadata_rule w) (dir_writable s w strict) (file_writable s w) (owned w) s s'.

Definition good (w : Caller) (strict : bool) (s s' : RAMFS.t) : Prop := store_ok s' /\ permitted w strict s s'.

Lemma good_refl w strict s : store_ok s -> good w strict s s.
Proof. intros H. split; [done|apply frame_refl]. Qed.

Lemma children_ok s n cs :
  inode_ok s n -> Forall (fun c => is_Some (RAMFS.inodes s !! snd c)) cs -> inode_ok s (RAMFS.with_children cs n).
Proof. by intros [H1 H2 H3 H4]. Qed.

Lemma changed_with_children R (K F : Z -> Prop) i n cs : K i -> changed R K F i n (RAMFS.with_children cs n).
Proof. intros H. constructor; auto. Qed.

Lemma good_put_children w strict s dir n cs :
  store_ok s -> RAMFS.inodes s !! dir = Some n -> dir_writable s w strict dir ->
  Forall (fun c => is_Some (RAMFS.inodes s !! snd c)) cs -> good w strict s (put s dir (RAMFS.with_children cs n)).
Proof.
  intros Hs En Hd Hc. split.
  - apply store_ok_put; [done|]. apply children_ok; [by apply (Hs dir)|done].
  - eapply frame_put; [done|]. by apply changed_with_children.
Qed.

Lemma good_counted w strict s f x : store_ok s -> RAMFS.file_systems s !! f = Some x -> good w strict s (counted s f x).
Proof.
  intros Hs Hx. assert (Fr := counted_frame (metadata_rule w) (dir_writable s w strict) (file_writable s w) (owned w) s f x Hx).
  split; [|done]. eapply store_ok_frame_same; [done|by eapply frame_grows|done].
Qed.

Lemma wp_create_good w strict memory dir name mode dev s :
  store_ok s -> dir_writable s w strict dir ->
  wp (RAMFS.create_child memory dir name mode dev (euid w) (Process.m_egid (credentials w)))
    (fun child s' => good w strict s s' /\ RAMFS.inodes s !! child = None /\
       exists c, RAMFS.inodes s' !! child = Some c /\ InodeMetadata.mode (RAMFS.m_metadata c) = mode /\
                 RAMFS.m_content c = RamFile.file [] 0)
    (good w strict s) False s.
Proof.
  intros Hs Hd. assert (Hd' := Hd). destruct Hd' as (n & En & Hdir & Hmw & Hfs).
  eapply wp_mono; [eapply (wp_create_child memory dir name mode dev _ _ n (good w strict s)); [done|done|done|by apply good_refl|]| |done|done].
  { intros x Hx. by apply good_counted. }
  intros child s' (Hc & _ & x & Hx & ->). cbv beta. set (c := new_inode _ _ _ _ _ _ _).
  set (s1 := counted s (RAMFS.m_file_system n) x). assert (Hne : dir <> child) by congruence.
  destruct (good_counted w strict s _ x Hs Hx) as [Hs1 F1]. fold s1 in Hs1, F1.
  assert (Hn1 : inode_ok s1 c) by (apply new_inode_ok; apply (ok_file_system _ _ (Hs1 dir n En))).
  assert (Hs2 : store_ok (put s1 child c)) by (by apply store_ok_put).
  assert (En2 : RAMFS.inodes (put s1 child c) !! dir = Some n) by (cbn; by rewrite lookup_insert_ne).
  split; [split|].
  - apply store_ok_put; [done|]. apply children_ok; [by apply (Hs2 dir)|].
    apply Forall_app. split; [apply (ok_children _ _ (Hs2 dir n En2))|]. apply Forall_singleton. cbn.
    rewrite lookup_insert_eq. by eexists.
  - assert (G : frame (metadata_rule w) (dir_writable s w strict) (file_writable s w) (owned w) s (put s1 child c)).
    { constructor; cbn.
      - intros i x' E'. destruct (decide (i = child)) as [->|]; [congruence|]. rewrite lookup_insert_ne by done. eauto using changed_refl.
      - intros i x' E1 E2. destruct (decide (i = child)) as [->|]; [|rewrite lookup_insert_ne in E2 by done; congruence].
        rewrite lookup_insert_eq in E2. by injection E2 as <-.
      - apply F1. }
    eapply frame_trans; [exact G|eapply (frame_put _ (fun j => j = dir) nowhere); [exact En2|by apply changed_with_children]| |done].
    by intros i x' E' ->.
  - split; [done|]. exists c. cbn. rewrite lookup_insert_ne, lookup_insert_eq by done. done.
Qed.

(** ** Resolution in operations *)

Lemma wp_resolve w path base options Q (E : RAMFS.t -> Prop) (C : Prop) s :
  standing s w -> alive s base -> E s -> (forall c, alive s c -> Q c s) -> wp (resolve w path base options) Q E C s.
Proof.
  intros Hst Hb HE HQ. assert (W := alive_walkable s w Hst). destruct Hst as [Hs Hw Hr].
  assert (S := sound_resolve_path s w Hs Hw _ _ W options path base Hb None ltac:(done)).
  unfold wp, resolve. destruct (resolve_path s w path base options None) as [p [c|e| |]]; cbn [snd]; [|done..].
  apply HQ, S.
Qed.

Lemma with_out_parent_alive s Q (E : RAMFS.t -> Prop) (C : Prop) (r : RAMFS.t -> option Custody * outcome Custody) :
  match r s with
  | (p, Ok c) => alive s c /\ p = parent c
  | (p, Err _) => parent_ok (alive_dir s) p
  | _ => False
  end ->
  (forall c, alive s c -> (forall q, parent c = Some q -> alive_dir s q) -> Q (inl c, parent c) s) ->
  (forall e p, (forall q, p = Some q -> alive_dir s q) -> Q (inr e, p) s) ->
  wp (fun s => (s, with_out_parent (r s))) Q E C s.
Proof.
  intros S H1 H2. unfold wp. destruct (r s) as [p [c|e| |]]; cbn [with_out_parent]; [|by apply H2|done..].
  destruct S as [S1 ->]. apply H1; [done|]. intros q Hq. destruct c; [done|]. injection Hq as <-. by destruct S1 as (? & ? & _).
Qed.

Lemma wp_resolve_with_parent w path base options Q (E : RAMFS.t -> Prop) (C : Prop) s :
  standing s w -> alive s base ->
  (forall c, alive s c -> (forall q, parent c = Some q -> alive_dir s q) -> Q (inl c, parent c) s) ->
  (forall e p, (forall q, p = Some q -> alive_dir s q) -> Q (inr e, p) s) ->
  wp (resolve_with_parent w path base options) Q E C s.
Proof.
  intros Hst Hb H1 H2. assert (W := alive_walkable s w Hst). destruct Hst as [Hs Hw Hr].
  assert (S := sound_resolve_path s w Hs Hw _ _ W options path base Hb None ltac:(done)).
  exact (with_out_parent_alive s Q E C (fun s => resolve_path s w path base options None) S H1 H2).
Qed.

Lemma alive_inode s c : alive s c -> exists n, RAMFS.inodes s !! inode c = Some n.
Proof. destruct c; cbn [alive inode]; [intros (n & E & _); eauto|intros (_ & _ & _ & [n E]); eauto]. Qed.

(** ** Modes *)

Ltac known_bits :=
  repeat match goal with
  | |- context [Z.testbit (Zpos ?c) ?j] =>
      let v := eval vm_compute in (Z.testbit (Zpos c) j) in change (Z.testbit (Zpos c) j) with v
  end.

(** Masks of sixteen bits: bit by bit. *)
Ltac by_bits :=
  apply Z.bits_inj'; intros k Hk; repeat rewrite ?Z.land_spec, ?Z.lor_spec, ?Z.lnot_spec, ?Z.bits_0 by done;
  destruct (decide (k < 16)) as [L|L];
  [assert (k ∈ seqZ 0 16) as H by (apply elem_of_seqZ; lia);
   let l := eval vm_compute in (seqZ 0 16) in change (seqZ 0 16) with l in H;
   repeat (apply elem_of_cons in H as [->|H]; [known_bits; repeat match goal with |- context [Z.testbit ?x _] => destruct (Z.testbit x _) end; done|]);
   by apply not_elem_of_nil in H
  |repeat match goal with
   | |- context [Z.testbit (Zpos ?c) k] =>
       replace (Z.testbit (Zpos c) k) with false by (symmetry; apply Z.bits_above_log2; [lia|cbn; lia])
   end; rewrite ?andb_false_r, ?andb_false_l; try done].

Lemma land_lor_type a b : Z.land (Z.lor (Z.land a (Z.lnot 0xFFF)) (Z.land b 0xFFF)) S_IFMT = Z.land a S_IFMT.
Proof. by_bits. Qed.

Lemma without_setid_type a : Z.land (RAMFS.without_setid a) S_IFMT = Z.land a S_IFMT.
Proof. unfold RAMFS.without_setid. by_bits. Qed.

Lemma without_setid_bits a :
  is_setuid (RAMFS.without_setid a) = false /\ is_setgid (RAMFS.without_setid a) = false.
Proof.
  unfold has_bits, RAMFS.without_setid. split; apply Z.eqb_neq.
  - replace (Z.land _ S_ISUID) with 0; [done|]. by_bits.
  - replace (Z.land _ S_ISGID) with 0; [done|]. by_bits.
Qed.

Lemma join_defined allocated first second : KLexicalPath.try_join allocated first second <> Undefined.
Proof.
  unfold KLexicalPath.try_join. repeat match goal with |- (if ?b then _ else _) <> _ => destruct b end; done.
Qed.

Lemma veil_defined d path options : Unveil.validate_path_against_process_veil d path options <> Undefined.
Proof.
  unfold Unveil.validate_path_against_process_veil, Unveil.find_matching_unveiled_path, KLexicalPath.parts, Unveil.check_permissions.
  repeat first [progress cbn [bind negb] | match goal with |- context [if ?b then _ else _] => destruct b end]; done.
Qed.

Lemma remove_first_forall (P : StringView.t * Z -> Prop) name cs : Forall P cs -> Forall P (RAMFS.remove_first name cs).
Proof.
  induction 1 as [|[n i] cs H F IH]; cbn [RAMFS.remove_first]; [done|]. destruct (bool_decide _); [done|by constructor].
Qed.

(** ** Moving entries *)

(** Only entries of the directories in [K] changed. *)
Definition shuffled (K : Z -> Prop) (s s' : RAMFS.t) : Prop :=
  store_ok s' /\ frame unchanged_metadata K nowhere (fun _ => False) s s'.

Lemma shuffled_refl K s : store_ok s -> shuffled K s s.
Proof. intros H. split; [done|apply frame_refl]. Qed.

Lemma shuffled_trans K s1 s2 s3 : shuffled K s1 s2 -> shuffled K s2 s3 -> shuffled K s1 s3.
Proof. intros [_ F1] [S2 F2]. split; [done|]. by eapply frame_trans. Qed.

Lemma shuffled_is_dir K s s' i : shuffled K s s' -> is_dir s i -> is_dir s' i.
Proof.
  intros [_ F] (n & E & H). destruct (frame_old _ _ _ _ _ _ F i n E) as (n' & E' & C). exists n'. split; [done|].
  unfold RAMFS.is_directory_inode, is_type in *. by rewrite (changed_type _ _ _ _ _ _ C).
Qed.

Lemma shuffled_put (K : Z -> Prop) s i n cs :
  store_ok s -> RAMFS.inodes s !! i = Some n -> K i -> Forall (fun c => is_Some (RAMFS.inodes s !! snd c)) cs ->
  shuffled K s (put s i (RAMFS.with_children cs n)).
Proof.
  intros Hs En HK Hc. split.
  - apply store_ok_put; [done|]. apply children_ok; [by apply (Hs i)|done].
  - eapply frame_put; [done|]. by apply changed_with_children.
Qed.

Lemma wp_remove_shuffled (K : Z -> Prop) dir name s :
  store_ok s -> is_dir s dir -> K dir ->
  wp (RAMFS.remove_child dir name) (fun _ => shuffled K s) (shuffled K s) True s.
Proof.
  intros Hs (n & En & Hd) HK. eapply wp_mono; [by apply (wp_remove_child dir name n (shuffled K s) True); [| |apply shuffled_refl]| |done|done].
  intros _ s' [[-> _]|[_ ->]]; [by apply shuffled_refl|]. apply shuffled_put; [done..|].
  apply remove_first_forall, (ok_children _ _ (Hs _ _ En)).
Qed.

Lemma wp_add_shuffled (K : Z -> Prop) memory dir child name s :
  store_ok s -> is_dir s dir -> is_Some (RAMFS.inodes s !! child) -> K dir ->
  wp (RAMFS.add_child memory dir child name) (fun _ => shuffled K s) (shuffled K s) True s.
Proof.
  intros Hs (n & En & Hd) [c Ec] HK.
  eapply wp_mono; [by apply (wp_add_child memory dir child name n c (shuffled K s) True); [| | | |apply shuffled_refl]| |done|done].
  intros _ s' [_ ->]. apply shuffled_put; [done..|]. apply Forall_app. split; [apply (ok_children _ _ (Hs _ _ En))|].
  apply Forall_singleton. by exists c.
Qed.

Lemma wp_lookup dir name s :
  store_ok s -> is_dir s dir ->
  wp (RAMFS.lookup dir name) (fun i s' => s' = s /\ is_Some (RAMFS.inodes s !! i)) (fun s' => s' = s) False s.
Proof.
  intros Hs (n & En & Hd). unfold RAMFS.lookup. apply wp_bind, (wp_get_inode _ n); [done|].
  apply wp_bind, wp_verify; [intros _|congruence]. destruct (bool_decide _); [by apply wp_ret; split; [|exists n]|].
  destruct (bool_decide _).
  - apply wp_bind, wp_gets. unfold RAMFS.strong_ref. destruct (RAMFS.m_parent n) as [p|]; [|by apply wp_lift].
    destruct (RAMFS.inodes s !! p) as [q|] eqn:Eq; [|by apply wp_lift]. apply wp_ret. split; [done|by exists q].
  - destruct (RAMFS.find_child_by_name name (RAMFS.m_children n)) as [i|] eqn:F; [|by apply wp_lift]. apply wp_ret.
    apply find_child_in in F. assert (C := ok_children _ _ (Hs _ _ En)). rewrite Forall_forall in C. split; [done|exact (C _ F)].
Qed.

(** The second half of a rename, after other changes. *)
Lemma wp_move_entry (K : Z -> Prop) memory old_parent old_basename new_parent new_basename s s1 :
  is_dir s old_parent -> is_dir s new_parent -> K old_parent -> K new_parent -> shuffled K s s1 ->
  wp (let* old_inode := RAMFS.lookup old_parent old_basename in
      let* _ := RAMFS.add_child memory new_parent old_inode new_basename in
      RAMFS.remove_child old_parent old_basename) (fun _ => shuffled K s) (shuffled K s) True s1.
Proof.
  intros Ho Hn Ko Kn S1. apply wp_bind.
  eapply wp_mono; [apply wp_lookup; [apply S1|by eapply shuffled_is_dir]| |by intros s' ->|done].
  intros i s' [-> Hi]. apply wp_bind.
  eapply wp_mono; [by eapply (wp_add_shuffled K); [apply S1|eapply shuffled_is_dir| |]| |by intros s2; apply shuffled_trans|done].
  intros x2 s2 S2. assert (S := shuffled_trans _ _ _ _ S1 S2).
  eapply wp_mono; [by eapply (wp_remove_shuffled K); [apply S|eapply shuffled_is_dir|]| | |done].
  - by intros x3 s3; apply shuffled_trans.
  - by intros s3; apply shuffled_trans.
Qed.

Lemma wp_move memory old_parent old_basename new_parent new_basename s :
  store_ok s -> is_dir s old_parent -> is_dir s new_parent ->
  let K := fun i => i = old_parent \/ i = new_parent in
  wp (RAMFS.rename memory old_parent old_basename new_parent new_basename) (fun _ => shuffled K s) (shuffled K s) True s.
Proof.
  intros Hs Ho Hn K. assert (L := wp_lookup new_parent new_basename s Hs Hn).
  assert (Ko : K old_parent) by (by left). assert (Kn : K new_parent) by (by right).
  unfold RAMFS.rename, wp at 1. cbv beta.
  match goal with |- match ?m s with _ => _ end => change (wp m (fun _ => shuffled K s) (shuffled K s) True s) end.
  apply wp_bind. unfold wp in L. destruct (RAMFS.lookup new_parent new_basename s) as [s' [i|e| |]]; cbn [snd]; [| |done|done].
  - destruct L as [-> [r Er]]. apply wp_bind, (wp_get_inode _ r); [done|]. apply wp_bind, wp_verify; [intros _|done].
    eapply wp_mono; [by apply (wp_remove_shuffled K)| |done|done]. intros x1 s1 S1. by apply wp_move_entry.
  - apply wp_ret. by apply wp_move_entry, shuffled_refl.
Qed.

Lemma shuffled_good w strict (K : Z -> Prop) s s' :
  (forall i, K i -> dir_writable s w strict i) -> shuffled K s s' -> good w strict s s'.
Proof.
  intros HK [Hs F]. split; [done|]. eapply frame_weaken; [| | | |exact F]; [by intros ? ? ? _ []|by intros i n _; apply HK|by intros ? ? _ []|by intros ? []].
Qed.

(** ** The operations, one by one *)

Section Operations.
Context (w : Caller) (strict : bool) (s : RAMFS.t) (Hst : standing s w).

Lemma good_start : good w strict s s.
Proof. apply good_refl, Hst. Qed.

#[local] Hint Resolve good_start standing_store : core.

Ltac peel :=
  match goal with
  | |- wp (abind _ _) _ _ _ _ => apply wp_bind
  | |- wp (fail_if _ _) _ _ _ _ => apply wp_fail_if; [by auto|intros ?]
  | |- wp (lift (Err _)) _ _ _ _ => apply wp_lift; by auto
  | |- wp (ret _) _ _ _ _ => apply wp_ret; by auto
  end.

(** The checks on the directory that gets a new entry. *)
Lemma wp_checked_parent {A} p (k : action RAMFS.t A) Q (C : Prop) :
  alive_dir s p -> (dir_writable s w strict (inode p) -> wp k Q (good w strict s) C s) ->
  wp (let* m := get_metadata p in
      let* _ := fail_if (negb (may_write_to w m)) EACCES in
      let* readonly := get_readonly p in
      let* _ := fail_if readonly EROFS in k) Q (good w strict s) C s.
Proof.
  intros [Hp (n & En & Hd)] Hk. peel. apply (wp_get_metadata _ n); [done|]. do 2 peel.
  peel. apply (wp_get_readonly _ n); [by apply Hst|done|]. intros b Hb. peel. peel. subst b. apply Hk.
  exists n. split; [done|]. split; [done|]. split; [by destruct (may_write_to _ _)|intros _; by apply Hb].
Qed.

Lemma wp_mknod memory path mode_arg dev base :
  alive s base -> wp (mknod w memory path mode_arg dev base) (fun _ => good w strict s) (good w strict s) False s.
Proof.
  intros Hb. unfold mknod. do 2 peel. peel. apply wp_resolve_with_parent; [done|done|by intros; peel|].
  intros e [p|] Hp; [|by peel]. do 2 peel. apply wp_checked_parent; [by apply Hp|]. intros Hd. peel.
  eapply wp_mono; [by apply wp_create_good, Hd; apply Hst|by intros ? ? [? _]|done|done].
Qed.

Lemma wp_mkdir memory path mode_arg base :
  alive s base -> wp (mkdir w memory path mode_arg base) (fun _ => good w strict s) (good w strict s) True s.
Proof.
  intros Hb. unfold mkdir. cbv zeta. peel.
  assert (W := alive_walkable s w Hst).
  match goal with |- context [fun s => (s, with_out_parent (@?r s))] => apply (with_out_parent_alive s _ _ _ r) end.
  { by apply (sound_resolve s w (standing_store _ _ Hst) (standing_caller _ _ Hst) _ _ W). }
  { intros. by peel. }
  intros e [p|] Hp; [|by peel]. peel. apply wp_verify; [intros _|done]. peel.
  apply wp_lift_safe; [by eapply (validate_total _ w _ _ W), Hp|by auto|]. intros _ _.
  apply wp_checked_parent; [by apply Hp|]. intros Hd. peel.
  eapply wp_mono; [by apply wp_create_good, Hd; apply Hst|by intros ? ? [? _]|done|done].
Qed.

Lemma wp_access path mode_arg base follow_symlinks effective :
  alive s base -> wp (access w path mode_arg base follow_symlinks effective) (fun _ => good w strict s) (good w strict s) False s.
Proof.
  intros Hb. unfold access. peel. apply wp_resolve; [done|done|by auto|]. intros c Hc.
  destruct (alive_inode s c Hc) as [n En]. peel. apply (wp_get_metadata _ n); [done|]. do 4 peel.
  peel. apply (wp_get_readonly _ n); [by apply Hst|done|]. intros b _. do 2 peel. by peel.
Qed.

Lemma wp_open_directory path base Q :
  alive s base -> (forall c, alive s c -> Q c s) -> wp (open_directory w path base) Q (good w strict s) False s.
Proof.
  intros Hb HQ. unfold open_directory. peel. apply wp_resolve; [done|done|by auto|]. intros c Hc.
  destruct (alive_inode s c Hc) as [n En]. peel. apply (wp_get_metadata _ n); [done|]. do 4 peel. by apply wp_ret, HQ.
Qed.

Lemma metadata_ok n m :
  inode_ok s n -> Z.land (mode m) S_IFMT = Z.land (mode (RAMFS.m_metadata n)) S_IFMT -> inode_ok s (RAMFS.with_metadata m n).
Proof. intros [H1 H2 H3 H4] E. constructor; [done|done|done|]. cbn. unfold is_type. rewrite E. exact H4. Qed.

Lemma good_put_metadata i n m :
  RAMFS.inodes s !! i = Some n -> Z.land (mode m) S_IFMT = Z.land (mode (RAMFS.m_metadata n)) S_IFMT ->
  metadata_rule w i (RAMFS.m_metadata n) m -> good w strict s (put s i (RAMFS.with_metadata m n)).
Proof.
  intros En Et Hr. split.
  - apply store_ok_put; [by apply Hst|]. apply metadata_ok; [by apply (standing_store _ _ Hst i)|done].
  - eapply frame_put; [done|]. constructor; auto.
Qed.

Lemma owner_or_superuser m :
  negb (euid w =? uid m) && negb (superuser w) = false -> superuser w = true \/ euid w = uid m.
Proof.
  intros [H|H]%andb_false_iff; apply negb_false_iff in H; [right; by apply Z.eqb_eq|by left].
Qed.

Lemma wp_chmod path mode_arg base options :
  alive s base -> wp (chmod w path mode_arg base options) (fun _ => good w strict s) (good w strict s) False s.
Proof.
  intros Hb. unfold chmod. peel. apply wp_resolve; [done|done|by auto|]. intros c Hc. unfold chmod_custody.
  destruct (alive_inode s c Hc) as [n En]. peel. apply (wp_get_metadata _ n); [done|]. do 2 peel.
  peel. apply (wp_get_readonly _ n); [by apply Hst|done|]. intros b _. do 2 peel.
  unfold RAMFS.chmod. peel. apply (wp_get_inode _ n); [done|]. apply wp_put. apply good_put_metadata; [done|apply land_lor_type|].
  constructor; cbn; [by apply owner_or_superuser|by left|by left|by intros [[]|[]]|done].
Qed.

Lemma with_metadata_twice m m' n : RAMFS.with_metadata m' (RAMFS.with_metadata m n) = RAMFS.with_metadata m' n.
Proof. done. Qed.

Lemma put_put i n n' : put (put s i n) i n' = put s i n'.
Proof. unfold put. cbn. by rewrite insert_insert_eq. Qed.

Lemma wp_chown path a_uid a_gid base options :
  alive s base -> wp (chown w path a_uid a_gid base options) (fun _ => good w strict s) (good w strict s) False s.
Proof.
  intros Hb. unfold chown. peel. apply wp_resolve; [done|done|by auto|]. intros c Hc. unfold chown_custody.
  destruct (alive_inode s c Hc) as [n En]. peel. apply (wp_get_metadata _ n); [done|]. set (m := RAMFS.m_metadata n).
  do 2 peel. do 2 peel. do 2 peel. peel. apply (wp_get_readonly _ n); [by apply Hst|done|]. intros b _. do 2 peel.
  set (u := if a_uid =? NO_ID then _ else _). set (g := if a_gid =? NO_ID then _ else _).
  assert (Hu : uid m = u \/ superuser w = true \/ euid w = u).
  { unfold u. destruct (a_uid =? NO_ID); [by left|]. right. cbn [negb andb] in H0.
    apply andb_false_iff in H0 as [H0|H0]; apply negb_false_iff in H0; [right; by apply Z.eqb_eq|by left]. }
  assert (Hg : g = gid m \/ superuser w = true \/ in_group (credentials w) g = true).
  { unfold g. destruct (a_gid =? NO_ID); [by left|]. right. cbn [negb andb] in H1.
    apply andb_false_iff in H1 as [H1|H1]; apply negb_false_iff in H1; auto. }
  assert (Ho := owner_or_superuser m H).
  set (m' := metadata (if is_setuid (mode m) || is_setgid (mode m) then RAMFS.without_setid (mode m) else mode m)
               u g (major_device m) (minor_device m)).
  assert (G : good w strict s (put s (inode c) (RAMFS.with_metadata m' n))).
  { apply good_put_metadata; [done| |].
    - cbn. destruct (_ || _); [apply without_setid_type|done].
    - constructor; cbn; [done| |done| |done].
      { destruct Ho as [Ho|Ho]; [by right|]. destruct Hu as [Hu|[Hu|Hu]]; [by left|by right|left; by rewrite <- Hu]. }
      intros _. destruct (is_setuid (mode m)) eqn:E1, (is_setgid (mode m)) eqn:E2; cbn [orb]; try apply without_setid_bits. done. }
  peel. unfold RAMFS.chmod, RAMFS.chown. unfold m' in G. destruct (is_setuid (mode m) || is_setgid (mode m)).
  - peel. apply (wp_get_inode _ n); [done|]. apply wp_put. peel. eapply wp_get_inode; [cbn; apply lookup_insert_eq|].
    apply wp_put. by rewrite put_put, with_metadata_twice.
  - apply wp_ret. peel. apply (wp_get_inode _ n); [done|]. by apply wp_put.
Qed.

Lemma wp_link memory old_path new_path base :
  alive s base -> wp (link w memory old_path new_path base) (fun _ => good w strict s) (good w strict s) False s.
Proof.
  intros Hb. unfold link. peel. apply wp_resolve; [done|done|by auto|]. intros old Hold.
  destruct (alive_inode s old Hold) as [o Eo].
  peel. apply wp_resolve_with_parent; [done|done|by intros; peel|].
  intros e [p|] Hp; [|by peel]. destruct (Hp p eq_refl) as [Hp1 (n & En & Hd)].
  peel. apply (wp_get_inode _ n); [done|]. peel. apply (wp_get_inode _ o); [done|]. do 6 peel.
  peel. apply (wp_get_readonly _ n); [by apply Hst|done|]. intros b Hbb. do 4 peel. subst b.
  apply negb_false_iff, Z.eqb_eq in H.
  eapply wp_mono; [by apply (wp_add_child _ _ _ _ n o (good w strict s))| |done|done]. intros _ s' [_ ->].
  apply good_put_children; [by apply Hst|done| |].
  - exists n. split; [done|]. split; [done|]. split; [by destruct (may_write_to _ _)|intros _; by apply Hbb].
  - apply Forall_app. split; [apply (ok_children _ _ (standing_store _ _ Hst _ _ En))|]. apply Forall_singleton. by exists o.
Qed.

Lemma wp_remove_good dir name n :
  RAMFS.inodes s !! dir = Some n -> dir_writable s w strict dir ->
  wp (RAMFS.remove_child dir name) (fun _ => good w strict s) (good w strict s) False s.
Proof.
  intros En Hd. assert (Hdir : RAMFS.is_directory_inode n = true) by (destruct Hd as (n' & E' & H & _); congruence).
  eapply wp_mono; [by apply (wp_remove_child dir name n (good w strict s)); auto| |done|done].
  intros _ s' [[-> _]|[_ ->]]; [by auto|]. apply good_put_children; [by apply Hst|done|done|].
  apply remove_first_forall, (ok_children _ _ (standing_store _ _ Hst _ _ En)).
Qed.

(** The last steps of [unlink] and [rmdir]. *)
Lemma wp_unlink path base :
  alive s base -> wp (unlink w path base) (fun _ => good w strict s) (good w strict s) False s.
Proof.
  intros Hb. unfold unlink. peel. apply wp_resolve_with_parent; [done|done| |by intros; peel].
  intros c Hc Hp. destruct (alive_inode s c Hc) as [n En]. peel. apply (wp_get_metadata _ n); [done|]. do 2 peel.
  destruct (parent c) as [p|] eqn:Ep.
  2:{ destruct c as [x i f|]; [|done]. destruct Hc as (n' & E' & Hd). cbn [inode] in En. rewrite E' in En. injection En as ->.
      unfold RAMFS.is_directory_inode in Hd. congruence. }
  destruct (Hp p eq_refl) as [Hp1 (d & Ed & Hdir)].
  peel. apply (wp_get_metadata _ d); [done|]. do 4 peel. peel. apply (wp_get_readonly _ d); [by apply Hst|done|].
  intros b Hbb. do 2 peel. subst b. apply (wp_remove_good _ _ d); [done|].
  exists d. split; [done|]. split; [done|]. split; [by destruct (may_write_to _ _)|intros _; by apply Hbb].
Qed.

Lemma wp_rmdir path base :
  strict = false -> alive s base -> wp (rmdir w path base) (fun _ => good w strict s) (good w strict s) False s.
Proof.
  intros Hstrict Hb. unfold rmdir. peel. apply wp_resolve_with_parent; [done|done| |by intros; peel].
  intros c Hc Hp. destruct (alive_inode s c Hc) as [n En]. do 2 peel. peel. apply (wp_get_metadata _ n); [done|]. do 2 peel.
  destruct (parent c) as [p|] eqn:Ep; [|by peel]. destruct (Hp p eq_refl) as [Hp1 (d & Ed & Hdir)].
  peel. apply (wp_get_metadata _ d); [done|]. do 4 peel. peel.
  unfold RAMFS.count_entries. peel. apply (wp_get_inode _ n); [done|].
  destruct (negb (RAMFS.is_directory_inode n)); [by peel|]. peel. apply wp_gets.
  apply wp_ret. do 2 peel. peel. apply (wp_get_readonly _ n); [by apply Hst|done|].
  intros b Hbb. do 2 peel. apply (wp_remove_good _ _ d); [done|].
  exists d. split; [done|]. split; [done|]. split; [by destruct (may_write_to _ _)|congruence].
Qed.

(** Writing the text of a new link. *)
Lemma wp_write_link s1 child c data :
  good w strict s s1 -> RAMFS.inodes s !! child = None -> RAMFS.inodes s1 !! child = Some c ->
  mode (RAMFS.m_metadata c) = Z.lor S_IFLNK 0x1A4 -> RAMFS.m_content c = RamFile.file [] 0 ->
  data <> [] -> Z.of_nat (length data) <= 4096 ->
  wp (RAMFS.write_bytes (supplies w) child 0 data) (fun _ => good w strict s) (good w strict s) False s1.
Proof.
  intros [Hs1 Hf] Hnew Ec Hm Hcont Hd Hl. assert (Hok := Hs1 _ _ Ec). unfold RAMFS.write_bytes, RAMFS.prepare_to_write_data.
  peel. peel. apply (wp_get_inode _ c); [done|]. peel.
  destruct (ok_file_system _ _ Hok) as [x Ex]. unfold wp at 1, RAMFS.get_file_system. rewrite Ex.
  destruct (RAMFS.m_readonly x); [by apply wp_lift|]. rewrite Hm. apply wp_ret.
  unfold RAMFS.on_content. peel. apply (wp_get_inode _ c); [done|]. peel. unfold RAMFS.is_directory_inode. rewrite Hm.
  apply wp_verify; [intros _|done]. rewrite Hcont.
  destruct (RamFile.write_bytes_locked (supplies w) 0 data (RamFile.file [] 0)) as [f r] eqn:E.
  apply RamFile.write_exact in E as [If E]; [|by constructor; cbn; [lia|lia|]|lia|done|lia].
  assert (Sz : RamFile.m_size f <= 4096).
  { assert (L := RamFile.contents_length f (RamFile.inv_size _ If)).
    destruct E as [[_ E]|(_ & E & _)]; rewrite E in L; change (RamFile.contents (RamFile.file [] 0)) with (@nil Z) in L;
      cbn [RamFile.flat_run fst] in L; [|cbn in L; lia].
    change (Z.to_nat 0) with 0%nat in L. rewrite take_0, drop_nil, app_nil_l, app_nil_r in L. lia. }
  assert (G : good w strict s (put s1 child (RAMFS.with_content f c))).
  { split.
    - apply store_ok_put; [done|]. destruct Hok as [O1 O2 O3 O4]. by constructor.
    - eapply frame_trans; [exact Hf|eapply (frame_put _ nowhere (fun j => j = child)); [done|by constructor; auto]|done|].
      intros i n Ei ->. congruence. }
  peel. apply wp_put. apply wp_lift. by destruct E as [[-> _]|(-> & _)].
Qed.

Lemma wp_symlink memory target linkpath base :
  alive s base -> target <> [] -> Z.of_nat (length target) <= 4096 ->
  wp (symlink w memory target linkpath base) (fun _ => good w strict s) (good w strict s) False s.
Proof.
  intros Hb Ht Hl. unfold symlink. assert (W := alive_walkable s w Hst). peel.
  eapply (wp_mono _ (fun _ s' => s' = s) _ (good w strict s) _ False); [|intros [] s' ->|done|done].
  { assert (R := sound_resolve s w (standing_store _ _ Hst) (standing_caller _ _ Hst) _ _ W symlink_recursion_limit O_RDWR target base Hb None ltac:(done)).
    unfold wp. destruct (resolve_path_without_veil _ s w target base O_RDWR None) as [q [t|e| |]]; cbn [snd]; [|done..].
    assert (V := validate_total _ w _ _ W t O_RDWR (proj1 R)). destruct (validate_custody w t O_RDWR) as [[]|e| |]; by auto. }
  peel. apply wp_resolve_with_parent; [done|done|by intros; peel|]. intros e [p|] Hp; [|by peel].
  peel. apply wp_lift_safe; [by apply (validate_total _ w _ _ W), Hp|by auto|]. intros _ _. do 2 peel.
  apply wp_checked_parent; [by apply Hp|]. intros Hd. peel.
  eapply wp_mono; [by apply wp_create_good, Hd; apply Hst| |done|done].
  intros child s1 (G & Hnew & c & Ec & Hm & Hcont). peel.
  eapply wp_mono; [eapply (wp_write_link s1 child c); [done|done|done|done|done| |]| |done|done].
  - by destruct target.
  - by rewrite length_map.
  - intros x s' G'. by apply wp_ret.
Qed.

(** ** Opening *)

Lemma truncate_zero m f : RamFile.truncate_locked m 0 f = (RamFile.file [] 0, Ok tt).
Proof.
  unfold RamFile.truncate_locked. rewrite Z.div_0_l, Z.mod_0_l by done. change (0 =? 0) with true.
  change (0 + 0) with 0. rewrite (proj2 (Z.ltb_ge (Z.of_nat _) 0)) by lia. done.
Qed.

Lemma wp_truncate_good c n :
  RAMFS.inodes s !! c = Some n -> file_writable s w c ->
  wp (RAMFS.truncate (supplies w) c 0) (fun _ => good w strict s) (good w strict s) False s.
Proof.
  intros En Hf. assert (Hd : RAMFS.is_directory_inode n = false) by (destruct Hf as (n' & E' & H & _); congruence).
  unfold RAMFS.truncate, RAMFS.on_content. peel. apply (wp_get_inode _ n); [done|]. peel. rewrite Hd.
  apply wp_verify; [intros _|done]. rewrite truncate_zero. peel. apply wp_put, wp_lift. split.
  - apply store_ok_put; [by apply Hst|]. destruct (standing_store _ _ Hst _ _ En) as [O1 O2 O3 O4].
    constructor; [done|done|by constructor; cbn; [lia|lia|]|cbn; lia].
  - eapply frame_put; [done|]. by constructor; auto.
Qed.

Lemma wp_create memory path options mode_arg p :
  alive_dir s p ->
  wp (create w memory path options mode_arg p None) (fun _ => good w strict s) (good w strict s)
    (~ KLexicalPath.name (KLexicalPath.basename path)) s.
Proof.
  intros Hp. assert (W := alive_walkable s w Hst). unfold create. cbv zeta.
  assert (F := walk_names _ _ _ _ W p (proj1 Hp)). rewrite serialize_names. peel.
  assert (J := KLexicalPath.join_name true (names p) (KLexicalPath.basename path) F).
  apply wp_lift_or; [apply join_defined|by intros X Hn; rewrite J in X|by auto|]. intros full Hfull. peel.
  apply wp_lift_or; [apply veil_defined| |by auto|].
  { intros X Hn. rewrite J in Hfull by done. injection Hfull as <-.
    assert (N : Forall KLexicalPath.name (names p ++ [KLexicalPath.basename path])) by (apply Forall_app; by split; [|apply Forall_singleton]).
    apply (validate_names (veil w) _ options) in N. by rewrite X in N. }
  intros _ _. apply wp_checked_parent; [done|]. intros Hd. do 2 peel. peel.
  eapply wp_mono; [by apply wp_create_good, Hd; apply Hst|by intros ? ? [? _]|done|done].
Qed.

Lemma wp_open memory device_open path options mode_arg base :
  alive s base -> (forall m, no_crash (device_open m)) ->
  wp (open w memory device_open path options mode_arg base None) (fun _ => good w strict s) (good w strict s)
    (has options O_CREAT = true /\ ~ KLexicalPath.name (KLexicalPath.basename path)) s.
Proof.
  intros Hb Hdev. unfold open. do 2 peel. peel. apply wp_resolve_with_parent; [done|done| |].
  2:{ intros e [p|] Hp; [|by peel]. destruct (has options O_CREAT && bool_decide (e = ENOENT)) eqn:Hc; [|by peel].
      apply andb_prop in Hc as [Hc _]. eapply wp_mono; [by apply wp_create, Hp|done|done|done]. }
  intros c Hc _. destruct (alive_inode s c Hc) as [n En]. do 2 peel. peel. apply (wp_get_metadata _ n); [done|].
  do 12 peel. destruct (is_fifo _).
  { destruct (has options O_WRONLY); [by peel|]. destruct (has options O_RDONLY); by peel. }
  destruct (is_character_device _ || _).
  { do 3 peel. apply wp_lift_safe; [done|by auto|]. intros [] _. by peel. }
  peel. apply (wp_get_readonly _ n); [by apply Hst|done|]. intros b Hbb. do 2 peel. peel.
  destruct (has options O_WRONLY && has options O_TRUNC) eqn:Ht; [|by apply wp_ret, wp_ret; auto].
  apply andb_prop in Ht as [Ht _]. rewrite Ht in *. cbn [andb] in *. subst b.
  eapply wp_mono; [eapply (wp_truncate_good _ n); [done|]|by intros [] s' G; apply wp_ret|done|done].
  exists n. split; [done|]. split; [done|]. split; [by destruct (may_write_to _ _)|by apply Hbb].
Qed.

(** ** Renaming *)

(** The look at the directory that is replaced changes nothing. *)
Lemma wp_replaced_check (r : Custody + Errno) (o : RAMFS.Inode) Q C :
  (forall c, r = inl c -> alive s c) -> Q tt s ->
  wp (match r with
      | inr _ => ret tt
      | inl new_custody =>
          let* new_inode := RAMFS.get_inode (inode new_custody) in
          if negb (RAMFS.m_index o =? RAMFS.m_index new_inode) && RAMFS.is_directory_inode o && RAMFS.is_directory_inode new_inode then
            let* child_count := RAMFS.count_entries (inode new_custody) in
            fail_if (2 <? child_count) ENOTEMPTY
          else ret tt
      end) Q (good w strict s) C s.
Proof.
  intros Hr HQ. destruct r as [c|e]; [|by apply wp_ret]. destruct (alive_inode s c (Hr c eq_refl)) as [n En].
  peel. apply (wp_get_inode _ n); [done|]. destruct (_ && _); [|by apply wp_ret].
  peel. unfold RAMFS.count_entries. peel. apply (wp_get_inode _ n); [done|].
  destruct (negb (RAMFS.is_directory_inode n)); [by peel|]. peel. apply wp_gets, wp_ret. by apply wp_fail_if; [auto|].
Qed.

(** What either outcome of a resolution gives. *)
Lemma wp_resolved path base options Q (E : RAMFS.t -> Prop) C :
  alive s base ->
  (forall r p, (forall c, r = inl c -> alive s c) -> (forall q, p = Some q -> alive_dir s q) -> Q (r, p) s) ->
  wp (resolve_with_parent w path base options) Q E C s.
Proof.
  intros Hb HQ. apply wp_resolve_with_parent; [done|done| |].
  - intros c Hc Hp. apply HQ; [by intros ? [= <-]|done].
  - intros e p Hp. by apply HQ.
Qed.

Lemma wp_move_good memory old_p old_basename new_p new_basename no nn :
  RAMFS.inodes s !! inode old_p = Some no -> RAMFS.inodes s !! inode new_p = Some nn ->
  dir_writable s w strict (inode old_p) -> dir_writable s w strict (inode new_p) ->
  wp (RAMFS.rename memory (inode old_p) old_basename (inode new_p) new_basename)
    (fun _ => good w strict s) (good w strict s) True s.
Proof.
  intros Eo En Do Dn.
  assert (X : forall i, i = inode old_p \/ i = inode new_p -> dir_writable s w strict i) by (by intros i [->| ->]).
  eapply wp_mono; [apply wp_move; [by apply Hst| |]| | |done].
  - destruct Do as (n & E & H & _). by exists n.
  - destruct Dn as (n & E & H & _). by exists n.
  - intros x s'. by apply shuffled_good.
  - intros s'. by apply shuffled_good.
Qed.

Lemma wp_rename memory old_base old_path new_base new_path :
  alive s old_base -> alive s new_base ->
  wp (rename w memory old_base old_path new_base new_path) (fun _ => good w strict s) (good w strict s) True s.
Proof.
  intros Ho Hn. unfold rename. peel. apply wp_resolved; [done|]. intros [old|e] op Hold Hop; [|by peel].
  destruct (alive_inode s old (Hold old eq_refl)) as [o Eo].
  peel. apply wp_resolved; [done|]. intros r np Hr Hnp. peel.
  eapply (wp_mono _ (fun _ s' => s' = s) _ (good w strict s) _ True); [|intros [] ? ->|done|done].
  { destruct r; [by apply wp_ret|]. by apply wp_fail_if; [auto|]. }
  destruct op as [old_p|]; [|by peel]. destruct np as [new_p|]; [|by peel].
  destruct (Hop _ eq_refl) as [_ (no & Eop & Hod)], (Hnp _ eq_refl) as [_ (nn & Enp & Hnd)].
  peel. apply (wp_get_inode _ o); [done|]. peel. apply wp_replaced_check; [done|].
  peel. apply (wp_get_inode _ no); [done|]. peel. apply (wp_get_inode _ nn); [done|]. do 10 peel.
  peel. apply (wp_get_readonly _ no); [by apply Hst|done|]. intros b1 Hb1.
  peel. apply (wp_get_readonly _ nn); [by apply Hst|done|]. intros b2 Hb2. do 6 peel.
  match goal with H : b1 || b2 = false |- _ => apply orb_false_elim in H as [-> ->] end.
  assert (M : wp (RAMFS.rename memory (inode old_p) (KLexicalPath.basename old_path) (inode new_p) (KLexicalPath.basename new_path))
                (fun _ => good w strict s) (good w strict s) True s).
  { apply (wp_move_good _ _ _ _ _ no nn); [done|done| |].
    - exists no. split; [done|]. split; [done|]. split; [by apply negb_false_iff|]. intros _. by apply Hb1.
    - exists nn. split; [done|]. split; [done|]. split; [by apply negb_false_iff|]. intros _. by apply Hb2. }
  destruct (bool_decide (KLexicalPath.basename old_path = _) && _); [by peel|]. destruct r as [new|e]; [|exact M].
  destruct (alive_inode s new (Hr new eq_refl)) as [n En].
  destruct (inode new =? inode old); [by peel|]. peel. apply (wp_get_metadata _ n); [done|]. do 4 peel. exact M.
Qed.
End Operations.
(** ** Every call *)

(** [rmdir] looks at the wrong file system, see [dir_writable]. *)
Definition strict_of (c : Call) : bool := match c with Rmdir _ _ => false | _ => true end.

Lemma wp_call w c s :
  standing s w -> call_ok s c ->
  wp (run_call w c) (fun _ => good w (strict_of c) s) (good w (strict_of c) s) (may_panic c) s.
Proof.
  intros Hst Hc. destruct c; cbn [run_call call_ok strict_of may_panic] in *.
  - apply wp_bind. eapply wp_mono; [by apply (wp_open w true s); [|apply Hc|apply Hc]|by intros x s' G; apply wp_ret|done|done].
  - by apply wp_mknod.
  - by apply wp_mkdir.
  - by apply wp_access.
  - apply wp_bind, wp_open_directory; [done|done|]. intros c _. by apply wp_ret, good_refl, Hst.
  - by apply wp_chmod.
  - by apply wp_chown.
  - by apply wp_link.
  - by apply wp_unlink.
  - by apply wp_symlink; [|apply Hc..].
  - by apply wp_rmdir.
  - by apply wp_rename; [|apply Hc..].
Qed.

(** ** Sequences of calls *)

(** Calls of any processes one after another; none fails an assertion. *)
Inductive history : RAMFS.t -> list (Caller * Call) -> RAMFS.t -> Prop :=
| history_nil s : history s [] s
| history_call s w c s1 r calls s2 :
    call_ok s c -> run_call w c s = (s1, r) -> no_crash r -> history s1 calls s2 -> history s ((w, c) :: calls) s2.

Lemma history_step w c s s1 r :
  standing s w -> call_ok s c -> run_call w c s = (s1, r) -> no_crash r -> good w (strict_of c) s s1.
Proof. intros Hst Hc E Hr. assert (X := wp_call w c s Hst Hc). unfold wp in X. rewrite E in X. by destruct r. Qed.

Lemma permitted_is_dir w strict s s' i : permitted w strict s s' -> is_dir s i -> is_dir s' i.
Proof.
  intros F (n & E & H). destruct (frame_old _ _ _ _ _ _ F i n E) as (n' & E' & C). exists n'. split; [done|].
  unfold RAMFS.is_directory_inode, is_type in *. by rewrite (changed_type _ _ _ _ _ _ C).
Qed.

(** A process that stands in a store still does after what others did. *)
Lemma standing_good w strict v s s' : good v strict s s' -> standing s w -> standing s' w.
Proof.
  intros [Hs' F] [Hs [R1 R2 R3] Hr]. assert (G := frame_grows _ _ _ _ _ _ F). constructor; [done| |].
  - constructor; [done|by apply G|]. eapply Forall_impl; [exact R3|]. intros m. apply G.
  - destruct (m_root_custody (vfs_root_context w)); [|done]. by eapply permitted_is_dir.
Qed.

(** Neither the user [u] nor the superuser. *)
Definition outsider (u : Z) (w : Caller) : Prop := superuser w = false /\ euid w <> u.

(** Of the inode [n]: the metadata, and the rest too for callers who may not write. *)
Definition kept (ws : list Caller) (n n' : RAMFS.Inode) : Prop :=
  RAMFS.m_metadata n' = RAMFS.m_metadata n /\
  (Forall (fun w => may_write_to w (RAMFS.m_metadata n) = false) ws ->
   RAMFS.m_content n' = RAMFS.m_content n /\ RAMFS.m_children n' = RAMFS.m_children n).

Lemma outsider_keeps u w strict s s' i n :
  outsider u w -> permitted w strict s s' -> RAMFS.inodes s !! i = Some n -> uid (RAMFS.m_metadata n) = u ->
  exists n', RAMFS.inodes s' !! i = Some n' /\ kept [w] n n'.
Proof.
  intros [Hsu Hu] F E Eu. destruct (frame_old _ _ _ _ _ _ F i n E) as (n' & E' & [_ _ _ Cm Cc Cf]). exists n'.
  split; [done|]. split; [destruct Cm as [Cm|[[R|R] _ _ _ _]]; congruence|]. intros Fw. rewrite Forall_singleton in Fw. split.
  - destruct Cf as [Cf|(x & Ex & _ & Hx & _)]; [done|]. rewrite E in Ex. injection Ex as <-. by rewrite Fw in Hx.
  - destruct Cc as [Cc|(x & Ex & _ & Hx & _)]; [done|]. rewrite E in Ex. injection Ex as <-. by rewrite Fw in Hx.
Qed.

Lemma outsider_gives_none u w strict s s' i n' :
  outsider u w -> permitted w strict s s' -> RAMFS.inodes s' !! i = Some n' -> uid (RAMFS.m_metadata n') = u ->
  exists n, RAMFS.inodes s !! i = Some n /\ uid (RAMFS.m_metadata n) = u.
Proof.
  intros [Hsu Hu] F E' Eu. destruct (RAMFS.inodes s !! i) as [n|] eqn:E.
  - exists n. split; [done|]. destruct (frame_old _ _ _ _ _ _ F i n E) as (x & Ex & C).
    rewrite E' in Ex. injection Ex as <-. destruct (changed_metadata _ _ _ _ _ _ C) as [R|[_ [R|R] _ _ _]]; congruence.
  - destruct (frame_new _ _ _ _ _ _ F i n' E E') as [H _]. congruence.
Qed.

Lemma kept_trans ws ws' n1 n2 n3 : kept ws n1 n2 -> kept ws' n2 n3 -> kept (ws ++ ws') n1 n3.
Proof.
  intros [A1 A2] [B1 B2]. split; [congruence|]. intros [F1 F2]%Forall_app. destruct (A2 F1) as [C1 C2].
  destruct B2 as [D1 D2]; [by rewrite A1|]. split; congruence.
Qed.
End VFSAccess.

(** C4: every call on files does at most what permissions allow.  In a
    well-formed store, a call leaves a well-formed store, whether it succeeds or
    fails.  Inodes keep their type and identity.  Metadata change only by the owner or the superuser;
    only the superuser gives files away, and a file that gets another owner or
    group loses its setuid and setgid bits.  Entries change only in directories,
    and contents only in files, that the caller may write to, on file systems
    that can be written to ([rmdir] apart); new inodes belong to the caller.  Only
    [mkdir], [rename] and the creation of a file under a name that is no name of
    an entry can fail an assertion. *)
Theorem access_control (w : VFS.Caller) (c : VFSAccess.Call) (s : RAMFS.t) :
  VFSAccess.standing s w -> VFSAccess.call_ok s c ->
  wp (VFSAccess.run_call w c) (fun _ => VFSAccess.good w (VFSAccess.strict_of c) s)
    (VFSAccess.good w (VFSAccess.strict_of c) s) (VFSAccess.may_panic c) s.
Proof. apply VFSAccess.wp_call. Qed.


(** ** In the small file system *)

Module Acts.
Import VFS VFSResolve VFSAccess VFSResolve.Sample.

Lemma standing_sample u : standing store (process u).
Proof. constructor; [apply store_ok_sample|apply caller_ok_sample|]. by eexists. Qed.

(** The owner of "/home/f" lets nobody else read it. *)
Definition close_file : Call := Chmod (sv "/l/f") 0x180 root 0.

(** Another user makes a link to "home" and tries the same. *)
Definition make_link : Call := Symlink (true, true) (sv "home") (sv "/m") root.
Definition close_through_link : Call := Chmod (sv "/m/f") 0x180 root 0.

Definition after (u : Z) (c : Call) (s : RAMFS.t) : RAMFS.t := fst (run_call (process u) c s).

Lemma after_history u c s calls s' :
  call_ok s c -> no_crash (snd (run_call (process u) c s)) -> history (after u c s) calls s' ->
  history s ((process u, c) :: calls) s'.
Proof. intros Hc Hr H. eapply history_call; [done|apply surjective_pairing|done|done]. Qed.
End Acts.

Lemma access_control_witness :
  VFSAccess.good (VFSResolve.Sample.process 100) true VFSResolve.Sample.store (Acts.after 100 Acts.close_file VFSResolve.Sample.store) /\
  snd (VFSAccess.run_call (VFSResolve.Sample.process 100) Acts.close_file VFSResolve.Sample.store) = Ok tt.
Proof.
  assert (H := access_control (VFSResolve.Sample.process 100) Acts.close_file VFSResolve.Sample.store
                 (Acts.standing_sample 100) ltac:(by eexists)).
  assert (E : snd (VFSAccess.run_call (VFSResolve.Sample.process 100) Acts.close_file VFSResolve.Sample.store) = Ok tt)
    by (vm_compute; reflexivity).
  split; [|exact E]. unfold Acts.after. unfold wp in H.
  destruct (VFSAccess.run_call (VFSResolve.Sample.process 100) Acts.close_file VFSResolve.Sample.store) as [s' r].
  cbn [snd] in E. rewrite E in H. exact H.
Defined.

