(* ===== verification/VFSCorners.v ===== *)
(** Calls on files that go wrong, in the small file system of [VFSResolve.v]:
    failed assertions, and entries that are changed in another directory than
    the one that was checked. *)

From Stdlib Require Import Ascii String.
From S2P Require Import Prelude StringView LexicalPath Process Unveil RamFile InodeMetadata RamFS VFS VFSResolve VFSAccess.

Module VFSCorners.
Import InodeMetadata VFS VFSResolve VFSAccess VFSResolve.Sample.
#[local] Open Scope Z_scope.

(** Calls of users, one after another, and what they return. *)
Fixpoint session (calls : list (Z * Call)) (s : RAMFS.t) : RAMFS.t * list (outcome unit) :=
  match calls with
  | [] => (s, [])
  | (u, c) :: calls =>
      let '(s, r) := run_call (process u) c s in
      let '(s, rs) := session calls s in (s, r :: rs)
  end.

Definition entries (i : Z) (s : RAMFS.t) : list StringView.t :=
  match RAMFS.inodes s !! i with Some n => map fst (RAMFS.m_children n) | None => [] end.

(** What the calls return, and the entries of the root after them. *)
Definition outcomes (calls : list (Z * Call)) : list (outcome unit) * list StringView.t :=
  let '(s, rs) := session calls store in (rs, entries 1 s).

Definition mk (path : string) : Call := Mkdir (true, true) (sv path) 0x1ed root.
Definition ln (target path : string) : Call := Symlink (true, true) (sv target) (sv path) root.
Definition mv (old_path new_path : string) : Call := Rename true root (sv old_path) root (sv new_path).
Definition creat (path : string) : Call :=
  Open (true, true) (fun _ => Ok tt) (sv path) (Z.lor O_WRONLY O_CREAT) 0x1a4 root.
Definition opened (path : string) (options : Z) : Call :=
  Open (true, true) (fun _ => Ok tt) (sv path) options 0 root.

(** [mkdir] below a link to a file: the resolution fails with [ENOTDIR] and has a
    parent. *)
Lemma mkdir_below_file_link_panics :
  snd (session [(7, ln "/home/f" "/k"); (7, mk "/k/x")] store) = [Ok tt; Panic].
Proof. by vm_compute. Qed.

(** Below a link whose target is missing, [mkdir] and [open] create in the
    directory of the missing target, even an entry with the name "..". *)
Lemma create_below_dangling_link :
  outcomes [(7, ln "nowhere" "/d"); (7, mk "/d/x"); (7, creat "/d/..")] =
    ([Ok tt; Ok tt; Ok tt], map sv ["home"; "l"; "d"; "x"; ".."]%string).
Proof. by vm_compute. Qed.

(** [rmdir] of a link to an empty directory removes the entry with the name of the
    link from the parent of the target: here "/home" of another user, which is
    not empty, out of a sticky directory. *)
Lemma rmdir_through_link_removes_other_directory :
  outcomes [(7, mk "/t"); (7, mk "/e"); (7, ln "/e" "/t/home"); (7, Rmdir (sv "/t/home") root)] =
    ([Ok tt; Ok tt; Ok tt; Ok tt], map sv ["l"; "t"; "e"]%string).
Proof. by vm_compute. Qed.

(** [rename] onto a link replaces the entry with the name of the link in the
    parent of the target: here a link of the superuser, in a sticky directory. *)
Lemma rename_onto_link_replaces_other_file :
  let '(s, rs) := session [(7, mk "/t"); (7, creat "/e"); (7, creat "/t/a"); (7, ln "/e" "/t/l"); (7, mv "/t/a" "/t/l")] store in
  rs = [Ok tt; Ok tt; Ok tt; Ok tt; Ok tt] /\
  snd (RAMFS.lookup 1 (sv "l") store) = Ok 3 /\ snd (RAMFS.lookup 1 (sv "l") s) = Ok 7.
Proof. by vm_compute. Qed.

(** The mode that [mkdir] is given can turn the directory into a device. *)
Lemma mkdir_makes_device :
  let '(s, r) := run_call (process 7) (Mkdir (true, true) (sv "/b") (S_IFCHR + 0x1b6) root) store in
  r = Ok tt /\
  match RAMFS.inodes s !! 5 with
  | Some n => is_block_device (mode (RAMFS.m_metadata n)) = true
  | None => False
  end.
Proof. by vm_compute. Qed.

(** [rename] of an empty directory onto another one. *)
Lemma rename_onto_directory_panics :
  snd (session [(7, mk "/a"); (7, mk "/b"); (7, mv "/a" "/b")] store) = [Ok tt; Ok tt; Panic].
Proof. by vm_compute. Qed.

(** The custody of "/a/b", held over the move of "/a/b" to "/c/b". *)
Definition held : Custody := child_custody (child_custody root (sv "a") 5 0) (sv "b") 7 0.

(** With a custody that is held over a move, a directory moves into itself. *)
Lemma rename_into_itself :
  let '(s, rs) := session [(7, mk "/a"); (7, mk "/c"); (7, mk "/a/b"); (7, mv "/a/b" "/c/b");
                           (7, Rename true root (sv "/c") held (sv "x"))] store in
  rs = [Ok tt; Ok tt; Ok tt; Ok tt; Ok tt] /\
  snd (RAMFS.lookup 6 (sv "b") s) = Ok 7 /\ snd (RAMFS.lookup 7 (sv "x") s) = Ok 6.
Proof. by vm_compute. Qed.

(** Without following the last link, a chain of links before it is not followed either. *)
Lemma nofollow_stops_at_inner_links :
  snd (session [(7, ln "x1" "/p"); (7, ln "p" "/q"); (7, ln "/home" "/x1");
                (7, opened "/q/f" O_RDONLY); (7, opened "/x1/f" (Z.lor O_RDONLY O_NOFOLLOW));
                (7, opened "/q/f" (Z.lor O_RDONLY O_NOFOLLOW))] store) =
    [Ok tt; Ok tt; Ok tt; Ok tt; Ok tt; Err ELOOP].
Proof. by vm_compute. Qed.

(** [link] to a path below a link to a file goes on after [ENOTDIR], and makes the
    entry beside the file. *)
Lemma link_below_file_link :
  let '(s, rs) := session [(100, ln "/home/f" "/k"); (100, Link true (sv "/home/f") (sv "/k/x") root)] store in
  rs = [Ok tt; Ok tt] /\ snd (RAMFS.lookup 2 (sv "x") s) = Ok 4.
Proof. by vm_compute. Qed.
End VFSCorners.
